(* ===== verification/_CoqProject ===== *)
-Q . S2P
Prelude.v
Proto.v
BucketKey.v
Storage.v
Service.v
GoStd.v
Config.v
Diff.v
Watcher.v
WatchTime.v
Quota.v
Policy.v
DomainClassifier.v
Server.v
ServerInv.v
ServerProps.v
ServerMessages.v
Grpc.v
Refinement.v
Push.v
Shutdown.v
ShutdownTime.v
RedisStorage.v
RedisRace.v
RedisServer.v
Admin.v
Tracing.v
Main.v
Reload.v
Deployed.v
Wire.v
Live.v
Interleaving.v
Locks.v
ServerLocks.v
Realization.v
