(* ===== verification/Prelude.v ===== *)
(** * RLQS: a rate limit quota service

    A model of the Go program under src/ and proofs of what makes it correct.

    ** The program

    Envoy proxies open gRPC streams to the service, report the usage of their
    rate-limit buckets, and receive quota assignments. A stream is bound to a
    domain by its first message. Every usage report subscribes the stream to a
    bucket, is recorded in a store, and is answered by a quota engine that picks
    an assignment from the configured policies. Subscriptions are counted across
    streams; when the last one to a bucket goes, its usage is removed from the
    store. The configuration file is watched; a new configuration replaces the
    engine, and fresh assignments are pushed to all streams.

    ** Files, and what they model

    - Prelude.v: machine integers, results, maps ranged over in Go's unspecified
      order (class [GoRange]), strings, sums over maps.
    - Proto.v: the protobuf messages; [DurationPb] stands for durationpb.
    - BucketKey.v: BucketKeyFromProto, DomainScopedKey (internal/storage/storage.go).
    - Storage.v: the interface [BucketStore], the promise [LedgerStore] of a store
      to the server, and MemoryStorage, which keeps it (storage.go).
    - Service.v: the contract of the service as an abstract specification: clients,
      subscriptions and a ledger, with events (no reference counts, no locks).
    - GoStd.v: strconv, time.ParseDuration and strings.ToUpper as the program uses
      them; [Regexp] stands for package regexp.
    - Config.v, Diff.v: Load, deprecated fields, environment overrides, Diff
      (internal/config/config.go, diff.go); [LoadEnv] holds the file system, the
      YAML decoder and the environment.
    - Watcher.v: the watch goroutine, its timers, reloads and channel as a
      transition system (internal/config/watcher.go).
    - WatchTime.v: the watcher with a clock: NewWatcher and its debounce (watcher.go).
    - Quota.v, Policy.v: the Engine interface (a concrete type and its method),
      DefaultEngine, and the policy engine
      (internal/quota/quota.go, internal/policy/policy.go).
    - DomainClassifier.v: Classify, also with interleaved calls
      (internal/metrics/domain.go).
    - Server.v: the state of RLQSServer and its handlers, and the transition system
      [server_step] in which handlers of different streams follow one another
      (internal/server/server.go, internal/metrics/metrics.go).
    - ServerInv.v: the bookkeeping invariant of the server and its preservation.
    - ServerProps.v, ServerMessages.v: consequences for reachable states and the
      behaviour of whole messages, sessions and pushes.
    - Grpc.v: the interceptors and their order, the server options, the wrapper
      [Server] and its health statuses (internal/server/server.go); [GrpcStreams],
      [GrpcServer] and [Health] are grpc-go, go-grpc-prometheus and grpc's health
      service.
    - Refinement.v: the abstraction function from Server.v to Service.v and the
      simulation.
    - Push.v: pushAssignments and the send of a handler as steps among the other
      goroutines (server.go).
    - Shutdown.v: the end of main with its goroutines (cmd/rlqs-server/main.go).
    - ShutdownTime.v: the same with a clock, the context of ten seconds and the
      requests the metrics server still has to answer (main.go).
    - RedisStorage.v: the Redis store with its circuit breaker and fallback
      (internal/storage/redis.go); [RedisClient] is the client, Redis and the clock.
    - RedisRace.v: concurrent calls of the Redis store, step by step (redis.go).
    - RedisServer.v: the server on the Redis store, and the server seen without
      its store (server.go, redis.go).
    - Admin.v: the admin endpoints (internal/admin/admin.go).
    - Tracing.v: Init and the OpenTelemetry globals it sets
      (internal/tracing/tracing.go); [OTel] is the SDK.
    - Main.v: building the parts from a configuration, start, TLS options, the
      reload loop, and the running program [app_step] (cmd/rlqs-server/main.go).
    - Reload.v: sequences of reloads, what their pushes tell clients, and the
      reloads that end the process (main.go, server.go).
    - Deployed.v: the store of the running program and the usage its streams report.
    - Wire.v: the quotas of the configuration on the wire (main.go).
    - Live.v: the watcher and the reload loop of the running program together.
    - Interleaving.v: the bookkeeping of server.go with one step per critical
      section.
    - Locks.v: mutexes as resources that goroutines wait for, a small language of
      control flow with locks, and a checker for it.
    - ServerLocks.v: the locks of every function that takes one (server.go,
      storage.go, redis.go, domain.go, admin.go) in that language.
    - Realization.v: every run of Service.v, and so of Server.v, is a schedule of
      Interleaving.v.

    ** How the code is modelled

    State is explicit: a handler is a function from the state before to the state
    after and its error. Errors of the code are constructors of sum types. Counters
    are [Z] with the wrap-around of their Go type written out. Maps are [gmap]s,
    and a range over one visits it in the order of a [GoRange] instance, so that a
    theorem quantified over it holds for every order. Third-party code is a class
    parameter; where a theorem needs more of it than its type, the law is a class
    of its own ([RedisLog]) or a field of the class ([GrpcStreams], [GrpcServer],
    [Health]), with a concrete instance for the examples. The
    program is modelled at three grains. In Server.v a handler is one step, and
    handlers of different streams follow one another: theorems over [server_step]
    or [app_step] speak of such runs. In Interleaving.v, Push.v, RedisRace.v and
    DomainClassifier.v a critical section is one step, and goroutines interleave
    between them. In ServerLocks.v a [Lock] is a step, which waits for the mutex,
    and so is a call that waits for a client or for Redis. A panic
    of the engine ends a handler in the state before the call; the deferred cleanup
    still runs. A panic nobody recovers ends the process: [SwapEngine] and
    [hot_reload] are [None] where [atomic.Value.Store] panics, because the new
    engine has another concrete type than the one stored.

    ** What is proved

    - End to end: in every state the running program reaches, an accepted message
      is answered with the assignments the configuration in force asks for (Main.v),
      and its usage goes to the store chosen at the start (Deployed.v); the
      configuration in force was loaded from the file at a moment of the run, and a
      change of the file that keeps the engine's concrete type can always take
      effect (Live.v).
    - Pushes: interleaved at its locks a push misses no stream that stays
      subscribed, takes a bounded number of its own steps, is invisible to the
      abstract service, and alone is the atomic push of Server.v (Push.v).
    - Server and store: no answer, count or metric depends on the store, so an
      outage of Redis is invisible to clients; every report of an accepted message
      has one of the outcomes of the Redis store (RedisServer.v).
    - Bookkeeping: reference counts, gauges, stored usage and subscriptions agree in
      every state handlers lead to one after another, sessions leave no trace,
      limits hold (ServerProps.v); under interleaving at the locks the counts are
      exact at rest, and usage of a subscribed bucket is missing only after a
      removal that was decided before someone subscribed (Interleaving.v).
    - Refinement: with [abs] the handlers, one after another, are events of the
      abstract service (Refinement.v), and those events are schedules of the
      critical sections (Realization.v).
    - Locks and time: the mutexes never deadlock, and a client that does not read
      holds up only its own handler and pushes (ServerLocks.v); main returns within
      ten seconds, and the delay of the scheduler, of the signal (ShutdownTime.v).
    - Around the handlers: a panic stays in its RPC (Grpc.v), a graceful shutdown
      leaves nothing behind (Shutdown.v), quotas arrive on the wire as configured,
      token counts modulo 2^32 (Wire.v), tracing is installed entirely or not at all
      (Tracing.v), the bucket listing shows the store (Admin.v).
    - Messages: errors are truthful, usage is accounted exactly, domains without the
      separator byte are isolated, good messages are accepted, pushes reach exactly
      the subscribers (ServerProps.v, ServerMessages.v).
    - Stores: the memory store is an exact commutative ledger; every report to the
      Redis store has one of three outcomes, recovery brings the fallback home, and
      the fallback is bounded.
    - Engines and configuration: first match wins, New accepts exactly the good
      patterns, environment over file over default, Diff is exact, the watcher
      can always deliver and starts at most one reload per debounce (WatchTime.v).
    - Keys and labels: storage keys are canonical and, without separator bytes,
      can be read back; the number of metric labels is bounded.
    - What goes wrong is proved too: colliding keys and domains, the race that loses
      usage, removal undone by recovery, lost answers and concurrent recoveries that
      count usage twice, a push stalled by one slow client, an HTTP request that
      uses up the time streams have to drain, retries that do not back off,
      forgotten pending restarts, the watcher's panic and stale delivery, the reload
      that ends the process when it adds the first policy or removes the last, and
      pushes and answers that reach a client in the wrong order.

    ** Fuel and bounds

    ParseDuration takes fuel, one unit per byte of its input, and is proved total
    with it. [read_pairs], the reader of storage keys, takes the length of the key,
    and the round trip shows that to be enough. [run_call] takes seven steps, after
    which a call of the Redis store has returned. [run_push] takes three steps per
    stream and two more, after which a push has returned. All other recursion is
    structural.

    ** Not modelled

    The gRPC transport, JSON encoding, Prometheus exposition, the OpenTelemetry SDK
    and the delivery of signals are the libraries'; so are logging and the deferred
    calls of main that flush the logger and the tracer. A panic of the engine in the
    goroutine that pushes assignments, which no interceptor recovers (the engines of
    the program do not panic there). The expiry of keys inside Redis: what Redis
    holds is the increments it executed since the key was deleted. Which commands of
    a failed call Redis executes is left open. Memory and the network are unbounded,
    and goroutines run until they wait. *)
From Stdlib Require Export Ascii.
From stdpp Require Export base gmap strings list sorting relations.
From Stdlib Require Export ZArith Lia.
#[export] Set Default Goal Selector "!".

(** ** Machine integers

    Go's conversions and arithmetic on fixed-width integers wrap around.
    A value of type [uint64], [uint32] or [int64] is the [Z] it denotes;
    the functions below are the conversions to each type. *)
Definition uint64 (z : Z) : Z := (z `mod` 2^64)%Z.
Definition uint32 (z : Z) : Z := (z `mod` 2^32)%Z.
Definition int64 (z : Z) : Z := ((z + 2^63) `mod` 2^64 - 2^63)%Z.

(** [d * n] on [time.Duration], an [int64] count of nanoseconds. *)
Definition duration_mul (d n : Z) : Z := int64 (d * n).

Definition in_uint64 (z : Z) : Prop := (0 <= z < 2^64)%Z.
Definition in_int64 (z : Z) : Prop := (- 2^63 <= z < 2^63)%Z.
Definition in_uint32 (z : Z) : Prop := (0 <= z < 2^32)%Z.

Lemma uint64_range z : in_uint64 (uint64 z).
Proof. unfold in_uint64, uint64. apply Z.mod_pos_bound. lia. Qed.

Lemma uint64_id z : in_uint64 z → uint64 z = z.
Proof. intros. unfold uint64. by apply Z.mod_small. Qed.

Lemma int64_range z : in_int64 (int64 z).
Proof.
  unfold in_int64, int64.
  pose proof (Z.mod_pos_bound (z + 2^63) (2^64)) as H. lia.
Qed.

Lemma int64_id z : in_int64 z → int64 z = z.
Proof. intros [??]. unfold int64. rewrite Z.mod_small; lia. Qed.

Lemma uint32_range z : in_uint32 (uint32 z).
Proof. unfold in_uint32, uint32. apply Z.mod_pos_bound. lia. Qed.

Lemma uint32_id z : (0 <= z < 2^32)%Z → uint32 z = z.
Proof. intros. unfold uint32. by apply Z.mod_small. Qed.

Lemma uint64_add_l a b : uint64 (uint64 a + b) = uint64 (a + b).
Proof. unfold uint64. by rewrite Z.add_mod_idemp_l by lia. Qed.

Lemma uint64_add_r a b : uint64 (a + uint64 b) = uint64 (a + b).
Proof. unfold uint64. by rewrite Z.add_mod_idemp_r by lia. Qed.

Lemma uint64_idemp a : uint64 (uint64 a) = uint64 a.
Proof. apply uint64_id, uint64_range. Qed.

(** Converting to [int64] and back keeps the value modulo 2^64. *)
Lemma uint64_int64 a : uint64 (int64 a) = uint64 a.
Proof.
  unfold uint64, int64. rewrite Zminus_mod_idemp_l. f_equal. lia.
Qed.

Lemma uint64_add_int64 a b : uint64 (a + int64 b) = uint64 (a + b).
Proof. by rewrite <-uint64_add_r, uint64_int64, uint64_add_r. Qed.

Lemma uint64_congr a b c : uint64 a = uint64 b → uint64 (a + c) = uint64 (b + c).
Proof. intros Heq. by rewrite <-uint64_add_l, Heq, uint64_add_l. Qed.

(** ** Results

    A Go function that returns [(T, error)] returns one or the other. *)
Inductive result (E A : Type) :=
| Ok (a : A)
| Err (e : E).
Arguments Ok {E A} a.
Arguments Err {E A} e.

Definition is_ok {E A} (r : result E A) : bool :=
  match r with Ok _ => true | Err _ => false end.

Declare Scope go_scope.
Delimit Scope go_scope with go.
Open Scope go_scope.

(** [x, err := c; if err != nil { return err }; k] *)
Notation "x <-? c ;; k" :=
  (match c with Ok x => k | Err e => Err e end)
  (at level 100, c at next level, right associativity) : go_scope.

(** ** Ranging over a Go map

    [for k, v := range m] visits every entry of [m] exactly once, in an order
    the language leaves unspecified. An instance of [GoRange] is one choice of
    orders; what is proved with the instance as a parameter holds for all. *)
Class GoRange := {
  map_range : ∀ {K} `{Countable K} {A}, gmap K A → list (K * A);
  map_range_perm : ∀ K `{Countable K} A (m : gmap K A), map_range m ≡ₚ map_to_list m;
}.

(** A concrete order, used by the examples that evaluate. *)
Definition range_in_order : GoRange :=
  {| map_range K _ _ A m := map_to_list m; map_range_perm K _ _ A m := reflexivity _ |}.

(** The reverse order, to exercise independence of the choice. *)
Definition range_reversed : GoRange :=
  {| map_range K _ _ A m := reverse (map_to_list m);
     map_range_perm K _ _ A m := reverse_Permutation (map_to_list m) |}.

Section go_range.
Context `{GoRange} {K : Type} `{Countable K} {A : Type}.
Implicit Types m : gmap K A.

Lemma elem_of_map_range m k v : (k, v) ∈ map_range m ↔ m !! k = Some v.
Proof. by rewrite map_range_perm, elem_of_map_to_list. Qed.

Lemma NoDup_fst_map_range m : NoDup (map_range m).*1.
Proof. rewrite map_range_perm. apply NoDup_fst_map_to_list. Qed.

Lemma length_map_range m : length (map_range m) = size m.
Proof. by rewrite map_range_perm, length_map_to_list. Qed.

Lemma map_range_empty : map_range (∅ : gmap K A) = [].
Proof. apply Permutation_nil_r. by rewrite map_range_perm, map_to_list_empty. Qed.

Lemma elem_of_map_range_fst m k : k ∈ (map_range m).*1 ↔ is_Some (m !! k).
Proof.
  rewrite list_elem_of_fmap. split.
  - intros ([k' v] & -> & Hin). apply elem_of_map_range in Hin. eauto.
  - intros [v Hv]. exists (k, v). by rewrite elem_of_map_range.
Qed.
End go_range.

(** ** Strings as byte sequences *)

(** [len(s)], in bytes. *)
Definition len (s : string) : Z := Z.of_nat (String.length s).

(** Does byte [c] occur in [s]? *)
Fixpoint has_byte (c : ascii) (s : string) : bool :=
  match s with
  | "" => false
  | String d s => bool_decide (c = d) || has_byte c s
  end.

Lemma string_app_nil_l s : "" +:+ s = s.
Proof. done. Qed.

Lemma string_app_cons c s t : String c s +:+ t = String c (s +:+ t).
Proof. done. Qed.

Lemma string_app_nil_r s : s +:+ "" = s.
Proof. induction s as [|c s IH]; [done|]. rewrite string_app_cons. by f_equal. Qed.

Lemma string_app_assoc s t u : (s +:+ t) +:+ u = s +:+ (t +:+ u).
Proof. induction s as [|c s IH]; [done|]. rewrite !string_app_cons. by f_equal. Qed.

Lemma string_length_app s t :
  String.length (s +:+ t) = String.length s + String.length t.
Proof. induction s as [|c s IH]; [done|]. rewrite string_app_cons. cbn. by rewrite IH. Qed.

Create Rewrite HintDb gostr.
#[export] Hint Rewrite string_app_nil_l string_app_nil_r string_app_cons
  string_app_assoc string_length_app : gostr.

(** Cutting at the first occurrence of a separator is unambiguous when the
    part before it does not contain the separator. *)
Lemma cut_first_byte c s s' t t' :
  has_byte c s = false → has_byte c s' = false →
  s +:+ String c t = s' +:+ String c t' → s = s' ∧ t = t'.
Proof.
  revert s'. induction s as [|d s IH]; intros [|d' s'];
    rewrite ?string_app_nil_l, ?string_app_cons; cbn; intros Hs Hs' Heq;
    simplify_eq; rewrite ?bool_decide_eq_true_2 in * by done; try done.
  apply orb_false_iff in Hs as [_ Hs], Hs' as [_ Hs'].
  destruct (IH s') as [-> ->]; auto.
Qed.

(** A string without the separator is never a string with it. *)
Lemma cut_none_byte c s s' t' :
  has_byte c s = false → s ≠ s' +:+ String c t'.
Proof.
  intros Hs ->. revert Hs.
  induction s' as [|d s' IH]; rewrite ?string_app_nil_l, ?string_app_cons; cbn.
  - by rewrite bool_decide_eq_true_2.
  - intros [_ ?]%orb_false_iff. auto.
Qed.

(** ** Finite maps: summing a weight over the entries *)
Section map_sum.
Context {K A : Type} `{Countable K} (f : K → A → Z).
Implicit Types m : gmap K A.

Definition map_sum (m : gmap K A) : Z :=
  foldr (λ p z, f p.1 p.2 + z)%Z 0%Z (map_to_list m).

Lemma sum_list_perm (l l' : list (K * A)) :
  l ≡ₚ l' →
  foldr (λ p z, f p.1 p.2 + z)%Z 0%Z l = foldr (λ p z, f p.1 p.2 + z)%Z 0%Z l'.
Proof. induction 1; cbn; lia. Qed.

Lemma map_sum_empty : map_sum ∅ = 0%Z.
Proof. unfold map_sum. by rewrite map_to_list_empty. Qed.

Lemma map_sum_insert_None m i x :
  m !! i = None → map_sum (<[i:=x]> m) = (f i x + map_sum m)%Z.
Proof.
  intros Hi. unfold map_sum. by rewrite (sum_list_perm _ _ (map_to_list_insert m i x Hi)).
Qed.

Lemma map_sum_delete m i x :
  m !! i = Some x → map_sum (delete i m) = (map_sum m - f i x)%Z.
Proof.
  intros Hi. rewrite <-(insert_delete_id m i x Hi) at 2.
  rewrite map_sum_insert_None by (by rewrite lookup_delete_eq). lia.
Qed.

Lemma map_sum_insert_Some m i x y :
  m !! i = Some x → map_sum (<[i:=y]> m) = (map_sum m - f i x + f i y)%Z.
Proof.
  intros Hi. rewrite <-(insert_delete_eq m i y).
  rewrite map_sum_insert_None by (by rewrite lookup_delete_eq).
  rewrite (map_sum_delete m i x Hi). lia.
Qed.

Lemma map_sum_nonneg m : (∀ i x, (0 <= f i x)%Z) → (0 <= map_sum m)%Z.
Proof.
  intros Hf. unfold map_sum. induction (map_to_list m) as [|[i x] l IH]; cbn; [lia|].
  specialize (Hf i x). lia.
Qed.

(** A sum of non-negative weights is positive when some weight is. *)
Lemma map_sum_pos m :
  (∀ i x, (0 <= f i x)%Z) →
  (0 < map_sum m)%Z ↔ ∃ i x, m !! i = Some x ∧ (0 < f i x)%Z.
Proof.
  intros Hf. split.
  - induction m as [|i x m Hi IH] using map_ind; [rewrite map_sum_empty; lia|].
    rewrite map_sum_insert_None by done. intros Hpos.
    destruct (decide (0 < f i x)%Z) as [Hx|Hx].
    + exists i, x. by rewrite lookup_insert_eq.
    + destruct IH as (j & y & Hj & Hy); [specialize (Hf i x); lia|].
      exists j, y. split; [|done]. rewrite lookup_insert_ne; [done|]. intros ->. congruence.
  - intros (i & x & Hi & Hx). rewrite <-(insert_delete_id m i x Hi).
    rewrite map_sum_insert_None by (by rewrite lookup_delete_eq).
    pose proof (map_sum_nonneg (delete i m) Hf). lia.
Qed.
End map_sum.

Lemma map_sum_ext `{Countable K} {A} (f g : K → A → Z) (m : gmap K A) :
  (∀ i x, m !! i = Some x → f i x = g i x) → map_sum f m = map_sum g m.
Proof.
  induction m as [|i x m Hi IH] using map_ind; intros Hfg; [by rewrite !map_sum_empty|].
  rewrite !map_sum_insert_None by done. rewrite (Hfg i x) by apply lookup_insert_eq. f_equal.
  apply IH. intros j y Hj. apply Hfg. rewrite lookup_insert_ne by congruence. done.
Qed.

Lemma map_sum_fmap `{Countable K} {A B} (h : A → B) (f : K → B → Z) (m : gmap K A) :
  map_sum f (h <$> m) = map_sum (λ i x, f i (h x)) m.
Proof.
  induction m as [|i x m Hi IH] using map_ind; [by rewrite fmap_empty, !map_sum_empty|].
  rewrite fmap_insert, !map_sum_insert_None; [by rewrite IH|done|]. by rewrite lookup_fmap, Hi.
Qed.

(** ** Selecting from a list *)
Lemma omap_keys_NoDup {A B} (f : A → option (A * B)) (l : list A) :
  NoDup l → (∀ x y b, f x = Some (y, b) → y = x) → NoDup (omap f l).*1.
Proof.
  intros Hnd Hf. assert ((omap f l).*1 = filter (λ x, is_Some (f x)) l) as ->; [|by apply NoDup_filter].
  induction Hnd as [|x l _ _ IH]; [done|]. rewrite filter_cons. cbn.
  destruct (f x) as [[y b]|] eqn:E; cbn.
  - rewrite decide_True by eauto. rewrite (Hf x y b E). by f_equal.
  - by rewrite decide_False by (intros [? ?]; congruence).
Qed.
