(* ===== verification/Proto.v ===== *)
(** * The messages of the RLQS protocol

    The data types of the generated protobuf packages (go-control-plane's
    [rate_limit_quota/v3] and [type/v3]) that the server reads and builds, as
    records and sums with the fields the code uses, and their nil-safe getters.
    A Go pointer that may be nil is an [option]. The functions of
    [durationpb], a third-party package, are the parameters of the class
    [DurationPb]; nothing is assumed of them except where a theorem says so. *)
From S2P Require Import Prelude.

Record BucketId := mkBucketId { bucket : gmap string string }.

#[export] Instance BucketId_eq_dec : EqDecision BucketId.
Proof. solve_decision. Defined.

(** [id.GetBucket()]: the empty map for a nil receiver. *)
Definition GetBucket (id : option BucketId) : gmap string string :=
  from_option bucket ∅ id.

(** google.protobuf.Duration *)
Record PbDuration := mkPbDuration { seconds : Z; nanos : Z }.

#[export] Instance PbDuration_eq_dec : EqDecision PbDuration.
Proof. solve_decision. Defined.

(** The two functions of [durationpb] the code calls: [durationpb.New(d)] and
    [x.AsDuration()] (nil-safe). A [time.Duration] is its nanoseconds. *)
Class DurationPb := {
  durationpb_New : Z → PbDuration;
  AsDuration : option PbDuration → Z;
}.

(** A concrete instance, for evaluation: the documented split of a duration
    into seconds and nanoseconds, both with the sign of the duration. *)
Definition durationpb_split : DurationPb :=
  {| durationpb_New d := mkPbDuration (d `quot` 1000000000) (d `rem` 1000000000);
     AsDuration x := from_option (λ p, seconds p * 1000000000 + nanos p)%Z 0%Z x |}.

(** One entry of a usage report message. *)
Record BucketQuotaUsage := mkBucketQuotaUsage {
  usage_bucket_id : option BucketId;
  usage_time_elapsed : option PbDuration;
  usage_num_requests_allowed : Z; (* uint64 *)
  usage_num_requests_denied : Z;  (* uint64 *)
}.

Record RateLimitQuotaUsageReports := mkUsageReports {
  req_domain : string;
  req_bucket_quota_usages : list BucketQuotaUsage;
}.

(** ** Strategies *)
Inductive BlanketRule := ALLOW_ALL | DENY_ALL.

Inductive RateLimitUnit := UNKNOWN | SECOND | MINUTE | HOUR | DAY | MONTH | YEAR.

Record TokenBucket := mkTokenBucket {
  MaxTokens : Z;             (* uint32 *)
  TokensPerFill : option Z;  (* wrapped uint32 *)
  FillInterval : option PbDuration;
}.

Inductive RateLimitStrategy :=
| RateLimitStrategy_BlanketRule (rule : BlanketRule)
| RateLimitStrategy_RequestsPerTimeUnit (requests_per_time_unit : Z) (time_unit : RateLimitUnit)
| RateLimitStrategy_TokenBucket (tb : TokenBucket).

#[export] Instance BlanketRule_eq_dec : EqDecision BlanketRule.
Proof. solve_decision. Defined.
#[export] Instance RateLimitUnit_eq_dec : EqDecision RateLimitUnit.
Proof. solve_decision. Defined.
#[export] Instance TokenBucket_eq_dec : EqDecision TokenBucket.
Proof. solve_decision. Defined.
#[export] Instance RateLimitStrategy_eq_dec : EqDecision RateLimitStrategy.
Proof. solve_decision. Defined.

(** ** Responses *)
Record QuotaAssignmentAction := mkQuotaAssignmentAction {
  AssignmentTimeToLive : option PbDuration;
  assignment_strategy : option RateLimitStrategy;
}.

(** The [bucket_action] oneof. *)
Inductive bucket_action_oneof :=
| BucketAction_QuotaAssignmentAction (a : QuotaAssignmentAction)
| BucketAction_AbandonAction.

Record BucketAction := mkBucketAction {
  action_bucket_id : option BucketId;
  bucket_action : option bucket_action_oneof;
}.

Record RateLimitQuotaResponse := mkResponse { resp_bucket_action : list BucketAction }.

#[export] Instance QuotaAssignmentAction_eq_dec : EqDecision QuotaAssignmentAction.
Proof. solve_decision. Defined.
#[export] Instance bucket_action_oneof_eq_dec : EqDecision bucket_action_oneof.
Proof. solve_decision. Defined.
#[export] Instance BucketAction_eq_dec : EqDecision BucketAction.
Proof. solve_decision. Defined.
#[export] Instance RateLimitQuotaResponse_eq_dec : EqDecision RateLimitQuotaResponse.
Proof. solve_decision. Defined.

(** [a.GetAbandonAction() != nil] *)
Definition has_abandon_action (a : BucketAction) : bool :=
  match bucket_action a with
  | Some BucketAction_AbandonAction => true
  | _ => false
  end.

(** ** Contexts

    What the code does with a [context.Context]: it passes the stream's own
    context or the background one, or derives one with a timeout. *)
Inductive GoContext :=
| Background
| StreamContext
| WithTimeout (parent : GoContext) (timeout : Z).
