(* ===== verification/BucketKey.v ===== *)
(** * Canonical bucket keys (internal/storage/storage.go, lines 13-52)

    [BucketKeyFromProto] turns a bucket id, a map, into a canonical string:
    its keys are collected in map order, sorted, and written with separators.
    [DomainScopedKey] prefixes the domain. The section [encoding] relates the
    string builder loop to a closed form, from which order independence and
    injectivity follow. [read_scoped] reads a scoped key back. *)
From S2P Require Import Prelude Proto.
From stdpp Require Import sorting.

Abbreviation BucketKey := string (only parsing).

Definition nul_byte : ascii := "000".  (* '\x00', between key and value *)
Definition rs_byte : ascii := "030".   (* '\x1e', between pairs *)
Definition us_byte : ascii := "031".   (* '\x1f', between domain and key *)

(** [sort.Strings]: the strings in increasing bytewise order. *)
Definition sort_Strings (l : list string) : list string := merge_sort String.le l.

(** One iteration of the loop that writes the pairs: [i] is the index of the
    key [k] and [sb] what the builder holds so far. *)
Definition write_pair (m : gmap string string) (sb : string) (ik : nat * string) : string :=
  let '(i, k) := ik in
  let sb := if 0 <? i then sb +:+ String rs_byte "" else sb in
  let sb := sb +:+ k in
  let sb := sb +:+ String nul_byte "" in
  sb +:+ default "" (m !! k).

Definition BucketKeyFromProto `{GoRange} (id : option BucketId) : BucketKey :=
  if decide (id = None ∨ size (GetBucket id) = 0) then ""
  else
    let keys := (map_range (GetBucket id)).*1 in
    let keys := sort_Strings keys in
    foldl (write_pair (GetBucket id)) "" (imap pair keys).

Definition DomainScopedKey (domain : string) (key : BucketKey) : BucketKey :=
  if decide (domain = "") then key
  else domain +:+ String us_byte "" +:+ key.

(** ** The closed form of the encoding *)
Section encoding.
Implicit Types l : list (string * string).

Definition encode_pair (p : string * string) : string :=
  p.1 +:+ String nul_byte "" +:+ p.2.

Fixpoint encode_pairs (l : list (string * string)) : string :=
  match l with
  | [] => ""
  | [p] => encode_pair p
  | p :: l => encode_pair p +:+ String rs_byte "" +:+ encode_pairs l
  end.

(** The pairs of a bucket in the order of their keys. *)
Definition sorted_pairs (m : gmap string string) : list (string * string) :=
  (λ k, (k, default "" (m !! k))) <$> sort_Strings (map_to_list m).*1.

Lemma write_pairs_tail m keys i sb :
  foldl (write_pair m) sb (imap (λ j k, (S i + j, k)) keys) =
  sb +:+ foldr (λ k s, String rs_byte (encode_pair (k, default "" (m !! k)) +:+ s)) "" keys.
Proof.
  revert i sb. induction keys as [|k keys IH]; intros i sb; [by rewrite string_app_nil_r|].
  cbn. replace (i + 0) with i by lia.
  rewrite (imap_ext _ (λ j k, (S (S i) + j, k))) by (intros; f_equal/=; lia).
  rewrite IH. unfold encode_pair; cbn. autorewrite with gostr. done.
Qed.

Lemma encode_pairs_cons p l :
  encode_pairs (p :: l) =
  encode_pair p +:+ foldr (λ q s, String rs_byte (encode_pair q +:+ s)) "" l.
Proof.
  revert p. induction l as [|q l IH]; intros p; [by rewrite string_app_nil_r|].
  change (encode_pairs (p :: q :: l))
    with (encode_pair p +:+ String rs_byte "" +:+ encode_pairs (q :: l)).
  rewrite IH. by autorewrite with gostr.
Qed.

Lemma write_pairs_encode m keys :
  foldl (write_pair m) "" (imap pair keys) =
  encode_pairs ((λ k, (k, default "" (m !! k))) <$> keys).
Proof.
  destruct keys as [|k keys]; [done|]. rewrite fmap_cons, encode_pairs_cons. cbn.
  rewrite (imap_ext _ (λ j k, (1 + j, k))) by done.
  rewrite write_pairs_tail, foldr_fmap. unfold encode_pair; cbn.
  by autorewrite with gostr.
Qed.

#[export] Instance sort_Strings_Proper : Proper ((≡ₚ) ==> (=)) sort_Strings.
Proof.
  intros l1 l2 Hl. unfold sort_Strings. apply (StronglySorted_unique String.le).
  - apply (StronglySorted_merge_sort _).
  - apply (StronglySorted_merge_sort _).
  - by rewrite !merge_sort_Permutation.
Qed.

Lemma BucketKeyFromProto_encode `{GoRange} id :
  BucketKeyFromProto id = encode_pairs (sorted_pairs (GetBucket id)).
Proof.
  unfold BucketKeyFromProto. case_decide as Hd.
  - assert (GetBucket id = ∅) as ->.
    { destruct Hd as [->|?%map_size_empty_inv]; done. }
    unfold sorted_pairs. by rewrite map_to_list_empty.
  - rewrite write_pairs_encode. unfold sorted_pairs. by rewrite map_range_perm.
Qed.

Lemma sorted_pairs_perm m : sorted_pairs m ≡ₚ map_to_list m.
Proof.
  unfold sorted_pairs, sort_Strings. rewrite merge_sort_Permutation, <-list_fmap_compose.
  assert (((λ k, (k, default "" (m !! k))) ∘ fst) <$> map_to_list m = map_to_list m) as ->; [|done].
  rewrite <-(list_fmap_id (map_to_list m)) at 2. apply list_fmap_ext.
  intros i [k v] Hkv%list_elem_of_lookup_2%elem_of_map_to_list. cbn. by rewrite Hkv.
Qed.

Lemma sorted_pairs_inj m m' : sorted_pairs m = sorted_pairs m' → m = m'.
Proof.
  intros Heq. apply map_to_list_inj. by rewrite <-!sorted_pairs_perm, Heq.
Qed.
End encoding.

(** ** Injectivity

    No key contains the byte that ends a key and no value the byte that ends
    a value. Keys may still contain [rs_byte] and values [nul_byte]. *)
Definition separable (m : gmap string string) : Prop :=
  map_Forall (λ k v, has_byte nul_byte k = false ∧ has_byte rs_byte v = false) m.

Definition separable_pair (p : string * string) : Prop :=
  has_byte nul_byte p.1 = false ∧ has_byte rs_byte p.2 = false.

Lemma separable_sorted_pairs m : separable m → Forall separable_pair (sorted_pairs m).
Proof.
  intros Hm. rewrite sorted_pairs_perm. apply Forall_forall.
  intros [k v] Hkv%elem_of_map_to_list. apply (Hm k v Hkv).
Qed.

Lemma encode_pairs_inj l l' :
  Forall separable_pair l → Forall separable_pair l' →
  encode_pairs l = encode_pairs l' → l = l'.
Proof.
  intros Hl. revert l'. induction Hl as [|[k v] l [Hk Hv] Hl IH]; intros l' Hl'.
  { destruct Hl' as [|[k' v'] l' _ _]; [done|]. rewrite encode_pairs_cons.
    unfold encode_pair; cbn. autorewrite with gostr. by destruct k'. }
  destruct Hl' as [|[k' v'] l' [Hk' Hv'] Hl']; rewrite ?encode_pairs_cons;
    unfold encode_pair at 1; cbn in *; autorewrite with gostr.
  { by destruct k. }
  unfold encode_pair at 2; cbn. autorewrite with gostr.
  intros [-> Heq]%cut_first_byte; [|done..].
  destruct l as [|p l], l' as [|p' l']; cbn in Heq; autorewrite with gostr in Heq.
  - by rewrite Heq.
  - by apply cut_none_byte in Heq.
  - by symmetry in Heq; apply cut_none_byte in Heq.
  - apply cut_first_byte in Heq as [-> Heq]; [|done..].
    rewrite <-!encode_pairs_cons in Heq. f_equal. by apply IH.
Qed.

Lemma BucketKeyFromProto_inj_pairs `{GoRange} m m' :
  separable m → separable m' →
  BucketKeyFromProto (Some (mkBucketId m)) = BucketKeyFromProto (Some (mkBucketId m')) → m = m'.
Proof.
  rewrite !BucketKeyFromProto_encode. intros Hm Hm' Heq.
  apply sorted_pairs_inj, encode_pairs_inj; auto using separable_sorted_pairs.
Qed.

Lemma DomainScopedKey_nonempty domain key :
  domain ≠ "" → DomainScopedKey domain key = domain +:+ String us_byte key.
Proof. intros. unfold DomainScopedKey. by rewrite decide_False. Qed.

(** Within one domain the prefix keeps keys apart, whatever the domain is. *)
#[export] Instance DomainScopedKey_inj domain : Inj (=) (=) (DomainScopedKey domain).
Proof.
  intros k k'. unfold DomainScopedKey. case_decide; [done|].
  intros ?%(inj (String.app domain)). by simplify_eq.
Qed.

Lemma DomainScopedKey_inj_domain d d' k k' :
  d ≠ "" → d' ≠ "" → has_byte us_byte d = false → has_byte us_byte d' = false →
  DomainScopedKey d k = DomainScopedKey d' k' → d = d' ∧ k = k'.
Proof.
  intros. rewrite !DomainScopedKey_nonempty in * by done. by eapply cut_first_byte.
Qed.

(** ** A reader of scoped keys

    It reads the format the source documents: [domain US key NUL value], with
    RS between the pairs. *)
Fixpoint cut (c : ascii) (s : string) : string * option string :=
  match s with
  | "" => ("", None)
  | String a s =>
      if bool_decide (c = a) then ("", Some s) else let '(x, rest) := cut c s in (String a x, rest)
  end.

Fixpoint read_pairs (fuel : nat) (s : string) : option (list (string * string)) :=
  match fuel with
  | 0 => None
  | S fuel =>
      match cut nul_byte s with
      | (_, None) => None
      | (k, Some s) =>
          match cut rs_byte s with
          | (v, None) => Some [(k, v)]
          | (v, Some s) => (λ l, (k, v) :: l) <$> read_pairs fuel s
          end
      end
  end.

(** Every pair takes a byte at least, so the length of the key is fuel enough. *)
Definition read_key (s : BucketKey) : option (gmap string string) :=
  if decide (s = "") then Some ∅ else list_to_map <$> read_pairs (String.length s) s.

Definition read_scoped (s : BucketKey) : option (string * gmap string string) :=
  match cut us_byte s with
  | (_, None) => None
  | (domain, Some key) => (λ m, (domain, m)) <$> read_key key
  end.

Lemma cut_at c x s : has_byte c x = false → cut c (x +:+ String c s) = (x, Some s).
Proof.
  induction x as [|a x IH].
  { intros _. change (cut c (String c s) = ("", Some s)). unfold cut. by rewrite bool_decide_eq_true_2. }
  intros [Ha Hx]%orb_false_iff. change (String a x +:+ String c s) with (String a (x +:+ String c s)).
  cbn -[bool_decide String.app]. rewrite Ha. by rewrite IH.
Qed.

Lemma cut_end c x : has_byte c x = false → cut c x = (x, None).
Proof.
  induction x as [|a x IH]; [done|]. intros [Ha Hx]%orb_false_iff. cbn -[bool_decide]. rewrite Ha. by rewrite IH.
Qed.

Lemma read_encode_pairs fuel l :
  Forall separable_pair l → l ≠ [] → length l ≤ fuel → read_pairs fuel (encode_pairs l) = Some l.
Proof.
  revert l. induction fuel as [|fuel IH]; intros l Hl Hne Hlen; [destruct l; cbn in *; [done|lia]|].
  destruct Hl as [|[k v] l [Hk Hv] Hl]; [done|]. cbn in Hk, Hv, Hlen.
  destruct l as [|p l].
  - cbn [read_pairs encode_pairs]. unfold encode_pair; cbn [fst snd]. autorewrite with gostr.
    by rewrite cut_at, cut_end.
  - change (encode_pairs ((k, v) :: p :: l)) with (encode_pair (k, v) +:+ String rs_byte "" +:+ encode_pairs (p :: l)).
    unfold encode_pair; cbn [fst snd]. autorewrite with gostr. cbn [read_pairs].
    rewrite cut_at by done. rewrite cut_at by done. rewrite IH; [done..|cbn in *; lia].
Qed.

Lemma encode_pairs_length l : length l ≤ String.length (encode_pairs l).
Proof.
  induction l as [|[k v] l IH]; [done|]. destruct l as [|q l].
  - cbn [encode_pairs length]. unfold encode_pair; cbn [fst snd]. rewrite !string_length_app. cbn. lia.
  - change (encode_pairs ((k, v) :: q :: l)) with (encode_pair (k, v) +:+ String rs_byte "" +:+ encode_pairs (q :: l)).
    rewrite !string_length_app. cbn [String.length length] in *. lia.
Qed.

Lemma read_key_encode m : separable m → read_key (encode_pairs (sorted_pairs m)) = Some m.
Proof.
  intros Hm. assert (list_to_map (sorted_pairs m) = m) as Em.
  { rewrite <-(list_to_map_to_list m) at 2. apply list_to_map_proper; [|apply sorted_pairs_perm].
    rewrite sorted_pairs_perm. apply NoDup_fst_map_to_list. }
  unfold read_key. pose proof (encode_pairs_length (sorted_pairs m)) as Hlen. case_decide as He.
  - rewrite He in Hlen. destruct (sorted_pairs m) as [|p l]; [|cbn in Hlen; lia]. by rewrite <-Em.
  - rewrite read_encode_pairs; [cbn; by rewrite Em|by apply separable_sorted_pairs| |done].
    intros E. by rewrite E in He.
Qed.

(** ** Properties *)

(** C26: storage keys can be read back: from the scoped key of a separable
    bucket id in a separator-free domain a reader of the documented format
    gets the domain and the bucket id, whatever the order in which the map was
    visited; keys of different domains or bucket ids therefore differ. *)
Theorem storage_key_roundtrip `{GoRange} d m :
  d ≠ "" → has_byte us_byte d = false → separable m →
  read_scoped (DomainScopedKey d (BucketKeyFromProto (Some (mkBucketId m)))) = Some (d, m).
Proof.
  intros Hd Hus Hm. rewrite DomainScopedKey_nonempty by done. unfold read_scoped.
  rewrite cut_at by done. rewrite BucketKeyFromProto_encode. cbn. by rewrite read_key_encode.
Qed.

Lemma storage_key_roundtrip_witness :
  let m : gmap string string := {[ "tier" := "premium"; "user" := "alice" ]} in
  read_scoped (DomainScopedKey "api" (@BucketKeyFromProto range_reversed (Some (mkBucketId m)))) = Some ("api", m).
Proof.
  apply (@storage_key_roundtrip range_reversed "api"); try done.
  apply map_Forall_to_list; vm_compute; repeat constructor.
Defined.

(** The key does not depend on the order in which the map is visited: two
    runs that range over the same bucket id in different orders agree. *)
Theorem bucket_key_order_independent (R1 R2 : GoRange) id :
  @BucketKeyFromProto R1 id = @BucketKeyFromProto R2 id.
Proof. by rewrite !BucketKeyFromProto_encode. Qed.

(** Storage keys do not collide: with separator-free domains and separable
    bucket ids, equal scoped keys come from the same domain and bucket id. *)
Theorem storage_key_injective `{GoRange} d d' m m' :
  d ≠ "" → d' ≠ "" → has_byte us_byte d = false → has_byte us_byte d' = false →
  separable m → separable m' →
  DomainScopedKey d (BucketKeyFromProto (Some (mkBucketId m))) =
  DomainScopedKey d' (BucketKeyFromProto (Some (mkBucketId m'))) →
  d = d' ∧ m = m'.
Proof.
  intros ???? Hm Hm' [-> Heq]%DomainScopedKey_inj_domain; [|done..].
  eauto using BucketKeyFromProto_inj_pairs.
Qed.

Lemma storage_key_injective_witness :
  let m : gmap string string := {[ "tier" := "premium"; "user" := "alice" ]} in
  "api" = "api" ∧ m = m.
Proof.
  apply (@storage_key_injective range_in_order "api" "api"); try done;
    apply map_Forall_to_list; vm_compute; repeat constructor.
Defined.

(** A bucket of one entry. *)
Lemma BucketKeyFromProto_one `{GoRange} k v :
  BucketKeyFromProto (Some (mkBucketId {[k := v]})) = k +:+ String nul_byte v.
Proof.
  rewrite BucketKeyFromProto_encode. unfold sorted_pairs. change (GetBucket _) with ({[k := v]} : gmap string string).
  rewrite map_to_list_singleton. cbn. unfold encode_pair; cbn. by rewrite lookup_singleton_eq.
Qed.

(** The domain is not escaped either: what follows a separator byte in it can be
    moved to the front of the bucket's key. *)
Lemma DomainScopedKey_shift `{GoRange} d x k v :
  d ≠ "" →
  DomainScopedKey d (BucketKeyFromProto (Some (mkBucketId {[x +:+ String us_byte k := v]}))) =
  DomainScopedKey (d +:+ String us_byte x) (BucketKeyFromProto (Some (mkBucketId {[k := v]}))).
Proof.
  intros Hd. unfold DomainScopedKey. rewrite decide_False by done.
  rewrite decide_False by (destruct d; discriminate). rewrite !BucketKeyFromProto_one.
  autorewrite with gostr. done.
Qed.

(** The separators are not escaped: two different bucket ids, with
    non-empty keys and values, have the same canonical key. *)
Theorem bucket_key_collision :
  ∃ m m' : gmap string string, m ≠ m' ∧
    map_Forall (λ k v, k ≠ "" ∧ v ≠ "") m ∧ map_Forall (λ k v, k ≠ "" ∧ v ≠ "") m' ∧
    ∀ R : GoRange,
      BucketKeyFromProto (Some (mkBucketId m)) = BucketKeyFromProto (Some (mkBucketId m')).
Proof.
  exists {[ "a" := "1" +:+ String rs_byte ("b" +:+ String nul_byte "2") ]},
         {[ "a" := "1"; "b" := "2" ]}.
  split_and!.
  - intros Heq. apply (f_equal size) in Heq. by vm_compute in Heq.
  - apply map_Forall_to_list. vm_compute. repeat constructor; done.
  - apply map_Forall_to_list. vm_compute. repeat constructor; done.
  - intros R. rewrite !BucketKeyFromProto_encode. by vm_compute.
Qed.
