(* ===== verification/Storage.v ===== *)
(** * The bucket store (internal/storage/storage.go, lines 54-164)

    The interface [BucketStore] the server is written against, the promise a
    store makes to it ([LedgerStore]: a usage ledger per scoped key) and the
    in-memory implementation [MemoryStorage], which keeps the promise. The
    mutex of the Go type makes every operation atomic, so an operation is a
    function from the state before to the state after. *)
From S2P Require Import Prelude Proto BucketKey.

Abbreviation error := string (only parsing).

Record UsageReport := mkUsageReport {
  report_bucket_id : option BucketId;
  NumRequestsAllowed : Z; (* uint64 *)
  NumRequestsDenied : Z;  (* uint64 *)
  TimeElapsed : Z;        (* time.Duration *)
}.

Record UsageState := mkUsageState { Allowed : Z; Denied : Z }.

#[export] Instance UsageState_eq_dec : EqDecision UsageState.
Proof. solve_decision. Defined.

(** [BucketStore]: every call returns its error, if any, and the new state. A
    call may range over maps, each time in an order of its own. *)
Class BucketStore (St : Type) := {
  RecordUsage : ∀ {R : GoRange}, GoContext → string → UsageReport → St → option error * St;
  RemoveBucket : ∀ {R : GoRange}, GoContext → string → BucketKey → St → option error * St;
}.

(** The scoped key under which a report is stored. *)
Definition report_key `{GoRange} (domain : string) (r : UsageReport) : BucketKey :=
  DomainScopedKey domain (BucketKeyFromProto (report_bucket_id r)).

(** Adding usage to what a key holds: counters are [uint64] and wrap. *)
Definition plus_usage (o : option UsageState) (allowed denied : Z) : UsageState :=
  match o with
  | None => mkUsageState allowed denied
  | Some st => mkUsageState (uint64 (Allowed st + allowed)) (uint64 (Denied st + denied))
  end.

(** The promise of a store that always succeeds: [usage s k] is what is
    recorded under the scoped key [k]. *)
Class LedgerStore (St : Type) `{BucketStore St} := {
  usage : St → gmap string UsageState;
  record_usage_ledger `{GoRange} ctx domain r (s : St) :
    (RecordUsage ctx domain r s).1 = None ∧
    usage (RecordUsage ctx domain r s).2 =
      <[ report_key domain r :=
           plus_usage (usage s !! report_key domain r) (NumRequestsAllowed r) (NumRequestsDenied r) ]>
        (usage s);
  remove_bucket_ledger `{GoRange} ctx domain key (s : St) :
    (RemoveBucket ctx domain key s).1 = None ∧
    usage (RemoveBucket ctx domain key s).2 = delete (DomainScopedKey domain key) (usage s);
}.

(** ** MemoryStorage *)
Record MemoryStorage := mkMemoryStorage { buckets : gmap string UsageState }.

Definition NewMemoryStorage : MemoryStorage := mkMemoryStorage ∅.

Definition Get (key : BucketKey) (s : MemoryStorage) : UsageState * bool :=
  match buckets s !! key with
  | None => (mkUsageState 0 0, false)
  | Some state => (state, true)
  end.

Definition Update (key : BucketKey) (allowed denied : Z) (s : MemoryStorage) : MemoryStorage :=
  match buckets s !! key with
  | None => mkMemoryStorage (<[key := mkUsageState allowed denied]> (buckets s))
  | Some state =>
      mkMemoryStorage (<[key := mkUsageState (uint64 (Allowed state + allowed))
                                             (uint64 (Denied state + denied))]> (buckets s))
  end.

Definition Reset (key : BucketKey) (s : MemoryStorage) : MemoryStorage :=
  mkMemoryStorage (delete key (buckets s)).

Definition All `{GoRange} (s : MemoryStorage) : gmap string UsageState :=
  foldl (λ result kv, <[kv.1 := kv.2]> result) ∅ (map_range (buckets s)).

Definition MemoryStorage_RecordUsage `{GoRange} (_ : GoContext) (domain : string)
    (report : UsageReport) (s : MemoryStorage) : option error * MemoryStorage :=
  let key := BucketKeyFromProto (report_bucket_id report) in
  let scopedKey := DomainScopedKey domain key in
  (None, Update scopedKey (NumRequestsAllowed report) (NumRequestsDenied report) s).

Definition MemoryStorage_RemoveBucket (_ : GoContext) (domain : string) (key : BucketKey)
    (s : MemoryStorage) : option error * MemoryStorage :=
  let scopedKey := DomainScopedKey domain key in
  (None, Reset scopedKey s).

Definition Len (s : MemoryStorage) : nat := size (buckets s).

Definition Clear (_ : MemoryStorage) : MemoryStorage := mkMemoryStorage ∅.

#[export] Instance MemoryStorage_BucketStore : BucketStore MemoryStorage :=
  {| RecordUsage R := MemoryStorage_RecordUsage; RemoveBucket R := MemoryStorage_RemoveBucket |}.

(** ** Lemmas *)
Lemma buckets_Update key a d s :
  buckets (Update key a d s) = <[key := plus_usage (buckets s !! key) a d]> (buckets s).
Proof. unfold Update. by destruct (buckets s !! key). Qed.

Lemma foldl_insert_lookup {A} (l : list (string * A)) (m : gmap string A) :
  NoDup l.*1 →
  foldl (λ r kv, <[kv.1 := kv.2]> r) m l = list_to_map l ∪ m.
Proof.
  revert m. induction l as [|[k v] l IH]; intros m Hnd; cbn; [by rewrite (left_id_L ∅ (∪))|].
  apply NoDup_cons in Hnd as [Hk Hnd]. rewrite IH by done.
  rewrite <-insert_union_r by (by apply not_elem_of_list_to_map_1).
  by rewrite insert_union_l.
Qed.

Lemma list_to_map_range `{GoRange} {A} (m : gmap string A) : list_to_map (map_range m) = m.
Proof.
  trans (list_to_map (map_to_list m) : gmap string A); [|apply list_to_map_to_list].
  apply list_to_map_proper; [apply NoDup_fst_map_range|apply map_range_perm].
Qed.

Lemma All_buckets `{GoRange} s : All s = buckets s.
Proof.
  unfold All. rewrite foldl_insert_lookup by apply NoDup_fst_map_range.
  by rewrite (right_id_L ∅ (∪)), list_to_map_range.
Qed.

(** The interface [Storage] of the source, with what its users rely on: [All]
    shows what the other operations read and write. *)
Class GoStorage (St : Type) := {
  storage_Get : BucketKey → St → UsageState * bool;
  storage_Update : BucketKey → Z → Z → St → St;
  storage_Reset : BucketKey → St → St;
  storage_All : ∀ {R : GoRange}, St → gmap string UsageState;
  storage_get_all `{GoRange} k (s : St) :
    storage_Get k s = match storage_All s !! k with Some st => (st, true) | None => (mkUsageState 0 0, false) end;
  storage_update_all `{GoRange} k a d (s : St) :
    storage_All (storage_Update k a d s) = <[k := plus_usage (storage_All s !! k) a d]> (storage_All s);
  storage_reset_all `{GoRange} k (s : St) : storage_All (storage_Reset k s) = delete k (storage_All s);
}.

#[export] Instance MemoryStorage_Storage : GoStorage MemoryStorage.
Proof.
  refine {| storage_Get := Get; storage_Update := Update; storage_Reset := Reset; storage_All R := All |};
    intros; rewrite ?All_buckets; [done|apply buckets_Update|done].
Defined.

#[export] Instance MemoryStorage_Ledger : LedgerStore MemoryStorage.
Proof.
  refine {| usage := buckets |}.
  - intros R ctx domain r s. cbn. by rewrite buckets_Update.
  - done.
Defined.

(** ** Sequences of updates

    Reports of concurrent streams reach the store one after another, in some
    order. An update is a key with its two counters. *)
Section updates.
Implicit Types us : list (BucketKey * (Z * Z)).

Definition apply_update (s : MemoryStorage) (u : BucketKey * (Z * Z)) : MemoryStorage :=
  Update u.1 u.2.1 u.2.2 s.

Definition apply_updates (s : MemoryStorage) (us : list (BucketKey * (Z * Z))) : MemoryStorage :=
  foldl apply_update s us.

Definition update_in_range (u : BucketKey * (Z * Z)) : Prop :=
  in_uint64 u.2.1 ∧ in_uint64 u.2.2.

(** The updates of one key, and their totals. *)
Definition updates_of (k : BucketKey) (us : list (BucketKey * (Z * Z))) : list (Z * Z) :=
  snd <$> filter (λ u, u.1 = k) us.

Definition sum_allowed (l : list (Z * Z)) : Z := foldr (λ p z, p.1 + z)%Z 0%Z l.
Definition sum_denied (l : list (Z * Z)) : Z := foldr (λ p z, p.2 + z)%Z 0%Z l.

(** What a key holds after the updates [l] of it. *)
Definition usage_total (l : list (Z * Z)) : option UsageState :=
  match l with
  | [] => None
  | _ => Some (mkUsageState (uint64 (sum_allowed l)) (uint64 (sum_denied l)))
  end.

Lemma sum_allowed_snoc l p : sum_allowed (l ++ [p]) = (sum_allowed l + p.1)%Z.
Proof. unfold sum_allowed. induction l as [|q l IH]; cbn in *; lia. Qed.

Lemma sum_denied_snoc l p : sum_denied (l ++ [p]) = (sum_denied l + p.2)%Z.
Proof. unfold sum_denied. induction l as [|q l IH]; cbn in *; lia. Qed.

Lemma plus_usage_total l p :
  in_uint64 p.1 → in_uint64 p.2 →
  Some (plus_usage (usage_total l) p.1 p.2) = usage_total (l ++ [p]).
Proof.
  intros. destruct l as [|q l]; cbn -[sum_allowed sum_denied].
  - cbn. by rewrite !Z.add_0_r, !uint64_id.
  - by rewrite !uint64_add_l, <-sum_allowed_snoc, <-sum_denied_snoc.
Qed.

Lemma updates_of_snoc k us u :
  updates_of k (us ++ [u]) = updates_of k us ++ (if decide (u.1 = k) then [u.2] else []).
Proof.
  unfold updates_of. rewrite filter_app, fmap_app, filter_cons, filter_nil.
  by case_decide.
Qed.

Lemma apply_updates_lookup us k :
  Forall update_in_range us →
  buckets (apply_updates NewMemoryStorage us) !! k = usage_total (updates_of k us).
Proof.
  induction us as [|u us IH] using rev_ind; intros Hus; [done|].
  apply Forall_app in Hus as [Hus [[Ha Hd] _]%Forall_cons].
  unfold apply_updates in *. rewrite foldl_snoc. unfold apply_update at 1.
  rewrite buckets_Update, updates_of_snoc, lookup_insert.
  case_decide as Hk; [|by rewrite IH, app_nil_r].
  subst. by rewrite IH, plus_usage_total.
Qed.

#[export] Instance usage_total_Proper : Proper ((≡ₚ) ==> (=)) usage_total.
Proof.
  intros l1 l2 Hl. assert (sum_allowed l1 = sum_allowed l2 ∧ sum_denied l1 = sum_denied l2) as [Ha Hd].
  { clear -Hl. unfold sum_allowed, sum_denied. induction Hl; cbn; lia. }
  destruct l1, l2; cbn -[sum_allowed sum_denied]; rewrite ?Ha, ?Hd; try done.
  - by apply Permutation_nil_l in Hl.
  - by apply Permutation_nil_r in Hl.
Qed.
End updates.

(** ** Properties *)

(** The in-memory store is an exact ledger: after any sequence of updates
    a key holds the totals of its own updates modulo 2^64, and a key that was
    never updated is reported as absent. *)
Theorem memory_storage_totals us k :
  Forall update_in_range us →
  Get k (apply_updates NewMemoryStorage us) =
    match updates_of k us with
    | [] => (mkUsageState 0 0, false)
    | l => (mkUsageState (uint64 (sum_allowed l)) (uint64 (sum_denied l)), true)
    end.
Proof.
  intros Hus. unfold Get. rewrite apply_updates_lookup by done.
  by destruct (updates_of k us).
Qed.

Lemma memory_storage_totals_witness :
  Get "k" (apply_updates NewMemoryStorage [("k", (2^64 - 1, 3)%Z); ("j", (7, 7)%Z); ("k", (5, 1)%Z)])
  = (mkUsageState 4 4, true).
Proof.
  rewrite (memory_storage_totals
    [("k", (2^64 - 1, 3)%Z); ("j", (7, 7)%Z); ("k", (5, 1)%Z)] "k"); [reflexivity|].
  repeat constructor; vm_compute; done.
Defined.

(** The order in which reports arrive does not matter: permuted sequences
    of updates leave the same store, so concurrent streams commute. *)
Theorem memory_storage_updates_commute us us' :
  Forall update_in_range us → us ≡ₚ us' →
  apply_updates NewMemoryStorage us = apply_updates NewMemoryStorage us'.
Proof.
  intros Hus Hperm. assert (Forall update_in_range us') by (by rewrite <-Hperm).
  destruct (apply_updates _ us) as [b] eqn:E, (apply_updates _ us') as [b'] eqn:E'.
  f_equal. apply map_eq. intros k.
  change b with (buckets (mkMemoryStorage b)). change b' with (buckets (mkMemoryStorage b')).
  rewrite <-E, <-E', !apply_updates_lookup by done.
  unfold updates_of. by rewrite Hperm.
Qed.

Lemma memory_storage_updates_commute_witness :
  apply_updates NewMemoryStorage [("a", (1, 2)%Z); ("b", (3, 4)%Z); ("a", (5, 6)%Z)] =
  apply_updates NewMemoryStorage [("a", (5, 6)%Z); ("a", (1, 2)%Z); ("b", (3, 4)%Z)].
Proof.
  apply memory_storage_updates_commute.
  - repeat constructor; vm_compute; done.
  - apply (Permutation_app_comm [("a", (1, 2)%Z); ("b", (3, 4)%Z)] [("a", (5, 6)%Z)]).
Defined.
