(* ===== verification/Service.v ===== *)
(** * What the service promises: an abstract specification

    The contract of the quota service without its bookkeeping: clients with a
    domain and a set of subscribed buckets, and a ledger of usage that holds
    what was reported for buckets somebody is subscribed to. There are no
    reference counts, locks, limits, metrics or engines. The handlers of
    Server.v refine it (Refinement.v), and its runs are schedules of the
    critical sections of Interleaving.v (Realization.v). *)
From S2P Require Import Prelude BucketKey Storage.

Record Client := mkClient {
  cl_domain : option string;   (* None until the first message *)
  cl_subs : gset string;       (* scoped keys *)
}.

Record Service := mkService {
  sv_clients : gmap nat Client;
  sv_ledger : gmap string UsageState;
}.

Definition empty_service : Service := mkService ∅ ∅.

(** The buckets somebody is subscribed to. *)
Definition all_subs (m : gmap nat Client) : gset string := ⋃ (cl_subs <$> (map_to_list m).*2).

(** The ledger without the buckets nobody is subscribed to. *)
Definition prune (m : gmap nat Client) (l : gmap string UsageState) : gmap string UsageState :=
  filter (λ kv, kv.1 ∈ all_subs m) l.

Inductive event :=
| EvOpen (id : nat)
| EvBind (id : nat) (domain : string)
| EvReport (id : nat) (key : BucketKey) (allowed denied : Z)
| EvDrop (id : nat) (key : BucketKey)
| EvClose (id : nat).

Definition event_id (e : event) : nat :=
  match e with
  | EvOpen id | EvBind id _ | EvReport id _ _ _ | EvDrop id _ | EvClose id => id
  end.

(** What the events of a run report. *)
Definition reported (es : list event) : list (BucketKey * Z * Z) :=
  omap (λ e, match e with EvReport _ key a d => Some (key, a, d) | _ => None end) es.

(** The effect of an event, [None] when it is not allowed. *)
Definition exec (e : event) (v : Service) : option Service :=
  match e with
  | EvOpen id =>
      match sv_clients v !! id with
      | Some _ => None
      | None => Some (mkService (<[id := mkClient None ∅]> (sv_clients v)) (sv_ledger v))
      end
  | EvBind id domain =>
      match sv_clients v !! id with
      | Some (mkClient None subs) =>
          if decide (domain = "") then None
          else Some (mkService (<[id := mkClient (Some domain) subs]> (sv_clients v)) (sv_ledger v))
      | _ => None
      end
  | EvReport id key allowed denied =>
      match sv_clients v !! id with
      | Some (mkClient (Some domain) subs) =>
          let k := DomainScopedKey domain key in
          Some (mkService (<[id := mkClient (Some domain) ({[k]} ∪ subs)]> (sv_clients v))
                  (<[k := plus_usage (sv_ledger v !! k) allowed denied]> (sv_ledger v)))
      | _ => None
      end
  | EvDrop id key =>
      match sv_clients v !! id with
      | Some (mkClient (Some domain) subs) =>
          let k := DomainScopedKey domain key in
          if decide (k ∈ subs) then
            let m := <[id := mkClient (Some domain) (subs ∖ {[k]})]> (sv_clients v) in
            Some (mkService m (prune m (sv_ledger v)))
          else None
      | _ => None
      end
  | EvClose id =>
      match sv_clients v !! id with
      | Some _ =>
          let m := delete id (sv_clients v) in Some (mkService m (prune m (sv_ledger v)))
      | None => None
      end
  end.

Fixpoint execs (es : list event) (v : Service) : option Service :=
  match es with
  | [] => Some v
  | e :: es => exec e v ≫= execs es
  end.

(** ** Lemmas *)
Lemma execs_app es es' v : execs (es ++ es') v = execs es v ≫= execs es'.
Proof.
  revert v. induction es as [|e es IH]; intros v; [done|]. cbn. destruct (exec e v); [apply IH|done].
Qed.

Lemma elem_of_all_subs k m : k ∈ all_subs m ↔ ∃ id c, m !! id = Some c ∧ k ∈ cl_subs c.
Proof.
  unfold all_subs. rewrite elem_of_union_list. split.
  - intros (X & HX & Hk). apply list_elem_of_fmap in HX as (c & -> & HX).
    apply list_elem_of_fmap in HX as ([id c'] & -> & Hid%elem_of_map_to_list). eauto.
  - intros (id & c & Hid & Hk). exists (cl_subs c). split; [|done].
    apply list_elem_of_fmap. exists c. split; [done|]. apply list_elem_of_fmap.
    exists (id, c). split; [done|]. by apply elem_of_map_to_list.
Qed.

Lemma all_subs_insert k m id c :
  k ∈ all_subs (<[id := c]> m) ↔ k ∈ cl_subs c ∨ k ∈ all_subs (delete id m).
Proof.
  rewrite !elem_of_all_subs. split.
  - intros (i & c' & Hi & Hk). apply lookup_insert_Some in Hi as [[<- <-]|[Hne Hi]]; [by left|right].
    exists i, c'. by rewrite lookup_delete_ne.
  - intros [Hk|(i & c' & Hi & Hk)].
    + exists id, c. by rewrite lookup_insert_eq.
    + apply lookup_delete_Some in Hi as [Hne Hi]. exists i, c'. by rewrite lookup_insert_ne.
Qed.

Lemma all_subs_lookup k m id c :
  m !! id = Some c → k ∈ all_subs m ↔ k ∈ cl_subs c ∨ k ∈ all_subs (delete id m).
Proof. intros Hid. by rewrite <-(insert_id m id c Hid) at 1; rewrite all_subs_insert. Qed.

Lemma prune_lookup_Some k m l st : prune m l !! k = Some st ↔ l !! k = Some st ∧ k ∈ all_subs m.
Proof. unfold prune. by rewrite map_lookup_filter_Some. Qed.

Lemma dom_prune m l : dom (prune m l) = dom l ∩ all_subs m.
Proof.
  apply set_eq. intros k. rewrite elem_of_intersection, !elem_of_dom. unfold is_Some.
  setoid_rewrite prune_lookup_Some. naive_solver.
Qed.

(** The contract: in every state the specification allows, the ledger holds
    exactly the buckets somebody is subscribed to. *)
Definition ledger_live (v : Service) : Prop := dom (sv_ledger v) = all_subs (sv_clients v).

Lemma exec_ledger_live e v v' : exec e v = Some v' → ledger_live v → ledger_live v'.
Proof.
  unfold ledger_live. intros He Hl. destruct e as [id|id d|id key a dn|id key|id]; cbn in He;
    destruct (sv_clients v !! id) as [[[d'|] subs]|] eqn:Hid; try done.
  - injection He as <-; cbn. rewrite Hl. apply set_eq. intros k.
    rewrite all_subs_insert, delete_id by done. cbn. set_solver.
  - case_decide; [done|]. injection He as <-; cbn. rewrite Hl. apply set_eq. intros k.
    by rewrite all_subs_insert, (all_subs_lookup k _ id _ Hid).
  - injection He as <-; cbn. rewrite dom_insert_L, Hl. apply set_eq. intros k.
    rewrite all_subs_insert, elem_of_union, (all_subs_lookup k _ id _ Hid). cbn. set_solver.
  - case_decide as Hk; [|done]. injection He as <-; cbn. rewrite dom_prune, Hl.
    apply set_eq. intros k. rewrite elem_of_intersection, all_subs_insert, (all_subs_lookup k _ id _ Hid).
    cbn. set_solver.
  - injection He as <-; cbn. rewrite dom_prune, Hl. apply set_eq. intros k.
    rewrite elem_of_intersection, (all_subs_lookup k _ id _ Hid). naive_solver.
  - injection He as <-; cbn. rewrite dom_prune, Hl. apply set_eq. intros k.
    rewrite elem_of_intersection, (all_subs_lookup k _ id _ Hid). naive_solver.
Qed.

Lemma execs_ledger_live es v v' : execs es v = Some v' → ledger_live v → ledger_live v'.
Proof.
  revert v. induction es as [|e es IH]; intros v; cbn; [by intros [= <-]|].
  destruct (exec e v) as [v1|] eqn:E; [|done]. cbn. eauto using exec_ledger_live.
Qed.

Lemma empty_ledger_live : ledger_live empty_service.
Proof. reflexivity. Qed.
