(* ===== verification/GoStd.v ===== *)
(** * The Go standard library functions the program calls

    [strconv.ParseUint(s, 10, 64)], [strconv.Atoi], [time.ParseDuration],
    [time.Since] and [strings.ToUpper], as the standard library defines them. Errors
    are values; their texts are not used by the program. The regular expression
    engine is left abstract: the class [Regexp] is its interface, and every
    theorem that mentions patterns holds for any meaning of them. *)
From S2P Require Import Prelude.
From Stdlib Require Import SpecFloat.
Local Open Scope Z_scope.

(** ** Digits *)
Definition byte_val (c : ascii) : Z := Z.of_N (N_of_ascii c).

Definition is_digit (c : ascii) : bool := (48 <=? byte_val c) && (byte_val c <=? 57).

Definition digit_val (c : ascii) : Z := byte_val c - 48.

(** ** strconv *)
Inductive num_error := ErrSyntax | ErrRange.

Definition maxUint64 : Z := 2^64 - 1.

(** The loop of [ParseUint] in base 10: [n] is the value read so far. *)
Fixpoint ParseUint_loop (n : Z) (s : string) : result num_error Z :=
  match s with
  | ""%string => Ok n
  | String c s =>
      if negb (is_digit c) then Err ErrSyntax
      else if maxUint64 / 10 + 1 <=? n then Err ErrRange
      else
        let n := uint64 (n * 10) in
        let n1 := uint64 (n + digit_val c) in
        if n1 <? n then Err ErrRange else ParseUint_loop n1 s
  end.

Definition ParseUint (s : string) : result num_error Z :=
  if decide (s = ""%string) then Err ErrSyntax else ParseUint_loop 0 s.

(** [Atoi] on a 64-bit platform: an optional sign, digits, a range check. *)
Definition Atoi (s : string) : result num_error Z :=
  let '(neg, digits) :=
    match s with
    | String c rest =>
        if bool_decide (c = "-"%char) then (true, rest)
        else if bool_decide (c = "+"%char) then (false, rest) else (false, s)
    | ""%string => (false, s)
    end in
  un <-? ParseUint digits ;;
  if negb neg && (2^63 <=? un) then Err ErrRange
  else if neg && (2^63 <? un) then Err ErrRange
  else Ok (if neg then - un else un).

(** ** time.ParseDuration *)
Inductive duration_error := InvalidDuration | MissingUnit | UnknownUnit (u : string).

Definition float64 := spec_float.

Definition float64_of_Z (z : Z) : float64 := binary_normalize 53 1024 z 0 false.
Definition float64_mul (a b : float64) : float64 := SFmul 53 1024 a b.
Definition float64_div (a b : float64) : float64 := SFdiv 53 1024 a b.

(** Conversion to [uint64] truncates towards zero. *)
Definition uint64_of_float64 (x : float64) : Z :=
  match x with
  | S754_finite false m e => uint64 (if 0 <=? e then Z.pos m * 2 ^ e else Z.pos m / 2 ^ (- e))
  | _ => 0
  end.

(** [leadingInt]: the digits at the front of [s], and the rest. *)
Fixpoint leadingInt (x : Z) (s : string) : option (Z * string) :=
  match s with
  | ""%string => Some (x, s)
  | String c rest =>
      if negb (is_digit c) then Some (x, s)
      else if 2^63 / 10 <? x then None
      else
        let x := x * 10 + digit_val c in
        if 2^63 <? x then None else leadingInt x rest
  end.

(** [leadingFraction]: digits after the point, kept while they fit. *)
Fixpoint leadingFraction (x : Z) (scale : float64) (overflow : bool) (s : string)
    : Z * float64 * string :=
  match s with
  | ""%string => (x, scale, s)
  | String c rest =>
      if negb (is_digit c) then (x, scale, s)
      else if overflow then leadingFraction x scale overflow rest
      else if (2^63 - 1) / 10 <? x then leadingFraction x scale true rest
      else
        let y := x * 10 + digit_val c in
        if 2^63 <? y then leadingFraction x scale true rest
        else leadingFraction y (float64_mul scale (float64_of_Z 10)) false rest
  end.

(** The unit at the front of [s]: everything up to a digit or a point. *)
Fixpoint split_unit (s : string) : string * string :=
  match s with
  | ""%string => (""%string, ""%string)
  | String c rest =>
      if bool_decide (c = "."%char) || is_digit c then (""%string, s)
      else let '(u, r) := split_unit rest in (String c u, r)
  end.

(** [unitMap]; the two spellings of the micro sign are U+00B5 and U+03BC. *)
Definition unitMap (u : string) : option Z :=
  if decide (u = "ns"%string) then Some 1
  else if decide (u = "us"%string) then Some 1000
  else if decide (u = String "194" (String "181" "s")) then Some 1000
  else if decide (u = String "206" (String "188" "s")) then Some 1000
  else if decide (u = "ms"%string) then Some 1000000
  else if decide (u = "s"%string) then Some 1000000000
  else if decide (u = "m"%string) then Some 60000000000
  else if decide (u = "h"%string) then Some 3600000000000
  else None.

(** One iteration of the main loop on a non-empty [s]: the nanoseconds of one
    number with its unit, and the rest of the string. *)
Definition parse_component (s : string) : result duration_error (Z * string) :=
  match s with
  | ""%string => Err InvalidDuration
  | String c0 _ =>
      if negb (bool_decide (c0 = "."%char) || is_digit c0) then Err InvalidDuration
      else match leadingInt 0 s with
      | None => Err InvalidDuration
      | Some (v, s1) =>
          let pre := negb (Nat.eqb (String.length s) (String.length s1)) in
          let '(f, scale, s2, post) :=
            match s1 with
            | String c1 rest =>
                if bool_decide (c1 = "."%char) then
                  let '(f, scale, s2) := leadingFraction 0 (float64_of_Z 1) false rest in
                  (f, scale, s2, negb (Nat.eqb (String.length rest) (String.length s2)))
                else (0, float64_of_Z 1, s1, false)
            | ""%string => (0, float64_of_Z 1, s1, false)
            end in
          if negb pre && negb post then Err InvalidDuration
          else
            let '(u, s3) := split_unit s2 in
            if decide (u = ""%string) then Err MissingUnit
            else match unitMap u with
            | None => Err (UnknownUnit u)
            | Some unit =>
                if 2^63 / unit <? v then Err InvalidDuration
                else
                  let v := uint64 (v * unit) in
                  if 0 <? f then
                    let v := uint64 (v + uint64_of_float64
                      (float64_mul (float64_of_Z f) (float64_div (float64_of_Z unit) scale))) in
                    if 2^63 <? v then Err InvalidDuration else Ok (v, s3)
                  else Ok (v, s3)
            end
      end
  end.

(** The main loop; [fuel] bounds the number of components. *)
Fixpoint ParseDuration_loop (fuel : nat) (d : Z) (s : string) : option (result duration_error Z) :=
  match s with
  | ""%string => Some (Ok d)
  | _ =>
      match fuel with
      | O => None
      | S fuel =>
          match parse_component s with
          | Err e => Some (Err e)
          | Ok (v, rest) =>
              let d := uint64 (d + v) in
              if 2^63 <? d then Some (Err InvalidDuration) else ParseDuration_loop fuel d rest
          end
      end
  end.

(** Every component is at least one byte long, so the length is enough fuel;
    [ParseDuration_loop_total] below. *)
Definition ParseDuration (s : string) : result duration_error Z :=
  let '(neg, s) :=
    match s with
    | String c rest =>
        if bool_decide (c = "-"%char) then (true, rest)
        else if bool_decide (c = "+"%char) then (false, rest) else (false, s)
    | ""%string => (false, s)
    end in
  if decide (s = "0"%string) then Ok 0
  else if decide (s = ""%string) then Err InvalidDuration
  else match ParseDuration_loop (String.length s) 0 s with
  | Some (Ok d) =>
      if neg then Ok (int64 (- d))
      else if 2^63 - 1 <? d then Err InvalidDuration else Ok d
  | Some (Err e) => Err e
  | None => Err InvalidDuration
  end.

(** ** time.Since

    The difference of two clock readings, saturated to the range of a
    [time.Duration]. *)
Definition time_Since (now last : Z) : Z :=
  Z.max (- 2^63) (Z.min (2^63 - 1) (now - last)).

(** [time.Second], in nanoseconds. *)
Definition second : Z := 1000000000.

(** ** strings.ToUpper, up to comparison with ASCII text

    ASCII letters are raised. Of the other code points only U+0131 (dotless i)
    and U+017F (long s) have an ASCII upper case; the rest stay outside ASCII,
    so leaving their bytes as they are keeps every comparison with an ASCII
    string. *)
Definition upper_byte (c : ascii) : ascii :=
  if (97 <=? byte_val c) && (byte_val c <=? 122)
  then ascii_of_N (N_of_ascii c - 32) else c.

Fixpoint ToUpper (s : string) : string :=
  match s with
  | ""%string => ""%string
  | String c rest =>
      match rest with
      | String c' rest' =>
          if bool_decide (c = "196"%char) && bool_decide (c' = "177"%char) then String "I" (ToUpper rest')
          else if bool_decide (c = "197"%char) && bool_decide (c' = "191"%char) then String "S" (ToUpper rest')
          else String (upper_byte c) (ToUpper rest)
      | ""%string => String (upper_byte c) ""
      end
  end.

(** ** regexp

    [regexp.Compile] and [Regexp.MatchString]. *)
Class Regexp := {
  regex : Type;
  Compile : string → result string regex;
  MatchString : regex → string → bool;
}.

(** A small concrete instance for evaluation: a pattern is a literal substring,
    and one that starts with [(] does not compile. *)
Definition literal_regexp : Regexp :=
  {| regex := string;
     Compile p := match p with
                  | String "(" _ => Err "missing closing )"%string
                  | _ => Ok p
                  end;
     MatchString p s := match String.index 0 p s with Some _ => true | None => false end |}.

(** ** What the parsers compute *)
Fixpoint all_digits (s : string) : bool :=
  match s with
  | ""%string => true
  | String c s => is_digit c && all_digits s
  end.

(** The decimal value of the digits [s] after the value [n]. *)
Fixpoint decimal (n : Z) (s : string) : Z :=
  match s with
  | ""%string => n
  | String c s => decimal (n * 10 + digit_val c) s
  end.

Lemma is_digit_val c : is_digit c = true → 0 <= digit_val c <= 9.
Proof.
  unfold is_digit, digit_val. intros [?%Z.leb_le ?%Z.leb_le]%andb_true_iff. lia.
Qed.

Lemma decimal_ge n s : 0 <= n → all_digits s = true → n <= decimal n s.
Proof.
  revert n. induction s as [|c s IH]; intros n Hn; cbn; [lia|].
  intros [Hc%is_digit_val Hs]%andb_true_iff.
  assert (n * 10 + digit_val c <= decimal (n * 10 + digit_val c) s) by (apply IH; [lia|done]). lia.
Qed.

Lemma ParseUint_loop_spec n s v :
  in_uint64 n →
  ParseUint_loop n s = Ok v ↔ all_digits s = true ∧ decimal n s = v ∧ v < 2^64.
Proof.
  revert n. induction s as [|c s IH]; intros n Hn; cbn.
  { unfold in_uint64 in Hn. split; [intros [= <-]; lia|naive_solver]. }
  destruct (is_digit c) eqn:Hc; cbn; [|naive_solver].
  apply is_digit_val in Hc as Hd. unfold in_uint64 in *.
  change (maxUint64 / 10 + 1) with 1844674407370955162.
  assert (all_digits s = true → n * 10 + digit_val c <= decimal (n * 10 + digit_val c) s) as Hge
    by (intros; apply decimal_ge; [lia|done]).
  case_match eqn:Hcut; [apply Z.leb_le in Hcut; split; [done|]; intros (Hs&<-&?); specialize (Hge Hs); lia|].
  apply Z.leb_gt in Hcut. rewrite (uint64_id (n * 10)) by (unfold in_uint64; lia).
  destruct (decide (n * 10 + digit_val c < 2^64)) as [Hlt|Hnlt].
  - rewrite uint64_id by (unfold in_uint64; lia).
    rewrite (proj2 (Z.ltb_ge _ _)) by lia. apply IH. lia.
  - assert (uint64 (n * 10 + digit_val c) = n * 10 + digit_val c - 2^64) as ->.
    { unfold uint64. symmetry. apply Z.mod_unique with 1; lia. }
    rewrite (proj2 (Z.ltb_lt _ _)) by lia. split; [done|]. intros (Hs&<-&?). specialize (Hge Hs). lia.
Qed.

(** [ParseUint] accepts exactly the non-empty digit strings below 2^64. *)
Lemma ParseUint_spec s v :
  ParseUint s = Ok v ↔ s ≠ ""%string ∧ all_digits s = true ∧ decimal 0 s = v ∧ v < 2^64.
Proof.
  unfold ParseUint. case_decide; [naive_solver|].
  rewrite ParseUint_loop_spec by (unfold in_uint64; lia). naive_solver.
Qed.

Lemma ParseUint_range s v : ParseUint s = Ok v → in_uint64 v.
Proof.
  intros (_ & Hs & <- & ?)%ParseUint_spec.
  pose proof (decimal_ge 0 s). unfold in_uint64. naive_solver lia.
Qed.

Lemma Atoi_range s v : Atoi s = Ok v → in_int64 v.
Proof.
  unfold Atoi. destruct (match s with ""%string => _ | _ => _ end) as [neg digits].
  destruct (ParseUint digits) as [un|] eqn:E; [|done].
  apply ParseUint_range in E. unfold in_uint64, in_int64 in *.
  destruct neg; repeat case_match; intros; simplify_eq; lia.
Qed.

(** ** ParseDuration terminates and stays in range *)
Lemma leadingInt_length x s x' s' :
  leadingInt x s = Some (x', s') → (String.length s' <= String.length s)%nat.
Proof.
  revert x. induction s as [|c s IH]; intros x; cbn;
    repeat case_match; intros Heq; simplify_eq; cbn; try lia.
  apply IH in Heq. lia.
Qed.

Lemma leadingFraction_length x sc o s :
  (String.length (leadingFraction x sc o s).2 <= String.length s)%nat.
Proof.
  revert x sc o. induction s as [|c s IH]; intros x sc o; cbn; [lia|].
  repeat case_match; cbn; try lia; apply Nat.le_le_succ_r, IH.
Qed.

Lemma split_unit_length s u r :
  split_unit s = (u, r) → (String.length s = String.length u + String.length r)%nat.
Proof.
  revert u r. induction s as [|c s IH]; intros u r; cbn; repeat case_match; intros; simplify_eq; cbn; try lia.
  by rewrite (IH _ _ eq_refl).
Qed.

Lemma parse_component_length s v r :
  parse_component s = Ok (v, r) → (String.length r < String.length s)%nat.
Proof.
  unfold parse_component. destruct s as [|c0 s]; [done|].
  case_match; [done|]. destruct (leadingInt 0 (String c0 s)) as [[v0 s1]|] eqn:Hi; [|done].
  apply leadingInt_length in Hi.
  destruct (match s1 with ""%string => _ | _ => _ end) as [[[f sc] s2] post] eqn:Hf.
  assert (String.length s2 <= String.length s1)%nat as Hs2.
  { destruct s1 as [|c1 rest]; [by simplify_eq|]. case_match; [|by simplify_eq].
    pose proof (leadingFraction_length 0 (float64_of_Z 1) false rest) as Hl.
    destruct (leadingFraction _ _ _ rest) as [[??]?]. simplify_eq. cbn in *. lia. }
  destruct (negb _ && negb post); [done|]. destruct (split_unit s2) as [u s3] eqn:Hu.
  apply split_unit_length in Hu. clear Hf.
  destruct (decide (u = ""%string)) as [|Hu0]; [done|].
  assert (String.length u ≠ 0)%nat by (by destruct u).
  repeat case_match; intros; simplify_eq; lia.
Qed.

Lemma ParseDuration_loop_total fuel d s :
  (String.length s <= fuel)%nat → is_Some (ParseDuration_loop fuel d s).
Proof.
  revert d s. induction fuel as [|fuel IH]; intros d [|c s] Hlen; cbn [ParseDuration_loop] in *;
    [by eauto|cbn in Hlen; lia|by eauto|].
  destruct (parse_component (String c s)) as [[v r]|] eqn:Hc; [|by eauto].
  apply parse_component_length in Hc. case_match; [by eauto|]. apply IH. lia.
Qed.

Lemma ParseDuration_loop_range fuel d s d' :
  0 <= d <= 2^63 → ParseDuration_loop fuel d s = Some (Ok d') → 0 <= d' <= 2^63.
Proof.
  revert d s. induction fuel as [|fuel IH]; intros d [|c s] Hd; cbn [ParseDuration_loop] in *;
    intros; simplify_eq; auto.
  destruct (parse_component (String c s)) as [[v r]|] eqn:Hc; [|by simplify_eq].
  case_match eqn:Hlt; [by simplify_eq|]. apply Z.ltb_ge in Hlt.
  eapply IH; [|done]. pose proof (uint64_range (d + v)) as []. lia.
Qed.

Lemma ParseDuration_range s d : ParseDuration s = Ok d → in_int64 d.
Proof.
  unfold ParseDuration. destruct (match s with ""%string => _ | _ => _ end) as [neg digits].
  case_decide; [intros; simplify_eq; unfold in_int64; lia|]. case_decide; [done|].
  destruct (ParseDuration_loop _ _ _) as [[z|]|] eqn:E; [|done..].
  apply ParseDuration_loop_range in E; [|lia].
  destruct neg; [intros; simplify_eq; apply int64_range|].
  case_match eqn:Hz; [done|]. apply Z.ltb_ge in Hz. intros; simplify_eq. unfold in_int64. lia.
Qed.
