(* ===== verification/Config.v ===== *)
(** * Configuration (internal/config/config.go)

    The configuration records, the resolution of deprecated fields and [Load]:
    built-in defaults, overlaid by a YAML file, overlaid by environment
    variables. The file system, the environment and the YAML decoder (a
    third-party package) are the fields of [LoadEnv]. A nil slice, map or
    pointer is [None], since [reflect.DeepEqual] tells it from an empty one.
    [typed_config] says that every number is a value of its Go type. *)
From S2P Require Import Prelude GoStd Storage.
Local Open Scope Z_scope.

Record TracingConfig := mkTracingConfig {
  tracing_Enabled : bool;
  tracing_Endpoint : string;
  tracing_Insecure : bool;
}.

Record RedisConfig := mkRedisConfig {
  redis_Addr : string;
  redis_PoolSize : Z; (* int *)
}.

Record StorageConfig := mkStorageConfig {
  storage_Type : string;
  storage_Redis : RedisConfig;
}.

Record TLSConfig := mkTLSConfig {
  CertFile : string;
  KeyFile : string;
  CAFile : string;
}.

(** A [Duration] embeds a [time.Duration]; both are nanoseconds. *)
Record ServerConfig := mkServerConfig {
  GRPCAddr : string;
  MetricsAddr : string;
  server_TLS : TLSConfig;
  MaxConcurrentStreams : Z; (* uint32 *)
  MaxBucketsPerStream : Z;
  MaxReportsPerMessage : Z;
  EngineTimeout : Z;
  MaxBucketEntries : Z;
  MaxBucketKeyLen : Z;
  MaxBucketValueLen : Z;
  MaxMetricDomains : Z;
  KeepaliveMaxIdleTime : Z;
  KeepalivePingInterval : Z;
  KeepalivePingTimeout : Z;
}.

Record DenyResponseConfig := mkDenyResponseConfig {
  HTTPStatus : Z;
  HTTPBody : string;
  GRPCStatusCode : Z;
  GRPCStatusMessage : string;
  ResponseHeadersToAdd : option (gmap string string);
}.

Record PolicyConfig := mkPolicyConfig {
  pc_DomainPattern : string;
  pc_BucketKeyPattern : string;
  pc_TokensPerFill : Z; (* uint64 *)
  pc_RPS : Z;           (* uint64 *)
  pc_AssignmentTTL : option Z;
  pc_Strategy : string;
  pc_RequestsPerTimeUnit : Z; (* uint64 *)
  pc_TimeUnit : string;
  pc_DenyResponse : option DenyResponseConfig;
}.

Record EngineConfig := mkEngineConfig {
  DefaultTokensPerFill : Z; (* uint64 *)
  DefaultRPS : Z;           (* uint64 *)
  ReportingInterval : Z;
  Policies : option (list PolicyConfig);
}.

Record Config := mkConfig {
  cfg_Server : ServerConfig;
  cfg_Engine : EngineConfig;
  cfg_Storage : StorageConfig;
  cfg_Tracing : TracingConfig;
}.

#[export] Instance TracingConfig_eq_dec : EqDecision TracingConfig.
Proof. solve_decision. Defined.
#[export] Instance RedisConfig_eq_dec : EqDecision RedisConfig.
Proof. solve_decision. Defined.
#[export] Instance StorageConfig_eq_dec : EqDecision StorageConfig.
Proof. solve_decision. Defined.
#[export] Instance TLSConfig_eq_dec : EqDecision TLSConfig.
Proof. solve_decision. Defined.
#[export] Instance ServerConfig_eq_dec : EqDecision ServerConfig.
Proof. solve_decision. Defined.
#[export] Instance DenyResponseConfig_eq_dec : EqDecision DenyResponseConfig.
Proof. solve_decision. Defined.
#[export] Instance PolicyConfig_eq_dec : EqDecision PolicyConfig.
Proof. solve_decision. Defined.
#[export] Instance EngineConfig_eq_dec : EqDecision EngineConfig.
Proof. solve_decision. Defined.
#[export] Instance Config_eq_dec : EqDecision Config.
Proof. solve_decision. Defined.

(** The policies as a list; ranging over a nil slice visits nothing. *)
Definition policy_list (e : EngineConfig) : list PolicyConfig := default [] (Policies e).

(** [Duration.UnmarshalYAML], given what the YAML decoder made of the node as
    a string: the new duration, or the error with the duration unchanged. *)
Definition Duration_UnmarshalYAML (decoded : result error string) (d : Z)
    : Z * option (error + duration_error) :=
  match decoded with
  | Err e => (d, Some (inl e))
  | Ok s =>
      match ParseDuration s with
      | Err e => (d, Some (inr e))
      | Ok dur => (dur, None)
      end
  end.

(** ** resolveDeprecated *)
Definition resolve_policy (p : PolicyConfig) : PolicyConfig :=
  if (pc_TokensPerFill p =? 0) && (0 <? pc_RPS p) then
    mkPolicyConfig (pc_DomainPattern p) (pc_BucketKeyPattern p) (pc_RPS p) (pc_RPS p)
      (pc_AssignmentTTL p) (pc_Strategy p) (pc_RequestsPerTimeUnit p) (pc_TimeUnit p)
      (pc_DenyResponse p)
  else p.

Definition resolveDeprecated (e : EngineConfig) : EngineConfig :=
  let tokens :=
    if (DefaultTokensPerFill e =? 0) && (0 <? DefaultRPS e) then DefaultRPS e
    else DefaultTokensPerFill e in
  let tokens := if tokens =? 0 then 100 else tokens in
  mkEngineConfig tokens (DefaultRPS e) (ReportingInterval e)
    (fmap (M := option) (fmap (M := list) resolve_policy) (Policies e)).

(** ** Load *)

Definition default_config : Config :=
  {| cfg_Server :=
       {| GRPCAddr := ":18081"; MetricsAddr := ":9090"; server_TLS := mkTLSConfig "" "" "";
          MaxConcurrentStreams := 1000; MaxBucketsPerStream := 100;
          MaxReportsPerMessage := 1000; EngineTimeout := 5 * second;
          MaxBucketEntries := 100; MaxBucketKeyLen := 256; MaxBucketValueLen := 1024;
          MaxMetricDomains := 100; KeepaliveMaxIdleTime := 5 * 60 * second;
          KeepalivePingInterval := 60 * second; KeepalivePingTimeout := 20 * second |};
     cfg_Engine := mkEngineConfig 0 0 (10 * second) None;
     cfg_Storage := mkStorageConfig "" (mkRedisConfig "" 0);
     cfg_Tracing := mkTracingConfig false "" false |}.

(** What [Load] reads: [os.ReadFile], [yaml.Unmarshal] into an existing
    configuration, and [os.Getenv] (empty when the variable is unset). *)
Record LoadEnv := {
  ReadFile : string → result error string;
  Unmarshal : string → Config → result error Config;
  Getenv : string → string;
}.

(** Assignments to single fields. *)
Definition set_Server (f : ServerConfig → ServerConfig) (c : Config) : Config :=
  mkConfig (f (cfg_Server c)) (cfg_Engine c) (cfg_Storage c) (cfg_Tracing c).

Definition set_GRPCAddr (v : string) : Config → Config :=
  set_Server (λ s, mkServerConfig v (MetricsAddr s) (server_TLS s) (MaxConcurrentStreams s)
    (MaxBucketsPerStream s) (MaxReportsPerMessage s) (EngineTimeout s) (MaxBucketEntries s)
    (MaxBucketKeyLen s) (MaxBucketValueLen s) (MaxMetricDomains s) (KeepaliveMaxIdleTime s)
    (KeepalivePingInterval s) (KeepalivePingTimeout s)).

Definition set_MetricsAddr (v : string) : Config → Config :=
  set_Server (λ s, mkServerConfig (GRPCAddr s) v (server_TLS s) (MaxConcurrentStreams s)
    (MaxBucketsPerStream s) (MaxReportsPerMessage s) (EngineTimeout s) (MaxBucketEntries s)
    (MaxBucketKeyLen s) (MaxBucketValueLen s) (MaxMetricDomains s) (KeepaliveMaxIdleTime s)
    (KeepalivePingInterval s) (KeepalivePingTimeout s)).

Definition set_TLS (f : TLSConfig → TLSConfig) : Config → Config :=
  set_Server (λ s, mkServerConfig (GRPCAddr s) (MetricsAddr s) (f (server_TLS s))
    (MaxConcurrentStreams s) (MaxBucketsPerStream s) (MaxReportsPerMessage s) (EngineTimeout s)
    (MaxBucketEntries s) (MaxBucketKeyLen s) (MaxBucketValueLen s) (MaxMetricDomains s)
    (KeepaliveMaxIdleTime s) (KeepalivePingInterval s) (KeepalivePingTimeout s)).

Definition set_Engine (f : EngineConfig → EngineConfig) (c : Config) : Config :=
  mkConfig (cfg_Server c) (f (cfg_Engine c)) (cfg_Storage c) (cfg_Tracing c).

Definition set_DefaultTokensPerFill (n : Z) : Config → Config :=
  set_Engine (λ e, mkEngineConfig n (DefaultRPS e) (ReportingInterval e) (Policies e)).

Definition set_ReportingInterval (d : Z) : Config → Config :=
  set_Engine (λ e, mkEngineConfig (DefaultTokensPerFill e) (DefaultRPS e) d (Policies e)).

Definition set_Storage (f : StorageConfig → StorageConfig) (c : Config) : Config :=
  mkConfig (cfg_Server c) (cfg_Engine c) (f (cfg_Storage c)) (cfg_Tracing c).

Definition set_Tracing (f : TracingConfig → TracingConfig) (c : Config) : Config :=
  mkConfig (cfg_Server c) (cfg_Engine c) (cfg_Storage c) (f (cfg_Tracing c)).

(** [if v := os.Getenv(name); v != "" { ... }] *)
Definition with_env (env : LoadEnv) (name : string) (f : string → Config → Config)
    (c : Config) : Config :=
  if decide (Getenv env name = ""%string) then c else f (Getenv env name) c.

(** [v == "true" || v == "1"] *)
Definition env_bool (v : string) : bool :=
  bool_decide (v = "true"%string) || bool_decide (v = "1"%string).

(** [if n, err := strconv.ParseUint(v, 10, 64); err == nil { ... = n }] *)
Definition override_tokens (v : string) (c : Config) : Config :=
  match ParseUint v with Ok n => set_DefaultTokensPerFill n c | Err _ => c end.

Definition override_tokens_env (env : LoadEnv) (c : Config) : Config :=
  if decide (Getenv env "RLQS_DEFAULT_TOKENS_PER_FILL" = ""%string)
  then with_env env "RLQS_DEFAULT_RPS" override_tokens c
  else override_tokens (Getenv env "RLQS_DEFAULT_TOKENS_PER_FILL") c.

Definition override_interval (v : string) (c : Config) : Config :=
  match ParseDuration v with Ok d => set_ReportingInterval d c | Err _ => c end.

Definition override_pool_size (v : string) (c : Config) : Config :=
  match Atoi v with
  | Ok n => set_Storage (λ s, mkStorageConfig (storage_Type s)
                                (mkRedisConfig (redis_Addr (storage_Redis s)) n)) c
  | Err _ => c
  end.

(** The environment overrides, in the order of the code. *)
Definition apply_env (env : LoadEnv) (c : Config) : Config :=
  let c := with_env env "RLQS_GRPC_ADDR" set_GRPCAddr c in
  let c := with_env env "RLQS_METRICS_ADDR" set_MetricsAddr c in
  let c := override_tokens_env env c in
  let c := with_env env "RLQS_REPORTING_INTERVAL" override_interval c in
  let c := with_env env "RLQS_TLS_CERT_FILE"
             (λ v, set_TLS (λ t, mkTLSConfig v (KeyFile t) (CAFile t))) c in
  let c := with_env env "RLQS_TLS_KEY_FILE"
             (λ v, set_TLS (λ t, mkTLSConfig (CertFile t) v (CAFile t))) c in
  let c := with_env env "RLQS_TLS_CA_FILE"
             (λ v, set_TLS (λ t, mkTLSConfig (CertFile t) (KeyFile t) v)) c in
  let c := with_env env "RLQS_STORAGE_TYPE"
             (λ v, set_Storage (λ s, mkStorageConfig v (storage_Redis s))) c in
  let c := with_env env "RLQS_STORAGE_REDIS_ADDR"
             (λ v, set_Storage (λ s, mkStorageConfig (storage_Type s)
                                       (mkRedisConfig v (redis_PoolSize (storage_Redis s))))) c in
  let c := with_env env "RLQS_STORAGE_REDIS_POOL_SIZE" override_pool_size c in
  let c := with_env env "RLQS_TRACING_ENABLED"
             (λ v, set_Tracing (λ t, mkTracingConfig (env_bool v) (tracing_Endpoint t)
                                       (tracing_Insecure t))) c in
  let c := with_env env "RLQS_TRACING_ENDPOINT"
             (λ v, set_Tracing (λ t, mkTracingConfig (tracing_Enabled t) v
                                       (tracing_Insecure t))) c in
  with_env env "RLQS_TRACING_INSECURE"
    (λ v, set_Tracing (λ t, mkTracingConfig (tracing_Enabled t) (tracing_Endpoint t)
                              (env_bool v))) c.

(** The defaults overlaid by the file at [path], if any. *)
Definition load_file (env : LoadEnv) (path : string) : result error Config :=
  if decide (path = ""%string) then Ok default_config
  else data <-? ReadFile env path ;; Unmarshal env data default_config.

Definition Load (env : LoadEnv) (path : string) : result error Config :=
  cfg <-? load_file env path ;;
  Ok (apply_env env (set_Engine resolveDeprecated cfg)).

(** ** The effective configuration, field by field

    Each field is given by its own variables and by the configuration the file
    was decoded into; the default token count has two names in both. *)
Definition env_or {X} (env : LoadEnv) (name : string) (upd : string → X) (x : X) : X :=
  if decide (Getenv env name = ""%string) then x else upd (Getenv env name).

Definition parsed_or {E X} (r : result E X) (x : X) : X :=
  match r with Ok y => y | Err _ => x end.

Definition effective_tokens (env : LoadEnv) (from_file : Z) : Z :=
  if decide (Getenv env "RLQS_DEFAULT_TOKENS_PER_FILL" = ""%string)
  then env_or env "RLQS_DEFAULT_RPS" (λ v, parsed_or (ParseUint v) from_file) from_file
  else parsed_or (ParseUint (Getenv env "RLQS_DEFAULT_TOKENS_PER_FILL")) from_file.

(** The token count the file asks for: the new name, else the old one, else 100
    (for the default) or 0 (in a policy). *)
Definition file_tokens (tokens rps : Z) (otherwise : Z) : Z :=
  if decide (tokens ≠ 0) then tokens else if decide (0 < rps) then rps else otherwise.

Definition file_policy (p : PolicyConfig) : PolicyConfig :=
  mkPolicyConfig (pc_DomainPattern p) (pc_BucketKeyPattern p)
    (file_tokens (pc_TokensPerFill p) (pc_RPS p) 0) (pc_RPS p)
    (pc_AssignmentTTL p) (pc_Strategy p) (pc_RequestsPerTimeUnit p) (pc_TimeUnit p) (pc_DenyResponse p).

Definition effective_config (env : LoadEnv) (c : Config) : Config :=
  let '(mkConfig s e st tr) := c in
  {| cfg_Server := mkServerConfig
       (env_or env "RLQS_GRPC_ADDR" id (GRPCAddr s))
       (env_or env "RLQS_METRICS_ADDR" id (MetricsAddr s))
       (mkTLSConfig (env_or env "RLQS_TLS_CERT_FILE" id (CertFile (server_TLS s)))
                    (env_or env "RLQS_TLS_KEY_FILE" id (KeyFile (server_TLS s)))
                    (env_or env "RLQS_TLS_CA_FILE" id (CAFile (server_TLS s))))
       (MaxConcurrentStreams s) (MaxBucketsPerStream s) (MaxReportsPerMessage s)
       (EngineTimeout s) (MaxBucketEntries s) (MaxBucketKeyLen s) (MaxBucketValueLen s)
       (MaxMetricDomains s) (KeepaliveMaxIdleTime s) (KeepalivePingInterval s)
       (KeepalivePingTimeout s);
     cfg_Engine := mkEngineConfig
       (effective_tokens env (file_tokens (DefaultTokensPerFill e) (DefaultRPS e) 100)) (DefaultRPS e)
       (env_or env "RLQS_REPORTING_INTERVAL" (λ v, parsed_or (ParseDuration v) (ReportingInterval e))
          (ReportingInterval e))
       (fmap (M := option) (fmap (M := list) file_policy) (Policies e));
     cfg_Storage := mkStorageConfig
       (env_or env "RLQS_STORAGE_TYPE" id (storage_Type st))
       (mkRedisConfig
          (env_or env "RLQS_STORAGE_REDIS_ADDR" id (redis_Addr (storage_Redis st)))
          (env_or env "RLQS_STORAGE_REDIS_POOL_SIZE"
             (λ v, parsed_or (Atoi v) (redis_PoolSize (storage_Redis st)))
             (redis_PoolSize (storage_Redis st))));
     cfg_Tracing := mkTracingConfig
       (env_or env "RLQS_TRACING_ENABLED" env_bool (tracing_Enabled tr))
       (env_or env "RLQS_TRACING_ENDPOINT" id (tracing_Endpoint tr))
       (env_or env "RLQS_TRACING_INSECURE" env_bool (tracing_Insecure tr)) |}.

(** Each override acts on one section of the configuration. *)
Definition env_section {X} (env : LoadEnv) (name : string) (f : string → X → X) (x : X) : X :=
  if decide (Getenv env name = ""%string) then x else f (Getenv env name) x.

Lemma with_env_Server env name f c :
  with_env env name (λ v, set_Server (f v)) c = set_Server (env_section env name f) c.
Proof. unfold with_env, set_Server, env_section. by destruct c; case_decide. Qed.

Lemma with_env_Engine env name f c :
  with_env env name (λ v, set_Engine (f v)) c = set_Engine (env_section env name f) c.
Proof. unfold with_env, set_Engine, env_section. by destruct c; case_decide. Qed.

Lemma with_env_Storage env name f c :
  with_env env name (λ v, set_Storage (f v)) c = set_Storage (env_section env name f) c.
Proof. unfold with_env, set_Storage, env_section. by destruct c; case_decide. Qed.

Lemma with_env_Tracing env name f c :
  with_env env name (λ v, set_Tracing (f v)) c = set_Tracing (env_section env name f) c.
Proof. unfold with_env, set_Tracing, env_section. by destruct c; case_decide. Qed.

Definition tokens_section (env : LoadEnv) (e : EngineConfig) : EngineConfig :=
  mkEngineConfig (effective_tokens env (DefaultTokensPerFill e)) (DefaultRPS e)
    (ReportingInterval e) (Policies e).

Lemma override_tokens_env_Engine env c :
  override_tokens_env env c = set_Engine (tokens_section env) c.
Proof.
  destruct c as [? [] ? ?].
  unfold override_tokens_env, tokens_section, effective_tokens, with_env, env_or, override_tokens.
  repeat case_decide; try destruct (ParseUint _); done.
Qed.

Definition interval_section (v : string) (e : EngineConfig) : EngineConfig :=
  mkEngineConfig (DefaultTokensPerFill e) (DefaultRPS e)
    (parsed_or (ParseDuration v) (ReportingInterval e)) (Policies e).

Lemma override_interval_Engine env name c :
  with_env env name override_interval c = set_Engine (env_section env name interval_section) c.
Proof.
  rewrite <-with_env_Engine. unfold with_env, override_interval. case_decide; [done|].
  unfold interval_section. destruct c as [? [] ? ?], (ParseDuration _); done.
Qed.

Definition pool_size_section (v : string) (s : StorageConfig) : StorageConfig :=
  mkStorageConfig (storage_Type s)
    (mkRedisConfig (redis_Addr (storage_Redis s)) (parsed_or (Atoi v) (redis_PoolSize (storage_Redis s)))).

Lemma override_pool_size_Storage env name c :
  with_env env name override_pool_size c = set_Storage (env_section env name pool_size_section) c.
Proof.
  rewrite <-with_env_Storage. unfold with_env, override_pool_size. case_decide; [done|].
  unfold pool_size_section. destruct c as [? ? [? []] ?], (Atoi _); done.
Qed.

(** On a record, an override assigns the overridden or the old value. *)
Lemma env_section_field {X Y} env name (f : string → X → X) (mk : Y → X) (upd : string → Y) y :
  (∀ v, f v (mk y) = mk (upd v)) →
  env_section env name f (mk y) = mk (env_or env name upd y).
Proof. intros Hf. unfold env_section, env_or. by case_decide. Qed.

Lemma Config_ext c c' :
  cfg_Server c = cfg_Server c' → cfg_Engine c = cfg_Engine c' →
  cfg_Storage c = cfg_Storage c' → cfg_Tracing c = cfg_Tracing c' → c = c'.
Proof. destruct c, c'; cbn; intros; by f_equal. Qed.

Lemma file_policy_resolve p : resolve_policy p = file_policy p.
Proof.
  destruct p as [d b t r a st n u dr]. unfold resolve_policy, file_policy, file_tokens; cbn.
  destruct (Z.eqb_spec t 0), (Z.ltb_spec 0 r); cbn; repeat case_decide; try lia; subst; done.
Qed.

Lemma resolveDeprecated_file e :
  resolveDeprecated e =
    mkEngineConfig (file_tokens (DefaultTokensPerFill e) (DefaultRPS e) 100) (DefaultRPS e) (ReportingInterval e)
      (fmap (M := option) (fmap (M := list) file_policy) (Policies e)).
Proof.
  unfold resolveDeprecated, file_tokens. f_equal.
  - destruct (Z.eqb_spec (DefaultTokensPerFill e) 0) as [E|], (Z.ltb_spec 0 (DefaultRPS e)); cbn; rewrite ?E; cbn;
      repeat case_decide; repeat case_match; lia.
  - destruct (Policies e) as [ps|]; [|done]. cbn. f_equal. apply list_fmap_ext. intros. apply file_policy_resolve.
Qed.

Lemma apply_env_effective env c :
  apply_env env (set_Engine resolveDeprecated c) = effective_config env c.
Proof.
  unfold apply_env, set_GRPCAddr, set_MetricsAddr, set_TLS.
  rewrite override_tokens_env_Engine, override_interval_Engine, override_pool_size_Storage.
  rewrite (with_env_Server env "RLQS_GRPC_ADDR"), (with_env_Server env "RLQS_METRICS_ADDR"),
    (with_env_Server env "RLQS_TLS_CERT_FILE"), (with_env_Server env "RLQS_TLS_KEY_FILE"),
    (with_env_Server env "RLQS_TLS_CA_FILE").
  rewrite (with_env_Storage env "RLQS_STORAGE_TYPE"), (with_env_Storage env "RLQS_STORAGE_REDIS_ADDR").
  rewrite (with_env_Tracing env "RLQS_TRACING_ENABLED"), (with_env_Tracing env "RLQS_TRACING_ENDPOINT"),
    (with_env_Tracing env "RLQS_TRACING_INSECURE").
  destruct c as [[ga ma [ce ke ca] a1 a2 a3 a4 a5 a6 a7 a8 a9 b1 b2] e [ty [ad ps]] [en ep ins]].
  apply Config_ext;
    lazy beta iota zeta delta [cfg_Server cfg_Engine cfg_Storage cfg_Tracing effective_config
      set_Server set_Engine set_Storage set_Tracing].
  - rewrite (env_section_field env "RLQS_GRPC_ADDR" _
      (λ x, mkServerConfig x ma (mkTLSConfig ce ke ca) a1 a2 a3 a4 a5 a6 a7 a8 a9 b1 b2) id) by done.
    rewrite (env_section_field env "RLQS_METRICS_ADDR" _
      (λ x, mkServerConfig _ x (mkTLSConfig ce ke ca) a1 a2 a3 a4 a5 a6 a7 a8 a9 b1 b2) id) by done.
    rewrite (env_section_field env "RLQS_TLS_CERT_FILE" _
      (λ x, mkServerConfig _ _ (mkTLSConfig x ke ca) a1 a2 a3 a4 a5 a6 a7 a8 a9 b1 b2) id) by done.
    rewrite (env_section_field env "RLQS_TLS_KEY_FILE" _
      (λ x, mkServerConfig _ _ (mkTLSConfig _ x ca) a1 a2 a3 a4 a5 a6 a7 a8 a9 b1 b2) id) by done.
    by rewrite (env_section_field env "RLQS_TLS_CA_FILE" _
      (λ x, mkServerConfig _ _ (mkTLSConfig _ _ x) a1 a2 a3 a4 a5 a6 a7 a8 a9 b1 b2) id) by done.
  - rewrite resolveDeprecated_file.
    set (dt := file_tokens _ _ _). set (dr := DefaultRPS e). set (ri := ReportingInterval e). set (po := fmap _ (Policies e)).
    change (tokens_section env _) with (mkEngineConfig (effective_tokens env dt) dr ri po).
    by rewrite (env_section_field env "RLQS_REPORTING_INTERVAL" _ (λ x, mkEngineConfig _ dr x po)
      (λ v, parsed_or (ParseDuration v) ri)) by done.
  - rewrite (env_section_field env "RLQS_STORAGE_TYPE" _
      (λ x, mkStorageConfig x (mkRedisConfig ad ps)) id) by done.
    rewrite (env_section_field env "RLQS_STORAGE_REDIS_ADDR" _
      (λ x, mkStorageConfig _ (mkRedisConfig x ps)) id) by done.
    by rewrite (env_section_field env "RLQS_STORAGE_REDIS_POOL_SIZE" _
      (λ x, mkStorageConfig _ (mkRedisConfig _ x)) (λ v, parsed_or (Atoi v) ps)) by done.
  - rewrite (env_section_field env "RLQS_TRACING_ENABLED" _
      (λ x, mkTracingConfig x ep ins) env_bool) by done.
    rewrite (env_section_field env "RLQS_TRACING_ENDPOINT" _
      (λ x, mkTracingConfig _ x ins) id) by done.
    by rewrite (env_section_field env "RLQS_TRACING_INSECURE" _
      (λ x, mkTracingConfig _ _ x) env_bool) by done.
Qed.

(** ** Widths

    The values of a configuration are values of their Go types. *)
Definition typed_server (s : ServerConfig) : Prop :=
  in_uint32 (MaxConcurrentStreams s) ∧
  Forall in_int64 [MaxBucketsPerStream s; MaxReportsPerMessage s; EngineTimeout s; MaxBucketEntries s;
    MaxBucketKeyLen s; MaxBucketValueLen s; MaxMetricDomains s; KeepaliveMaxIdleTime s;
    KeepalivePingInterval s; KeepalivePingTimeout s].

Definition typed_policy (p : PolicyConfig) : Prop :=
  Forall in_uint64 [pc_TokensPerFill p; pc_RPS p; pc_RequestsPerTimeUnit p] ∧
  (∀ ttl, pc_AssignmentTTL p = Some ttl → in_int64 ttl) ∧
  (∀ d, pc_DenyResponse p = Some d → in_int64 (HTTPStatus d) ∧ in_int64 (GRPCStatusCode d)).

Definition typed_engine (e : EngineConfig) : Prop :=
  in_uint64 (DefaultTokensPerFill e) ∧ in_uint64 (DefaultRPS e) ∧ in_int64 (ReportingInterval e) ∧
  Forall typed_policy (policy_list e).

Definition typed_config (c : Config) : Prop :=
  typed_server (cfg_Server c) ∧ typed_engine (cfg_Engine c) ∧
  in_int64 (redis_PoolSize (storage_Redis (cfg_Storage c))).

(** The YAML decoder fills the fields with values of their types. *)
Definition typed_decoder (env : LoadEnv) : Prop :=
  ∀ data c c', typed_config c → Unmarshal env data c = Ok c' → typed_config c'.

Lemma typed_default_config : typed_config default_config.
Proof.
  unfold typed_config, typed_server, typed_engine, in_uint32, in_uint64, in_int64. cbn. split_and!; try (unfold second; lia).
  - rewrite !Forall_cons, Forall_nil. unfold second. lia.
  - constructor.
Qed.

Lemma typed_resolve_policy p : typed_policy p → typed_policy (resolve_policy p).
Proof.
  intros (Hn & Httl & Hd). unfold resolve_policy. case_match; [|done]. split; [|done]. cbn.
  rewrite !Forall_cons in *. tauto.
Qed.

Lemma typed_resolveDeprecated e : typed_engine e → typed_engine (resolveDeprecated e).
Proof.
  intros (Ht & Hr & Hi & Hp). split_and!; [|done|done|].
  - cbn. case_match; case_match; try done; unfold in_uint64; lia.
  - unfold policy_list in *. cbn. destruct (Policies e) as [ps|]; [|done]. cbn in *.
    apply Forall_fmap. eapply Forall_impl; [exact Hp|]. intros p. apply typed_resolve_policy.
Qed.

Lemma env_or_parsed {E X} (P : X → Prop) env name (parse : string → result E X) x :
  (∀ v y, parse v = Ok y → P y) → P x → P (env_or env name (λ v, parsed_or (parse v) x) x).
Proof. intros Hp Hx. unfold env_or, parsed_or. case_decide; [done|]. case_match; eauto. Qed.

Lemma load_typed env path c : typed_decoder env → Load env path = Ok c → typed_config c.
Proof.
  intros Hdec. unfold Load. destruct (load_file env path) as [c0|] eqn:Hf; [|done]. intros [= <-].
  assert (typed_config c0) as Hc0.
  { revert Hf. unfold load_file. case_decide; [intros [= <-]; apply typed_default_config|].
    destruct (ReadFile env path) as [data|]; cbn; [|done]. apply Hdec, typed_default_config. }
  rewrite apply_env_effective. destruct c0 as [s e st tr], Hc0 as (Hs & He & Hst).
  apply typed_resolveDeprecated in He. rewrite resolveDeprecated_file in He.
  cbn in He. destruct He as (Ht & Hr & Hi & Hp).
  split_and!; [exact Hs| |].
  - split_and!; [|exact Hr| |exact Hp].
    + cbn -[file_tokens]. unfold effective_tokens. case_decide.
      * apply env_or_parsed; [apply ParseUint_range|done].
      * unfold parsed_or. case_match eqn:E; [by eapply ParseUint_range|done].
    + cbn -[resolveDeprecated]. apply env_or_parsed; [apply ParseDuration_range|done].
  - cbn. apply env_or_parsed; [apply Atoi_range|exact Hst].
Qed.

(** ** Properties *)
Lemma resolve_policy_idem p : resolve_policy (resolve_policy p) = resolve_policy p.
Proof.
  unfold resolve_policy.
  destruct ((pc_TokensPerFill p =? 0) && (0 <? pc_RPS p)) eqn:E; cbn; [|by rewrite E].
  apply andb_true_iff in E as [_ E]. apply Z.ltb_lt in E.
  by rewrite (proj2 (Z.eqb_neq (pc_RPS p) 0)) by lia.
Qed.

Lemma resolved_tokens_positive e :
  0 <= DefaultTokensPerFill e → 0 < DefaultTokensPerFill (resolveDeprecated e).
Proof.
  intros. unfold resolveDeprecated; cbn.
  destruct (DefaultTokensPerFill e =? 0) eqn:E1, (0 <? DefaultRPS e) eqn:E2; cbn;
    rewrite ?E1; try lia.
  apply Z.ltb_lt in E2. by rewrite (proj2 (Z.eqb_neq (DefaultRPS e) 0)) by lia.
Qed.

(** C32: precedence of the sources: without a path [Load] starts from the
    defaults; with one it fails with the error of reading the file or, if that
    succeeds, of decoding its contents over the defaults, and else starts from
    the decoded configuration. The result has, in every field, the value of the
    field's environment variable when that is set (and parses, where it must),
    else the value it started from; the default token count is looked for under
    the new and then the old variable, then under the new and the old name in
    the file, and is 100 otherwise, and a policy's count under both names. *)
Theorem load_precedence env path :
  (path = ""%string → Load env path = Ok (effective_config env default_config)) ∧
  (path ≠ ""%string →
   match ReadFile env path with
   | Err e => Load env path = Err e
   | Ok data =>
       match Unmarshal env data default_config with
       | Err e => Load env path = Err e
       | Ok c => Load env path = Ok (effective_config env c)
       end
   end).
Proof.
  unfold Load, load_file. split.
  - intros ->. rewrite decide_True by done. cbn -[apply_env]. by rewrite apply_env_effective.
  - intros Hp. rewrite decide_False by done. destruct (ReadFile env path) as [data|e]; cbn -[apply_env]; [|done].
    destruct (Unmarshal env data default_config) as [c|e]; cbn -[apply_env]; [|done]. by rewrite apply_env_effective.
Qed.

Definition decoding_env : LoadEnv :=
  {| ReadFile := λ p, if decide (p = "rlqs.yaml"%string) then Ok "data"%string else Err "no such file"%string;
     Unmarshal := λ _ c, Ok (set_GRPCAddr ":1" c);
     Getenv := λ n, if decide (n = "RLQS_METRICS_ADDR"%string) then ":2"%string else ""%string |}.

Lemma load_precedence_witness :
  ∃ c, Load decoding_env "rlqs.yaml" = Ok c ∧ GRPCAddr (cfg_Server c) = ":1"%string ∧
    MetricsAddr (cfg_Server c) = ":2"%string ∧ DefaultTokensPerFill (cfg_Engine c) = 100.
Proof.
  eexists. split; [exact (proj2 (load_precedence decoding_env "rlqs.yaml") ltac:(discriminate))|].
  split; [reflexivity|split; reflexivity].
Defined.

(** Resolving deprecated fields twice is resolving them once: the new
    name wins, and a resolved configuration is stable. *)
Theorem resolve_deprecated_idempotent e :
  resolveDeprecated (resolveDeprecated e) = resolveDeprecated e.
Proof.
  unfold resolveDeprecated at 1 3; cbn. f_equal.
  - unfold resolveDeprecated; cbn.
    destruct (DefaultTokensPerFill e =? 0) eqn:E1, (0 <? DefaultRPS e) eqn:E2; cbn;
      rewrite ?E1; cbn; rewrite ?E1; try done.
    apply Z.ltb_lt in E2. assert ((DefaultRPS e =? 0) = false) as H0 by lia.
    by repeat (rewrite H0; cbn).
  - unfold resolveDeprecated; cbn. destruct (Policies e) as [ps|]; [|done]; cbn. f_equal.
    rewrite <-list_fmap_compose. apply list_fmap_ext. intros. apply resolve_policy_idem.
Qed.

(** A loaded configuration never has a zero default quota by omission:
    the only way to get one is an environment variable that says 0. *)
Theorem load_zero_tokens_explicit env path c c' :
  load_file env path = Ok c → 0 <= DefaultTokensPerFill (cfg_Engine c) →
  Load env path = Ok c' → DefaultTokensPerFill (cfg_Engine c') = 0 →
  ParseUint (Getenv env "RLQS_DEFAULT_TOKENS_PER_FILL") = Ok 0 ∨
  ParseUint (Getenv env "RLQS_DEFAULT_RPS") = Ok 0.
Proof.
  intros Hc Hpos. unfold Load. rewrite Hc. intros [= <-]. rewrite apply_env_effective.
  destruct c as [s e st tr]. cbn -[file_tokens]. cbn in Hpos.
  pose proof (resolved_tokens_positive e Hpos) as Hres. rewrite resolveDeprecated_file in Hres.
  cbn -[file_tokens] in Hres. unfold effective_tokens, env_or. repeat case_decide; [lia| |];
    destruct (ParseUint _) as [n|] eqn:E; cbn -[file_tokens]; intros; subst; auto; lia.
Qed.

Definition zero_tokens_env : LoadEnv :=
  {| ReadFile := λ _, Err "no file"%string; Unmarshal := λ _ c, Ok c;
     Getenv := λ n, if decide (n = "RLQS_DEFAULT_TOKENS_PER_FILL"%string) then "0"%string else ""%string |}.

Lemma load_zero_tokens_explicit_witness :
  (∃ c', Load zero_tokens_env "" = Ok c' ∧ DefaultTokensPerFill (cfg_Engine c') = 0) ∧
  (ParseUint (Getenv zero_tokens_env "RLQS_DEFAULT_TOKENS_PER_FILL") = Ok 0 ∨
   ParseUint (Getenv zero_tokens_env "RLQS_DEFAULT_RPS") = Ok 0).
Proof.
  split; [eexists; split; [vm_compute; reflexivity|reflexivity]|].
  eapply (load_zero_tokens_explicit zero_tokens_env "" default_config);
    [reflexivity|vm_compute; done|vm_compute; reflexivity|reflexivity].
Defined.
