(* ===== verification/Diff.v ===== *)
(** * Configuration differences (internal/config/diff.go)

    [Diff] compares two configurations section by section; [reflect.DeepEqual]
    on these records is equality of their models. *)
From S2P Require Import Prelude Config.

(** [ReloadScope]: a string type with two constants. *)
Inductive ReloadScope := ScopeHotReload | ScopeRequiresRestart.

#[export] Instance ReloadScope_eq_dec : EqDecision ReloadScope.
Proof. solve_decision. Defined.

Record Change := mkChange { Section_ : string; Scope_ : ReloadScope }.

#[export] Instance Change_eq_dec : EqDecision Change.
Proof. solve_decision. Defined.

(** [if !reflect.DeepEqual(a, b) { changes = append(changes, c) }] *)
Definition append_if_changed {A} `{EqDecision A} (a b : A) (c : Change)
    (changes : list Change) : list Change :=
  if decide (a = b) then changes else changes ++ [c].

Definition Diff (old new : Config) : list Change :=
  let changes := [] in
  let changes := append_if_changed (cfg_Engine old) (cfg_Engine new)
                   (mkChange "engine" ScopeHotReload) changes in
  let changes := append_if_changed (cfg_Server old) (cfg_Server new)
                   (mkChange "server" ScopeRequiresRestart) changes in
  let changes := append_if_changed (cfg_Storage old) (cfg_Storage new)
                   (mkChange "storage" ScopeRequiresRestart) changes in
  append_if_changed (cfg_Tracing old) (cfg_Tracing new)
    (mkChange "tracing" ScopeRequiresRestart) changes.

Lemma elem_of_append_if_changed {A} `{EqDecision A} (a b : A) c c' changes :
  c' ∈ append_if_changed a b c changes ↔ c' ∈ changes ∨ (c' = c ∧ a ≠ b).
Proof.
  unfold append_if_changed. case_decide; [naive_solver|].
  rewrite elem_of_app, list_elem_of_singleton. naive_solver.
Qed.

Lemma elem_of_Diff old new c :
  c ∈ Diff old new ↔
    (c = mkChange "engine" ScopeHotReload ∧ cfg_Engine old ≠ cfg_Engine new) ∨
    (c = mkChange "server" ScopeRequiresRestart ∧ cfg_Server old ≠ cfg_Server new) ∨
    (c = mkChange "storage" ScopeRequiresRestart ∧ cfg_Storage old ≠ cfg_Storage new) ∨
    (c = mkChange "tracing" ScopeRequiresRestart ∧ cfg_Tracing old ≠ cfg_Tracing new).
Proof.
  unfold Diff. rewrite !elem_of_append_if_changed. pose proof (not_elem_of_nil c). tauto.
Qed.

Lemma Diff_nil old new : Diff old new = [] ↔ old = new.
Proof.
  split.
  - unfold Diff, append_if_changed. repeat case_decide; try done.
    intros _. by apply Config_ext.
  - intros ->. unfold Diff, append_if_changed. by repeat case_decide.
Qed.

(** ** Properties *)

(** [Diff] is exact: it is empty precisely when nothing changed, lists each
    changed section once, and marks a change as restart-free only when the
    engine section is the one that changed. *)
Theorem diff_exact old new :
  (Diff old new = [] ↔ old = new) ∧
  NoDup (Diff old new) ∧
  (∀ c, c ∈ Diff old new → Scope_ c = ScopeHotReload →
     Section_ c = "engine" ∧ cfg_Engine old ≠ cfg_Engine new) ∧
  (filter (λ c, Scope_ c = ScopeRequiresRestart) (Diff old new) = [] ↔
     cfg_Server old = cfg_Server new ∧ cfg_Storage old = cfg_Storage new ∧
     cfg_Tracing old = cfg_Tracing new).
Proof.
  split_and!.
  - apply Diff_nil.
  - unfold Diff, append_if_changed.
    repeat case_decide; cbn; repeat constructor; set_solver.
  - intros c Hc. apply elem_of_Diff in Hc. naive_solver.
  - unfold Diff, append_if_changed. repeat case_decide; cbn; split; naive_solver.
Qed.
