(* ===== verification/Watcher.v ===== *)
(** * The configuration watcher (internal/config/watcher.go)

    The goroutine of [Watch], the timers it arms, the reloads they start and
    the channel to the consumer, as a transition system with one step per
    action another goroutine can come between. The file system, the notifier
    and the scheduler are the nondeterminism of the steps. *)
From S2P Require Import Prelude GoStd Config.

(** A reload that has started: it is about to load the file, or holds a
    configuration and waits in its [select]. *)
Inductive reload_stage := Loading | Sending (cfg : Config).

Record WatcherState := mkWatcher {
  w_env : LoadEnv;              (* the files and variables, now *)
  ctx_done : bool;
  loop_running : bool;
  timer_armed : bool;           (* the last timer, neither fired nor stopped *)
  reloads : list reload_stage;
  ch : list Config;             (* the buffer of the channel *)
  ch_closed : bool;
  panicked : bool;
  received : list Config;       (* what the consumer has taken, in order *)
}.

Definition ch_capacity : nat := 1.

(** The goroutine when it starts. *)
Definition watching (env : LoadEnv) : WatcherState := mkWatcher env false true false [] [] false false [].

(** [Watch]: an error of the notifier or of adding the path to it is returned
    and nothing is started. *)
Definition Watch (new_err add_err : option string) (env : LoadEnv) : result string WatcherState :=
  match new_err with
  | Some err => Err err
  | None => match add_err with
            | Some err => Err err
            | None => Ok (watching env)
            end
  end.

Section steps.
Variable path : string.

(** A file-system event: on a write or a create the running timer is stopped
    and a new one armed. *)
Definition watch_event (has_write has_create : bool) (s : WatcherState) : WatcherState :=
  if negb has_write && negb has_create then s
  else mkWatcher (w_env s) (ctx_done s) (loop_running s) true (reloads s) (ch s) (ch_closed s)
         (panicked s) (received s).

(** The loop sees [ctx.Done()]: the timer is stopped, the channel closed. *)
Definition watch_done (s : WatcherState) : WatcherState :=
  mkWatcher (w_env s) (ctx_done s) false false (reloads s) (ch s) true (panicked s) (received s).

(** The notifier's channels are closed: the loop returns, the timer stays. *)
Definition watch_closed (s : WatcherState) : WatcherState :=
  mkWatcher (w_env s) (ctx_done s) false (timer_armed s) (reloads s) (ch s) true (panicked s) (received s).

(** The timer fires and runs [reload] on its own goroutine. *)
Definition timer_fires (s : WatcherState) : WatcherState :=
  mkWatcher (w_env s) (ctx_done s) (loop_running s) false (reloads s ++ [Loading]) (ch s) (ch_closed s)
    (panicked s) (received s).

Definition with_reloads (rs : list reload_stage) (s : WatcherState) : WatcherState :=
  mkWatcher (w_env s) (ctx_done s) (loop_running s) (timer_armed s) rs (ch s) (ch_closed s)
    (panicked s) (received s).

(** The first part of [reload]: a failed load ends it; otherwise the watch is
    added again and the reload comes to its [select]. *)
Definition reload_load (before after : list reload_stage) (s : WatcherState) : WatcherState :=
  match Load (w_env s) path with
  | Err _ => with_reloads (before ++ after) s
  | Ok cfg => with_reloads (before ++ Sending cfg :: after) s
  end.

(** The send of the [select]: on a closed channel it panics. *)
Definition reload_send (before after : list reload_stage) (cfg : Config) (s : WatcherState) : WatcherState :=
  mkWatcher (w_env s) (ctx_done s) (loop_running s) (timer_armed s) (before ++ after)
    (if ch_closed s then ch s else ch s ++ [cfg]) (ch_closed s) (ch_closed s || panicked s) (received s).

(** The files change; the variables of the process and the decoder do not. *)
Definition with_files (files : string → result string string) (env : LoadEnv) : LoadEnv :=
  {| ReadFile := files; Unmarshal := Unmarshal env; Getenv := Getenv env |}.

Inductive watch_step : WatcherState → WatcherState → Prop :=
| watch_step_world files s :
    watch_step s (mkWatcher (with_files files (w_env s)) (ctx_done s) (loop_running s) (timer_armed s) (reloads s)
                    (ch s) (ch_closed s) (panicked s) (received s))
| watch_step_event hw hc s : loop_running s = true → watch_step s (watch_event hw hc s)
| watch_step_cancel s :
    watch_step s (mkWatcher (w_env s) true (loop_running s) (timer_armed s) (reloads s) (ch s)
                    (ch_closed s) (panicked s) (received s))
| watch_step_done s : loop_running s = true → ctx_done s = true → watch_step s (watch_done s)
| watch_step_closed s : loop_running s = true → watch_step s (watch_closed s)
| watch_step_fire s : timer_armed s = true → watch_step s (timer_fires s)
| watch_step_load s before after :
    reloads s = before ++ Loading :: after → watch_step s (reload_load before after s)
| watch_step_send s before after cfg :
    reloads s = before ++ Sending cfg :: after →
    ch_closed s = true ∨ length (ch s) < ch_capacity →
    watch_step s (reload_send before after cfg s)
| watch_step_give_up s before after cfg :
    reloads s = before ++ Sending cfg :: after → ctx_done s = true →
    watch_step s (with_reloads (before ++ after) s)
| watch_step_receive s cfg rest :
    ch s = cfg :: rest →
    watch_step s (mkWatcher (w_env s) (ctx_done s) (loop_running s) (timer_armed s) (reloads s) rest
                    (ch_closed s) (panicked s) (received s ++ [cfg])).

Definition watch_reachable (s : WatcherState) : Prop := ∃ ne ae env s0, Watch ne ae env = Ok s0 ∧ rtc watch_step s0 s.

(** ** Invariant *)
Record watch_inv (s : WatcherState) : Prop := {
  wi_capacity : length (ch s) <= ch_capacity;
  wi_closed : ch_closed s = negb (loop_running s);
  wi_panic : panicked s = true → ch_closed s = true;
}.

Lemma watch_inv_step s s' : watch_inv s → watch_step s s' → watch_inv s'.
Proof.
  intros [Hl Hd Hp].
  destruct 1 as [files s|hw hc s Hrun|s|s Hrun Hctx|s Hrun|s Ht|s before after E|s before after cfg E Hs
    |s before after cfg E Hctx|s cfg rest E];
    try (by split); unfold watch_event, reload_load, reload_send.
  - destruct (negb hw && negb hc); by split.
  - destruct (Load (w_env s) path) as [cfg|]; by split.
  - split; cbn; [|done|by destruct (ch_closed s)]. destruct (ch_closed s); cbn; [done|].
    destruct Hs as [?|Hs]; [done|]. rewrite length_app. cbn. lia.
  - rewrite E in *. split; cbn in *; [lia|done..].
Qed.

(** Where configurations come from: those a watcher holds (in reloads, in its
    channel, and those it has delivered) it held before, or the step that brings
    one loads it. *)
Definition in_reload (r : reload_stage) : list Config := match r with Loading => [] | Sending cfg => [cfg] end.

Definition configs (s : WatcherState) : list Config := (reloads s ≫= in_reload) ++ ch s ++ received s.

Lemma watch_step_origin s s' cfg :
  watch_step s s' → cfg ∈ configs s' → cfg ∈ configs s ∨ Load (w_env s) path = Ok cfg.
Proof.
  unfold configs. destruct 1 as [files s|hw hc s Hrun|s|s Hrun Hctx|s Hrun|s Ht|s before after E|s before after c E Hs
    |s before after c E Hctx|s c rest E]; cbn; try (by left).
  - unfold watch_event. destruct (negb hw && negb hc); by left.
  - rewrite bind_app. cbn. rewrite app_nil_r. by left.
  - rewrite E. unfold reload_load. destruct (Load (w_env s) path) as [c|]; cbn; rewrite !bind_app; cbn; [|by left].
    rewrite !elem_of_app, elem_of_cons. intuition (subst; auto).
  - rewrite E, !bind_app. cbn. rewrite !elem_of_app, elem_of_cons.
    destruct (ch_closed s); rewrite ?elem_of_app, ?list_elem_of_singleton; intuition (subst; auto).
  - rewrite E, !bind_app. cbn. rewrite !elem_of_app, elem_of_cons. intuition auto.
  - rewrite E, !elem_of_app, !elem_of_cons, elem_of_nil. intuition auto.
Qed.

Lemma watch_step_fixed s s' :
  watch_step s s' → Unmarshal (w_env s') = Unmarshal (w_env s) ∧ Getenv (w_env s') = Getenv (w_env s).
Proof.
  destruct 1; try done; unfold watch_event, reload_load; [by destruct (_ && _)|by destruct (Load _ _)].
Qed.

Lemma watch_inv_reachable s : watch_reachable s → watch_inv s.
Proof.
  intros (ne & ae & env & s0 & E & Hs). destruct ne, ae; simplify_eq/=.
  assert (watch_inv (watching env)) as Hinv by (split; cbn; auto; lia).
  revert Hinv. induction Hs; eauto using watch_inv_step.
Qed.

Lemma watch_reachable_from env s : rtc watch_step (watching env) s → watch_reachable s.
Proof. intros Hs. by exists None, None, env, (watching env). Qed.

(** Finishing the reload at the end of the list: it is loaded and sent, the
    buffer being emptied first. *)
Lemma deliver_last s before cfg :
  ch_closed s = false → reloads s = before ++ [Loading] → Load (w_env s) path = Ok cfg →
  length (ch s) <= ch_capacity →
  ∃ s', rtc watch_step s s' ∧ received s' = received s ++ ch s ++ [cfg].
Proof.
  intros Hcl E El Hlen.
  set (s1 := with_reloads (before ++ [Sending cfg]) s).
  assert (watch_step s s1) as H1.
  { pose proof (watch_step_load s before [] E) as Hs. unfold reload_load in Hs. by rewrite El in Hs. }
  assert (∃ s2, rtc watch_step s1 s2 ∧ reloads s2 = before ++ [Sending cfg] ∧ ch s2 = [] ∧ ch_closed s2 = false ∧
    received s2 = received s ++ ch s) as (s2 & H2 & E2 & Ec2 & Ecl2 & Er2).
  { destruct (ch s) as [|c [|c' l]] eqn:Ech; [exists s1; split_and!; [done..|]; cbn; by rewrite app_nil_r| |cbn in Hlen; unfold ch_capacity in Hlen; lia].
    eexists. split; [apply rtc_once, (watch_step_receive s1 c []); exact Ech|]. by split_and!. }
  set (s3 := reload_send before [] cfg s2).
  assert (watch_step s2 s3) as H3.
  { apply watch_step_send; [done|]. right. rewrite Ec2. unfold ch_capacity. cbn. lia. }
  assert (ch s3 = [cfg]) as Ec3 by (unfold s3, reload_send; cbn; by rewrite Ecl2, Ec2).
  eexists. split; [eapply rtc_l; [exact H1|]; etrans; [exact H2|]; eapply rtc_l; [exact H3|];
    apply rtc_once, (watch_step_receive s3 cfg []); exact Ec3|]. cbn.
  by rewrite Er2, <-(assoc_L (++)).
Qed.
End steps.

(** ** Properties *)

(** Nothing breaks while watching: whatever files, timers and goroutines do, the
    channel holds at most one configuration, and as long as the loop runs no
    reload panics. *)
Theorem watcher_safe_while_running path s :
  watch_reachable path s →
  length (ch s) <= ch_capacity ∧ (loop_running s = true → panicked s = false).
Proof.
  intros Hinv%watch_inv_reachable. split; [apply Hinv|].
  intros Hrun. destruct (panicked s) eqn:Hp; [|done].
  pose proof (wi_panic _ Hinv Hp) as Hc. by rewrite (wi_closed _ Hinv), Hrun in Hc.
Qed.

(** A file that holds nothing but an address. *)
Definition demo_load_env (addr : string) : LoadEnv :=
  {| ReadFile _ := Ok addr; Unmarshal data c := Ok (set_GRPCAddr data c); Getenv _ := "" |}.

Definition demo_loaded (addr : string) : Config :=
  set_GRPCAddr addr (set_Engine resolveDeprecated default_config).

(** A write, the timer, the load: one configuration waiting to be sent. *)
Definition demo_sending (addr : string) : WatcherState :=
  reload_load "c.yaml" [] [] (timer_fires (watch_event true false (watching (demo_load_env addr)))).

Lemma demo_sending_steps addr : rtc (watch_step "c.yaml") (watching (demo_load_env addr)) (demo_sending addr).
Proof.
  eapply rtc_l; [by apply (watch_step_event _ true false)|].
  eapply rtc_l; [by apply watch_step_fire|]. by apply rtc_once, watch_step_load.
Qed.

Lemma watcher_safe_while_running_witness : panicked (demo_sending ":1") = false.
Proof.
  apply (watcher_safe_while_running "c.yaml" (demo_sending ":1")); [|reflexivity].
  exact (watch_reachable_from _ _ _ (demo_sending_steps ":1")).
Defined.

(** A change can always get through: in every reachable state in which the
    loop runs, the timer is armed and the file loads, some continuation hands
    what the channel holds and then the loaded configuration to the consumer,
    whatever reloads are in flight. *)
Theorem watcher_can_deliver path s cfg :
  watch_reachable path s → loop_running s = true → timer_armed s = true →
  Load (w_env s) path = Ok cfg →
  ∃ s', rtc (watch_step path) s s' ∧ received s' = received s ++ ch s ++ [cfg].
Proof.
  intros Hinv%watch_inv_reachable Hrun Ht El.
  destruct (deliver_last path (timer_fires s) (reloads s) cfg) as (s' & Hs & Hl); try done.
  - cbn. by rewrite (wi_closed _ Hinv), Hrun.
  - apply (wi_capacity _ Hinv).
  - exists s'. split; [|done]. eapply rtc_l; [by apply watch_step_fire|done].
Qed.

Lemma watcher_can_deliver_witness :
  ∃ s', rtc (watch_step "c.yaml") (watch_event true false (watching (demo_load_env ":1"))) s' ∧
    received s' = [demo_loaded ":1"].
Proof.
  apply (watcher_can_deliver _ (watch_event true false (watching (demo_load_env ":1")))).
  - apply (watch_reachable_from _ (demo_load_env ":1")), rtc_once. by apply watch_step_event.
  - reflexivity.
  - reflexivity.
  - reflexivity.
Defined.

(** C40: shutting down can panic: a reload that holds a configuration when the
    context is cancelled may still send, and the loop closes the channel
    without waiting for it. *)
Theorem watcher_shutdown_can_panic :
  ∃ path s, watch_reachable path s ∧ panicked s = true.
Proof.
  set (s0 := demo_sending ":1").
  set (s1 := mkWatcher (w_env s0) true (loop_running s0) (timer_armed s0) (reloads s0) (ch s0) (ch_closed s0)
               (panicked s0) (received s0)).
  exists "c.yaml", (reload_send [] [] (demo_loaded ":1") (watch_done s1)). split; [|reflexivity].
  apply (watch_reachable_from _ (demo_load_env ":1")). etrans; [apply demo_sending_steps|].
  eapply rtc_l; [apply watch_step_cancel|]. fold s1.
  eapply rtc_l; [by apply watch_step_done|]. apply rtc_once, watch_step_send; [reflexivity|by left].
Qed.

(** Reloads can overtake each other: a reload that was started earlier and
    loaded an older file may be the last one the consumer sees, so the program
    ends up with the older configuration. *)
Theorem watcher_can_end_stale :
  ∃ path s, watch_reachable path s ∧ loop_running s = true ∧ timer_armed s = false ∧
    reloads s = [] ∧ ch s = [] ∧
    Load (w_env s) path = Ok (demo_loaded ":2") ∧ received s = [demo_loaded ":2"; demo_loaded ":1"].
Proof.
  set (s0 := demo_sending ":1").
  set (s1 := mkWatcher (demo_load_env ":2") false true false (reloads s0) [] false false []).
  set (s2 := timer_fires (watch_event true false s1)).
  set (s3 := reload_load "c.yaml" [Sending (demo_loaded ":1")] [] s2).
  set (s4 := reload_send [Sending (demo_loaded ":1")] [] (demo_loaded ":2") s3).
  set (s5 := mkWatcher (demo_load_env ":2") false true false (reloads s4) [] false false [demo_loaded ":2"]).
  set (s6 := reload_send [] [] (demo_loaded ":1") s5).
  exists "c.yaml", (mkWatcher (demo_load_env ":2") false true false [] [] false false
                      [demo_loaded ":2"; demo_loaded ":1"]).
  split_and!; try reflexivity.
  apply (watch_reachable_from _ (demo_load_env ":1")). etrans; [apply demo_sending_steps|]. fold s0.
  eapply rtc_l; [apply (watch_step_world _ (λ _, Ok ":2"))|].
  change (rtc (watch_step "c.yaml") s1 (mkWatcher (demo_load_env ":2") false true false [] [] false false
                      [demo_loaded ":2"; demo_loaded ":1"])).
  eapply rtc_l; [by apply (watch_step_event _ true false)|].
  eapply rtc_l; [by apply watch_step_fire|]. fold s2.
  eapply rtc_l; [by apply (watch_step_load _ _ [Sending (demo_loaded ":1")] [])|]. fold s3.
  eapply rtc_l; [apply (watch_step_send _ _ [Sending (demo_loaded ":1")] []); [reflexivity|right; cbn; constructor]|].
  fold s4. eapply rtc_l; [by apply (watch_step_receive _ s4 (demo_loaded ":2") [])|].
  change (rtc (watch_step "c.yaml") s5 (mkWatcher (demo_load_env ":2") false true false [] [] false false
                      [demo_loaded ":2"; demo_loaded ":1"])).
  eapply rtc_l; [apply (watch_step_send _ _ [] []); [reflexivity|right; cbn; constructor]|]. fold s6.
  apply rtc_once. exact (watch_step_receive "c.yaml" s6 (demo_loaded ":1") [] eq_refl).
Qed.
