(* ===== verification/WatchTime.v ===== *)
(** * The debounce of the watcher in time (internal/config/watcher.go)

    Watcher.v lets an armed timer fire at any moment. Here the watcher runs with
    a clock: a write or create event sets the timer to [debounce] from now, and
    the timer fires not before. Every timed run is a run of Watcher.v; what the
    clock adds is a bound on how often the file is loaded. *)
From S2P Require Import Prelude Proto BucketKey Storage GoStd Config Watcher.

(** [time.Millisecond], in nanoseconds. *)
Definition millisecond : Z := 1000000.

Record Watcher := mkWatcherConfig { watcher_path : string; debounce : Z }.

Definition NewWatcher (path : string) : Watcher := mkWatcherConfig path (500 * millisecond).

(** The watcher at time [now]; [deadline] is that of the armed timer, [fired]
    lists when reloads were started. *)
Record TimedWatcher := mkTimed {
  tw_state : WatcherState;
  now : Z;
  deadline : Z;
  fired : list Z;
}.

Section timed.
Variable w : Watcher.

(** [timer.Stop()] and [time.AfterFunc(w.debounce, ...)]. *)
Definition timed_event (has_write has_create : bool) (t : TimedWatcher) : TimedWatcher :=
  mkTimed (watch_event has_write has_create (tw_state t)) (now t)
    (if negb has_write && negb has_create then deadline t else now t + debounce w)%Z (fired t).

Inductive timed_step : TimedWatcher → TimedWatcher → Prop :=
| timed_tick d t : (0 <= d)%Z → timed_step t (mkTimed (tw_state t) (now t + d) (deadline t) (fired t))
| timed_step_event hw hc t : loop_running (tw_state t) = true → timed_step t (timed_event hw hc t)
| timed_fire t :
    timer_armed (tw_state t) = true → (deadline t <= now t)%Z →
    timed_step t (mkTimed (timer_fires (tw_state t)) (now t) (deadline t) (fired t ++ [now t]))
| timed_other t s' :
    watch_step (watcher_path w) (tw_state t) s' → length (reloads s') <= length (reloads (tw_state t)) →
    (timer_armed s' = true → timer_armed (tw_state t) = true) →
    timed_step t (mkTimed s' (now t) (deadline t) (fired t)).

Definition timed_start (env : LoadEnv) (t0 : Z) : TimedWatcher := mkTimed (watching env) t0 t0 [].

(** Forgetting the clock. *)
Lemma timed_untimed t t' : rtc timed_step t t' → rtc (watch_step (watcher_path w)) (tw_state t) (tw_state t').
Proof.
  induction 1 as [|t1 t2 t3 Hs _ IH]; [done|]. etrans; [|exact IH].
  destruct Hs as [d t _|hw hc t Hrun|t Ht _|t s' Hs _ _]; cbn; [done|by apply rtc_once; constructor..|by apply rtc_once].
Qed.

(** Reloads start at least [debounce] apart, and the next one, if its timer is
    armed, is due that long after the last. *)
Record timed_inv (t0 : Z) (t : TimedWatcher) : Prop := {
  ti_started : (t0 + debounce w * Z.of_nat (length (fired t)) <= now t)%Z;
  ti_flight : length (reloads (tw_state t)) <= length (fired t);
  ti_due : timer_armed (tw_state t) = true → (t0 + debounce w * (Z.of_nat (length (fired t)) + 1) <= deadline t)%Z;
  ti_apart : ∀ i a b, fired t !! i = Some a → fired t !! S i = Some b → (a + debounce w <= b)%Z;
  ti_last : ∀ a, last (fired t) = Some a →
    (a <= now t)%Z ∧ (timer_armed (tw_state t) = true → (a + debounce w <= deadline t)%Z);
}.

Lemma timed_inv_step t0 t t' : timed_inv t0 t → timed_step t t' → timed_inv t0 t'.
Proof.
  intros [Hs Hf Hd Ha Hl]. destruct 1 as [d t Hdn|hw hc t Hrun|t Ht Hdue|t s' _ Hlen Harm].
  - split; cbn; [lia|done|done|done|]. intros a E. destruct (Hl a E). split; [lia|done].
  - unfold timed_event, watch_event. destruct (negb hw && negb hc) eqn:E; cbn.
    { by split. }
    split; cbn; [done|done|lia|done|]. intros a El. destruct (Hl a El). split; [done|lia].
  - specialize (Hd Ht). split; cbn; try done.
    + rewrite length_app. cbn. lia.
    + rewrite !length_app. cbn. lia.
    + intros i a b Hi Hb. apply lookup_snoc_Some in Hb as [[Hlt Hb]|[Heq Eb]].
      * rewrite lookup_app_l in Hi by lia. eauto.
      * subst b. rewrite lookup_app_l in Hi by lia. destruct (Hl a) as [_ Hla]; [|specialize (Hla Ht); lia].
        rewrite last_lookup. by replace (pred (length (fired t))) with i by lia.
    + intros a El. rewrite last_snoc in El. injection El as <-. split; [lia|done].
  - split; cbn; [done|lia|auto|done|]. intros a El. destruct (Hl a El). split; [done|auto].
Qed.

Lemma timed_inv_steps env t0 t : rtc timed_step (timed_start env t0) t → timed_inv t0 t.
Proof.
  intros Hs. assert (timed_inv t0 (timed_start env t0)) as Hinv by (split; cbn; try done; lia).
  revert Hinv. induction Hs; eauto using timed_inv_step.
Qed.
End timed.

(** ** Properties *)

(** C31: the file is not loaded in bursts: however many events arrive, reloads
    start at least the debounce (half a second) apart, so in any time since the
    start there were no more of them, nor are there more in flight, than half
    seconds; and the watcher with its clock is the watcher without. *)
Theorem reloads_rate_limited path env t0 t :
  rtc (timed_step (NewWatcher path)) (timed_start env t0) t →
  rtc (watch_step path) (watching env) (tw_state t) ∧
  (∀ i a b, fired t !! i = Some a → fired t !! S i = Some b → (a + 500 * millisecond <= b)%Z) ∧
  length (reloads (tw_state t)) <= length (fired t) ∧
  (500 * millisecond * Z.of_nat (length (fired t)) <= now t - t0)%Z.
Proof.
  intros Hs. pose proof (timed_inv_steps (NewWatcher path) env t0 t Hs) as [H1 H2 _ H3 _].
  split_and!; [exact (timed_untimed _ _ _ Hs)|exact H3|exact H2|]. cbn in *. lia.
Qed.

(** Two saves of the file 100 ms apart, and the reload they start. *)
Definition demo_timed : TimedWatcher :=
  let tick d t := mkTimed (tw_state t) (now t + d * millisecond) (deadline t) (fired t) in
  let save t := timed_event (NewWatcher "c.yaml") true false t in
  let t := tick 500%Z (save (tick 100%Z (save (timed_start (demo_load_env ":1") 0)))) in
  mkTimed (timer_fires (tw_state t)) (now t) (deadline t) (fired t ++ [now t]).

Lemma demo_timed_steps : rtc (timed_step (NewWatcher "c.yaml")) (timed_start (demo_load_env ":1") 0) demo_timed.
Proof.
  eapply rtc_l; [by apply (timed_step_event _ true false)|].
  eapply rtc_l; [by apply (timed_tick _ (100 * millisecond))|].
  eapply rtc_l; [by apply (timed_step_event _ true false)|].
  eapply rtc_l; [by apply (timed_tick _ (500 * millisecond))|].
  apply rtc_once. by apply timed_fire.
Qed.

Lemma reloads_rate_limited_witness :
  fired demo_timed = [(600 * millisecond)%Z] ∧
  (500 * millisecond * Z.of_nat (length (fired demo_timed)) <= now demo_timed - 0)%Z.
Proof.
  split; [reflexivity|]. apply (reloads_rate_limited "c.yaml" (demo_load_env ":1") 0 demo_timed demo_timed_steps).
Defined.
