(* ===== verification/Quota.v ===== *)
(** * Quota engines (internal/quota/quota.go)

    The [Engine] interface the server calls, what the server may rely on for
    an engine that only assigns ([AssigningEngine]), and [DefaultEngine]. *)
From S2P Require Import Prelude Proto BucketKey Storage.

(** [Engine]: a value of the interface is a concrete type and its
    [ProcessUsage]. Both engines of the program are functions of their
    configuration: they keep no state between calls. *)
Record Engine := mkEngine {
  concrete_type : string;
  ProcessUsage : GoContext → string → list UsageReport → result error (list BucketAction);
}.

(** [r.BucketId == nil || len(r.BucketId.GetBucket()) == 0] *)
Definition empty_bucket (id : option BucketId) : bool :=
  match id with
  | None => true
  | Some _ => bool_decide (size (GetBucket id) = 0)
  end.

(** The ids of the reports an engine answers, in order. *)
Definition answered_ids (reports : list UsageReport) : list (option BucketId) :=
  report_bucket_id <$> filter (λ r, empty_bucket (report_bucket_id r) = false) reports.

Definition is_assignment (a : BucketAction) : Prop :=
  ∃ q, bucket_action a = Some (BucketAction_QuotaAssignmentAction q).

(** An engine that never fails and assigns one quota per non-empty report. *)
Definition assigning (e : Engine) : Prop :=
  ∀ ctx domain reports, ∃ actions,
    ProcessUsage e ctx domain reports = Ok actions ∧
    action_bucket_id <$> actions = answered_ids reports ∧
    Forall is_assignment actions.

Record DefaultEngineConfig := mkDefaultEngineConfig {
  DefaultStrategy : option RateLimitStrategy;
  de_AssignmentTTL : option Z;
}.

Record DefaultEngine := mkDefaultEngine { de_cfg : DefaultEngineConfig }.

Definition NewDefaultEngine (cfg : DefaultEngineConfig) : DefaultEngine := mkDefaultEngine cfg.

(** The assignment both engines build from a TTL and a strategy: a nil TTL or
    strategy leaves the field unset. *)
Definition build_assignment `{DurationPb} (ttl : option Z) (strategy : option RateLimitStrategy)
    : QuotaAssignmentAction :=
  let assignment := mkQuotaAssignmentAction None None in
  let assignment :=
    match ttl with
    | Some d => mkQuotaAssignmentAction (Some (durationpb_New d)) (assignment_strategy assignment)
    | None => assignment
    end in
  match strategy with
  | Some st => mkQuotaAssignmentAction (AssignmentTimeToLive assignment) (Some st)
  | None => assignment
  end.

Definition build_action `{DurationPb} (id : option BucketId) (ttl : option Z)
    (strategy : option RateLimitStrategy) : BucketAction :=
  mkBucketAction id (Some (BucketAction_QuotaAssignmentAction (build_assignment ttl strategy))).

(** The loop over the reports. *)
Fixpoint DefaultEngine_actions `{DurationPb} (e : DefaultEngine) (reports : list UsageReport)
    : list BucketAction :=
  match reports with
  | [] => []
  | r :: reports =>
      if empty_bucket (report_bucket_id r) then DefaultEngine_actions e reports
      else build_action (report_bucket_id r) (de_AssignmentTTL (de_cfg e)) (DefaultStrategy (de_cfg e))
             :: DefaultEngine_actions e reports
  end.

Definition DefaultEngine_ProcessUsage `{DurationPb} (e : DefaultEngine) (_ : GoContext) (_ : string)
    (reports : list UsageReport) : result error (list BucketAction) :=
  match reports with
  | [] => Ok []
  | _ => Ok (DefaultEngine_actions e reports)
  end.

Definition DefaultEngine_Engine `{DurationPb} (e : DefaultEngine) : Engine :=
  mkEngine "*quota.DefaultEngine" (DefaultEngine_ProcessUsage e).

(** ** Lemmas *)
Lemma answered_ids_filter reports :
  answered_ids reports = filter (λ id, empty_bucket id = false) (report_bucket_id <$> reports).
Proof.
  unfold answered_ids. induction reports as [|r reports IH]; [done|].
  rewrite fmap_cons, !filter_cons. case_decide; cbn; by rewrite IH.
Qed.

Lemma DefaultEngine_ProcessUsage_eq `{DurationPb} e ctx domain reports :
  ProcessUsage (DefaultEngine_Engine e) ctx domain reports = Ok (DefaultEngine_actions e reports).
Proof. by destruct reports. Qed.

Lemma DefaultEngine_actions_fmap `{DurationPb} e reports :
  DefaultEngine_actions e reports =
  (λ id, build_action id (de_AssignmentTTL (de_cfg e)) (DefaultStrategy (de_cfg e))) <$>
    answered_ids reports.
Proof.
  unfold answered_ids. induction reports as [|r reports IH]; [done|].
  cbn [DefaultEngine_actions]. rewrite filter_cons.
  destruct (empty_bucket (report_bucket_id r)); cbn; [done|]. by rewrite IH.
Qed.

Lemma is_assignment_build_action `{DurationPb} id ttl st : is_assignment (build_action id ttl st).
Proof. by eexists. Qed.

Lemma is_assignment_no_abandon a : is_assignment a → has_abandon_action a = false.
Proof. intros [q Hq]. unfold has_abandon_action. by rewrite Hq. Qed.

Lemma DefaultEngine_assigning `{DurationPb} e : assigning (DefaultEngine_Engine e).
Proof.
  intros ctx domain reports. eexists. split; [apply DefaultEngine_ProcessUsage_eq|].
  rewrite DefaultEngine_actions_fmap. split.
  - rewrite <-list_fmap_compose. rewrite <-(list_fmap_id (answered_ids reports)) at 2. done.
  - apply Forall_fmap, Forall_true. intros id. apply is_assignment_build_action.
Qed.
