(* ===== verification/Policy.v ===== *)
(** * The policy engine (internal/policy/policy.go)

    Policies with domain and bucket-key patterns, compiled once by [New] and
    matched in priority order by [ProcessUsage]. The regular expressions of
    Go's [regexp] package are the parameters of the class [Regexp] of GoStd: what
    is proved holds whatever patterns mean. *)
From S2P Require Import Prelude GoStd Proto BucketKey Storage Config Quota.

Definition MaxPatternLength : Z := 1024.

Record Policy `{Regexp} := mkPolicy {
  DomainPattern : string;
  BucketKeyPattern : string;
  policy_Strategy : option RateLimitStrategy;
  policy_AssignmentTTL : option Z;
  DenyResponse : option DenyResponseConfig;
  domainRegex : option regex;
  bucketKeyRegex : option regex;
}.

Inductive pattern_error :=
| DomainPatternTooLong (n : Z)
| InvalidDomainPattern (pattern : string) (err : error)
| BucketKeyPatternTooLong (n : Z)
| InvalidBucketKeyPattern (pattern : string) (err : error).

Inductive policy_error :=
| PolicyError (i : nat) (err : pattern_error)
| DefaultPolicyError (err : pattern_error).

Section policy.
Context `{Regexp}.

Definition set_domainRegex (r : regex) (p : Policy) : Policy :=
  mkPolicy _ (DomainPattern p) (BucketKeyPattern p) (policy_Strategy p) (policy_AssignmentTTL p)
    (DenyResponse p) (Some r) (bucketKeyRegex p).

Definition set_bucketKeyRegex (r : regex) (p : Policy) : Policy :=
  mkPolicy _ (DomainPattern p) (BucketKeyPattern p) (policy_Strategy p) (policy_AssignmentTTL p)
    (DenyResponse p) (domainRegex p) (Some r).

(** [compilePatterns], returning the updated policy. *)
Definition compilePatterns (p : Policy) : result pattern_error Policy :=
  p <-? (if decide (DomainPattern p = "") then Ok p
         else if (MaxPatternLength <? len (DomainPattern p))%Z
         then Err (DomainPatternTooLong (len (DomainPattern p)))
         else match Compile (DomainPattern p) with
              | Err err => Err (InvalidDomainPattern (DomainPattern p) err)
              | Ok r => Ok (set_domainRegex r p)
              end) ;;
  if decide (BucketKeyPattern p = "") then Ok p
  else if (MaxPatternLength <? len (BucketKeyPattern p))%Z
  then Err (BucketKeyPatternTooLong (len (BucketKeyPattern p)))
  else match Compile (BucketKeyPattern p) with
       | Err err => Err (InvalidBucketKeyPattern (BucketKeyPattern p) err)
       | Ok r => Ok (set_bucketKeyRegex r p)
       end.

(** A nil regex matches everything. *)
Definition regex_matches (r : option regex) (s : string) : bool :=
  match r with Some r => MatchString r s | None => true end.

Definition matches (p : Policy) (domain : string) (bucketKey : BucketKey) : bool :=
  if negb (regex_matches (domainRegex p) domain) then false
  else if negb (regex_matches (bucketKeyRegex p) bucketKey) then false
  else true.

Record PolicyEngineConfig := mkPolicyEngineConfig {
  pe_Policies : list Policy;
  DefaultPolicy : Policy;
}.

Record PolicyEngine := mkPolicyEngine { pe_cfg : PolicyEngineConfig }.

(** The loop of [New]: compile each policy, naming the index of a failure. *)
Fixpoint compile_policies (i : nat) (ps : list Policy) : result policy_error (list Policy) :=
  match ps with
  | [] => Ok []
  | p :: ps =>
      match compilePatterns p with
      | Err err => Err (PolicyError i err)
      | Ok p => ps <-? compile_policies (S i) ps ;; Ok (p :: ps)
      end
  end.

Definition New (cfg : PolicyEngineConfig) : result policy_error PolicyEngine :=
  ps <-? compile_policies 0 (pe_Policies cfg) ;;
  match compilePatterns (DefaultPolicy cfg) with
  | Err err => Err (DefaultPolicyError err)
  | Ok d => Ok (mkPolicyEngine (mkPolicyEngineConfig ps d))
  end.

(** The inner loop of [ProcessUsage]: the first policy that matches. *)
Fixpoint find_policy (ps : list Policy) (domain : string) (bucketKey : BucketKey) : option Policy :=
  match ps with
  | [] => None
  | p :: ps => if matches p domain bucketKey then Some p else find_policy ps domain bucketKey
  end.

Definition matched_policy (e : PolicyEngine) (domain : string) (bucketKey : BucketKey) : Policy :=
  match find_policy (pe_Policies (pe_cfg e)) domain bucketKey with
  | Some p => p
  | None => DefaultPolicy (pe_cfg e)
  end.

Fixpoint PolicyEngine_actions `{GoRange, DurationPb} (e : PolicyEngine) (domain : string)
    (reports : list UsageReport) : list BucketAction :=
  match reports with
  | [] => []
  | r :: reports =>
      if empty_bucket (report_bucket_id r) then PolicyEngine_actions e domain reports
      else
        let bucketKey := BucketKeyFromProto (report_bucket_id r) in
        let matchedPolicy := matched_policy e domain bucketKey in
        build_action (report_bucket_id r) (policy_AssignmentTTL matchedPolicy)
          (policy_Strategy matchedPolicy) :: PolicyEngine_actions e domain reports
  end.

Definition PolicyEngine_ProcessUsage `{GoRange, DurationPb} (e : PolicyEngine) (_ : GoContext)
    (domain : string) (reports : list UsageReport) : result error (list BucketAction) :=
  match reports with
  | [] => Ok []
  | _ => Ok (PolicyEngine_actions e domain reports)
  end.

Definition PolicyEngine_Engine `{GoRange, DurationPb} (e : PolicyEngine) : Engine :=
  mkEngine "*policy.Engine" (PolicyEngine_ProcessUsage e).
End policy.

(** ** What patterns mean, and what [New] guarantees *)
Section policy_spec.
Context `{Regexp}.

(** The empty pattern matches all; another one when it compiles and matches. *)
Definition pattern_matches (pat s : string) : Prop :=
  pat = "" ∨ ∃ r, Compile pat = Ok r ∧ MatchString r s = true.

Definition pattern_ok (pat : string) : Prop :=
  pat = "" ∨ (len pat <= MaxPatternLength)%Z ∧ is_ok (Compile pat) = true.

(** A policy as configured: its regexes are not compiled yet. *)
Definition uncompiled (p : Policy) : Prop := domainRegex p = None ∧ bucketKeyRegex p = None.

Definition patterns_ok (p : Policy) : Prop :=
  pattern_ok (DomainPattern p) ∧ pattern_ok (BucketKeyPattern p).

(** A policy applies when both its patterns match. *)
Definition policy_applies (p : Policy) (domain : string) (key : BucketKey) : Prop :=
  pattern_matches (DomainPattern p) domain ∧ pattern_matches (BucketKeyPattern p) key.

(** The policy that decides for a bucket: the first one that applies, or the
    default when none does. *)
Definition selects (cfg : PolicyEngineConfig) (domain : string) (key : BucketKey) (p : Policy) : Prop :=
  (∃ i, pe_Policies cfg !! i = Some p ∧ policy_applies p domain key ∧
        ∀ j q, j < i → pe_Policies cfg !! j = Some q → ¬ policy_applies q domain key) ∨
  (p = DefaultPolicy cfg ∧ ∀ q, q ∈ pe_Policies cfg → ¬ policy_applies q domain key).

(** [p'] is [p] with its patterns compiled. *)
Record compiled (p p' : Policy) : Prop := {
  compiled_strategy : policy_Strategy p' = policy_Strategy p;
  compiled_ttl : policy_AssignmentTTL p' = policy_AssignmentTTL p;
  compiled_matches domain key : matches p' domain key = true ↔ policy_applies p domain key;
}.

(** The regex that compiling [pat] leaves behind. *)
Definition compiled_pattern (pat : string) (o : option regex) : Prop :=
  (pat = "" ∧ o = None) ∨
  (pat ≠ "" ∧ (len pat <= MaxPatternLength)%Z ∧ ∃ r, Compile pat = Ok r ∧ o = Some r).

Lemma compiled_pattern_ok pat o : compiled_pattern pat o → pattern_ok pat.
Proof. intros [[-> _]|(_ & ? & r & Hr & _)]; [by left|]. right. by rewrite Hr. Qed.

Lemma compiled_pattern_matches pat o s :
  compiled_pattern pat o → regex_matches o s = true ↔ pattern_matches pat s.
Proof.
  intros [[-> ->]|(Hne & _ & r & Hr & ->)]; cbn.
  - split; [by left|done].
  - split; [right; eauto|]. intros [?|(r' & Hr' & ?)]; [done|congruence].
Qed.

Lemma compilePatterns_inv p p' :
  uncompiled p → compilePatterns p = Ok p' →
  compiled_pattern (DomainPattern p) (domainRegex p') ∧
  compiled_pattern (BucketKeyPattern p) (bucketKeyRegex p') ∧
  policy_Strategy p' = policy_Strategy p ∧ policy_AssignmentTTL p' = policy_AssignmentTTL p.
Proof.
  destruct p as [dp bp st ttl dr ? ?]. intros [Hd Hb]. unfold compilePatterns; cbn in *; subst.
  unfold compiled_pattern.
  destruct (decide (dp = "")) as [->|Hdp];
    [|destruct (MaxPatternLength <? len dp)%Z eqn:Ld; [done|]; apply Z.ltb_ge in Ld;
      destruct (Compile dp) as [rd|] eqn:Cd; [|done]]; cbn;
    (destruct (decide (bp = "")) as [->|Hbp];
      [|destruct (MaxPatternLength <? len bp)%Z eqn:Lb; [done|]; apply Z.ltb_ge in Lb;
        destruct (Compile bp) as [rb|] eqn:Cb; [|done]]); cbn;
    intros [= <-]; cbn; split_and!; first [done|by left|right; eauto].
Qed.

Lemma matches_iff p domain key :
  matches p domain key = true ↔
  regex_matches (domainRegex p) domain = true ∧ regex_matches (bucketKeyRegex p) key = true.
Proof. unfold matches. do 2 destruct (regex_matches _ _); cbn; naive_solver. Qed.

Lemma compilePatterns_compiled p p' :
  uncompiled p → compilePatterns p = Ok p' → patterns_ok p ∧ compiled p p'.
Proof.
  intros Hp (Hd & Hb & Hst & Httl)%compilePatterns_inv; [|done].
  split; [split; eauto using compiled_pattern_ok|].
  split; [done..|]. intros domain key.
  rewrite matches_iff, (compiled_pattern_matches _ _ _ Hd), (compiled_pattern_matches _ _ _ Hb).
  done.
Qed.

Lemma compilePatterns_ok p : patterns_ok p → is_ok (compilePatterns p) = true.
Proof.
  intros [Hd Hb]. unfold compilePatterns.
  destruct p as [dp bp st ttl dr ? ?]; cbn in *.
  destruct (decide (dp = "")) as [->|Hdp];
    [|destruct Hd as [|[->%Z.ltb_ge Hd]]; [done|]; destruct (Compile dp); [|done]]; cbn;
    (destruct (decide (bp = "")) as [->|Hbp];
      [done|destruct Hb as [|[->%Z.ltb_ge Hb]]; [done|]; by destruct (Compile bp)]).
Qed.

Lemma compile_policies_compiled i ps ps' :
  Forall uncompiled ps → compile_policies i ps = Ok ps' →
  Forall patterns_ok ps ∧ Forall2 compiled ps ps'.
Proof.
  intros Hps. revert i ps'. induction Hps as [|p ps Hp Hps IH]; intros i ps'; cbn.
  { intros [= <-]. by split. }
  destruct (compilePatterns p) as [p'|] eqn:Hp'; [|done].
  destruct (compile_policies (S i) ps) as [qs|] eqn:Hqs; [|done].
  intros [= <-]. apply compilePatterns_compiled in Hp' as []; [|done].
  apply IH in Hqs as []. by split; constructor.
Qed.

Lemma compile_policies_ok i ps : Forall patterns_ok ps → is_ok (compile_policies i ps) = true.
Proof.
  intros Hps. revert i. induction Hps as [|p ps Hp Hps IH]; intros i; cbn; [done|].
  apply compilePatterns_ok in Hp. destruct (compilePatterns p); [|done].
  specialize (IH (S i)). by destruct (compile_policies (S i) ps).
Qed.

Definition uncompiled_config (cfg : PolicyEngineConfig) : Prop :=
  Forall uncompiled (pe_Policies cfg) ∧ uncompiled (DefaultPolicy cfg).

Lemma New_compiled cfg e :
  uncompiled_config cfg → New cfg = Ok e →
  Forall2 compiled (pe_Policies cfg) (pe_Policies (pe_cfg e)) ∧
  compiled (DefaultPolicy cfg) (DefaultPolicy (pe_cfg e)).
Proof.
  intros [Hps Hd]. unfold New. destruct (compile_policies 0 _) as [ps|] eqn:Eps; [|done].
  destruct (compilePatterns _) as [d|] eqn:Ed; [|done]. intros [= <-]; cbn.
  apply compile_policies_compiled in Eps as [_ ?]; [|done].
  by apply compilePatterns_compiled in Ed as [_ ?].
Qed.

(** The policy found among the compiled ones is the one selected by the
    configured ones. *)
Lemma find_policy_selects ps ps' domain key :
  Forall2 compiled ps ps' →
  match find_policy ps' domain key with
  | Some p' => ∃ i p, ps !! i = Some p ∧ compiled p p' ∧ policy_applies p domain key ∧
                 ∀ j q, j < i → ps !! j = Some q → ¬ policy_applies q domain key
  | None => ∀ q, q ∈ ps → ¬ policy_applies q domain key
  end.
Proof.
  induction 1 as [|p p' ps ps' Hp Hps IH]; cbn; [set_solver|].
  destruct (matches p' domain key) eqn:Hm.
  { exists 0, p. rewrite (compiled_matches _ _ Hp) in Hm. split_and!; [done..|]. lia. }
  assert (¬ policy_applies p domain key) as Hn
    by (rewrite <-(compiled_matches _ _ Hp), Hm; done).
  destruct (find_policy ps' domain key) as [q'|].
  - destruct IH as (i & q & Hi & Hq & Ha & Hbefore). exists (S i), q. split_and!; [done..|].
    intros [|j] r Hj Hr; cbn in Hr; [by simplify_eq|]. eapply Hbefore; [|done]. lia.
  - set_solver.
Qed.

Lemma matched_policy_selects cfg e domain key :
  uncompiled_config cfg → New cfg = Ok e →
  ∃ p, selects cfg domain key p ∧ compiled p (matched_policy e domain key).
Proof.
  intros Hcfg He. destruct (New_compiled _ _ Hcfg He) as [Hps Hd].
  pose proof (find_policy_selects _ _ domain key Hps) as Hf.
  unfold matched_policy. destruct (find_policy _ domain key) as [p'|].
  - destruct Hf as (i & p & Hi & Hc & Ha & Hb). exists p. split; [|done]. left. eauto.
  - exists (DefaultPolicy cfg). split; [|done]. by right.
Qed.

Context `{GoRange, DurationPb}.

Lemma PolicyEngine_ProcessUsage_eq e ctx domain reports :
  ProcessUsage (PolicyEngine_Engine e) ctx domain reports = Ok (PolicyEngine_actions e domain reports).
Proof. by destruct reports. Qed.

Lemma PolicyEngine_actions_fmap e domain reports :
  PolicyEngine_actions e domain reports =
  (λ id, let p := matched_policy e domain (BucketKeyFromProto id) in
         build_action id (policy_AssignmentTTL p) (policy_Strategy p)) <$> answered_ids reports.
Proof.
  unfold answered_ids. induction reports as [|r reports IH]; [done|].
  cbn [PolicyEngine_actions]. rewrite filter_cons.
  destruct (empty_bucket (report_bucket_id r)); cbn; [done|]. by rewrite IH.
Qed.

Lemma PolicyEngine_assigning e : assigning (PolicyEngine_Engine e).
Proof.
  intros ctx domain reports. eexists. split; [apply PolicyEngine_ProcessUsage_eq|].
  rewrite PolicyEngine_actions_fmap. split.
  - rewrite <-list_fmap_compose. rewrite <-(list_fmap_id (answered_ids reports)) at 2. done.
  - apply Forall_fmap, Forall_true. intros id. apply is_assignment_build_action.
Qed.
End policy_spec.

(** ** Properties *)

(** What an engine built by [New] answers. *)
Lemma policy_engine_answers `{Regexp, GoRange, DurationPb} cfg e ctx domain reports :
  uncompiled_config cfg → New cfg = Ok e →
  ∃ actions, ProcessUsage (PolicyEngine_Engine e) ctx domain reports = Ok actions ∧
    Forall2 (λ id a, ∃ p, selects cfg domain (BucketKeyFromProto id) p ∧
                          a = build_action id (policy_AssignmentTTL p) (policy_Strategy p))
      (answered_ids reports) actions.
Proof.
  intros Hcfg He. eexists. split; [apply PolicyEngine_ProcessUsage_eq|].
  rewrite PolicyEngine_actions_fmap. apply Forall2_fmap_r, Forall_Forall2_diag, Forall_true.
  intros id. destruct (matched_policy_selects cfg e domain (BucketKeyFromProto id) Hcfg He)
    as (p & Hp & Hc). exists p. split; [done|].
  cbn. by rewrite (compiled_ttl _ _ Hc), (compiled_strategy _ _ Hc).
Qed.

(** C15: first match wins: for every non-empty report, in order, an engine
    built by [New] answers with the TTL and strategy of the first configured
    policy whose domain and bucket-key patterns both match, or of the default
    policy when none does. *)
Theorem policy_engine_first_match `{Regexp, GoRange, DurationPb} cfg e ctx domain reports :
  uncompiled_config cfg → New cfg = Ok e →
  ∃ actions, ProcessUsage (PolicyEngine_Engine e) ctx domain reports = Ok actions ∧
    Forall2 (λ id a, ∃ p, selects cfg domain (BucketKeyFromProto id) p ∧
                          a = build_action id (policy_AssignmentTTL p) (policy_Strategy p))
      (answered_ids reports) actions.
Proof. apply policy_engine_answers. Qed.

Section policy_witness.
#[local] Existing Instance range_in_order.
#[local] Existing Instance durationpb_split.
#[local] Existing Instance literal_regexp.

Definition witness_policy_config : PolicyEngineConfig :=
  mkPolicyEngineConfig
    [mkPolicy _ "api" "" (Some (RateLimitStrategy_BlanketRule ALLOW_ALL)) None None None None;
     mkPolicy _ "" "premium" (Some (RateLimitStrategy_BlanketRule DENY_ALL)) (Some 5%Z) None None None]
    (mkPolicy _ "" "" None (Some 7%Z) None None None).

Lemma policy_engine_first_match_witness :
  ∃ e, New witness_policy_config = Ok e ∧
  ∃ actions,
    ProcessUsage (PolicyEngine_Engine e) Background "web"
      [mkUsageReport (Some (mkBucketId {["tier" := "premium"]})) 1 0 0] = Ok actions ∧
    Forall2 (λ id a, ∃ p, selects witness_policy_config "web" (BucketKeyFromProto id) p ∧
                          a = build_action id (policy_AssignmentTTL p) (policy_Strategy p))
      (answered_ids [mkUsageReport (Some (mkBucketId {["tier" := "premium"]})) 1 0 0]) actions.
Proof.
  eexists. split; [vm_compute; reflexivity|].
  apply (policy_engine_first_match witness_policy_config).
  - split; [repeat constructor|done].
  - vm_compute; reflexivity.
Defined.
End policy_witness.

(** C33: [New] accepts a configuration exactly when every pattern, the default
    policy's included, is empty or of at most 1024 bytes and compiles. *)
Theorem policy_new_accepts `{Regexp} cfg :
  uncompiled_config cfg →
  is_ok (New cfg) = true ↔ Forall patterns_ok (pe_Policies cfg) ∧ patterns_ok (DefaultPolicy cfg).
Proof.
  intros [Hps Hd]. unfold New. split.
  - destruct (compile_policies 0 _) as [ps|] eqn:Eps; [|done].
    destruct (compilePatterns _) as [d|] eqn:Ed; [|done]. intros _.
    apply compile_policies_compiled in Eps as [? _]; [|done].
    by apply compilePatterns_compiled in Ed as [? _].
  - intros [Hok Hdok]. pose proof (compile_policies_ok 0 _ Hok) as H1.
    pose proof (compilePatterns_ok _ Hdok) as H2.
    destruct (compile_policies 0 _); [|done]. by destruct (compilePatterns _).
Qed.

Lemma policy_new_accepts_witness :
  is_ok (@New literal_regexp witness_policy_config) = true ↔
  Forall (@patterns_ok literal_regexp) (pe_Policies witness_policy_config) ∧
  @patterns_ok literal_regexp (DefaultPolicy witness_policy_config).
Proof. apply (@policy_new_accepts literal_regexp). split; [repeat constructor|done]. Defined.

(** Assignments are a function of configuration, domain and bucket ids:
    two instances built from the same configuration answer reports on the same
    buckets alike, whatever the usage counts, the context or the order in which
    each of them ranges over its maps. *)
Theorem policy_engine_stateless `{Regexp, DurationPb} (R1 R2 : GoRange) e ctx1 ctx2 domain rs1 rs2 :
  report_bucket_id <$> rs1 = report_bucket_id <$> rs2 →
  ProcessUsage (@PolicyEngine_Engine _ R1 _ e) ctx1 domain rs1 =
  ProcessUsage (@PolicyEngine_Engine _ R2 _ e) ctx2 domain rs2.
Proof.
  intros Hids. rewrite (@PolicyEngine_ProcessUsage_eq _ R1), (@PolicyEngine_ProcessUsage_eq _ R2).
  f_equal. rewrite !PolicyEngine_actions_fmap.
  rewrite (answered_ids_filter rs1), Hids, <-answered_ids_filter.
  apply list_fmap_ext. intros i id _. by rewrite !BucketKeyFromProto_encode.
Qed.

Lemma policy_engine_stateless_witness :
  let id := Some (mkBucketId {["tier" := "premium"; "user" := "bob"]}) in
  let e := mkPolicyEngine (H := literal_regexp) witness_policy_config in
  ProcessUsage (@PolicyEngine_Engine _ range_in_order durationpb_split e) Background "web"
    [mkUsageReport id 1 2 3] =
  ProcessUsage (@PolicyEngine_Engine _ range_reversed durationpb_split e) StreamContext "web"
    [mkUsageReport id 40 50 60].
Proof.
  intros id e.
  apply (@policy_engine_stateless literal_regexp durationpb_split range_in_order range_reversed).
  reflexivity.
Defined.
