(* ===== verification/DomainClassifier.v ===== *)
(** * The domain classifier (internal/metrics/domain.go)

    Maps raw domains to a bounded set of metric labels. [Classify] takes its
    lock twice, once to look and once to admit, so calls of concurrent streams
    interleave between the two; the section [concurrent] models that with a
    step per critical section. *)
From S2P Require Import Prelude GoStd.

Definition UnknownDomain : string := "__unknown__".

Record DomainClassifier `{Regexp} := mkDomainClassifier {
  patterns : list regex;
  known : gmap string bool;
  maxDomains : Z;
}.
Arguments mkDomainClassifier {_} _ _ _.

Inductive classifier_error := InvalidClassifierPattern (pattern : string) (err : string).

Section classifier.
Context `{Regexp}.

Fixpoint compile_nonempty (ps : list string) : result classifier_error (list regex) :=
  match ps with
  | [] => Ok []
  | p :: ps =>
      if decide (p = "") then compile_nonempty ps
      else match Compile p with
           | Err err => Err (InvalidClassifierPattern p err)
           | Ok r => rs <-? compile_nonempty ps ;; Ok (r :: rs)
           end
  end.

Definition NewDomainClassifier (ps : list string) (maxDomains : Z)
    : result classifier_error DomainClassifier :=
  let maxDomains := if (maxDomains <=? 0)%Z then 100%Z else maxDomains in
  compiled <-? compile_nonempty ps ;;
  Ok (mkDomainClassifier compiled ∅ maxDomains).

(** [c.known[domain]]: false when absent. *)
Definition is_known (c : DomainClassifier) (domain : string) : bool :=
  default false (known c !! domain).

(** The pattern check, which takes no lock: [patterns] never changes. *)
Definition pattern_match (c : DomainClassifier) (domain : string) : bool :=
  match patterns c with
  | [] => true
  | ps => existsb (λ p, MatchString p domain) ps
  end.

(** The second critical section. *)
Definition admit_domain (domain : string) (c : DomainClassifier) : string * DomainClassifier :=
  if is_known c domain then (domain, c)
  else if (maxDomains c <=? Z.of_nat (size (known c)))%Z then (UnknownDomain, c)
  else (domain, mkDomainClassifier (patterns c) (<[domain := true]> (known c)) (maxDomains c)).

(** [Classify] without interference: the label and the classifier after. *)
Definition Classify (domain : string) (c : DomainClassifier) : string * DomainClassifier :=
  if is_known c domain then (domain, c)
  else if negb (pattern_match c domain) then (UnknownDomain, c)
  else admit_domain domain c.
End classifier.

(** ** Interleaved calls *)
Section concurrent.
Context `{Regexp}.

(** A classifier shared by calls in flight. [waiting] holds the domains whose
    call has looked and matched but not yet taken the write lock; [answers] the
    finished calls with their labels. *)
Record classify_state := mkClassifyState {
  shared : DomainClassifier;
  waiting : list string;
  answers : list (string * string);
}.

Inductive classify_step : classify_state → classify_state → Prop :=
| step_fast c w a domain :
    is_known c domain = true →
    classify_step (mkClassifyState c w a) (mkClassifyState c w ((domain, domain) :: a))
| step_unmatched c w a domain :
    is_known c domain = false → pattern_match c domain = false →
    classify_step (mkClassifyState c w a) (mkClassifyState c w ((domain, UnknownDomain) :: a))
| step_matched c w a domain :
    is_known c domain = false → pattern_match c domain = true →
    classify_step (mkClassifyState c w a) (mkClassifyState c (domain :: w) a)
| step_admit c w1 w2 a domain label c' :
    admit_domain domain c = (label, c') →
    classify_step (mkClassifyState c (w1 ++ domain :: w2) a)
                  (mkClassifyState c' (w1 ++ w2) ((domain, label) :: a)).

(** The labels handed out so far. *)
Definition labels (s : classify_state) : gset string := list_to_set (snd <$> answers s).

(** What holds between steps: the cap; known domains are marked and match;
    every answer is a known domain itself or the overflow label. *)
Record classify_inv (s : classify_state) : Prop := {
  inv_cap : (Z.of_nat (size (known (shared s))) <= maxDomains (shared s))%Z;
  inv_known : map_Forall (λ d b, b = true ∧ pattern_match (shared s) d = true) (known (shared s));
  inv_waiting : Forall (λ d, pattern_match (shared s) d = true) (waiting s);
  inv_answers : Forall (λ p, p.2 = UnknownDomain ∨ (p.2 = p.1 ∧ is_Some (known (shared s) !! p.1)))
                  (answers s);
}.

Lemma is_known_lookup c d : is_known c d = true → is_Some (known c !! d).
Proof. unfold is_known. destruct (known c !! d); [eauto|done]. Qed.

(** Admitting keeps the patterns and the cap, and only adds the domain. *)
Lemma admit_domain_spec d c label c' :
  admit_domain d c = (label, c') →
  patterns c' = patterns c ∧ maxDomains c' = maxDomains c ∧
  ((label = UnknownDomain ∧ c' = c ∧ (maxDomains c <= Z.of_nat (size (known c)))%Z) ∨
   (label = d ∧ is_Some (known c' !! d) ∧ (c' = c ∨
     known c' = <[d := true]> (known c) ∧ (Z.of_nat (size (known c)) < maxDomains c)%Z))).
Proof.
  unfold admit_domain. destruct (is_known c d) eqn:Hk.
  { intros [= <- <-]. split_and!; [done..|]. right. eauto using is_known_lookup. }
  case_match eqn:Hcap; intros [= <- <-]; split_and!; try done.
  - left. split_and!; [done..|]. lia.
  - right. cbn. rewrite lookup_insert_eq. split_and!; [done|by eauto|]. right. split; [done|]. lia.
Qed.

Lemma pattern_match_patterns c c' d : patterns c' = patterns c → pattern_match c' d = pattern_match c d.
Proof. intros Hp. unfold pattern_match. by rewrite Hp. Qed.

Lemma map_size_insert_le {A} (m : gmap string A) k v : size (<[k:=v]> m) <= S (size m).
Proof. rewrite map_size_insert. case_match; cbn; lia. Qed.

Lemma classify_inv_admit c w1 w2 a d label c' :
  classify_inv (mkClassifyState c (w1 ++ d :: w2) a) → admit_domain d c = (label, c') →
  classify_inv (mkClassifyState c' (w1 ++ w2) ((d, label) :: a)).
Proof.
  intros [Hcap Hkn Hw Ha] Had. cbn in *.
  apply admit_domain_spec in Had as (Hp & Hm & Hcase).
  apply Forall_app in Hw as [Hw1 [Hd Hw2]%Forall_cons].
  assert (∀ k, is_Some (known c !! k) → is_Some (known c' !! k)) as Hmono.
  { destruct Hcase as [(_ & -> & _)|(_ & _ & [->|[-> _]])]; try done.
    intros k Hk. rewrite lookup_insert. by case_decide; eauto. }
  split; cbn.
  - rewrite Hm. destruct Hcase as [(_ & -> & _)|(_ & _ & [->|[-> Hlt]])]; [done..|].
    pose proof (map_size_insert_le (known c) d true). lia.
  - intros k b. rewrite (pattern_match_patterns c c') by done.
    destruct Hcase as [(_ & -> & _)|(_ & _ & [->|[-> Hlt]])]; [apply Hkn..|].
    rewrite lookup_insert. case_decide; [by intros; simplify_eq|apply Hkn].
  - apply Forall_app; split; eapply Forall_impl; try done;
      intros x; by rewrite (pattern_match_patterns c c').
  - apply Forall_cons. split; [cbn; naive_solver|].
    eapply Forall_impl; [exact Ha|]. intros [x y]. cbn. naive_solver.
Qed.

Lemma classify_inv_step s s' : classify_inv s → classify_step s s' → classify_inv s'.
Proof.
  intros Hinv Hstep. destruct Hstep; [| | |by eapply classify_inv_admit].
  - destruct Hinv as [? ? ? Ha]. split; [done..|]. apply Forall_cons.
    split; [right; eauto using is_known_lookup|done].
  - destruct Hinv as [? ? ? Ha]. split; [done..|]. apply Forall_cons. split; [by left|done].
  - destruct Hinv as [? ? Hw ?]. split; [done..| |done]. by apply Forall_cons.
Qed.

Lemma NewDomainClassifier_inv ps n c :
  NewDomainClassifier ps n = Ok c → classify_inv (mkClassifyState c [] []) ∧ (0 < maxDomains c)%Z.
Proof.
  unfold NewDomainClassifier. destruct (compile_nonempty ps); [|done]. intros [= <-].
  assert (0 < (if (n <=? 0)%Z then 100%Z else n))%Z by (case_match; lia).
  split; [|done]. split; cbn; [|done|constructor..].
  rewrite map_size_empty. lia.
Qed.

Lemma classify_inv_reachable s s' : rtc classify_step s s' → classify_inv s → classify_inv s'.
Proof. induction 1; eauto using classify_inv_step. Qed.

(** Labels are the known domains and the overflow label. *)
Lemma labels_bound s :
  classify_inv s → (Z.of_nat (size (labels s)) <= maxDomains (shared s) + 1)%Z.
Proof.
  intros [Hcap _ _ Ha].
  assert (labels s ⊆ dom (known (shared s)) ∪ {[UnknownDomain]}) as Hsub.
  { intros l. unfold labels. rewrite elem_of_list_to_set, list_elem_of_fmap.
    intros ([d l'] & -> & Hin). rewrite Forall_forall in Ha. specialize (Ha _ Hin).
    rewrite elem_of_union, elem_of_dom, elem_of_singleton. cbn in *. naive_solver. }
  apply subseteq_size in Hsub. rewrite size_union_alt in Hsub.
  assert (size (({[UnknownDomain]} : gset string) ∖ dom (known (shared s))) <= 1).
  { rewrite <-(size_singleton (C := gset string) UnknownDomain). apply subseteq_size. set_solver. }
  rewrite size_dom in Hsub. lia.
Qed.

(** Patterns and cap never change, and a known domain stays known. *)
Definition classifier_extends (c c' : DomainClassifier) : Prop :=
  patterns c' = patterns c ∧ maxDomains c' = maxDomains c ∧
  ∀ d, is_known c d = true → is_known c' d = true.

Lemma admit_domain_extends d c : classifier_extends c (admit_domain d c).2.
Proof.
  unfold classifier_extends, admit_domain. repeat case_match; cbn; split_and!; try done.
  intros d'. unfold is_known; cbn. rewrite lookup_insert. by case_decide.
Qed.

Lemma classifier_extends_reachable s s' :
  rtc classify_step s s' → classifier_extends (shared s) (shared s').
Proof.
  induction 1 as [s|s1 s2 s3 Hstep _ (Hp & Hm & Hk)]; [done|].
  assert (classifier_extends (shared s1) (shared s2)) as (Hp' & Hm' & Hk').
  { destruct Hstep as [| | |c w1 w2 a d label c' Had]; [done..|]. cbn.
    pose proof (admit_domain_extends d c) as He. by rewrite Had in He. }
  split_and!; [congruence..|auto].
Qed.

(** A call that runs without interference is one of the interleavings. *)
Lemma Classify_steps c w a d :
  rtc classify_step (mkClassifyState c w a)
    (mkClassifyState (Classify d c).2 w ((d, (Classify d c).1) :: a)).
Proof.
  unfold Classify. destruct (is_known c d) eqn:Hk; [by apply rtc_once, step_fast|].
  destruct (pattern_match c d) eqn:Hm; cbn; [|by apply rtc_once, step_unmatched].
  eapply rtc_l; [by apply step_matched|]. eapply rtc_once.
  apply (step_admit c [] w a d). by destruct (admit_domain d c).
Qed.
End concurrent.

(** ** Properties *)

(** C30: label cardinality is bounded: however calls interleave, the labels
    ever handed out are at most the cap plus the overflow label, and every
    label other than the overflow one is the domain itself, which matches. *)
Theorem classifier_labels_bounded `{Regexp} ps n c s :
  NewDomainClassifier ps n = Ok c → rtc classify_step (mkClassifyState c [] []) s →
  (Z.of_nat (size (labels s)) <= maxDomains c + 1)%Z ∧
  Forall (λ p, p.2 = UnknownDomain ∨ (p.2 = p.1 ∧ pattern_match c p.1 = true)) (answers s).
Proof.
  intros [Hinv _]%NewDomainClassifier_inv Hsteps.
  pose proof (classify_inv_reachable _ _ Hsteps Hinv) as Hinv'.
  apply classifier_extends_reachable in Hsteps as (Hp & Hm & _). cbn in *. split.
  - rewrite <-Hm. by apply labels_bound.
  - destruct Hinv' as [_ Hkn _ Ha]. eapply Forall_impl; [exact Ha|].
    intros [d l] [?|[? [b Hb]]]; [by left|right]. split; [done|].
    apply Hkn in Hb as [_ Hb]. rewrite <-Hb. symmetry. by apply pattern_match_patterns.
Qed.

Lemma classifier_labels_bounded_witness :
  let c := @mkDomainClassifier literal_regexp ["api"] ∅ 1 in
  let r1 := Classify "api.a" c in
  let r2 := Classify "api.b" r1.2 in
  let s := mkClassifyState r2.2 [] [("api.b", r2.1); ("api.a", r1.1)] in
  (Z.of_nat (size (labels s)) <= maxDomains c + 1)%Z ∧
  Forall (λ p, p.2 = UnknownDomain ∨ (p.2 = p.1 ∧ pattern_match c p.1 = true)) (answers s).
Proof.
  intros c r1 r2 s. apply (@classifier_labels_bounded literal_regexp ["api"] 1); [reflexivity|].
  etrans; [apply (Classify_steps c [] [] "api.a")|].
  apply (Classify_steps r1.2 [] _ "api.b").
Defined.

(** Labels are stable: a domain that was ever admitted keeps its own
    label in every later state, whatever other calls did in between. *)
Theorem classifier_label_stable `{Regexp} s s' d :
  is_known (shared s) d = true → rtc classify_step s s' →
  Classify d (shared s') = (d, shared s').
Proof.
  intros Hd (_ & _ & Hk)%classifier_extends_reachable. unfold Classify. by rewrite Hk.
Qed.

Lemma classifier_label_stable_witness :
  let c := @mkDomainClassifier literal_regexp [] {["a" := true]} 1 in
  Classify "a" (shared (mkClassifyState c [] [("b", UnknownDomain)])) = ("a", c).
Proof.
  intros c. apply (classifier_label_stable (mkClassifyState c [] [])); [reflexivity|].
  exact (Classify_steps c [] [] "b").
Defined.
