(* ===== verification/Server.v ===== *)
(** * The RLQS server (internal/server/server.go)

    State and handlers of [RLQSServer]. A stream is identified by a number (the
    address of its [streamState]); [streams] is both the registry and the heap
    of stream states. The store is any [BucketStore], the engine any [Engine].
    What the gRPC stream does with a message is the parameter [Send], which
    returns the error of the call; messages that went out are appended to
    [outbox]. Prometheus gauges and counters are integers per label.

    Each handler is modelled as one step. The variants with the suffix [_p] are
    the handlers for an engine that may panic. *)
From S2P Require Import Prelude GoStd Proto BucketKey Storage Config Quota DomainClassifier.

(** ** Errors *)
Inductive Code := InvalidArgument | ResourceExhausted | Internal.

Inductive rpc_error :=
| ErrFirstMessageDomain
| ErrDomainMismatch (bound received : string)
| ErrTooManyReports (n limit : Z)
| ErrTooManyEntries (n limit : Z)
| ErrEmptyKeyOrValue
| ErrKeyTooLong (n limit : Z)
| ErrValueTooLong (n limit : Z)
| ErrMaxBuckets (limit : Z)
| ErrEngine (err : error)
| ErrSend (err : error)
| ErrRecv (err : error).

(** The status code of an error the server builds; [None] for an error of the
    stream that is passed on. *)
Definition status_code (e : rpc_error) : option Code :=
  match e with
  | ErrFirstMessageDomain | ErrDomainMismatch _ _ | ErrTooManyEntries _ _
  | ErrEmptyKeyOrValue | ErrKeyTooLong _ _ | ErrValueTooLong _ _ => Some InvalidArgument
  | ErrTooManyReports _ _ | ErrMaxBuckets _ => Some ResourceExhausted
  | ErrEngine _ => Some Internal
  | ErrSend _ | ErrRecv _ => None
  end.

(** ** State *)
Record streamState := mkStreamState {
  ss_domain : string;
  metricDomain : string;
  domainBound : bool;
  subscriptions : gmap string BucketId;
}.

Definition new_stream : streamState := mkStreamState "" "" false ∅.

(** The metrics of internal/metrics/metrics.go; of the histogram, the number of
    observations. *)
Record Metrics := mkMetrics {
  ActiveStreams : Z;
  ActiveBuckets : gmap string Z;
  UsageReportsTotal : gmap string Z;
  AssignmentsTotal : gmap string Z;
  EngineDuration_count : Z;
}.

Definition zero_metrics : Metrics := mkMetrics 0 ∅ ∅ ∅ 0.

(** [WithLabelValues(label).Add(n)]: a label starts at zero. *)
Definition label_add (label : string) (n : Z) (m : gmap string Z) : gmap string Z :=
  <[label := (default 0 (m !! label) + n)%Z]> m.

Record Limits := mkLimits {
  maxBucketsPerStream : Z;
  maxReportsPerMessage : Z;
  maxBucketEntries : Z;
  maxBucketKeyLen : Z;
  maxBucketValueLen : Z;
  engineTimeout : Z;
}.

Record RLQSServer `{Regexp} (St : Type) := mkRLQSServer {
  store : St;
  engine : Engine;
  domainClassifier : DomainClassifier;
  limits : Limits;
  streams : gmap nat streamState;
  bucketRefs : gmap string Z;
  metrics : Metrics;
  outbox : list (nat * RateLimitQuotaResponse);
}.
Arguments mkRLQSServer {_ _} _ _ _ _ _ _ _ _.
Arguments store {_ _} _.
Arguments engine {_ _} _.
Arguments domainClassifier {_ _} _.
Arguments limits {_ _} _.
Arguments streams {_ _} _.
Arguments bucketRefs {_ _} _.
Arguments metrics {_ _} _.
Arguments outbox {_ _} _.

Section server.
Context `{Regexp} {St : Type} `{BucketStore St}.
Implicit Types s : RLQSServer St.

(** ** Assignments to the fields *)
Definition with_store (st : St) (s : RLQSServer St) : RLQSServer St :=
  mkRLQSServer st (engine s) (domainClassifier s) (limits s) (streams s) (bucketRefs s) (metrics s) (outbox s).
Definition with_engine (e : Engine) (s : RLQSServer St) : RLQSServer St :=
  mkRLQSServer (store s) e (domainClassifier s) (limits s) (streams s) (bucketRefs s) (metrics s) (outbox s).
Definition with_classifier (c : DomainClassifier) (s : RLQSServer St) : RLQSServer St :=
  mkRLQSServer (store s) (engine s) c (limits s) (streams s) (bucketRefs s) (metrics s) (outbox s).
Definition with_streams (f : gmap nat streamState → gmap nat streamState) (s : RLQSServer St) : RLQSServer St :=
  mkRLQSServer (store s) (engine s) (domainClassifier s) (limits s) (f (streams s)) (bucketRefs s) (metrics s) (outbox s).
Definition with_refs (refs : gmap string Z) (s : RLQSServer St) : RLQSServer St :=
  mkRLQSServer (store s) (engine s) (domainClassifier s) (limits s) (streams s) refs (metrics s) (outbox s).
Definition with_metrics (f : Metrics → Metrics) (s : RLQSServer St) : RLQSServer St :=
  mkRLQSServer (store s) (engine s) (domainClassifier s) (limits s) (streams s) (bucketRefs s) (f (metrics s)) (outbox s).
Definition with_sent (id : nat) (r : RateLimitQuotaResponse) (s : RLQSServer St) : RLQSServer St :=
  mkRLQSServer (store s) (engine s) (domainClassifier s) (limits s) (streams s) (bucketRefs s) (metrics s)
    (outbox s ++ [(id, r)]).

(** Access to the state a stream's handler holds a pointer to. *)
Definition get_stream (id : nat) (s : RLQSServer St) : streamState := default new_stream (streams s !! id).
Definition put_stream (id : nat) (ss : streamState) (s : RLQSServer St) : RLQSServer St :=
  with_streams <[id := ss]> s.

(** ** Metrics *)
Definition streams_add (n : Z) (m : Metrics) : Metrics :=
  mkMetrics (ActiveStreams m + n) (ActiveBuckets m) (UsageReportsTotal m) (AssignmentsTotal m) (EngineDuration_count m).
Definition buckets_add (label : string) (n : Z) (m : Metrics) : Metrics :=
  mkMetrics (ActiveStreams m) (label_add label n (ActiveBuckets m)) (UsageReportsTotal m) (AssignmentsTotal m) (EngineDuration_count m).
Definition reports_add (label : string) (n : Z) (m : Metrics) : Metrics :=
  mkMetrics (ActiveStreams m) (ActiveBuckets m) (label_add label n (UsageReportsTotal m)) (AssignmentsTotal m) (EngineDuration_count m).
Definition assignments_add (label : string) (n : Z) (m : Metrics) : Metrics :=
  mkMetrics (ActiveStreams m) (ActiveBuckets m) (UsageReportsTotal m) (label_add label n (AssignmentsTotal m)) (EngineDuration_count m).
Definition engine_observe (m : Metrics) : Metrics :=
  mkMetrics (ActiveStreams m) (ActiveBuckets m) (UsageReportsTotal m) (AssignmentsTotal m) (EngineDuration_count m + 1).

(** ** Construction *)
Definition default_classifier (maxMetricDomains : Z) : DomainClassifier :=
  match NewDomainClassifier [] maxMetricDomains with
  | Ok c => c
  | Err _ => mkDomainClassifier [] ∅ 0
  end.

Definition NewRLQS (st : St) (e : Engine) (cfg : ServerConfig) (classifier : option DomainClassifier)
    : RLQSServer St :=
  let classifier :=
    match classifier with
    | None => default_classifier (MaxMetricDomains cfg)
    | Some c => c
    end in
  mkRLQSServer st e classifier
    (mkLimits (MaxBucketsPerStream cfg) (MaxReportsPerMessage cfg) (MaxBucketEntries cfg)
       (MaxBucketKeyLen cfg) (MaxBucketValueLen cfg) (EngineTimeout cfg))
    ∅ ∅ zero_metrics [].

(** ** Validation of a bucket id *)
Fixpoint validate_entries (l : Limits) (entries : list (string * string)) : option rpc_error :=
  match entries with
  | [] => None
  | (k, v) :: entries =>
      if decide (k = "" ∨ v = "") then Some ErrEmptyKeyOrValue
      else if (0 <? maxBucketKeyLen l)%Z && (maxBucketKeyLen l <? len k)%Z
      then Some (ErrKeyTooLong (len k) (maxBucketKeyLen l))
      else if (0 <? maxBucketValueLen l)%Z && (maxBucketValueLen l <? len v)%Z
      then Some (ErrValueTooLong (len v) (maxBucketValueLen l))
      else validate_entries l entries
  end.

Definition validate_bucket `{GoRange} (l : Limits) (b : gmap string string) : option rpc_error :=
  if (0 <? maxBucketEntries l)%Z && (maxBucketEntries l <? Z.of_nat (size b))%Z
  then Some (ErrTooManyEntries (Z.of_nat (size b)) (maxBucketEntries l))
  else validate_entries l (map_range b).

(** ** Subscriptions *)

(** Track a subscription; the first report for a bucket is the signal. *)
Definition subscribe (id : nat) (key : BucketKey) (bid : BucketId) (s : RLQSServer St)
    : RLQSServer St * option rpc_error :=
  let ss := get_stream id s in
  let max := maxBucketsPerStream (limits s) in
  match subscriptions ss !! key with
  | Some _ => (s, None)
  | None =>
      if (0 <? max)%Z && (max <=? Z.of_nat (size (subscriptions ss)))%Z
      then (s, Some (ErrMaxBuckets max))
      else
        let s := put_stream id (mkStreamState (ss_domain ss) (metricDomain ss) (domainBound ss)
                                  (<[key := bid]> (subscriptions ss))) s in
        let scopedKey := DomainScopedKey (ss_domain ss) key in
        let s := with_refs (label_add scopedKey 1 (bucketRefs s)) s in
        (with_metrics (buckets_add (metricDomain ss) 1) s, None)
  end.

(** Drop one reference to a bucket; the last one removes it from the store. An
    error of the store is logged and otherwise ignored. *)
Definition release_bucket `{GoRange} (ctx : GoContext) (domain : string) (key : BucketKey) (s : RLQSServer St)
    : RLQSServer St :=
  let scopedKey := DomainScopedKey domain key in
  let refs := label_add scopedKey (-1) (bucketRefs s) in
  if (default 0 (refs !! scopedKey) <=? 0)%Z then
    let s := with_refs (delete scopedKey refs) s in
    with_store (RemoveBucket ctx domain key (store s)).2 s
  else with_refs refs s.

(** ** handleMessage *)

(** Domain binding by the first message, and its check on later ones. *)
Definition bind_domain (id : nat) (req : RateLimitQuotaUsageReports) (s : RLQSServer St)
    : RLQSServer St * option rpc_error :=
  let ss := get_stream id s in
  let domain := req_domain req in
  if domainBound ss then
    if decide (domain ≠ "" ∧ domain ≠ ss_domain ss)
    then (s, Some (ErrDomainMismatch (ss_domain ss) domain))
    else (s, None)
  else if decide (domain = "") then (s, Some ErrFirstMessageDomain)
  else
    let '(label, classifier) := Classify domain (domainClassifier s) in
    let s := with_classifier classifier s in
    (put_stream id (mkStreamState domain label true (subscriptions ss)) s, None).

Definition usage_report `{DurationPb} (u : BucketQuotaUsage) : UsageReport :=
  mkUsageReport (usage_bucket_id u) (usage_num_requests_allowed u) (usage_num_requests_denied u)
    (AsDuration (usage_time_elapsed u)).

(** One iteration of the loop over the usages: [Ok None] skips the usage. *)
Definition handle_usage `{GoRange, DurationPb} (id : nat) (u : BucketQuotaUsage) (s : RLQSServer St)
    : RLQSServer St * result rpc_error (option UsageReport) :=
  match usage_bucket_id u with
  | None => (s, Ok None)
  | Some bid =>
      if empty_bucket (Some bid) then (s, Ok None)
      else match validate_bucket (limits s) (bucket bid) with
      | Some err => (s, Err err)
      | None =>
          let key := BucketKeyFromProto (Some bid) in
          match subscribe id key bid s with
          | (s, Some err) => (s, Err err)
          | (s, None) =>
              let report := usage_report u in
              let domain := ss_domain (get_stream id s) in
              (with_store (RecordUsage StreamContext domain report (store s)).2 s, Ok (Some report))
          end
      end
  end.

Fixpoint handle_usages `{GoRange, DurationPb} (id : nat) (us : list BucketQuotaUsage)
    (reports : list UsageReport) (s : RLQSServer St)
    : RLQSServer St * result rpc_error (list UsageReport) :=
  match us with
  | [] => (s, Ok reports)
  | u :: us =>
      match handle_usage id u s with
      | (s, Err err) => (s, Err err)
      | (s, Ok None) => handle_usages id us reports s
      | (s, Ok (Some r)) => handle_usages id us (reports ++ [r]) s
      end
  end.

(** An abandon action ends the stream's subscription to its bucket. *)
Definition abandon_action `{GoRange} (id : nat) (a : BucketAction) (s : RLQSServer St) : RLQSServer St :=
  if has_abandon_action a then
    let key := BucketKeyFromProto (action_bucket_id a) in
    let ss := get_stream id s in
    match subscriptions ss !! key with
    | Some _ =>
        let s := put_stream id (mkStreamState (ss_domain ss) (metricDomain ss) (domainBound ss)
                                  (delete key (subscriptions ss))) s in
        let s := release_bucket StreamContext (ss_domain ss) key s in
        with_metrics (buckets_add (metricDomain ss) (-1)) s
    | None => s
    end
  else s.

Definition abandon_actions `{GoRange} (id : nat) (actions : list BucketAction) (s : RLQSServer St)
    : RLQSServer St :=
  foldl (λ s a, abandon_action id a s) s actions.

(** [engineCtx]: the stream's context, with the timeout when one is set. *)
Definition engine_ctx (s : RLQSServer St) : GoContext :=
  if (0 <? engineTimeout (limits s))%Z
  then WithTimeout StreamContext (engineTimeout (limits s)) else StreamContext.

Definition send_response (Send : nat → RateLimitQuotaResponse → option error) (id : nat)
    (actions : list BucketAction) (s : RLQSServer St) : RLQSServer St * option rpc_error :=
  let resp := mkResponse actions in
  match Send id resp with
  | Some err => (s, Some (ErrSend err))
  | None => (with_sent id resp s, None)
  end.

(** Consult the engine with the reports of one message and act on its answer. *)
Definition consult_engine `{GoRange} (Send : nat → RateLimitQuotaResponse → option error) (id : nat)
    (reports : list UsageReport) (s : RLQSServer St) : RLQSServer St * option rpc_error :=
  let label := metricDomain (get_stream id s) in
  let s := with_metrics (reports_add label (Z.of_nat (length reports))) s in
  let r := ProcessUsage (engine s) (engine_ctx s) (ss_domain (get_stream id s)) reports in
  let s := with_metrics engine_observe s in
  match r with
  | Err err => (s, Some (ErrEngine err))
  | Ok [] => (s, None)
  | Ok actions =>
      let s := with_metrics (assignments_add label (Z.of_nat (length actions))) s in
      let s := abandon_actions id actions s in
      send_response Send id actions s
  end.

Definition handleMessage `{GoRange, DurationPb} (Send : nat → RateLimitQuotaResponse → option error)
    (id : nat) (req : RateLimitQuotaUsageReports) (s : RLQSServer St)
    : RLQSServer St * option rpc_error :=
  match bind_domain id req s with
  | (s, Some err) => (s, Some err)
  | (s, None) =>
      let usages := req_bucket_quota_usages req in
      let n := Z.of_nat (length usages) in
      let max := maxReportsPerMessage (limits s) in
      if decide (usages = []) then (s, None)
      else if (0 <? max)%Z && (max <? n)%Z then (s, Some (ErrTooManyReports n max))
      else
        match handle_usages id usages [] s with
        | (s, Err err) => (s, Some err)
        | (s, Ok reports) => consult_engine Send id reports s
        end
  end.

(** ** The life of a stream *)
Definition open_stream (id : nat) (s : RLQSServer St) : RLQSServer St :=
  with_metrics (streams_add 1) (with_streams <[id := new_stream]> s).

(** One iteration of the loop of [cleanupStream]. *)
Definition cleanup_bucket `{GoRange} (ss : streamState) (s : RLQSServer St) (key : BucketKey) : RLQSServer St :=
  release_bucket Background (ss_domain ss) key (with_metrics (buckets_add (metricDomain ss) (-1)) s).

Definition cleanupStream `{GoRange} (id : nat) (s : RLQSServer St) : RLQSServer St :=
  let ss := get_stream id s in
  let s := with_streams (delete id) s in
  if domainBound ss
  then foldl (cleanup_bucket ss) s (map_range (subscriptions ss)).*1
  else s.

(** The deferred calls of the stream handler. *)
Definition close_stream `{GoRange} (id : nat) (s : RLQSServer St) : RLQSServer St :=
  cleanupStream id (with_metrics (streams_add (-1)) s).

(** The receive loop: the messages the stream delivers, each with what [Send]
    does while it is handled, and then how receiving ends: [None] is the
    client's EOF, [Some err] an error of [Recv]. *)
Fixpoint recv_loop `{GoRange, DurationPb} (id : nat)
    (msgs : list ((nat → RateLimitQuotaResponse → option error) * RateLimitQuotaUsageReports))
    (last : option error) (s : RLQSServer St) : RLQSServer St * option rpc_error :=
  match msgs with
  | [] => (s, ErrRecv <$> last)
  | (Send, req) :: msgs =>
      match handleMessage Send id req s with
      | (s, Some err) => (s, Some err)
      | (s, None) => recv_loop id msgs last s
      end
  end.

Definition StreamRateLimitQuotas `{GoRange, DurationPb} (id : nat)
    (msgs : list ((nat → RateLimitQuotaResponse → option error) * RateLimitQuotaUsageReports))
    (last : option error) (s : RLQSServer St) : RLQSServer St * option rpc_error :=
  let s := open_stream id s in
  let '(s, err) := recv_loop id msgs last s in
  (close_stream id s, err).

(** ** Hot reload *)

(** What [pushAssignments] does for one stream of its snapshot. *)
Definition push_stream `{GoRange} (Send : nat → RateLimitQuotaResponse → option error) (e : Engine)
    (s : RLQSServer St) (id : nat) : RLQSServer St :=
  let ss := get_stream id s in
  if negb (domainBound ss) || bool_decide (size (subscriptions ss) = 0) then s
  else
    let reports := (λ kv, mkUsageReport (Some kv.2) 0 0 0) <$> map_range (subscriptions ss) in
    match ProcessUsage e (engine_ctx s) (ss_domain ss) reports with
    | Err _ => s
    | Ok [] => s
    | Ok actions =>
        let s := with_metrics (assignments_add (metricDomain ss) (Z.of_nat (length actions))) s in
        (send_response Send id actions s).1
    end.

Definition pushAssignments `{GoRange} (Send : nat → RateLimitQuotaResponse → option error) (e : Engine)
    (s : RLQSServer St) : RLQSServer St :=
  foldl (push_stream Send e) s (map_range (streams s)).*1.

(** [SwapEngine] stores the engine and starts the push in its own goroutine.
    [None] is the panic of [atomic.Value.Store], which refuses a value whose
    concrete type is not that of the value stored first. *)
Definition SwapEngine (e : Engine) (s : RLQSServer St) : option (RLQSServer St) :=
  if decide (concrete_type e = concrete_type (engine s)) then Some (with_engine e s) else None.

Definition SwapDomainClassifier (c : DomainClassifier) (s : RLQSServer St) : RLQSServer St :=
  with_classifier c s.

(** ** StreamStats *)
Definition StreamStats `{GoRange} (s : RLQSServer St) : list (string * nat) :=
  (λ p, (ss_domain p.2, size (subscriptions p.2))) <$> map_range (streams s).
End server.

(** How a Go function ends: it returns an error or nil, or it panics. *)
Inductive outcome (E : Type) := Returned (err : option E) | Panicked (v : string).
Arguments Returned {_} _.
Arguments Panicked {_} _.

(** ** A handler whose engine may panic

    [Panics] says of a call of the engine whether it panics, and with what. *)
Section panicking.
Context `{Regexp, DurationPb, GoRange} {St : Type} `{BucketStore St}.
Context (Panics : GoContext → string → list UsageReport → option string).
Implicit Types s : RLQSServer St.

Definition consult_engine_p (Send : nat → RateLimitQuotaResponse → option error) (id : nat)
    (reports : list UsageReport) (s : RLQSServer St) : RLQSServer St * outcome rpc_error :=
  match Panics (engine_ctx s) (ss_domain (get_stream id s)) reports with
  | Some v =>
      (with_metrics (reports_add (metricDomain (get_stream id s)) (Z.of_nat (length reports))) s, Panicked v)
  | None => let '(s, err) := consult_engine Send id reports s in (s, Returned err)
  end.

Definition handleMessage_p (Send : nat → RateLimitQuotaResponse → option error) (id : nat)
    (req : RateLimitQuotaUsageReports) (s : RLQSServer St) : RLQSServer St * outcome rpc_error :=
  match bind_domain id req s with
  | (s, Some err) => (s, Returned (Some err))
  | (s, None) =>
      let usages := req_bucket_quota_usages req in
      let n := Z.of_nat (length usages) in
      let max := maxReportsPerMessage (limits s) in
      if decide (usages = []) then (s, Returned None)
      else if (0 <? max)%Z && (max <? n)%Z then (s, Returned (Some (ErrTooManyReports n max)))
      else
        match handle_usages id usages [] s with
        | (s, Err err) => (s, Returned (Some err))
        | (s, Ok reports) => consult_engine_p Send id reports s
        end
  end.

Fixpoint recv_loop_p (id : nat)
    (msgs : list ((nat → RateLimitQuotaResponse → option error) * RateLimitQuotaUsageReports))
    (last : option error) (s : RLQSServer St) : RLQSServer St * outcome rpc_error :=
  match msgs with
  | [] => (s, Returned (ErrRecv <$> last))
  | (Send, req) :: msgs =>
      match handleMessage_p Send id req s with
      | (s, Returned None) => recv_loop_p id msgs last s
      | (s, o) => (s, o)
      end
  end.

(** The deferred function runs however the body ends. *)
Definition StreamRateLimitQuotas_p (id : nat)
    (msgs : list ((nat → RateLimitQuotaResponse → option error) * RateLimitQuotaUsageReports))
    (last : option error) (s : RLQSServer St) : RLQSServer St * outcome rpc_error :=
  let '(s, o) := recv_loop_p id msgs last (open_stream id s) in (close_stream id s, o).
End panicking.

(** ** The server as a transition system

    Handlers of different streams, pushes and swaps follow one another in any
    order. Each step has its own map orders and its own behaviour of [Send]. A
    message whose engine panics leaves what was done before the call. *)
Section transitions.
Context `{Regexp, DurationPb} {St : Type} `{BucketStore St}.

Inductive server_step : RLQSServer St → RLQSServer St → Prop :=
| step_open s id :
    streams s !! id = None → server_step s (open_stream id s)
| step_message (R : GoRange) Send s id req :
    is_Some (streams s !! id) →
    server_step s (handleMessage Send id req s).1
| step_panic (R : GoRange) Panics Send s id req :
    is_Some (streams s !! id) →
    server_step s (handleMessage_p Panics Send id req s).1
| step_close (R : GoRange) s id :
    is_Some (streams s !! id) →
    server_step s (close_stream id s)
| step_swap_engine s e s' : SwapEngine e s = Some s' → server_step s s'
| step_swap_classifier s c : server_step s (SwapDomainClassifier c s)
| step_push (R : GoRange) Send s e : server_step s (pushAssignments Send e s).

Definition server_reachable (s : RLQSServer St) : Prop :=
  ∃ st e cfg classifier, rtc server_step (NewRLQS st e cfg classifier) s.
End transitions.
