(* ===== verification/ServerInv.v ===== *)
(** * Bookkeeping of the server: what holds between handlers

    The reference counts, the gauges and the stored usage agree with the
    subscriptions of the registered streams; streams respect the configured
    limits. Every handler preserves this, so it holds in every reachable state. *)
From S2P Require Import Prelude GoStd Proto BucketKey Storage Config Quota DomainClassifier Server.

(** ** Counting subscriptions *)

(** The scoped keys a stream is subscribed to. *)
Definition scoped_subs (ss : streamState) : gset string :=
  set_map (DomainScopedKey (ss_domain ss)) (dom (subscriptions ss)).

(** How many streams are subscribed to the scoped key [k]. *)
Definition ref_count (k : string) (m : gmap nat streamState) : Z :=
  map_sum (λ _ ss, if decide (k ∈ scoped_subs ss) then 1 else 0)%Z m.

(** How many subscriptions the streams with a metric label have. *)
Definition sub_total (label : string) (m : gmap nat streamState) : Z :=
  map_sum (λ _ ss, if decide (metricDomain ss = label)
                   then Z.of_nat (size (subscriptions ss)) else 0)%Z m.

(** A count as the map keeps it: no entry for zero. *)
Definition of_count (n : Z) : option Z := if (n =? 0)%Z then None else Some n.

Record bookkeeping (refs gauge : gmap string Z) (m : gmap nat streamState) : Prop := {
  bk_refs k : refs !! k = of_count (ref_count k m);
  bk_gauge label : default 0%Z (gauge !! label) = sub_total label m;
}.

Definition add_sub (key : BucketKey) (bid : BucketId) (ss : streamState) : streamState :=
  mkStreamState (ss_domain ss) (metricDomain ss) (domainBound ss) (<[key := bid]> (subscriptions ss)).

Definition drop_sub (key : BucketKey) (ss : streamState) : streamState :=
  mkStreamState (ss_domain ss) (metricDomain ss) (domainBound ss) (delete key (subscriptions ss)).

(** The reference counts after one reference to [k] is dropped. *)
Definition release_refs (k : string) (refs : gmap string Z) : gmap string Z :=
  let refs := label_add k (-1) refs in
  if (default 0 (refs !! k) <=? 0)%Z then delete k refs else refs.

Lemma elem_of_scoped_subs k ss :
  k ∈ scoped_subs ss ↔ ∃ key, k = DomainScopedKey (ss_domain ss) key ∧ is_Some (subscriptions ss !! key).
Proof. unfold scoped_subs. rewrite elem_of_map. setoid_rewrite elem_of_dom. done. Qed.

Lemma elem_of_scoped_subs_key key ss :
  DomainScopedKey (ss_domain ss) key ∈ scoped_subs ss ↔ is_Some (subscriptions ss !! key).
Proof.
  rewrite elem_of_scoped_subs. split; [|by eauto].
  by intros (key' & ->%(inj (DomainScopedKey _)) & ?).
Qed.

Lemma scoped_subs_add key bid ss :
  scoped_subs (add_sub key bid ss) = {[DomainScopedKey (ss_domain ss) key]} ∪ scoped_subs ss.
Proof. unfold scoped_subs, add_sub; cbn. rewrite dom_insert_L. set_solver. Qed.

Lemma scoped_subs_drop key ss :
  scoped_subs (drop_sub key ss) = scoped_subs ss ∖ {[DomainScopedKey (ss_domain ss) key]}.
Proof.
  apply set_eq. intros k. rewrite elem_of_difference, !elem_of_scoped_subs, elem_of_singleton; cbn.
  setoid_rewrite lookup_delete_is_Some. split.
  - intros (key' & -> & Hne & ?). split; [by eauto|]. by intros ?%(inj (DomainScopedKey _)).
  - intros [(key' & -> & ?) Hne]. exists key'. split; [done|]. split; [|done]. by intros <-.
Qed.

Lemma lookup_label_add k k' n (m : gmap string Z) :
  label_add k n m !! k' = if decide (k = k') then Some (default 0 (m !! k) + n)%Z else m !! k'.
Proof. unfold label_add. rewrite lookup_insert. by case_decide. Qed.

Lemma default_label_add k k' n (m : gmap string Z) :
  default 0%Z (label_add k n m !! k') = (default 0 (m !! k') + if decide (k = k') then n else 0)%Z.
Proof. rewrite lookup_label_add. case_decide; [by subst|lia]. Qed.

Lemma default_of_count n : default 0%Z (of_count n) = n.
Proof. unfold of_count. case_match eqn:E; cbn; lia. Qed.

Lemma ref_count_nonneg k m : (0 <= ref_count k m)%Z.
Proof. apply map_sum_nonneg. intros. case_decide; lia. Qed.

Lemma ref_count_pos k m :
  (0 < ref_count k m)%Z ↔ ∃ id ss, m !! id = Some ss ∧ k ∈ scoped_subs ss.
Proof.
  unfold ref_count. rewrite map_sum_pos by (intros; case_decide; lia).
  split; intros (i & x & Hi & Hx); exists i, x; (split; [done|]); revert Hx; case_decide; done || lia.
Qed.

Lemma bookkeeping_insert refs refs' gauge gauge' m id ss ss' :
  m !! id = Some ss → bookkeeping refs gauge m →
  (∀ k, refs' !! k = of_count (ref_count k m - (if decide (k ∈ scoped_subs ss) then 1 else 0)
                                 + (if decide (k ∈ scoped_subs ss') then 1 else 0))) →
  metricDomain ss' = metricDomain ss ∨ subscriptions ss = ∅ →
  (∀ label, default 0 (gauge' !! label) = default 0 (gauge !! label) +
     if decide (metricDomain ss' = label)
     then Z.of_nat (size (subscriptions ss')) - Z.of_nat (size (subscriptions ss)) else 0)%Z →
  bookkeeping refs' gauge' (<[id := ss']> m).
Proof.
  intros Hid [Hr Hg] Hr' Hlabel Hg'. split.
  - intros k. rewrite Hr'. unfold ref_count. by rewrite (map_sum_insert_Some _ _ _ ss).
  - intros label. rewrite Hg', Hg. unfold sub_total. rewrite (map_sum_insert_Some _ _ _ ss) by done.
    destruct Hlabel as [->| ->].
    + case_decide; lia.
    + rewrite map_size_empty. repeat case_decide; lia.
Qed.

Lemma bookkeeping_add refs gauge m id ss key bid :
  m !! id = Some ss → subscriptions ss !! key = None → bookkeeping refs gauge m →
  bookkeeping (label_add (DomainScopedKey (ss_domain ss) key) 1 refs)
    (label_add (metricDomain ss) 1 gauge) (<[id := add_sub key bid ss]> m).
Proof.
  intros Hid Hkey Hbk. set (sk := DomainScopedKey (ss_domain ss) key).
  assert (sk ∉ scoped_subs ss) as Hsk.
  { unfold sk. rewrite elem_of_scoped_subs_key, Hkey. by intros []. }
  eapply bookkeeping_insert; [done..| |by left|].
  - intros k. rewrite lookup_label_add, scoped_subs_add, !(bk_refs _ _ _ Hbk), default_of_count.
    pose proof (ref_count_nonneg sk m). fold sk.
    destruct (decide (sk = k)) as [<-|Hne].
    + rewrite decide_False by done. rewrite decide_True by set_solver.
      unfold of_count. rewrite (proj2 (Z.eqb_neq _ 0)) by lia. f_equal. lia.
    + f_equal. destruct (decide (k ∈ scoped_subs ss)).
      * rewrite decide_True by set_solver. lia.
      * rewrite decide_False by set_solver. lia.
  - intros label. rewrite default_label_add. cbn. rewrite map_size_insert_None by done.
    case_decide; lia.
Qed.

Lemma bookkeeping_drop refs gauge m id ss key :
  m !! id = Some ss → is_Some (subscriptions ss !! key) → bookkeeping refs gauge m →
  bookkeeping (release_refs (DomainScopedKey (ss_domain ss) key) refs)
    (label_add (metricDomain ss) (-1) gauge) (<[id := drop_sub key ss]> m).
Proof.
  intros Hid Hkey Hbk. set (sk := DomainScopedKey (ss_domain ss) key).
  assert (sk ∈ scoped_subs ss) as Hsk by (by unfold sk; rewrite elem_of_scoped_subs_key).
  assert (0 < ref_count sk m)%Z as Hpos by (apply ref_count_pos; eauto).
  eapply bookkeeping_insert; [done..| |by left|].
  - intros k. rewrite scoped_subs_drop. fold sk. unfold release_refs.
    rewrite lookup_label_add, decide_True, (bk_refs _ _ _ Hbk), default_of_count by done; cbn [default].
    destruct (decide (sk = k)) as [<-|Hne].
    + rewrite decide_True by done. rewrite decide_False by set_solver. unfold of_count; cbn.
      case_match eqn:E1; case_match eqn:E2; rewrite ?lookup_delete_eq, ?lookup_label_add, ?decide_True by done;
        try done; [lia|lia|].
      rewrite (bk_refs _ _ _ Hbk), default_of_count. f_equal. lia.
    + assert ((if decide (k ∈ scoped_subs ss ∖ {[sk]}) then 1 else 0) =
              (if decide (k ∈ scoped_subs ss) then 1 else 0))%Z as ->.
      { repeat case_decide; try done; set_solver. }
      case_match; rewrite ?lookup_delete_ne, ?lookup_label_add, ?decide_False by done;
        rewrite (bk_refs _ _ _ Hbk); f_equal; lia.
  - intros label. rewrite default_label_add. cbn. destruct Hkey as [bid Hkey].
    rewrite (map_size_delete_Some key) by eauto.
    assert (size (subscriptions ss) ≠ 0) by (apply map_size_ne_0_lookup_2 with key; eauto).
    case_decide; lia.
Qed.

Lemma scoped_subs_empty ss : subscriptions ss = ∅ → scoped_subs ss = ∅.
Proof. intros He. unfold scoped_subs. rewrite He, dom_empty_L. set_solver. Qed.

(** Binding the domain of a stream without subscriptions. *)
Lemma bookkeeping_bind refs gauge m id ss ss' :
  m !! id = Some ss → subscriptions ss = ∅ → subscriptions ss' = ∅ →
  bookkeeping refs gauge m → bookkeeping refs gauge (<[id := ss']> m).
Proof.
  intros Hid He He' Hbk. eapply bookkeeping_insert; [done..| |by right|].
  - intros k. rewrite (bk_refs _ _ _ Hbk), !scoped_subs_empty by done.
    rewrite !decide_False by set_solver. f_equal. lia.
  - intros label. rewrite He, He'. case_decide; lia.
Qed.

Lemma bookkeeping_new refs gauge m id :
  m !! id = None → bookkeeping refs gauge m → bookkeeping refs gauge (<[id := new_stream]> m).
Proof.
  intros Hid [Hr Hg]. split.
  - intros k. rewrite Hr. unfold ref_count. rewrite (map_sum_insert_None _ _ id) by done.
    rewrite scoped_subs_empty by done. by rewrite decide_False by set_solver.
  - intros label. rewrite Hg. unfold sub_total. rewrite (map_sum_insert_None _ _ id) by done. cbn.
    rewrite map_size_empty. case_decide; lia.
Qed.

Lemma bookkeeping_remove refs gauge m id ss :
  m !! id = Some ss → subscriptions ss = ∅ →
  bookkeeping refs gauge m → bookkeeping refs gauge (delete id m).
Proof.
  intros Hid He [Hr Hg]. split.
  - intros k. rewrite Hr. unfold ref_count. rewrite (map_sum_delete _ _ _ ss) by done.
    rewrite scoped_subs_empty by done. rewrite decide_False by set_solver. f_equal. lia.
  - intros label. rewrite Hg. unfold sub_total. rewrite (map_sum_delete _ _ _ ss) by done.
    rewrite He, map_size_empty. case_decide; lia.
Qed.

(** ** Valid bucket ids *)
Definition valid_entry (l : Limits) (k v : string) : Prop :=
  k ≠ "" ∧ v ≠ "" ∧
  ((0 < maxBucketKeyLen l)%Z → (len k <= maxBucketKeyLen l)%Z) ∧
  ((0 < maxBucketValueLen l)%Z → (len v <= maxBucketValueLen l)%Z).

Definition valid_bucket (l : Limits) (b : gmap string string) : Prop :=
  ((0 < maxBucketEntries l)%Z → (Z.of_nat (size b) <= maxBucketEntries l)%Z) ∧
  map_Forall (valid_entry l) b.

Lemma validate_entries_spec l entries :
  validate_entries l entries = None ↔ Forall (λ kv, valid_entry l kv.1 kv.2) entries.
Proof.
  induction entries as [|[k v] entries IH]; cbn; [done|].
  rewrite Forall_cons, <-IH. unfold valid_entry; cbn. case_decide; [naive_solver|].
  destruct (_ && _) eqn:Ek; [split; [done|]; intros [(_&_&Hk&_) _];
    apply andb_true_iff in Ek as [Ek%Z.ltb_lt Ek'%Z.ltb_lt]; specialize (Hk Ek); lia|].
  destruct (_ && _) eqn:Ev in |- *; [split; [done|]; intros [(_&_&_&Hv) _];
    apply andb_true_iff in Ev as [Ev%Z.ltb_lt Ev'%Z.ltb_lt]; specialize (Hv Ev); lia|].
  apply andb_false_iff in Ek, Ev. rewrite !Z.ltb_ge in *.
  split; [|naive_solver]. intros Hn. split; [|done]. split_and!; try naive_solver; intros; lia.
Qed.

Lemma validate_bucket_spec `{GoRange} l b : validate_bucket l b = None ↔ valid_bucket l b.
Proof.
  unfold validate_bucket, valid_bucket. rewrite map_Forall_to_list, <-map_range_perm.
  destruct (_ && _) eqn:E.
  - split; [done|]. intros [Hb _]. apply andb_true_iff in E as [?%Z.ltb_lt ?%Z.ltb_lt]. lia.
  - rewrite validate_entries_spec. apply andb_false_iff in E. rewrite !Z.ltb_ge in E.
    assert (∀ l0, Forall (λ kv, valid_entry l kv.1 kv.2) l0 ↔ Forall (uncurry (valid_entry l)) l0)
      as -> by (intros; rewrite !Forall_forall; split; intros Hx [k v] ?; by apply (Hx (k, v))).
    split; [|naive_solver]. intros. split; [|done]. lia.
Qed.

(** ** The invariant *)

(** A bucket key is the canonical one, whatever order computed it. *)
Definition bucket_key (bid : BucketId) : BucketKey := encode_pairs (sorted_pairs (bucket bid)).

Record stream_ok (l : Limits) (ss : streamState) : Prop := {
  ok_unbound : domainBound ss = false → ss = new_stream;
  ok_bound : domainBound ss = true → ss_domain ss ≠ "";
  ok_subs : map_Forall (λ key bid, key = bucket_key bid ∧ bucket bid ≠ ∅ ∧ valid_bucket l (bucket bid))
              (subscriptions ss);
  ok_max : (0 < maxBucketsPerStream l)%Z →
           (Z.of_nat (size (subscriptions ss)) <= maxBucketsPerStream l)%Z;
}.

Section invariant.
Context `{Regexp, DurationPb} {St : Type} `{BucketStore St}.
Implicit Types s : RLQSServer St.

Record server_inv (l : Limits) (s : RLQSServer St) : Prop := {
  inv_limits : limits s = l;
  inv_books : bookkeeping (bucketRefs s) (ActiveBuckets (metrics s)) (streams s);
  inv_active : ActiveStreams (metrics s) = Z.of_nat (size (streams s));
  inv_streams : map_Forall (λ _ ss, stream_ok l ss) (streams s);
}.

Lemma NewRLQS_inv st e cfg classifier :
  server_inv (limits (NewRLQS st e cfg classifier)) (NewRLQS st e cfg classifier).
Proof.
  split; cbn; [done| |done|apply map_Forall_empty].
  split; intros; unfold ref_count, sub_total; by rewrite map_sum_empty.
Qed.

Lemma get_stream_Some id ss s : streams s !! id = Some ss → get_stream id s = ss.
Proof. intros Hid. unfold get_stream. by rewrite Hid. Qed.

Lemma stream_ok_new l : stream_ok l new_stream.
Proof. split; cbn; [done|done|apply map_Forall_empty|rewrite map_size_empty; lia]. Qed.

Lemma map_Forall_insert_id (P : streamState → Prop) (m : gmap nat streamState) id ss :
  map_Forall (λ _, P) m → P ss → map_Forall (λ _, P) (<[id := ss]> m).
Proof. intros ? ?. by apply map_Forall_insert_2. Qed.

Lemma open_stream_inv l id s :
  server_inv l s → streams s !! id = None → server_inv l (open_stream id s).
Proof.
  intros [Hl Hb Ha Hs] Hid. split; cbn; [done|by apply bookkeeping_new| |].
  - rewrite Ha, map_size_insert_None by done. lia.
  - apply map_Forall_insert_id; [done|apply stream_ok_new].
Qed.

Lemma size_streams_put id ss s :
  is_Some (streams s !! id) → size (streams (put_stream id ss s)) = size (streams s).
Proof. intros. cbn. by apply map_size_insert_Some. Qed.

Lemma bind_domain_inv l id req s :
  server_inv l s → is_Some (streams s !! id) → server_inv l (bind_domain id req s).1.
Proof.
  intros Hinv [ss Hid]. unfold bind_domain. rewrite (get_stream_Some id ss) by done.
  destruct (domainBound ss) eqn:Hbound; [by case_decide|]. case_decide as Hd; [done|].
  destruct (Classify _ _) as [label c]. cbn. destruct Hinv as [Hl Hb Ha Hs].
  assert (ss = new_stream) as -> by (eapply ok_unbound; [by eapply Hs|done]).
  split; cbn; [done|by eapply bookkeeping_bind| |].
  - by rewrite map_size_insert_Some by eauto.
  - apply map_Forall_insert_id; [done|]. split; cbn; [done|done|apply map_Forall_empty|].
    rewrite map_size_empty. lia.
Qed.

Lemma subscribe_inv l id key bid s :
  server_inv l s → is_Some (streams s !! id) → domainBound (get_stream id s) = true →
  key = bucket_key bid → bucket bid ≠ ∅ → valid_bucket l (bucket bid) →
  server_inv l (subscribe id key bid s).1.
Proof.
  intros Hinv [ss Hid] Hbound Hkey Hne Hval. unfold subscribe.
  rewrite (get_stream_Some id ss) in * by done.
  destruct (subscriptions ss !! key) eqn:Hsub; [done|].
  destruct (_ && _) eqn:Hmax; [done|]. destruct Hinv as [Hl Hb Ha Hs].
  pose proof (Hs id ss Hid) as [Hu Hbd Hss Hm].
  apply andb_false_iff in Hmax. rewrite Z.ltb_ge, Z.leb_gt in Hmax. rewrite Hl in Hmax.
  split; cbn; [done|by apply (bookkeeping_add _ _ _ _ ss key bid)| |].
  - by rewrite map_size_insert_Some by eauto.
  - apply map_Forall_insert_id; [done|]. split; cbn; [by rewrite Hbound|done| |].
    + by apply map_Forall_insert_2.
    + rewrite map_size_insert_None by done. lia.
Qed.

Lemma release_bucket_fields `{GoRange} ctx d key s :
  bucketRefs (release_bucket ctx d key s) = release_refs (DomainScopedKey d key) (bucketRefs s) ∧
  streams (release_bucket ctx d key s) = streams s ∧
  metrics (release_bucket ctx d key s) = metrics s ∧
  limits (release_bucket ctx d key s) = limits s.
Proof. unfold release_bucket, release_refs. by case_match. Qed.

(** ** Frames: what a handler of stream [id] leaves alone *)
Definition binding (ss : streamState) : string * string * bool :=
  (ss_domain ss, metricDomain ss, domainBound ss).

Record same_binding (id : nat) (s s' : RLQSServer St) : Prop := {
  sb_others id' : id' ≠ id → streams s' !! id' = streams s !! id';
  sb_self : binding <$> streams s' !! id = binding <$> streams s !! id;
  sb_limits : limits s' = limits s;
  sb_engine : engine s' = engine s;
}.

#[global] Instance same_binding_preorder id : PreOrder (same_binding id).
Proof.
  split; [by split|]. intros s1 s2 s3 [O1 S1 L1 E1] [O2 S2 L2 E2].
  split; [intros; by rewrite O2, O1|congruence..].
Qed.

Lemma same_binding_streams id s s' :
  streams s' = streams s → limits s' = limits s → engine s' = engine s → same_binding id s s'.
Proof. intros Hs. split; [intros; by rewrite Hs|by rewrite Hs|done..]. Qed.

Lemma same_binding_put id ss ss' s s' :
  streams s !! id = Some ss → streams s' = <[id := ss']> (streams s) →
  binding ss' = binding ss → limits s' = limits s → engine s' = engine s →
  same_binding id s s'.
Proof.
  intros Hid Hs Hb. split; [|by rewrite Hs, lookup_insert_eq, Hid; cbn; rewrite Hb|done..].
  intros id' Hne. by rewrite Hs, lookup_insert_ne.
Qed.

Definition bound_to (id : nat) (d : string) (s : RLQSServer St) : Prop :=
  ∃ ss, streams s !! id = Some ss ∧ domainBound ss = true ∧ ss_domain ss = d.

Lemma same_binding_bound id d s s' : same_binding id s s' → bound_to id d s → bound_to id d s'.
Proof.
  intros [_ Hself _ _] (ss & Hid & Hb & Hd). rewrite Hid in Hself.
  destruct (streams s' !! id) as [ss'|] eqn:E; [|done]. cbn in Hself. unfold binding in Hself.
  exists ss'. split; [done|]. injection Hself. intros. split; congruence.
Qed.

Lemma bound_to_registered id d s : bound_to id d s → is_Some (streams s !! id).
Proof. intros (ss & ? & _). eauto. Qed.

Lemma bound_to_get id d s :
  bound_to id d s → domainBound (get_stream id s) = true ∧ ss_domain (get_stream id s) = d.
Proof. intros (ss & Hid & ? & ?). by rewrite (get_stream_Some id ss). Qed.

Lemma subscribe_frame id key bid s :
  is_Some (streams s !! id) → same_binding id s (subscribe id key bid s).1.
Proof.
  intros [ss Hid]. unfold subscribe. rewrite (get_stream_Some id ss) by done.
  repeat case_match; try done. by eapply (same_binding_put id ss).
Qed.

Lemma handle_usage_frame `{GoRange} id u s :
  is_Some (streams s !! id) → same_binding id s (handle_usage id u s).1.
Proof.
  intros Hid. unfold handle_usage.
  destruct (usage_bucket_id u) as [bid|]; [|done]. case_match; [done|]. case_match; [done|].
  pose proof (subscribe_frame id (BucketKeyFromProto (Some bid)) bid s Hid) as Hf.
  destruct (subscribe _ _ _ _) as [s1 [err|]]; cbn in *; [done|].
  etrans; [exact Hf|]. by apply same_binding_streams.
Qed.

Lemma same_binding_registered id s s' :
  same_binding id s s' → is_Some (streams s !! id) → is_Some (streams s' !! id).
Proof. intros [_ Hs _ _] [ss Hid]. rewrite Hid in Hs. destruct (streams s' !! id); [eauto|done]. Qed.

Lemma handle_usages_frame `{GoRange} id us reports s :
  is_Some (streams s !! id) → same_binding id s (handle_usages id us reports s).1.
Proof.
  revert reports s. induction us as [|u us IH]; intros reports s Hid; cbn; [done|].
  pose proof (handle_usage_frame id u s Hid) as Hf.
  destruct (handle_usage id u s) as [s1 [[r|]|err]]; cbn in *; [| |done];
    (etrans; [exact Hf|]); apply IH; eauto using same_binding_registered.
Qed.

Lemma abandon_action_frame `{GoRange} id a s :
  is_Some (streams s !! id) → same_binding id s (abandon_action id a s).
Proof.
  intros [ss Hid]. unfold abandon_action. rewrite (get_stream_Some id ss) by done.
  repeat case_match; try done. unfold release_bucket.
  case_match; (eapply (same_binding_put id ss); [done|reflexivity|done..]).
Qed.

Lemma abandon_actions_frame `{GoRange} id actions s :
  is_Some (streams s !! id) → same_binding id s (abandon_actions id actions s).
Proof.
  unfold abandon_actions. revert s. induction actions as [|a actions IH]; intros s Hid; cbn; [done|].
  pose proof (abandon_action_frame id a s Hid) as Hf.
  etrans; [exact Hf|]. apply IH. eauto using same_binding_registered.
Qed.

Lemma send_response_frame Send id actions s :
  streams (send_response Send id actions s).1 = streams s ∧
  limits (send_response Send id actions s).1 = limits s ∧
  engine (send_response Send id actions s).1 = engine s ∧
  bucketRefs (send_response Send id actions s).1 = bucketRefs s ∧
  metrics (send_response Send id actions s).1 = metrics s ∧
  store (send_response Send id actions s).1 = store s.
Proof. unfold send_response. by case_match. Qed.

Lemma consult_engine_frame `{GoRange} Send id reports s :
  is_Some (streams s !! id) → same_binding id s (consult_engine Send id reports s).1.
Proof.
  intros Hid. unfold consult_engine.
  destruct (ProcessUsage _ _ _ _) as [[|a actions]|err]; [by apply same_binding_streams| |
    by apply same_binding_streams].
  etrans; [|apply same_binding_streams; apply send_response_frame].
  etrans; [|by apply abandon_actions_frame]. by apply same_binding_streams.
Qed.

(** ** Every handler preserves the invariant *)
Lemma server_inv_same l s s' :
  limits s' = limits s → bucketRefs s' = bucketRefs s → streams s' = streams s →
  ActiveBuckets (metrics s') = ActiveBuckets (metrics s) →
  ActiveStreams (metrics s') = ActiveStreams (metrics s) →
  server_inv l s → server_inv l s'.
Proof. intros El Er Es Eb Ea [Hl Hb Ha Hs]. split; congruence || by rewrite ?Er, ?Es, ?Eb. Qed.

Lemma BucketKeyFromProto_bucket_key `{GoRange} bid : BucketKeyFromProto (Some bid) = bucket_key bid.
Proof. apply BucketKeyFromProto_encode. Qed.

Lemma empty_bucket_false bid : empty_bucket (Some bid) = false → bucket bid ≠ ∅.
Proof.
  cbn. intros Hs%bool_decide_eq_false He. apply Hs. by rewrite He.
Qed.

Lemma handle_usage_inv `{GoRange} l id u s d :
  server_inv l s → bound_to id d s → server_inv l (handle_usage id u s).1.
Proof.
  intros Hinv Hb. unfold handle_usage. destruct (usage_bucket_id u) as [bid|]; [|done].
  destruct (empty_bucket (Some bid)) eqn:He; [done|]. apply empty_bucket_false in He.
  destruct (validate_bucket _ _) eqn:Hv; [done|].
  rewrite validate_bucket_spec, (inv_limits l s Hinv) in Hv.
  pose proof (subscribe_inv l id (BucketKeyFromProto (Some bid)) bid s Hinv) as Hsub.
  destruct (subscribe _ _ _ _) as [s1 [err|]]; cbn in *.
  - apply Hsub; eauto using bound_to_registered, BucketKeyFromProto_bucket_key.
    by destruct (bound_to_get id d s Hb).
  - apply (server_inv_same l s1); [done..|].
    apply Hsub; eauto using bound_to_registered, BucketKeyFromProto_bucket_key.
    by destruct (bound_to_get id d s Hb).
Qed.

Lemma handle_usages_inv `{GoRange} l id us reports s d :
  server_inv l s → bound_to id d s → server_inv l (handle_usages id us reports s).1.
Proof.
  revert reports s. induction us as [|u us IH]; intros reports s Hinv Hb; cbn; [done|].
  pose proof (handle_usage_inv l id u s d Hinv Hb) as Hinv1.
  pose proof (handle_usage_frame id u s (bound_to_registered _ _ _ Hb)) as Hf.
  destruct (handle_usage id u s) as [s1 [[r|]|err]]; cbn in *; [| |done];
    apply IH; eauto using same_binding_bound.
Qed.

Lemma stream_ok_drop l key ss : domainBound ss = true → stream_ok l ss → stream_ok l (drop_sub key ss).
Proof.
  intros Hb [Hu Hbd Hs Hm]. split; cbn; [by rewrite Hb|done|by apply map_Forall_delete|].
  pose proof (map_size_delete key (subscriptions ss)) as Hsz.
  assert (size (delete key (subscriptions ss)) <= size (subscriptions ss)) by (rewrite Hsz; case_match; cbn; lia).
  lia.
Qed.

Lemma abandon_action_inv `{GoRange} l id a s d :
  server_inv l s → bound_to id d s → server_inv l (abandon_action id a s).
Proof.
  intros Hinv (ss & Hid & Hbound & _). unfold abandon_action. rewrite (get_stream_Some id ss) by done.
  case_match; [|done]. set (key := BucketKeyFromProto _).
  destruct (subscriptions ss !! key) as [bid|] eqn:Hsub; [|done].
  set (s1 := put_stream _ _ _).
  destruct (release_bucket_fields StreamContext (ss_domain ss) key s1) as (Hr & Hst & Hm & Hl).
  destruct Hinv as [El Hb Ha Hs]. split; cbn; rewrite ?Hr, ?Hst, ?Hm, ?Hl; cbn; [done| | |].
  - apply (bookkeeping_drop _ _ _ _ ss key); eauto.
  - by rewrite map_size_insert_Some by eauto.
  - apply map_Forall_insert_id; [done|]. apply (stream_ok_drop l key ss); [done|by eapply Hs].
Qed.

Lemma abandon_actions_inv `{GoRange} l id actions s d :
  server_inv l s → bound_to id d s → server_inv l (abandon_actions id actions s).
Proof.
  unfold abandon_actions. revert s. induction actions as [|a actions IH]; intros s Hinv Hb; cbn; [done|].
  apply IH; [by eapply abandon_action_inv|].
  eauto using same_binding_bound, abandon_action_frame, bound_to_registered.
Qed.

Lemma consult_engine_inv `{GoRange} l Send id reports s d :
  server_inv l s → bound_to id d s → server_inv l (consult_engine Send id reports s).1.
Proof.
  intros Hinv Hb. unfold consult_engine.
  destruct (ProcessUsage _ _ _ _) as [[|a actions]|err];
    [by eapply server_inv_same; [..|exact Hinv]| |by eapply server_inv_same; [..|exact Hinv]].
  set (s1 := with_metrics _ _).
  assert (server_inv l s1) as Hinv1 by (by eapply server_inv_same; [..|exact Hinv]).
  pose proof (abandon_actions_inv l id (a :: actions) s1 d Hinv1 Hb) as Hinv2.
  destruct (send_response_frame Send id (a :: actions) (abandon_actions id (a :: actions) s1))
    as (E1 & E2 & _ & E4 & E5 & _).
  eapply server_inv_same; [done..|by rewrite E5|by rewrite E5|done].
Qed.

(** What [bind_domain] leaves: an error and the state as it was, or the stream
    bound to a non-empty domain. *)
Lemma bind_domain_spec id req s ss :
  streams s !! id = Some ss →
  match bind_domain id req s with
  | (s', Some err) => s' = s
  | (s', None) =>
      limits s' = limits s ∧ engine s' = engine s ∧ store s' = store s ∧
      bucketRefs s' = bucketRefs s ∧ metrics s' = metrics s ∧ outbox s' = outbox s ∧
      (∀ id', id' ≠ id → streams s' !! id' = streams s !! id') ∧
      ∃ ss', streams s' !! id = Some ss' ∧ domainBound ss' = true ∧
        subscriptions ss' = subscriptions ss ∧
        ss_domain ss' = (if domainBound ss then ss_domain ss else req_domain req) ∧
        (domainBound ss = true → s' = s)
  end.
Proof.
  intros Hid. unfold bind_domain. rewrite (get_stream_Some id ss) by done.
  destruct (domainBound ss) eqn:Hb.
  - case_decide; [done|]. split_and!; try done. exists ss. by split_and!.
  - case_decide; [done|]. destruct (Classify _ _) as [label c]. cbn. split_and!; try done.
    + intros id' Hne. by rewrite lookup_insert_ne.
    + eexists. rewrite lookup_insert_eq. split_and!; try done.
Qed.

Lemma handleMessage_inv `{GoRange} l Send id req s :
  server_inv l s → is_Some (streams s !! id) → server_inv l (handleMessage Send id req s).1.
Proof.
  intros Hinv Hid. unfold handleMessage.
  pose proof (bind_domain_inv l id req s Hinv Hid) as Hinv1. destruct Hid as [ss Hid].
  pose proof (bind_domain_spec id req s ss Hid) as Hspec.
  destruct (bind_domain id req s) as [s1 [err|]]; cbn in *; [done|].
  destruct Hspec as (_ & _ & _ & _ & _ & _ & _ & ss1 & Hid1 & Hb1 & _).
  assert (bound_to id (ss_domain ss1) s1) as Hb by (exists ss1; auto).
  case_decide; [done|]. case_match; [done|].
  pose proof (handle_usages_inv l id (req_bucket_quota_usages req) [] s1 _ Hinv1 Hb) as Hinv2.
  pose proof (handle_usages_frame id (req_bucket_quota_usages req) [] s1 (bound_to_registered _ _ _ Hb)) as Hf.
  destruct (handle_usages _ _ _ _) as [s2 [reports|err]]; cbn in *; [|done].
  eapply consult_engine_inv; eauto using same_binding_bound.
Qed.

(** ** Closing a stream

    The stream leaves the registry first and its references are dropped one by
    one afterwards; in between the books still count it, with the
    subscriptions that remain. *)
Lemma cleanup_bucket_fields `{GoRange} ss s key :
  bucketRefs (cleanup_bucket ss s key) = release_refs (DomainScopedKey (ss_domain ss) key) (bucketRefs s) ∧
  streams (cleanup_bucket ss s key) = streams s ∧
  metrics (cleanup_bucket ss s key) = buckets_add (metricDomain ss) (-1) (metrics s) ∧
  limits (cleanup_bucket ss s key) = limits s.
Proof.
  unfold cleanup_bucket.
  by destruct (release_bucket_fields Background (ss_domain ss) key
    (with_metrics (buckets_add (metricDomain ss) (-1)) s)) as (-> & -> & -> & ->).
Qed.

Lemma cleanup_keys_books `{GoRange} id keys s m ss0 ss :
  bookkeeping (bucketRefs s) (ActiveBuckets (metrics s)) m →
  m !! id = Some ss → ss_domain ss0 = ss_domain ss → metricDomain ss0 = metricDomain ss →
  NoDup keys → (∀ k, k ∈ keys → is_Some (subscriptions ss !! k)) →
  let s' := foldl (cleanup_bucket ss0) s keys in
  streams s' = streams s ∧ limits s' = limits s ∧
  ActiveStreams (metrics s') = ActiveStreams (metrics s) ∧
  ∃ ss', bookkeeping (bucketRefs s') (ActiveBuckets (metrics s')) (<[id := ss']> m) ∧
    dom (subscriptions ss') = dom (subscriptions ss) ∖ list_to_set keys.
Proof.
  revert s m ss. induction keys as [|k keys IH]; intros s m ss Hbk Hid Hd Hm Hnd Hin; cbn.
  { split_and!; [done..|]. exists ss. rewrite insert_id by done. split; [done|set_solver]. }
  apply NoDup_cons in Hnd as [Hk Hnd].
  destruct (cleanup_bucket_fields ss0 s k) as (Er & Es & Em & El).
  destruct (IH (cleanup_bucket ss0 s k) (<[id := drop_sub k ss]> m) (drop_sub k ss))
    as (Es' & El' & Ea' & ss' & Hbk' & Hdom); cbn; try done.
  - rewrite Er, Em, Hd; cbn. rewrite Hm. apply bookkeeping_drop; [done| |done]. apply Hin. set_solver.
  - apply lookup_insert_eq.
  - intros k' Hk'. rewrite lookup_delete_ne by (by intros <-). apply Hin. set_solver.
  - split_and!; [by rewrite Es', Es|by rewrite El', El|by rewrite Ea', Em|].
    exists ss'. rewrite insert_insert_eq in Hbk'. split; [done|].
    rewrite Hdom; cbn. rewrite dom_delete_L. set_solver.
Qed.

Lemma cleanupStream_spec `{GoRange} id s ss :
  streams s !! id = Some ss → (domainBound ss = false → subscriptions ss = ∅) →
  bookkeeping (bucketRefs s) (ActiveBuckets (metrics s)) (streams s) →
  streams (cleanupStream id s) = delete id (streams s) ∧
  limits (cleanupStream id s) = limits s ∧
  ActiveStreams (metrics (cleanupStream id s)) = ActiveStreams (metrics s) ∧
  bookkeeping (bucketRefs (cleanupStream id s)) (ActiveBuckets (metrics (cleanupStream id s)))
    (delete id (streams s)).
Proof.
  intros Hid Hu Hbk. unfold cleanupStream. rewrite (get_stream_Some id ss) by done.
  destruct (domainBound ss) eqn:Hb; [|split_and!; try done; eapply bookkeeping_remove; eauto].
  destruct (cleanup_keys_books id (map_range (subscriptions ss)).*1 (with_streams (delete id) s)
    (streams s) ss ss) as (Es & El & Ea & ss' & Hbk' & Hdom); try done.
  { apply NoDup_fst_map_range. }
  { intros k. by rewrite elem_of_map_range_fst. }
  split_and!; [by rewrite Es|by rewrite El|by rewrite Ea|].
  rewrite <-(delete_insert_eq (streams s) id ss').
  eapply bookkeeping_remove; [apply lookup_insert_eq| |done].
  apply dom_empty_inv_L. rewrite Hdom. apply set_eq. intros k.
  rewrite elem_of_difference, elem_of_list_to_set, elem_of_map_range_fst, elem_of_dom. set_solver.
Qed.

Lemma close_stream_inv `{GoRange} l id s :
  server_inv l s → is_Some (streams s !! id) →
  server_inv l (close_stream id s) ∧ streams (close_stream id s) = delete id (streams s).
Proof.
  intros [El Hb Ha Hs] [ss Hid]. unfold close_stream.
  destruct (cleanupStream_spec id (with_metrics (streams_add (-1)) s) ss) as (E1 & E2 & E3 & E4);
    try done.
  { intros Hu. by rewrite (ok_unbound l ss (Hs id ss Hid) Hu). }
  split; [|done]. split; [by rewrite E2|by rewrite E1| |rewrite E1; by apply map_Forall_delete].
  rewrite E3, E1; cbn. rewrite Ha, (map_size_delete_Some id) by eauto.
  assert (size (streams s) ≠ 0) by (apply map_size_ne_0_lookup_2 with id; eauto). lia.
Qed.

Lemma push_stream_frame `{GoRange} Send e s id :
  let s' := push_stream Send e s id in
  streams s' = streams s ∧ limits s' = limits s ∧ engine s' = engine s ∧
  bucketRefs s' = bucketRefs s ∧ store s' = store s ∧
  ActiveBuckets (metrics s') = ActiveBuckets (metrics s) ∧
  ActiveStreams (metrics s') = ActiveStreams (metrics s).
Proof.
  unfold push_stream. case_match; [done|].
  destruct (ProcessUsage _ _ _ _) as [[|a actions]|err]; [done| |done].
  unfold send_response. by case_match.
Qed.

Lemma pushAssignments_frame `{GoRange} Send e s :
  let s' := pushAssignments Send e s in
  streams s' = streams s ∧ limits s' = limits s ∧ engine s' = engine s ∧
  bucketRefs s' = bucketRefs s ∧ store s' = store s ∧
  ActiveBuckets (metrics s') = ActiveBuckets (metrics s) ∧
  ActiveStreams (metrics s') = ActiveStreams (metrics s).
Proof.
  unfold pushAssignments. generalize ((map_range (streams s)).*1) as ids. intros ids.
  revert s. induction ids as [|id ids IH]; intros s; cbn; [done|].
  destruct (push_stream_frame Send e s id) as (?&?&?&?&?&?&?).
  destruct (IH (push_stream Send e s id)) as (?&?&?&?&?&?&?). split_and!; congruence.
Qed.

Lemma handleMessage_frame `{GoRange} Send id req s :
  is_Some (streams s !! id) →
  is_Some (streams (handleMessage Send id req s).1 !! id) ∧
  (∀ id', id' ≠ id → streams (handleMessage Send id req s).1 !! id' = streams s !! id').
Proof.
  intros [ss Hid]. unfold handleMessage. pose proof (bind_domain_spec id req s ss Hid) as Hspec.
  destruct (bind_domain id req s) as [s1 [err|]]; cbn; [by subst; eauto|].
  destruct Hspec as (_ & _ & _ & _ & _ & _ & Ho & ss1 & Hid1 & _).
  case_decide; [by eauto|]. case_match; [by eauto|].
  pose proof (handle_usages_frame id (req_bucket_quota_usages req) [] s1 ltac:(eauto)) as Hf.
  pose proof (same_binding_registered _ _ _ Hf ltac:(eauto)) as Hid2.
  destruct (handle_usages _ _ _ _) as [s2 [reports|err]]; cbn in *.
  - pose proof (consult_engine_frame Send id reports s2 Hid2) as Hf2.
    split; [by eapply same_binding_registered|].
    intros id' Hne. by rewrite (sb_others _ _ _ Hf2), (sb_others _ _ _ Hf), Ho by done.
  - split; [done|]. intros id' Hne. by rewrite (sb_others _ _ _ Hf), Ho by done.
Qed.

(** Handlers never change the engine or the limits. *)
Lemma handleMessage_engine `{GoRange} Send id req s :
  is_Some (streams s !! id) →
  engine (handleMessage Send id req s).1 = engine s ∧ limits (handleMessage Send id req s).1 = limits s.
Proof.
  intros [ss Hid]. unfold handleMessage. pose proof (bind_domain_spec id req s ss Hid) as Hspec.
  destruct (bind_domain id req s) as [s1 [err|]]; cbn; [by subst|].
  destruct Hspec as (El & Ee & _ & _ & _ & _ & _ & ss1 & Hid1 & _).
  case_decide; [done|]. destruct (_ && _); [done|].
  pose proof (handle_usages_frame id (req_bucket_quota_usages req) [] s1 ltac:(eauto)) as Hf.
  pose proof (same_binding_registered _ _ _ Hf ltac:(eauto)) as Hid2.
  destruct (handle_usages _ _ _ _) as [s2 [reports|err]]; cbn in *.
  - pose proof (consult_engine_frame Send id reports s2 Hid2) as Hf2.
    by rewrite (sb_engine _ _ _ Hf2), (sb_engine _ _ _ Hf), (sb_limits _ _ _ Hf2), (sb_limits _ _ _ Hf).
  - by rewrite (sb_engine _ _ _ Hf), (sb_limits _ _ _ Hf).
Qed.

Lemma close_stream_engine `{GoRange} id s :
  engine (close_stream id s) = engine s ∧ limits (close_stream id s) = limits s.
Proof.
  unfold close_stream, cleanupStream. case_match; [|done].
  set (ss := get_stream _ _). generalize ((map_range (subscriptions ss)).*1) as keys. intros keys.
  assert (∀ s0, engine (foldl (cleanup_bucket ss) s0 keys) = engine s0 ∧
                limits (foldl (cleanup_bucket ss) s0 keys) = limits s0) as Hall;
    [|by rewrite !(proj1 (Hall _)), !(proj2 (Hall _))].
  induction keys as [|k keys IH]; intros s0; cbn; [done|].
  rewrite (proj1 (IH _)), (proj2 (IH _)). unfold cleanup_bucket, release_bucket. by case_match.
Qed.

(** ** A message whose engine may panic *)
Lemma handleMessage_p_cases `{GoRange} Panics Send id req s :
  handleMessage_p Panics Send id req s =
    ((handleMessage Send id req s).1, Returned (handleMessage Send id req s).2) ∨
  ∃ s1 s2 reports v, bind_domain id req s = (s1, None) ∧
    handle_usages id (req_bucket_quota_usages req) [] s1 = (s2, Ok reports) ∧
    Panics (engine_ctx s2) (ss_domain (get_stream id s2)) reports = Some v ∧
    handleMessage_p Panics Send id req s =
      (with_metrics (reports_add (metricDomain (get_stream id s2)) (Z.of_nat (length reports))) s2, Panicked v).
Proof.
  unfold handleMessage_p, handleMessage. destruct (bind_domain id req s) as [s1 [err|]]; [by left|].
  case_decide; [by left|]. destruct (_ && _); [by left|].
  destruct (handle_usages _ _ _ _) as [s2 [reports|err]] eqn:Eu; [|by left].
  unfold consult_engine_p. destruct (Panics _ _ _) as [v|] eqn:Ep.
  - right. by exists s1, s2, reports, v.
  - left. by destruct (consult_engine Send id reports s2).
Qed.

(** Up to the call of the engine. *)
Lemma collect_reports_inv `{GoRange} l id req s s1 s2 reports :
  server_inv l s → is_Some (streams s !! id) → bind_domain id req s = (s1, None) →
  handle_usages id (req_bucket_quota_usages req) [] s1 = (s2, Ok reports) →
  server_inv l s2 ∧ is_Some (streams s2 !! id) ∧ (∀ id', id' ≠ id → streams s2 !! id' = streams s !! id').
Proof.
  intros Hinv Hid Eb Eu. pose proof (bind_domain_inv l id req s Hinv Hid) as Hinv1. destruct Hid as [ss Hid].
  pose proof (bind_domain_spec id req s ss Hid) as Hspec. rewrite Eb in Hspec, Hinv1. cbn in Hinv1.
  destruct Hspec as (_ & _ & _ & _ & _ & _ & Ho1 & ss1 & Hid1 & Hb1 & _).
  assert (bound_to id (ss_domain ss1) s1) as Hb by (by exists ss1).
  pose proof (handle_usages_inv l id (req_bucket_quota_usages req) [] s1 _ Hinv1 Hb) as Hinv2.
  pose proof (handle_usages_frame id (req_bucket_quota_usages req) [] s1 (bound_to_registered _ _ _ Hb)) as Hf.
  rewrite Eu in Hinv2, Hf. split_and!; [done| |].
  - by eapply bound_to_registered, same_binding_bound.
  - intros id' Hne. by rewrite (sb_others _ _ _ Hf), Ho1.
Qed.

Lemma handleMessage_p_inv `{GoRange} l Panics Send id req s :
  server_inv l s → is_Some (streams s !! id) →
  let s' := (handleMessage_p Panics Send id req s).1 in
  server_inv l s' ∧ is_Some (streams s' !! id) ∧ (∀ id', id' ≠ id → streams s' !! id' = streams s !! id').
Proof.
  intros Hinv Hid. cbn zeta.
  destruct (handleMessage_p_cases Panics Send id req s) as [->|(s1 & s2 & reports & v & Eb & Eu & _ & ->)]; cbn [fst].
  { destruct (handleMessage_frame Send id req s Hid) as [Hid1 Ho].
    split_and!; [by apply handleMessage_inv|done|done]. }
  destruct (collect_reports_inv l id req s s1 s2 reports Hinv Hid Eb Eu) as (Hinv2 & Hid2 & Ho).
  split_and!; [|done|done]. by eapply server_inv_same; [..|exact Hinv2].
Qed.

(** A swap that returns replaces the engine and nothing else. *)
Lemma SwapEngine_Some (e : Engine) s s' :
  SwapEngine e s = Some s' ↔ concrete_type e = concrete_type (engine s) ∧ s' = with_engine e s.
Proof. unfold SwapEngine. case_decide; naive_solver. Qed.

(** ** Reachable states *)
Lemma server_inv_step l s s' : server_inv l s → server_step s s' → server_inv l s'.
Proof.
  intros Hinv. destruct 1 as [s id Hid|R Send s id req Hid|R Panics Send s id req Hid|R s id Hid|s e s' [_ ->]%SwapEngine_Some|s c|R Send s e].
  - by apply open_stream_inv.
  - by apply handleMessage_inv.
  - by apply handleMessage_p_inv.
  - by apply close_stream_inv.
  - by eapply server_inv_same; [..|exact Hinv].
  - by eapply server_inv_same; [..|exact Hinv].
  - destruct (pushAssignments_frame Send e s) as (?&?&?&?&?&?&?).
    by eapply server_inv_same; [..|exact Hinv].
Qed.

Lemma server_inv_steps l s s' : rtc server_step s s' → server_inv l s → server_inv l s'.
Proof. induction 1; eauto using server_inv_step. Qed.

Lemma server_inv_reachable s : server_reachable s → server_inv (limits s) s.
Proof.
  intros (st & e & cfg & c & Hsteps).
  pose proof (server_inv_steps _ _ _ Hsteps (NewRLQS_inv st e cfg c)) as Hinv.
  by rewrite (inv_limits _ _ Hinv).
Qed.
End invariant.
