(* ===== verification/ServerProps.v ===== *)
(** * Properties of the server

    Consequences of the bookkeeping invariant for reachable states, the ledger
    kept in the store, and the functional behaviour of whole handlers. *)
From S2P Require Import Prelude GoStd Proto BucketKey Storage Config Quota DomainClassifier Server ServerInv.

(** ** The stored usage follows the subscriptions

    Proved against the interface [LedgerStore]. *)
Section ledger.
Context `{Regexp, DurationPb} {St : Type} `{LedgerStore St}.
Implicit Types s : RLQSServer St.

(** Usage is stored for exactly the buckets that are referenced. *)
Definition ledger_inv (s : RLQSServer St) : Prop := dom (usage (store s)) = dom (bucketRefs s).

Lemma ledger_inv_same s s' :
  store s' = store s → bucketRefs s' = bucketRefs s → ledger_inv s → ledger_inv s'.
Proof. unfold ledger_inv. congruence. Qed.

Lemma dom_label_add k n (m : gmap string Z) : dom (label_add k n m) = {[k]} ∪ dom m.
Proof. unfold label_add. apply dom_insert_L. Qed.

Lemma release_bucket_ledger `{GoRange} ctx d key s :
  ledger_inv s → ledger_inv (release_bucket ctx d key s).
Proof.
  unfold ledger_inv, release_bucket. intros Hl. case_match eqn:E; cbn.
  - rewrite (proj2 (remove_bucket_ledger ctx d key (store s))), !dom_delete_L, dom_label_add, Hl.
    set_solver.
  - rewrite dom_label_add, Hl. apply Z.leb_gt in E. rewrite default_label_add, decide_True in E by done.
    assert (DomainScopedKey d key ∈ dom (bucketRefs s)) by
      (apply elem_of_dom; destruct (bucketRefs s !! _); [eauto|cbn in E; lia]).
    set_solver.
Qed.

(** A stream's subscriptions are referenced. *)
Lemma subscribed_referenced l s id ss key :
  server_inv l s → streams s !! id = Some ss → is_Some (subscriptions ss !! key) →
  DomainScopedKey (ss_domain ss) key ∈ dom (bucketRefs s).
Proof.
  intros Hinv Hid Hkey. apply elem_of_dom. rewrite (bk_refs _ _ _ (inv_books l s Hinv)).
  assert (0 < ref_count (DomainScopedKey (ss_domain ss) key) (streams s))%Z as Hpos.
  { apply ref_count_pos. exists id, ss. by rewrite elem_of_scoped_subs_key. }
  unfold of_count. rewrite (proj2 (Z.eqb_neq _ 0)) by lia. eauto.
Qed.

Lemma handle_usage_ledger `{GoRange} l id u s :
  server_inv l s → is_Some (streams s !! id) → ledger_inv s → ledger_inv (handle_usage id u s).1.
Proof.
  intros Hinv [ss Hid] Hl. unfold handle_usage.
  destruct (usage_bucket_id u) as [bid|] eqn:Hbid; [|done]. case_match; [done|]. case_match; [done|].
  unfold subscribe. rewrite (get_stream_Some id ss) by done.
  destruct (subscriptions ss !! _) eqn:Hsub; cbn.
  - rewrite (get_stream_Some id ss) by done. unfold ledger_inv; cbn.
    rewrite (proj2 (record_usage_ledger _ _ _ _)), dom_insert_L, Hl.
    unfold report_key; cbn. rewrite Hbid.
    assert (DomainScopedKey (ss_domain ss) (BucketKeyFromProto (Some bid)) ∈ dom (bucketRefs s))
      by (eapply subscribed_referenced; eauto).
    set_solver.
  - destruct (_ && _); [done|]. cbn. unfold ledger_inv; cbn.
    rewrite (proj2 (record_usage_ledger _ _ _ _)), dom_insert_L, dom_label_add, Hl.
    unfold report_key, get_stream; cbn. rewrite lookup_insert_eq, Hbid. done.
Qed.

Lemma handle_usages_ledger `{GoRange} l id us reports s d :
  server_inv l s → bound_to id d s → ledger_inv s → ledger_inv (handle_usages id us reports s).1.
Proof.
  revert reports s. induction us as [|u us IH]; intros reports s Hinv Hb Hl; cbn; [done|].
  pose proof (bound_to_registered _ _ _ Hb) as Hreg.
  pose proof (handle_usage_ledger l id u s Hinv Hreg Hl) as Hl1.
  pose proof (handle_usage_inv l id u s d Hinv Hb) as Hinv1.
  pose proof (handle_usage_frame id u s Hreg) as Hf.
  destruct (handle_usage id u s) as [s1 [[r|]|err]]; cbn in *; [| |done];
    apply IH; eauto using same_binding_bound.
Qed.

Lemma abandon_actions_ledger `{GoRange} id actions s :
  ledger_inv s → ledger_inv (abandon_actions id actions s).
Proof.
  unfold abandon_actions. revert s. induction actions as [|a actions IH]; intros s Hl; cbn; [done|].
  apply IH. unfold abandon_action. case_match; [|done]. case_match; [|done].
  eapply ledger_inv_same; [reflexivity..|]. by apply release_bucket_ledger.
Qed.

Lemma consult_engine_ledger `{GoRange} Send id reports s :
  ledger_inv s → ledger_inv (consult_engine Send id reports s).1.
Proof.
  intros Hl. unfold consult_engine.
  destruct (ProcessUsage _ _ _ _) as [[|a actions]|err]; [done| |done].
  match goal with |- ledger_inv (send_response _ _ _ (abandon_actions _ _ ?s1)).1 =>
    pose proof (abandon_actions_ledger id (a :: actions) s1 Hl) as Hl1;
    destruct (send_response_frame Send id (a :: actions) (abandon_actions id (a :: actions) s1))
      as (_ & _ & _ & Er & _ & Est) end.
  by eapply ledger_inv_same.
Qed.

Lemma handleMessage_ledger `{GoRange} l Send id req s :
  server_inv l s → is_Some (streams s !! id) → ledger_inv s →
  ledger_inv (handleMessage Send id req s).1.
Proof.
  intros Hinv Hid Hl. unfold handleMessage.
  pose proof (bind_domain_inv l id req s Hinv Hid) as Hinv1. destruct Hid as [ss Hid].
  pose proof (bind_domain_spec id req s ss Hid) as Hspec.
  destruct (bind_domain id req s) as [s1 [err|]]; cbn in *; [by subst|].
  destruct Hspec as (_ & _ & Est & Er & _ & _ & _ & ss1 & Hid1 & Hb1 & _).
  assert (ledger_inv s1) as Hl1 by (by eapply ledger_inv_same).
  case_decide; [done|]. case_match; [done|].
  assert (bound_to id (ss_domain ss1) s1) as Hb by (exists ss1; auto).
  pose proof (handle_usages_ledger l id (req_bucket_quota_usages req) [] s1 _ Hinv1 Hb Hl1) as Hl2.
  destruct (handle_usages _ _ _ _) as [s2 [reports|err]]; cbn in *; [|done].
  by apply consult_engine_ledger.
Qed.

Lemma cleanup_keys_ledger `{GoRange} ss keys s :
  ledger_inv s → ledger_inv (foldl (cleanup_bucket ss) s keys).
Proof.
  revert s. induction keys as [|k keys IH]; intros s Hl; cbn; [done|].
  apply IH. unfold cleanup_bucket. apply release_bucket_ledger. by eapply ledger_inv_same.
Qed.

Lemma close_stream_ledger `{GoRange} id s : ledger_inv s → ledger_inv (close_stream id s).
Proof.
  intros Hl. unfold close_stream, cleanupStream. case_match; [|by eapply ledger_inv_same].
  apply cleanup_keys_ledger. by eapply ledger_inv_same.
Qed.

Lemma handleMessage_p_ledger `{GoRange} l Panics Send id req s :
  server_inv l s → is_Some (streams s !! id) → ledger_inv s → ledger_inv (handleMessage_p Panics Send id req s).1.
Proof.
  intros Hinv Hid Hl.
  destruct (handleMessage_p_cases Panics Send id req s) as [->|(s1 & s2 & reports & v & Eb & Eu & _ & ->)]; cbn [fst].
  { by eapply handleMessage_ledger. }
  pose proof (bind_domain_inv l id req s Hinv Hid) as Hinv1. destruct Hid as [ss Hid].
  pose proof (bind_domain_spec id req s ss Hid) as Hspec. rewrite Eb in Hspec, Hinv1.
  destruct Hspec as (_ & _ & Est & Er & _ & _ & _ & ss1 & Hid1 & Hb1 & _).
  pose proof (handle_usages_ledger l id (req_bucket_quota_usages req) [] s1 (ss_domain ss1) Hinv1
    ltac:(by exists ss1) ltac:(by eapply ledger_inv_same)) as Hl2.
  rewrite Eu in Hl2. by eapply ledger_inv_same.
Qed.

Lemma ledger_inv_step l s s' :
  server_inv l s → server_step s s' → ledger_inv s → ledger_inv s'.
Proof.
  intros Hinv. destruct 1 as [s id Hid|R Send s id req Hid|R Panics Send s id req Hid|R s id Hid|s e s' [_ ->]%SwapEngine_Some|s c|R Send s e]; intros Hl.
  - done.
  - by eapply handleMessage_ledger.
  - by eapply handleMessage_p_ledger.
  - by apply close_stream_ledger.
  - done.
  - done.
  - destruct (pushAssignments_frame Send e s) as (_&_&_&Er&Est&_&_). by eapply ledger_inv_same.
Qed.

Lemma ledger_inv_steps l s s' :
  rtc server_step s s' → server_inv l s → ledger_inv s → ledger_inv s'.
Proof. induction 1; eauto using ledger_inv_step, server_inv_step. Qed.
End ledger.

(** ** Handling a message: what is answered *)
Section answers.
Context `{Regexp, DurationPb} {St : Type} `{BucketStore St} `{GoRange}.
Implicit Types s : RLQSServer St.

(** The usages a message asks about: those with a non-empty bucket id. *)
Definition asked (us : list BucketQuotaUsage) : list BucketQuotaUsage :=
  filter (λ u, empty_bucket (usage_bucket_id u) = false) us.

Lemma asked_cons u us :
  asked (u :: us) = if empty_bucket (usage_bucket_id u) then asked us else u :: asked us.
Proof. unfold asked. rewrite filter_cons. by destruct (empty_bucket _). Qed.

Lemma handle_usage_result id u s :
  match (handle_usage id u s).2 with
  | Ok None => empty_bucket (usage_bucket_id u) = true
  | Ok (Some r) => empty_bucket (usage_bucket_id u) = false ∧ r = usage_report u
  | Err _ => empty_bucket (usage_bucket_id u) = false
  end ∧ outbox (handle_usage id u s).1 = outbox s.
Proof.
  unfold handle_usage. destruct (usage_bucket_id u) as [bid|]; [|done].
  destruct (empty_bucket (Some bid)); [done|]. destruct (validate_bucket _ _); [done|].
  unfold subscribe. destruct (subscriptions _ !! _); [done|]. by destruct (_ && _).
Qed.

Lemma handle_usages_result id us reports s :
  outbox (handle_usages id us reports s).1 = outbox s ∧
  (∀ rs, (handle_usages id us reports s).2 = Ok rs → rs = reports ++ (usage_report <$> asked us)).
Proof.
  revert reports s. induction us as [|u us IH]; intros reports s; cbn [handle_usages].
  { split; [done|]. intros rs [= <-]. by rewrite app_nil_r. }
  rewrite asked_cons. pose proof (handle_usage_result id u s) as [Hr Ho].
  destruct (handle_usage id u s) as [s1 [[r|]|err]]; cbn in *; [| |done].
  - destruct Hr as [-> ->].
    destruct (IH (reports ++ [usage_report u]) s1) as [-> Hrs]. split; [done|].
    intros rs Heq. rewrite (Hrs rs Heq). cbn. by rewrite <-(assoc_L (++)).
  - rewrite Hr. destruct (IH reports s1) as [-> Hrs]. auto.
Qed.

Lemma abandon_actions_assignments id actions s :
  Forall is_assignment actions → abandon_actions id actions s = s.
Proof.
  unfold abandon_actions. induction 1 as [|a actions Ha _ IH]; cbn; [done|].
  unfold abandon_action at 2. by rewrite is_assignment_no_abandon.
Qed.

Lemma answered_ids_reports us :
  answered_ids (usage_report <$> asked us) = usage_bucket_id <$> asked us.
Proof.
  rewrite answered_ids_filter, <-list_fmap_compose.
  induction us as [|u us IH]; [done|]. rewrite asked_cons.
  destruct (empty_bucket (usage_bucket_id u)) eqn:Hu; [done|].
  rewrite !fmap_cons, filter_cons, decide_True by done. by rewrite IH.
Qed.

(** Consulting an assigning engine: only counters change before its answer goes
    out, because an assignment abandons nothing. *)
Lemma consult_engine_assigning Send id reports s :
  assigning (engine s) →
  ∃ actions s1,
    consult_engine Send id reports s =
      match actions with [] => (s1, None) | _ => send_response Send id actions s1 end ∧
    store s1 = store s ∧ outbox s1 = outbox s ∧
    action_bucket_id <$> actions = answered_ids reports ∧ Forall is_assignment actions.
Proof.
  intros He. unfold consult_engine.
  destruct (He (engine_ctx s) (ss_domain (get_stream id s)) reports) as (actions & Hp & Hids & Hall).
  change (engine (with_metrics _ s)) with (engine s).
  change (engine_ctx (with_metrics _ s)) with (engine_ctx s).
  change (get_stream id (with_metrics _ s)) with (get_stream id s). rewrite Hp.
  destruct actions as [|a actions].
  - exists []. eexists. by split_and!.
  - rewrite abandon_actions_assignments by done. exists (a :: actions). eexists. by split_and!.
Qed.

(** What consulting an assigning engine sends. *)
Lemma consult_engine_answers Send id us s s' :
  assigning (engine s) →
  consult_engine Send id (usage_report <$> asked us) s = (s', None) →
  (asked us = [] ∧ outbox s' = outbox s) ∨
  (∃ actions, outbox s' = outbox s ++ [(id, mkResponse actions)] ∧
     action_bucket_id <$> actions = usage_bucket_id <$> asked us ∧
     actions ≠ [] ∧ Forall is_assignment actions).
Proof.
  intros He.
  destruct (consult_engine_assigning Send id (usage_report <$> asked us) s He)
    as (actions & s1 & -> & _ & <- & Hids & Hall).
  rewrite answered_ids_reports in Hids. destruct actions as [|a actions].
  - intros [= <-]. left. split; [|done]. by destruct (asked us).
  - unfold send_response. destruct (Send _ _); [done|]. intros [= <-].
    right. exists (a :: actions). by split_and!.
Qed.

(** ** Handling a message: when it is accepted *)

(** Room for the subscriptions a list of usages may add. *)
Definition room (l : Limits) (ss : streamState) (n : nat) : Prop :=
  (0 < maxBucketsPerStream l)%Z → (Z.of_nat (size (subscriptions ss) + n) <= maxBucketsPerStream l)%Z.

Definition usage_valid (l : Limits) (u : BucketQuotaUsage) : Prop :=
  empty_bucket (usage_bucket_id u) = true ∨ valid_bucket l (GetBucket (usage_bucket_id u)).

Lemma subscribe_accepts id key bid s n :
  room (limits s) (get_stream id s) (S n) →
  ∃ s', subscribe id key bid s = (s', None) ∧ limits s' = limits s ∧
    room (limits s') (get_stream id s') n.
Proof.
  intros Hroom. unfold subscribe. destruct (subscriptions _ !! key) eqn:Hsub.
  { eexists. split_and!; [done..|]. unfold room in *. lia. }
  destruct (_ && _) eqn:Hmax.
  { apply andb_true_iff in Hmax as [Hp%Z.ltb_lt Hm%Z.leb_le]. specialize (Hroom Hp). lia. }
  eexists. split_and!; [done..|]. 
  rewrite (get_stream_Some id (add_sub key bid (get_stream id s)) (with_metrics _ _))
    by (cbn; apply lookup_insert_eq).
  unfold room in *; cbn. rewrite map_size_insert_None by done. lia.
Qed.

Lemma handle_usages_accepts id us reports s :
  Forall (usage_valid (limits s)) us → room (limits s) (get_stream id s) (length us) →
  ∃ s' rs, handle_usages id us reports s = (s', Ok rs).
Proof.
  revert reports s. induction us as [|u us IH]; intros reports s Hv Hroom; cbn; [by eauto|].
  apply Forall_cons in Hv as [Hu Hv]. unfold handle_usage, usage_valid in *.
  destruct (usage_bucket_id u) as [bid|].
  2: { apply IH; [done|]. unfold room in *. cbn in Hroom. lia. }
  destruct (empty_bucket (Some bid)) eqn:Hemp.
  { apply IH; [done|]. unfold room in *. cbn in Hroom. lia. }
  destruct Hu as [|Hu]; [done|]. cbn in Hu. apply validate_bucket_spec in Hu. rewrite Hu.
  destruct (subscribe_accepts id (BucketKeyFromProto (Some bid)) bid s (length us) Hroom)
    as (s1 & -> & Hl & Hroom1).
  apply IH; cbn; [by rewrite Hl|done].
Qed.
End answers.

(** ** Whole messages and whole sessions *)
Section sessions.
Context `{Regexp, DurationPb} {St : Type} `{BucketStore St} `{GoRange}.
Implicit Types s : RLQSServer St.

(** Handling a message of [id] touches no other stream and keeps [id]. *)
Lemma recv_loop_inv l id msgs last s :
  server_inv l s → is_Some (streams s !! id) →
  server_inv l (recv_loop id msgs last s).1 ∧ is_Some (streams (recv_loop id msgs last s).1 !! id) ∧
  (∀ id', id' ≠ id → streams (recv_loop id msgs last s).1 !! id' = streams s !! id').
Proof.
  revert s. induction msgs as [|[Send req] msgs IH]; intros s Hinv Hid; cbn; [done|].
  pose proof (handleMessage_inv l Send id req s Hinv Hid) as Hinv1.
  destruct (handleMessage_frame Send id req s Hid) as [Hid1 Ho].
  destruct (handleMessage Send id req s) as [s1 [err|]]; cbn in *; [done|].
  destruct (IH s1 Hinv1 Hid1) as (? & ? & Ho1). split_and!; [done..|].
  intros id' Hne. by rewrite Ho1, Ho.
Qed.

Lemma recv_loop_p_inv l Panics id msgs last s :
  server_inv l s → is_Some (streams s !! id) →
  let s' := (recv_loop_p Panics id msgs last s).1 in
  server_inv l s' ∧ is_Some (streams s' !! id) ∧ (∀ id', id' ≠ id → streams s' !! id' = streams s !! id').
Proof.
  revert s. induction msgs as [|[Send req] msgs IH]; intros s Hinv Hid; cbn; [done|].
  destruct (handleMessage_p_inv l Panics Send id req s Hinv Hid) as (Hinv1 & Hid1 & Ho1).
  destruct (handleMessage_p Panics Send id req s) as [s1 [[err|]|v]]; cbn in *; [done| |done].
  destruct (IH s1 Hinv1 Hid1) as (? & ? & Ho). split_and!; [done..|].
  intros id' Hne. by rewrite Ho, Ho1.
Qed.

(** An engine that does not panic is the one of the plain handlers. *)
Lemma recv_loop_p_calm Panics id msgs last s :
  (∀ ctx domain reports, Panics ctx domain reports = None) →
  recv_loop_p Panics id msgs last s = ((recv_loop id msgs last s).1, Returned (recv_loop id msgs last s).2).
Proof.
  intros Hcalm. revert s. induction msgs as [|[Send req] msgs IH]; intros s; cbn; [done|].
  destruct (handleMessage_p_cases Panics Send id req s) as [->|(s1 & s2 & reports & v & _ & _ & Hp & _)];
    [|by rewrite Hcalm in Hp].
  destruct (handleMessage Send id req s) as [s1 [err|]]; cbn; [done|apply IH].
Qed.

(** The books are determined by the registered streams. *)
Lemma bookkeeping_refs_unique refs refs' gauge gauge' m :
  bookkeeping refs gauge m → bookkeeping refs' gauge' m → refs' = refs.
Proof. intros [Hr _] [Hr' _]. apply map_eq. intros k. by rewrite Hr, Hr'. Qed.

Lemma open_stream_registered id (s : RLQSServer St) : is_Some (streams (open_stream id s) !! id).
Proof. cbn. rewrite lookup_insert_eq. eauto. Qed.

(** Closing a stream opened in [s] gives back the books of [s]. *)
Lemma close_restores l (s s2 : RLQSServer St) id :
  server_inv l s → streams s !! id = None → server_inv l s2 → is_Some (streams s2 !! id) →
  (∀ id', id' ≠ id → streams s2 !! id' = streams (open_stream id s) !! id') →
  let s' := close_stream id s2 in
  streams s' = streams s ∧ bucketRefs s' = bucketRefs s ∧
  ActiveStreams (metrics s') = ActiveStreams (metrics s) ∧
  ∀ label, default 0%Z (ActiveBuckets (metrics s') !! label) =
           default 0%Z (ActiveBuckets (metrics s) !! label).
Proof.
  intros Hinv Hid Hinv2 Hid2 Ho. cbn zeta. destruct (close_stream_inv _ id s2 Hinv2 Hid2) as [Hinv3 Es].
  assert (streams (close_stream id s2) = streams s) as Es'.
  { rewrite Es. apply map_eq. intros id'. destruct (decide (id' = id)) as [->|Hne].
    - by rewrite lookup_delete_eq, Hid.
    - rewrite lookup_delete_ne, Ho by done. cbn. by rewrite lookup_insert_ne. }
  pose proof (inv_books _ _ Hinv3) as Hb3. rewrite Es' in Hb3. split_and!; [done| | |].
  - by eapply bookkeeping_refs_unique; [apply (inv_books _ _ Hinv)|].
  - by rewrite (inv_active _ _ Hinv3), (inv_active _ _ Hinv), Es'.
  - intros label. by rewrite (bk_gauge _ _ _ Hb3), (bk_gauge _ _ _ (inv_books _ _ Hinv)).
Qed.

(** ** What a push sends to one stream *)
Definition push_response (e : Engine) (s : RLQSServer St) (id : nat)
    : option (nat * RateLimitQuotaResponse) :=
  let ss := get_stream id s in
  if negb (domainBound ss) || bool_decide (size (subscriptions ss) = 0) then None
  else match ProcessUsage e (engine_ctx s) (ss_domain ss)
               ((λ kv, mkUsageReport (Some kv.2) 0 0 0) <$> map_range (subscriptions ss)) with
       | Ok (a :: actions) => Some (id, mkResponse (a :: actions))
       | _ => None
       end.

Lemma push_stream_outbox Send e s id :
  (∀ i r, Send i r = None) →
  outbox (push_stream Send e s id) = outbox s ++ option_list (push_response e s id).
Proof.
  intros Hsend. unfold push_stream, push_response. case_match; [by rewrite app_nil_r|].
  destruct (ProcessUsage _ _ _ _) as [[|a actions]|err]; [by rewrite app_nil_r| |by rewrite app_nil_r].
  unfold send_response. by rewrite Hsend.
Qed.

Lemma pushAssignments_outbox Send e s :
  (∀ i r, Send i r = None) →
  outbox (pushAssignments Send e s) = outbox s ++ omap (push_response e s) (map_range (streams s)).*1.
Proof.
  intros Hsend. unfold pushAssignments. generalize ((map_range (streams s)).*1) as ids. intros ids.
  assert (∀ s0, streams s0 = streams s → limits s0 = limits s →
    outbox (foldl (push_stream Send e) s0 ids) = outbox s0 ++ omap (push_response e s) ids) as Hgen;
    [|by apply Hgen].
  induction ids as [|id ids IH]; intros s0 Es El; cbn; [by rewrite app_nil_r|].
  destruct (push_stream_frame Send e s0 id) as (Es1 & El1 & _).
  rewrite IH by congruence. rewrite push_stream_outbox by done.
  assert (push_response e s0 id = push_response e s id) as ->.
  { unfold push_response, get_stream, engine_ctx. by rewrite Es, El. }
  rewrite <-(assoc_L (++)). by destruct (push_response e s id).
Qed.

Lemma answered_ids_nonempty (ids : list BucketId) :
  Forall (λ b, bucket b ≠ ∅) ids →
  answered_ids ((λ b, mkUsageReport (Some b) 0 0 0) <$> ids) = Some <$> ids.
Proof.
  rewrite answered_ids_filter, <-list_fmap_compose. induction 1 as [|b ids Hb _ IH]; [done|].
  rewrite !fmap_cons, filter_cons, decide_True; [by rewrite IH|]; cbn.
  apply bool_decide_eq_false. by rewrite map_size_empty_iff.
Qed.

(** An assigning engine, asked for the buckets of a stream, assigns each. *)
Lemma assigning_subscriptions l e ss ctx domain :
  assigning e → stream_ok l ss → subscriptions ss ≠ ∅ →
  ∃ a actions,
    ProcessUsage e ctx domain ((λ kv, mkUsageReport (Some kv.2) 0 0 0) <$> map_range (subscriptions ss)) =
      Ok (a :: actions) ∧
    action_bucket_id <$> a :: actions ≡ₚ Some <$> (map_to_list (subscriptions ss)).*2 ∧
    Forall is_assignment (a :: actions).
Proof.
  intros He Hok Hsz.
  destruct (He ctx domain ((λ kv, mkUsageReport (Some kv.2) 0 0 0) <$> map_range (subscriptions ss)))
    as (acts & Hp & Hids & Ha).
  assert (action_bucket_id <$> acts = Some <$> (map_range (subscriptions ss)).*2) as Hids'.
  { rewrite Hids, <-answered_ids_nonempty; [by rewrite <-list_fmap_compose|].
    apply Forall_fmap, Forall_forall. intros [k b] Hkb%elem_of_map_range. cbn.
    by destruct (ok_subs _ _ Hok k b Hkb) as (_ & ? & _). }
  destruct acts as [|a acts].
  - exfalso. apply Hsz, map_to_list_empty_iff, Permutation_nil_r. rewrite <-map_range_perm.
    by destruct (map_range (subscriptions ss)).
  - exists a, acts. split_and!; [done| |done]. rewrite Hids'. by rewrite map_range_perm.
Qed.

(** For an assigning engine: a response to every bound stream that subscribes
    to something, with one assignment per subscription. *)
Lemma push_response_assigning l e s id ss :
  assigning e → server_inv l s → streams s !! id = Some ss →
  match push_response e s id with
  | None => ¬ (domainBound ss = true ∧ subscriptions ss ≠ ∅)
  | Some (id', r) => id' = id ∧ (domainBound ss = true ∧ subscriptions ss ≠ ∅) ∧
      action_bucket_id <$> resp_bucket_action r ≡ₚ Some <$> (map_to_list (subscriptions ss)).*2 ∧
      Forall is_assignment (resp_bucket_action r)
  end.
Proof.
  intros He Hinv Hid. unfold push_response. rewrite (get_stream_Some id ss) by done.
  destruct (domainBound ss); cbn; [|naive_solver].
  destruct (bool_decide _) eqn:Hsz; [apply bool_decide_eq_true in Hsz; apply map_size_empty_inv in Hsz; naive_solver|].
  apply bool_decide_eq_false in Hsz. rewrite map_size_empty_iff in Hsz.
  destruct (assigning_subscriptions l e ss (engine_ctx s) (ss_domain ss) He (inv_streams l s Hinv id ss Hid) Hsz)
    as (a & acts & -> & ? & ?). by split_and!.
Qed.
End sessions.

(** ** Properties *)

(** A small concrete server, for the examples: the in-memory store, the default
    engine, the default limits. *)
Section demo.
#[local] Existing Instance range_in_order.
#[local] Existing Instance durationpb_split.
#[local] Existing Instance literal_regexp.

Definition demo_engine : Engine :=
  DefaultEngine_Engine (mkDefaultEngine (mkDefaultEngineConfig
    (Some (RateLimitStrategy_BlanketRule ALLOW_ALL)) (Some (20 * second)%Z))).

Definition demo_server : RLQSServer MemoryStorage :=
  NewRLQS NewMemoryStorage demo_engine (cfg_Server default_config) None.

Definition demo_usage (user : string) : BucketQuotaUsage :=
  mkBucketQuotaUsage (Some (mkBucketId {["user" := user]})) None 5 1.

Definition demo_req : RateLimitQuotaUsageReports :=
  mkUsageReports "api" [demo_usage "alice"; demo_usage "bob"].

(** A [Send] that succeeds. *)
Definition send_ok (_ : nat) (_ : RateLimitQuotaResponse) : option error := None.

(** One stream after its first message. *)
Definition demo_state : RLQSServer MemoryStorage :=
  (handleMessage send_ok 0 demo_req (open_stream 0 demo_server)).1.

Lemma demo_steps : rtc server_step demo_server demo_state.
Proof.
  eapply rtc_l; [apply (step_open demo_server 0); reflexivity|].
  apply rtc_once. apply (step_message range_in_order). eexists; reflexivity.
Qed.

Lemma demo_reachable : server_reachable demo_state.
Proof.
  exists NewMemoryStorage, demo_engine, (cfg_Server default_config), None. exact demo_steps.
Qed.

Lemma demo_inv : server_inv (limits demo_server) (open_stream 0 demo_server).
Proof. apply open_stream_inv; [apply NewRLQS_inv|reflexivity]. Qed.
End demo.

Lemma ref_count_size k m :
  ref_count k m = Z.of_nat (size (filter (λ p, k ∈ scoped_subs p.2) m)).
Proof.
  unfold ref_count. induction m as [|id ss m Hid IH] using map_ind.
  { by rewrite map_sum_empty, map_filter_empty, map_size_empty. }
  rewrite map_sum_insert_None, map_filter_insert, IH by done; cbn. case_decide.
  - rewrite map_size_insert_None by (apply map_lookup_filter_None; auto). lia.
  - by rewrite delete_id.
Qed.

(** C4: reference counts are exact in every reachable state: a scoped key is
    counted once per registered stream subscribed to it, and has no entry when
    no stream is. *)
Theorem server_refcounts_exact `{Regexp, DurationPb} {St} `{BucketStore St} (s : RLQSServer St) k :
  server_reachable s →
  bucketRefs s !! k =
    (let n := size (filter (λ p, k ∈ scoped_subs p.2) (streams s)) in
     if decide (n = 0) then None else Some (Z.of_nat n)).
Proof.
  intros Hinv%server_inv_reachable. rewrite (bk_refs _ _ _ (inv_books _ _ Hinv)), ref_count_size.
  unfold of_count; cbn. repeat case_match; try done; lia.
Qed.

Lemma server_refcounts_exact_witness :
  bucketRefs demo_state !! ("api" +:+ String us_byte ("user" +:+ String nul_byte "alice")) = Some 1%Z.
Proof.
  rewrite (@server_refcounts_exact literal_regexp durationpb_split MemoryStorage _ demo_state);
    [vm_compute; reflexivity|].
  exact demo_reachable.
Defined.

(** The keys of the ledger. *)
Lemma ledger_keys `{Regexp, DurationPb} {St} `{LedgerStore St}
    st e cfg classifier (s : RLQSServer St) k :
  usage st = ∅ → rtc server_step (NewRLQS st e cfg classifier) s →
  is_Some (usage (store s) !! k) ↔
    ∃ id ss key, streams s !! id = Some ss ∧ is_Some (subscriptions ss !! key) ∧
                 k = DomainScopedKey (ss_domain ss) key.
Proof.
  intros Hst Hsteps. pose proof (NewRLQS_inv st e cfg classifier) as Hinv0.
  pose proof (server_inv_steps _ _ _ Hsteps Hinv0) as Hinv.
  assert (ledger_inv s) as Hl.
  { eapply ledger_inv_steps; [done..|]. unfold ledger_inv; cbn. by rewrite Hst. }
  unfold ledger_inv in Hl. rewrite <-elem_of_dom, Hl, elem_of_dom.
  rewrite (bk_refs _ _ _ (inv_books _ _ Hinv)).
  trans (0 < ref_count k (streams s))%Z.
  - pose proof (ref_count_nonneg k (streams s)). unfold of_count.
    case_match eqn:E; rewrite ?is_Some_alt; [split; [by intros []|lia]|split; [lia|by eauto]].
  - rewrite ref_count_pos. setoid_rewrite elem_of_scoped_subs. naive_solver.
Qed.

(** Run one after another, the handlers keep the store in step with the
    subscriptions: from an empty ledger, usage is stored for exactly the scoped
    keys some registered stream is subscribed to. (Interleaving.v has the same
    question for handlers that interleave at the locks.) *)
Theorem store_follows_subscriptions `{Regexp, DurationPb} {St} `{LedgerStore St}
    st e cfg classifier (s : RLQSServer St) k :
  usage st = ∅ → rtc server_step (NewRLQS st e cfg classifier) s →
  is_Some (usage (store s) !! k) ↔
    ∃ id ss key, streams s !! id = Some ss ∧ is_Some (subscriptions ss !! key) ∧
                 k = DomainScopedKey (ss_domain ss) key.
Proof. apply ledger_keys. Qed.

Lemma store_follows_subscriptions_witness :
  is_Some (usage (store demo_state) !! ("api" +:+ String us_byte ("user" +:+ String nul_byte "bob"))).
Proof.
  eapply (proj2 (@store_follows_subscriptions literal_regexp durationpb_split MemoryStorage _
    MemoryStorage_Ledger NewMemoryStorage demo_engine (cfg_Server default_config) None demo_state _ eq_refl demo_steps)).
  exists 0. eexists. exists ("user" +:+ String nul_byte "bob").
  split; [vm_compute; reflexivity|]. split; [eexists; vm_compute; reflexivity|reflexivity].
Defined.

(** C27: the gauges tell the truth in every reachable state: active streams are
    the registered ones, and the active buckets of a label are the
    subscriptions of the streams with that label. *)
Theorem server_gauges_exact `{Regexp, DurationPb} {St} `{BucketStore St} (s : RLQSServer St) label :
  server_reachable s →
  ActiveStreams (metrics s) = Z.of_nat (size (streams s)) ∧
  default 0%Z (ActiveBuckets (metrics s) !! label) = sub_total label (streams s).
Proof.
  intros Hinv%server_inv_reachable. split; [apply Hinv|apply (inv_books _ _ Hinv)].
Qed.

Lemma server_gauges_exact_witness :
  ActiveStreams (metrics demo_state) = 1%Z ∧
  default 0%Z (ActiveBuckets (metrics demo_state) !! "api") = 2%Z.
Proof.
  destruct (@server_gauges_exact literal_regexp durationpb_split MemoryStorage _ demo_state "api")
    as [-> ->]; [|split; vm_compute; reflexivity].
  exact demo_reachable.
Defined.

(** C14: limits hold in every reachable state: no stream holds more buckets
    than the configured maximum, every subscription is kept under the canonical
    key of its bucket id, and every such id passed validation. *)
Theorem server_limits_respected `{Regexp, DurationPb} {St} `{BucketStore St} (s : RLQSServer St) id ss :
  server_reachable s → streams s !! id = Some ss →
  ((0 < maxBucketsPerStream (limits s))%Z →
     (Z.of_nat (size (subscriptions ss)) <= maxBucketsPerStream (limits s))%Z) ∧
  map_Forall (λ key bid, (∀ R : GoRange, key = BucketKeyFromProto (Some bid)) ∧
                         valid_bucket (limits s) (bucket bid)) (subscriptions ss).
Proof.
  intros Hinv%server_inv_reachable Hid. destruct (inv_streams _ _ Hinv id ss Hid) as [_ _ Hs Hm].
  split; [done|]. intros key bid Hkey. destruct (Hs key bid Hkey) as (-> & _ & Hv).
  split; [|done]. intros R. by rewrite BucketKeyFromProto_encode.
Qed.

Lemma server_limits_respected_witness :
  ∃ ss, streams demo_state !! 0 = Some ss ∧
    (Z.of_nat (size (subscriptions ss)) <= maxBucketsPerStream (limits demo_state))%Z.
Proof.
  destruct (streams demo_state !! 0) as [ss|] eqn:E; [|vm_compute in E; discriminate].
  exists ss. split; [reflexivity|].
  apply (proj1 (@server_limits_respected literal_regexp durationpb_split MemoryStorage _
    demo_state 0 ss demo_reachable E)).
  vm_compute. reflexivity.
Defined.

(** C12: a session cleans up after itself: whatever a client sends and however
    the session ends, once the handler has returned the registered streams, the
    reference counts and the gauges are what they were before it. *)
Theorem session_leaves_no_trace `{Regexp, DurationPb, GoRange} {St} `{BucketStore St}
    (s : RLQSServer St) id msgs last :
  server_reachable s → streams s !! id = None →
  let s' := (StreamRateLimitQuotas id msgs last s).1 in
  streams s' = streams s ∧ bucketRefs s' = bucketRefs s ∧
  ActiveStreams (metrics s') = ActiveStreams (metrics s) ∧
  ∀ label, default 0%Z (ActiveBuckets (metrics s') !! label) =
           default 0%Z (ActiveBuckets (metrics s) !! label).
Proof.
  intros Hinv%server_inv_reachable Hid. cbn zeta. unfold StreamRateLimitQuotas.
  pose proof (open_stream_inv _ id s Hinv Hid) as Hinv1.
  destruct (recv_loop_inv _ id msgs last _ Hinv1 (open_stream_registered id s)) as (Hinv2 & Hid2 & Ho).
  destruct (recv_loop id msgs last (open_stream id s)) as [s2 err]; cbn [fst] in *.
  by eapply close_restores.
Qed.

Lemma session_leaves_no_trace_witness :
  bucketRefs (@StreamRateLimitQuotas literal_regexp MemoryStorage _ range_reversed durationpb_split
    1 [(send_ok, demo_req)] None demo_state).1 = bucketRefs demo_state.
Proof.
  destruct (@session_leaves_no_trace literal_regexp durationpb_split range_reversed MemoryStorage _
    demo_state 1 [(send_ok, demo_req)] None demo_reachable ltac:(vm_compute; reflexivity))
    as (_ & Hr & _ & _).
  exact Hr.
Defined.

(** One answer per question: when a message is handled without error and
    the engine assigns, the stream is sent exactly one response, with one
    assignment per non-empty usage in the order of the message (and nothing if
    there was none). *)
Theorem message_answered `{Regexp, DurationPb, GoRange} {St} `{BucketStore St}
    Send (s s' : RLQSServer St) id req :
  is_Some (streams s !! id) → assigning (engine s) →
  handleMessage Send id req s = (s', None) →
  (asked (req_bucket_quota_usages req) = [] ∧ outbox s' = outbox s) ∨
  (∃ actions, outbox s' = outbox s ++ [(id, mkResponse actions)] ∧
     action_bucket_id <$> actions = usage_bucket_id <$> asked (req_bucket_quota_usages req) ∧
     actions ≠ [] ∧ Forall is_assignment actions).
Proof.
  intros [ss Hid] He. unfold handleMessage. pose proof (bind_domain_spec id req s ss Hid) as Hspec.
  destruct (bind_domain id req s) as [s1 [err|]]; [done|].
  destruct Hspec as (_ & Ee & _ & _ & _ & Eo & _ & ss1 & Hid1 & _). rewrite <-Eo.
  case_decide as Hnil; [intros [= <-]; left; by rewrite Hnil|]. case_match; [done|].
  destruct (handle_usages_result id (req_bucket_quota_usages req) [] s1) as [Ho Hrs].
  pose proof (handle_usages_frame id (req_bucket_quota_usages req) [] s1 ltac:(eauto)) as Hf.
  destruct (handle_usages _ _ _ _) as [s2 [reports|err]]; cbn in *; [|done].
  rewrite (Hrs reports eq_refl), <-Ho. cbn. apply consult_engine_answers.
  by rewrite (sb_engine _ _ _ Hf), Ee.
Qed.

Lemma message_answered_witness :
  ∃ s', @handleMessage literal_regexp MemoryStorage _ range_in_order durationpb_split send_ok 0
          demo_req (open_stream 0 demo_server) = (s', None) ∧
  ((asked (req_bucket_quota_usages demo_req) = [] ∧ outbox s' = []) ∨
   (∃ actions, outbox s' = [(0, mkResponse actions)] ∧
     action_bucket_id <$> actions = usage_bucket_id <$> asked (req_bucket_quota_usages demo_req) ∧
     actions ≠ [] ∧ Forall is_assignment actions)).
Proof.
  destruct (@handleMessage literal_regexp MemoryStorage _ range_in_order durationpb_split send_ok 0
    demo_req (open_stream 0 demo_server)) as [s' [err|]] eqn:E; [vm_compute in E; discriminate|].
  exists s'. split; [reflexivity|].
  apply (@message_answered literal_regexp durationpb_split range_in_order MemoryStorage _ send_ok
    (open_stream 0 demo_server) s' 0 demo_req).
  - eexists. reflexivity.
  - apply DefaultEngine_assigning.
  - exact E.
Defined.

(** C20: good messages are accepted: a message whose domain fits, that is not
    too long, whose non-empty bucket ids are valid and for whose buckets the
    stream has room, is handled without error when the engine assigns and the
    response can be sent. *)
Theorem message_accepted `{Regexp, DurationPb, GoRange} {St} `{BucketStore St}
    Send (s : RLQSServer St) id req ss :
  streams s !! id = Some ss → assigning (engine s) → (∀ r, Send id r = None) →
  (if domainBound ss then req_domain req = "" ∨ req_domain req = ss_domain ss
   else req_domain req ≠ "") →
  ((0 < maxReportsPerMessage (limits s))%Z →
     (Z.of_nat (length (req_bucket_quota_usages req)) <= maxReportsPerMessage (limits s))%Z) →
  Forall (usage_valid (limits s)) (req_bucket_quota_usages req) →
  room (limits s) ss (length (req_bucket_quota_usages req)) →
  (handleMessage Send id req s).2 = None.
Proof.
  intros Hid He Hsend Hdom Hmax Hv Hroom. unfold handleMessage.
  pose proof (bind_domain_spec id req s ss Hid) as Hspec.
  destruct (bind_domain id req s) as [s1 [err|]] eqn:Hb.
  { exfalso. revert Hb. unfold bind_domain. rewrite (get_stream_Some id ss) by done.
    destruct (domainBound ss); [case_decide; naive_solver|].
    case_decide; [done|]. by destruct (Classify _ _). }
  destruct Hspec as (El & Ee & _ & _ & _ & _ & _ & ss1 & Hid1 & _ & Hsubs & _).
  case_decide; [done|]. rewrite El.
  destruct (_ && _) eqn:Hm.
  { apply andb_true_iff in Hm as [Hp%Z.ltb_lt Hlt%Z.ltb_lt]. specialize (Hmax Hp). lia. }
  destruct (handle_usages_accepts id (req_bucket_quota_usages req) [] s1) as (s2 & reports & E).
  { by rewrite El. }
  { rewrite El, (get_stream_Some id ss1) by done. unfold room in *. by rewrite Hsubs. }
  pose proof (handle_usages_frame id (req_bucket_quota_usages req) [] s1 ltac:(eauto)) as Hf.
  rewrite E in *; cbn in Hf.
  destruct (consult_engine_assigning Send id reports s2) as (actions & s3 & -> & _).
  { by rewrite (sb_engine _ _ _ Hf), Ee. }
  destruct actions; [done|]. unfold send_response. by rewrite Hsend.
Qed.

Lemma message_accepted_witness :
  (@handleMessage literal_regexp MemoryStorage _ range_in_order durationpb_split send_ok 0
     demo_req (open_stream 0 demo_server)).2 = None.
Proof.
  apply (@message_accepted literal_regexp durationpb_split range_in_order MemoryStorage _ send_ok
    (open_stream 0 demo_server) 0 demo_req new_stream).
  - reflexivity.
  - apply DefaultEngine_assigning.
  - reflexivity.
  - discriminate.
  - intros _. vm_compute. discriminate.
  - apply Forall_forall. intros u Hu. apply list_elem_of_In in Hu.
    destruct Hu as [<-|[<-|[]]]; right; (split; [vm_compute; discriminate|]);
      apply map_Forall_to_list; vm_compute; repeat constructor; discriminate.
  - intros _. vm_compute. discriminate.
Defined.
