(* ===== verification/ServerMessages.v ===== *)
(** * What a message does

    The errors a message can be refused with and what they say, the usage an
    accepted message adds to the ledger, what a message leaves alone (other
    streams, other domains), and who receives a push. *)
From S2P Require Import Prelude GoStd Proto BucketKey Storage Config Quota DomainClassifier.
From S2P Require Import Server ServerInv ServerProps.

(** ** Outcomes of one usage and of the loop *)
Section outcomes.
Context `{Regexp, DurationPb} {St : Type} `{BucketStore St} `{GoRange}.
Implicit Types s : RLQSServer St.

(** The domain a stream is bound to once a message has passed the check. *)
Definition message_domain (ss : streamState) (req : RateLimitQuotaUsageReports) : string :=
  if domainBound ss then ss_domain ss else req_domain req.

(** What an error about a bucket id says of the bucket. *)
Definition bucket_error_true (l : Limits) (b : gmap string string) (err : rpc_error) : Prop :=
  match err with
  | ErrTooManyEntries n limit =>
      limit = maxBucketEntries l ∧ n = Z.of_nat (size b) ∧ (0 < limit < n)%Z
  | ErrEmptyKeyOrValue => ∃ k v, b !! k = Some v ∧ (k = "" ∨ v = "")
  | ErrKeyTooLong n limit =>
      limit = maxBucketKeyLen l ∧ (0 < limit < n)%Z ∧ ∃ k v, b !! k = Some v ∧ n = len k
  | ErrValueTooLong n limit =>
      limit = maxBucketValueLen l ∧ (0 < limit < n)%Z ∧ ∃ k v, b !! k = Some v ∧ n = len v
  | _ => False
  end.

Lemma validate_entries_error l b entries err :
  (∀ k v, (k, v) ∈ entries → b !! k = Some v) →
  validate_entries l entries = Some err → bucket_error_true l b err.
Proof.
  induction entries as [|[k v] entries IH]; intros Hin; cbn; [done|].
  assert (b !! k = Some v) by (apply Hin; set_solver).
  case_decide; [intros [= <-]; cbn; eauto|].
  destruct (_ && _) eqn:Ek; [apply andb_true_iff in Ek as [Ek%Z.ltb_lt Ek'%Z.ltb_lt];
    intros [= <-]; cbn; eauto 8|].
  destruct (_ && _) eqn:Ev in |- *; [apply andb_true_iff in Ev as [Ev%Z.ltb_lt Ev'%Z.ltb_lt];
    intros [= <-]; cbn; eauto 8|].
  apply IH. set_solver.
Qed.

Lemma validate_bucket_error l b err :
  validate_bucket l b = Some err → bucket_error_true l b err.
Proof.
  unfold validate_bucket. destruct (_ && _) eqn:E.
  - apply andb_true_iff in E as [E%Z.ltb_lt E'%Z.ltb_lt]. intros [= <-]. done.
  - apply validate_entries_error. intros k v. apply elem_of_map_range.
Qed.

(** What the error of one usage says, in the state it was handled in. *)
Definition usage_error_true (s : RLQSServer St) (id : nat) (u : BucketQuotaUsage) (err : rpc_error) : Prop :=
  match err with
  | ErrMaxBuckets limit =>
      limit = maxBucketsPerStream (limits s) ∧ (0 < limit)%Z ∧
      (limit <= Z.of_nat (size (subscriptions (get_stream id s))))%Z ∧
      subscriptions (get_stream id s) !! BucketKeyFromProto (usage_bucket_id u) = None
  | _ => bucket_error_true (limits s) (GetBucket (usage_bucket_id u)) err
  end.

(** A usage that is refused changes nothing. *)
Lemma handle_usage_error id u s s' err :
  handle_usage id u s = (s', Err err) → s' = s ∧ usage_error_true s id u err.
Proof.
  unfold handle_usage. destruct (usage_bucket_id u) as [bid|] eqn:Hu; [|done].
  case_match; [done|]. destruct (validate_bucket _ _) as [e|] eqn:Hv.
  { intros [= <- <-]. split; [done|]. apply validate_bucket_error in Hv.
    unfold usage_error_true. rewrite Hu. by destruct e. }
  unfold subscribe. destruct (subscriptions _ !! _) eqn:Hs; [done|].
  destruct (_ && _) eqn:E; [|done]. apply andb_true_iff in E as [E%Z.ltb_lt E'%Z.leb_le].
  intros [= <- <-]. split; [done|]. unfold usage_error_true. by rewrite Hu.
Qed.

(** The loop stops at the first usage that is refused: those before it were
    handled, those after it were not looked at. *)
Lemma handle_usages_error id us reports s s' err :
  handle_usages id us reports s = (s', Err err) →
  ∃ us1 u us2 reports', us = us1 ++ u :: us2 ∧
    handle_usages id us1 reports s = (s', Ok reports') ∧ handle_usage id u s' = (s', Err err).
Proof.
  revert reports s. induction us as [|u us IH]; intros reports s; cbn; [done|].
  destruct (handle_usage id u s) as [s1 [[r|]|e]] eqn:E.
  - intros (us1 & u' & us2 & rs & -> & E1 & E2)%IH. exists (u :: us1), u', us2, rs.
    split_and!; [done| |done]. cbn. by rewrite E.
  - intros (us1 & u' & us2 & rs & -> & E1 & E2)%IH. exists (u :: us1), u', us2, rs.
    split_and!; [done| |done]. cbn. by rewrite E.
  - intros [= <- <-]. destruct (handle_usage_error _ _ _ _ _ E) as [-> _].
    exists [], u, us, reports. by split_and!.
Qed.

(** A usage that was not refused: it names no bucket, or its bucket is valid and
    the stream is subscribed to it. *)
Definition usage_taken (s : RLQSServer St) (id : nat) (u : BucketQuotaUsage) : Prop :=
  empty_bucket (usage_bucket_id u) = true ∨
  valid_bucket (limits s) (GetBucket (usage_bucket_id u)) ∧
  is_Some (subscriptions (get_stream id s) !! BucketKeyFromProto (usage_bucket_id u)).

Lemma subscribe_grows id key bid s :
  is_Some (streams s !! id) →
  subscriptions (get_stream id s) ⊆ subscriptions (get_stream id (subscribe id key bid s).1) ∧
  ((subscribe id key bid s).2 = None →
   is_Some (subscriptions (get_stream id (subscribe id key bid s).1) !! key)).
Proof.
  intros [ss Hid]. unfold subscribe. destruct (subscriptions _ !! key) eqn:Hk; [cbn; rewrite Hk; by eauto|].
  destruct (_ && _); [done|]. cbn. unfold get_stream in *. cbn. rewrite lookup_insert_eq. cbn. split.
  - by apply insert_subseteq.
  - intros _. by rewrite lookup_insert_eq.
Qed.

Lemma handle_usage_taken id u s :
  is_Some (streams s !! id) →
  subscriptions (get_stream id s) ⊆ subscriptions (get_stream id (handle_usage id u s).1) ∧
  (is_ok (handle_usage id u s).2 = true → usage_taken (handle_usage id u s).1 id u).
Proof.
  intros Hid. unfold handle_usage, usage_taken. destruct (usage_bucket_id u) as [bid|]; [|by split; [|left]].
  destruct (empty_bucket (Some bid)); [by split; [|left]|].
  destruct (validate_bucket _ _) eqn:Hv; [done|]. apply validate_bucket_spec in Hv.
  destruct (subscribe_grows id (BucketKeyFromProto (Some bid)) bid s Hid) as [Hsub Hin].
  pose proof (sb_limits _ _ _ (subscribe_frame id (BucketKeyFromProto (Some bid)) bid s Hid)) as El.
  destruct (subscribe _ _ _ _) as [s1 [err|]]; cbn in *; [done|]. split; [done|]. intros _. right.
  rewrite El. split; [done|]. by apply Hin.
Qed.

Lemma usage_taken_grows id u s s' :
  limits s' = limits s → subscriptions (get_stream id s) ⊆ subscriptions (get_stream id s') →
  usage_taken s id u → usage_taken s' id u.
Proof.
  unfold usage_taken. intros -> Hsub [?|(? & b & ?)]; [by left|right]. split; [done|].
  exists b. by eapply lookup_weaken.
Qed.

(** A loop that was not stopped took every usage. *)
Lemma handle_usages_taken id us reports s :
  is_Some (streams s !! id) →
  subscriptions (get_stream id s) ⊆ subscriptions (get_stream id (handle_usages id us reports s).1) ∧
  (is_ok (handle_usages id us reports s).2 = true →
   Forall (usage_taken (handle_usages id us reports s).1 id) us).
Proof.
  revert reports s. induction us as [|u us IH]; intros reports s Hid; cbn [handle_usages]; [by split|].
  destruct (handle_usage_taken id u s Hid) as [Hsub Ht].
  pose proof (handle_usage_frame id u s Hid) as Hf.
  destruct (handle_usage id u s) as [s1 [o|err]]; cbn [fst snd] in *; [|done].
  assert (is_Some (streams s1 !! id)) as Hid1 by eauto using same_binding_registered.
  destruct o as [r|]; [destruct (IH (reports ++ [r]) s1 Hid1) as [Hs2 Hall];
      pose proof (handle_usages_frame id us (reports ++ [r]) s1 Hid1) as Hf2
    |destruct (IH reports s1 Hid1) as [Hs2 Hall]; pose proof (handle_usages_frame id us reports s1 Hid1) as Hf2];
    (split; [by etrans|]); intros Hok; (constructor; [|by apply Hall]);
    (eapply usage_taken_grows; [apply (sb_limits _ _ _ Hf2)|done|by apply Ht]).
Qed.

Lemma bind_domain_error id req s ss s' err :
  streams s !! id = Some ss → bind_domain id req s = (s', Some err) →
  match err with
  | ErrFirstMessageDomain => domainBound ss = false ∧ req_domain req = ""
  | ErrDomainMismatch d d' =>
      domainBound ss = true ∧ d = ss_domain ss ∧ d' = req_domain req ∧ d' ≠ "" ∧ d' ≠ d
  | _ => False
  end.
Proof.
  intros Hid. unfold bind_domain. rewrite (get_stream_Some id ss) by done.
  destruct (domainBound ss).
  - case_decide; [|done]. intros [= <- <-]. naive_solver.
  - case_decide; [by intros [= <- <-]|]. by destruct (Classify _ _).
Qed.

Lemma consult_engine_error Send id reports s s' err :
  consult_engine Send id reports s = (s', Some err) →
  match err with
  | ErrEngine e => ProcessUsage (engine s) (engine_ctx s) (ss_domain (get_stream id s)) reports = Err e
  | ErrSend e => ∃ actions,
      ProcessUsage (engine s) (engine_ctx s) (ss_domain (get_stream id s)) reports = Ok actions ∧
      Send id (mkResponse actions) = Some e
  | _ => False
  end.
Proof.
  unfold consult_engine. change (engine (with_metrics _ s)) with (engine s).
  change (engine_ctx (with_metrics _ s)) with (engine_ctx s).
  change (get_stream id (with_metrics _ s)) with (get_stream id s).
  destruct (ProcessUsage _ _ _ _) as [[|a actions]|e]; [done| |by intros [= <- <-]].
  unfold send_response. destruct (Send _ _) eqn:E; [|done]. intros [= <- <-]. eauto.
Qed.

(** Releasing buckets sends nothing. *)
Lemma abandon_action_outbox id a s : outbox (abandon_action id a s) = outbox s.
Proof. unfold abandon_action, release_bucket. by repeat case_match. Qed.

Lemma abandon_actions_outbox id actions s : outbox (abandon_actions id actions s) = outbox s.
Proof.
  unfold abandon_actions. revert s. induction actions as [|a actions IH]; intros s; cbn; [done|].
  by rewrite IH, abandon_action_outbox.
Qed.

(** A response goes out only when the call succeeds. *)
Lemma consult_engine_outbox Send id reports s :
  outbox (consult_engine Send id reports s).1 = outbox s ∨
  (consult_engine Send id reports s).2 = None ∧
    ∃ actions, outbox (consult_engine Send id reports s).1 = outbox s ++ [(id, mkResponse actions)].
Proof.
  unfold consult_engine. destruct (ProcessUsage _ _ _ _) as [[|a actions]|e]; [by left| |by left].
  unfold send_response. destruct (Send _ _); cbn [fst snd outbox with_sent];
    rewrite abandon_actions_outbox; eauto.
Qed.

Lemma engine_ctx_limits s s' : limits s' = limits s → engine_ctx s' = engine_ctx s.
Proof. unfold engine_ctx. by intros ->. Qed.

(** The response to a message that is handled without error is the engine's
    answer to its reports. *)
Lemma handleMessage_response Send id req s s' ss :
  streams s !! id = Some ss → req_bucket_quota_usages req ≠ [] →
  handleMessage Send id req s = (s', None) →
  ∃ actions,
    ProcessUsage (engine s) (engine_ctx s) (message_domain ss req)
      (usage_report <$> asked (req_bucket_quota_usages req)) = Ok actions ∧
    outbox s' = outbox s ++ match actions with [] => [] | _ => [(id, mkResponse actions)] end.
Proof.
  intros Hid Hne. unfold handleMessage. pose proof (bind_domain_spec id req s ss Hid) as Hspec.
  destruct (bind_domain id req s) as [s1 [e|]]; [done|].
  destruct Hspec as (El & Ee & _ & _ & _ & <- & _ & ss1 & Hid1 & Hb1 & _ & Hd & _).
  rewrite decide_False by done. destruct (_ && _); [done|].
  destruct (handle_usages_result id (req_bucket_quota_usages req) [] s1) as [Ho Hrs].
  pose proof (handle_usages_frame id (req_bucket_quota_usages req) [] s1 ltac:(eauto)) as Hf.
  destruct (handle_usages _ _ _ _) as [s2 [reports|e]]; cbn in *; [|done].
  assert (bound_to id (message_domain ss req) s2) as Hb2
    by (eapply same_binding_bound; [exact Hf|by exists ss1]).
  rewrite (Hrs reports eq_refl), <-Ho. unfold consult_engine.
  change (engine (with_metrics _ s2)) with (engine s2).
  change (engine_ctx (with_metrics _ s2)) with (engine_ctx s2).
  change (get_stream id (with_metrics _ s2)) with (get_stream id s2).
  rewrite (proj2 (bound_to_get _ _ _ Hb2)), (sb_engine _ _ _ Hf), Ee.
  rewrite (engine_ctx_limits s s2) by (by rewrite (sb_limits _ _ _ Hf)).
  destruct (ProcessUsage _ _ _ _) as [[|a actions]|e]; [| |done].
  - intros [= <-]. exists []. by rewrite app_nil_r.
  - unfold send_response. destruct (Send _ _); [done|]. intros [= <-]. exists (a :: actions).
    split; [done|]. cbn [outbox with_sent]. by rewrite abandon_actions_outbox, abandon_action_outbox.
Qed.
End outcomes.

(** ** The store after a message *)
Section recording.
Context `{Regexp, DurationPb} {St : Type} `{BucketStore St} `{GoRange}.
Implicit Types s : RLQSServer St.

(** The reports of one message, recorded one after another. *)
Definition record_all (domain : string) (st : St) (rs : list UsageReport) : St :=
  foldl (λ st r, (RecordUsage StreamContext domain r st).2) st rs.

Lemma subscribe_store id key bid s : store (subscribe id key bid s).1 = store s.
Proof. unfold subscribe. by repeat case_match. Qed.

Lemma handle_usage_recorded id u s d :
  bound_to id d s →
  store (handle_usage id u s).1 =
    match (handle_usage id u s).2 with
    | Ok (Some r) => (RecordUsage StreamContext d r (store s)).2
    | _ => store s
    end.
Proof.
  intros Hb. unfold handle_usage. destruct (usage_bucket_id u) as [bid|]; [|done].
  case_match; [done|]. case_match; [done|].
  pose proof (subscribe_store id (BucketKeyFromProto (Some bid)) bid s) as Est.
  pose proof (subscribe_frame id (BucketKeyFromProto (Some bid)) bid s
    (bound_to_registered _ _ _ Hb)) as Hf.
  destruct (subscribe _ _ _ _) as [s1 [err|]]; cbn in *; [done|].
  rewrite (proj2 (bound_to_get _ _ _ (same_binding_bound _ _ _ _ Hf Hb))). by rewrite Est.
Qed.

(** The loop records the reports of the usages it gets to: all, unless it
    returns an error. *)
Lemma handle_usages_recorded id us reports s d :
  bound_to id d s →
  ∃ rs, rs `prefix_of` (usage_report <$> asked us) ∧
    store (handle_usages id us reports s).1 = record_all d (store s) rs ∧
    (is_ok (handle_usages id us reports s).2 = true → rs = usage_report <$> asked us).
Proof.
  revert reports s. induction us as [|u us IH]; intros reports s Hb; cbn [handle_usages].
  { by exists []. }
  pose proof (handle_usage_recorded id u s d Hb) as Hu.
  pose proof (handle_usage_result id u s) as [Hr _].
  pose proof (handle_usage_frame id u s (bound_to_registered _ _ _ Hb)) as Hf.
  rewrite asked_cons. destruct (handle_usage id u s) as [s1 [[r|]|err]]; cbn in *.
  - destruct Hr as [-> ->]. destruct (IH (reports ++ [usage_report u]) s1) as (rs & Hp & Es & Hall).
    { by eapply same_binding_bound. }
    exists (usage_report u :: rs). split_and!; [by apply prefix_cons|by rewrite Es, Hu|].
    intros Hok. by rewrite (Hall Hok).
  - rewrite Hr. destruct (IH reports s1) as (rs & Hp & Es & Hall); [by eapply same_binding_bound|].
    exists rs. split_and!; [done|by rewrite Es, Hu|done].
  - exists []. split_and!; [apply prefix_nil|done|done].
Qed.

(** An accepted message, answered by an assigning engine, records its reports
    and does nothing else to the store. *)
Lemma message_recorded Send s s' id req ss :
  streams s !! id = Some ss → assigning (engine s) → handleMessage Send id req s = (s', None) →
  store s' = record_all (message_domain ss req) (store s) (usage_report <$> asked (req_bucket_quota_usages req)).
Proof.
  intros Hid He. unfold handleMessage. pose proof (bind_domain_spec id req s ss Hid) as Hspec.
  destruct (bind_domain id req s) as [s1 [e|]]; [done|].
  destruct Hspec as (El & Ee & Est & _ & _ & _ & _ & ss1 & Hid1 & Hb1 & _ & Hd & _).
  rewrite <-Est. case_decide as Hnil; [intros [= <-]; by rewrite Hnil|].
  destruct (_ && _); [done|].
  pose proof (handle_usages_frame id (req_bucket_quota_usages req) [] s1 ltac:(eauto)) as Hf.
  destruct (handle_usages_recorded id (req_bucket_quota_usages req) [] s1 (message_domain ss req))
    as (rs & _ & Eu & Hall); [by exists ss1|].
  destruct (handle_usages _ _ _ _) as [s2 [reports|e]]; cbn in *; [|done].
  rewrite <-(Hall eq_refl), <-Eu. destruct (consult_engine_assigning Send id reports s2) as (actions & s3 & -> & <- & _).
  { by rewrite (sb_engine _ _ _ Hf), Ee. }
  destruct actions; [by intros [= <-]|]. unfold send_response.
  destruct (Send _ _); [done|]. by intros [= <-].
Qed.
End recording.

(** ** The ledger after a message *)
Section accounting.
Context `{Regexp, DurationPb} {St : Type} `{LedgerStore St} `{GoRange}.
Implicit Types s : RLQSServer St.

(** One report entered under a domain. *)
Definition ledger_record (domain : string) (u : gmap string UsageState) (r : UsageReport)
    : gmap string UsageState :=
  <[ report_key domain r :=
       plus_usage (u !! report_key domain r) (NumRequestsAllowed r) (NumRequestsDenied r) ]> u.

Lemma record_all_ledger domain (st : St) rs :
  usage (record_all domain st rs) = foldl (ledger_record domain) (usage st) rs.
Proof.
  unfold record_all. revert st. induction rs as [|r rs IH]; intros st; [done|]. cbn.
  by rewrite IH, (proj2 (record_usage_ledger _ _ _ _)).
Qed.

Lemma handle_usage_entered id u s d :
  bound_to id d s →
  usage (store (handle_usage id u s).1) =
    match (handle_usage id u s).2 with
    | Ok (Some r) => ledger_record d (usage (store s)) r
    | _ => usage (store s)
    end.
Proof.
  intros Hb. rewrite (handle_usage_recorded id u s d Hb). destruct (handle_usage id u s) as [s1 [[r|]|err]]; cbn; [|done..].
  by rewrite (proj2 (record_usage_ledger _ _ _ _)).
Qed.
End accounting.

(** ** Keys of other domains *)
Section isolation.
Context `{Regexp, DurationPb} {St : Type} `{LedgerStore St} `{GoRange}.
Implicit Types s : RLQSServer St.

(** Nothing stored or counted under a key outside domain [d] has changed. *)
Definition foreign_same (d : string) (s s' : RLQSServer St) : Prop :=
  ∀ k, (∀ key, k ≠ DomainScopedKey d key) →
    usage (store s') !! k = usage (store s) !! k ∧ bucketRefs s' !! k = bucketRefs s !! k.

#[local] Instance foreign_same_preorder d : PreOrder (foreign_same d).
Proof.
  split; [by intros s k Hk|]. intros s1 s2 s3 H12 H23 k Hk.
  destruct (H12 k Hk) as [<- <-]. by apply H23.
Qed.

Lemma foreign_same_eq d s s' :
  store s' = store s → bucketRefs s' = bucketRefs s → foreign_same d s s'.
Proof. intros Es Er k _. by rewrite Es, Er. Qed.

Lemma release_bucket_foreign ctx d key s : foreign_same d s (release_bucket ctx d key s).
Proof.
  intros k Hk. specialize (Hk key). unfold release_bucket. case_match; cbn.
  - rewrite (proj2 (remove_bucket_ledger _ _ _ _)), !lookup_delete_ne by done.
    by rewrite lookup_label_add, decide_False by done.
  - by rewrite lookup_label_add, decide_False by done.
Qed.

Lemma subscribe_foreign id d key bid s :
  bound_to id d s → foreign_same d s (subscribe id key bid s).1.
Proof.
  intros (_ & Hd)%bound_to_get k Hk. unfold subscribe. repeat case_match; cbn; try done.
  rewrite Hd. by rewrite lookup_label_add, decide_False.
Qed.

Lemma handle_usage_foreign id u s d :
  bound_to id d s → foreign_same d s (handle_usage id u s).1.
Proof.
  intros Hb. unfold handle_usage. destruct (usage_bucket_id u) as [bid|]; [|done].
  case_match; [done|]. case_match; [done|].
  pose proof (subscribe_foreign id d (BucketKeyFromProto (Some bid)) bid s Hb) as Hs.
  pose proof (subscribe_frame id (BucketKeyFromProto (Some bid)) bid s
    (bound_to_registered _ _ _ Hb)) as Hf.
  destruct (subscribe _ _ _ _) as [s1 [err|]]; cbn in *; [done|].
  etrans; [exact Hs|]. intros k Hk. cbn.
  rewrite (proj2 (bound_to_get _ _ _ (same_binding_bound _ _ _ _ Hf Hb))).
  rewrite (proj2 (record_usage_ledger _ _ _ _)). split; [|done].
  apply lookup_insert_ne. intros <-. by eapply Hk.
Qed.

Lemma handle_usages_foreign id us reports s d :
  bound_to id d s → foreign_same d s (handle_usages id us reports s).1.
Proof.
  revert reports s. induction us as [|u us IH]; intros reports s Hb; cbn; [done|].
  pose proof (handle_usage_foreign id u s d Hb) as Hu.
  pose proof (handle_usage_frame id u s (bound_to_registered _ _ _ Hb)) as Hf.
  destruct (handle_usage id u s) as [s1 [[r|]|err]]; cbn in *; [| |done];
    (etrans; [exact Hu|]); eauto using same_binding_bound.
Qed.

Lemma abandon_actions_foreign id actions s d :
  bound_to id d s → foreign_same d s (abandon_actions id actions s).
Proof.
  unfold abandon_actions. revert s. induction actions as [|a actions IH]; intros s Hb; cbn; [done|].
  pose proof (abandon_action_frame id a s (bound_to_registered _ _ _ Hb)) as Hf.
  etrans; [|by eauto using same_binding_bound].
  unfold abandon_action. destruct (bound_to_get _ _ _ Hb) as [_ ->].
  case_match; [|done]. case_match; [|done].
  etrans; [|by apply foreign_same_eq]. etrans; [|apply release_bucket_foreign]. by apply foreign_same_eq.
Qed.

Lemma consult_engine_foreign Send id reports s d :
  bound_to id d s → foreign_same d s (consult_engine Send id reports s).1.
Proof.
  intros Hb. unfold consult_engine.
  destruct (ProcessUsage _ _ _ _) as [[|a actions]|err]; [by apply foreign_same_eq| |by apply foreign_same_eq].
  etrans; [|apply foreign_same_eq; apply send_response_frame].
  etrans; [|by apply abandon_actions_foreign]. by apply foreign_same_eq.
Qed.

Lemma handleMessage_foreign Send id req s ss :
  streams s !! id = Some ss →
  foreign_same (message_domain ss req) s (handleMessage Send id req s).1.
Proof.
  intros Hid. unfold handleMessage. pose proof (bind_domain_spec id req s ss Hid) as Hspec.
  destruct (bind_domain id req s) as [s1 [err|]]; [by subst; cbn|].
  destruct Hspec as (_ & _ & Est & Er & _ & _ & _ & ss1 & Hid1 & Hb1 & _ & Hd & _).
  etrans; [by apply (foreign_same_eq _ s s1)|].
  assert (bound_to id (message_domain ss req) s1) as Hb by (by exists ss1).
  case_decide; [done|]. destruct (_ && _); [done|].
  pose proof (handle_usages_foreign id (req_bucket_quota_usages req) [] s1 _ Hb) as Hu.
  pose proof (handle_usages_frame id (req_bucket_quota_usages req) [] s1
    (bound_to_registered _ _ _ Hb)) as Hf.
  destruct (handle_usages _ _ _ _) as [s2 [reports|err]]; cbn in *; [|done].
  etrans; [exact Hu|]. apply consult_engine_foreign. by eapply same_binding_bound.
Qed.

Lemma close_stream_streams id s : streams (close_stream id s) = delete id (streams s).
Proof.
  unfold close_stream, cleanupStream. case_match; [|done].
  set (ss := get_stream _ _). generalize ((map_range (subscriptions ss)).*1) as keys. intros keys.
  assert (∀ s0, streams (foldl (cleanup_bucket ss) s0 keys) = streams s0) as Hall; [|by rewrite Hall].
  induction keys as [|k keys IH]; intros s0; cbn; [done|]. rewrite IH. apply cleanup_bucket_fields.
Qed.

Lemma close_stream_foreign id s ss :
  streams s !! id = Some ss → foreign_same (ss_domain ss) s (close_stream id s).
Proof.
  intros Hid. unfold close_stream, cleanupStream.
  change (get_stream id (with_metrics _ s)) with (get_stream id s).
  rewrite (get_stream_Some id ss) by done. case_match; [|by apply foreign_same_eq].
  generalize ((map_range (subscriptions ss)).*1) as keys. intros keys.
  assert (∀ s0, foreign_same (ss_domain ss) s0 (foldl (cleanup_bucket ss) s0 keys)) as Hall.
  { induction keys as [|k keys IH]; intros s0; cbn; [done|]. etrans; [|apply IH].
    unfold cleanup_bucket. etrans; [|apply release_bucket_foreign]. by apply foreign_same_eq. }
  etrans; [|apply Hall]. by apply foreign_same_eq.
Qed.
End isolation.

(** ** Properties *)

(** The demo stream is registered and bound after its first message. *)
Section demo.
#[local] Existing Instance range_in_order.
#[local] Existing Instance durationpb_split.
#[local] Existing Instance literal_regexp.

Definition demo_stream : streamState := get_stream 0 demo_state.

Lemma demo_stream_registered : streams demo_state !! 0 = Some demo_stream.
Proof. vm_compute. reflexivity. Qed.

(** A message for another domain on the bound stream. *)
Definition other_req : RateLimitQuotaUsageReports := mkUsageReports "billing" [].
End demo.

(** C11: errors tell the truth: when a message is refused, the error names a
    condition that holds of the message and the stream, with the numbers of the
    source's text; domain and batch-size errors leave store and reference
    counts alone; an error about a bucket is about the first refused usage: all
    usages before it name no bucket or a valid one the stream is subscribed to,
    and exactly their reports were recorded; and no response is sent. *)
Theorem message_errors_truthful `{Regexp, DurationPb, GoRange} {St} `{BucketStore St}
    Send (s s' : RLQSServer St) id req ss err :
  streams s !! id = Some ss →
  handleMessage Send id req s = (s', Some err) →
  outbox s' = outbox s ∧
  match err with
  | ErrFirstMessageDomain => s' = s ∧ domainBound ss = false ∧ req_domain req = ""
  | ErrDomainMismatch d d' => s' = s ∧ domainBound ss = true ∧
      d = ss_domain ss ∧ d' = req_domain req ∧ d' ≠ "" ∧ d' ≠ d
  | ErrTooManyReports n limit => store s' = store s ∧ bucketRefs s' = bucketRefs s ∧
      limit = maxReportsPerMessage (limits s) ∧
      n = Z.of_nat (length (req_bucket_quota_usages req)) ∧ (0 < limit < n)%Z
  | ErrEngine e =>
      ProcessUsage (engine s) (engine_ctx s) (message_domain ss req)
        (usage_report <$> asked (req_bucket_quota_usages req)) = Err e
  | ErrSend e => ∃ actions,
      ProcessUsage (engine s) (engine_ctx s) (message_domain ss req)
        (usage_report <$> asked (req_bucket_quota_usages req)) = Ok actions ∧
      Send id (mkResponse actions) = Some e
  | ErrRecv _ => False
  | _ => ∃ us1 u us2, req_bucket_quota_usages req = us1 ++ u :: us2 ∧ limits s' = limits s ∧
      Forall (usage_taken s' id) us1 ∧
      store s' = record_all (message_domain ss req) (store s) (usage_report <$> asked us1) ∧
      usage_error_true s' id u err
  end.
Proof.
  intros Hid. unfold handleMessage. pose proof (bind_domain_spec id req s ss Hid) as Hspec.
  destruct (bind_domain id req s) as [s1 [e|]] eqn:Eb.
  { intros [= <- <-]. apply (bind_domain_error id req s ss) in Eb; [|done]. subst s1.
    split; [done|]. destruct e; naive_solver. }
  destruct Hspec as (El & Ee & Est & Er & _ & Eo & _ & ss1 & Hid1 & Hb1 & _ & Hd & _).
  case_decide; [done|]. destruct (_ && _) eqn:Hm.
  { apply andb_true_iff in Hm as [Hm%Z.ltb_lt Hm'%Z.ltb_lt].
    intros [= <- <-]. rewrite El in *. by split_and!. }
  destruct (handle_usages_result id (req_bucket_quota_usages req) [] s1) as [Ho Hrs].
  pose proof (handle_usages_frame id (req_bucket_quota_usages req) [] s1 ltac:(eauto)) as Hf.
  destruct (handle_usages _ _ _ _) as [s2 [reports|e]] eqn:Eu; cbn in *.
  - intros Ec. pose proof (consult_engine_outbox Send id reports s2) as Hout.
    rewrite Ec in Hout; cbn in Hout. split; [naive_solver congruence|].
    apply consult_engine_error in Ec. rewrite (Hrs reports eq_refl) in Ec.
    assert (bound_to id (message_domain ss req) s2) as Hb2
      by (eapply same_binding_bound; [exact Hf|by exists ss1]).
    rewrite (proj2 (bound_to_get _ _ _ Hb2)), (engine_ctx_limits s), (sb_engine _ _ _ Hf), Ee in Ec
      by (by rewrite (sb_limits _ _ _ Hf)).
    by destruct err.
  - intros [= <- <-]. split; [congruence|].
    destruct (handle_usages_error _ _ _ _ _ _ Eu) as (us1 & u & us2 & rs & Hus & Eu1 & Eh).
    apply handle_usage_error in Eh as [_ Ht].
    assert (limits s2 = limits s) as El2 by (by rewrite (sb_limits _ _ _ Hf)).
    destruct (handle_usages_recorded id us1 [] s1 (message_domain ss req)) as (rs' & _ & Est' & Hrs'); [by exists ss1|].
    destruct (handle_usages_taken id us1 [] s1) as [_ Hall]; [by exists ss1|].
    rewrite Eu1, Est in *; cbn in *. rewrite (Hrs' eq_refl) in Est'.
    assert (∃ us1 u us2, req_bucket_quota_usages req = us1 ++ u :: us2 ∧ limits s2 = limits s ∧
      Forall (usage_taken s2 id) us1 ∧
      store s2 = record_all (message_domain ss req) (store s) (usage_report <$> asked us1) ∧
      usage_error_true s2 id u e) by (exists us1, u, us2; split_and!; auto).
    by destruct e; try (by destruct Ht).
Qed.

Lemma message_errors_truthful_witness :
  outbox demo_state = outbox demo_state ∧ demo_state = demo_state ∧ domainBound demo_stream = true ∧
  "api" = ss_domain demo_stream ∧ "billing" = "billing" ∧ "billing" ≠ "" ∧ "billing" ≠ "api".
Proof.
  apply (@message_errors_truthful literal_regexp durationpb_split range_in_order MemoryStorage _
    send_ok demo_state demo_state 0 other_req demo_stream (ErrDomainMismatch "api" "billing")).
  - exact demo_stream_registered.
  - vm_compute. reflexivity.
Defined.

(** Usage is accounted exactly: an accepted message, answered by an
    assigning engine, adds to the ledger the reports of its non-empty usages,
    in order, each under the domain of the stream and the key of its bucket,
    and changes nothing else there. *)
Theorem message_accounted `{Regexp, DurationPb, GoRange} {St} `{LedgerStore St}
    Send (s s' : RLQSServer St) id req ss :
  streams s !! id = Some ss → assigning (engine s) →
  handleMessage Send id req s = (s', None) →
  usage (store s') = foldl (ledger_record (message_domain ss req)) (usage (store s))
    (usage_report <$> asked (req_bucket_quota_usages req)).
Proof.
  intros Hid He Hm. rewrite (message_recorded Send s s' id req ss Hid He Hm). apply record_all_ledger.
Qed.

Lemma message_accounted_witness :
  ∃ s', @handleMessage literal_regexp MemoryStorage _ range_in_order durationpb_split send_ok 0
          demo_req (open_stream 0 demo_server) = (s', None) ∧
  usage (store s') = foldl (@ledger_record range_in_order (message_domain new_stream demo_req))
    (usage (store (open_stream 0 demo_server))) (@usage_report durationpb_split <$> asked (req_bucket_quota_usages demo_req)).
Proof.
  destruct (@handleMessage literal_regexp MemoryStorage _ range_in_order durationpb_split send_ok 0
    demo_req (open_stream 0 demo_server)) as [s' [err|]] eqn:E; [vm_compute in E; discriminate|].
  exists s'. split; [reflexivity|].
  apply (@message_accounted literal_regexp durationpb_split range_in_order MemoryStorage _ _ send_ok
    (open_stream 0 demo_server) s' 0 demo_req new_stream).
  - reflexivity.
  - apply DefaultEngine_assigning.
  - exact E.
Defined.

(** C18: tenants are isolated, as long as domains are free of the separator byte:
    with a ledger store (the in-memory one) and two different non-empty domains
    without that byte, handling a message of a stream of the one, or closing the
    stream, changes no stored usage and no reference count of a bucket of the
    other, and touches no other stream. *)
Theorem domains_isolated `{Regexp, DurationPb, GoRange} {St} `{LedgerStore St}
    Send (s s' : RLQSServer St) id req ss d d0 key :
  streams s !! id = Some ss →
  (s' = (handleMessage Send id req s).1 ∧ d0 = message_domain ss req ∨
   s' = close_stream id s ∧ d0 = ss_domain ss) →
  d ≠ d0 → d ≠ "" → d0 ≠ "" → has_byte us_byte d = false → has_byte us_byte d0 = false →
  usage (store s') !! DomainScopedKey d key = usage (store s) !! DomainScopedKey d key ∧
  bucketRefs s' !! DomainScopedKey d key = bucketRefs s !! DomainScopedKey d key ∧
  (∀ id', id' ≠ id → streams s' !! id' = streams s !! id').
Proof.
  intros Hid Hs' Hne Hd Hd0 Hb Hb0. apply and_assoc. split.
  - assert (foreign_same d0 s s') as Hf.
    { destruct Hs' as [[-> ->]|[-> ->]]; [by apply handleMessage_foreign|by apply close_stream_foreign]. }
    apply Hf. intros key' Heq. apply DomainScopedKey_inj_domain in Heq as [? _]; done.
  - intros id' Hid'. destruct Hs' as [[-> _]|[-> _]].
    + apply handleMessage_frame; eauto.
    + rewrite close_stream_streams. by apply lookup_delete_ne.
Qed.

Lemma domains_isolated_witness :
  let s' := @close_stream literal_regexp MemoryStorage _ range_in_order 0 demo_state in
  usage (store s') !! DomainScopedKey "billing" "k" = usage (store demo_state) !! DomainScopedKey "billing" "k" ∧
  bucketRefs s' !! DomainScopedKey "billing" "k" = bucketRefs demo_state !! DomainScopedKey "billing" "k" ∧
  (∀ id', id' ≠ 0 → streams s' !! id' = streams demo_state !! id').
Proof.
  apply (@domains_isolated literal_regexp durationpb_split range_in_order MemoryStorage _ _ send_ok
    demo_state _ 0 other_req demo_stream "billing" "api" "k").
  - exact demo_stream_registered.
  - right. split; [reflexivity|]. vm_compute. reflexivity.
  - discriminate.
  - discriminate.
  - discriminate.
  - reflexivity.
  - reflexivity.
Defined.

Lemma one_entry_not_empty k v : empty_bucket (Some (mkBucketId {[k := v]})) = false.
Proof. unfold empty_bucket. cbn. by rewrite map_size_singleton. Qed.

(** C19: tenants with the separator byte in their domain are not isolated:
    domains are neither validated nor escaped, so an accepted message of a
    stream of a non-empty domain [d] that reports on a bucket whose key is [x], the byte and
    [k] adds its counts to the usage of bucket [k] of the other domain made of
    [d], the byte and [x]. *)
Theorem separator_domains_collide `{Regexp, DurationPb, GoRange} {St} `{LedgerStore St}
    Send (s s' : RLQSServer St) id req ss x k v u :
  streams s !! id = Some ss → message_domain ss req ≠ "" → assigning (engine s) →
  req_bucket_quota_usages req = [u] →
  usage_bucket_id u = Some (mkBucketId {[x +:+ String us_byte k := v]}) →
  handleMessage Send id req s = (s', None) →
  let victim := message_domain ss req +:+ String us_byte x in
  let stored st := usage st !! DomainScopedKey victim (BucketKeyFromProto (Some (mkBucketId {[k := v]}))) in
  victim ≠ message_domain ss req ∧
  stored (store s') = Some (plus_usage (stored (store s))
    (usage_num_requests_allowed u) (usage_num_requests_denied u)).
Proof.
  intros Hid Hd He Hus Hu Hm. cbn zeta. pose proof (message_recorded Send s s' id req ss Hid He Hm) as Er.
  apply (f_equal usage) in Er. rewrite record_all_ledger, Hus in Er.
  split.
  { intros E. apply (f_equal String.length) in E. rewrite string_length_app in E. cbn in E. lia. }
  rewrite Er. unfold asked. rewrite filter_cons_True by (rewrite Hu; apply one_entry_not_empty). cbn. unfold ledger_record, report_key.
  cbn [usage_report report_bucket_id NumRequestsAllowed NumRequestsDenied].
  by rewrite Hu, DomainScopedKey_shift, lookup_insert_eq.
Qed.

(** The byte in a bucket's key of domain "a" reaches domain "a", byte, "x". *)
Definition shifted_req : RateLimitQuotaUsageReports :=
  mkUsageReports "a" [mkBucketQuotaUsage (Some (mkBucketId {["x" +:+ String us_byte "y" := "v"]})) None 5 1].

Lemma separator_domains_collide_witness :
  ∃ s', @handleMessage literal_regexp MemoryStorage _ range_in_order durationpb_split send_ok 0
          shifted_req (open_stream 0 demo_server) = (s', None) ∧
    usage (store s') !! DomainScopedKey ("a" +:+ String us_byte "x")
      (@BucketKeyFromProto range_in_order (Some (mkBucketId {["y" := "v"]}))) = Some (mkUsageState 5 1).
Proof.
  destruct (@handleMessage literal_regexp MemoryStorage _ range_in_order durationpb_split send_ok 0
    shifted_req (open_stream 0 demo_server)) as [s' [err|]] eqn:E; [vm_compute in E; discriminate|].
  exists s'. split; [reflexivity|].
  refine (eq_trans (proj2 (@separator_domains_collide literal_regexp durationpb_split range_in_order MemoryStorage _ _
    send_ok (open_stream 0 demo_server) s' 0 shifted_req new_stream "x" "y" "v" _ eq_refl _ _ eq_refl eq_refl E)) _).
  - discriminate.
  - apply DefaultEngine_assigning.
  - vm_compute. reflexivity.
Defined.

(** C16: a push reaches exactly the subscribers: with an assigning engine and
    sends that succeed, every bound stream with subscriptions receives exactly
    one response, made of one assignment for each of its buckets; no other
    stream receives anything; and nothing but counters changes. *)
Theorem push_reaches_subscribers `{Regexp, DurationPb, GoRange} {St} `{BucketStore St}
    Send e (s : RLQSServer St) :
  server_reachable s → assigning e → (∀ i r, Send i r = None) →
  ∃ pushed, outbox (pushAssignments Send e s) = outbox s ++ pushed ∧ NoDup pushed.*1 ∧
    (∀ id, id ∈ pushed.*1 ↔
       ∃ ss, streams s !! id = Some ss ∧ domainBound ss = true ∧ subscriptions ss ≠ ∅) ∧
    (∀ id r, (id, r) ∈ pushed → ∃ ss, streams s !! id = Some ss ∧
       action_bucket_id <$> resp_bucket_action r ≡ₚ Some <$> (map_to_list (subscriptions ss)).*2 ∧
       Forall is_assignment (resp_bucket_action r)) ∧
    streams (pushAssignments Send e s) = streams s ∧ store (pushAssignments Send e s) = store s ∧
    bucketRefs (pushAssignments Send e s) = bucketRefs s.
Proof.
  intros Hr%server_inv_reachable He Hsend. exists (omap (push_response e s) (map_range (streams s)).*1).
  destruct (pushAssignments_frame Send e s) as (-> & _ & _ & -> & -> & _).
  pose proof (λ id ss, push_response_assigning (limits s) e s id ss He Hr) as Hp.
  split_and!; try done.
  - by apply pushAssignments_outbox.
  - apply omap_keys_NoDup; [apply NoDup_fst_map_range|].
    intros id id' r E. unfold push_response in E. repeat case_match; by simplify_eq.
  - intros id. split.
    + intros ([id' r] & -> & (id0 & Hid & E)%list_elem_of_omap)%list_elem_of_fmap.
      apply elem_of_map_range_fst in Hid as [ss Hid]. specialize (Hp id0 ss Hid).
      rewrite E in Hp. cbn. destruct Hp as (-> & [? ?] & _). eauto.
    + intros (ss & Hid & Hb & Hs). specialize (Hp id ss Hid).
      destruct (push_response e s id) as [[id' r]|] eqn:E; [|naive_solver].
      destruct Hp as (-> & _). apply list_elem_of_fmap. exists (id, r). split; [done|].
      apply list_elem_of_omap. exists id. split; [apply elem_of_map_range_fst; eauto|done].
  - intros id r (id' & Hid & E)%list_elem_of_omap. apply elem_of_map_range_fst in Hid as [ss Hid].
    specialize (Hp id' ss Hid). rewrite E in Hp. destruct Hp as (-> & _ & ? & ?). eauto.
Qed.

Lemma push_reaches_subscribers_witness :
  ∃ pushed,
    outbox (@pushAssignments literal_regexp MemoryStorage range_in_order send_ok demo_engine demo_state) =
      outbox demo_state ++ pushed ∧ NoDup pushed.*1.
Proof.
  destruct (@push_reaches_subscribers literal_regexp durationpb_split range_in_order MemoryStorage _
    send_ok demo_engine demo_state demo_reachable) as (pushed & Ho & Hnd & _).
  - apply DefaultEngine_assigning.
  - reflexivity.
  - exists pushed. split; [exact Ho|exact Hnd].
Defined.
