(* ===== verification/Grpc.v ===== *)
(** * The gRPC server around the handlers (internal/server/server.go)

    The stream interceptors with their order, a stream handler whose engine may
    panic, the server options, and the wrapper [Server] with its health
    statuses. The gRPC, Prometheus and health libraries are the classes
    [GrpcStreams] and [Health]: their operations are parameters, and the laws
    are what their documentation says of them. *)
From S2P Require Import Prelude GoStd Proto BucketKey Storage Config Quota DomainClassifier.
From S2P Require Import Server ServerInv ServerProps ServerMessages.

Definition serviceName : string := "envoy.service.rate_limit_quota.v3.RateLimitQuotaService".

(** The error of an RPC: one of the handler, or that of a recovered panic. *)
Inductive stream_error := HandlerError (err : rpc_error) | InternalServerError (v : string).

Definition stream_error_code (e : stream_error) : option Code :=
  match e with HandlerError err => status_code err | InternalServerError _ => Some Internal end.

(** The calls of the logger. *)
Inductive log_entry :=
| LogPanic (method v : string)
| LogStarted (method : string)
| LogCompletedWithError (method : string) (err : stream_error)
| LogCompleted (method : string).

(** What an RPC works on. *)
Record call `{Regexp} (St : Type) := mkCall { call_server : RLQSServer St; call_log : list log_entry }.
Arguments mkCall {_ _} _ _.
Arguments call_server {_ _} _.
Arguments call_log {_ _} _.

Definition StreamHandler `{Regexp} (St : Type) : Type := call St → call St * outcome stream_error.

(** An interceptor gets the method's name and the handler it wraps. *)
Definition StreamServerInterceptor `{Regexp} (St : Type) : Type := string → StreamHandler St → StreamHandler St.

Definition log `{Regexp} {St : Type} (e : log_entry) (c : call St) : call St :=
  mkCall (call_server c) (call_log c ++ [e]).

Definition recoveryStreamInterceptor `{Regexp} {St : Type} : StreamServerInterceptor St := λ method handler c,
  match handler c with
  | (c, Panicked v) => (log (LogPanic method v) c, Returned (Some (InternalServerError v)))
  | (c, Returned err) => (c, Returned err)
  end.

Definition loggingStreamInterceptor `{Regexp} {St : Type} : StreamServerInterceptor St := λ method handler c,
  match handler (log (LogStarted method) c) with
  | (c, Returned (Some err)) => (log (LogCompletedWithError method err) c, Returned (Some err))
  | (c, Returned None) => (log (LogCompleted method) c, Returned None)
  | (c, Panicked v) => (c, Panicked v)
  end.

(** What the code relies on of grpc-go and of go-grpc-prometheus: interceptors
    are chained with the first one outermost, and the Prometheus interceptor
    calls the handler and passes on what it returns. *)
Class GrpcStreams `{Regexp} (St : Type) := {
  ChainStreamInterceptor : list (StreamServerInterceptor St) → StreamServerInterceptor St;
  prometheus_StreamServerInterceptor : StreamServerInterceptor St;
  chain_first_outermost l method handler c :
    ChainStreamInterceptor l method handler c =
      foldr (λ (i : StreamServerInterceptor St) h, i method h) handler l c;
  prometheus_passes_on method handler c c' err :
    handler c = (c', Returned err) →
    prometheus_StreamServerInterceptor method handler c = (c', Returned err);
}.

(** ** Server options *)
Inductive server_option `{Regexp} (St : Type) :=
| OptMaxConcurrentStreams (n : Z)
| OptKeepaliveParams (MaxConnectionIdle Time Timeout : Z)
| OptKeepaliveEnforcementPolicy (MinTime : Z) (PermitWithoutStream : bool)
| OptStatsHandler
| OptChainStreamInterceptor (l : list (StreamServerInterceptor St))
| OptChainUnaryInterceptor.
Arguments OptMaxConcurrentStreams {_ _} _.
Arguments OptKeepaliveParams {_ _} _ _ _.
Arguments OptKeepaliveEnforcementPolicy {_ _} _ _.
Arguments OptStatsHandler {_ _}.
Arguments OptChainStreamInterceptor {_ _} _.
Arguments OptChainUnaryInterceptor {_ _}.

Definition DefaultServerOptions `{GrpcStreams St} (cfg : ServerConfig) : list (server_option St) :=
  [OptMaxConcurrentStreams (MaxConcurrentStreams cfg);
   OptKeepaliveParams (KeepaliveMaxIdleTime cfg) (KeepalivePingInterval cfg) (KeepalivePingTimeout cfg);
   OptKeepaliveEnforcementPolicy (30 * second) true;
   OptStatsHandler;
   OptChainStreamInterceptor
     [prometheus_StreamServerInterceptor; loggingStreamInterceptor; recoveryStreamInterceptor];
   OptChainUnaryInterceptor].

(** The stream interceptor a list of options installs. *)
Definition stream_interceptors `{Regexp} {St : Type} (opts : list (server_option St))
    : list (StreamServerInterceptor St) :=
  mjoin (omap (λ o, match o with OptChainStreamInterceptor l => Some l | _ => None end) opts).

(** ** The handler as the interceptors see it *)
Section handler.
Context `{Regexp, DurationPb, GoRange} {St : Type} `{BucketStore St}.
Context (Panics : GoContext → string → list UsageReport → option string).

Definition stream_handler (id : nat)
    (msgs : list ((nat → RateLimitQuotaResponse → option error) * RateLimitQuotaUsageReports))
    (last : option error) : StreamHandler St := λ c,
  let '(s, o) := StreamRateLimitQuotas_p Panics id msgs last (call_server c) in
  (mkCall s (call_log c),
   match o with Returned err => Returned (HandlerError <$> err) | Panicked v => Panicked v end).

End handler.

(** ** The wrapper

    [Health]: the health service keeps one status per service name. *)
Inductive ServingStatus := UNKNOWN | SERVING | NOT_SERVING | SERVICE_UNKNOWN.

Class Health := {
  health_Server : Type;
  health_NewServer : health_Server;
  SetServingStatus : string → ServingStatus → health_Server → health_Server;
  health_status : string → health_Server → option ServingStatus;
  status_set service status h : health_status service (SetServingStatus service status h) = Some status;
  status_set_ne service service' status h :
    service ≠ service' → health_status service' (SetServingStatus service status h) = health_status service' h;
}.

(** [GrpcServer]: a server that was told to stop, gracefully or not, accepts no
    more RPCs, also when it is told to serve afterwards. *)
Class GrpcServer := {
  grpc_Server : Type;
  grpc_NewServer : grpc_Server;
  grpc_Serve : grpc_Server → grpc_Server;
  grpc_GracefulStop : grpc_Server → grpc_Server;   (* from the moment it is called *)
  grpc_Stop : grpc_Server → grpc_Server;
  accepts : grpc_Server → bool;
  stopping : grpc_Server → bool;
  stopping_graceful g : stopping (grpc_GracefulStop g) = true;
  stopping_stop g : stopping (grpc_Stop g) = true;
  stopping_serve g : stopping (grpc_Serve g) = stopping g;
  stopping_refuses g : stopping g = true → accepts g = false;
}.

Record Server `{Regexp, Health, GrpcServer} (St : Type) := mkServer {
  grpcServer : grpc_Server;
  healthServer : health_Server;
  rlqsServer : RLQSServer St;
}.
Arguments mkServer {_ _ _ _} _ _ _.
Arguments grpcServer {_ _ _ _} _.
Arguments healthServer {_ _ _ _} _.
Arguments rlqsServer {_ _ _ _} _.

Section wrapper.
Context `{Regexp, Health, GrpcServer} {St : Type}.

Definition New_Server (st : St) (e : Engine) (cfg : ServerConfig) (classifier : option DomainClassifier)
    : Server St :=
  mkServer grpc_NewServer health_NewServer (NewRLQS st e cfg classifier).

(** [Register]: the service alone on a gRPC server, with the default classifier. *)
Definition Register (st : St) (e : Engine) (cfg : ServerConfig) : RLQSServer St := NewRLQS st e cfg None.

Definition GRPCServer (s : Server St) : grpc_Server := grpcServer s.

Definition with_rlqs (f : RLQSServer St → RLQSServer St) (s : Server St) : Server St :=
  mkServer (grpcServer s) (healthServer s) (f (rlqsServer s)).

Definition Server_SwapEngine (e : Engine) (s : Server St) : option (Server St) :=
  r ← SwapEngine e (rlqsServer s); Some (with_rlqs (λ _, r) s).

Definition Server_SwapDomainClassifier (c : DomainClassifier) : Server St → Server St :=
  with_rlqs (SwapDomainClassifier c).

Definition Server_StreamStats `{GoRange} (s : Server St) : list (string * nat) := StreamStats (rlqsServer s).

Definition set_status (status : ServingStatus) (h : health_Server) : health_Server :=
  SetServingStatus serviceName status (SetServingStatus "" status h).

(** [Serve] and [GracefulStop], up to the blocking call. *)
Definition Serve (s : Server St) : Server St :=
  mkServer (grpc_Serve (grpcServer s)) (set_status SERVING (healthServer s)) (rlqsServer s).

Definition GracefulStop (s : Server St) : Server St :=
  mkServer (grpc_GracefulStop (grpcServer s)) (set_status NOT_SERVING (healthServer s)) (rlqsServer s).

Definition Stop (s : Server St) : Server St :=
  mkServer (grpc_Stop (grpcServer s)) (healthServer s) (rlqsServer s).

Lemma set_status_service status h :
  health_status serviceName (set_status status h) = Some status ∧ health_status "" (set_status status h) = Some status.
Proof.
  unfold set_status. rewrite status_set, status_set_ne, status_set by done. done.
Qed.
End wrapper.

(** ** What a client and the log see of an RPC *)
Definition rpc_result (o : outcome rpc_error) : option stream_error :=
  match o with Returned err => HandlerError <$> err | Panicked v => Some (InternalServerError v) end.

Definition rpc_entries (method : string) (o : outcome rpc_error) : list log_entry :=
  LogStarted method ::
  match o with
  | Returned None => [LogCompleted method]
  | Returned (Some e) => [LogCompletedWithError method (HandlerError e)]
  | Panicked v => [LogPanic method v; LogCompletedWithError method (InternalServerError v)]
  end.

Lemma intercepted `{Regexp, DurationPb, GoRange} {St} `{BucketStore St} Panics method id msgs last (c : call St) :
  let r := StreamRateLimitQuotas_p Panics id msgs last (call_server c) in
  loggingStreamInterceptor method (recoveryStreamInterceptor method (stream_handler Panics id msgs last)) c =
    (mkCall r.1 (call_log c ++ rpc_entries method r.2), Returned (rpc_result r.2)).
Proof.
  unfold loggingStreamInterceptor, recoveryStreamInterceptor, stream_handler. cbn [log call_server call_log].
  destruct (StreamRateLimitQuotas_p _ _ _ _ _) as [s' [[e|]|v]]; unfold log; cbn; by rewrite <- !app_assoc.
Qed.

(** ** Properties *)

(** C13: a panic stays in its RPC: behind the interceptors, in the order the
    options install them, whatever the client sends and whichever call of the
    engine panics, the RPC returns; the registered streams, the reference
    counts and the gauges are as before it; the error is an internal one naming
    the panic when the handler panicked, and the handler's error otherwise; the
    log has the start, the panic if there was one, and the end of the RPC; and
    without panics the RPC is the plain stream handler. *)
Theorem panic_contained `{Regexp, DurationPb, GoRange} {St} `{BucketStore St} `{!GrpcStreams St}
    Panics cfg method id msgs last (c : call St) :
  server_reachable (call_server c) → streams (call_server c) !! id = None →
  let s := call_server c in
  let o := (StreamRateLimitQuotas_p Panics id msgs last s).2 in
  ∃ s',
    ChainStreamInterceptor (stream_interceptors (DefaultServerOptions cfg)) method
      (stream_handler Panics id msgs last) c =
        (mkCall s' (call_log c ++ rpc_entries method o), Returned (rpc_result o)) ∧
    (streams s' = streams s ∧ bucketRefs s' = bucketRefs s ∧
     ActiveStreams (metrics s') = ActiveStreams (metrics s) ∧
     ∀ label, default 0%Z (ActiveBuckets (metrics s') !! label) =
              default 0%Z (ActiveBuckets (metrics s) !! label)) ∧
    ((∀ ctx domain reports, Panics ctx domain reports = None) →
     StreamRateLimitQuotas id msgs last s = (s', (StreamRateLimitQuotas id msgs last s).2) ∧
     o = Returned (StreamRateLimitQuotas id msgs last s).2).
Proof.
  intros Hinv%server_inv_reachable Hid. cbn zeta. eexists. split; [|split].
  - rewrite chain_first_outermost. apply prometheus_passes_on. cbn [foldr]. apply intercepted.
  - unfold StreamRateLimitQuotas_p.
    destruct (recv_loop_p_inv _ Panics id msgs last _ (open_stream_inv _ id _ Hinv Hid)
      (open_stream_registered id (call_server c))) as (Hinv2 & Hid2 & Ho).
    destruct (recv_loop_p _ _ _ _ _) as [s2 o]; cbn [fst] in *. by eapply close_restores.
  - intros Hcalm. unfold StreamRateLimitQuotas_p, StreamRateLimitQuotas. rewrite recv_loop_p_calm by done.
    by destruct (recv_loop _ _ _ _).
Qed.

(** The documented behaviour of the libraries, as functions. *)
#[local] Existing Instance literal_regexp.

Definition plain_grpc : GrpcStreams MemoryStorage.
Proof.
  refine {| ChainStreamInterceptor l method handler :=
              foldr (λ (i : StreamServerInterceptor MemoryStorage) h, i method h) handler l;
            prometheus_StreamServerInterceptor method handler := handler |}.
  - done.
  - done.
Defined.

(** The engine panics at the second client's first message. *)
Lemma panic_contained_witness :
  ∃ s', @ChainStreamInterceptor literal_regexp MemoryStorage plain_grpc
          (stream_interceptors (@DefaultServerOptions _ _ plain_grpc (cfg_Server default_config))) serviceName
          (@stream_handler _ durationpb_split range_in_order _ _ (λ _ _ _, Some "boom") 1 [(send_ok, demo_req)] None)
          (mkCall demo_state []) =
        (mkCall s' [LogStarted serviceName; LogPanic serviceName "boom";
                    LogCompletedWithError serviceName (InternalServerError "boom")],
         Returned (Some (InternalServerError "boom"))) ∧
    bucketRefs s' = bucketRefs demo_state.
Proof.
  destruct (@panic_contained literal_regexp durationpb_split range_in_order MemoryStorage _ plain_grpc
    (λ _ _ _, Some "boom") (cfg_Server default_config) serviceName 1 [(send_ok, demo_req)] None
    (mkCall demo_state []) demo_reachable ltac:(vm_compute; reflexivity)) as (s' & Es & (_ & Er & _) & _).
  exists s'. split; [|exact Er]. etrans; [exact Es|].
  assert ((@StreamRateLimitQuotas_p literal_regexp durationpb_split range_in_order MemoryStorage _
    (λ _ _ _, Some "boom") 1 [(send_ok, demo_req)] None demo_state).2 = Panicked "boom") as Ep
    by (vm_compute; reflexivity).
  cbn [call_server]. rewrite Ep. reflexivity.
Defined.
