(* ===== verification/Refinement.v ===== *)
(** * The server refines the service

    An abstraction function from the state of Server.v to the abstract service,
    and the proof that every handler is a sequence of events of the
    specification: reference counting, the order of removals, metrics, limits
    and the engine are implementation. Proved against the interface
    [LedgerStore]. *)
From S2P Require Import Prelude GoStd Proto BucketKey Storage Service Config Quota DomainClassifier.
From S2P Require Import Server ServerInv ServerProps ServerMessages.

Section refinement.
Context `{Regexp, DurationPb} {St : Type} `{LedgerStore St}.
Implicit Types s : RLQSServer St.

Definition abs_client (ss : streamState) : Client :=
  mkClient (if domainBound ss then Some (ss_domain ss) else None) (scoped_subs ss).

Definition abs (s : RLQSServer St) : Service := mkService (abs_client <$> streams s) (usage (store s)).

(** The invariants under which the simulation holds. *)
Definition good (l : Limits) (s : RLQSServer St) : Prop := server_inv l s ∧ ledger_inv s.

(** [s'] follows from [s] by the events [es] of the specification. *)
Definition simulated (es : list event) (s s' : RLQSServer St) : Prop := execs es (abs s) = Some (abs s').

Lemma simulated_nil s s' : streams s' = streams s → store s' = store s → simulated [] s s'.
Proof. unfold simulated, abs. by intros -> ->. Qed.

Lemma simulated_app es es' s1 s2 s3 :
  simulated es s1 s2 → simulated es' s2 s3 → simulated (es ++ es') s1 s3.
Proof. unfold simulated. intros E1 E2. by rewrite execs_app, E1. Qed.

Lemma simulated_same es s s' s'' :
  streams s'' = streams s' → store s'' = store s' → simulated es s s' → simulated es s s''.
Proof. unfold simulated, abs. by intros -> ->. Qed.

Lemma simulated_one e s s' : exec e (abs s) = Some (abs s') → simulated [e] s s'.
Proof. unfold simulated. cbn. by intros ->. Qed.

Lemma simulated_one_inv e s s' : simulated [e] s s' → exec e (abs s) = Some (abs s').
Proof. unfold simulated. cbn. by destruct (exec e (abs s)). Qed.

Lemma abs_same s s' : streams s' = streams s → store s' = store s → abs s' = abs s.
Proof. unfold abs. by intros -> ->. Qed.

Lemma abs_lookup id ss s : streams s !! id = Some ss → sv_clients (abs s) !! id = Some (abs_client ss).
Proof. intros Hid. cbn. by rewrite lookup_fmap, Hid. Qed.

Lemma abs_client_bound ss :
  domainBound ss = true → abs_client ss = mkClient (Some (ss_domain ss)) (scoped_subs ss).
Proof. intros Hb. unfold abs_client. by rewrite Hb. Qed.

(** Being subscribed, in the abstract and by reference count. *)
Lemma elem_of_abs_subs k s : k ∈ all_subs (sv_clients (abs s)) ↔ (0 < ref_count k (streams s))%Z.
Proof.
  rewrite elem_of_all_subs, ref_count_pos. cbn. split.
  - intros (id & c & Hid & Hk). apply lookup_fmap_Some in Hid as (ss & <- & Hid). eauto.
  - intros (id & ss & Hid & Hk). exists id, (abs_client ss). by rewrite lookup_fmap, Hid.
Qed.

Lemma abs_live l s : good l s → ledger_live (abs s).
Proof.
  intros [Hinv Hl]. unfold ledger_live. apply set_eq. intros k. rewrite elem_of_abs_subs. cbn.
  unfold ledger_inv in Hl. rewrite Hl, elem_of_dom, (bk_refs _ _ _ (inv_books _ _ Hinv)).
  pose proof (ref_count_nonneg k (streams s)). unfold of_count.
  destruct (Z.eqb_spec (ref_count k (streams s)) 0); [split; [by intros []|lia]|split; [lia|by eauto]].
Qed.

(** A handler that only removes from the store, and leaves a good state, has
    pruned the ledger. *)
Lemma removed_is_pruned l s s' :
  good l s' → usage (store s') ⊆ usage (store s) →
  usage (store s') = prune (sv_clients (abs s')) (usage (store s)).
Proof.
  intros Hgood Hsub. apply map_eq. intros k. apply option_eq. intros st. rewrite prune_lookup_Some.
  pose proof (abs_live l s' Hgood) as Hlive. unfold ledger_live in Hlive. split.
  - intros Hk. split; [by eapply lookup_weaken|]. rewrite <-Hlive. apply elem_of_dom. eauto.
  - intros [Hk Hin]. rewrite <-Hlive in Hin. apply elem_of_dom in Hin as [st' Hst']. cbn in Hst'.
    pose proof (lookup_weaken _ _ _ _ Hst' Hsub). congruence.
Qed.

Lemma release_bucket_removes `{GoRange} ctx d key s :
  usage (store (release_bucket ctx d key s)) ⊆ usage (store s).
Proof.
  unfold release_bucket. case_match; [|done]. cbn.
  rewrite (proj2 (remove_bucket_ledger _ _ _ _)). apply delete_subseteq.
Qed.

(** ** One event per action *)
Lemma open_simulated id s : streams s !! id = None → simulated [EvOpen id] s (open_stream id s).
Proof.
  intros Hid. apply simulated_one. cbn. rewrite lookup_fmap, Hid. cbn. unfold abs; cbn.
  rewrite fmap_insert. unfold abs_client, new_stream; cbn.
  by rewrite (scoped_subs_empty (mkStreamState "" "" false ∅)).
Qed.

Lemma bind_simulated l id req s s' ss :
  server_inv l s → streams s !! id = Some ss → bind_domain id req s = (s', None) →
  ∃ es, Forall (λ e, event_id e = id) es ∧ reported es = [] ∧ simulated es s s'.
Proof.
  intros Hinv Hid. unfold bind_domain. rewrite (get_stream_Some id ss) by done.
  destruct (domainBound ss) eqn:Hb.
  - case_decide; [done|]. intros [= <-]. exists []. split_and!; [constructor|done|by apply simulated_nil].
  - case_decide as Hd; [done|]. destruct (Classify _ _) as [label c]. intros [= <-].
    exists [EvBind id (req_domain req)]. split_and!; [by repeat constructor|done|]. apply simulated_one. cbn.
    rewrite lookup_fmap, Hid. cbn. unfold abs_client at 1. rewrite Hb, decide_False by done.
    unfold abs; cbn. rewrite fmap_insert. unfold abs_client at 2; cbn.
    rewrite (ok_unbound _ _ (inv_streams _ _ Hinv id ss Hid) Hb).
    by rewrite !scoped_subs_empty.
Qed.

Lemma usage_simulated `{GoRange} id u s d :
  bound_to id d s →
  match handle_usage id u s with
  | (s', Ok (Some r)) =>
      simulated [EvReport id (BucketKeyFromProto (usage_bucket_id u))
                   (usage_num_requests_allowed u) (usage_num_requests_denied u)] s s'
  | (s', _) => s' = s
  end.
Proof.
  intros Hb. pose proof (handle_usage_entered id u s d Hb) as Hu. revert Hu.
  destruct Hb as (ss & Hid & Hbound & <-).
  unfold handle_usage. destruct (usage_bucket_id u) as [bid|] eqn:Hbid; [|done].
  case_match; [done|]. case_match; [done|]. set (key := BucketKeyFromProto (Some bid)).
  unfold subscribe. rewrite (get_stream_Some id ss) by done.
  destruct (subscriptions ss !! key) as [bid'|] eqn:Hkey; [|destruct (_ && _); [done|]];
    cbn; intros Hu; apply simulated_one; cbn; rewrite lookup_fmap, Hid; cbn;
    unfold abs_client at 1; rewrite ?Hbound in Hu; rewrite Hbound; unfold abs; cbn; rewrite Hu;
    unfold ledger_record, report_key; cbn; rewrite Hbid; fold key.
  - assert ({[DomainScopedKey (ss_domain ss) key]} ∪ scoped_subs ss = scoped_subs ss) as ->.
    { pose proof (proj2 (elem_of_scoped_subs_key key ss)) as Hin.
      rewrite Hkey in Hin. specialize (Hin ltac:(eauto)). set_solver. }
    do 2 f_equal. apply insert_id. rewrite lookup_fmap, Hid. cbn. unfold abs_client. by rewrite Hbound.
  - rewrite fmap_insert. unfold abs_client at 2; cbn. do 3 f_equal.
    rewrite <-(scoped_subs_add key bid ss). unfold add_sub. by rewrite Hbound.
Qed.

(** What a message asks to report: usages without a bucket are skipped. *)
Definition usage_triple `{GoRange} (u : BucketQuotaUsage) : BucketKey * Z * Z :=
  (BucketKeyFromProto (usage_bucket_id u), usage_num_requests_allowed u, usage_num_requests_denied u).

Lemma usages_simulated `{GoRange} id us reports s d :
  bound_to id d s →
  ∃ es, Forall (λ e, event_id e = id) es ∧ simulated es s (handle_usages id us reports s).1 ∧
    reported es `prefix_of` (usage_triple <$> asked us) ∧
    (is_ok (handle_usages id us reports s).2 → reported es = usage_triple <$> asked us).
Proof.
  revert reports s. induction us as [|u us IH]; intros reports s Hb; cbn [handle_usages].
  { exists []. split_and!; [constructor|by apply simulated_nil|done|done]. }
  pose proof (usage_simulated id u s d Hb) as Hu. pose proof (proj1 (handle_usage_result id u s)) as Hres.
  pose proof (handle_usage_frame id u s (bound_to_registered _ _ _ Hb)) as Hf. rewrite asked_cons.
  destruct (handle_usage id u s) as [s1 [[r|]|err]]; cbn in *.
  - destruct (IH (reports ++ [r]) s1 (same_binding_bound _ _ _ _ Hf Hb)) as (es & Hes & Hsim & Hpre & Hall).
    destruct Hres as [-> _]. eexists ([EvReport _ _ _ _] ++ es). split_and!.
    + by constructor.
    + by eapply simulated_app.
    + by apply prefix_cons.
    + intros Hok. cbn. by rewrite <-(Hall Hok).
  - rewrite Hres. subst s1. by apply IH.
  - subst s1. exists []. split_and!; [constructor|by apply simulated_nil|apply prefix_nil|done].
Qed.

Lemma abandon_simulated `{GoRange} l id a s d :
  good l s → bound_to id d s →
  ∃ es, Forall (λ e, event_id e = id) es ∧ reported es = [] ∧ simulated es s (abandon_action id a s) ∧
    good l (abandon_action id a s).
Proof.
  intros [Hinv Hl] Hb. assert (good l (abandon_action id a s)) as Hgood.
  { split; [by eapply abandon_action_inv|]. exact (abandon_actions_ledger id [a] s Hl). }
  revert Hgood. destruct Hb as (ss & Hid & Hbound & <-). unfold abandon_action.
  rewrite (get_stream_Some id ss) by done. set (key := BucketKeyFromProto _).
  destruct (has_abandon_action a); [|intros Hgood; exists []; split_and!; [constructor|done|by apply simulated_nil|done]].
  destruct (subscriptions ss !! key) as [bid|] eqn:Hkey;
    [|intros Hgood; exists []; split_and!; [constructor|done|by apply simulated_nil|done]].
  set (s1 := put_stream _ _ _). set (s' := with_metrics _ _). intros Hgood.
  exists [EvDrop id key]. split_and!; [by repeat constructor|done| |done]. apply simulated_one. unfold exec.
  rewrite (abs_lookup id ss), (abs_client_bound ss) by done. cbn zeta.
  rewrite decide_True by (apply elem_of_scoped_subs_key; eauto).
  assert (sv_clients (abs s') = <[id := mkClient (Some (ss_domain ss))
    (scoped_subs ss ∖ {[DomainScopedKey (ss_domain ss) key]})]> (sv_clients (abs s))) as Ecl.
  { destruct (release_bucket_fields StreamContext (ss_domain ss) key s1) as (_ & Es & _).
    cbn. rewrite Es. cbn. rewrite fmap_insert. f_equal. unfold abs_client; cbn. rewrite Hbound. f_equal.
    rewrite <-scoped_subs_drop. unfold drop_sub. by rewrite Hbound. }
  rewrite <-Ecl. cbn [sv_ledger abs]. rewrite <-(removed_is_pruned l s s' Hgood); [done|].
  apply (release_bucket_removes _ _ _ s1).
Qed.

Lemma abandons_simulated `{GoRange} l id actions s d :
  good l s → bound_to id d s →
  ∃ es, Forall (λ e, event_id e = id) es ∧ reported es = [] ∧ simulated es s (abandon_actions id actions s).
Proof.
  unfold abandon_actions. revert s. induction actions as [|a actions IH]; intros s Hgood Hb; cbn.
  { exists []. split_and!; [constructor|done|by apply simulated_nil]. }
  destruct (abandon_simulated l id a s d Hgood Hb) as (es & Hes & Hr & Hsim & Hgood1).
  destruct (IH (abandon_action id a s) Hgood1) as (es' & Hes' & Hr' & Hsim').
  { eauto using same_binding_bound, abandon_action_frame, bound_to_registered. }
  exists (es ++ es'). split_and!; [by apply Forall_app|by unfold reported in *; rewrite omap_app, Hr, Hr'|]. by eapply simulated_app.
Qed.

(** The events a message [req] of stream [id] may stand for: they are of that
    stream, and they report the usages of the message in order, up to the one
    that was refused if the message failed. *)
Definition message_trace `{GoRange} (id : nat) (req : RateLimitQuotaUsageReports) (err : option rpc_error)
    (es : list event) : Prop :=
  Forall (λ e, event_id e = id) es ∧
  reported es `prefix_of` (usage_triple <$> asked (req_bucket_quota_usages req)) ∧
  (err = None → reported es = usage_triple <$> asked (req_bucket_quota_usages req)).

Lemma reported_app es es' : reported (es ++ es') = reported es ++ reported es'.
Proof. apply omap_app. Qed.

(** Binding and recording, up to the call of the engine or the first refusal. *)
Lemma collect_simulated `{GoRange} l id req s s1 s2 r :
  good l s → is_Some (streams s !! id) → bind_domain id req s = (s1, None) →
  handle_usages id (req_bucket_quota_usages req) [] s1 = (s2, r) →
  (∃ es, Forall (λ e, event_id e = id) es ∧ simulated es s s2 ∧
    reported es `prefix_of` (usage_triple <$> asked (req_bucket_quota_usages req)) ∧
    (is_ok r → reported es = usage_triple <$> asked (req_bucket_quota_usages req))) ∧
  good l s2 ∧ ∃ d, bound_to id d s2.
Proof.
  intros [Hinv Hl] Hid Eb Eu. pose proof (bind_domain_inv l id req s Hinv Hid) as Hinv1. destruct Hid as [ss Hid].
  pose proof (bind_domain_spec id req s ss Hid) as Hspec. rewrite Eb in Hspec, Hinv1. cbn in Hinv1.
  destruct (bind_simulated l id req s s1 ss Hinv Hid Eb) as (es1 & Hes1 & Hr1 & Hsim1).
  destruct Hspec as (_ & _ & Est & Er & _ & _ & _ & ss1 & Hid1 & Hb1 & _).
  assert (bound_to id (ss_domain ss1) s1) as Hb by (by exists ss1).
  destruct (usages_simulated id (req_bucket_quota_usages req) [] s1 _ Hb) as (es2 & Hes2 & Hsim2 & Hpre & Hall).
  pose proof (handle_usages_inv l id (req_bucket_quota_usages req) [] s1 _ Hinv1 Hb) as Hinv2.
  pose proof (handle_usages_ledger l id (req_bucket_quota_usages req) [] s1 _ Hinv1 Hb
    ltac:(by eapply ledger_inv_same)) as Hl2.
  pose proof (handle_usages_frame id (req_bucket_quota_usages req) [] s1 (bound_to_registered _ _ _ Hb)) as Hf.
  rewrite Eu in *. split_and!; [|done|exists (ss_domain ss1); by eapply same_binding_bound].
  exists (es1 ++ es2). rewrite reported_app, Hr1. split_and!; [by apply Forall_app|by eapply simulated_app|done|done].
Qed.

Lemma message_simulated `{GoRange} l Send id req s :
  good l s → is_Some (streams s !! id) →
  ∃ es, message_trace id req (handleMessage Send id req s).2 es ∧ simulated es s (handleMessage Send id req s).1.
Proof.
  intros Hgood Hid. unfold handleMessage, message_trace.
  pose proof (λ s1 s2 r, collect_simulated l id req s s1 s2 r Hgood Hid) as Hcollect.
  destruct Hid as [ss Hid]. pose proof (bind_domain_spec id req s ss Hid) as Hspec.
  destruct (bind_domain id req s) as [s1 [err|]] eqn:Eb; cbn in *.
  { subst s1. exists []. split_and!; [constructor|apply prefix_nil|done|by apply simulated_nil]. }
  destruct (bind_simulated l id req s s1 ss (proj1 Hgood) Hid Eb) as (es1 & Hes1 & Hr1 & Hsim1).
  case_decide as Hne; [exists es1; by rewrite Hr1, Hne|].
  destruct (_ && _); [exists es1; rewrite Hr1; split_and!; [done|apply prefix_nil|done|done]|].
  destruct (handle_usages _ _ _ _) as [s2 [reports|err]] eqn:Eu; cbn in *.
  2: { destruct (Hcollect s1 s2 _ eq_refl Eu) as ((es & Hes & Hsim & Hpre & _) & _). by exists es. }
  destruct (Hcollect s1 s2 _ eq_refl Eu) as ((es & Hes & Hsim & Hpre & Hall) & Hgood2 & d & Hb2).
  specialize (Hall I). unfold consult_engine.
  destruct (ProcessUsage _ _ _ _) as [[|a actions]|err]; [by exists es| |by exists es].
  set (s3 := with_metrics _ _).
  destruct (abandons_simulated l id (a :: actions) s3 d) as (es3 & Hes3 & Hr3 & Hsim3).
  { destruct Hgood2 as [Hi2 Hl2].
    split; [by eapply server_inv_same; [..|exact Hi2]|by eapply ledger_inv_same; [..|exact Hl2]]. }
  { done. }
  destruct (send_response_frame Send id (a :: actions) (abandon_actions id (a :: actions) s3))
    as (Es & _ & _ & _ & _ & Est').
  exists (es ++ es3). rewrite reported_app, Hr3, app_nil_r, Hall. split_and!; [by apply Forall_app|done|done|].
  eapply simulated_app; [done|]. by eapply simulated_same.
Qed.

(** So is a message whose engine panics. *)
Lemma message_p_simulated `{GoRange} l Panics Send id req s :
  good l s → is_Some (streams s !! id) →
  ∃ es, Forall (λ e, event_id e = id) es ∧ simulated es s (handleMessage_p Panics Send id req s).1.
Proof.
  intros Hgood Hid.
  destruct (handleMessage_p_cases Panics Send id req s) as [->|(s1 & s2 & reports & v & Eb & Eu & _ & ->)]; cbn [fst].
  - destruct (message_simulated l Send id req s Hgood Hid) as (es & [? _] & ?). eauto.
  - destruct (collect_simulated l id req s s1 s2 _ Hgood Hid Eb Eu) as ((es & Hes & Hsim & _) & _). by exists es.
Qed.

Lemma close_simulated `{GoRange} l id s :
  good l s → is_Some (streams s !! id) → simulated [EvClose id] s (close_stream id s).
Proof.
  intros [Hinv Hl] [ss Hid]. apply simulated_one. cbn. rewrite lookup_fmap, Hid. cbn.
  assert (good l (close_stream id s)) as Hgood
    by (split; [by apply close_stream_inv; eauto|by apply close_stream_ledger]).
  assert (sv_clients (abs (close_stream id s)) = delete id (abs_client <$> streams s)) as Ecl
    by (cbn; by rewrite close_stream_streams, fmap_delete).
  rewrite <-Ecl, <-(removed_is_pruned l s _ Hgood); [done|].
  unfold close_stream, cleanupStream. change (get_stream id (with_metrics _ s)) with (get_stream id s).
  rewrite (get_stream_Some id ss) by done. case_match; [|done].
  generalize ((map_range (subscriptions ss)).*1) as keys. intros keys.
  assert (∀ s0, usage (store (foldl (cleanup_bucket ss) s0 keys)) ⊆ usage (store s0)) as Hall;
    [|exact (Hall (with_streams (delete id) (with_metrics (streams_add (-1)) s)))].
  induction keys as [|k keys IH]; intros s0; cbn; [done|]. etrans; [apply IH|].
  exact (release_bucket_removes Background (ss_domain ss) k (with_metrics (buckets_add (metricDomain ss) (-1)) s0)).
Qed.

(** The simulation, step by step and for whole runs. *)
Lemma step_simulated l s s' : good l s → server_step s s' → ∃ es, simulated es s s'.
Proof.
  intros Hgood. destruct 1 as [s id Hid|R Send s id req Hid|R Panics Send s id req Hid|R s id Hid|s e s' [_ ->]%SwapEngine_Some|s c|R Send s e].
  - eexists. by apply open_simulated.
  - destruct (message_simulated l Send id req s Hgood Hid) as (es & _ & ?). eauto.
  - destruct (message_p_simulated l Panics Send id req s Hgood Hid) as (es & _ & ?). eauto.
  - eexists. by eapply close_simulated.
  - exists []. by apply simulated_nil.
  - exists []. by apply simulated_nil.
  - exists []. destruct (pushAssignments_frame Send e s) as (? & _ & _ & _ & ? & _). by apply simulated_nil.
Qed.

Lemma good_step l s s' : good l s → server_step s s' → good l s'.
Proof. intros [Hinv Hl] Hs. split; [by eapply server_inv_step|by eapply ledger_inv_step]. Qed.

Lemma run_simulated l s s' : rtc server_step s s' → good l s → ∃ es, simulated es s s'.
Proof.
  induction 1 as [s|s1 s2 s3 Hs _ IH]; intros Hgood.
  { exists []. by apply simulated_nil. }
  destruct (step_simulated l s1 s2 Hgood Hs) as (es & Hes).
  destruct (IH (good_step _ _ _ Hgood Hs)) as (es' & Hes'). exists (es ++ es'). by eapply simulated_app.
Qed.

Lemma good_initial st e cfg classifier :
  usage st = ∅ → good (limits (NewRLQS st e cfg classifier)) (NewRLQS st e cfg classifier).
Proof. intros Hst. split; [apply NewRLQS_inv|]. unfold ledger_inv; cbn. by rewrite Hst. Qed.

Lemma good_reachable st e cfg classifier s :
  usage st = ∅ → rtc server_step (NewRLQS st e cfg classifier) s → good (limits (NewRLQS st e cfg classifier)) s.
Proof.
  intros Hst Hs. pose proof (good_initial st e cfg classifier Hst) as Hg. revert Hg.
  generalize (limits (NewRLQS st e cfg classifier)). intros l. induction Hs; eauto using good_step.
Qed.

Lemma server_simulated st e cfg classifier s :
  usage st = ∅ → rtc server_step (NewRLQS st e cfg classifier) s →
  ∃ es, execs es empty_service = Some (abs s).
Proof.
  intros Hst Hs. destruct (run_simulated _ _ _ Hs (good_initial st e cfg classifier Hst)) as (es & Hes).
  exists es. unfold simulated in Hes. rewrite <-Hes. unfold abs, empty_service; cbn.
  by rewrite Hst, fmap_empty.
Qed.

(** ** Properties *)

(** C2: run one after another, the handlers refine the abstract service: with a
    ledger store (the in-memory one) that starts empty and each handler as one
    step, every state they lead to is a state of the specification, and from it
    opening a stream, one message and closing a stream are, with [abs], an open
    event, events of that stream that report the message's usages in order (all
    of them unless the message fails), and a close event; swapping the engine or
    the classifier and pushing assignments change nothing a client was promised.
    (Handlers that interleave at the locks can in addition remove the usage of a
    bucket someone has just subscribed to; see Interleaving.v.) *)
Theorem server_refines_service st e cfg classifier s :
  usage st = ∅ → rtc server_step (NewRLQS st e cfg classifier) s →
  (∃ es, execs es empty_service = Some (abs s)) ∧
  (∀ id, streams s !! id = None → exec (EvOpen id) (abs s) = Some (abs (open_stream id s))) ∧
  (∀ (R : GoRange) Send id req, is_Some (streams s !! id) →
    ∃ es, message_trace id req (handleMessage Send id req s).2 es ∧
      execs es (abs s) = Some (abs (handleMessage Send id req s).1)) ∧
  (∀ (R : GoRange) id, is_Some (streams s !! id) →
    exec (EvClose id) (abs s) = Some (abs (close_stream id s))) ∧
  (∀ e' s', SwapEngine e' s = Some s' → abs s' = abs s) ∧ (∀ c, abs (SwapDomainClassifier c s) = abs s) ∧
  (∀ (R : GoRange) Send e', abs (pushAssignments Send e' s) = abs s).
Proof.
  intros Hst Hs. pose proof (good_reachable st e cfg classifier s Hst Hs) as Hgood. split_and!.
  - by eapply server_simulated.
  - intros id Hid. by apply simulated_one_inv, open_simulated.
  - intros R Send id req Hid. by eapply message_simulated.
  - intros R id Hid. by eapply simulated_one_inv, close_simulated.
  - by intros e' s' [_ ->]%SwapEngine_Some.
  - done.
  - intros R Send e'. destruct (pushAssignments_frame Send e' s) as (? & _ & _ & _ & ? & _). by apply abs_same.
Qed.
End refinement.

Lemma server_refines_service_witness :
  ∃ es, execs es empty_service = Some (abs demo_state).
Proof.
  exact (proj1 (@server_refines_service literal_regexp durationpb_split MemoryStorage _ MemoryStorage_Ledger
    NewMemoryStorage demo_engine (cfg_Server default_config) None demo_state eq_refl demo_steps)).
Defined.
