(* ===== verification/Push.v ===== *)
(** * Pushes interleaved with the handlers (internal/server/server.go)

    [SwapEngine] starts [pushAssignments] on its own goroutine. Server.v runs a
    push as one step; here it is a program with one step per action between
    which other goroutines can run: the snapshot of the streams under [s.mu],
    the look at one stream under its [ss.mu], the call of the engine, the send
    under [ss.sendMu]. The push holds pointers to the streams of its snapshot,
    so the state of a stream that has ended meanwhile is kept. A send is one step,
    with its result; a send that does not return, and what [ss.sendMu] then holds
    up, is the subject of ServerLocks.v. *)
From S2P Require Import Prelude GoStd Proto BucketKey Storage Service Config Quota DomainClassifier.
From S2P Require Import Server ServerInv ServerProps ServerMessages Refinement.

(** Where a push is. *)
Inductive push_pc :=
| PushSnapshot
| PushLoop (rest : list nat)
| PushAsk (id : nat) (domain label : string) (reports : list UsageReport) (rest : list nat)
| PushSend (id : nat) (actions : list BucketAction) (rest : list nat)
| PushReturned.

(** One report without usage per subscription. *)
Definition push_reports `{GoRange} (ss : streamState) : list UsageReport :=
  (λ kv, mkUsageReport (Some kv.2) 0 0 0) <$> map_range (subscriptions ss).

(** [!ss.domainBound || len(ss.subscriptions) == 0] *)
Definition nothing_to_push (ss : streamState) : bool :=
  negb (domainBound ss) || bool_decide (size (subscriptions ss) = 0).

Section program.
Context `{Regexp} {St : Type}.

(** The streams, those that have ended, and the pushes under way. *)
Record Pushing := mkPushing {
  pw_server : RLQSServer St;
  pw_ended : gmap nat streamState;
  pw_pushes : gmap nat (Engine * push_pc);
}.

(** The state behind a pointer to a stream. *)
Definition stream_at (id : nat) (w : Pushing) : streamState :=
  match streams (pw_server w) !! id with
  | Some ss => ss
  | None => default new_stream (pw_ended w !! id)
  end.

(** The next action of a push with engine [e]. *)
Definition push_next `{GoRange} (Send : nat → RateLimitQuotaResponse → option error) (e : Engine)
    (pc : push_pc) (w : Pushing) : push_pc * RLQSServer St :=
  let s := pw_server w in
  match pc with
  | PushSnapshot => (PushLoop (map_range (streams s)).*1, s)
  | PushLoop [] => (PushReturned, s)
  | PushLoop (id :: rest) =>
      let ss := stream_at id w in
      if nothing_to_push ss then (PushLoop rest, s)
      else (PushAsk id (ss_domain ss) (metricDomain ss) (push_reports ss) rest, s)
  | PushAsk id domain label reports rest =>
      match ProcessUsage e (engine_ctx s) domain reports with
      | Err _ => (PushLoop rest, s)
      | Ok [] => (PushLoop rest, s)
      | Ok actions =>
          (PushSend id actions rest, with_metrics (assignments_add label (Z.of_nat (length actions))) s)
      end
  | PushSend id actions rest => (PushLoop rest, (send_response Send id actions s).1)
  | PushReturned => (PushReturned, s)
  end.

Definition advance_push `{GoRange} (Send : nat → RateLimitQuotaResponse → option error) (n : nat) (e : Engine)
    (pc : push_pc) (w : Pushing) : Pushing :=
  let '(pc', s') := push_next Send e pc w in mkPushing s' (pw_ended w) (<[n := (e, pc')]> (pw_pushes w)).

Definition with_pw_server (f : RLQSServer St → RLQSServer St) (w : Pushing) : Pushing :=
  mkPushing (f (pw_server w)) (pw_ended w) (pw_pushes w).

(** What a push has left to do, at most. *)
Definition push_work (w : Pushing) (pc : push_pc) : nat :=
  match pc with
  | PushSnapshot => 3 * size (streams (pw_server w)) + 2
  | PushLoop rest => 3 * length rest + 1
  | PushAsk _ _ _ _ rest => 3 * length rest + 3
  | PushSend _ _ rest => 3 * length rest + 2
  | PushReturned => 0
  end.
End program.
Arguments Pushing {_} _.

(** Handlers, swaps and pushes interleaved. [Net] says which behaviours of
    [Send] are possible. *)
Section interleaved.
Context `{Regexp, DurationPb} {St : Type} `{BucketStore St}.
Context (Net : (nat → RateLimitQuotaResponse → option error) → Prop).
Implicit Types w : Pushing St.

Inductive pushing_step : Pushing St → Pushing St → Prop :=
| pw_open w id :
    streams (pw_server w) !! id = None → pw_ended w !! id = None →
    pushing_step w (with_pw_server (open_stream id) w)
| pw_message (R : GoRange) Send w id req :
    Net Send → is_Some (streams (pw_server w) !! id) →
    pushing_step w (with_pw_server (λ s, (handleMessage Send id req s).1) w)
| pw_panic (R : GoRange) Panics Send w id req :
    Net Send → is_Some (streams (pw_server w) !! id) →
    pushing_step w (with_pw_server (λ s, (handleMessage_p Panics Send id req s).1) w)
| pw_close (R : GoRange) w id ss :
    streams (pw_server w) !! id = Some ss →
    pushing_step w (mkPushing (close_stream id (pw_server w)) (<[id := ss]> (pw_ended w)) (pw_pushes w))
| pw_swap w e s' n :
    SwapEngine e (pw_server w) = Some s' → pw_pushes w !! n = None →
    pushing_step w (mkPushing s' (pw_ended w) (<[n := (e, PushSnapshot)]> (pw_pushes w)))
| pw_classifier w c :
    pushing_step w (with_pw_server (SwapDomainClassifier c) w)
| pw_push (R : GoRange) Send w n e pc :
    Net Send → pw_pushes w !! n = Some (e, pc) → pc ≠ PushReturned →
    pushing_step w (advance_push Send n e pc w).

(** ** One step *)

(** A push writes only the counter of assignments and the outbox. *)
Lemma push_next_frame `{GoRange} Send e pc w :
  let s' := (push_next Send e pc w).2 in let s := pw_server w in
  streams s' = streams s ∧ limits s' = limits s ∧ engine s' = engine s ∧
  bucketRefs s' = bucketRefs s ∧ store s' = store s ∧
  ActiveBuckets (metrics s') = ActiveBuckets (metrics s) ∧
  ActiveStreams (metrics s') = ActiveStreams (metrics s).
Proof.
  unfold push_next. destruct pc as [|[|id rest]|id d l reports rest|id actions rest|]; cbn; try done.
  - by case_match.
  - by destruct (ProcessUsage _ _ _ _) as [[|a actions]|err].
  - unfold send_response. by case_match.
Qed.

(** Every step is a step of the server, or leaves its books alone. *)
Lemma pushing_server_step w w' :
  pushing_step w w' →
  server_step (pw_server w) (pw_server w') ∨
  let s' := pw_server w' in let s := pw_server w in
  streams s' = streams s ∧ limits s' = limits s ∧ engine s' = engine s ∧
  bucketRefs s' = bucketRefs s ∧ store s' = store s ∧
  ActiveBuckets (metrics s') = ActiveBuckets (metrics s) ∧
  ActiveStreams (metrics s') = ActiveStreams (metrics s).
Proof.
  destruct 1 as [w id Hid _|R Send w id req _ Hid|R Panics Send w id req _ Hid|R w id ss Hid|w e s' n Hs _|w c
    |R Send w n e pc _ _ _].
  - left. by constructor.
  - left. by constructor.
  - left. by constructor.
  - left. constructor. by rewrite Hid.
  - left. by econstructor.
  - left. constructor.
  - right. pose proof (push_next_frame Send e pc w) as Hf. unfold advance_push.
    by destruct (push_next Send e pc w).
Qed.

Lemma pushing_inv_steps l w w' :
  rtc pushing_step w w' → server_inv l (pw_server w) → server_inv l (pw_server w').
Proof.
  induction 1 as [|w1 w2 w3 Hs _ IH]; [done|]. intros Hinv. apply IH.
  apply pushing_server_step in Hs as [Hs|(?&?&?&?&?&?&?)]; [by eapply server_inv_step|].
  by eapply server_inv_same; [..|exact Hinv].
Qed.
End interleaved.

(** ** A push on its own *)
Section alone.
Context `{Regexp, GoRange} {St : Type} `{BucketStore St}.
Context (Send : nat → RateLimitQuotaResponse → option error) (e : Engine).
Implicit Types w : Pushing St.

(** [fuel] actions of the push, with nothing in between. *)
Fixpoint run_push (fuel : nat) (pc : push_pc) (w : Pushing St) : push_pc * RLQSServer St :=
  match fuel with
  | 0 => (pc, pw_server w)
  | S fuel =>
      let '(pc', s') := push_next Send e pc w in run_push fuel pc' (mkPushing s' (pw_ended w) (pw_pushes w))
  end.

Lemma run_push_S fuel pc w :
  run_push (S fuel) pc w =
    run_push fuel (push_next Send e pc w).1 (mkPushing (push_next Send e pc w).2 (pw_ended w) (pw_pushes w)).
Proof. cbn. by destruct (push_next Send e pc w). Qed.

Lemma run_push_returned fuel w : run_push fuel PushReturned w = (PushReturned, pw_server w).
Proof. revert w. induction fuel as [|fuel IH]; intros w; [done|]. cbn. by rewrite IH. Qed.

Lemma run_push_loop rest fuel w :
  3 * length rest + 1 <= fuel → Forall (λ id, is_Some (streams (pw_server w) !! id)) rest →
  run_push fuel (PushLoop rest) w = (PushReturned, foldl (push_stream Send e) (pw_server w) rest).
Proof.
  revert fuel w. induction rest as [|id rest IH]; intros fuel w Hf Hall.
  { destruct fuel; [cbn in Hf; lia|]. cbn. by rewrite run_push_returned. }
  apply Forall_cons in Hall as [[ss Hid] Hall].
  assert (∀ s1 fuel1, streams s1 = streams (pw_server w) → 3 * length rest + 1 <= fuel1 →
    run_push fuel1 (PushLoop rest) (mkPushing s1 (pw_ended w) (pw_pushes w)) =
      (PushReturned, foldl (push_stream Send e) s1 rest)) as Hrec.
  { intros s1 fuel1 Es Hf1. rewrite IH; [done|done|]. cbn. by rewrite Es. }
  cbn [length] in Hf. do 3 (destruct fuel as [|fuel]; [lia|]). cbn [foldl].
  assert (push_stream Send e (pw_server w) id =
    if nothing_to_push ss then pw_server w else
    match ProcessUsage e (engine_ctx (pw_server w)) (ss_domain ss) (push_reports ss) with
    | Ok (a :: actions) =>
        (send_response Send id (a :: actions)
           (with_metrics (assignments_add (metricDomain ss) (Z.of_nat (length (a :: actions)))) (pw_server w))).1
    | _ => pw_server w
    end) as ->.
  { unfold push_stream, nothing_to_push. rewrite (get_stream_Some id ss) by done. fold (push_reports ss).
    case_match; [done|]. by destruct (ProcessUsage _ _ _ _) as [[|]|]. }
  rewrite run_push_S. cbn [push_next]. unfold stream_at. rewrite Hid.
  destruct (nothing_to_push ss); cbn [fst snd]; [apply Hrec; [done|lia]|].
  rewrite run_push_S. cbn [push_next pw_server pw_ended pw_pushes].
  destruct (ProcessUsage _ _ _ _) as [[|a actions]|err]; cbn [fst snd].
  - apply Hrec; [done|lia].
  - rewrite run_push_S. apply Hrec; [|lia]. cbn. unfold send_response. by case_match.
  - apply Hrec; [done|lia].
Qed.

Lemma run_push_undisturbed fuel w :
  push_work w PushSnapshot <= fuel →
  run_push fuel PushSnapshot w = (PushReturned, pushAssignments Send e (pw_server w)).
Proof.
  cbn. intros Hf. destruct fuel as [|fuel]; [lia|]. cbn. destruct w as [s ended pushes].
  apply run_push_loop; cbn in *.
  - rewrite length_fmap, length_map_range. lia.
  - apply Forall_forall. intros id Hid%elem_of_map_range_fst. done.
Qed.
End alone.

(** ** What clients are sent only grows *)
Section outbox.
Context `{Regexp, DurationPb} {St : Type} `{BucketStore St}.
Implicit Types s : RLQSServer St.

Lemma close_stream_outbox `{GoRange} id s : outbox (close_stream id s) = outbox s.
Proof.
  unfold close_stream, cleanupStream. case_match; [|done].
  set (ss := get_stream _ _). generalize ((map_range (subscriptions ss)).*1) as keys. intros keys.
  assert (∀ s0, outbox (foldl (cleanup_bucket ss) s0 keys) = outbox s0) as Hall; [|by rewrite Hall].
  induction keys as [|k keys IH]; intros s0; cbn; [done|].
  rewrite IH. unfold cleanup_bucket, release_bucket. by case_match.
Qed.

Lemma send_response_outbox Send id actions s :
  outbox s `prefix_of` outbox (send_response Send id actions s).1.
Proof. unfold send_response. case_match; [done|]. by eexists. Qed.

Lemma handleMessage_p_outbox `{GoRange} Panics Send id req s :
  is_Some (streams s !! id) → outbox s `prefix_of` outbox (handleMessage_p Panics Send id req s).1.
Proof.
  intros [ss Hid]. unfold handleMessage_p. pose proof (bind_domain_spec id req s ss Hid) as Hspec.
  destruct (bind_domain id req s) as [s1 [err|]]; cbn; [by subst|].
  destruct Hspec as (_ & _ & _ & _ & _ & <- & _). case_decide; [done|]. destruct (_ && _); [done|].
  pose proof (proj1 (handle_usages_result id (req_bucket_quota_usages req) [] s1)) as Ho.
  destruct (handle_usages _ _ _ _) as [s2 [reports|err]]; cbn in *; [|by rewrite Ho].
  unfold consult_engine_p. case_match; [by rewrite <-Ho|]. rewrite <-Ho.
  pose proof (consult_engine_outbox Send id reports s2) as Hc.
  destruct (consult_engine Send id reports s2) as [s3 o]; cbn in *.
  destruct Hc as [->|(_ & actions & ->)]; [done|by eexists].
Qed.

Lemma handleMessage_outbox `{GoRange} Send id req s :
  is_Some (streams s !! id) → outbox s `prefix_of` outbox (handleMessage Send id req s).1.
Proof.
  intros Hid. pose proof (handleMessage_p_outbox (λ _ _ _, None) Send id req s Hid) as Hp.
  by destruct (handleMessage_p_cases (λ _ _ _, None) Send id req s) as [E|(?&?&?&?&_&_&?&_)]; [rewrite E in Hp|].
Qed.
End outbox.

(** ** Runs *)
Section runs.
Context `{Regexp, DurationPb} {St : Type} `{BucketStore St}.
Context (Net : (nat → RateLimitQuotaResponse → option error) → Prop).
Implicit Types w : Pushing St.

Lemma push_next_outbox `{GoRange} Send e pc w :
  outbox (pw_server w) `prefix_of` outbox (push_next Send e pc w).2.
Proof.
  unfold push_next. destruct pc as [|[|id rest]|id d l reports rest|id actions rest|]; cbn; try done.
  - by case_match.
  - by destruct (ProcessUsage _ _ _ _) as [[|a actions]|err].
  - apply send_response_outbox.
Qed.

Lemma pushing_outbox w w' : pushing_step Net w w' → outbox (pw_server w) `prefix_of` outbox (pw_server w').
Proof.
  destruct 1 as [w id Hid _|R Send w id req _ Hid|R Panics Send w id req _ Hid|R w id ss Hid
    |w e s' n [_ ->]%SwapEngine_Some _|w c|R Send w n e pc _ _ _]; cbn; try done.
  - by apply handleMessage_outbox.
  - by apply handleMessage_p_outbox.
  - by rewrite close_stream_outbox.
  - pose proof (push_next_outbox Send e pc w) as Hp. unfold advance_push. by destruct (push_next Send e pc w).
Qed.

(** A step, seen from the push [n]: it is its own, or leaves it where it is. *)
Lemma pushing_own_or_other w w' n e pc :
  pushing_step Net w w' → pw_pushes w !! n = Some (e, pc) →
  (∃ (R : GoRange) Send, Net Send ∧ pc ≠ PushReturned ∧ w' = advance_push Send n e pc w) ∨
  pw_pushes w' !! n = Some (e, pc).
Proof.
  intros Hs Hn. destruct Hs as [w id _ _|R Send w id req _ _|R Panics Send w id req _ _|R w id ss _|w e' s' n' _ Hn'
    |w c|R Send w n' e' pc' Hnet Hn' Hpc]; try (by right).
  - right. cbn. rewrite lookup_insert_ne; [done|]. by intros ->; simplify_eq.
  - destruct (decide (n' = n)) as [->|Hne].
    + simplify_eq. left. eauto.
    + right. unfold advance_push. destruct (push_next _ _ _ _). cbn. by rewrite lookup_insert_ne.
Qed.

Lemma advance_push_pc `{GoRange} Send n e pc w :
  pw_pushes (advance_push Send n e pc w) !! n = Some (e, (push_next Send e pc w).1) ∧
  pw_server (advance_push Send n e pc w) = (push_next Send e pc w).2.
Proof. unfold advance_push. destruct (push_next _ _ _ _). cbn. by rewrite lookup_insert_eq. Qed.

(** A run in which the push [n] takes [k] steps of its own. *)
Inductive push_run (n : nat) : nat → Pushing St → Pushing St → Prop :=
| run_refl w : push_run n 0 w w
| run_own (R : GoRange) Send k w w' e pc :
    Net Send → pw_pushes w !! n = Some (e, pc) → pc ≠ PushReturned →
    push_run n k (advance_push Send n e pc w) w' → push_run n (S k) w w'
| run_other k w w1 w' :
    pushing_step Net w w1 → pw_pushes w1 !! n = pw_pushes w !! n → push_run n k w1 w' → push_run n k w w'.

(** An own step makes progress. *)
Lemma push_next_work `{GoRange} Send e pc w w' :
  pc ≠ PushReturned → push_work w' (push_next Send e pc w).1 < push_work w pc.
Proof.
  destruct pc as [|[|id rest]|id d l reports rest|id actions rest|]; cbn; intros Hpc; try done; try lia.
  - rewrite length_fmap, length_map_range. lia.
  - destruct (nothing_to_push _); cbn; lia.
  - destruct (ProcessUsage _ _ _ _) as [[|a actions]|err]; cbn; lia.
Qed.

(** After the snapshot what is left does not depend on the other goroutines. *)
Lemma push_work_local w w' pc : pc ≠ PushSnapshot → push_work w pc = push_work w' pc.
Proof. by destruct pc. Qed.

Lemma push_next_later `{GoRange} Send e pc w : (push_next Send e pc w).1 ≠ PushSnapshot.
Proof.
  destruct pc as [|[|id rest]|id d l reports rest|id actions rest|]; cbn; try done.
  - by destruct (nothing_to_push _).
  - by destruct (ProcessUsage _ _ _ _) as [[|a actions]|err].
Qed.

Lemma push_run_work n k w w' e pc :
  push_run n k w w' → pw_pushes w !! n = Some (e, pc) → pc ≠ PushSnapshot →
  ∃ pc', pw_pushes w' !! n = Some (e, pc') ∧ pc' ≠ PushSnapshot ∧ k + push_work w' pc' <= push_work w pc.
Proof.
  intros Hr. revert pc. induction Hr as [w|R Send k w w' e' pc' Hnet Hn Hpc _ IH|k w w1 w' _ E _ IH]; intros pc Hn' Hs.
  - exists pc. eauto.
  - rewrite Hn in Hn'. injection Hn' as -> ->. destruct (advance_push_pc Send n e pc w) as [Hn1 _].
    destruct (IH _ Hn1 (push_next_later _ _ _ _)) as (pc1 & Hn2 & Hs2 & Hw). exists pc1. split_and!; [done..|].
    pose proof (push_next_work Send e pc w (advance_push Send n e pc w) Hpc). lia.
  - destruct (IH pc) as (pc1 & Hn2 & Hs2 & Hw); [by rewrite E|done|]. exists pc1. split_and!; [done..|].
    by rewrite (push_work_local w w1).
Qed.
End runs.

(** ** The last word *)

(** The last response a stream was sent. *)
Definition last_response (id : nat) (out : list (nat * RateLimitQuotaResponse)) : option RateLimitQuotaResponse :=
  snd <$> last (filter (λ m, m.1 = id) out).

Lemma last_response_app id out1 out2 :
  last_response id (out1 ++ out2) =
  match last_response id out2 with Some r => Some r | None => last_response id out1 end.
Proof.
  unfold last_response. rewrite filter_app, last_app. by destruct (last (filter _ out2)).
Qed.

(** One response per key, looked up. *)
Lemma last_response_omap (f : nat → option (nat * RateLimitQuotaResponse)) ids id r :
  (∀ i i' r', f i = Some (i', r') → i' = i) → NoDup ids → id ∈ ids → f id = Some (id, r) →
  last_response id (omap f ids) = Some r.
Proof.
  intros Hf Hnd Hin Hr. apply list_elem_of_split in Hin as (l1 & l2 & ->).
  assert (∀ l, id ∉ l → last_response id (omap f l) = None) as Hno.
  { intros l Hl. unfold last_response. induction l as [|i l IH]; [done|]. cbn.
    assert (id ≠ i ∧ id ∉ l) as [Hne Hl'] by set_solver.
    destruct (f i) as [[i' r']|] eqn:E; [|by apply IH]. apply Hf in E as ->.
    rewrite filter_cons_False by (cbn; congruence). by apply IH. }
  assert (id ∉ l2) as Hl2.
  { apply NoDup_app in Hnd as (_ & _ & Hnd). by apply NoDup_cons in Hnd as [? _]. }
  rewrite omap_app, last_response_app. cbn. rewrite Hr. change (?x :: ?l) with ([x] ++ l).
  rewrite last_response_app, Hno by done. unfold last_response. by rewrite filter_cons_True.
Qed.

(** [handleMessage] up to its [Send]: the actions it is about to send, if any. *)
Section split.
Context `{Regexp, DurationPb, GoRange} {St : Type} `{BucketStore St}.
Implicit Types s : RLQSServer St.

Definition consult_until_send (id : nat) (reports : list UsageReport) (s : RLQSServer St)
    : RLQSServer St * result rpc_error (list BucketAction) :=
  let label := metricDomain (get_stream id s) in
  let s := with_metrics (reports_add label (Z.of_nat (length reports))) s in
  let r := ProcessUsage (engine s) (engine_ctx s) (ss_domain (get_stream id s)) reports in
  let s := with_metrics engine_observe s in
  match r with
  | Err err => (s, Err (ErrEngine err))
  | Ok [] => (s, Ok [])
  | Ok actions =>
      let s := with_metrics (assignments_add label (Z.of_nat (length actions))) s in
      (abandon_actions id actions s, Ok actions)
  end.

Definition handle_until_send (id : nat) (req : RateLimitQuotaUsageReports) (s : RLQSServer St)
    : RLQSServer St * result rpc_error (list BucketAction) :=
  match bind_domain id req s with
  | (s, Some err) => (s, Err err)
  | (s, None) =>
      let usages := req_bucket_quota_usages req in
      let n := Z.of_nat (length usages) in
      let max := maxReportsPerMessage (limits s) in
      if decide (usages = []) then (s, Ok [])
      else if (0 <? max)%Z && (max <? n)%Z then (s, Err (ErrTooManyReports n max))
      else
        match handle_usages id usages [] s with
        | (s, Err err) => (s, Err err)
        | (s, Ok reports) => consult_until_send id reports s
        end
  end.

(** The rest of the handler. *)
Definition handle_send (Send : nat → RateLimitQuotaResponse → option error) (id : nat)
    (r : RLQSServer St * result rpc_error (list BucketAction)) : RLQSServer St * option rpc_error :=
  match r with
  | (s, Err err) => (s, Some err)
  | (s, Ok []) => (s, None)
  | (s, Ok actions) => send_response Send id actions s
  end.

Lemma handleMessage_split Send id req s :
  handleMessage Send id req s = handle_send Send id (handle_until_send id req s).
Proof.
  unfold handleMessage, handle_until_send, consult_engine, consult_until_send.
  destruct (bind_domain id req s) as [s1 [err|]]; [done|]. case_decide; [done|]. destruct (_ && _); [done|].
  destruct (handle_usages _ _ _ _) as [s2 [reports|err]]; [|done].
  by destruct (ProcessUsage _ _ _ _) as [[|a actions]|err].
Qed.

(** A handler whose send fails has sent nothing. *)
Lemma handleMessage_undelivered Send id req s :
  is_Some (streams s !! id) → (∀ i r, Send i r ≠ None) → outbox (handleMessage Send id req s).1 = outbox s.
Proof.
  intros [ss Hid] Hsend. unfold handleMessage. pose proof (bind_domain_spec id req s ss Hid) as Hspec.
  destruct (bind_domain id req s) as [s1 [err|]]; cbn; [by subst|].
  destruct Hspec as (_ & _ & _ & _ & _ & <- & _). case_decide; [done|]. destruct (_ && _); [done|].
  pose proof (proj1 (handle_usages_result id (req_bucket_quota_usages req) [] s1)) as Ho.
  destruct (handle_usages _ _ _ _) as [s2 [reports|err]]; cbn in *; [|by rewrite Ho]. rewrite <-Ho.
  unfold consult_engine. destruct (ProcessUsage _ _ _ _) as [[|a actions]|err]; [done| |done].
  unfold send_response. destruct (Send _ _) eqn:E; [|by apply Hsend in E]. cbn [fst]. by rewrite abandon_actions_outbox.
Qed.

(** Up to the send, nothing has gone out, and the stream is still there. *)
Lemma handle_until_send_spec l id req s :
  server_inv l s → is_Some (streams s !! id) →
  server_inv l (handle_until_send id req s).1 ∧ outbox (handle_until_send id req s).1 = outbox s ∧
  engine (handle_until_send id req s).1 = engine s ∧
  is_Some (streams (handle_until_send id req s).1 !! id).
Proof.
  intros Hinv Hid.
  assert (∀ s' r, handle_until_send id req s = (s', r) →
    (handleMessage (λ _ _, Some "unreachable") id req s).1 = s') as Hsame.
  { intros s' r E. rewrite handleMessage_split, E. by destruct r as [[|]|]. }
  destruct (handle_until_send id req s) as [s' r] eqn:E. specialize (Hsame s' r eq_refl). cbn. subst s'.
  pose proof (handleMessage_inv l (λ _ _, Some "unreachable") id req s Hinv Hid) as Hi.
  destruct (handleMessage_frame (λ _ _, Some "unreachable") id req s Hid) as [? _].
  destruct (handleMessage_engine (λ _ _, Some "unreachable") id req s Hid) as [? _].
  split_and!; [done| |done|done]. by apply handleMessage_undelivered.
Qed.
End split.

(** An answer that is under way when the engine changes: the push of the new
    engine overtakes it, and the answer of the old engine is the last the client
    is sent. *)
Theorem reply_overtaken `{Regexp, DurationPb, GoRange} {St} `{BucketStore St} (s s1 s2 : RLQSServer St) id req a actions e :
  server_reachable s → is_Some (streams s !! id) →
  handle_until_send id req s = (s1, Ok (a :: actions)) → SwapEngine e s1 = Some s2 →
  let s3 := pushAssignments send_ok e s2 in
  let s4 := (handle_send send_ok id (s3, Ok (a :: actions))).1 in
  engine s4 = e ∧ outbox s1 = outbox s ∧ outbox s3 `prefix_of` outbox s4 ∧
  last_response id (outbox s4) = Some (mkResponse (a :: actions)) ∧
  ∃ ctx domain reports, ProcessUsage (engine s) ctx domain reports = Ok (a :: actions).
Proof.
  intros Hr%server_inv_reachable Hid E Hs. apply SwapEngine_Some in Hs as [_ ->]. cbn zeta.
  pose proof (handle_until_send_spec (limits s) id req s Hr Hid) as Hspec. rewrite E in Hspec. cbn in Hspec.
  destruct (pushAssignments_frame send_ok e (with_engine e s1)) as (_ & _ & Ee & _).
  cbn [handle_send]. unfold send_response. cbn [fst send_ok]. split_and!.
  - exact Ee.
  - apply Hspec.
  - by eexists.
  - cbn [outbox with_sent]. rewrite last_response_app. unfold last_response at 1. by rewrite filter_cons_True.
  - revert E. unfold handle_until_send. destruct Hid as [ss Hid].
    pose proof (bind_domain_spec id req s ss Hid) as Hb.
    destruct (bind_domain id req s) as [s0 [err|]]; [done|]. destruct Hb as (_ & Ee0 & _ & _ & _ & _ & _ & ss0 & Hid0 & _).
    case_decide; [done|]. destruct (_ && _); [done|].
    pose proof (handle_usages_frame id (req_bucket_quota_usages req) [] s0 ltac:(eauto)) as Hf.
    destruct (handle_usages _ _ _ _) as [s2 [reports|err]]; [|done]. cbn in Hf. unfold consult_until_send. cbn zeta.
    destruct (ProcessUsage _ _ _ _) as [[|a' actions']|err] eqn:Ep; [done| |done]. intros [= _ -> ->].
    cbn in Ep. rewrite (sb_engine _ _ _ Hf), Ee0 in Ep. eauto.
Qed.

(** ** Nobody is missed *)
Section everybody.
Context `{Regexp, DurationPb} {St : Type} `{BucketStore St}.
Context (Net : (nat → RateLimitQuotaResponse → option error) → Prop).
Implicit Types w : Pushing St.

(** The stream [id] is registered, bound and subscribed to something. *)
Definition subscribed_stream (id : nat) w : Prop :=
  ∃ ss, streams (pw_server w) !! id = Some ss ∧ domainBound ss = true ∧ subscriptions ss ≠ ∅.

(** A step after which the stream [id] still is. *)
Definition while_subscribed (id : nat) w w' : Prop := pushing_step Net w w' ∧ subscribed_stream id w'.

Context (l : Limits) (n id : nat) (e : Engine) (w0 : Pushing St).
Hypothesis start_inv : server_inv l (pw_server w0).
Hypothesis engine_assigns : assigning e.
Hypothesis delivered : ∀ Send r, Net Send → Send id r = None.

(** The engine's answer for the buckets [id] had at some moment between [w0] and [w]. *)
Definition answer_for w (actions : list BucketAction) : Prop :=
  ∃ wm ss ctx reports, rtc (while_subscribed id) w0 wm ∧ rtc (while_subscribed id) wm w ∧
    streams (pw_server wm) !! id = Some ss ∧ ProcessUsage e ctx (ss_domain ss) reports = Ok actions ∧
    action_bucket_id <$> actions ≡ₚ Some <$> (map_to_list (subscriptions ss)).*2.

Definition served w : Prop :=
  ∃ actions before after, answer_for w actions ∧
    outbox (pw_server w) = outbox (pw_server w0) ++ before ++ (id, mkResponse actions) :: after.

(** What the push, at [pc], has done or will do for [id]. *)
Definition will_serve w (pc : push_pc) : Prop :=
  match pc with
  | PushSnapshot => True
  | PushLoop rest => id ∈ rest
  | PushAsk id' domain _ reports rest =>
      id ∈ rest ∨ id' = id ∧ ∃ wm (R : GoRange) ss,
        rtc (while_subscribed id) w0 wm ∧ rtc (while_subscribed id) wm w ∧
        streams (pw_server wm) !! id = Some ss ∧ subscriptions ss ≠ ∅ ∧
        domain = ss_domain ss ∧ reports = push_reports ss
  | PushSend id' actions rest => id ∈ rest ∨ id' = id ∧ answer_for w actions
  | PushReturned => False
  end.

Lemma answer_for_step w w' actions : while_subscribed id w w' → answer_for w actions → answer_for w' actions.
Proof.
  intros Hs (wm & ss & ctx & reports & H1' & H2' & ? & ? & ?). exists wm, ss, ctx, reports.
  split_and!; try done. by eapply rtc_r.
Qed.

Lemma served_step w w' : while_subscribed id w w' → served w → served w'.
Proof.
  intros Hs (actions & before & after & Ha & Ho). destruct (pushing_outbox Net w w' (proj1 Hs)) as [more E].
  exists actions, before, (after ++ more). split; [by eapply answer_for_step|].
  rewrite E, Ho. by rewrite <-!(assoc_L (++)).
Qed.

Lemma will_serve_step w w' pc : while_subscribed id w w' → will_serve w pc → will_serve w' pc.
Proof.
  intros Hs. destruct pc; cbn; try done.
  - intros [?|(-> & wm & R & ss & ? & ? & ?)]; [by left|]. right. split; [done|].
    exists wm, R, ss. split_and!; try naive_solver. by eapply rtc_r.
  - intros [?|[-> Ha]]; [by left|]. right. split; [done|]. by eapply answer_for_step.
Qed.

(** The push's own steps. *)
Lemma will_serve_own `{GoRange} Send w pc :
  rtc (while_subscribed id) w0 w → outbox (pw_server w0) `prefix_of` outbox (pw_server w) →
  subscribed_stream id w → Net Send → pc ≠ PushReturned → will_serve w pc →
  while_subscribed id w (advance_push Send n e pc w) →
  let w' := advance_push Send n e pc w in
  will_serve w' (push_next Send e pc w).1 ∨ served w'.
Proof.
  intros Hrun [new Hout] (ss & Hid & Hb & Hss) Hnet Hpc Hw Hstep. cbn zeta.
  pose proof (advance_push_pc Send n e pc w) as [_ Es]. set (w' := advance_push Send n e pc w) in *.
  destruct pc as [|[|id' rest]|id' d lab reports rest|id' actions rest|]; cbn [will_serve] in Hw.
  - left. cbn. apply elem_of_map_range_fst. eauto.
  - by apply not_elem_of_nil in Hw.
  - left. cbn. unfold stream_at. destruct (decide (id' = id)) as [->|Hne].
    + rewrite Hid. assert (nothing_to_push ss = false) as ->.
      { unfold nothing_to_push. rewrite Hb. cbn. apply bool_decide_eq_false. by rewrite map_size_empty_iff. }
      cbn. right. split; [done|]. exists w, _, ss. split_and!; try done. by apply rtc_once.
    + assert (id ∈ rest) by set_solver. destruct (nothing_to_push _); cbn; auto.
  - left. cbn. destruct Hw as [Hw|(-> & wm & R & ssm & Hm1 & Hm2 & Hidm & Hssm & -> & ->)].
    { destruct (ProcessUsage _ _ _ _) as [[|a acts]|err]; cbn; auto. }
    assert (server_inv l (pw_server wm)) as Hinv.
    { eapply (pushing_inv_steps Net l w0); [|done]. eapply rtc_subrel; [|exact Hm1]. by intros ?? []. }
    destruct (assigning_subscriptions l e ssm (engine_ctx (pw_server w)) (ss_domain ssm) engine_assigns
      (inv_streams l _ Hinv id ssm Hidm) Hssm) as (a & acts & Hp & Hids & _).
    fold (push_reports ssm) in Hp. rewrite Hp. cbn. right. split; [done|].
    eexists wm, ssm, _, _. split_and!; try done. by eapply rtc_r.
  - destruct Hw as [Hw|[-> Ha]]; [by left|]. right.
    exists actions, new, []. split; [by eapply answer_for_step|]. rewrite Es. cbn.
    unfold send_response. rewrite delivered by done. cbn. by rewrite Hout, <-(assoc_L (++)).
  - done.
Qed.

Lemma push_serves w1 :
  rtc (while_subscribed id) w0 w1 → pw_pushes w0 !! n = Some (e, PushSnapshot) → subscribed_stream id w0 →
  (∃ pc, pw_pushes w1 !! n = Some (e, pc) ∧ (will_serve w1 pc ∨ served w1)) ∧
  outbox (pw_server w0) `prefix_of` outbox (pw_server w1) ∧ subscribed_stream id w1.
Proof.
  intros Hrun Hn Hsub. revert w1 Hrun. refine (rtc_ind_r _ w0 _ _).
  { split_and!; [|done..]. exists PushSnapshot. split; [done|by left]. }
  intros w1 w2 Hrun Hs IH.
  destruct IH as ((pc & Hn1 & Hw) & Hpre & Hsub1). pose proof Hs as [Hstep Hsub2]. split_and!; [| |done].
  - destruct (pushing_own_or_other Net w1 w2 n e pc Hstep Hn1) as [(R & Send & Hnet & Hpc & ->)|Hn2].
    + destruct (advance_push_pc Send n e pc w1) as [Hn2 _]. eexists. split; [exact Hn2|].
      destruct Hw as [Hw|Hsv]; [by apply will_serve_own|right; by eapply served_step].
    + exists pc. split; [done|]. destruct Hw; [left; by eapply will_serve_step|right; by eapply served_step].
  - etrans; [exact Hpre|]. exact (pushing_outbox Net _ _ Hstep).
Qed.
End everybody.

(** The states handlers, swaps and pushes can lead to. *)
Definition pushing_reachable `{Regexp, DurationPb} {St} `{BucketStore St} (w : Pushing St) : Prop :=
  ∃ Net st e cfg classifier, rtc (pushing_step Net) (mkPushing (NewRLQS st e cfg classifier) ∅ ∅) w.

Lemma pushing_reachable_inv `{Regexp, DurationPb} {St} `{BucketStore St} (w : Pushing St) :
  pushing_reachable w → ∃ l, server_inv l (pw_server w).
Proof.
  intros (Net & st & e & cfg & c & Hs). eexists. eapply pushing_inv_steps; [exact Hs|]. apply NewRLQS_inv.
Qed.

(** ** Properties *)

(** C17: a push misses nobody: while a push runs, interleaved at its locks with
    handlers, swaps, other pushes and streams that come and go, every stream
    that stays registered and subscribed to something, and whose sends succeed,
    has been sent, when the push returns, an answer of the pushed engine with
    one assignment for each bucket the stream had at some moment of the push. *)
Theorem push_misses_nobody `{Regexp, DurationPb} {St} `{BucketStore St} Net (w0 w1 : Pushing St) n e id :
  pushing_reachable w0 → assigning e → (∀ Send r, Net Send → Send id r = None) →
  pw_pushes w0 !! n = Some (e, PushSnapshot) → subscribed_stream id w0 →
  rtc (while_subscribed Net id) w0 w1 → pw_pushes w1 !! n = Some (e, PushReturned) →
  ∃ actions before after, answer_for Net id e w0 w1 actions ∧
    outbox (pw_server w1) = outbox (pw_server w0) ++ before ++ (id, mkResponse actions) :: after.
Proof.
  intros [l Hinv]%pushing_reachable_inv He Hdel Hn Hsub Hrun Hend.
  destruct (push_serves Net l n id e w0 Hinv He Hdel w1 Hrun Hn Hsub) as ((pc & Hpc & [Hw|Hs]) & _); [|done].
  by simplify_eq.
Qed.

(** A push takes at most three steps of its own per stream of its snapshot and
    one more, whatever the others do in between; undisturbed, it is the push of
    the server. (A step is a critical section or a [Send] that has returned; that
    a [Send] to a slow client may not return, and what that holds up, is the
    subject of ServerLocks.v.) *)
Theorem push_steps_bounded `{Regexp, DurationPb, GoRange} {St} `{BucketStore St} Net Send (w : Pushing St) n e :
  Net Send → pw_pushes w !! n = Some (e, PushSnapshot) →
  let bound := 3 * size (streams (pw_server w)) + 1 in
  (∀ k w', push_run Net n k (advance_push Send n e PushSnapshot w) w' →
     k <= bound ∧ ∃ pc, pw_pushes w' !! n = Some (e, pc) ∧ (pc = PushReturned ∨ ∃ w2, push_run Net n 1 w' w2)) ∧
  run_push Send e (S bound) PushSnapshot w = (PushReturned, pushAssignments Send e (pw_server w)).
Proof.
  intros Hnet Hn bound. split; [|apply run_push_undisturbed; unfold bound; cbn; lia].
  intros k w' Hr. destruct (advance_push_pc Send n e PushSnapshot w) as [Hn1 _]. cbn in Hn1.
  destruct (push_run_work Net n k _ w' e _ Hr Hn1) as (pc & Hpc & _ & Hk); [done|].
  cbn in Hk. rewrite length_fmap, length_map_range in Hk. split; [lia|]. exists pc. split; [done|].
  assert (pc = PushReturned ∨ pc ≠ PushReturned) as [->|Hne] by (destruct pc; auto; right; done); [by left|].
  right. eexists. eapply run_own; [exact Hnet|exact Hpc|exact Hne|]. constructor.
Qed.

(** The service of Service.v is refined also when pushes interleave: they are
    invisible to it. *)
Theorem pushing_refines_service `{Regexp, DurationPb} {St} `{LedgerStore St} Net st e cfg classifier
    (w : Pushing St) :
  usage st = ∅ → rtc (pushing_step Net) (mkPushing (NewRLQS st e cfg classifier) ∅ ∅) w →
  ∃ es, execs es empty_service = Some (abs (pw_server w)).
Proof.
  intros Hst Hrun. assert (good (limits (NewRLQS st e cfg classifier)) (pw_server w) ∧
    ∃ es, execs es empty_service = Some (abs (pw_server w))) as [_ Hes]; [|done].
  revert w Hrun. refine (rtc_ind_r _ _ _ _).
  { cbn. split; [by eapply good_reachable|]. eapply server_simulated; [done|apply rtc_refl]. }
  intros w w' _ Hs [Hg [es Hes]]. apply pushing_server_step in Hs as [Hs|(Es&El&_&Er&Est&Eb&Ea)].
  - destruct (step_simulated _ _ _ Hg Hs) as (es' & Hes'). split; [by eapply good_step|].
    exists (es ++ es'). by rewrite execs_app, Hes.
  - split; [|exists es; by rewrite (abs_same _ _ Es Est)]. destruct Hg as [Hinv Hl].
    split; [by eapply server_inv_same; [..|exact Hinv]|by eapply ledger_inv_same].
Qed.

(** A push while another stream opens. *)
Section demo.
#[local] Existing Instance range_in_order.
#[local] Existing Instance durationpb_split.
#[local] Existing Instance literal_regexp.

Definition demo_pushed_engine : Engine :=
  DefaultEngine_Engine (mkDefaultEngine (mkDefaultEngineConfig
    (Some (RateLimitStrategy_BlanketRule DENY_ALL)) (Some (20 * second)%Z))).

Definition all_delivered (Send : nat → RateLimitQuotaResponse → option error) : Prop := ∀ id r, Send id r = None.

Lemma send_ok_delivered : all_delivered send_ok.
Proof. done. Qed.

Definition demo_messaged : Pushing MemoryStorage := mkPushing demo_state ∅ ∅.

Definition demo_swapped : Pushing MemoryStorage :=
  mkPushing (with_engine demo_pushed_engine demo_state) ∅ (<[0 := (demo_pushed_engine, PushSnapshot)]> ∅).

Lemma demo_swap : SwapEngine demo_pushed_engine demo_state = Some (with_engine demo_pushed_engine demo_state).
Proof. apply SwapEngine_Some. split; [|reflexivity]. vm_compute. reflexivity. Qed.

Lemma demo_swapped_reachable : pushing_reachable demo_swapped.
Proof.
  exists all_delivered, NewMemoryStorage, demo_engine, (cfg_Server default_config), None.
  apply rtc_l with (with_pw_server (open_stream 0) (mkPushing demo_server ∅ ∅)); [by apply pw_open|].
  apply rtc_l with demo_messaged.
  - refine (pw_message all_delivered range_in_order send_ok _ 0 demo_req send_ok_delivered _). by eexists.
  - apply rtc_once. exact (pw_swap all_delivered demo_messaged demo_pushed_engine _ 0 demo_swap eq_refl).
Qed.

(** The push [0] of [w] takes its next step. *)
Definition demo_advance (w : Pushing MemoryStorage) : Pushing MemoryStorage :=
  match pw_pushes w !! 0 with
  | Some (e, pc) => advance_push send_ok 0 e pc w
  | None => w
  end.

Definition demo_during : Pushing MemoryStorage := with_pw_server (open_stream 1) (demo_advance demo_swapped).
Definition demo_after : Pushing MemoryStorage := Nat.iter 4 demo_advance demo_during.

Definition demo_serving (w : Pushing MemoryStorage) : bool :=
  match streams (pw_server w) !! 0 with
  | Some ss => domainBound ss && negb (bool_decide (size (subscriptions ss) = 0))
  | None => false
  end.

Lemma demo_serving_subscribed w : demo_serving w = true → subscribed_stream 0 w.
Proof.
  unfold demo_serving. destruct (streams (pw_server w) !! 0) as [ss|] eqn:E; [|done].
  intros [Hb Hs]%andb_true_iff. exists ss. split_and!; [done..|].
  intros Hz. rewrite Hz, map_size_empty in Hs. done.
Qed.

Lemma demo_advance_step w :
  demo_serving (demo_advance w) = true →
  match pw_pushes w !! 0 with Some (_, PushReturned) | None => False | _ => True end →
  while_subscribed all_delivered 0 w (demo_advance w).
Proof.
  intros Hs Hpc. split; [|by apply demo_serving_subscribed]. unfold demo_advance in *.
  destruct (pw_pushes w !! 0) as [[e pc]|] eqn:E; [|done].
  apply pw_push; [exact send_ok_delivered|exact E|]. by intros ->.
Qed.

Lemma demo_push_run : rtc (while_subscribed all_delivered 0) demo_swapped demo_after.
Proof.
  eapply rtc_l; [apply demo_advance_step; [vm_compute; reflexivity|exact I]|].
  eapply rtc_l with demo_during.
  { split; [by apply pw_open|]. apply demo_serving_subscribed. vm_compute. reflexivity. }
  do 4 (eapply rtc_l; [apply demo_advance_step; [vm_compute; reflexivity|vm_compute; exact I]|]).
  reflexivity.
Qed.
End demo.

Lemma push_misses_nobody_witness :
  ∃ actions before after,
    @answer_for literal_regexp durationpb_split MemoryStorage _ all_delivered 0 demo_pushed_engine
      demo_swapped demo_after actions ∧
    outbox (pw_server demo_after) = outbox (pw_server demo_swapped) ++ before ++ (0, mkResponse actions) :: after.
Proof.
  refine (@push_misses_nobody literal_regexp durationpb_split MemoryStorage _ all_delivered demo_swapped demo_after
    0 demo_pushed_engine 0 demo_swapped_reachable _ _ _ _ demo_push_run _).
  - apply DefaultEngine_assigning.
  - intros Send r Hs. apply Hs.
  - reflexivity.
  - apply demo_serving_subscribed. vm_compute. reflexivity.
  - vm_compute. reflexivity.
Defined.

Lemma push_steps_bounded_witness :
  @run_push literal_regexp range_in_order MemoryStorage send_ok demo_pushed_engine 5 PushSnapshot demo_swapped =
    (PushReturned,
     @pushAssignments literal_regexp MemoryStorage range_in_order send_ok demo_pushed_engine (pw_server demo_swapped)).
Proof.
  exact (proj2 (@push_steps_bounded literal_regexp durationpb_split range_in_order MemoryStorage _ all_delivered send_ok
    demo_swapped 0 demo_pushed_engine send_ok_delivered eq_refl)).
Defined.
