(* ===== verification/Shutdown.v ===== *)
(** * Shutdown (cmd/rlqs-server/main.go)

    The end of [main]: the signal, the shutdown of the metrics server, the
    goroutine that stops the gRPC server gracefully and the timeout after which
    it is stopped at once, beside the streams that are still running and the
    goroutine that serves. Time is not modelled here: the metrics server may shut
    down and the timeout may come at any moment. ShutdownTime.v restricts these
    runs to those the clock allows. *)
From S2P Require Import Prelude GoStd Proto BucketKey Storage Config Quota DomainClassifier.
From S2P Require Import Server ServerInv ServerProps ServerMessages Refinement Grpc.

(** Where [main] is, from the wait for the signal on; [graceful] says which
    case of the last select ran. *)
Inductive main_at := MainWaiting | MainMetricsShutdown | MainSelect | MainReturned (graceful : bool).

(** The goroutine that calls [GracefulStop] and closes [stopped]. *)
Inductive stopper_at := StopperNone | StopperStarted | StopperDraining | StopperDone.

Record Process `{Regexp, Health, GrpcServer} (St : Type) := mkProcess {
  p_server : Server St;
  p_served : bool;           (* the serving goroutine has called Serve *)
  p_main : main_at;
  p_stopper : stopper_at;
}.
Arguments mkProcess {_ _ _ _} _ _ _ _.
Arguments p_server {_ _ _ _} _.
Arguments p_served {_ _ _ _} _.
Arguments p_main {_ _ _ _} _.
Arguments p_stopper {_ _ _ _} _.

Section shutdown.
Context `{Regexp, DurationPb, Health, GrpcServer} {St : Type} `{LedgerStore St}.
Implicit Types p : Process St.

Definition running p : Prop := match p_main p with MainReturned _ => False | _ => True end.

Definition rlqs p : RLQSServer St := rlqsServer (p_server p).

Definition start_process (st : St) (e : Engine) (cfg : ServerConfig) (classifier : option DomainClassifier)
    : Process St :=
  mkProcess (New_Server st e cfg classifier) false MainWaiting StopperNone.

Inductive process_step : Process St → Process St → Prop :=
| ps_serve p :
    running p → p_served p = false →
    process_step p (mkProcess (Serve (p_server p)) true (p_main p) (p_stopper p))
| ps_handlers p s :
    running p → server_step (rlqs p) s →
    accepts (grpcServer (p_server p)) = true ∨ dom (streams s) ⊆ dom (streams (rlqs p)) →
    process_step p (mkProcess (with_rlqs (λ _, s) (p_server p)) (p_served p) (p_main p) (p_stopper p))
| ps_signal p :
    p_main p = MainWaiting →
    process_step p (mkProcess (p_server p) (p_served p) MainMetricsShutdown (p_stopper p))
| ps_metrics_shutdown p :
    p_main p = MainMetricsShutdown →
    process_step p (mkProcess (p_server p) (p_served p) MainSelect StopperStarted)
| ps_graceful_stop p :
    running p → p_stopper p = StopperStarted →
    process_step p (mkProcess (GracefulStop (p_server p)) (p_served p) (p_main p) StopperDraining)
| ps_drained p :
    running p → p_stopper p = StopperDraining → streams (rlqs p) = ∅ →
    process_step p (mkProcess (p_server p) (p_served p) (p_main p) StopperDone)
| ps_stopped p :
    p_main p = MainSelect → p_stopper p = StopperDone →
    process_step p (mkProcess (p_server p) (p_served p) (MainReturned true) (p_stopper p))
| ps_timeout p :
    p_main p = MainSelect →
    process_step p (mkProcess (Stop (p_server p)) (p_served p) (MainReturned false) (p_stopper p)).

(** ** Invariant *)
Definition draining p : Prop := match p_stopper p with StopperDraining | StopperDone => True | _ => False end.

Record process_inv (l : Limits) p : Prop := {
  pi_good : good l (rlqs p);
  pi_stopping : draining p → stopping (grpcServer (p_server p)) = true;
  pi_done : p_stopper p = StopperDone → streams (rlqs p) = ∅;
  pi_early : p_main p = MainWaiting ∨ p_main p = MainMetricsShutdown → p_stopper p = StopperNone;
  pi_select : p_main p = MainSelect → p_stopper p ≠ StopperNone;
  pi_graceful : p_main p = MainReturned true → p_stopper p = StopperDone;
}.

Lemma process_inv_start st e cfg classifier :
  usage st = ∅ → process_inv (limits (NewRLQS st e cfg classifier)) (start_process st e cfg classifier).
Proof. intros Hst. split; cbn; [by apply good_initial|done|done|done|done|done]. Qed.

Lemma process_inv_step l p p' : process_inv l p → process_step p p' → process_inv l p'.
Proof.
  intros [Hg Hs Hd He Hsel Hgr].
  destruct 1 as [p Hr Hserved|p s Hr Hstep Hacc|p Hm|p Hm|p Hr Hst|p Hr Hst Hempty|p Hm Hst|p Hm].
  - split; cbn; [done| |done..]. rewrite stopping_serve. exact Hs.
  - split; cbn; [by eapply good_step|exact Hs| |done..]. intros Hdone. destruct Hacc as [Hacc|Hdom].
    + rewrite stopping_refuses in Hacc; [done|]. apply Hs. unfold draining. by rewrite Hdone.
    + rewrite (Hd Hdone), dom_empty_L in Hdom. apply dom_empty_inv_L. set_solver.
  - split; cbn; [done|exact Hs|done| |done..]. intros _. apply He. by left.
  - split; cbn; [done|done|done| |done|done]. by intros [?|?].
  - split; cbn; [done|intros _; apply stopping_graceful|done| |done|].
    + intros Hm. by rewrite (He Hm) in Hst.
    + intros Hm. by rewrite (Hgr Hm) in Hst.
  - split; cbn; [done|intros _; apply Hs; unfold draining; by rewrite Hst|done| |done|done].
    intros Hm. by rewrite (He Hm) in Hst.
  - split; cbn; [done|exact Hs|done| |done|done]. by intros [?|?].
  - split; cbn; [done|intros _; apply stopping_stop|done| |done|done]. by intros [?|?].
Qed.

Lemma process_inv_steps l p p' : rtc process_step p p' → process_inv l p → process_inv l p'.
Proof. induction 1; eauto using process_inv_step. Qed.

(** A server without streams keeps no books. *)
Lemma idle_server_empty l (s : RLQSServer St) :
  good l s → streams s = ∅ →
  bucketRefs s = ∅ ∧ ActiveStreams (metrics s) = 0%Z ∧ usage (store s) = ∅ ∧
  ∀ label, default 0%Z (ActiveBuckets (metrics s) !! label) = 0%Z.
Proof.
  intros [Hinv Hl] Hs. pose proof (inv_books _ _ Hinv) as Hb. rewrite Hs in Hb.
  assert (bucketRefs s = ∅) as Er.
  { apply map_empty. intros k. rewrite (bk_refs _ _ _ Hb). unfold ref_count. by rewrite map_sum_empty. }
  split_and!; [done|by rewrite (inv_active _ _ Hinv), Hs| |].
  - apply dom_empty_inv_L. unfold ledger_inv in Hl. by rewrite Hl, Er, dom_empty_L.
  - intros label. rewrite (bk_gauge _ _ _ Hb). unfold sub_total. by rewrite map_sum_empty.
Qed.

(** The health statuses, for a program that was serving at the signal. *)
Definition health_down p : Prop :=
  p_served p = true ∧
  (draining p → ∀ service, service = "" ∨ service = serviceName →
    health_status service (healthServer (p_server p)) = Some NOT_SERVING).

Lemma health_down_step p p' : health_down p → process_step p p' → health_down p'.
Proof.
  intros [Hs Hh]. destruct 1 as [p Hr Hserved|p s Hr Hstep Hacc|p Hm|p Hm|p Hr Hst|p Hr Hst Hempty|p Hm Hst|p Hm];
    [congruence|split; [done|]; cbn..].
  - exact Hh.
  - exact Hh.
  - done.
  - intros _ service [->| ->]; apply set_status_service.
  - intros _. apply Hh. unfold draining. by rewrite Hst.
  - exact Hh.
  - exact Hh.
Qed.

Lemma health_down_steps p p' : rtc process_step p p' → health_down p → health_down p'.
Proof. induction 1; eauto using health_down_step. Qed.

(** ** Progress *)
Lemma close_streams p :
  running p →
  ∃ p', rtc process_step p p' ∧ streams (rlqs p') = ∅ ∧ p_served p' = p_served p ∧
    p_main p' = p_main p ∧ p_stopper p' = p_stopper p.
Proof.
  remember (size (streams (rlqs p))) as n eqn:Hn. revert p Hn. induction n as [|n IH]; intros p Hn Hr.
  { exists p. split_and!; [done| |done..]. by apply map_size_empty_inv. }
  destruct (map_choose (streams (rlqs p))) as (id & ss & Hid).
  { intros He. by rewrite He, map_size_empty in Hn. }
  set (s := @close_stream _ _ _ range_in_order id (rlqs p)).
  assert (streams s = delete id (streams (rlqs p))) as Es by apply close_stream_streams.
  destruct (IH (mkProcess (with_rlqs (λ _, s) (p_server p)) (p_served p) (p_main p) (p_stopper p)))
    as (p' & Hs' & Hrest); [|done|].
  { change (n = size (streams s)). rewrite Es, map_size_delete_Some by eauto. lia. }
  exists p'. split; [|done]. eapply rtc_l; [|done]. apply ps_handlers; [done|constructor; eauto|].
  right. rewrite Es, dom_delete_L. set_solver.
Qed.

Lemma can_return_gracefully l p :
  process_inv l p → running p → ∃ p', rtc process_step p p' ∧ p_main p' = MainReturned true.
Proof.
  intros Hinv Hr. destruct (close_streams p Hr) as (p1 & Hs1 & Hempty & _ & Hm & Hst).
  pose proof (process_inv_steps _ _ _ Hs1 Hinv) as Hinv1. clear Hinv.
  assert (running p1) as Hr1 by (unfold running; by rewrite Hm). clear Hr Hm Hst.
  cut (∃ p2, rtc process_step p1 p2 ∧ p_main p2 = MainReturned true).
  { intros (p2 & Hs2 & ?). exists p2. split; [by etrans|done]. }
  clear Hs1 p. destruct Hinv1 as [_ _ _ He Hsel _]. destruct p1 as [srv served m st]; cbn in *.
  assert (∀ st', st' ≠ StopperNone → ∃ p2, rtc process_step (mkProcess srv served MainSelect st') p2 ∧
    p_main p2 = MainReturned true) as Hsel'.
  { intros [] Hne; [done|..]; eexists.
    - split; [eapply rtc_l; [by apply ps_graceful_stop|]; eapply rtc_l; [by apply ps_drained|];
        apply rtc_once; by apply ps_stopped|done].
    - split; [eapply rtc_l; [by apply ps_drained|]; apply rtc_once; by apply ps_stopped|done].
    - split; [apply rtc_once; by apply ps_stopped|done]. }
  destruct m as [| | |g]; [| |by apply Hsel', Hsel|done].
  - destruct (Hsel' StopperStarted) as (p2 & Hp2 & ?); [done|]. exists p2. split; [|done].
    eapply rtc_l; [by apply ps_signal|]. eapply rtc_l; [by apply ps_metrics_shutdown|done].
  - destruct (Hsel' StopperStarted) as (p2 & Hp2 & ?); [done|]. exists p2. split; [|done].
    eapply rtc_l; [by apply ps_metrics_shutdown|done].
Qed.
End shutdown.

(** ** Properties *)

(** A run for the examples: a health service that keeps a map, and a gRPC
    server with three phases. *)
Definition map_health : Health.
Proof.
  refine {| health_Server := gmap string ServingStatus; health_NewServer := {["" := SERVING]};
            SetServingStatus service status h := <[service := status]> h; health_status service h := h !! service |}.
  - intros. apply lookup_insert_eq.
  - intros. by apply lookup_insert_ne.
Defined.

Inductive grpc_phase := GrpcNew | GrpcServing | GrpcStopping.

Definition phased_grpc : GrpcServer.
Proof.
  refine {| grpc_Server := grpc_phase; grpc_NewServer := GrpcNew;
            grpc_Serve g := match g with GrpcStopping => GrpcStopping | _ => GrpcServing end;
            grpc_GracefulStop _ := GrpcStopping; grpc_Stop _ := GrpcStopping;
            accepts g := match g with GrpcServing => true | _ => false end;
            stopping g := match g with GrpcStopping => true | _ => false end |}.
  - done.
  - done.
  - by intros [].
  - by intros [].
Defined.

Section demo.
#[local] Existing Instance range_in_order.
#[local] Existing Instance durationpb_split.
#[local] Existing Instance literal_regexp.
#[local] Existing Instance map_health.
#[local] Existing Instance phased_grpc.

Definition demo_start : Process MemoryStorage :=
  start_process NewMemoryStorage demo_engine (cfg_Server default_config) None.

Definition demo_serving : Process MemoryStorage :=
  mkProcess (with_rlqs (open_stream 0) (Serve (p_server demo_start))) true MainWaiting StopperNone.

Definition demo_stopped : Process MemoryStorage :=
  mkProcess (with_rlqs (close_stream 0) (GracefulStop (p_server demo_serving))) true (MainReturned true) StopperDone.

Lemma demo_serving_steps : rtc process_step demo_start demo_serving.
Proof.
  eapply rtc_l; [by apply ps_serve|]. apply rtc_once.
  apply (ps_handlers (mkProcess (Serve (p_server demo_start)) true MainWaiting StopperNone) (open_stream 0 demo_server)).
  - done.
  - by apply step_open.
  - by left.
Qed.

Lemma demo_stopped_steps : rtc process_step demo_serving demo_stopped.
Proof.
  eapply rtc_l; [by apply ps_signal|]. eapply rtc_l; [by apply ps_metrics_shutdown|].
  eapply rtc_l; [by apply ps_graceful_stop|].
  eapply rtc_l; [apply (ps_handlers (mkProcess (GracefulStop (p_server demo_serving)) true MainSelect StopperDraining)
    (close_stream 0 (open_stream 0 demo_server)))|].
  - done.
  - by apply (step_close range_in_order).
  - right. rewrite close_stream_streams, dom_delete_L. set_solver.
  - eapply rtc_l; [by apply ps_drained|]. apply rtc_once. by apply ps_stopped.
Qed.
End demo.

(** C23: a graceful shutdown leaves nothing behind: when the program was serving
    at the signal and the graceful stop finished in time, no stream is
    registered, no bucket is counted, the gauges are zero, the ledger is empty,
    the health service says not serving for the server and for the RLQS
    service, and no RPC is accepted any more. *)
Theorem graceful_shutdown_clean `{Regexp, DurationPb, Health, GrpcServer} {St} `{LedgerStore St}
    st e cfg classifier (p0 p : Process St) :
  usage st = ∅ → rtc process_step (start_process st e cfg classifier) p0 →
  p_main p0 = MainWaiting → p_served p0 = true →
  rtc process_step p0 p → p_main p = MainReturned true →
  (streams (rlqs p) = ∅ ∧ bucketRefs (rlqs p) = ∅ ∧ ActiveStreams (metrics (rlqs p)) = 0%Z ∧
   usage (store (rlqs p)) = ∅ ∧ ∀ label, default 0%Z (ActiveBuckets (metrics (rlqs p)) !! label) = 0%Z) ∧
  health_status "" (healthServer (p_server p)) = Some NOT_SERVING ∧
  health_status serviceName (healthServer (p_server p)) = Some NOT_SERVING ∧
  accepts (grpcServer (p_server p)) = false.
Proof.
  intros Hst Hs0 Hm0 Hserved Hs Hm.
  pose proof (process_inv_steps _ _ _ Hs0 (process_inv_start st e cfg classifier Hst)) as Hinv0.
  pose proof (process_inv_steps _ _ _ Hs Hinv0) as [Hg Hstop Hd _ _ Hgr].
  assert (draining p) as Hdr by (unfold draining; by rewrite (Hgr Hm)).
  assert (health_down p0) as Hh0.
  { split; [done|]. unfold draining. by rewrite (pi_early _ _ Hinv0 ltac:(by left)). }
  destruct (health_down_steps _ _ Hs Hh0) as [_ Hh]. specialize (Hh Hdr).
  split; [|split_and!; [apply Hh; by left|apply Hh; by right|by apply stopping_refuses, Hstop]].
  split; [by apply Hd, Hgr|]. by eapply idle_server_empty, Hd, Hgr.
Qed.

Lemma graceful_shutdown_clean_witness :
  streams (rlqs demo_stopped) = ∅ ∧
  @health_status map_health serviceName (healthServer (p_server demo_stopped)) = Some NOT_SERVING.
Proof.
  destruct (@graceful_shutdown_clean literal_regexp durationpb_split map_health phased_grpc MemoryStorage _ MemoryStorage_Ledger
    NewMemoryStorage demo_engine (cfg_Server default_config) None demo_serving demo_stopped
    eq_refl demo_serving_steps eq_refl eq_refl demo_stopped_steps eq_refl) as ((Hs & _) & _ & Hh & _).
  exact (conj Hs Hh).
Defined.

(** Some schedule ends the program: from every state of a running program the
    streams can be closed and [main] can return after a graceful stop, and once
    the signal has arrived it can return by the timeout. (Neither the timeout
    nor the metrics server is modelled here; ShutdownTime.v has the clock.) *)
Theorem shutdown_completes `{Regexp, DurationPb, Health, GrpcServer} {St} `{LedgerStore St}
    st e cfg classifier (p : Process St) :
  usage st = ∅ → rtc process_step (start_process st e cfg classifier) p → running p →
  (∃ p', rtc process_step p p' ∧ p_main p' = MainReturned true) ∧
  (p_main p ≠ MainWaiting →
    ∃ n p', n ≤ 2 ∧ nsteps process_step n p p' ∧ p_main p' = MainReturned false ∧
      rlqs p' = rlqs p ∧ accepts (grpcServer (p_server p')) = false).
Proof.
  intros Hst Hs Hr.
  pose proof (process_inv_steps _ _ _ Hs (process_inv_start st e cfg classifier Hst)) as Hinv.
  split; [by eapply can_return_gracefully|]. intros Hm. destruct (p_main p) as [| | |g] eqn:Em; [done|..].
  - exists 2. eexists. split; [lia|]. split.
    + eapply nsteps_l; [by apply ps_metrics_shutdown|]. apply nsteps_once. by apply ps_timeout.
    + split_and!; [done..|]. apply stopping_refuses, stopping_stop.
  - exists 1. eexists. split; [lia|]. split; [apply nsteps_once; by apply ps_timeout|].
    split_and!; [done..|]. apply stopping_refuses, stopping_stop.
  - unfold running in Hr. by rewrite Em in Hr.
Qed.

Lemma shutdown_completes_witness :
  ∃ p', rtc (@process_step literal_regexp durationpb_split map_health phased_grpc MemoryStorage _)
          demo_serving p' ∧ p_main p' = MainReturned true.
Proof.
  exact (proj1 (@shutdown_completes literal_regexp durationpb_split map_health phased_grpc MemoryStorage _ MemoryStorage_Ledger
    NewMemoryStorage demo_engine (cfg_Server default_config) None demo_serving
    eq_refl demo_serving_steps I)).
Defined.
