(* ===== verification/ShutdownTime.v ===== *)
(** * The shutdown in time (cmd/rlqs-server/main.go)

    Shutdown.v lets every goroutine go on at any moment. Here the end of [main]
    runs with a clock, in nanoseconds, and with the HTTP requests that are being
    served: [shutdownCtx] expires ten seconds after [main] has seen the signal,
    [metricsServer.Shutdown] returns when no request is left or the context has
    expired, and the last select waits for the graceful stop or for the context.
    [main] can be stuck in both; what bounds the wait is the context alone.
    Every run is a run of Shutdown.v. *)
From S2P Require Import Prelude GoStd Proto BucketKey Storage Config Quota DomainClassifier.
From S2P Require Import Server ServerInv ServerProps ServerMessages Refinement Grpc Shutdown.

(** [context.WithTimeout(context.Background(), 10*time.Second)]. *)
Definition shutdown_grace : Z := (10 * second)%Z.

Record TimedProcess `{Regexp, Health, GrpcServer} (St : Type) := mkTimedProcess {
  tp_process : Process St;
  tp_clock : Z;
  tp_signal : option Z;      (* when SIGINT or SIGTERM arrived *)
  tp_deadline : option Z;    (* of shutdownCtx, once it exists *)
  http_requests : nat;       (* requests the metrics server is serving *)
  tp_waited : Z;             (* how long main has been able to go on, but was not scheduled *)
}.
Arguments mkTimedProcess {_ _ _ _} _ _ _ _ _ _.
Arguments tp_process {_ _ _ _} _.
Arguments tp_clock {_ _ _ _} _.
Arguments tp_signal {_ _ _ _} _.
Arguments tp_deadline {_ _ _ _} _.
Arguments http_requests {_ _ _ _} _.
Arguments tp_waited {_ _ _ _} _.

Section timed.
Context `{Regexp, DurationPb, Health, GrpcServer} {St : Type} `{BucketStore St}.
(** The scheduler runs a goroutine that can go on within [lag]. *)
Variable lag : Z.
Implicit Types (t : TimedProcess St) (p : Process St).

Definition tp_main t : main_at := p_main (tp_process t).

(** [shutdownCtx.Done()] is closed. *)
Definition expired t : bool :=
  match tp_deadline t with Some d => (d <=? tp_clock t)%Z | None => false end.

(** [http.Server.Shutdown(shutdownCtx)] returns: all connections are idle, or
    the context has expired. *)
Definition metrics_shutdown_returns t : bool := (http_requests t =? 0) || expired t.

Definition graceful_done t : bool :=
  match p_stopper (tp_process t) with StopperDone => true | _ => false end.

(** What [main] waits for, wherever it is. *)
Definition main_can_go t : bool :=
  match tp_main t with
  | MainWaiting => match tp_signal t with Some _ => true | None => false end
  | MainMetricsShutdown => metrics_shutdown_returns t
  | MainSelect => graceful_done t || expired t
  | MainReturned _ => false
  end.

(** One nanosecond passes. *)
Definition tick t : TimedProcess St :=
  mkTimedProcess (tp_process t) (tp_clock t + 1) (tp_signal t) (tp_deadline t) (http_requests t)
    (if main_can_go t then tp_waited t + 1 else 0)%Z.

(** [main] goes on to [p]. *)
Definition main_goes (p : Process St) (deadline : option Z) t : TimedProcess St :=
  mkTimedProcess p (tp_clock t) (tp_signal t) deadline (http_requests t) 0.

Definition with_process (p : Process St) t : TimedProcess St :=
  mkTimedProcess p (tp_clock t) (tp_signal t) (tp_deadline t) (http_requests t) (tp_waited t).

Definition with_requests (n : nat) t : TimedProcess St :=
  mkTimedProcess (tp_process t) (tp_clock t) (tp_signal t) (tp_deadline t) n (tp_waited t).

Inductive shutdown_step : TimedProcess St → TimedProcess St → Prop :=
| sd_tick t :
    running (tp_process t) → (main_can_go t = true → tp_waited t < lag)%Z → shutdown_step t (tick t)
| sd_signal t :
    tp_main t = MainWaiting → tp_signal t = None →
    shutdown_step t (mkTimedProcess (tp_process t) (tp_clock t) (Some (tp_clock t)) (tp_deadline t)
                       (http_requests t) (tp_waited t))
| sd_request t : tp_main t = MainWaiting → shutdown_step t (with_requests (S (http_requests t)) t)
| sd_response t n : http_requests t = S n → shutdown_step t (with_requests n t)
| sd_others t p :
    process_step (tp_process t) p → p_main p = tp_main t → shutdown_step t (with_process p t)
| sd_wake t p :
    tp_main t = MainWaiting → main_can_go t = true →
    process_step (tp_process t) p → p_main p = MainMetricsShutdown →
    shutdown_step t (main_goes p (Some (tp_clock t + shutdown_grace)%Z) t)
| sd_metrics_shutdown t p :
    tp_main t = MainMetricsShutdown → metrics_shutdown_returns t = true →
    process_step (tp_process t) p → p_main p = MainSelect →
    shutdown_step t (main_goes p (tp_deadline t) t)
| sd_stopped t p :
    tp_main t = MainSelect → process_step (tp_process t) p → p_main p = MainReturned true →
    shutdown_step t (main_goes p (tp_deadline t) t)
| sd_timeout t p :
    tp_main t = MainSelect → expired t = true →
    process_step (tp_process t) p → p_main p = MainReturned false →
    shutdown_step t (main_goes p (tp_deadline t) t).

Definition shutdown_start (p : Process St) (now : Z) : TimedProcess St := mkTimedProcess p now None None 0 0.

(** Forgetting the clock. *)
Lemma shutdown_untimed t t' : rtc shutdown_step t t' → rtc process_step (tp_process t) (tp_process t').
Proof.
  induction 1 as [|t1 t2 t3 Hs _ IH]; [done|]. etrans; [|exact IH].
  destruct Hs; cbn; first [done|by apply rtc_once].
Qed.

(** ** How late it can be

    [main] sees the signal at most [lag] after it arrived, comes to the select
    at most [lag] after the context has expired, and leaves it at most [lag]
    after that. *)
Definition on_time t : Prop :=
  (0 <= tp_waited t <= lag)%Z ∧
  match tp_main t, tp_signal t with
  | MainWaiting, None => tp_waited t = 0%Z
  | MainWaiting, Some ts => (tp_clock t <= ts + tp_waited t)%Z
  | MainMetricsShutdown, Some ts => ∃ d, tp_deadline t = Some d ∧ (d <= ts + lag + shutdown_grace)%Z ∧
      (tp_clock t <= d + tp_waited t)%Z
  | MainSelect, Some ts => ∃ d, tp_deadline t = Some d ∧ (d <= ts + lag + shutdown_grace)%Z ∧
      (tp_clock t <= d + lag + tp_waited t)%Z
  | MainReturned _, Some ts => (tp_clock t <= ts + shutdown_grace + 3 * lag)%Z
  | _, None => False
  end.

Lemma on_time_tick t :
  running (tp_process t) → (main_can_go t = true → tp_waited t < lag)%Z → on_time t → on_time (tick t).
Proof.
  unfold on_time, running, tick, main_can_go, metrics_shutdown_returns, expired, tp_main. intros Hr Hlag [Hw Ht].
  cbn. destruct (p_main (tp_process t)), (tp_signal t) as [ts|]; try done.
  - specialize (Hlag eq_refl). lia.
  - lia.
  - destruct Ht as (d & Ed & Hd & Hc). rewrite Ed in *. destruct (_ || _)%bool eqn:Ego.
    + specialize (Hlag eq_refl). split; [lia|]. exists d. split_and!; [done..|lia].
    + apply orb_false_iff in Ego as [_ Ego%Z.leb_gt]. split; [lia|]. exists d. split_and!; [done..|lia].
  - destruct Ht as (d & Ed & Hd & Hc). rewrite Ed in *. destruct (_ || _)%bool eqn:Ego.
    + specialize (Hlag eq_refl). split; [lia|]. exists d. split_and!; [done..|lia].
    + apply orb_false_iff in Ego as [_ Ego%Z.leb_gt]. split; [lia|]. exists d. split_and!; [done..|lia].
Qed.

Lemma on_time_step t t' : (0 <= lag)%Z → on_time t → shutdown_step t t' → on_time t'.
Proof.
  intros Hlag Ht. destruct 1 as [t Hr Hgo|t Hm Hs|t Hm|t n Hn|t p Hs Hm|t p Hm Hgo Hs Hp|t p Hm Hgo Hs Hp
    |t p Hm Hs Hp|t p Hm He Hs Hp].
  - by apply on_time_tick.
  - revert Ht. unfold on_time, tp_main in *. cbn. rewrite Hm, Hs. lia.
  - exact Ht.
  - exact Ht.
  - revert Ht. unfold on_time, tp_main in *. cbn. by rewrite Hm.
  - revert Ht. unfold on_time, main_can_go, tp_main in *. cbn. rewrite Hm in *. rewrite Hp.
    destruct (tp_signal t) as [ts|]; [|done]. intros [Hw Hc]. split; [lia|]. eexists. split; [done|].
    assert (0 <= shutdown_grace)%Z by done. lia.
  - revert Ht. unfold on_time, tp_main in *. cbn. rewrite Hm, Hp. destruct (tp_signal t) as [ts|]; [|by intros [_ []]].
    intros (Hw & d & Ed & Hd & Hc). split; [lia|]. exists d. split_and!; [done..|lia].
  - revert Ht. unfold on_time, tp_main in *. cbn. rewrite Hm, Hp. destruct (tp_signal t) as [ts|]; [|by intros [_ []]].
    intros (Hw & d & Ed & Hd & Hc). lia.
  - revert Ht. unfold on_time, tp_main in *. cbn. rewrite Hm, Hp. destruct (tp_signal t) as [ts|]; [|by intros [_ []]].
    intros (Hw & d & Ed & Hd & Hc). lia.
Qed.

Lemma on_time_steps t t' : (0 <= lag)%Z → rtc shutdown_step t t' → on_time t → on_time t'.
Proof. intros Hlag. induction 1; eauto using on_time_step. Qed.

Lemma on_time_start p now : (0 <= lag)%Z → p_main p = MainWaiting → on_time (shutdown_start p now).
Proof. intros Hlag Hm. unfold on_time, tp_main. cbn. rewrite Hm. lia. Qed.

Lemma on_time_bound t ts :
  (0 <= lag)%Z → on_time t → tp_signal t = Some ts → (tp_clock t <= ts + shutdown_grace + 3 * lag)%Z.
Proof.
  intros Hlag [Hw Ht] Hs. rewrite Hs in Ht. assert (0 <= shutdown_grace)%Z by done.
  destruct (tp_main t); [lia|destruct Ht as (d & _ & ? & ?); lia..|lia].
Qed.

(** ** It does end *)

(** Waiting long enough, [main] can go on: at the latest when the context has
    expired. *)
Lemma wait_for_main t d :
  tp_deadline t = Some d → tp_main t = MainMetricsShutdown ∨ tp_main t = MainSelect →
  ∃ t', rtc shutdown_step t t' ∧ main_can_go t' = true ∧ tp_process t' = tp_process t ∧
    tp_deadline t' = Some d.
Proof.
  remember (Z.to_nat (d - tp_clock t)) as n eqn:Hn. revert t Hn. induction n as [|n IH]; intros t Hn Hd Hm.
  { exists t. split_and!; [done| |done..]. unfold main_can_go, metrics_shutdown_returns, expired. rewrite Hd.
    rewrite (proj2 (Z.leb_le _ _)) by lia. destruct Hm as [-> | ->]; by rewrite orb_true_r. }
  destruct (main_can_go t) eqn:Hgo; [by exists t|].
  destruct (IH (tick t)) as (t' & Hs & Hgo' & Ep & Ed); [cbn; lia|done|done|].
  exists t'. split_and!; [|done..]. eapply rtc_l; [|done]. apply sd_tick; [|by rewrite Hgo].
  unfold running, tp_main in *. by destruct Hm as [-> | ->].
Qed.

Lemma select_returns t d :
  tp_deadline t = Some d → tp_main t = MainSelect →
  ∃ t' g, rtc shutdown_step t t' ∧ tp_main t' = MainReturned g.
Proof.
  intros Hd Hm. destruct (wait_for_main t d Hd) as (t1 & Hs1 & Hgo & Ep & Ed); [by right|].
  assert (tp_main t1 = MainSelect) as Hm1 by (unfold tp_main in *; by rewrite Ep).
  unfold main_can_go in Hgo. rewrite Hm1 in Hgo. apply orb_true_iff in Hgo as [Hg|He].
  - unfold graceful_done in Hg. destruct (p_stopper (tp_process t1)) eqn:Hst; try done.
    eexists _, true. split; [eapply rtc_r; [exact Hs1|]; eapply sd_stopped; [done|by apply ps_stopped|done]|done].
  - eexists _, false. split; [eapply rtc_r; [exact Hs1|]; eapply sd_timeout; [done|done|by apply ps_timeout|done]|done].
Qed.

Lemma metrics_shutdown_ends t d :
  tp_deadline t = Some d → tp_main t = MainMetricsShutdown →
  ∃ t' g, rtc shutdown_step t t' ∧ tp_main t' = MainReturned g.
Proof.
  intros Hd Hm. destruct (wait_for_main t d Hd) as (t1 & Hs1 & Hgo & Ep & Ed); [by left|].
  assert (tp_main t1 = MainMetricsShutdown) as Hm1 by (unfold tp_main in *; by rewrite Ep).
  unfold main_can_go in Hgo. rewrite Hm1 in Hgo.
  set (p := mkProcess (p_server (tp_process t1)) (p_served (tp_process t1)) MainSelect StopperStarted).
  destruct (select_returns (main_goes p (tp_deadline t1) t1) d) as (t2 & g & Hs2 & Hr); [done..|].
  exists t2, g. split; [|done]. etrans; [exact Hs1|]. eapply rtc_l; [|exact Hs2].
  eapply sd_metrics_shutdown; [done|done|by apply ps_metrics_shutdown|done].
Qed.

Lemma shutdown_ends t ts :
  on_time t → tp_signal t = Some ts → ∃ t' g, rtc shutdown_step t t' ∧ tp_main t' = MainReturned g.
Proof.
  intros [_ Ht] Hs. rewrite Hs in Ht. destruct (tp_main t) as [| | |g] eqn:Hm.
  - set (p := mkProcess (p_server (tp_process t)) (p_served (tp_process t)) MainMetricsShutdown (p_stopper (tp_process t))).
    destruct (metrics_shutdown_ends (main_goes p (Some (tp_clock t + shutdown_grace)%Z) t) (tp_clock t + shutdown_grace))
      as (t2 & g & Hs2 & Hr); [done..|].
    exists t2, g. split; [|done]. eapply rtc_l; [|exact Hs2]. eapply sd_wake; [done| |by apply ps_signal|done].
    unfold main_can_go. by rewrite Hm, Hs.
  - destruct Ht as (d & Hd & _). by eapply metrics_shutdown_ends.
  - destruct Ht as (d & Hd & _). by eapply select_returns.
  - by exists t, g.
Qed.

(** ** Requests that do not end

    A step during which the metrics server always has a request to serve. *)
Definition busy_step t t' : Prop := shutdown_step t t' ∧ 0 < http_requests t'.

(** Until the context has expired [main] stays in [metricsServer.Shutdown]. *)
Definition held_until (d : Z) t : Prop :=
  tp_deadline t = Some d ∧ 0 < http_requests t ∧
  match tp_main t with
  | MainWaiting => False
  | MainMetricsShutdown => True
  | _ => (d <= tp_clock t)%Z
  end.

Lemma held_step d t t' : held_until d t → busy_step t t' → held_until d t'.
Proof.
  intros (Hd & Hn & Hm) [Hs Hb]. unfold held_until, tp_main in *.
  destruct Hs as [t Hr Hgo|t Ew Es|t Ew|t n En|t p Hs Ep|t p Ew Hgo Hs Ep|t p Em Hgo Hs Ep
    |t p Em Hs Ep|t p Em He Hs Ep]; unfold tp_main in *; cbn in *; try (by rewrite Ew in Hm);
    (split; [done|]); (split; [done|]).
  - destruct (p_main (tp_process t)); try done; lia.
  - done.
  - by rewrite Ep.
  - rewrite Ep. unfold metrics_shutdown_returns, expired in Hgo. rewrite Hd in Hgo.
    apply orb_true_iff in Hgo as [Hz%Nat.eqb_eq|He%Z.leb_le]; [lia|done].
  - rewrite Em in Hm. by rewrite Ep.
  - rewrite Em in Hm. by rewrite Ep.
Qed.
End timed.

(** ** Properties *)


(** A request can use up the streams' time: the ten seconds are there to let
    active streams drain, but the metrics server is shut down first and with the
    same context. When it keeps a request to serve, from the moment [main] calls
    [metricsServer.Shutdown], the graceful stop of the gRPC server begins only
    when the context has expired, and [main] may at once stop it by force, with
    all its streams still open. *)
Theorem hanging_request_uses_grace `{Regexp, DurationPb, Health, GrpcServer} {St} `{BucketStore St}
    lag (t t' : TimedProcess St) d :
  tp_main t = MainMetricsShutdown → tp_deadline t = Some d → 0 < http_requests t →
  rtc (busy_step lag) t t' → tp_main t' ≠ MainMetricsShutdown →
  (d <= tp_clock t')%Z ∧
  (tp_main t' = MainSelect →
   ∃ t2, shutdown_step lag t' t2 ∧ tp_main t2 = MainReturned false ∧
     rlqs (tp_process t2) = rlqs (tp_process t') ∧ accepts (grpcServer (p_server (tp_process t2))) = false).
Proof.
  intros Hm Hd Hn Hs Hm'.
  assert (held_until d t) as Ht by (unfold held_until; by rewrite Hm).
  assert (held_until d t') as (Hd' & _ & Hc).
  { revert Ht. clear -Hs. induction Hs; eauto using held_step. }
  assert (d <= tp_clock t')%Z as Hle by (by destruct (tp_main t')). split; [done|]. intros Hsel. eexists. split.
  - eapply sd_timeout; [done| |by apply ps_timeout|done]. unfold expired. rewrite Hd'. by apply Z.leb_le.
  - split_and!; [done..|]. apply stopping_refuses, stopping_stop.
Qed.

(** A program with one stream that is told to stop at time 5, and the same
    program a nanosecond before its context expires, with a request hanging. *)
Section demo.
#[local] Existing Instance range_in_order.
#[local] Existing Instance durationpb_split.
#[local] Existing Instance literal_regexp.
#[local] Existing Instance map_health.
#[local] Existing Instance phased_grpc.

Definition demo_signalled : TimedProcess MemoryStorage := mkTimedProcess demo_start 5 (Some 5%Z) None 0 0.

Definition demo_hanging (main : main_at) (clock : Z) : TimedProcess MemoryStorage :=
  mkTimedProcess
    (mkProcess (p_server demo_serving) true main
       match main with MainMetricsShutdown => StopperNone | _ => StopperStarted end)
    clock (Some 0%Z) (Some shutdown_grace) 1 0.

Lemma demo_hanging_steps :
  rtc (busy_step 0) (demo_hanging MainMetricsShutdown (shutdown_grace - 1)) (demo_hanging MainSelect shutdown_grace).
Proof.
  eapply rtc_l; [split; [apply (sd_tick 0)|]|]; [done|by intros ?|cbn; lia|].
  change (tick (demo_hanging MainMetricsShutdown (shutdown_grace - 1)))
    with (demo_hanging MainMetricsShutdown shutdown_grace).
  apply rtc_once. split; [|cbn; lia].
  apply (sd_metrics_shutdown 0 (demo_hanging MainMetricsShutdown shutdown_grace)); [done|done| |done].
  apply (ps_metrics_shutdown (tp_process (demo_hanging MainMetricsShutdown shutdown_grace))). done.
Qed.
End demo.


Lemma hanging_request_uses_grace_witness :
  ∃ t2, @shutdown_step literal_regexp durationpb_split map_health phased_grpc MemoryStorage _ 0
          (demo_hanging MainSelect shutdown_grace) t2 ∧
    tp_main t2 = MainReturned false ∧ size (streams (rlqs (tp_process t2))) = 1.
Proof.
  destruct (proj2 (@hanging_request_uses_grace literal_regexp durationpb_split map_health phased_grpc MemoryStorage _ 0
    (demo_hanging MainMetricsShutdown (shutdown_grace - 1)) (demo_hanging MainSelect shutdown_grace) shutdown_grace
    eq_refl eq_refl ltac:(cbn; lia) demo_hanging_steps ltac:(discriminate)) eq_refl) as (t2 & Hs & Hm & Er & _).
  exists t2. split; [exact Hs|]. split; [exact Hm|]. rewrite Er. vm_compute. reflexivity.
Defined.
