(* ===== verification/RedisStorage.v ===== *)
(** * The Redis store (internal/storage/redis.go)

    [RedisStorage]: counters in Redis, a circuit breaker, and an in-memory
    fallback that is flushed to Redis on recovery. The go-redis client, the
    Redis server behind it and the clock are the parameter [RedisClient]; the
    log of executed commands ([RedisLog]) is what the theorems say of it.
    Operations of the store are atomic steps. *)
From S2P Require Import Prelude Proto BucketKey Storage GoStd.

(** ** The client *)
Inductive RedisCmd :=
| HIncrBy (key field : string) (n : Z)
| Expire (key : string) (ttl : Z)
| Del (key : string).

#[export] Instance RedisCmd_eq_dec : EqDecision RedisCmd.
Proof. solve_decision. Defined.

(** The world outside: the pipeline and the single commands answer with an
    error or with nil, and the clock is read ([time.Time] as nanoseconds since
    the zero time). Every call may move the world on. *)
Class RedisClient := {
  redis_world : Type;
  pipe_Exec : GoContext → list RedisCmd → redis_world → option error * redis_world;
  client_Del : GoContext → string → redis_world → option error * redis_world;
  time_Now : redis_world → Z * redis_world;
}.

(** Those of the commands this client has issued that Redis executes, in the
    order they were issued. A call that returns nil executed all its commands; a
    call that fails may still have had some or all of them executed (pipelines
    are not transactions, and the answer may be lost after the execution). *)
Class RedisLog `{RedisClient} := {
  executed : redis_world → list RedisCmd;
  executed_exec ctx cmds w :
    ∃ l, l `sublist_of` cmds ∧ executed (pipe_Exec ctx cmds w).2 = executed w ++ l ∧
      ((pipe_Exec ctx cmds w).1 = None → l = cmds);
  executed_del ctx key w :
    ∃ l, l `sublist_of` [Del key] ∧ executed (client_Del ctx key w).2 = executed w ++ l ∧
      ((client_Del ctx key w).1 = None → l = [Del key]);
  executed_now w : executed (time_Now w).2 = executed w;
}.

(** ** Constants and state *)
Definition fieldAllowed : string := "allowed".
Definition fieldDenied : string := "denied".
Definition defaultRetryInterval : Z := (5 * second)%Z.
Definition defaultKeyTTL : Z := (60 * second)%Z.
Definition defaultMaxFallback : Z := 10000.

(** [RedisConfig] of package storage (package config has its own). *)
Record storage_RedisConfig := mkStorageRedisConfig {
  rs_Addr : string;
  rs_PoolSize : Z;
  rs_KeyTTL : Z;
  rs_MaxFallbackKeys : Z;
}.

(** Options of the client: address and pool size. *)
Record redis_Options := mkRedisOptions { opt_Addr : string; opt_PoolSize : Z }.

Record RedisStorage `{RedisClient} := mkRedisStorage {
  world : redis_world;
  fallback : MemoryStorage;
  keyTTL : Z;
  maxFallbackKeys : Z;
  tripped : bool;
  lastAttempt : Z;
  retryInterval : Z;
}.

Section redis.
Context `{RedisClient}.
Implicit Types s : RedisStorage.

Definition with_world (w : redis_world) (s : RedisStorage) : RedisStorage :=
  mkRedisStorage _ w (fallback s) (keyTTL s) (maxFallbackKeys s) (tripped s) (lastAttempt s) (retryInterval s).
Definition with_fallback (f : MemoryStorage) (s : RedisStorage) : RedisStorage :=
  mkRedisStorage _ (world s) f (keyTTL s) (maxFallbackKeys s) (tripped s) (lastAttempt s) (retryInterval s).
Definition with_tripped (b : bool) (s : RedisStorage) : RedisStorage :=
  mkRedisStorage _ (world s) (fallback s) (keyTTL s) (maxFallbackKeys s) b (lastAttempt s) (retryInterval s).

(** [NewRedisStorage]; [NewClient] is the client library's. *)
Definition NewRedisStorage (NewClient : redis_Options → redis_world) (cfg : storage_RedisConfig) : RedisStorage :=
  let poolSize := if (rs_PoolSize cfg <=? 0)%Z then 10%Z else rs_PoolSize cfg in
  let ttl := if (rs_KeyTTL cfg <=? 0)%Z then defaultKeyTTL else rs_KeyTTL cfg in
  let maxFallback := if (rs_MaxFallbackKeys cfg <=? 0)%Z then defaultMaxFallback else rs_MaxFallbackKeys cfg in
  let client := NewClient (mkRedisOptions (rs_Addr cfg) poolSize) in
  mkRedisStorage _ client NewMemoryStorage ttl maxFallback false 0 defaultRetryInterval.

(** ** The circuit breaker *)
Definition isTripped (s : RedisStorage) : bool := tripped s.

Definition trip (s : RedisStorage) : RedisStorage :=
  let '(now, w) := time_Now (world s) in
  mkRedisStorage _ w (fallback s) (keyTTL s) (maxFallbackKeys s) true now (retryInterval s).

Definition shouldRetry (s : RedisStorage) : bool * RedisStorage :=
  let '(now, w) := time_Now (world s) in
  ((retryInterval s <=? time_Since now (lastAttempt s))%Z, with_world w s).

(** ** Talking to Redis *)
Definition record_cmds (ttl : Z) (key : string) (report : UsageReport) : list RedisCmd :=
  [ HIncrBy key fieldAllowed (int64 (NumRequestsAllowed report));
    HIncrBy key fieldDenied (int64 (NumRequestsDenied report));
    Expire key ttl ].

Definition tryRedisRecordUsage (ctx : GoContext) (key : string) (report : UsageReport) (s : RedisStorage)
    : option error * RedisStorage :=
  let '(err, w) := pipe_Exec ctx (record_cmds (keyTTL s) key report) (world s) in
  (err, with_world w s).

Definition redis_Del (ctx : GoContext) (key : string) (s : RedisStorage) : option error * RedisStorage :=
  let '(err, w) := client_Del ctx key (world s) in (err, with_world w s).

(** The commands [flushFallback] queues for one entry. *)
Definition flush_entry (ttl : Z) (kv : string * UsageState) : list RedisCmd :=
  (if (0 <? Allowed kv.2)%Z then [HIncrBy kv.1 fieldAllowed (int64 (Allowed kv.2))] else []) ++
  (if (0 <? Denied kv.2)%Z then [HIncrBy kv.1 fieldDenied (int64 (Denied kv.2))] else []) ++
  [Expire kv.1 ttl].

Definition flush_cmds `{GoRange} (ttl : Z) (entries : gmap string UsageState) : list RedisCmd :=
  flat_map (flush_entry ttl) (map_range entries).

Definition flushFallback `{GoRange} (ctx : GoContext) (s : RedisStorage) : RedisStorage :=
  let entries := All (fallback s) in
  if decide (size entries = 0) then s
  else
    let '(_, w) := pipe_Exec ctx (flush_cmds (keyTTL s) entries) (world s) in
    with_fallback (Clear (fallback s)) (with_world w s).

Definition recoverFromFallback `{GoRange} (ctx : GoContext) (s : RedisStorage) : RedisStorage :=
  with_tripped false (flushFallback ctx s).

(** ** The store's operations *)
Definition fallback_RecordUsage `{GoRange} (ctx : GoContext) (domain : string) (report : UsageReport)
    (s : RedisStorage) : option error * RedisStorage :=
  let '(err, f) := MemoryStorage_RecordUsage ctx domain report (fallback s) in (err, with_fallback f s).

Definition fallback_RemoveBucket (ctx : GoContext) (domain : string) (key : BucketKey)
    (s : RedisStorage) : option error * RedisStorage :=
  let '(err, f) := MemoryStorage_RemoveBucket ctx domain key (fallback s) in (err, with_fallback f s).

(** The part of [RecordUsage] that does not reach Redis while tripped. *)
Definition record_fallback `{GoRange} (ctx : GoContext) (domain : string) (report : UsageReport)
    (s : RedisStorage) : option error * RedisStorage :=
  let key := BucketKeyFromProto (report_bucket_id report) in
  if (0 <? maxFallbackKeys s)%Z && (maxFallbackKeys s <=? Z.of_nat (Len (fallback s)))%Z
     && negb (Get (DomainScopedKey domain key) (fallback s)).2
  then (None, s)
  else fallback_RecordUsage ctx domain report s.

Definition RedisStorage_RecordUsage `{GoRange} (ctx : GoContext) (domain : string) (report : UsageReport)
    (s : RedisStorage) : option error * RedisStorage :=
  let key := BucketKeyFromProto (report_bucket_id report) in
  let scopedKey := DomainScopedKey domain key in
  if isTripped s then
    let '(retry, s) := shouldRetry s in
    if retry then
      match tryRedisRecordUsage ctx scopedKey report s with
      | (None, s) => (None, recoverFromFallback ctx s)
      | (Some _, s) => record_fallback ctx domain report s
      end
    else record_fallback ctx domain report s
  else
    match tryRedisRecordUsage ctx scopedKey report s with
    | (Some _, s) => fallback_RecordUsage ctx domain report (trip s)
    | (None, s) => (None, s)
    end.

Definition RedisStorage_RemoveBucket `{GoRange} (ctx : GoContext) (domain : string) (key : BucketKey)
    (s : RedisStorage) : option error * RedisStorage :=
  let scopedKey := DomainScopedKey domain key in
  if isTripped s then
    let '(retry, s) := shouldRetry s in
    if retry then
      match redis_Del ctx scopedKey s with
      | (None, s) => (None, recoverFromFallback ctx s)
      | (Some _, s) => fallback_RemoveBucket ctx domain key s
      end
    else fallback_RemoveBucket ctx domain key s
  else
    match redis_Del ctx scopedKey s with
    | (Some _, s) => fallback_RemoveBucket ctx domain key (trip s)
    | (None, s) => (None, s)
    end.

#[export] Instance RedisStorage_BucketStore : BucketStore RedisStorage :=
  {| RecordUsage R := RedisStorage_RecordUsage; RemoveBucket R := RedisStorage_RemoveBucket |}.
End redis.

(** ** A scripted world

    A client for concrete runs: the outcomes of the next calls and the next
    clock readings are listed in advance; past the end calls succeed and the
    clock stands at zero. *)
Record script := mkScript { outcomes : list (option error); clock : list Z; script_log : list RedisCmd }.

Definition script_call (cmds : list RedisCmd) (w : script) : option error * script :=
  let err := default None (head (outcomes w)) in
  (err, mkScript (tail (outcomes w)) (clock w)
          (script_log w ++ (if err is None then cmds else []))).

Definition scripted : RedisClient := {|
  redis_world := script;
  pipe_Exec _ := script_call;
  client_Del _ key := script_call [Del key];
  time_Now w := (default 0%Z (head (clock w)), mkScript (outcomes w) (tail (clock w)) (script_log w));
|}.

Definition scripted_log : @RedisLog scripted.
Proof.
  refine (@Build_RedisLog scripted script_log _ _ _); [..|done]; intros; cbn; unfold script_call;
    (destruct (default None (head (outcomes w))) eqn:E; cbn;
       [exists []; by split_and!; [apply sublist_nil_l|..]|by eexists]).
Defined.

(** ** Counters *)
Inductive counter := CAllowed | CDenied.

Definition field_name (c : counter) : string :=
  match c with CAllowed => fieldAllowed | CDenied => fieldDenied end.
Definition count_of (c : counter) (st : UsageState) : Z :=
  match c with CAllowed => Allowed st | CDenied => Denied st end.
Definition report_count (c : counter) (r : UsageReport) : Z :=
  match c with CAllowed => NumRequestsAllowed r | CDenied => NumRequestsDenied r end.

(** The value a sequence of commands gives to a counter of a key, from [z]. The
    expiry of keys is not modelled: [Expire] leaves the value alone. *)
Definition apply_cmd (c : counter) (k : string) (z : Z) (cmd : RedisCmd) : Z :=
  match cmd with
  | HIncrBy k' f n => if decide (k' = k ∧ f = field_name c) then (z + n)%Z else z
  | Expire _ _ => z
  | Del k' => if decide (k' = k) then 0%Z else z
  end.

Definition applied (c : counter) (k : string) (z : Z) (cmds : list RedisCmd) : Z :=
  foldl (apply_cmd c k) z cmds.

(** What an entry of the fallback is worth to a counter. *)
Definition entry_count (c : counter) (o : option UsageState) : Z := default 0%Z (count_of c <$> o).

Lemma applied_app c k z l l' : applied c k z (l ++ l') = applied c k (applied c k z l) l'.
Proof. apply foldl_app. Qed.

Lemma applied_record c k z ttl key r :
  applied c k z (record_cmds ttl key r) =
    (z + if decide (key = k) then int64 (report_count c r) else 0)%Z.
Proof.
  unfold applied, record_cmds, apply_cmd; cbn -[int64]. destruct c; cbn -[int64];
    destruct (decide (key = k)) as [->|]; rewrite ?decide_True, ?decide_False by naive_solver;
    repeat case_decide; try naive_solver lia.
Qed.

Lemma applied_entry c k z ttl kv :
  (0 <= Allowed kv.2)%Z → (0 <= Denied kv.2)%Z →
  uint64 (applied c k z (flush_entry ttl kv)) =
    uint64 (z + if decide (kv.1 = k) then count_of c kv.2 else 0).
Proof.
  intros Ha Hd. unfold flush_entry. rewrite !applied_app. destruct kv as [key st]; cbn in *.
  destruct (decide (key = k)) as [->|Hne].
  - destruct c; cbn -[int64]; destruct (Z.ltb_spec 0 (Allowed st)), (Z.ltb_spec 0 (Denied st));
      unfold applied, apply_cmd; cbn -[int64]; repeat case_decide; try (exfalso; naive_solver);
      rewrite ?uint64_add_int64; f_equal; lia.
  - repeat case_match; unfold applied, apply_cmd; cbn -[int64];
      rewrite ?decide_False by naive_solver; f_equal; lia.
Qed.

(** A flush adds every entry to its own key. *)
Lemma applied_flush_list c k z ttl (l : list (string * UsageState)) :
  NoDup l.*1 → Forall (λ kv, 0 <= Allowed kv.2 ∧ 0 <= Denied kv.2)%Z l →
  uint64 (applied c k z (flat_map (flush_entry ttl) l)) =
    uint64 (z + entry_count c (list_to_map (M := gmap string UsageState) l !! k)).
Proof.
  revert z. induction l as [|[key st] l IH]; intros z Hnd Hl.
  { unfold entry_count. cbn. rewrite lookup_empty. cbn. f_equal. lia. }
  apply NoDup_cons in Hnd as [Hk Hnd]. apply Forall_cons in Hl as [[Ha Hd] Hl]. cbn [flat_map].
  rewrite applied_app, IH by done. rewrite (uint64_congr _ _ _ (applied_entry c k z ttl (key, st) Ha Hd)).
  cbn. rewrite lookup_insert. f_equal. case_decide as Hkk.
  - subst. rewrite (not_elem_of_list_to_map_1 l k) by done. unfold entry_count; cbn. lia.
  - lia.
Qed.

(** Counters of a store are in range. *)
Definition counts_ok (m : gmap string UsageState) : Prop :=
  map_Forall (λ _ st, in_uint64 (Allowed st) ∧ in_uint64 (Denied st)) m.

Lemma applied_flush `{GoRange} c k z ttl m :
  counts_ok m →
  uint64 (applied c k z (flush_cmds ttl m)) = uint64 (z + entry_count c (m !! k)).
Proof.
  intros Hm. unfold flush_cmds. rewrite applied_flush_list.
  - by rewrite list_to_map_range.
  - apply NoDup_fst_map_range.
  - apply Forall_forall. intros [k' st] Hin%elem_of_map_range. destruct (Hm k' st Hin) as [[??] [??]].
    cbn. lia.
Qed.

(** ** Invariant and accounting *)
Section accounting.
Context `{RedisClient}.
Implicit Types s : RedisStorage.

Definition report_in_range (r : UsageReport) : Prop :=
  in_uint64 (NumRequestsAllowed r) ∧ in_uint64 (NumRequestsDenied r).

(** The fallback is used only while the breaker is tripped, stays within its
    capacity and keeps its counters in range. *)
Record redis_inv (s : RedisStorage) : Prop := {
  ri_max : (0 < maxFallbackKeys s)%Z;
  ri_closed : tripped s = false → buckets (fallback s) = ∅;
  ri_size : (Z.of_nat (Len (fallback s)) <= maxFallbackKeys s)%Z;
  ri_counts : counts_ok (buckets (fallback s));
}.

Lemma NewRedisStorage_inv NewClient cfg : redis_inv (NewRedisStorage NewClient cfg).
Proof.
  assert (0 < maxFallbackKeys (NewRedisStorage NewClient cfg))%Z as Hm.
  { unfold NewRedisStorage, defaultMaxFallback; cbn. destruct (Z.leb_spec (rs_MaxFallbackKeys cfg) 0); lia. }
  split; [done|done| |apply map_Forall_empty]. unfold Len; cbn [fallback NewRedisStorage buckets NewMemoryStorage].
  rewrite map_size_empty. lia.
Qed.

(** What trying and retrying leaves alone. *)
Definition same_books s s' : Prop :=
  fallback s' = fallback s ∧ tripped s' = tripped s ∧ maxFallbackKeys s' = maxFallbackKeys s ∧
  keyTTL s' = keyTTL s.

Lemma redis_inv_same s s' : same_books s s' → redis_inv s → redis_inv s'.
Proof. intros (Ef & Et & Em & _) [????]. split; rewrite ?Ef, ?Et, ?Em; auto. Qed.

Lemma counts_ok_record m k a d :
  in_uint64 a → in_uint64 d → counts_ok m → counts_ok (<[k := plus_usage (m !! k) a d]> m).
Proof.
  intros Ha Hd Hm. apply map_Forall_insert_2; [|done].
  destruct (m !! k); cbn; auto using uint64_range.
Qed.

(** Recording in the fallback: the state it leaves. *)
Lemma fallback_RecordUsage_eq `{GoRange} ctx domain r s :
  fallback_RecordUsage ctx domain r s =
    (None, with_fallback (Update (report_key domain r) (NumRequestsAllowed r) (NumRequestsDenied r) (fallback s)) s).
Proof. done. Qed.

Lemma Len_Update k a d f :
  Len (Update k a d f) = Len f + (if buckets f !! k is None then 1 else 0).
Proof.
  unfold Len. rewrite buckets_Update, map_size_insert. destruct (buckets f !! k); cbn; lia.
Qed.

(** The fallback branch either drops a report for a new key at capacity, or
    records it. *)
Lemma record_fallback_cases `{GoRange} ctx domain r s :
  (record_fallback ctx domain r s = (None, s) ∧ (0 < maxFallbackKeys s)%Z ∧
     (maxFallbackKeys s <= Z.of_nat (Len (fallback s)))%Z ∧
     buckets (fallback s) !! report_key domain r = None) ∨
  (record_fallback ctx domain r s = fallback_RecordUsage ctx domain r s ∧
     ((0 < maxFallbackKeys s)%Z → (Z.of_nat (Len (fallback s)) < maxFallbackKeys s)%Z ∨
       is_Some (buckets (fallback s) !! report_key domain r))).
Proof.
  unfold record_fallback, Get. fold (report_key domain r).
  destruct (Z.ltb_spec 0 (maxFallbackKeys s)), (Z.leb_spec (maxFallbackKeys s) (Z.of_nat (Len (fallback s))));
    cbn; destruct (buckets (fallback s) !! report_key domain r) eqn:E; cbn; eauto 6; try (right; split; [done|]; lia).
Qed.

Lemma fallback_RecordUsage_inv `{GoRange} ctx domain r s :
  report_in_range r → tripped s = true → (0 < maxFallbackKeys s)%Z → counts_ok (buckets (fallback s)) →
  ((Z.of_nat (Len (fallback s)) < maxFallbackKeys s)%Z ∨
   (Z.of_nat (Len (fallback s)) <= maxFallbackKeys s)%Z ∧ is_Some (buckets (fallback s) !! report_key domain r)) →
  redis_inv (fallback_RecordUsage ctx domain r s).2.
Proof.
  intros [Ha Hd] Ht Hm Hc Hsz. rewrite fallback_RecordUsage_eq. cbn. split; cbn; [done|congruence| |].
  - rewrite Len_Update. destruct (buckets (fallback s) !! _); [lia|].
    destruct Hsz as [?|[_ [? ?]]]; [lia|done].
  - rewrite buckets_Update. by apply counts_ok_record.
Qed.

Lemma record_fallback_inv `{GoRange} ctx domain r s :
  report_in_range r → tripped s = true → redis_inv s → redis_inv (record_fallback ctx domain r s).2.
Proof.
  intros Hr Ht Hinv. destruct (record_fallback_cases ctx domain r s) as [(-> & _)|(-> & Hsz)]; [done|].
  pose proof (ri_max s Hinv) as Hm. pose proof (ri_size s Hinv).
  apply fallback_RecordUsage_inv; [done..|apply Hinv|]. destruct (Hsz Hm); auto.
Qed.

Lemma recoverFromFallback_spec `{GoRange} ctx s :
  buckets (fallback (recoverFromFallback ctx s)) = ∅ ∧ tripped (recoverFromFallback ctx s) = false ∧
  maxFallbackKeys (recoverFromFallback ctx s) = maxFallbackKeys s.
Proof.
  unfold recoverFromFallback, flushFallback. rewrite All_buckets. case_decide as Hsz; cbn.
  - split_and!; [by apply map_size_empty_inv|done..].
  - by destruct (pipe_Exec _ _ _).
Qed.

Lemma redis_inv_recovered s :
  buckets (fallback s) = ∅ → (0 < maxFallbackKeys s)%Z → redis_inv s.
Proof.
  intros Hf Hm. split; [done|done| |rewrite Hf; apply map_Forall_empty].
  unfold Len. rewrite Hf, map_size_empty. lia.
Qed.

Lemma shouldRetry_books s : same_books s (shouldRetry s).2.
Proof. unfold shouldRetry. by destruct (time_Now _). Qed.

Lemma tryRedis_books ctx key r s : same_books s (tryRedisRecordUsage ctx key r s).2.
Proof. unfold tryRedisRecordUsage. by destruct (pipe_Exec _ _ _). Qed.

Lemma redis_Del_books ctx key s : same_books s (redis_Del ctx key s).2.
Proof. unfold redis_Del. by destruct (client_Del _ _ _). Qed.

Lemma trip_books s :
  fallback (trip s) = fallback s ∧ tripped (trip s) = true ∧ maxFallbackKeys (trip s) = maxFallbackKeys s.
Proof. unfold trip. by destruct (time_Now _). Qed.

Lemma recoverFromFallback_inv `{GoRange} ctx s : redis_inv s → redis_inv (recoverFromFallback ctx s).
Proof.
  intros Hinv. destruct (recoverFromFallback_spec ctx s) as (Ef & _ & Em).
  apply redis_inv_recovered; [done|]. rewrite Em. apply Hinv.
Qed.

Lemma RecordUsage_inv `{GoRange} ctx domain r s :
  report_in_range r → redis_inv s → redis_inv (RedisStorage_RecordUsage ctx domain r s).2.
Proof.
  intros Hr Hinv. unfold RedisStorage_RecordUsage, isTripped. destruct (tripped s) eqn:Ht.
  - pose proof (shouldRetry_books s) as Hb. destruct (shouldRetry s) as [retry s1]. cbn in Hb.
    assert (tripped s1 = true) by (destruct Hb as (_ & ? & _); congruence).
    pose proof (redis_inv_same _ _ Hb Hinv) as Hinv1.
    destruct retry; [|by apply record_fallback_inv].
    pose proof (tryRedis_books ctx (DomainScopedKey domain (BucketKeyFromProto (report_bucket_id r))) r s1) as Hb2.
    destruct (tryRedisRecordUsage _ _ _ _) as [[e|] s2]; cbn in *; pose proof (redis_inv_same _ _ Hb2 Hinv1) as Hinv2.
    + apply record_fallback_inv; [done| |done]. destruct Hb2 as (_ & ? & _); congruence.
    + by apply recoverFromFallback_inv.
  - pose proof (tryRedis_books ctx (DomainScopedKey domain (BucketKeyFromProto (report_bucket_id r))) r s) as Hb.
    destruct (tryRedisRecordUsage _ _ _ _) as [[e|] s1]; cbn in Hb; pose proof (redis_inv_same _ _ Hb Hinv) as Hinv1; [|done].
    destruct (trip_books s1) as (Ef & Et & Em).
    assert (buckets (fallback (trip s1)) = ∅) as Hf.
    { rewrite Ef. apply Hinv1. destruct Hb as (_ & ? & _); congruence. }
    pose proof (ri_max _ Hinv1). apply fallback_RecordUsage_inv; [done|done|by rewrite Em| |left].
    + rewrite Hf. apply map_Forall_empty.
    + unfold Len. rewrite Em, Hf, map_size_empty. lia.
Qed.

Lemma fallback_RemoveBucket_inv ctx domain key s :
  (0 < maxFallbackKeys s)%Z → (Z.of_nat (Len (fallback s)) <= maxFallbackKeys s)%Z →
  counts_ok (buckets (fallback s)) → (tripped s = false → buckets (fallback s) = ∅) →
  redis_inv (fallback_RemoveBucket ctx domain key s).2.
Proof.
  intros Hm Hsz Hc Ht. split; cbn; [done| | |by apply map_Forall_delete].
  - intros E. by rewrite (Ht E), delete_empty.
  - unfold Len in *; cbn. rewrite map_size_delete. destruct (buckets (fallback s) !! _); cbn; lia.
Qed.

Lemma RemoveBucket_inv `{GoRange} ctx domain key s :
  redis_inv s → redis_inv (RedisStorage_RemoveBucket ctx domain key s).2.
Proof.
  intros Hinv. unfold RedisStorage_RemoveBucket, isTripped. destruct (tripped s) eqn:Ht.
  - pose proof (shouldRetry_books s) as Hb. destruct (shouldRetry s) as [retry s1]. cbn in Hb.
    pose proof (redis_inv_same _ _ Hb Hinv) as Hinv1.
    destruct retry; [|by apply fallback_RemoveBucket_inv; apply Hinv1].
    pose proof (redis_Del_books ctx (DomainScopedKey domain key) s1) as Hb2.
    destruct (redis_Del _ _ _) as [[e|] s2]; cbn in Hb2; pose proof (redis_inv_same _ _ Hb2 Hinv1) as Hinv2.
    + by apply fallback_RemoveBucket_inv; apply Hinv2.
    + by apply recoverFromFallback_inv.
  - pose proof (redis_Del_books ctx (DomainScopedKey domain key) s) as Hb.
    destruct (redis_Del _ _ _) as [[e|] s1]; cbn in Hb; pose proof (redis_inv_same _ _ Hb Hinv) as Hinv1; [|done].
    destruct (trip_books s1) as (Ef & Et & Em).
    apply fallback_RemoveBucket_inv; rewrite ?Ef, ?Em; [apply Hinv1..|congruence].
Qed.

(** ** The store over time

    Operations follow one another; between them the world moves on by itself
    (time passes, Redis fails or comes back). *)
Inductive redis_step : RedisStorage → RedisStorage → Prop :=
| redis_step_record (R : GoRange) ctx domain r s :
    report_in_range r → redis_step s (RedisStorage_RecordUsage ctx domain r s).2
| redis_step_remove (R : GoRange) ctx domain key s :
    redis_step s (RedisStorage_RemoveBucket ctx domain key s).2
| redis_step_world w s : redis_step s (with_world w s).

Lemma redis_inv_steps s s' : rtc redis_step s s' → redis_inv s → redis_inv s'.
Proof.
  induction 1 as [|s1 s2 s3 Hstep _ IH]; [done|]. intros Hinv. apply IH.
  destruct Hstep; [by apply RecordUsage_inv|by apply RemoveBucket_inv|].
  by apply (redis_inv_same s).
Qed.
End accounting.

(** ** Where usage is held

    Usage of a key is in Redis (increments executed since the key was last
    deleted; its expiry is not modelled) or in the fallback. *)
Section balance.
Context `{RedisLog} `{GoRange}.
Implicit Types s : RedisStorage.

Definition balance (c : counter) (k : string) (s : RedisStorage) : Z :=
  (applied c k 0 (executed (world s)) + entry_count c (buckets (fallback s) !! k))%Z.

(** Every key keeps its usage, and [k] gains the counts of [r]; besides, keys
    gain what the commands [l] add. *)
Definition gains_with (l : list RedisCmd) (k : string) (r : UsageReport) (s s' : RedisStorage) : Prop :=
  ∀ c k', uint64 (balance c k' s') =
    uint64 (balance c k' s + (if decide (k = k') then report_count c r else 0) + applied c k' 0 l).

Definition gains (k : string) (r : UsageReport) (s s' : RedisStorage) : Prop :=
  ∀ c k', uint64 (balance c k' s') =
    uint64 (balance c k' s + if decide (k = k') then report_count c r else 0).

(** Redis has executed [cmds] in addition. *)
Definition executes (cmds : list RedisCmd) (s s' : RedisStorage) : Prop :=
  executed (world s') = executed (world s) ++ cmds.

Lemma same_books_trans s1 s2 s3 : same_books s1 s2 → same_books s2 s3 → same_books s1 s3.
Proof. unfold same_books. intros (?&?&?&?) (?&?&?&?). split_and!; congruence. Qed.

Lemma executes_trans l1 l2 s1 s2 s3 : executes l1 s1 s2 → executes l2 s2 s3 → executes (l1 ++ l2) s1 s3.
Proof. unfold executes. intros E1 E2. by rewrite E2, E1, (assoc_L (++)). Qed.
Lemma shouldRetry_executes s : executes [] s (shouldRetry s).2.
Proof.
  unfold executes, shouldRetry. pose proof (executed_now (world s)) as E.
  destruct (time_Now _). cbn in *. by rewrite app_nil_r.
Qed.

Lemma trip_executes s : executes [] s (trip s).
Proof.
  unfold executes, trip. pose proof (executed_now (world s)) as E.
  destruct (time_Now _). cbn in *. by rewrite app_nil_r.
Qed.

Lemma tryRedis_executes ctx key r s :
  ∃ l, l `sublist_of` record_cmds (keyTTL s) key r ∧ executes l s (tryRedisRecordUsage ctx key r s).2 ∧
    ((tryRedisRecordUsage ctx key r s).1 = None → l = record_cmds (keyTTL s) key r) ∧
    (tryRedisRecordUsage ctx key r s).1 = (pipe_Exec ctx (record_cmds (keyTTL s) key r) (world s)).1.
Proof.
  unfold executes, tryRedisRecordUsage.
  destruct (executed_exec ctx (record_cmds (keyTTL s) key r) (world s)) as (l & Hl & El & Hok). exists l.
  by destruct (pipe_Exec _ _ _) as [e w].
Qed.

(** Flushing moves the fallback to Redis; if the pipeline fails, only what Redis
    executed of it. *)
Lemma recover_executes ctx s :
  ∃ l, l `sublist_of` flush_cmds (keyTTL s) (buckets (fallback s)) ∧ executes l s (recoverFromFallback ctx s) ∧
    (l = flush_cmds (keyTTL s) (buckets (fallback s)) ∨
     buckets (fallback s) ≠ ∅ ∧ (pipe_Exec ctx (flush_cmds (keyTTL s) (buckets (fallback s))) (world s)).1 ≠ None).
Proof.
  unfold recoverFromFallback, flushFallback, executes. rewrite All_buckets. case_decide as Hsz; cbn.
  { apply map_size_empty_inv in Hsz. exists []. rewrite Hsz. unfold flush_cmds.
    rewrite map_range_empty. split; [apply sublist_nil_l|]. split; [by rewrite app_nil_r|by left]. }
  destruct (executed_exec ctx (flush_cmds (keyTTL s) (buckets (fallback s))) (world s)) as (l & Hl & El & Hok).
  exists l. split; [done|]. destruct (pipe_Exec _ _ _) as [[e|] w]; cbn in *; (split; [done|]).
  - right. split; [|done]. intros Hf. by rewrite Hf, map_size_empty in Hsz.
  - left. by apply Hok.
Qed.

(** Increments and expiries add up, whatever the key held before. *)
Lemma applied_add c k z cmds :
  Forall (λ cmd, match cmd with Del _ => False | _ => True end) cmds →
  applied c k z cmds = (z + applied c k 0 cmds)%Z.
Proof.
  unfold applied. intros Hall. revert z. induction Hall as [|cmd cmds Hc _ IH]; intros z; cbn; [lia|].
  rewrite IH, (IH (apply_cmd c k 0 cmd)). destruct cmd; cbn; [case_decide; lia|lia|done].
Qed.

Lemma record_cmds_add c k z ttl key r l :
  l `sublist_of` record_cmds ttl key r → applied c k z l = (z + applied c k 0 l)%Z.
Proof. intros Hl. apply applied_add. apply Forall_forall. intros cmd Hc.
  eapply sublist_subseteq in Hc; [|done]. revert cmd Hc. by apply Forall_forall; repeat constructor. Qed.

Lemma fallback_gains ctx domain r s :
  gains (report_key domain r) r s (fallback_RecordUsage ctx domain r s).2.
Proof.
  intros c k'. rewrite fallback_RecordUsage_eq. unfold balance; cbn. rewrite buckets_Update, lookup_insert.
  case_decide as Hk; [subst k'|by rewrite Z.add_0_r].
  unfold entry_count; cbn. rewrite <-!Z.add_assoc, <-uint64_add_r.
  rewrite <-(uint64_add_r _ (default _ _ + _)). do 2 f_equal.
  destruct (buckets (fallback s) !! report_key domain r) as [st|] eqn:E; cbn.
  - destruct c; cbn; by rewrite uint64_idemp.
  - by destruct c.
Qed.

Lemma gains_same k r s1 s s' :
  executed (world s1) = executed (world s) → fallback s1 = fallback s → gains k r s1 s' → gains k r s s'.
Proof. unfold gains, balance. by intros -> ->. Qed.

Lemma recorded_gains ttl k r s s' :
  executes (record_cmds ttl k r) s s' → fallback s' = fallback s → gains k r s s'.
Proof.
  intros Ha Hf c k'. unfold balance. rewrite Ha, Hf, applied_app, applied_record.
  case_decide; [|f_equal; lia].
  rewrite (Z.add_comm (applied _ _ _ _) (int64 _)), <-Z.add_assoc, Z.add_comm, uint64_add_int64. f_equal; lia.
Qed.

Lemma recover_gains ctx s :
  counts_ok (buckets (fallback s)) →
  executes (flush_cmds (keyTTL s) (buckets (fallback s))) s (recoverFromFallback ctx s) →
  ∀ c k, uint64 (balance c k (recoverFromFallback ctx s)) = uint64 (balance c k s).
Proof.
  intros Hc Ha c k. unfold balance at 1. rewrite Ha, applied_app.
  destruct (recoverFromFallback_spec ctx s) as (-> & _). rewrite lookup_empty. unfold entry_count at 1; cbn.
  rewrite Z.add_0_r. by rewrite applied_flush.
Qed.

(** What a failed attempt to record [r] in Redis may have left there. *)
Definition failed_attempt (ctx : GoContext) (k : string) (r : UsageReport) (s : RedisStorage) (l : list RedisCmd) : Prop :=
  l = [] ∨ l `sublist_of` record_cmds (keyTTL s) k r ∧
    ∃ w, (pipe_Exec ctx (record_cmds (keyTTL s) k r) w).1 ≠ None.

(** How recording a report of key [k] can end: the report is counted, exactly
    once unless an attempt at Redis failed and was executed in part ([l]); it is
    dropped by a full fallback; or Redis took the report and the call recovered,
    but the flush failed and only the part [l] of the fallback arrived. *)
Inductive record_outcome (ctx : GoContext) (k : string) (r : UsageReport) (s s' : RedisStorage) : Prop :=
| outcome_counted l :
    failed_attempt ctx k r s l → gains_with l k r s s' → record_outcome ctx k r s s'
| outcome_dropped l :
    failed_attempt ctx k r s l → executes l s s' →
    tripped s = true → (maxFallbackKeys s <= Z.of_nat (Len (fallback s)))%Z →
    buckets (fallback s) !! k = None → fallback s' = fallback s → record_outcome ctx k r s s'
| outcome_flush_lost w l :
    tripped s = true → buckets (fallback s) ≠ ∅ → buckets (fallback s') = ∅ →
    executes (record_cmds (keyTTL s) k r ++ l) s s' →
    l `sublist_of` flush_cmds (keyTTL s) (buckets (fallback s)) →
    (pipe_Exec ctx (flush_cmds (keyTTL s) (buckets (fallback s))) w).1 ≠ None →
    record_outcome ctx k r s s'.

Lemma gains_outcome ctx k r s s' : gains k r s s' → record_outcome ctx k r s s'.
Proof.
  intros Hg. apply (outcome_counted _ _ _ _ _ []); [by left|]. intros c k'. rewrite Hg. f_equal. cbn. lia.
Qed.

(** After a failed attempt the fallback takes the report. *)
Lemma attempt_gains ctx k r l s s1 s' :
  failed_attempt ctx k r s l → executes l s s1 → fallback s1 = fallback s → gains k r s1 s' →
  gains_with l k r s s'.
Proof.
  intros Hl El Ef Hg c k'. rewrite Hg. unfold balance. rewrite El, Ef, applied_app.
  assert (applied c k' (applied c k' 0 (executed (world s))) l =
    (applied c k' 0 (executed (world s)) + applied c k' 0 l)%Z) as ->; [|f_equal; lia].
  destruct Hl as [->|[Hl _]]; [cbn; lia|]. by eapply record_cmds_add.
Qed.

Lemma record_fallback_outcome ctx domain r l s s1 :
  tripped s = true → failed_attempt ctx (report_key domain r) r s l → executes l s s1 → same_books s s1 →
  (record_fallback ctx domain r s1).1 = None ∧
  record_outcome ctx (report_key domain r) r s (record_fallback ctx domain r s1).2.
Proof.
  intros Ht Hl El (Ef & Et & Em & _).
  destruct (record_fallback_cases ctx domain r s1) as [(-> & _ & Hsz & Hk)|(-> & _)].
  - split; [done|]. eapply outcome_dropped; cbn; try done; congruence.
  - split; [done|]. eapply outcome_counted; [done|]. eapply attempt_gains; [done..|]. apply fallback_gains.
Qed.

Lemma recover_outcome ctx k r s s1 :
  redis_inv s → tripped s = true → executes (record_cmds (keyTTL s) k r) s s1 → same_books s s1 →
  record_outcome ctx k r s (recoverFromFallback ctx s1).
Proof.
  intros Hinv Ht Ha (Ef & _ & _ & Ek).
  destruct (recover_executes ctx s1) as (l & Hl & El & [->|[Hne He]]).
  - apply gains_outcome. intros c k'. rewrite recover_gains; [|rewrite Ef; apply Hinv|done].
    by apply (recorded_gains (keyTTL s)).
  - rewrite Ef, Ek in *. eapply (outcome_flush_lost _ _ _ _ _ (world s1) l); [done..| | |done|done].
    + apply recoverFromFallback_spec.
    + by eapply executes_trans.
Qed.

End balance.

(** ** Properties *)
Definition redis_reachable `{RedisClient} (s : RedisStorage) : Prop :=
  ∃ NewClient cfg, rtc redis_step (NewRedisStorage NewClient cfg) s.

Lemma redis_inv_reachable `{RedisClient} s : redis_reachable s → redis_inv s.
Proof. intros (NewClient & cfg & Hs). eapply redis_inv_steps; [done|]. apply NewRedisStorage_inv. Qed.

(** A concrete outage: the first report fails and trips the breaker at time 7;
    two more reports arrive within the retry interval. *)
Section demo.
#[local] Existing Instance scripted.
#[local] Existing Instance range_in_order.

Definition outage_report (n : Z) : UsageReport :=
  mkUsageReport (Some (mkBucketId {["user" := "alice"]})) n 1 0.

Definition outage_config : storage_RedisConfig := mkStorageRedisConfig "localhost:6379" 0 0 0.

(** The world at the start, and when Redis is back after ten seconds. *)
Definition outage_world : script := mkScript [Some "refused"; None; None] [7%Z; 8%Z; 9%Z] [].
Definition restored_world : script := mkScript [] [(10 * second)%Z] [].

Definition outage_state : RedisStorage :=
  with_world restored_world
    (RedisStorage_RecordUsage StreamContext "api" (outage_report 5)
      (RedisStorage_RecordUsage StreamContext "api" (outage_report 3)
         (NewRedisStorage (λ _, outage_world) outage_config)).2).2.

Lemma outage_reachable : redis_reachable outage_state.
Proof.
  exists (λ _, outage_world), outage_config.
  eapply rtc_l; [apply (redis_step_record range_in_order StreamContext "api" (outage_report 3)); by vm_compute|].
  eapply rtc_l; [apply (redis_step_record range_in_order StreamContext "api" (outage_report 5)); by vm_compute|].
  apply rtc_once, redis_step_world.
Qed.

Definition outage_key : string := DomainScopedKey "api" (BucketKeyFromProto (report_bucket_id (outage_report 3))).
End demo.

Lemma RecordUsage_outcome `{RedisLog} `{GoRange} ctx domain r s :
  redis_inv s →
  (RedisStorage_RecordUsage ctx domain r s).1 = None ∧
  record_outcome ctx (report_key domain r) r s (RedisStorage_RecordUsage ctx domain r s).2.
Proof.
  intros Hinv. unfold RedisStorage_RecordUsage, isTripped.
  fold (report_key domain r). destruct (tripped s) eqn:Ht.
  - pose proof (shouldRetry_books s) as Eb. pose proof (shouldRetry_executes s) as Ea.
    destruct (shouldRetry s) as [[] s1]; cbn in Eb, Ea;
      [|apply (record_fallback_outcome _ _ _ []); [done|by left|done..]].
    pose proof (tryRedis_books ctx (report_key domain r) r s1) as Eb2.
    destruct (tryRedis_executes ctx (report_key domain r) r s1) as (l & Hl & Ea2 & Hok & Eerr).
    assert (keyTTL s1 = keyTTL s) as Ek by apply Eb. rewrite Ek in Hl, Hok, Eerr.
    destruct (tryRedisRecordUsage _ _ _ _) as [[e|] s2]; cbn [fst snd] in *.
    + apply (record_fallback_outcome _ _ _ l); [done| | |by eapply same_books_trans].
      * right. split; [done|]. exists (world s1). by rewrite <-Eerr.
      * exact (executes_trans [] _ _ _ _ Ea Ea2).
    + split; [done|]. apply recover_outcome; [done..| |by eapply same_books_trans].
      rewrite <-Hok by done. exact (executes_trans [] _ _ _ _ Ea Ea2).
  - pose proof (tryRedis_books ctx (report_key domain r) r s) as Eb.
    destruct (tryRedis_executes ctx (report_key domain r) r s) as (l & Hl & Ea & Hok & Eerr).
    destruct (tryRedisRecordUsage _ _ _ _) as [[e|] s1]; cbn [fst snd] in *.
    + split; [done|]. destruct (trip_books s1) as (Ef & _).
      pose proof (executes_trans _ [] _ _ _ Ea (trip_executes s1)) as Ea1. rewrite app_nil_r in Ea1.
      assert (failed_attempt ctx (report_key domain r) r s l) as Hl'.
      { right. split; [done|]. exists (world s). by rewrite <-Eerr. }
      eapply outcome_counted; [done|]. eapply attempt_gains; [done|exact Ea1| |apply fallback_gains].
      rewrite Ef. apply Eb.
    + split; [done|]. apply gains_outcome. eapply recorded_gains; [rewrite <-Hok by done; exact Ea|]. apply Eb.
Qed.

(** Every report has a known end: recording never fails, and the report is
    counted (with all other usage kept, and exactly once unless a failed attempt
    at Redis was executed after all), or dropped because the breaker is tripped
    and the full fallback does not know its bucket, or Redis took it and the
    flush of the fallback that followed failed. *)
Theorem redis_usage_conserved `{RedisLog} `{GoRange} ctx domain r s :
  redis_reachable s →
  (RedisStorage_RecordUsage ctx domain r s).1 = None ∧
  record_outcome ctx (report_key domain r) r s (RedisStorage_RecordUsage ctx domain r s).2.
Proof. intros Hinv%redis_inv_reachable. by apply RecordUsage_outcome. Qed.

Lemma redis_usage_conserved_witness :
  @record_outcome scripted scripted_log range_in_order StreamContext (@report_key range_in_order "api" (outage_report 2))
    (outage_report 2) outage_state
    (@RedisStorage_RecordUsage scripted range_in_order StreamContext "api" (outage_report 2) outage_state).2.
Proof.
  exact (proj2 (@redis_usage_conserved scripted scripted_log range_in_order StreamContext "api"
    (outage_report 2) outage_state outage_reachable)).
Defined.

(** A lost answer counts twice: when the breaker is closed and the pipeline
    of a report returns an error although Redis executed it (a timeout after the
    write), the store records the report in the fallback as well, so its key
    gains the counts of the report twice; no other key changes, and the caller is
    told that all went well. *)
Theorem redis_lost_answer_counts_twice `{RedisLog} `{GoRange} ctx domain r s err w1 :
  tripped s = false →
  pipe_Exec ctx (record_cmds (keyTTL s) (report_key domain r) r) (world s) = (Some err, w1) →
  executed w1 = executed (world s) ++ record_cmds (keyTTL s) (report_key domain r) r →
  let s' := (RedisStorage_RecordUsage ctx domain r s).2 in
  (RedisStorage_RecordUsage ctx domain r s).1 = None ∧ tripped s' = true ∧
  ∀ c k, uint64 (balance c k s') =
    uint64 (balance c k s + if decide (report_key domain r = k) then 2 * report_count c r else 0).
Proof.
  intros Ht He Hx. cbn zeta. unfold RedisStorage_RecordUsage, isTripped, tryRedisRecordUsage.
  fold (report_key domain r). rewrite Ht, He. set (s1 := with_world w1 s).
  assert (executes (record_cmds (keyTTL s) (report_key domain r) r) s s1) as Ha by done.
  pose proof (trip_executes s1) as Hx1. unfold executes in Hx1. rewrite app_nil_r in Hx1.
  destruct (trip_books s1) as (Ef & Et & _). split; [done|]. split; [by rewrite fallback_RecordUsage_eq|].
  intros c k. rewrite (fallback_gains ctx domain r (trip s1)).
  assert (balance c k (trip s1) = balance c k s1) as -> by (unfold balance; by rewrite Hx1, Ef).
  rewrite (uint64_congr _ _ _ (recorded_gains _ _ _ _ _ Ha eq_refl c k)). case_decide; f_equal; lia.
Qed.

(** A Redis that executes every command and answers none. *)
Definition answers_lost : RedisClient := {|
  redis_world := list RedisCmd;
  pipe_Exec _ cmds w := (Some "i/o timeout", w ++ cmds);
  client_Del _ key w := (Some "i/o timeout", w ++ [Del key]);
  time_Now w := (0%Z, w);
|}.

Definition answers_lost_log : @RedisLog answers_lost.
Proof. by refine (@Build_RedisLog answers_lost id _ _ _); [..|done]; intros; eexists. Defined.

Lemma redis_lost_answer_counts_twice_witness :
  let s := @NewRedisStorage answers_lost (λ _, []) outage_config in
  uint64 (@balance answers_lost answers_lost_log CAllowed (@report_key range_in_order "api" (outage_report 3))
    (@RedisStorage_RecordUsage answers_lost range_in_order StreamContext "api" (outage_report 3) s).2) = 6%Z.
Proof.
  intros s. refine (eq_trans (proj2 (proj2 (@redis_lost_answer_counts_twice answers_lost answers_lost_log range_in_order
    StreamContext "api" (outage_report 3) s "i/o timeout" _ eq_refl eq_refl eq_refl)) CAllowed _) _).
  rewrite decide_True by done. reflexivity.
Defined.

(** The fallback is bounded: in every reachable state it holds at most
    the configured number of keys, and nothing while the breaker is closed. *)
Theorem redis_fallback_bounded `{RedisClient} s :
  redis_reachable s →
  (Z.of_nat (Len (fallback s)) <= maxFallbackKeys s)%Z ∧
  (tripped s = false → Len (fallback s) = 0).
Proof.
  intros Hinv%redis_inv_reachable. split; [apply Hinv|]. intros Ht. unfold Len.
  by rewrite (ri_closed s Hinv Ht), map_size_empty.
Qed.

Lemma redis_fallback_bounded_witness :
  (Z.of_nat (Len (@fallback scripted outage_state)) <= @maxFallbackKeys scripted outage_state)%Z.
Proof. exact (proj1 (@redis_fallback_bounded scripted outage_state outage_reachable)). Defined.

(** The call that recovers. *)
Lemma RecordUsage_recovers `{RedisClient} `{GoRange} ctx domain r s now w w1 :
  tripped s = true → time_Now (world s) = (now, w) →
  (retryInterval s <= time_Since now (lastAttempt s))%Z →
  pipe_Exec ctx (record_cmds (keyTTL s) (report_key domain r) r) w = (None, w1) →
  (RedisStorage_RecordUsage ctx domain r s).2 = recoverFromFallback ctx (with_world w1 s).
Proof.
  intros Ht Hn Hdue He. unfold RedisStorage_RecordUsage, isTripped, shouldRetry.
  rewrite Ht, Hn, (proj2 (Z.leb_le _ _)) by done.
  unfold tryRedisRecordUsage; cbn -[record_cmds]. fold (report_key domain r). by rewrite He.
Qed.

(** An open breaker spares Redis: while it is tripped and the retry
    interval has not passed, recording and removing read the clock and touch
    the fallback, but send nothing to Redis and leave the breaker as it is. *)
Theorem redis_backoff `{RedisClient} `{GoRange} ctx domain r key s now w :
  tripped s = true → time_Now (world s) = (now, w) →
  (time_Since now (lastAttempt s) < retryInterval s)%Z →
  (∃ f, (RedisStorage_RecordUsage ctx domain r s).2 = with_world w (with_fallback f s)) ∧
  (RedisStorage_RemoveBucket ctx domain key s).2 =
    with_world w (with_fallback (Reset (DomainScopedKey domain key) (fallback s)) s).
Proof.
  intros Ht Hn Hlt. unfold RedisStorage_RecordUsage, RedisStorage_RemoveBucket, isTripped, shouldRetry.
  rewrite Ht, Hn. rewrite (proj2 (Z.leb_gt _ _)) by done. split; [|done].
  destruct (record_fallback_cases ctx domain r (with_world w s)) as [(-> & _)|(-> & _)];
    [exists (fallback s)|eexists]; reflexivity.
Qed.

Lemma redis_backoff_witness :
  let s := @with_world scripted (mkScript [] [9%Z] []) outage_state in
  (@RedisStorage_RemoveBucket scripted range_in_order StreamContext "api" "k" s).2 =
    @with_world scripted (mkScript [] [] [])
      (@with_fallback scripted (Reset (DomainScopedKey "api" "k") (@fallback scripted s)) s).
Proof.
  intros s. refine (proj2 (@redis_backoff scripted range_in_order StreamContext "api" (outage_report 1) "k" s
    9 (mkScript [] [] []) _ _ _)); vm_compute; reflexivity.
Defined.

(** C28: recovery brings everything home: when the retry interval has passed
    and Redis answers the report and the flush, the breaker closes, the
    fallback is empty, and Redis alone holds all the usage the store held, with
    the new report. *)
Theorem redis_recovers `{RedisLog} `{GoRange} ctx domain r s now w w1 w2 :
  redis_reachable s → tripped s = true → time_Now (world s) = (now, w) →
  (retryInterval s <= time_Since now (lastAttempt s))%Z →
  pipe_Exec ctx (record_cmds (keyTTL s) (report_key domain r) r) w = (None, w1) →
  pipe_Exec ctx (flush_cmds (keyTTL s) (buckets (fallback s))) w1 = (None, w2) →
  let s' := (RedisStorage_RecordUsage ctx domain r s).2 in
  tripped s' = false ∧ buckets (fallback s') = ∅ ∧
  ∀ c k, uint64 (applied c k 0 (executed (world s'))) =
    uint64 (balance c k s + if decide (report_key domain r = k) then report_count c r else 0).
Proof.
  intros Hr Ht Hn Hdue He Hf. pose proof (redis_inv_reachable s Hr) as Hinv.
  rewrite (RecordUsage_recovers ctx domain r s now w w1) by done.
  set (s1 := with_world w1 s). cbn zeta.
  destruct (recoverFromFallback_spec ctx s1) as (Hb & Hc & _). split_and!; [done..|]. intros c k.
  assert (executes (record_cmds (keyTTL s) (report_key domain r) r) s s1) as Ha.
  { unfold executes; cbn. destruct (executed_exec ctx (record_cmds (keyTTL s) (report_key domain r) r) w) as (l & _ & E & Hok).
    pose proof (executed_now (world s)) as E'. rewrite He in E, Hok. rewrite Hn in E'. cbn in *.
    by rewrite E, E', Hok. }
  rewrite <-(recorded_gains (keyTTL s) (report_key domain r) r s s1 Ha eq_refl).
  rewrite <-(recover_gains ctx s1); [|apply Hinv|].
  - unfold balance. rewrite Hb, lookup_empty. unfold entry_count; cbn. by rewrite Z.add_0_r.
  - destruct (recover_executes ctx s1) as (l & _ & El & [->|[_ He']]); [done|]. cbn in He'. by rewrite Hf in He'.
Qed.

Lemma redis_recovers_witness :
  let s' := (@RedisStorage_RecordUsage scripted range_in_order StreamContext "api" (outage_report 2) outage_state).2 in
  @tripped scripted s' = false ∧ buckets (@fallback scripted s') = ∅ ∧
  ∀ c k, uint64 (applied c k 0 (script_log (@world scripted s'))) =
    uint64 (@balance scripted scripted_log c k outage_state +
      if decide (@report_key range_in_order "api" (outage_report 2) = k) then report_count c (outage_report 2) else 0).
Proof.
  refine (@redis_recovers scripted scripted_log range_in_order StreamContext "api" (outage_report 2) outage_state
    (10 * second)%Z (mkScript [] [] []) _ _ outage_reachable _ _ _ _ _);
    [vm_compute; reflexivity|vm_compute; reflexivity|vm_compute; discriminate|reflexivity|reflexivity].
Defined.

(** A failed retry does not restart the interval: once a retry was due
    and failed, the breaker stays tripped with the time of its first trip, so
    at every later time a retry is due again and each call goes to Redis. *)
Theorem redis_retry_not_rearmed `{RedisClient} `{GoRange} ctx domain r s now w err w1 :
  tripped s = true → time_Now (world s) = (now, w) →
  (retryInterval s <= time_Since now (lastAttempt s))%Z →
  pipe_Exec ctx (record_cmds (keyTTL s) (report_key domain r) r) w = (Some err, w1) →
  let s' := (RedisStorage_RecordUsage ctx domain r s).2 in
  tripped s' = true ∧ lastAttempt s' = lastAttempt s ∧
  ∀ w' now', (now <= now')%Z → (time_Now w').1 = now' → (shouldRetry (with_world w' s')).1 = true.
Proof.
  intros Ht Hn Hdue He.
  assert (∃ f, (RedisStorage_RecordUsage ctx domain r s).2 = with_world w1 (with_fallback f s)) as [f ->].
  { unfold RedisStorage_RecordUsage, isTripped, shouldRetry. rewrite Ht, Hn, (proj2 (Z.leb_le _ _)) by done.
    unfold tryRedisRecordUsage; cbn -[record_cmds]. fold (report_key domain r). rewrite He.
    destruct (record_fallback_cases ctx domain r (with_world w1 (with_world w s))) as [(-> & _)|(-> & _)];
      [exists (fallback s)|eexists]; reflexivity. }
  cbn zeta. split_and!; [done..|]. intros w' now' Hle Hn'. unfold shouldRetry; cbn.
  destruct (time_Now w') as [n w'']. cbn in *. subst n. apply Z.leb_le.
  unfold time_Since in *. lia.
Qed.

Lemma redis_retry_not_rearmed_witness :
  let s := @with_world scripted (mkScript [Some "refused"] [(6 * second)%Z] []) outage_state in
  @lastAttempt scripted (@RedisStorage_RecordUsage scripted range_in_order StreamContext "api" (outage_report 2) s).2 = 7%Z.
Proof.
  intros s. refine (eq_trans (proj1 (proj2 (@redis_retry_not_rearmed scripted range_in_order StreamContext "api"
    (outage_report 2) s (6 * second)%Z (mkScript [Some "refused"] [] []) "refused" (mkScript [] [] []) _ _ _ _))) _);
    [vm_compute; reflexivity|reflexivity|vm_compute; discriminate|reflexivity|vm_compute; reflexivity].
Defined.

(** C38: removal during recovery does not remove: when [RemoveBucket] is the
    call that recovers, Redis deletes the key first and the flush then writes
    back what the fallback holds of the bucket, so the removed bucket is in
    Redis again with its fallback counts. *)
Theorem redis_remove_resurrects `{RedisLog} `{GoRange} ctx domain key s now w w1 w2 st :
  redis_reachable s → tripped s = true → time_Now (world s) = (now, w) →
  (retryInterval s <= time_Since now (lastAttempt s))%Z →
  client_Del ctx (DomainScopedKey domain key) w = (None, w1) →
  pipe_Exec ctx (flush_cmds (keyTTL s) (buckets (fallback s))) w1 = (None, w2) →
  buckets (fallback s) !! DomainScopedKey domain key = Some st →
  let s' := (RedisStorage_RemoveBucket ctx domain key s).2 in
  ∀ c, uint64 (applied c (DomainScopedKey domain key) 0 (executed (world s'))) = count_of c st.
Proof.
  intros Hr Ht Hn Hdue He Hf Hk. pose proof (redis_inv_reachable s Hr) as Hinv. cbn zeta.
  assert ((RedisStorage_RemoveBucket ctx domain key s).2 = recoverFromFallback ctx (with_world w1 s)) as ->.
  { unfold RedisStorage_RemoveBucket, isTripped, shouldRetry. rewrite Ht, Hn, (proj2 (Z.leb_le _ _)) by done.
    unfold redis_Del; cbn. by rewrite He. }
  intros c. destruct (recover_executes ctx (with_world w1 s)) as (l & _ & Ha & [->|[_ He']]);
    [|cbn in He'; by rewrite Hf in He'].
  rewrite Ha, applied_app, applied_flush by apply Hinv. cbn.
  destruct (executed_del ctx (DomainScopedKey domain key) w) as (l & _ & E & Hok). rewrite He in E, Hok. cbn in E, Hok.
  rewrite E, Hok, applied_app, Hk by done. unfold applied at 1; cbn. rewrite decide_True by done.
  destruct (ri_counts s Hinv _ _ Hk) as [??]. destruct c; unfold entry_count; cbn; by apply uint64_id.
Qed.

Lemma redis_remove_resurrects_witness :
  uint64 (applied CAllowed outage_key 0 (script_log (@world scripted
    (@RedisStorage_RemoveBucket scripted range_in_order StreamContext "api"
       (@BucketKeyFromProto range_in_order (report_bucket_id (outage_report 3))) outage_state).2))) = 8%Z.
Proof.
  refine (@redis_remove_resurrects scripted scripted_log range_in_order StreamContext "api"
    (@BucketKeyFromProto range_in_order (report_bucket_id (outage_report 3))) outage_state (10 * second)%Z
    (mkScript [] [] []) _ _ (mkUsageState 8 2) outage_reachable _ _ _ _ _ _ CAllowed);
    [vm_compute; reflexivity|vm_compute; reflexivity|vm_compute; discriminate|reflexivity|reflexivity|
     vm_compute; reflexivity].
Defined.
