(* ===== verification/RedisRace.v ===== *)
(** * Concurrent calls of the Redis store (internal/storage/redis.go)

    RedisStorage.v treats a call of the store as one step. The methods of
    redis.go hold no lock across a call: each reads the breaker, talks to Redis
    and touches the fallback in separate steps, between which the goroutines of
    other streams run. Here a call is a program counter, and calls interleave
    at these steps; a step is a critical section, or a call of Redis that has
    returned. The mutexes themselves are in ServerLocks.v. *)
From S2P Require Import Prelude Proto BucketKey Storage GoStd RedisStorage.

Inductive store_op :=
| OpRecord (ctx : GoContext) (domain : string) (report : UsageReport)
| OpRemove (ctx : GoContext) (domain : string) (key : BucketKey).

(** The next step of a call. *)
Inductive call_at :=
| AtTripped                                  (* s.isTripped() *)
| AtRetry                                    (* s.shouldRetry() *)
| AtTry (wasTripped : bool)                  (* the command sent to Redis *)
| AtTrip                                     (* s.trip() *)
| AtLen                                      (* s.fallback.Len() *)
| AtGet                                      (* s.fallback.Get(scopedKey) *)
| AtFallback                                 (* the fallback's operation *)
| AtAll                                      (* flushFallback: s.fallback.All() *)
| AtFlush (entries : gmap string UsageState) (* flushFallback: pipe.Exec(ctx) *)
| AtClear                                    (* flushFallback: s.fallback.Clear() *)
| AtUntrip                                   (* s.tripped.Store(false) *)
| Returned_.

Section calls.
Context `{RedisClient}.

(** What the call sends to Redis. *)
Definition try_op `{GoRange} (op : store_op) (s : RedisStorage) : option error * RedisStorage :=
  match op with
  | OpRecord ctx domain report => tryRedisRecordUsage ctx (report_key domain report) report s
  | OpRemove ctx domain key => redis_Del ctx (DomainScopedKey domain key) s
  end.

(** What it does to the fallback. *)
Definition fallback_op `{GoRange} (op : store_op) (s : RedisStorage) : RedisStorage :=
  match op with
  | OpRecord ctx domain report => (fallback_RecordUsage ctx domain report s).2
  | OpRemove ctx domain key => (fallback_RemoveBucket ctx domain key s).2
  end.

Definition op_ctx (op : store_op) : GoContext :=
  match op with OpRecord ctx _ _ | OpRemove ctx _ _ => ctx end.

(** While tripped, only a recording call looks at the capacity. *)
Definition to_fallback (op : store_op) (s : RedisStorage) : call_at :=
  match op with
  | OpRecord _ _ _ => if (0 <? maxFallbackKeys s)%Z then AtLen else AtFallback
  | OpRemove _ _ _ => AtFallback
  end.

Definition op_key `{GoRange} (op : store_op) : string :=
  match op with
  | OpRecord _ domain report => report_key domain report
  | OpRemove _ domain key => DomainScopedKey domain key
  end.

Definition call_step `{GoRange} (op : store_op) (at_ : call_at) (s : RedisStorage) : call_at * RedisStorage :=
  match at_ with
  | AtTripped => (if isTripped s then AtRetry else AtTry false, s)
  | AtRetry => let '(retry, s) := shouldRetry s in (if retry then AtTry true else to_fallback op s, s)
  | AtTry wasTripped =>
      match try_op op s with
      | (None, s) => (if wasTripped then AtAll else Returned_, s)
      | (Some _, s) => (if wasTripped then to_fallback op s else AtTrip, s)
      end
  | AtTrip => (AtFallback, trip s)
  | AtLen => (if (maxFallbackKeys s <=? Z.of_nat (Len (fallback s)))%Z then AtGet else AtFallback, s)
  | AtGet => (if (Get (op_key op) (fallback s)).2 then AtFallback else Returned_, s)
  | AtFallback => (Returned_, fallback_op op s)
  | AtAll =>
      let entries := All (fallback s) in
      (if decide (size entries = 0) then AtUntrip else AtFlush entries, s)
  | AtFlush entries =>
      let '(_, w) := pipe_Exec (op_ctx op) (flush_cmds (keyTTL s) entries) (world s) in
      (AtClear, with_world w s)
  | AtClear => (AtUntrip, with_fallback (Clear (fallback s)) s)
  | AtUntrip => (Returned_, with_tripped false s)
  | Returned_ => (Returned_, s)
  end.

(** A call that nobody disturbs. *)
Fixpoint run_call `{GoRange} (fuel : nat) (op : store_op) (at_ : call_at) (s : RedisStorage)
    : call_at * RedisStorage :=
  match fuel with
  | 0 => (at_, s)
  | S fuel => let '(at_, s) := call_step op at_ s in run_call fuel op at_ s
  end.

(** The same operation as one step. *)
Definition atomic_op `{GoRange} (op : store_op) (s : RedisStorage) : RedisStorage :=
  match op with
  | OpRecord ctx domain report => (RedisStorage_RecordUsage ctx domain report s).2
  | OpRemove ctx domain key => (RedisStorage_RemoveBucket ctx domain key s).2
  end.

(** Many calls on one store. *)
Record calls := mkCalls { shared_store : RedisStorage; active : gmap nat (store_op * call_at) }.

Inductive race_step : calls → calls → Prop :=
| race_begin id op c :
    active c !! id = None →
    race_step c (mkCalls (shared_store c) (<[id := (op, AtTripped)]> (active c)))
| race_run (R : GoRange) id op at_ c :
    active c !! id = Some (op, at_) → at_ ≠ Returned_ →
    race_step c (let '(at', s) := call_step op at_ (shared_store c) in
                 mkCalls s (<[id := (op, at')]> (active c)))
| race_end id op c :
    active c !! id = Some (op, Returned_) →
    race_step c (mkCalls (shared_store c) (delete id (active c))).

(** ** How long a call can take *)
Definition steps_left (at_ : call_at) : nat :=
  match at_ with
  | AtTripped => 7 | AtRetry => 6 | AtTry _ => 5 | AtTrip => 2
  | AtLen => 3 | AtGet => 2 | AtFallback => 1
  | AtAll => 4 | AtFlush _ => 3 | AtClear => 2 | AtUntrip => 1
  | Returned_ => 0
  end.

Lemma to_fallback_left op s : steps_left (to_fallback op s) ≤ 3.
Proof. destruct op; cbn; [case_match|]; cbn; lia. Qed.

Lemma call_step_left `{GoRange} op at_ s :
  at_ ≠ Returned_ → steps_left (call_step op at_ s).1 < steps_left at_.
Proof.
  intros Hne. pose proof (λ s, to_fallback_left op s) as Hf. destruct at_; cbn; try (lia || done).
  - case_match; cbn; lia.
  - destruct (shouldRetry s) as [[] s1]; cbn; [lia|]. specialize (Hf s1). lia.
  - destruct (try_op op s) as [[e|] s1]; destruct wasTripped; cbn; try lia. specialize (Hf s1). lia.
  - case_match; cbn; lia.
  - case_match; cbn; lia.
  - case_decide; cbn; lia.
  - destruct (pipe_Exec _ _ _); cbn; lia.
Qed.

(** The steps of call [id] in a run. *)
Inductive own_steps (id : nat) : nat → calls → calls → Prop :=
| own_refl c : own_steps id 0 c c
| own_mine (R : GoRange) n op at_ c c' :
    active c !! id = Some (op, at_) → at_ ≠ Returned_ →
    own_steps id n (let '(at', s) := call_step op at_ (shared_store c) in
                    mkCalls s (<[id := (op, at')]> (active c))) c' →
    own_steps id (S n) c c'
| own_other n c c1 c' :
    race_step c c1 → active c1 !! id = active c !! id → own_steps id n c1 c' → own_steps id n c c'.

Lemma own_steps_bound id n c c' op at_ :
  own_steps id n c c' → active c !! id = Some (op, at_) →
  ∃ at', active c' !! id = Some (op, at') ∧ n + steps_left at' ≤ steps_left at_.
Proof.
  intros Hs. revert at_. induction Hs as [c|R n op' at1 c c' Hid Hne _ IH|n c c1 c' Hstep Hsame _ IH]; intros at_ Hat.
  - by exists at_.
  - rewrite Hid in Hat. injection Hat as -> ->. pose proof (call_step_left op at_ (shared_store c) Hne) as Hlt.
    destruct (call_step op at_ (shared_store c)) as [at' s]; cbn in *.
    destruct (IH at') as (at2 & ? & ?); [apply lookup_insert_eq|]. exists at2. split; [done|lia].
  - apply IH. by rewrite Hsame.
Qed.

(** ** An undisturbed call is the atomic operation *)
Lemma run_call_returned `{GoRange} n op s : run_call n op Returned_ s = (Returned_, s).
Proof. induction n; cbn; done. Qed.

Lemma run_call_mono `{GoRange} m n op at_ s s' :
  run_call m op at_ s = (Returned_, s') → m ≤ n → run_call n op at_ s = (Returned_, s').
Proof.
  revert n at_ s. induction m as [|m IH]; intros n at_ s; cbn.
  - intros [= -> ->] _. apply run_call_returned.
  - destruct n as [|n]; [lia|]. cbn. destruct (call_step op at_ s) as [at' s1]. intros. apply IH; [done|lia].
Qed.

Lemma run_recover `{GoRange} op s :
  run_call 4 op AtAll s = (Returned_, recoverFromFallback (op_ctx op) s).
Proof.
  cbn. unfold recoverFromFallback, flushFallback. case_decide; cbn; [done|].
  by destruct (pipe_Exec _ _ _).
Qed.

Lemma run_call_S `{GoRange} n op at_ s :
  run_call (S n) op at_ s = run_call n op (call_step op at_ s).1 (call_step op at_ s).2.
Proof. cbn. by destruct (call_step op at_ s). Qed.

(** The way through the fallback while tripped. *)
Definition fallback_branch `{GoRange} (op : store_op) (s : RedisStorage) : RedisStorage :=
  match op with
  | OpRecord ctx domain report => (record_fallback ctx domain report s).2
  | OpRemove ctx domain key => (fallback_RemoveBucket ctx domain key s).2
  end.

Lemma run_fallback `{GoRange} n op s :
  3 ≤ n → run_call n op (to_fallback op s) s = (Returned_, fallback_branch op s).
Proof.
  intros Hn. apply (run_call_mono 3); [|done]. destruct op as [ctx domain r|ctx domain key]; [|done].
  unfold to_fallback, fallback_branch, record_fallback. fold (report_key domain r).
  destruct (0 <? maxFallbackKeys s)%Z; [|done]. cbn.
  destruct (maxFallbackKeys s <=? Z.of_nat (Len (fallback s)))%Z; [|done]. cbn.
  unfold op_key. by destruct (Get (report_key domain r) (fallback s)) as [? []].
Qed.

(** The two operations have one shape. *)
Lemma atomic_op_eq `{GoRange} op s :
  atomic_op op s =
    if isTripped s then
      let '(retry, s) := shouldRetry s in
      if retry then
        match try_op op s with
        | (None, s) => recoverFromFallback (op_ctx op) s
        | (Some _, s) => fallback_branch op s
        end
      else fallback_branch op s
    else
      match try_op op s with
      | (Some _, s) => fallback_op op (trip s)
      | (None, s) => s
      end.
Proof.
  destruct op as [ctx domain r|ctx domain key]; unfold atomic_op, try_op.
  - unfold RedisStorage_RecordUsage. fold (report_key domain r).
    destruct (isTripped s); [destruct (shouldRetry s) as [[] s1]; [|done]|];
      by destruct (tryRedisRecordUsage _ _ _ _) as [[e|] s2].
  - unfold RedisStorage_RemoveBucket.
    destruct (isTripped s); [destruct (shouldRetry s) as [[] s1]; [|done]|];
      by destruct (redis_Del _ _ _) as [[e|] s2].
Qed.

Lemma run_call_alone `{GoRange} op s : run_call 7 op AtTripped s = (Returned_, atomic_op op s).
Proof.
  rewrite atomic_op_eq, run_call_S. cbn [call_step fst snd]. destruct (isTripped s).
  - rewrite run_call_S. cbn [call_step]. destruct (shouldRetry s) as [[] s1]; cbn [fst snd];
      [|by apply run_fallback; lia].
    rewrite run_call_S. cbn [call_step]. destruct (try_op op s1) as [[e|] s2]; cbn [fst snd];
      [by apply run_fallback; lia|apply run_recover].
  - rewrite run_call_S. cbn [call_step]. destruct (try_op op s) as [[e|] s1]; cbn [fst snd]; [|apply run_call_returned].
    done.
Qed.

(** A call that runs some steps undisturbed, among the others. *)
Lemma race_run_n `{GoRange} n id op at_ at' s' c :
  active c !! id = Some (op, at_) → run_call n op at_ (shared_store c) = (at', s') →
  rtc race_step c (mkCalls s' (<[id := (op, at')]> (active c))).
Proof.
  revert at_ c. induction n as [|n IH]; intros at_ c Hid Hrun.
  { injection Hrun as <- <-. rewrite insert_id by done. by destruct c. }
  assert (at_ = Returned_ ∨ at_ ≠ Returned_) as [->|Hne] by (destruct at_; auto).
  { rewrite run_call_returned in Hrun. injection Hrun as <- <-. rewrite insert_id by done. by destruct c. }
  rewrite run_call_S in Hrun. eapply rtc_l; [by apply (race_run _ id op at_)|].
  destruct (call_step op at_ (shared_store c)) as [at1 s1]; cbn in Hrun.
  pose proof (IH at1 (mkCalls s1 (<[id := (op, at1)]> (active c))) (lookup_insert_eq _ _ _) Hrun) as Hrest.
  cbn in Hrest. by rewrite insert_insert_eq in Hrest.
Qed.
End calls.

(** ** Properties *)

(** A call of the store has at most seven steps, whatever the other calls do in
    between; and a call that nobody disturbs is, after its seven steps, the
    operation of RedisStorage.v. (A step is a critical section or a call of Redis
    that has returned; that the mutexes cannot deadlock is shown in
    ServerLocks.v.) *)
Theorem redis_call_steps_bounded `{RedisClient} id n c c' op at_ :
  own_steps id n c c' → active c !! id = Some (op, at_) →
  (∃ at', active c' !! id = Some (op, at') ∧ n + steps_left at' ≤ 7 ∧
    (at' ≠ Returned_ → ∀ R : GoRange, ∃ c'' at'', race_step c' c'' ∧
       active c'' !! id = Some (op, at'') ∧ steps_left at'' < steps_left at')) ∧
  ∀ (R : GoRange) s, run_call 7 op AtTripped s = (Returned_, atomic_op op s).
Proof.
  intros Hs Hid. split; [|intros; apply run_call_alone].
  destruct (own_steps_bound id n c c' op at_ Hs Hid) as (at' & Hid' & Hle). exists at'. split_and!; [done| |].
  - assert (steps_left at_ ≤ 7) by (destruct at_; cbn; lia). lia.
  - intros Hne R. pose proof (call_step_left op at' (shared_store c') Hne) as Hlt.
    pose proof (race_run R id op at' c' Hid' Hne) as Hstep.
    destruct (call_step op at' (shared_store c')) as [at'' s]. eexists _, at''.
    split_and!; [exact Hstep|apply lookup_insert_eq|done].
Qed.

(** ** Recovery by two calls at once *)
Section recovery.
Context `{RedisLog} `{GoRange}.
Implicit Types s : RedisStorage.

(** In the worlds [up] Redis answers, and goes on doing so; there a retry is
    due whenever the clock is read. *)
Record redis_up (up : redis_world → Prop) : Prop := {
  up_exec ctx cmds w : up w → (pipe_Exec ctx cmds w).1 = None ∧ up (pipe_Exec ctx cmds w).2;
  up_now w : up w → up (time_Now w).2;
}.

Definition retry_due (up : redis_world → Prop) (s : RedisStorage) : Prop :=
  up (world s) ∧ ∀ w, up w → (retryInterval s <= time_Since (time_Now w).1 (lastAttempt s))%Z.

Lemma run_to_flush up ctx domain r s :
  redis_up up → retry_due up s → tripped s = true → buckets (fallback s) ≠ ∅ →
  ∃ s1, run_call 4 (OpRecord ctx domain r) AtTripped s = (AtFlush (buckets (fallback s)), s1) ∧
    executes (record_cmds (keyTTL s) (report_key domain r) r) s s1 ∧ same_books s s1 ∧ retry_due up s1.
Proof.
  intros Hup [Hw Hdue] Ht Hne. set (s1 := (shouldRetry s).2).
  set (s2 := (tryRedisRecordUsage ctx (report_key domain r) r s1).2).
  pose proof (shouldRetry_books s) as Hb1. pose proof (shouldRetry_executes s) as Ha1.
  pose proof (tryRedis_books ctx (report_key domain r) r s1) as Hb2.
  destruct (tryRedis_executes ctx (report_key domain r) r s1) as (l & _ & Ha2 & Hok & _). fold s1 in Hb1, Ha1. fold s2 in Hb2, Ha2.
  assert ((shouldRetry s).1 = true ∧ up (world s1) ∧ retryInterval s1 = retryInterval s ∧
    lastAttempt s1 = lastAttempt s) as (Eretry & Hw1 & Ei1 & El1).
  { unfold s1, shouldRetry. specialize (Hdue _ Hw). pose proof (up_now _ Hup _ Hw).
    destruct (time_Now (world s)); cbn in *. by rewrite (proj2 (Z.leb_le _ _)). }
  assert ((tryRedisRecordUsage ctx (report_key domain r) r s1).1 = None ∧ up (world s2) ∧
    retryInterval s2 = retryInterval s1 ∧ lastAttempt s2 = lastAttempt s1) as (Etry & Hw2 & Ei2 & El2).
  { unfold s2, tryRedisRecordUsage.
    pose proof (up_exec _ Hup ctx (record_cmds (keyTTL s1) (report_key domain r) r) _ Hw1) as [??].
    by destruct (pipe_Exec _ _ _). }
  exists s2. split_and!.
  - rewrite run_call_S. cbn [call_step fst snd]. unfold isTripped. rewrite Ht.
    rewrite run_call_S. cbn [call_step]. rewrite (surjective_pairing (shouldRetry s)), Eretry. fold s1. cbn [fst snd].
    rewrite run_call_S. cbn [call_step try_op].
    rewrite (surjective_pairing (tryRedisRecordUsage _ _ _ _)), Etry. fold s2. cbn [fst snd].
    rewrite run_call_S. cbn [call_step fst snd run_call]. rewrite All_buckets.
    destruct Hb1 as (Ef1 & _), Hb2 as (Ef2 & _). rewrite Ef2, Ef1, decide_False; [done|].
    intros Hz. by apply map_size_empty_inv in Hz.
  - rewrite (Hok Etry) in Ha2. destruct Hb1 as (_ & _ & _ & Ek). rewrite <-Ek. exact (executes_trans [] _ _ _ _ Ha1 Ha2).
  - by eapply same_books_trans.
  - split; [done|]. intros w Hup'. rewrite Ei2, El2, Ei1, El1. by apply Hdue.
Qed.

Lemma applied_record_mod c k z ttl key r :
  uint64 (applied c k z (record_cmds ttl key r)) = uint64 (z + if decide (key = k) then report_count c r else 0).
Proof. rewrite applied_record. case_decide; [apply uint64_add_int64|done]. Qed.

Lemma run_from_flush up op entries s :
  redis_up up → up (world s) →
  ∃ s1, run_call 3 op (AtFlush entries) s = (Returned_, s1) ∧
    executes (flush_cmds (keyTTL s) entries) s s1 ∧ buckets (fallback s1) = ∅ ∧ tripped s1 = false ∧
    keyTTL s1 = keyTTL s ∧ up (world s1).
Proof.
  intros Hup Hw. pose proof (up_exec _ Hup (op_ctx op) (flush_cmds (keyTTL s) entries) _ Hw) as [E Hw'].
  destruct (executed_exec (op_ctx op) (flush_cmds (keyTTL s) entries) (world s)) as (l & _ & Ea & Hok). cbn.
  destruct (pipe_Exec _ _ _) as [e w]; cbn in *. subst e. rewrite (Hok eq_refl) in Ea. eexists. by split_and!.
Qed.

(** A report lost: a call that has decided for the fallback records there
    between the snapshot and the clearing of a recovery. *)
Theorem concurrent_flush_loses_report ctx domain r op entries s id1 id2 :
  id1 ≠ id2 →
  ∃ s', rtc race_step
      (mkCalls s (<[id1 := (op, AtFlush entries)]> {[id2 := (OpRecord ctx domain r, AtFallback)]}))
      (mkCalls s' (<[id1 := (op, Returned_)]> {[id2 := (OpRecord ctx domain r, Returned_)]})) ∧
    buckets (fallback s') = ∅ ∧
    executed (world s') = executed (pipe_Exec (op_ctx op) (flush_cmds (keyTTL s) entries) (world s)).2.
Proof.
  intros Hid. set (s1 := (call_step op (AtFlush entries) s).2).
  set (s2 := (fallback_RecordUsage ctx domain r s1).2).
  exists (with_tripped false (with_fallback (Clear (fallback s2)) s2)). split_and!; [|done|].
  - etrans; [eapply (race_run_n 1 id1 _ _ AtClear s1); [apply lookup_insert_eq|]|].
    { cbn. unfold s1. cbn. by destruct (pipe_Exec _ _ _). }
    etrans; [eapply (race_run_n 1 id2); [cbn; by simplify_map_eq|done]|].
    etrans; [eapply (race_run_n 2 id1); [cbn; by simplify_map_eq|done]|]. cbn.
    apply reflexive_eq. f_equal. apply map_eq. intros i.
    destruct (decide (i = id1)) as [->|]; [|destruct (decide (i = id2)) as [->|]]; by simplify_map_eq.
  - unfold s2, s1. cbn. by destruct (pipe_Exec _ _ _).
Qed.

(** C37: two recoveries at once count the fallback twice: when a retry is due
    and Redis answers, two concurrent recording calls can both take the same
    snapshot of the fallback and both flush it; Redis then holds, for every
    key, what the store held and both reports, and once more what the fallback
    held. *)
Theorem concurrent_recovery_double_counts up ctx domain1 r1 domain2 r2 s id1 id2 :
  redis_reachable s → redis_up up → retry_due up s → tripped s = true → buckets (fallback s) ≠ ∅ → id1 ≠ id2 →
  ∃ s', rtc race_step
      (mkCalls s (<[id1 := (OpRecord ctx domain1 r1, AtTripped)]> {[id2 := (OpRecord ctx domain2 r2, AtTripped)]}))
      (mkCalls s' (<[id1 := (OpRecord ctx domain1 r1, Returned_)]> {[id2 := (OpRecord ctx domain2 r2, Returned_)]})) ∧
    buckets (fallback s') = ∅ ∧ tripped s' = false ∧
    ∀ c k, uint64 (applied c k 0 (executed (world s'))) =
      uint64 (balance c k s +
        (if decide (report_key domain1 r1 = k) then report_count c r1 else 0) +
        (if decide (report_key domain2 r2 = k) then report_count c r2 else 0) +
        entry_count c (buckets (fallback s) !! k)).
Proof.
  intros Hinv%redis_inv_reachable Hup Hdue Ht Hne Hid.
  set (op1 := OpRecord ctx domain1 r1). set (op2 := OpRecord ctx domain2 r2). set (e := buckets (fallback s)).
  destruct (run_to_flush up ctx domain1 r1 s Hup Hdue Ht Hne) as (s1 & Hrun1 & Ha1 & (Ef1 & Et1 & _ & Ek1) & Hdue1).
  destruct (run_to_flush up ctx domain2 r2 s1 Hup Hdue1) as (s2 & Hrun2 & Ha2 & (Ef2 & _ & _ & Ek2) & [Hw2 _]);
    [congruence..|].
  rewrite Ef1 in Hrun2. fold e op1 in Hrun1. fold e op2 in Hrun2.
  destruct (run_from_flush up op1 e s2 Hup Hw2) as (s3 & Hrun3 & Ha3 & _ & _ & Ek3 & Hw3).
  destruct (run_from_flush up op2 e s3 Hup Hw3) as (s4 & Hrun4 & Ha4 & Ef4 & Et4 & _).
  exists s4. split_and!; [|done|done|].
  - etrans; [eapply (race_run_n 4 id1); [apply lookup_insert_eq|done]|].
    etrans; [eapply (race_run_n 4 id2); [cbn; by simplify_map_eq|done]|].
    etrans; [eapply (race_run_n 3 id1); [cbn; by simplify_map_eq|done]|].
    etrans; [eapply (race_run_n 3 id2); [cbn; by simplify_map_eq|done]|]. cbn.
    apply reflexive_eq. f_equal. apply map_eq. intros i.
    destruct (decide (i = id1)) as [->|]; [|destruct (decide (i = id2)) as [->|]]; by simplify_map_eq.
  - intros c k. unfold executes in *. rewrite Ha4, Ha3, Ha2, Ha1, !applied_app, Ek3, Ek2, Ek1.
    assert (counts_ok e) as He by apply Hinv.
    rewrite applied_flush by done. rewrite (uint64_congr _ _ _ (applied_flush c k _ (keyTTL s) e He)), <-Z.add_assoc.
    rewrite (uint64_congr _ _ _ (applied_record_mod c k _ (keyTTL s) (report_key domain2 r2) r2)), <-Z.add_assoc.
    rewrite (uint64_congr _ _ _ (applied_record_mod c k _ (keyTTL s) (report_key domain1 r1) r1)).
    unfold balance. fold e. f_equal. lia.
Qed.
End recovery.

(** A client whose next [fails] calls fail, with a clock that stands still. *)
Record flaky := mkFlaky { fails : nat; flaky_now : Z; flaky_log : list RedisCmd }.

Definition flaky_call (cmds : list RedisCmd) (w : flaky) : option error * flaky :=
  match fails w with
  | 0 => (None, mkFlaky 0 (flaky_now w) (flaky_log w ++ cmds))
  | S n => (Some "refused", mkFlaky n (flaky_now w) (flaky_log w))
  end.

Definition flaky_client : RedisClient := {|
  redis_world := flaky;
  pipe_Exec _ := flaky_call;
  client_Del _ key := flaky_call [Del key];
  time_Now w := (flaky_now w, w);
|}.

Definition flaky_client_log : @RedisLog flaky_client.
Proof.
  refine (@Build_RedisLog flaky_client flaky_log _ _ _); [..|done]; intros; cbn; unfold flaky_call;
    (destruct (fails w); cbn; [by eexists|exists []; split_and!; [apply sublist_nil_l|by rewrite app_nil_r|done]]).
Defined.

Section demo.
#[local] Existing Instance flaky_client.
#[local] Existing Instance range_in_order.

(** Redis refused one report of 5 for alice; ten seconds later it is up. *)
Definition race_start : RedisStorage :=
  NewRedisStorage (λ _, mkFlaky 1 0 []) outage_config.
Definition race_tripped : RedisStorage :=
  with_world (mkFlaky 0 (10 * second) [])
    (RedisStorage_RecordUsage StreamContext "api" (outage_report 5) race_start).2.

Lemma race_tripped_reachable : redis_reachable race_tripped.
Proof.
  exists (λ _, mkFlaky 1 0 []), outage_config. eapply rtc_l; [|apply rtc_once, redis_step_world].
  apply (redis_step_record range_in_order StreamContext "api" (outage_report 5)).
  split; cbn; unfold in_uint64; lia.
Qed.

Definition flaky_up (w : flaky) : Prop := fails w = 0 ∧ flaky_now w = (10 * second)%Z.

Lemma flaky_redis_up : redis_up flaky_up.
Proof.
  split; [|done]. intros ctx cmds w [Hf Hn]. cbn. unfold flaky_call, flaky_up. rewrite Hf. by split_and!.
Qed.
End demo.

(** Both calls report 2; Redis ends at 5 + 2 + 2 + 5. *)
Lemma concurrent_recovery_double_counts_witness :
  ∃ s', rtc (@race_step flaky_client)
      (mkCalls race_tripped (<[1 := (OpRecord StreamContext "api" (outage_report 2), AtTripped)]>
         {[2 := (OpRecord StreamContext "api" (outage_report 2), AtTripped)]}))
      (mkCalls s' (<[1 := (OpRecord StreamContext "api" (outage_report 2), Returned_)]>
         {[2 := (OpRecord StreamContext "api" (outage_report 2), Returned_)]})) ∧
    uint64 (applied CAllowed outage_key 0 (flaky_log (@world flaky_client s'))) = 14%Z.
Proof.
  destruct (@concurrent_recovery_double_counts flaky_client flaky_client_log range_in_order flaky_up
    StreamContext "api" (outage_report 2) "api" (outage_report 2) race_tripped 1 2
    race_tripped_reachable flaky_redis_up) as (s' & Hs' & _ & _ & Hc).
  - split; [done|]. intros w [_ Hn]. cbn. rewrite Hn. vm_compute. discriminate.
  - vm_compute. reflexivity.
  - intros He. apply (f_equal size) in He. by vm_compute in He.
  - lia.
  - exists s'. split; [exact Hs'|]. etrans; [exact (Hc CAllowed outage_key)|]. vm_compute. reflexivity.
Defined.

Lemma redis_call_steps_bounded_witness :
  ∃ at', @active flaky_client (mkCalls race_tripped {[1 := (OpRecord StreamContext "api" (outage_report 2), AtRetry)]}) !! 1 =
      Some (OpRecord StreamContext "api" (outage_report 2), at') ∧ 1 + steps_left at' ≤ 7.
Proof.
  destruct (proj1 (@redis_call_steps_bounded flaky_client 1 1
    (mkCalls race_tripped {[1 := (OpRecord StreamContext "api" (outage_report 2), AtTripped)]})
    (mkCalls race_tripped {[1 := (OpRecord StreamContext "api" (outage_report 2), AtRetry)]})
    (OpRecord StreamContext "api" (outage_report 2)) AtTripped
    ltac:(eapply (own_mine 1 range_in_order); [reflexivity|discriminate|]; apply own_refl) eq_refl))
    as (at' & Hid & Hle & _).
  exists at'. exact (conj Hid Hle).
Defined.
