(* ===== verification/RedisServer.v ===== *)
(** * The server and its store together (server.go on redis.go)

    Server.v proves its bookkeeping for any [BucketStore]; RedisStorage.v proves
    what one call of the Redis store does. Here both are put together: the
    server never reads its store, so an outage of Redis changes nothing a client
    or an operator sees; and every report of an accepted message has one of the
    outcomes a call of the Redis store can have. *)
From S2P Require Import Prelude GoStd Proto BucketKey Storage Config Quota DomainClassifier.
From S2P Require Import Server ServerInv ServerProps ServerMessages RedisStorage.

(** ** The store is write-only

    A store that keeps nothing, and a server seen without its store. *)
#[export] Instance unit_BucketStore : BucketStore unit :=
  {| RecordUsage R ctx domain report s := (None, tt); RemoveBucket R ctx domain key s := (None, tt) |}.

Section view.
Context `{Regexp, DurationPb, GoRange} {St : Type} `{BucketStore St}.
Implicit Types s : RLQSServer St.

Definition view (s : RLQSServer St) : RLQSServer unit :=
  mkRLQSServer tt (engine s) (domainClassifier s) (limits s) (streams s) (bucketRefs s) (metrics s) (outbox s).

(** The result of an operation, seen without the store. *)
Definition viewed {A} (r : RLQSServer St * A) : RLQSServer unit * A := (view r.1, r.2).

Lemma view_bind_domain id req s : bind_domain id req (view s) = viewed (bind_domain id req s).
Proof.
  unfold bind_domain, get_stream. cbn. repeat case_match; done.
Qed.

Lemma view_subscribe id key bid s : subscribe id key bid (view s) = viewed (subscribe id key bid s).
Proof. unfold subscribe, get_stream. cbn. repeat case_match; done. Qed.

Lemma view_release ctx domain key s : release_bucket ctx domain key (view s) = view (release_bucket ctx domain key s).
Proof. unfold release_bucket. cbn. by case_match. Qed.

Lemma view_handle_usage id u s : handle_usage id u (view s) = viewed (handle_usage id u s).
Proof.
  unfold handle_usage. destruct (usage_bucket_id u) as [bid|]; [|done].
  case_match; [done|]. cbn [limits view]. case_match; [done|]. rewrite view_subscribe.
  by destruct (subscribe _ _ _ s) as [s1 [err|]].
Qed.

Lemma view_handle_usages id us reports s :
  handle_usages id us reports (view s) = viewed (handle_usages id us reports s).
Proof.
  revert reports s. induction us as [|u us IH]; intros reports s; [done|]. cbn. rewrite view_handle_usage.
  destruct (handle_usage id u s) as [s1 [[r|]|err]]; cbn; [apply IH..|done].
Qed.

Lemma view_abandon_action id a s : abandon_action id a (view s) = view (abandon_action id a s).
Proof.
  unfold abandon_action. case_match; [|done]. unfold get_stream. cbn [streams view].
  case_match; [|done]. cbn zeta.
  change (put_stream id ?ss (view s)) with (view (put_stream id ss s)). by rewrite view_release.
Qed.

Lemma view_abandon_actions id actions s : abandon_actions id actions (view s) = view (abandon_actions id actions s).
Proof.
  unfold abandon_actions. revert s. induction actions as [|a actions IH]; intros s; cbn; [done|].
  by rewrite view_abandon_action, IH.
Qed.

Lemma view_send_response Send id actions s :
  send_response Send id actions (view s) = viewed (send_response Send id actions s).
Proof. unfold send_response. by case_match. Qed.

Lemma view_consult_engine Send id reports s :
  consult_engine Send id reports (view s) = viewed (consult_engine Send id reports s).
Proof.
  unfold consult_engine. cbn zeta.
  change (get_stream id (with_metrics _ (view s))) with (get_stream id (with_metrics (λ m, m) s)).
  change (engine_ctx (with_metrics ?f (view s))) with (engine_ctx (with_metrics f s)).
  change (engine (with_metrics ?f (view s))) with (engine (with_metrics f s)).
  change (get_stream id (view s)) with (get_stream id s).
  change (get_stream id (with_metrics (λ m, m) s)) with (get_stream id s).
  change (get_stream id (with_metrics ?f s)) with (get_stream id s).
  destruct (ProcessUsage _ _ _ _) as [[|a actions]|err]; [done| |done].
  change (with_metrics ?f (with_metrics ?g (with_metrics ?h (view s))))
    with (view (with_metrics f (with_metrics g (with_metrics h s)))).
  by rewrite view_abandon_actions, view_send_response.
Qed.

Lemma view_handleMessage Send id req s : handleMessage Send id req (view s) = viewed (handleMessage Send id req s).
Proof.
  unfold handleMessage. rewrite view_bind_domain. destruct (bind_domain id req s) as [s1 [err|]]; cbn [viewed fst snd]; [done|].
  cbn [limits view]. case_decide; [done|]. destruct (_ && _); [done|]. rewrite view_handle_usages.
  destruct (handle_usages _ _ _ s1) as [s2 [reports|err]]; cbn [viewed fst snd]; [|done]. apply view_consult_engine.
Qed.

Lemma view_close_stream id s : close_stream id (view s) = view (close_stream id s).
Proof.
  unfold close_stream, cleanupStream. change (get_stream id (with_metrics ?f (view s))) with (get_stream id (with_metrics f s)).
  cbn zeta. case_match; [|done].
  change (with_streams ?f (with_metrics ?g (view s))) with (view (with_streams f (with_metrics g s))).
  generalize (with_streams (delete id) (with_metrics (streams_add (-1)) s)) as s1.
  generalize ((map_range (subscriptions (get_stream id (with_metrics (streams_add (-1)) s)))).*1) as keys.
  intros keys. induction keys as [|k keys IH]; intros s1; cbn; [done|].
  rewrite <-IH. f_equal. unfold cleanup_bucket.
  change (with_metrics ?f (view s1)) with (view (with_metrics f s1)). apply view_release.
Qed.

Lemma view_push Send e s : pushAssignments Send e (view s) = view (pushAssignments Send e s).
Proof.
  unfold pushAssignments. cbn [streams view]. generalize ((map_range (streams s)).*1) as ids. intros ids.
  revert s. induction ids as [|id ids IH]; intros s; cbn; [done|]. rewrite <-IH. f_equal.
  unfold push_stream. change (get_stream id (view s)) with (get_stream id s).
  change (engine_ctx (view s)) with (engine_ctx s). case_match; [done|].
  destruct (ProcessUsage _ _ _ _) as [[|a actions]|err]; [done| |done]. cbn zeta.
  change (with_metrics ?f (view s)) with (view (with_metrics f s)). by rewrite view_send_response.
Qed.
End view.

Section sessions.
Context `{Regexp, DurationPb, GoRange} {St : Type} `{BucketStore St}.
Implicit Types s : RLQSServer St.

Lemma view_recv_loop id msgs last s : recv_loop id msgs last (view s) = viewed (recv_loop id msgs last s).
Proof.
  revert s. induction msgs as [|[Send req] msgs IH]; intros s; cbn; [done|]. rewrite view_handleMessage.
  destruct (handleMessage Send id req s) as [s1 [err|]]; cbn; [done|]. apply IH.
Qed.

Lemma view_session id msgs last s :
  StreamRateLimitQuotas id msgs last (view s) = viewed (StreamRateLimitQuotas id msgs last s).
Proof.
  unfold StreamRateLimitQuotas. change (open_stream id (view s)) with (view (open_stream id s)).
  rewrite view_recv_loop. destruct (recv_loop id msgs last (open_stream id s)) as [s1 err]; cbn.
  unfold viewed. cbn. by rewrite view_close_stream.
Qed.
End sessions.

(** What the protobuf decoder guarantees of the counts. *)
Definition typed_request (req : RateLimitQuotaUsageReports) : Prop :=
  Forall (λ u, in_uint64 (usage_num_requests_allowed u) ∧ in_uint64 (usage_num_requests_denied u))
    (req_bucket_quota_usages req).

Lemma typed_reports `{DurationPb} req :
  typed_request req → Forall report_in_range (usage_report <$> asked (req_bucket_quota_usages req)).
Proof.
  intros Hreq. apply Forall_fmap, Forall_forall. intros u [_ Hu]%list_elem_of_filter.
  unfold typed_request in Hreq. rewrite Forall_forall in Hreq. by apply Hreq.
Qed.

(** ** The store under the handlers

    A relation that holds for the calls of a store holds, repeated, for the
    handlers of the server on it. *)
Section calls.
Context `{Regexp, DurationPb} {St : Type} `{BucketStore St} (call : St → St → Prop).
Hypothesis call_record : ∀ (R : GoRange) ctx domain r st, report_in_range r → call st (RecordUsage ctx domain r st).2.
Hypothesis call_remove : ∀ (R : GoRange) ctx domain key st, call st (RemoveBucket ctx domain key st).2.
Implicit Types s : RLQSServer St.

Lemma release_store `{GoRange} ctx domain key s : rtc call (store s) (store (release_bucket ctx domain key s)).
Proof. unfold release_bucket. case_match; cbn; [apply rtc_once, call_remove|done]. Qed.

Lemma abandon_actions_store `{GoRange} id actions s : rtc call (store s) (store (abandon_actions id actions s)).
Proof.
  unfold abandon_actions. revert s. induction actions as [|a actions IH]; intros s; cbn; [done|].
  etrans; [|apply IH]. unfold abandon_action. case_match; [|done]. case_match; [|done].
  match goal with |- context [release_bucket ?c ?d ?k ?s1] => exact (release_store c d k s1) end.
Qed.

Lemma close_stream_store `{GoRange} id s : rtc call (store s) (store (close_stream id s)).
Proof.
  unfold close_stream, cleanupStream. case_match; [|done].
  set (ss := get_stream _ _). generalize ((map_range (subscriptions ss)).*1) as keys. intros keys.
  change (store s) with (store (with_streams (delete id) (with_metrics (streams_add (-1)) s))).
  generalize (with_streams (delete id) (with_metrics (streams_add (-1)) s)) as s1.
  induction keys as [|k keys IH]; intros s1; cbn; [done|]. etrans; [|apply IH].
  exact (release_store Background (ss_domain ss) k (with_metrics (buckets_add (metricDomain ss) (-1)) s1)).
Qed.

Lemma record_all_store `{GoRange} domain (st : St) rs :
  Forall report_in_range rs → rtc call st (record_all domain st rs).
Proof.
  intros Hall. revert st. induction Hall as [|r rs Hr _ IH]; intros st; [done|].
  unfold record_all. cbn. eapply rtc_l; [by apply (call_record _ StreamContext domain r)|]. apply IH.
Qed.

(** Up to the engine. *)
Lemma collect_store `{GoRange} id req s s1 :
  typed_request req → is_Some (streams s !! id) → bind_domain id req s = (s1, None) →
  rtc call (store s) (store (handle_usages id (req_bucket_quota_usages req) [] s1).1).
Proof.
  intros Hreq [ss Hid] Eb. pose proof (bind_domain_spec id req s ss Hid) as Hspec. rewrite Eb in Hspec.
  destruct Hspec as (_ & _ & <- & _ & _ & _ & _ & ss1 & Hid1 & Hb1 & _).
  destruct (handle_usages_recorded id (req_bucket_quota_usages req) [] s1 (ss_domain ss1)) as (rs & [k Ek] & -> & _);
    [by exists ss1|].
  apply record_all_store. pose proof (typed_reports req Hreq) as Hall. rewrite Ek in Hall.
  by apply Forall_app in Hall as [? _].
Qed.

Lemma handleMessage_store `{GoRange} Send id req s :
  typed_request req → is_Some (streams s !! id) → rtc call (store s) (store (handleMessage Send id req s).1).
Proof.
  intros Hreq Hid. unfold handleMessage. pose proof (λ s1, collect_store id req s s1 Hreq Hid) as Hc.
  destruct Hid as [ss Hid]. pose proof (bind_domain_spec id req s ss Hid) as Hspec.
  destruct (bind_domain id req s) as [s1 [err|]]; cbn; [by subst|].
  specialize (Hc s1 eq_refl). destruct Hspec as (_ & _ & Est & _).
  case_decide; [by rewrite <-Est|]. destruct (_ && _); [by rewrite <-Est|].
  destruct (handle_usages _ _ _ s1) as [s2 [reports|err]]; cbn in *; [|done]. etrans; [exact Hc|].
  unfold consult_engine. destruct (ProcessUsage _ _ _ _) as [[|a actions]|err]; [done| |done].
  unfold send_response. case_match; cbn [fst store with_sent];
    match goal with |- context [abandon_actions id ?l ?s3] => exact (abandon_actions_store id l s3) end.
Qed.

Lemma handleMessage_p_store `{GoRange} Panics Send id req s :
  typed_request req → is_Some (streams s !! id) →
  rtc call (store s) (store (handleMessage_p Panics Send id req s).1).
Proof.
  intros Hreq Hid.
  destruct (handleMessage_p_cases Panics Send id req s) as [->|(s1 & s2 & reports & v & Eb & Eu & _ & ->)];
    [by apply handleMessage_store|].
  pose proof (collect_store id req s s1 Hreq Hid Eb) as Hc. by rewrite Eu in Hc.
Qed.
End calls.

(** ** The server on the Redis store *)
Section wire.
Context `{Regexp, DurationPb, RedisClient}.
Implicit Types s : RLQSServer RedisStorage.

(** The steps of the server with messages from the wire, and the world around
    the Redis client (the clock, the network, Redis itself). *)
Inductive wire_step : RLQSServer RedisStorage → RLQSServer RedisStorage → Prop :=
| wire_message (R : GoRange) Send s id req :
    typed_request req → is_Some (streams s !! id) → wire_step s (handleMessage Send id req s).1
| wire_panic (R : GoRange) Panics Send s id req :
    typed_request req → is_Some (streams s !! id) → wire_step s (handleMessage_p Panics Send id req s).1
| wire_close (R : GoRange) s id :
    is_Some (streams s !! id) → wire_step s (close_stream id s)
| wire_quiet s s' : server_step s s' → store s' = store s → wire_step s s'
| wire_world w s : wire_step s (with_store (with_world w (store s)) s).

Definition wire_reachable s : Prop :=
  ∃ NewClient rcfg e cfg classifier, rtc wire_step (NewRLQS (NewRedisStorage NewClient rcfg) e cfg classifier) s.

Lemma wire_store s s' : wire_step s s' → rtc redis_step (store s) (store s').
Proof.
  assert (∀ (R : GoRange) ctx domain r (st : RedisStorage),
    report_in_range r → redis_step st (RecordUsage ctx domain r st).2) as Hrec by (intros; by constructor).
  assert (∀ (R : GoRange) ctx domain key (st : RedisStorage),
    redis_step st (RemoveBucket ctx domain key st).2) as Hrem by (intros; by constructor).
  destruct 1 as [R Send s id req Hreq Hid|R Panics Send s id req Hreq Hid|R s id Hid|s s' _ ->|w s].
  - by apply handleMessage_store.
  - by apply handleMessage_p_store.
  - by apply close_stream_store.
  - done.
  - apply rtc_once, redis_step_world.
Qed.

Lemma wire_reachable_store s : wire_reachable s → redis_reachable (store s).
Proof.
  intros (NewClient & rcfg & e & cfg & c & Hs). exists NewClient, rcfg.
  change (NewRedisStorage NewClient rcfg) with (store (NewRLQS (NewRedisStorage NewClient rcfg) e cfg c)).
  induction Hs as [|s1 s2 s3 Hs _ IH]; [done|]. etrans; [by apply wire_store|done].
Qed.
End wire.

(** The reports [rs] recorded one after another, each with its outcome. *)
Inductive recorded_chain `{RedisLog} `{GoRange} (domain : string)
    : list UsageReport → RedisStorage → RedisStorage → Prop :=
| chain_nil st : recorded_chain domain [] st st
| chain_cons r rs st st1 st' :
    record_outcome StreamContext (report_key domain r) r st st1 →
    recorded_chain domain rs st1 st' → recorded_chain domain (r :: rs) st st'.

Lemma record_all_chain `{RedisLog} `{GoRange} domain rs st :
  redis_inv st → Forall report_in_range rs → recorded_chain domain rs st (record_all domain st rs).
Proof.
  intros Hinv Hall. revert st Hinv. induction Hall as [|r rs Hr _ IH]; intros st Hinv; [constructor|].
  econstructor; [by apply RecordUsage_outcome|]. apply IH. by apply RecordUsage_inv.
Qed.

(** ** Properties *)

(** C10: clients and operators do not see the store: two servers that differ in
    their stores only, of whatever kind and state, give every message the same
    error or response, run every session alike and push alike, and agree
    afterwards in streams, reference counts, metrics and all they sent. So an
    outage of Redis refuses and changes no answer. *)
Theorem store_invisible `{Regexp, DurationPb, GoRange} {St1 St2} `{BucketStore St1, BucketStore St2}
    (s1 : RLQSServer St1) (s2 : RLQSServer St2) :
  view s1 = view s2 →
  (∀ Send id req, viewed (handleMessage Send id req s1) = viewed (handleMessage Send id req s2)) ∧
  (∀ id msgs last, viewed (StreamRateLimitQuotas id msgs last s1) = viewed (StreamRateLimitQuotas id msgs last s2)) ∧
  (∀ Send e, view (pushAssignments Send e s1) = view (pushAssignments Send e s2)).
Proof.
  intros Hv. split_and!; intros.
  - by rewrite <-!view_handleMessage, Hv.
  - by rewrite <-!view_session, Hv.
  - by rewrite <-!view_push, Hv.
Qed.

(** Usage is conserved end to end on Redis: in every state of the server on
    the Redis store, an accepted message with counts of their wire type,
    answered by an assigning engine, hands the reports of its non-empty usages
    to the store, in order, each under the stream's domain, and does nothing
    else to it; each is counted once (in Redis or in the fallback, with all
    other usage kept), or dropped by a full fallback, or lost with a failed
    flush. *)
Theorem redis_message_conserved `{Regexp, DurationPb} `{RedisLog} `{GoRange}
    Send (s s' : RLQSServer RedisStorage) id req ss :
  wire_reachable s → streams s !! id = Some ss → assigning (engine s) → typed_request req →
  handleMessage Send id req s = (s', None) →
  recorded_chain (message_domain ss req) (usage_report <$> asked (req_bucket_quota_usages req))
    (store s) (store s').
Proof.
  intros Hr%wire_reachable_store%redis_inv_reachable Hid He Hreq Hm.
  rewrite (message_recorded Send s s' id req ss Hid He Hm). apply record_all_chain; [done|]. by apply typed_reports.
Qed.

(** A server whose Redis refuses the first call, next to one in memory. *)
Section demo.
#[local] Existing Instance range_in_order.
#[local] Existing Instance durationpb_split.
#[local] Existing Instance literal_regexp.
#[local] Existing Instance scripted.

Definition demo_redis_server : RLQSServer RedisStorage :=
  open_stream 0 (NewRLQS (NewRedisStorage (λ _, outage_world) outage_config) demo_engine (cfg_Server default_config) None).

Lemma demo_redis_reachable : wire_reachable demo_redis_server.
Proof.
  exists (λ _, outage_world), outage_config, demo_engine, (cfg_Server default_config), None.
  apply rtc_once, wire_quiet; [by constructor|done].
Qed.
End demo.

Lemma demo_req_typed : typed_request demo_req.
Proof. repeat constructor; vm_compute; discriminate. Qed.

Lemma store_invisible_witness :
  viewed (@handleMessage literal_regexp _ _ range_in_order durationpb_split send_ok 0 demo_req demo_redis_server) =
  viewed (@handleMessage literal_regexp _ _ range_in_order durationpb_split send_ok 0 demo_req (open_stream 0 demo_server)).
Proof.
  exact (proj1 (@store_invisible literal_regexp durationpb_split range_in_order _ MemoryStorage _ _
    demo_redis_server (open_stream 0 demo_server) eq_refl) send_ok 0 demo_req).
Defined.

Lemma redis_message_conserved_witness :
  ∃ s', @handleMessage literal_regexp _ _ range_in_order durationpb_split send_ok 0 demo_req demo_redis_server = (s', None) ∧
    @recorded_chain scripted scripted_log range_in_order "api"
      (@usage_report durationpb_split <$> asked (req_bucket_quota_usages demo_req)) (store demo_redis_server) (store s').
Proof.
  destruct (@handleMessage literal_regexp _ _ range_in_order durationpb_split send_ok 0 demo_req demo_redis_server)
    as [s' [err|]] eqn:E; [vm_compute in E; discriminate|].
  exists s'. split; [reflexivity|].
  apply (@redis_message_conserved literal_regexp durationpb_split scripted scripted_log range_in_order send_ok
    demo_redis_server s' 0 demo_req new_stream demo_redis_reachable).
  - reflexivity.
  - apply DefaultEngine_assigning.
  - exact demo_req_typed.
  - exact E.
Defined.
