(* ===== verification/Admin.v ===== *)
(** * The admin endpoints (internal/admin/admin.go)

    The handlers of the HTTP endpoints. A response is its status and the value
    that is encoded as JSON; the encoding itself is the standard library's. *)
From S2P Require Import Prelude GoStd Proto BucketKey Storage Config Diff Quota DomainClassifier.
From S2P Require Import Server ServerInv ServerProps RedisStorage.

Record StreamInfo := mkStreamInfo { info_Domain : string; SubscriptionCount : nat }.

Record bucketEntry := mkBucketEntry { entry_Key : string; entry_Allowed : Z; entry_Denied : Z }.

#[export] Instance bucketEntry_eq_dec : EqDecision bucketEntry.
Proof. solve_decision. Defined.

(** [BucketLister], an optional interface: whether a store has a listing, and
    the listing. *)
Class BucketLister (St : Type) := lister_All : option (∀ R : GoRange, St → gmap string UsageState).

#[export] Instance MemoryStorage_lister : BucketLister MemoryStorage := Some (λ R s, All s).
#[export] Instance RedisStorage_lister `{RedisClient} : BucketLister RedisStorage := None.

(** What is encoded. *)
Inductive payload :=
| StatusMap (status : string)
| StreamList (l : list StreamInfo)
| BucketList (l : list bucketEntry)
| ErrorText (msg : string)
| ConfigDump (cfg : Config) (pending : list Change).

Record http_response := mkHttpResponse { http_status : Z; http_body : payload }.

(** The handler's own state. It holds the store and the server only to read
    them, so the handlers below take them as arguments. *)
Record Handler := mkHandler { h_cfg : Config; pendingRestartChanges : list Change }.

Definition New_admin (cfg : Config) : Handler := mkHandler cfg [].

Definition handleHealthz : http_response := mkHttpResponse 200 (StatusMap "ok").
Definition handleReadyz : http_response := mkHttpResponse 200 (StatusMap "ready").

Definition handleDebugStreams `{Regexp, GoRange} {St} (s : RLQSServer St) : http_response :=
  mkHttpResponse 200 (StreamList ((λ p, mkStreamInfo p.1 p.2) <$> StreamStats s)).

(** One iteration of the loop of [handleDebugBuckets]: the key to show, if the
    entry is listed. *)
Definition shown_key (domain keyStr : string) : option string :=
  if decide (domain = "") then Some keyStr
  else
    let prefix := domain +:+ String us_byte "" in
    let n := String.length prefix in
    if (String.length keyStr <=? n) || negb (bool_decide (String.substring 0 n keyStr = prefix))
    then None
    else Some (String.substring n (String.length keyStr - n) keyStr).

Fixpoint bucket_entries (domain : string) (all : list (string * UsageState)) : list bucketEntry :=
  match all with
  | [] => []
  | (k, v) :: all =>
      match shown_key domain k with
      | None => bucket_entries domain all
      | Some keyStr => mkBucketEntry keyStr (Allowed v) (Denied v) :: bucket_entries domain all
      end
  end.

Definition handleDebugBuckets `{GoRange} {St} `{BucketLister St} (domain : string) (s : St) : http_response :=
  match lister_All with
  | None => mkHttpResponse 501 (ErrorText "bucket listing not supported by storage backend")
  | Some all => mkHttpResponse 200 (BucketList (bucket_entries domain (map_range (all _ s))))
  end.

Definition SetPendingRestartChanges (changes : list Change) (h : Handler) : Handler :=
  mkHandler (h_cfg h) changes.

Definition handleDebugConfig (h : Handler) : http_response :=
  mkHttpResponse 200 (ConfigDump (h_cfg h) (pendingRestartChanges h)).

(** The routes of [Register] (without the query string, except the domain). *)
Definition admin_route `{Regexp, GoRange} {St} `{BucketLister St} (path domain : string)
    (h : Handler) (s : RLQSServer St) : option http_response :=
  if decide (path = "/healthz") then Some handleHealthz
  else if decide (path = "/readyz") then Some handleReadyz
  else if decide (path = "/debug/streams") then Some (handleDebugStreams s)
  else if decide (path = "/debug/buckets") then Some (handleDebugBuckets domain (store s))
  else if decide (path = "/debug/config") then Some (handleDebugConfig h)
  else None.

(** ** Lemmas *)
Lemma substring_app_prefix p t :
  String.substring 0 (String.length p) (p +:+ t) = p ∧
  String.substring (String.length p) (String.length t) (p +:+ t) = t.
Proof.
  induction p as [|c p IH]; cbn.
  - split; [by destruct t|]. rewrite string_app_nil_l.
    induction t as [|c t IH]; [done|]. cbn. by f_equal.
  - rewrite string_app_cons. cbn. destruct IH as [-> ->]. done.
Qed.

Lemma substring_split n t :
  n <= String.length t → String.substring 0 n t +:+ String.substring n (String.length t - n) t = t.
Proof.
  revert t. induction n as [|n IH]; intros [|c t] Hn; cbn in *; try (done || lia).
  - rewrite string_app_nil_l. f_equal. pose proof (substring_app_prefix "" t) as [_ E].
    cbn in E. by rewrite string_app_nil_l in E.
  - rewrite string_app_cons. f_equal. apply IH. lia.
Qed.

(** The filter undoes [DomainScopedKey]. *)
Lemma shown_key_spec domain key k :
  domain ≠ "" → shown_key domain key = Some k ↔ key = DomainScopedKey domain k ∧ k ≠ "".
Proof.
  intros Hd. unfold shown_key. rewrite decide_False by done.
  rewrite DomainScopedKey_nonempty by done.
  assert (domain +:+ String us_byte k = (domain +:+ String us_byte "") +:+ k) as ->
    by (rewrite string_app_assoc, string_app_cons, string_app_nil_l; done).
  set (p := domain +:+ String us_byte ""). split.
  - destruct (Nat.leb_spec (String.length key) (String.length p)); [done|]. cbn.
    case_bool_decide as Hp; [|done]. intros [= <-].
    pose proof (substring_split (String.length p) key ltac:(lia)) as Es. rewrite Hp in Es.
    split; [done|]. intros E. rewrite E, string_app_nil_r in Es. subst key. lia.
  - intros [-> Hk]. rewrite string_length_app.
    assert (String.length k ≠ 0) by (by destruct k).
    rewrite (proj2 (Nat.leb_gt _ _)) by lia. destruct (substring_app_prefix p k) as [-> E].
    rewrite bool_decide_eq_true_2 by done. cbn.
    by replace (String.length p + String.length k - String.length p) with (String.length k) by lia; rewrite E.
Qed.

Lemma shown_key_iff domain key k :
  shown_key domain key = Some k ↔ key = DomainScopedKey domain k ∧ (domain ≠ "" → k ≠ "").
Proof.
  destruct (decide (domain = "")) as [->|Hd].
  - unfold shown_key, DomainScopedKey. cbn. naive_solver.
  - rewrite shown_key_spec by done. naive_solver.
Qed.

Lemma bucket_entries_elem domain all e :
  e ∈ bucket_entries domain all ↔
  ∃ k v keyStr, (k, v) ∈ all ∧ shown_key domain k = Some keyStr ∧ e = mkBucketEntry keyStr (Allowed v) (Denied v).
Proof.
  induction all as [|[k v] all IH]; cbn; [set_solver|].
  destruct (shown_key domain k) as [ks|] eqn:E.
  - rewrite elem_of_cons, IH. split.
    + intros [->|(k' & v' & ks' & ? & ? & ?)]; [exists k, v, ks; set_solver|exists k', v', ks'; set_solver].
    + intros (k' & v' & ks' & [[= -> ->]|Hin]%elem_of_cons & E' & ->); [left; congruence|right; eauto 8].
  - rewrite IH. split; intros (k' & v' & ks' & Hin & E' & ->); exists k', v', ks'; [set_solver|].
    apply elem_of_cons in Hin as [[= -> ->]|Hin]; [congruence|done].
Qed.

Lemma bucket_entries_NoDup domain all :
  NoDup all.*1 → NoDup (entry_Key <$> bucket_entries domain all).
Proof.
  induction all as [|[k v] all IH]; cbn; [constructor|].
  intros [Hk Hnd]%NoDup_cons. destruct (shown_key domain k) as [ks|] eqn:E; [|by apply IH].
  cbn. constructor; [|by apply IH].
  intros (e & He & (k' & v' & ks' & Hin & E' & ->)%bucket_entries_elem)%list_elem_of_fmap.
  cbn in He. subst ks'. apply shown_key_iff in E as [-> _], E' as [-> _].
  apply Hk, list_elem_of_fmap. by exists (DomainScopedKey domain ks, v').
Qed.

(** A bucket that is not empty has a non-empty key. *)
Lemma bucket_key_nonempty bid : bucket bid ≠ ∅ → bucket_key bid ≠ "".
Proof.
  intros Hb. unfold bucket_key. pose proof (sorted_pairs_perm (bucket bid)) as Hp.
  destruct (sorted_pairs (bucket bid)) as [|p l].
  - apply Permutation_nil_l in Hp. by symmetry in Hp; apply map_to_list_empty_iff in Hp.
  - rewrite encode_pairs_cons. unfold encode_pair. autorewrite with gostr. by destruct p.1.
Qed.

(** A subscription of a registered stream: its domain and key are non-empty. *)
Lemma subscription_nonempty `{Regexp, DurationPb} {St} `{BucketStore St} l (s : RLQSServer St) id ss key :
  server_inv l s → streams s !! id = Some ss → is_Some (subscriptions ss !! key) →
  ss_domain ss ≠ "" ∧ key ≠ "".
Proof.
  intros Hinv Hid [bid Hkey]. pose proof (inv_streams _ _ Hinv id ss Hid) as Hok. split.
  - destruct (domainBound ss) eqn:Hb; [by apply Hok|].
    rewrite (ok_unbound _ _ Hok Hb) in Hkey. cbn in Hkey; by rewrite lookup_empty in Hkey.
  - destruct (ok_subs _ _ Hok _ _ Hkey) as (-> & ? & _). by apply bucket_key_nonempty.
Qed.

(** ** Properties *)

(** C29: the bucket listing shows what is stored: over the in-memory store,
    /debug/buckets with a domain lists, once each and with its counts, exactly
    the buckets stored under that domain's scoped keys, and without a domain
    every scoped key; a listed bucket of a domain without the separator byte is
    no bucket of another such domain. Over Redis it answers 501. *)
Theorem debug_buckets_list_store `{GoRange} `{RedisClient} (m : MemoryStorage) (rs : RedisStorage) d :
  handleDebugBuckets d rs = mkHttpResponse 501 (ErrorText "bucket listing not supported by storage backend") ∧
  ∃ l, handleDebugBuckets d m = mkHttpResponse 200 (BucketList l) ∧ NoDup (entry_Key <$> l) ∧
    (∀ k allowed denied,
      mkBucketEntry k allowed denied ∈ l ↔
        (d ≠ "" → k ≠ "") ∧ buckets m !! DomainScopedKey d k = Some (mkUsageState allowed denied)) ∧
    (∀ entry d' k', entry ∈ l → d ≠ "" → has_byte us_byte d = false → d' ≠ "" → has_byte us_byte d' = false →
      DomainScopedKey d (entry_Key entry) = DomainScopedKey d' k' → d' = d).
Proof.
  split; [done|]. exists (bucket_entries d (map_range (buckets m))).
  split; [unfold handleDebugBuckets, lister_All, MemoryStorage_lister; by rewrite All_buckets|].
  split; [apply bucket_entries_NoDup; apply NoDup_fst_map_range|].
  split; [|intros entry d' k' _ Hd Hb Hd' Hb' Heq; by apply DomainScopedKey_inj_domain in Heq as [-> _]].
  intros k a dn. rewrite bucket_entries_elem. split.
  - intros (key & [a' dn'] & ks & Hin%elem_of_map_range & E & [= -> -> ->]).
    by apply shown_key_iff in E as [-> Hne].
  - intros [Hne Hl]. exists (DomainScopedKey d k), (mkUsageState a dn), k.
    rewrite elem_of_map_range, shown_key_iff. by split_and!.
Qed.

(** Two buckets of the domain, and one of another. *)
Definition demo_listed : MemoryStorage :=
  mkMemoryStorage {[DomainScopedKey "api" "a" := mkUsageState 5 1; DomainScopedKey "apis" "b" := mkUsageState 2 0;
                    DomainScopedKey "api" "c" := mkUsageState 7 0]}.

Lemma debug_buckets_list_store_witness :
  ∃ l, @handleDebugBuckets range_reversed MemoryStorage _ "api" demo_listed = mkHttpResponse 200 (BucketList l) ∧
    mkBucketEntry "c" 7 0 ∈ l ∧ mkBucketEntry "b" 2 0 ∉ l.
Proof.
  destruct (@debug_buckets_list_store range_reversed scripted demo_listed
    (@NewRedisStorage scripted (λ _, outage_world) outage_config) "api") as (_ & l & Hl & _ & Hin & _).
  exists l. split; [exact Hl|]. split.
  - apply Hin. split; [discriminate|]. vm_compute. reflexivity.
  - intros [_ E]%Hin. vm_compute in E. discriminate E.
Defined.

(** With handlers that run one after another the listing of a domain is that of
    its subscriptions, if no domain holds the separator byte. (Handlers that
    interleave can leave a subscribed bucket without usage, see Interleaving.v;
    it is then not listed.) *)
Theorem debug_buckets_live `{Regexp, DurationPb, GoRange} e cfg classifier (s : RLQSServer MemoryStorage) d :
  rtc server_step (NewRLQS NewMemoryStorage e cfg classifier) s →
  d ≠ "" → has_byte us_byte d = false →
  map_Forall (λ _ ss, has_byte us_byte (ss_domain ss) = false) (streams s) →
  ∃ l, handleDebugBuckets d (store s) = mkHttpResponse 200 (BucketList l) ∧
    NoDup (entry_Key <$> l) ∧
    (∀ entry, entry ∈ l →
       buckets (store s) !! DomainScopedKey d (entry_Key entry) =
         Some (mkUsageState (entry_Allowed entry) (entry_Denied entry))) ∧
    (∀ k, k ∈ entry_Key <$> l ↔
       ∃ id ss, streams s !! id = Some ss ∧ ss_domain ss = d ∧ is_Some (subscriptions ss !! k)).
Proof.
  intros Hs Hd Hsep Hseps. exists (bucket_entries d (map_range (All (store s)))). rewrite All_buckets.
  pose proof (server_inv_steps _ _ _ Hs (NewRLQS_inv _ _ _ _)) as Hinv.
  pose proof (ledger_keys NewMemoryStorage e cfg classifier s) as Hk.
  split_and!.
  - unfold handleDebugBuckets, lister_All, MemoryStorage_lister. by rewrite All_buckets.
  - apply bucket_entries_NoDup, NoDup_fst_map_range.
  - intros entry (k & [a dn] & ks & Hin & E & ->)%bucket_entries_elem; cbn.
    apply elem_of_map_range in Hin. by apply shown_key_spec in E as [<- _].
  - intros k. rewrite list_elem_of_fmap. setoid_rewrite bucket_entries_elem. split.
    + intros (entry & -> & k0 & v & ks & Hin%elem_of_map_range & E & ->); cbn.
      apply shown_key_spec in E as [-> Hne]; [|done].
      destruct (proj1 (Hk (DomainScopedKey d ks) eq_refl Hs)) as (id & ss & key & Hid & Hkey & Heq); [by eexists|].
      destruct (subscription_nonempty _ _ _ _ _ Hinv Hid Hkey) as [Hds _].
      apply DomainScopedKey_inj_domain in Heq as [-> ->]; eauto.
    + intros (id & ss & Hid & <- & Hkey).
      destruct (subscription_nonempty _ _ _ _ _ Hinv Hid Hkey) as [_ Hkne].
      destruct (proj2 (Hk (DomainScopedKey (ss_domain ss) k) eq_refl Hs)) as [v Hv]; [by eauto 8|].
      exists (mkBucketEntry k (Allowed v) (Denied v)). split; [done|].
      exists (DomainScopedKey (ss_domain ss) k), v, k. rewrite elem_of_map_range, shown_key_spec by done.
      by split_and!.
Qed.

Lemma debug_buckets_live_witness :
  ∃ l, @handleDebugBuckets range_reversed MemoryStorage _ "api" (store demo_state) =
         mkHttpResponse 200 (BucketList l) ∧ NoDup (entry_Key <$> l).
Proof.
  destruct (@debug_buckets_live literal_regexp durationpb_split range_reversed demo_engine
    (cfg_Server default_config) None demo_state "api") as (l & Hl & Hnd & _).
  - exact demo_steps.
  - discriminate.
  - reflexivity.
  - apply map_Forall_to_list. vm_compute. repeat constructor.
  - exists l. split; [exact Hl|exact Hnd].
Defined.
