(* ===== verification/Tracing.v ===== *)
(** * Tracing (internal/tracing/tracing.go)

    [Init] and the OpenTelemetry globals it sets. The SDK (exporter, resource,
    provider) is the record [OTel]. *)
From S2P Require Import Prelude Proto BucketKey Storage GoStd Config.

(** The options of the OTLP exporter that [Init] uses. *)
Inductive otlp_Option := WithEndpoint (endpoint : string) | WithInsecureCredentials.

#[export] Instance otlp_Option_eq_dec : EqDecision otlp_Option.
Proof. solve_decision. Defined.

(** The parts of the SDK: making an exporter and a resource (from the service
    name) can fail, and so can shutting down a provider. *)
Record OTel := mkOTel {
  exporter : Type;
  otlptracegrpc_New : list otlp_Option → result error exporter;
  Resource : Type;
  resource_New : string → result error Resource;
  provider_Shutdown : exporter → Resource → option error;
}.

Section tracing.
Variable sdk : OTel.

(** The global tracer provider: the no-op one, or one of the SDK that batches
    spans to an exporter. *)
Inductive TracerProvider := NoopProvider | SdkProvider (exp : exporter sdk) (res : Resource sdk).

Inductive propagator := TraceContext | Baggage.

Record otel_globals := mkGlobals {
  tracer_provider : TracerProvider;
  text_map_propagators : list propagator;
}.

(** Before [Init]. *)
Definition otel_default : otel_globals := mkGlobals NoopProvider [].

(** The function [Init] returns: it does nothing, or it is the [Shutdown]
    method of the provider. *)
Definition shutdown (tp : TracerProvider) : option error :=
  match tp with
  | NoopProvider => None
  | SdkProvider exp res => provider_Shutdown sdk exp res
  end.

Inductive tracing_error := ErrExporter (err : error) | ErrResource (err : error).

Definition exporter_options (cfg : TracingConfig) : list otlp_Option :=
  let opts := if decide (tracing_Endpoint cfg = "") then [] else [WithEndpoint (tracing_Endpoint cfg)] in
  if tracing_Insecure cfg then opts ++ [WithInsecureCredentials] else opts.

(** The provider whose shutdown is returned, and the globals afterwards. *)
Definition tracing_Init (cfg : TracingConfig) (g : otel_globals) : result tracing_error TracerProvider * otel_globals :=
  if negb (tracing_Enabled cfg) then (Ok NoopProvider, g)
  else match otlptracegrpc_New sdk (exporter_options cfg) with
       | Err err => (Err (ErrExporter err), g)
       | Ok exp =>
           match resource_New sdk "rlqs-server" with
           | Err err => (Err (ErrResource err), g)
           | Ok res =>
               let tp := SdkProvider exp res in (Ok tp, mkGlobals tp [TraceContext; Baggage])
           end
       end.

(** Tracing is all or nothing: the globals change exactly when tracing is
    enabled and [Init] succeeds, and then what is shut down at the end is the
    provider that was installed; a configuration without tracing cannot fail
    and its shutdown does nothing. *)
Theorem tracing_all_or_nothing cfg g :
  match tracing_Init cfg g with
  | (Ok tp, g') =>
      if tracing_Enabled cfg
      then tracer_provider g' = tp ∧ text_map_propagators g' = [TraceContext; Baggage] ∧
           ∃ exp res, tp = SdkProvider exp res ∧ otlptracegrpc_New sdk (exporter_options cfg) = Ok exp ∧
             resource_New sdk "rlqs-server" = Ok res
      else g' = g ∧ shutdown tp = None
  | (Err err, g') =>
      g' = g ∧ tracing_Enabled cfg = true ∧
      match err with
      | ErrExporter e => otlptracegrpc_New sdk (exporter_options cfg) = Err e
      | ErrResource e => resource_New sdk "rlqs-server" = Err e
      end
  end.
Proof.
  unfold tracing_Init. destruct (tracing_Enabled cfg); cbn; [|done].
  destruct (otlptracegrpc_New sdk _) as [exp|err]; [|done]. destruct (resource_New sdk _) as [res|err]; [|done].
  cbn. split_and!; [done..|]. by exists exp, res.
Qed.
End tracing.
