(* ===== verification/Main.v ===== *)
(** * Assembly and hot reload (cmd/rlqs-server/main.go)

    How the program builds the store, the engine and the classifier from a
    configuration, starts, and applies new configurations while it runs. What
    the start needs from outside (files, certificates, the tracing exporter,
    the listening socket) is the record [MainEnv]. *)
From S2P Require Import Prelude GoStd Proto BucketKey Storage Config Diff Quota Policy DomainClassifier.
From S2P Require Import Server ServerInv ServerProps ServerMessages RedisStorage RedisServer Admin Tracing.

(** ** Building the parts *)

(** The stores [buildStore] chooses from, as one [BucketStore]. *)
Inductive AnyStore `{RedisClient} :=
| AnyRedis (s : RedisStorage)
| AnyMemory (s : MemoryStorage).

Definition AnyStore_lift `{RedisClient} {S : Type} (wrap : S → AnyStore) (r : option error * S)
    : option error * AnyStore := (r.1, wrap r.2).

#[export] Instance AnyStore_BucketStore `{RedisClient} : BucketStore AnyStore := {|
  RecordUsage R ctx domain report s :=
    match s with
    | AnyRedis s => AnyStore_lift AnyRedis (RecordUsage ctx domain report s)
    | AnyMemory s => AnyStore_lift AnyMemory (RecordUsage ctx domain report s)
    end;
  RemoveBucket R ctx domain key s :=
    match s with
    | AnyRedis s => AnyStore_lift AnyRedis (RemoveBucket ctx domain key s)
    | AnyMemory s => AnyStore_lift AnyMemory (RemoveBucket ctx domain key s)
    end
|}.

Definition parseTimeUnit (s : string) : RateLimitUnit :=
  let u := ToUpper s in
  if decide (u = "SECOND") then SECOND
  else if decide (u = "MINUTE") then MINUTE
  else if decide (u = "HOUR") then HOUR
  else if decide (u = "DAY") then DAY
  else if decide (u = "MONTH") then MONTH
  else if decide (u = "YEAR") then YEAR
  else SECOND.

(** The token bucket both [buildEngine] and [buildStrategy] make of a [uint64]
    number of tokens: the protobuf fields are [uint32]. *)
Definition token_bucket `{DurationPb} (tokens interval : Z) : RateLimitStrategy :=
  RateLimitStrategy_TokenBucket
    (mkTokenBucket (uint32 tokens) (Some (uint32 tokens)) (Some (durationpb_New interval))).

Definition buildStrategy `{DurationPb} (pc : PolicyConfig) (reportingInterval : Z) : RateLimitStrategy :=
  if decide (pc_Strategy pc = "deny") then RateLimitStrategy_BlanketRule DENY_ALL
  else if decide (pc_Strategy pc = "allow") then RateLimitStrategy_BlanketRule ALLOW_ALL
  else if decide (pc_Strategy pc = "requests_per_time_unit") then
    RateLimitStrategy_RequestsPerTimeUnit (pc_RequestsPerTimeUnit pc) (parseTimeUnit (pc_TimeUnit pc))
  else token_bucket (pc_TokensPerFill pc) reportingInterval.

Section build.
Context `{Regexp, DurationPb}.

Definition buildStore `{RedisClient} (NewClient : redis_Options → redis_world) (cfg : Config) : AnyStore :=
  if decide (storage_Type (cfg_Storage cfg) = "redis") then
    AnyRedis (NewRedisStorage NewClient
      (mkStorageRedisConfig (redis_Addr (storage_Redis (cfg_Storage cfg)))
         (redis_PoolSize (storage_Redis (cfg_Storage cfg)))
         (duration_mul (ReportingInterval (cfg_Engine cfg)) 6) 0))
  else AnyMemory NewMemoryStorage.

Definition default_strategy (e : EngineConfig) : RateLimitStrategy :=
  token_bucket (DefaultTokensPerFill e) (ReportingInterval e).

Definition default_ttl (e : EngineConfig) : Z := duration_mul (ReportingInterval e) 2.

(** The body of the loop over the configured policies. *)
Definition build_policy (e : EngineConfig) (pc : PolicyConfig) : Policy :=
  let ttl := match pc_AssignmentTTL pc with Some d => d | None => default_ttl e end in
  mkPolicy _ (pc_DomainPattern pc) (pc_BucketKeyPattern pc)
    (Some (buildStrategy pc (ReportingInterval e))) (Some ttl) (pc_DenyResponse pc) None None.

Definition build_policy_config (e : EngineConfig) : PolicyEngineConfig :=
  mkPolicyEngineConfig (build_policy e <$> policy_list e)
    (mkPolicy _ "" "" (Some (default_strategy e)) (Some (default_ttl e)) None None None).

Definition buildEngine `{GoRange} (cfg : Config) : result policy_error Engine :=
  let e := cfg_Engine cfg in
  if decide (policy_list e = []) then
    Ok (DefaultEngine_Engine (NewDefaultEngine
          (mkDefaultEngineConfig (Some (default_strategy e)) (Some (default_ttl e)))))
  else match New (build_policy_config e) with
       | Ok eng => Ok (PolicyEngine_Engine eng)
       | Err err => Err err
       end.

Definition domain_patterns (ps : list PolicyConfig) : list string :=
  filter (λ p, p ≠ "") (pc_DomainPattern <$> ps).

Definition buildDomainClassifier (cfg : Config) : result classifier_error DomainClassifier :=
  NewDomainClassifier (domain_patterns (policy_list (cfg_Engine cfg)))
    (MaxMetricDomains (cfg_Server cfg)).
End build.

(** ** Starting

    [MainEnv]: the files, the certificate parser, the trace exporter and the
    listener. *)
Record MainEnv := mkMainEnv {
  main_load : LoadEnv;
  certificate : Type;
  LoadX509KeyPair : string → string → result error certificate;
  cert_pool : Type;
  AppendCertsFromPEM : string → option cert_pool;
  main_otel : OTel;
  Listen : string → option error;
}.

Inductive tls_error := ErrCertificate (err : error) | ErrReadCA (err : error) | ErrNoCACerts.

(** [tls.Config] as built: the certificate (minimum version 1.2), and the pool
    against which client certificates are required and verified, if any. *)
Record tls_Config (env : MainEnv) := mkTlsConfig {
  Certificates : certificate env;
  RequireAndVerify : option (cert_pool env);
}.

Definition TLSOption (env : MainEnv) (cfg : TLSConfig) : result tls_error (tls_Config env) :=
  match LoadX509KeyPair env (CertFile cfg) (KeyFile cfg) with
  | Err err => Err (ErrCertificate err)
  | Ok cert =>
      if decide (CAFile cfg = "") then Ok (mkTlsConfig env cert None)
      else match ReadFile (main_load env) (CAFile cfg) with
           | Err err => Err (ErrReadCA err)
           | Ok caPEM =>
               match AppendCertsFromPEM env caPEM with
               | None => Err ErrNoCACerts
               | Some pool => Ok (mkTlsConfig env cert (Some pool))
               end
           end
  end.

(** The running program: the server, the admin handler, the configuration the
    reload loop compares with, and the engines whose push has not run yet. *)
Record App `{Regexp, RedisClient} := mkApp {
  app_server : RLQSServer AnyStore;
  app_admin : Handler;
  currentCfg : Config;
  app_pushes : list Engine;
}.
Arguments mkApp {_ _} _ _ _ _.

Inductive fatal :=
| FatalConfig (err : error)
| FatalTracing (err : tracing_error)
| FatalEngine (err : policy_error)
| FatalClassifier (err : classifier_error)
| FatalTLS (err : tls_error)
| FatalListen (err : error).

Definition fatal_on {E A} (mk : E → fatal) (r : result E A) : result fatal A :=
  match r with Ok a => Ok a | Err e => Err (mk e) end.

Section app.
Context `{Regexp, DurationPb, GoRange, RedisClient} (NewClient : redis_Options → redis_world).

(** [main] up to the point where it serves. *)
Definition startup (env : MainEnv) (configPath : string) : result fatal App :=
  cfg <-? fatal_on FatalConfig (Load (main_load env) configPath) ;;
  _ <-? fatal_on FatalTracing (tracing_Init (main_otel env) (cfg_Tracing cfg) (otel_default (main_otel env))).1 ;;
  let st := buildStore NewClient cfg in
  eng <-? fatal_on FatalEngine (buildEngine cfg) ;;
  classifier <-? fatal_on FatalClassifier (buildDomainClassifier cfg) ;;
  _ <-? (if decide (CertFile (server_TLS (cfg_Server cfg)) = "") then Ok tt
         else _ <-? fatal_on FatalTLS (TLSOption env (server_TLS (cfg_Server cfg))) ;; Ok tt) ;;
  let srv := NewRLQS st eng (cfg_Server cfg) (Some classifier) in
  _ <-? (match Listen env (GRPCAddr (cfg_Server cfg)) with
         | Some err => Err (FatalListen err)
         | None => Ok tt
         end) ;;
  Ok (mkApp srv (New_admin cfg) cfg []).

(** One iteration of the reload loop; [None]: [SwapEngine] panics, and as the
    goroutine does not recover the process ends. *)
Definition hot_reload (newCfg : Config) (a : App) : option App :=
  let changes := Diff (currentCfg a) newCfg in
  if decide (changes = []) then Some a
  else
    let restartChanges := filter (λ c, Scope_ c = ScopeRequiresRestart) changes in
    let h := SetPendingRestartChanges restartChanges (app_admin a) in
    let a := mkApp (app_server a) h (currentCfg a) (app_pushes a) in
    match buildEngine newCfg with
    | Err _ => Some a
    | Ok newEngine =>
        match buildDomainClassifier newCfg with
        | Err _ => Some a
        | Ok newClassifier =>
            srv ← SwapEngine newEngine (app_server a);
            let srv := SwapDomainClassifier newClassifier srv in
            Some (mkApp srv h newCfg (app_pushes a ++ [newEngine]))
        end
    end.
End app.

(** ** The program as a transition system

    Streams open, send messages and close; the watcher delivers configurations;
    the pushes that reloads started run later, each on its own. *)
Section steps.
Context `{Regexp, DurationPb, RedisClient}.

Definition with_server (f : RLQSServer AnyStore → RLQSServer AnyStore) (a : App) : App :=
  mkApp (f (app_server a)) (app_admin a) (currentCfg a) (app_pushes a).

Inductive app_step : App → App → Prop :=
| app_step_open a id :
    streams (app_server a) !! id = None → app_step a (with_server (open_stream id) a)
| app_step_message (R : GoRange) Send a id req :
    typed_request req → is_Some (streams (app_server a) !! id) →
    app_step a (with_server (λ s, (handleMessage Send id req s).1) a)
| app_step_close (R : GoRange) a id :
    is_Some (streams (app_server a) !! id) → app_step a (with_server (close_stream id) a)
| app_step_reload (R : GoRange) newCfg a a' : hot_reload newCfg a = Some a' → app_step a a'
| app_step_push (R : GoRange) Send a before e after :
    app_pushes a = before ++ e :: after →
    app_step a (mkApp (pushAssignments Send e (app_server a)) (app_admin a) (currentCfg a)
                  (before ++ after)).

(** The states a successful start can lead to. *)
Definition app_reachable (a : App) : Prop :=
  ∃ (R : GoRange) NewClient env path a0, startup NewClient env path = Ok a0 ∧ rtc app_step a0 a.
End steps.

(** ** What a configuration asks for *)
Section spec.
Context `{Regexp, DurationPb}.

Definition config_applies (domain : string) (key : BucketKey) (pc : PolicyConfig) : Prop :=
  pattern_matches (pc_DomainPattern pc) domain ∧ pattern_matches (pc_BucketKeyPattern pc) key.

(** The configured policy that decides for a bucket: the first one whose
    patterns match; [None] stands for the defaults. *)
Definition config_selects (e : EngineConfig) (domain : string) (key : BucketKey)
    (o : option PolicyConfig) : Prop :=
  match o with
  | Some pc => ∃ i, policy_list e !! i = Some pc ∧ config_applies domain key pc ∧
      ∀ j q, j < i → policy_list e !! j = Some q → ¬ config_applies domain key q
  | None => Forall (λ q, ¬ config_applies domain key q) (policy_list e)
  end.

Definition configured_ttl (e : EngineConfig) (o : option PolicyConfig) : Z :=
  default (default_ttl e) (o ≫= pc_AssignmentTTL).

Definition configured_strategy (e : EngineConfig) (o : option PolicyConfig) : RateLimitStrategy :=
  match o with
  | Some pc => buildStrategy pc (ReportingInterval e)
  | None => default_strategy e
  end.

(** [a] is the assignment the configuration asks for, for the bucket [id]; the
    patterns look at its canonical key. *)
Definition configured_action (e : EngineConfig) (domain : string) (id : option BucketId)
    (a : BucketAction) : Prop :=
  ∃ o, config_selects e domain (encode_pairs (sorted_pairs (GetBucket id))) o ∧
       a = build_action id (Some (configured_ttl e o)) (Some (configured_strategy e o)).

Lemma build_policy_applies e pc domain key :
  policy_applies (build_policy e pc) domain key ↔ config_applies domain key pc.
Proof. done. Qed.

Lemma build_policy_config_uncompiled e : uncompiled_config (build_policy_config e).
Proof. split; [|done]. apply Forall_fmap, Forall_true. done. Qed.

Lemma selects_config e domain key p :
  selects (build_policy_config e) domain key p →
  ∃ o, config_selects e domain key o ∧
    policy_AssignmentTTL p = Some (configured_ttl e o) ∧
    policy_Strategy p = Some (configured_strategy e o).
Proof.
  intros [(i & Hi & Ha & Hb)|(-> & Hn)]; cbn in *.
  - apply list_lookup_fmap_Some in Hi as (pc & -> & Hi). exists (Some pc). split_and!; [|done|done].
    exists i. split_and!; [done..|]. intros j q Hj Hq. apply (Hb j (build_policy e q) Hj).
    by rewrite list_lookup_fmap, Hq.
  - exists None. split_and!; [|done|done]. apply Forall_forall. intros q Hq.
    apply (Hn (build_policy e q)). apply list_elem_of_fmap. eauto.
Qed.

Context `{GoRange}.

Lemma buildEngine_answers cfg e ctx domain reports :
  buildEngine cfg = Ok e →
  ∃ actions, ProcessUsage e ctx domain reports = Ok actions ∧
    Forall2 (configured_action (cfg_Engine cfg) domain) (answered_ids reports) actions.
Proof.
  unfold buildEngine. case_decide as Hnil.
  - intros [= <-]. eexists. split; [apply DefaultEngine_ProcessUsage_eq|].
    rewrite DefaultEngine_actions_fmap. apply Forall2_fmap_r, Forall_Forall2_diag, Forall_true.
    intros id. exists None. cbn. by rewrite Hnil.
  - destruct (New _) as [eng|] eqn:E; [|done]. intros [= <-].
    destruct (policy_engine_answers (build_policy_config (cfg_Engine cfg)) eng ctx domain reports)
      as (actions & Hp & Hall); [apply build_policy_config_uncompiled|done|].
    exists actions. split; [done|]. eapply Forall2_impl; [exact Hall|].
    intros id a (p & Hsel & ->). rewrite BucketKeyFromProto_encode in Hsel. apply selects_config in Hsel as (o & Ho & -> & ->). by exists o.
Qed.

Lemma configured_actions_assign e domain ids actions :
  Forall2 (configured_action e domain) ids actions →
  action_bucket_id <$> actions = ids ∧ Forall is_assignment actions.
Proof.
  induction 1 as [|id a ids actions (o & _ & ->) _ [IH1 IH2]]; [done|].
  split; [by rewrite fmap_cons, IH1|]. constructor; [apply is_assignment_build_action|done].
Qed.

Lemma buildEngine_assigning cfg e : buildEngine cfg = Ok e → assigning e.
Proof.
  intros He ctx domain reports. destruct (buildEngine_answers cfg e ctx domain reports He) as (actions & Hp & Hall).
  exists actions. split; [done|]. eapply configured_actions_assign; eauto.
Qed.
End spec.

(** ** Invariants of the running program *)
Section running.
Context `{Regexp, DurationPb, RedisClient}.

(** What holds of the running program: its server is a reachable server, its
    engine is the one built from the configuration last applied, every pending
    push carries an engine that only assigns. *)
Record app_inv (l : Limits) (a : App) : Prop := {
  ai_server : server_reachable (app_server a);
  ai_limits : limits (app_server a) = l;
  ai_engine : ∃ R : GoRange, buildEngine (currentCfg a) = Ok (engine (app_server a));
  ai_pushes : Forall assigning (app_pushes a);
}.

Lemma server_reachable_steps {St} `{BucketStore St} (s s' : RLQSServer St) :
  server_reachable s → rtc server_step s s' → server_reachable s'.
Proof.
  intros (st & e & cfg & c & Hs) Hs'. exists st, e, cfg, c. by etrans.
Qed.

(** The concrete type of the engine [buildEngine] makes. *)
Definition engine_type (cfg : Config) : string :=
  if decide (policy_list (cfg_Engine cfg) = []) then "*quota.DefaultEngine" else "*policy.Engine".

Lemma buildEngine_type `{GoRange} cfg e : buildEngine cfg = Ok e → concrete_type e = engine_type cfg.
Proof.
  unfold buildEngine, engine_type. case_decide; [by intros [= <-]|].
  destruct (New _); [by intros [= <-]|done].
Qed.

(** What an iteration of the reload loop does when it does not panic. *)
Lemma hot_reload_cases `{GoRange} newCfg a a' :
  hot_reload newCfg a = Some a' →
  match buildEngine newCfg, buildDomainClassifier newCfg with
  | Ok e, Ok c =>
      currentCfg a' = newCfg ∧
      ((currentCfg a = newCfg ∧ a' = a) ∨
       (concrete_type e = concrete_type (engine (app_server a)) ∧
        app_server a' = SwapDomainClassifier c (with_engine e (app_server a)) ∧
        app_pushes a' = app_pushes a ++ [e]))
  | _, _ =>
      app_server a' = app_server a ∧ currentCfg a' = currentCfg a ∧ app_pushes a' = app_pushes a
  end.
Proof.
  unfold hot_reload. case_decide as Hd; [|rewrite Diff_nil in Hd].
  - intros [= <-]. apply Diff_nil in Hd as Heq.
    destruct (buildEngine newCfg), (buildDomainClassifier newCfg); auto.
  - destruct (buildEngine newCfg), (buildDomainClassifier newCfg); try by intros [= <-].
    cbn. unfold SwapEngine. case_decide; cbn; [|done]. intros [= <-]. cbn. auto.
Qed.

(** It panics when both parts could be built and the engine has another
    concrete type. *)
Lemma hot_reload_None `{GoRange} newCfg a :
  hot_reload newCfg a = None ↔
  currentCfg a ≠ newCfg ∧ ∃ e c, buildEngine newCfg = Ok e ∧ buildDomainClassifier newCfg = Ok c ∧
    concrete_type e ≠ concrete_type (engine (app_server a)).
Proof.
  unfold hot_reload. case_decide as Hd; rewrite Diff_nil in Hd; [naive_solver|].
  destruct (buildEngine newCfg) as [e|], (buildDomainClassifier newCfg) as [c|]; try naive_solver.
  cbn. unfold SwapEngine. case_decide; cbn; naive_solver.
Qed.

Lemma app_inv_step l a a' : app_inv l a → app_step a a' → app_inv l a'.
Proof.
  intros [Hs Hl He Hp]. destruct 1 as [a id Hid|R Send a id req _ Hid|R a id Hid|R newCfg a a' Hrel|R Send a before e after Hpush].
  - split; [|done..]. eapply server_reachable_steps; [done|]. apply rtc_once. by constructor.
  - destruct (handleMessage_engine Send id req (app_server a) Hid) as [Ee El].
    split; cbn; rewrite ?Ee, ?El; [|done..].
    eapply server_reachable_steps; [done|]. apply rtc_once. by constructor.
  - destruct (close_stream_engine id (app_server a)) as [Ee El].
    split; cbn; rewrite ?Ee, ?El; [|done..].
    eapply server_reachable_steps; [done|]. apply rtc_once. by constructor.
  - pose proof (hot_reload_cases newCfg a a' Hrel) as Hc.
    destruct (buildEngine newCfg) as [e|] eqn:E, (buildDomainClassifier newCfg) as [c|];
      [|destruct Hc as (Es & Ec & Ep); split; by rewrite ?Es, ?Ec, ?Ep..].
    destruct Hc as (Ec & [[<- ->]|(Hty & Es & Ep)]); [done|].
    split; rewrite ?Es, ?Ec, ?Ep; [|done|by exists R|].
    + eapply server_reachable_steps; [done|]. eapply rtc_l; [|apply rtc_once, step_swap_classifier].
      apply (step_swap_engine _ e). by apply SwapEngine_Some.
    + apply Forall_app. split; [done|]. constructor; [|done]. by eapply buildEngine_assigning.
  - destruct (pushAssignments_frame Send e (app_server a)) as (_ & El & Ee & _).
    split; cbn; rewrite ?Ee, ?El; [|done..|].
    + eapply server_reachable_steps; [done|]. apply rtc_once. constructor.
    + rewrite Hpush in Hp. rewrite !Forall_app, Forall_cons in *. naive_solver.
Qed.

Lemma app_inv_steps l a a' : rtc app_step a a' → app_inv l a → app_inv l a'.
Proof. induction 1; eauto using app_inv_step. Qed.

Lemma startup_inv `{GoRange} NewClient env path a :
  startup NewClient env path = Ok a →
  app_inv (limits (app_server a)) a ∧ Load (main_load env) path = Ok (currentCfg a).
Proof.
  unfold startup, fatal_on. destruct (Load _ path) as [cfg|]; cbn; [|done].
  destruct (tracing_Init _ _ _).1; cbn; [|done]. destruct (buildEngine cfg) as [e|] eqn:E; cbn; [|done].
  destruct (buildDomainClassifier cfg); cbn; [|done].
  case_decide; [|destruct (TLSOption _ _); [|done]]; cbn;
    (destruct (Listen env _); cbn; [done|]); intros [= <-]; cbn; (split; [|done]); split; cbn; eauto.
  all: eexists _, _, _, _; apply rtc_refl.
Qed.

Lemma app_inv_reachable a : app_reachable a → app_inv (limits (app_server a)) a.
Proof.
  intros (R & NewClient & env & path & a0 & [Hinv _]%startup_inv & Hs).
  pose proof (app_inv_steps _ _ _ Hs Hinv) as Hi. by rewrite <-(ai_limits _ _ Hi) in Hi.
Qed.
End running.

(** ** Properties *)

(** A concrete start: no file, no environment variables. *)
Section demo.
#[local] Existing Instance range_in_order.
#[local] Existing Instance durationpb_split.
#[local] Existing Instance literal_regexp.
#[local] Existing Instance scripted.

Definition demo_otel : OTel := mkOTel unit (λ _, Ok tt) unit (λ _, Ok tt) (λ _ _, None).

Definition demo_env : MainEnv :=
  mkMainEnv {| ReadFile _ := Err "no such file"; Unmarshal _ _ := Err "yaml"; Getenv _ := "" |}
    unit (λ _ _, Ok tt) unit (λ _, Some tt) demo_otel (λ _, None).

Definition demo_cfg : Config := set_Engine resolveDeprecated default_config.

Definition demo_app_engine : Engine :=
  DefaultEngine_Engine (mkDefaultEngine (mkDefaultEngineConfig
    (Some (default_strategy (cfg_Engine demo_cfg))) (Some (default_ttl (cfg_Engine demo_cfg))))).

Definition demo_app : App :=
  mkApp (NewRLQS (AnyMemory NewMemoryStorage) demo_app_engine (cfg_Server demo_cfg)
           (Some (mkDomainClassifier [] ∅ 100)))
    (New_admin demo_cfg) demo_cfg [].

Definition demo_new_client (_ : redis_Options) : script := mkScript [] [] [].

Lemma demo_startup : startup demo_new_client demo_env "" = Ok demo_app.
Proof. reflexivity. Qed.

(** The same program with stream 0 open. *)
Definition demo_app_open : App := with_server (open_stream 0) demo_app.

Lemma demo_app_run : rtc app_step demo_app demo_app_open.
Proof. apply rtc_once, app_step_open. reflexivity. Qed.

Lemma demo_app_reachable : app_reachable demo_app_open.
Proof.
  exists range_in_order, demo_new_client, demo_env, "", demo_app. split; [exact demo_startup|exact demo_app_run].
Qed.
End demo.

(** C1: the program answers as configured: in every state the running program
    can reach, by streams that open, report and close, by pushes and by reloads,
    a message handled without error is answered with one response that holds, in
    order, for every non-empty usage the assignment that the configuration last
    applied asks for: the TTL and strategy of the first policy whose patterns
    match the stream's domain and the bucket's key, else the defaults. *)
Theorem deployed_answers_as_configured `{Regexp, DurationPb, RedisClient} `{GoRange}
    Send (a : App) id ss req s' :
  app_reachable a → streams (app_server a) !! id = Some ss →
  handleMessage Send id req (app_server a) = (s', None) →
  ∃ actions,
    Forall2 (configured_action (cfg_Engine (currentCfg a)) (message_domain ss req))
      (usage_bucket_id <$> asked (req_bucket_quota_usages req)) actions ∧
    outbox s' = outbox (app_server a) ++ match actions with [] => [] | _ => [(id, mkResponse actions)] end.
Proof.
  intros Ha%app_inv_reachable Hid Hm. destruct (decide (req_bucket_quota_usages req = [])) as [Hnil|Hne].
  - exists []. rewrite Hnil. split; [constructor|]. rewrite app_nil_r. revert Hm.
    unfold handleMessage. pose proof (bind_domain_spec id req (app_server a) ss Hid) as Hspec.
    destruct (bind_domain _ _ _) as [s1 [e|]]; [done|].
    destruct Hspec as (_ & _ & _ & _ & _ & <- & _). rewrite decide_True by done. by intros [= <-].
  - destruct (handleMessage_response Send id req _ s' ss Hid Hne Hm) as (actions & Hp & Ho).
    exists actions. split; [|done]. destruct (ai_engine _ _ Ha) as [R He].
    destruct (buildEngine_answers _ _ (engine_ctx (app_server a)) (message_domain ss req)
      (usage_report <$> asked (req_bucket_quota_usages req)) He) as (actions' & Hp' & Hall).
    rewrite Hp in Hp'. simplify_eq. by rewrite answered_ids_reports in Hall.
Qed.

Lemma deployed_answers_as_configured_witness :
  ∃ s' actions,
    @handleMessage literal_regexp (@AnyStore scripted) _ range_reversed durationpb_split send_ok 0 demo_req
      (app_server demo_app_open) = (s', None) ∧
    Forall2 (@configured_action literal_regexp durationpb_split (cfg_Engine demo_cfg) "api")
      (usage_bucket_id <$> asked (req_bucket_quota_usages demo_req)) actions.
Proof.
  destruct (@handleMessage literal_regexp (@AnyStore scripted) _ range_reversed durationpb_split send_ok 0 demo_req
    (app_server demo_app_open)) as [s' [err|]] eqn:E; [vm_compute in E; discriminate|].
  destruct (@deployed_answers_as_configured literal_regexp durationpb_split scripted range_reversed
    send_ok demo_app_open 0 new_stream demo_req s' demo_app_reachable) as (actions & Hall & _).
  - reflexivity.
  - exact E.
  - exists s', actions. split; [reflexivity|exact Hall].
Defined.
