(* ===== verification/Reload.v ===== *)
(** * Hot reloads (cmd/rlqs-server/main.go, internal/server/server.go)

    What a sequence of new configurations does to the running program of
    Main.v: which reloads are applied, which end the process, what the pushes
    they start tell the clients, and what the admin endpoint remembers. *)
From S2P Require Import Prelude GoStd Proto BucketKey Storage Config Diff Quota Policy DomainClassifier.
From S2P Require Import Server ServerInv ServerProps ServerMessages Push RedisStorage RedisServer Admin Main.

(** Whether a configuration can be applied. *)
Definition buildable `{Regexp, DurationPb, GoRange} (cfg : Config) : bool :=
  is_ok (buildEngine cfg) && is_ok (buildDomainClassifier cfg).

(** The configuration in force after [newCfgs] arrived in turn: the last one
    that could be applied. *)
Definition last_applied `{Regexp, DurationPb, GoRange} (cfg : Config) (newCfgs : list Config) : Config :=
  foldl (λ cur new, if buildable new then new else cur) cfg newCfgs.

Lemma hot_reload_frame `{Regexp, DurationPb, GoRange, RedisClient} newCfg a a' :
  hot_reload newCfg a = Some a' →
  currentCfg a' = (if buildable newCfg then newCfg else currentCfg a) ∧
  streams (app_server a') = streams (app_server a) ∧
  limits (app_server a') = limits (app_server a) ∧
  store (app_server a') = store (app_server a) ∧
  bucketRefs (app_server a') = bucketRefs (app_server a).
Proof.
  intros Hc%hot_reload_cases. revert Hc. unfold buildable.
  destruct (buildEngine newCfg), (buildDomainClassifier newCfg); cbn;
    [intros (-> & [[_ ->]|(_ & -> & _)]); by split_and!|by intros (-> & -> & _)..].
Qed.

Lemma hot_reload_admin `{Regexp, DurationPb, GoRange, RedisClient} c a a' :
  hot_reload c a = Some a' → Diff (currentCfg a) c ≠ [] →
  app_admin a' =
    SetPendingRestartChanges (filter (λ c, Scope_ c = ScopeRequiresRestart) (Diff (currentCfg a) c)) (app_admin a).
Proof.
  unfold hot_reload. intros Hr Hne. rewrite decide_False in Hr by done. revert Hr.
  destruct (buildEngine c), (buildDomainClassifier c); try by intros [= <-].
  cbn. destruct (SwapEngine _ _); cbn; [|done]. by intros [= <-].
Qed.

(** A configuration that keeps the concrete type of the engine never panics. *)
Lemma hot_reload_total `{Regexp, DurationPb, GoRange, RedisClient} l newCfg a :
  app_inv l a → (buildable newCfg = true → engine_type newCfg = engine_type (currentCfg a)) →
  is_Some (hot_reload newCfg a).
Proof.
  intros Hinv Hty. destruct (hot_reload newCfg a) eqn:E; [by eexists|].
  apply hot_reload_None in E as (_ & e & c & He & Hc & Hne). destruct Hne.
  destruct (ai_engine _ _ Hinv) as [R HeR].
  rewrite (buildEngine_type _ _ He), (buildEngine_type _ _ HeR). apply Hty.
  unfold buildable. by rewrite He, Hc.
Qed.

(** The configuration in force keeps the engine's concrete type for good. *)
Lemma hot_reload_type `{Regexp, DurationPb, GoRange, RedisClient} l newCfg a a' :
  app_inv l a → hot_reload newCfg a = Some a' → engine_type (currentCfg a') = engine_type (currentCfg a).
Proof.
  intros Hinv Hr. destruct (ai_engine _ _ Hinv) as [R HeR].
  pose proof (hot_reload_cases newCfg a a' Hr) as Hc. revert Hc.
  destruct (buildEngine newCfg) as [e|] eqn:He, (buildDomainClassifier newCfg) as [c|];
    [|by intros (_ & -> & _)..].
  intros (-> & [[-> ->]|(Hty & _)]); [done|].
  by rewrite <-(buildEngine_type _ _ He), Hty, (buildEngine_type _ _ HeR).
Qed.

Lemma app_type_steps `{Regexp, DurationPb, RedisClient} l a a' :
  rtc app_step a a' → app_inv l a → engine_type (currentCfg a') = engine_type (currentCfg a).
Proof.
  induction 1 as [|a1 a2 a3 Hs _ IH]; intros Hinv; [done|].
  rewrite IH by (by eapply app_inv_step). destruct Hs as [| | |R c a a2 Hr|]; [done..| |done].
  exact (hot_reload_type l c a a2 Hinv Hr).
Qed.

Definition reload_all `{Regexp, DurationPb, GoRange, RedisClient} (newCfgs : list Config) (a : App) : option App :=
  foldl (λ o c, o ≫= hot_reload c) (Some a) newCfgs.

Lemma reload_all_cons `{Regexp, DurationPb, GoRange, RedisClient} c newCfgs a :
  reload_all (c :: newCfgs) a = hot_reload c a ≫= reload_all newCfgs.
Proof.
  unfold reload_all. cbn. destruct (hot_reload c a); cbn; [done|]. by induction newCfgs.
Qed.

(** Reloads converge to the last valid configuration: after any sequence
    of configurations delivered by the watcher, none of which adds the first
    policy or removes the last, the program still runs, the configuration in
    force is the last one whose policies and patterns compile (an invalid one
    changes nothing), the engine is the one built from it, and streams,
    subscriptions, stored usage and the limits of the running server are
    untouched. *)
Theorem reloads_track_last_valid `{Regexp, DurationPb, GoRange, RedisClient} newCfgs a :
  app_reachable a →
  Forall (λ c, buildable c = true → engine_type c = engine_type (currentCfg a)) newCfgs →
  ∃ a', reload_all newCfgs a = Some a' ∧
  currentCfg a' = last_applied (currentCfg a) newCfgs ∧
  (∃ R : GoRange, buildEngine (currentCfg a') = Ok (engine (app_server a'))) ∧
  streams (app_server a') = streams (app_server a) ∧
  limits (app_server a') = limits (app_server a) ∧
  store (app_server a') = store (app_server a) ∧
  bucketRefs (app_server a') = bucketRefs (app_server a).
Proof.
  intros Hr%app_inv_reachable. revert a Hr.
  induction newCfgs as [|c newCfgs IH]; intros a Hr Hall.
  { exists a. split_and!; try done. apply Hr. }
  apply Forall_cons in Hall as [Hc Hall].
  destruct (hot_reload_total _ c a Hr Hc) as [a1 E1].
  destruct (hot_reload_frame c a a1 E1) as (Ec & Es & El & Est & Er).
  destruct (IH a1) as (a' & E' & Ec' & He' & Es' & El' & Est' & Er').
  { rewrite El. eapply app_inv_step; [exact Hr|]. by econstructor. }
  { by rewrite (hot_reload_type _ c a a1 Hr E1). }
  exists a'. rewrite reload_all_cons, E1. cbn.
  split_and!; [done|by rewrite Ec', Ec|done|congruence..].
Qed.

Section demo_reload.
#[local] Existing Instance durationpb_split.
#[local] Existing Instance literal_regexp.

(** A configuration with a policy, and configurations without that change the
    engine section, or the server section as well. *)
Definition demo_policy (pattern : string) : PolicyConfig :=
  mkPolicyConfig pattern "" 7 0 None "deny" 0 "" None.

Definition demo_cfg_with (pattern : string) : Config :=
  set_Engine (λ e, mkEngineConfig 50 0 (ReportingInterval e) (Some [demo_policy pattern])) demo_cfg.

Definition demo_cfg_tokens (n : Z) : Config :=
  set_Engine (λ e, mkEngineConfig n 0 (ReportingInterval e) (Policies e)) demo_cfg.

Definition demo_cfg_server (n : Z) : Config := set_GRPCAddr ":9999" (demo_cfg_tokens n).

(** The program after the first message of stream 0. *)
Definition demo_app_subscribed : @App literal_regexp scripted :=
  with_server (λ s, (@handleMessage literal_regexp (@AnyStore scripted) _ range_in_order durationpb_split
                       send_ok 0 demo_req s).1) demo_app_open.

Lemma demo_app_subscribed_reachable : app_reachable demo_app_subscribed.
Proof.
  destruct demo_app_reachable as (R & nc & env & path & a0 & Hst & Hs). exists R, nc, env, path, a0.
  split; [done|]. eapply rtc_r; [exact Hs|]. apply app_step_message; [exact demo_req_typed|by eexists].
Qed.

(** Two reloads without policies, one after the other. *)
Lemma demo_reload_twice (a : @App literal_regexp scripted) cfg1 cfg2 :
  app_reachable a → policy_list (cfg_Engine (currentCfg a)) = [] →
  policy_list (cfg_Engine cfg1) = [] → policy_list (cfg_Engine cfg2) = [] →
  ∃ a1 a2, @hot_reload _ _ range_in_order scripted cfg1 a = Some a1 ∧
           @hot_reload _ _ range_in_order scripted cfg2 a1 = Some a2.
Proof.
  intros Ha Hc Hc1 Hc2. assert (∀ c, policy_list (cfg_Engine c) = [] → engine_type c = "*quota.DefaultEngine") as Hty.
  { intros c E. unfold engine_type. by rewrite decide_True. }
  pose proof (@app_inv_reachable _ _ scripted _ Ha) as Hinv.
  destruct (@hot_reload_total _ _ range_in_order _ _ cfg1 a Hinv) as [a1 E1]; [by rewrite !Hty|].
  assert (app_inv (limits (app_server a)) a1) as Hinv1.
  { eapply app_inv_step; [exact Hinv|by econstructor]. }
  destruct (@hot_reload_total _ _ range_in_order _ _ cfg2 a1 Hinv1) as [a2 E2]; [|by exists a1, a2].
  intros _. by rewrite (hot_reload_type _ _ _ _ Hinv E1), !Hty.
Qed.
End demo_reload.

Lemma reloads_track_last_valid_witness :
  ∃ a', @reload_all literal_regexp durationpb_split range_in_order scripted
          [demo_cfg_tokens 50; demo_cfg_with "(bad"] demo_app_open = Some a' ∧
    currentCfg a' = @last_applied literal_regexp durationpb_split range_in_order demo_cfg
       [demo_cfg_tokens 50; demo_cfg_with "(bad"].
Proof.
  destruct (@reloads_track_last_valid literal_regexp durationpb_split range_in_order scripted
    [demo_cfg_tokens 50; demo_cfg_with "(bad"] demo_app_open demo_app_reachable) as (a' & E & Ec & _).
  - constructor; [intros _; reflexivity|]. constructor; [intros Hb; vm_compute in Hb; discriminate|constructor].
  - exists a'. split; [exact E|exact Ec].
Defined.

(** C21: which reloads end the process: in every state the running program can
    reach, the iteration of the reload loop for a new configuration panics
    exactly when the configuration is valid and it has policies where the one
    in force has none, or has none where that one has some; a reload that
    returns keeps that, so the first policy cannot be added, nor the last one
    removed, while the program runs. *)
Theorem reload_crash_iff `{Regexp, DurationPb, GoRange, RedisClient} newCfg a :
  app_reachable a →
  (hot_reload newCfg a = None ↔
     buildable newCfg = true ∧
     ¬ (policy_list (cfg_Engine newCfg) = [] ↔ policy_list (cfg_Engine (currentCfg a)) = [])) ∧
  ∀ a', hot_reload newCfg a = Some a' →
    (policy_list (cfg_Engine (currentCfg a')) = [] ↔ policy_list (cfg_Engine (currentCfg a)) = []).
Proof.
  intros Hinv%app_inv_reachable. destruct (ai_engine _ _ Hinv) as [R HeR].
  assert (∀ c1 c2, engine_type c1 = engine_type c2 ↔
    (policy_list (cfg_Engine c1) = [] ↔ policy_list (cfg_Engine c2) = [])) as Hty.
  { intros c1 c2. unfold engine_type. repeat case_decide; split; intros; first [reflexivity|discriminate|tauto]. }
  split; [|intros a' Hr; apply Hty; exact (hot_reload_type _ newCfg a a' Hinv Hr)].
  rewrite hot_reload_None, <-Hty. split.
  - intros (_ & e & c & He & Hc & Hne). unfold buildable. rewrite He, Hc. split; [done|].
    by rewrite <-(buildEngine_type _ _ He), <-(buildEngine_type _ _ HeR).
  - intros [Hb Hne]. split; [by intros <-|]. revert Hb. unfold buildable.
    destruct (buildEngine newCfg) as [e|] eqn:He, (buildDomainClassifier newCfg) as [c|]; try done.
    intros _. exists e, c. split_and!; [done..|].
    by rewrite (buildEngine_type _ _ He), (buildEngine_type _ _ HeR).
Qed.

Lemma reload_crash_iff_witness :
  @hot_reload literal_regexp durationpb_split range_in_order scripted (demo_cfg_with "web") demo_app_open = None.
Proof.
  apply (@reload_crash_iff literal_regexp durationpb_split range_in_order scripted (demo_cfg_with "web")
    demo_app_open demo_app_reachable).
  split; [vm_compute; reflexivity|]. intros [_ H]. discriminate (H eq_refl).
Defined.

(** C39: pending restarts are forgotten: when a reload changes a section that
    needs a restart, and a second reload changes the engine only, the admin
    endpoint no longer lists any pending change although the server still runs
    with its old limits and serves its old configuration there. *)
Theorem pending_restart_forgotten `{Regexp, DurationPb, GoRange, RedisClient} a a1 a2 cfg1 cfg2 :
  buildable cfg1 = true → cfg_Server cfg1 ≠ cfg_Server (currentCfg a) →
  cfg_Server cfg2 = cfg_Server cfg1 → cfg_Storage cfg2 = cfg_Storage cfg1 →
  cfg_Tracing cfg2 = cfg_Tracing cfg1 → cfg_Engine cfg2 ≠ cfg_Engine cfg1 →
  hot_reload cfg1 a = Some a1 → hot_reload cfg2 a1 = Some a2 →
  mkChange "server" ScopeRequiresRestart ∈ pendingRestartChanges (app_admin a1) ∧
  pendingRestartChanges (app_admin a2) = [] ∧ h_cfg (app_admin a2) = h_cfg (app_admin a) ∧
  limits (app_server a2) = limits (app_server a).
Proof.
  intros Hb1 Hs1 Hs Hst Htr He E1 E2.
  destruct (hot_reload_frame cfg1 a a1 E1) as (Ec & _ & El & _). rewrite Hb1 in Ec.
  destruct (hot_reload_frame cfg2 a1 a2 E2) as (_ & _ & El' & _).
  rewrite (hot_reload_admin cfg2 a1 a2) by (rewrite ?Ec, ?Diff_nil; congruence).
  rewrite (hot_reload_admin cfg1 a a1) by (rewrite ?Diff_nil; congruence).
  rewrite Ec. cbn. split_and!; [| |done|congruence].
  - apply list_elem_of_filter. split; [done|]. apply elem_of_Diff. right; left. auto.
  - unfold Diff, append_if_changed. by rewrite (decide_False (P := cfg_Engine cfg1 = _)),
      !decide_True by congruence.
Qed.

Lemma pending_restart_forgotten_witness :
  ∃ a1 a2 : @App literal_regexp scripted,
    mkChange "server" ScopeRequiresRestart ∈ pendingRestartChanges (app_admin a1) ∧
    pendingRestartChanges (app_admin a2) = [].
Proof.
  destruct (demo_reload_twice demo_app_open (demo_cfg_server 50) (demo_cfg_server 60) demo_app_reachable
    eq_refl eq_refl eq_refl) as (a1 & a2 & E1 & E2).
  destruct (@pending_restart_forgotten literal_regexp durationpb_split range_in_order scripted demo_app_open
    a1 a2 (demo_cfg_server 50) (demo_cfg_server 60)) as (H1 & H2 & _);
    [reflexivity|discriminate|reflexivity..|discriminate|exact E1|exact E2|].
  exists a1, a2. exact (conj H1 H2).
Defined.

(** ** What a push tells a client *)

(** [resp] is what the configuration asks for, for the buckets of a stream. *)
Definition answers_stream `{Regexp, DurationPb} (cfg : Config) (ss : streamState)
    (resp : RateLimitQuotaResponse) : Prop :=
  ∃ ids, ids ≡ₚ Some <$> (map_to_list (subscriptions ss)).*2 ∧
    Forall2 (configured_action (cfg_Engine cfg) (ss_domain ss)) ids (resp_bucket_action resp).

Lemma push_answers `{Regexp, DurationPb, GoRange} {St} `{BucketStore St} l (R : GoRange) cfg e
    (s : RLQSServer St) id ss :
  server_inv l s → @buildEngine _ _ R cfg = Ok e → streams s !! id = Some ss → domainBound ss = true →
  subscriptions ss ≠ ∅ →
  ∃ resp, last_response id (outbox (pushAssignments send_ok e s)) = Some resp ∧ answers_stream cfg ss resp.
Proof.
  intros Hinv He Hid Hb Hne. pose proof (@buildEngine_assigning _ _ R _ _ He) as Ha.
  rewrite pushAssignments_outbox by done.
  pose proof (push_response_assigning l e s id ss Ha Hinv Hid) as Hp.
  destruct (push_response e s id) as [[id' r]|] eqn:E; [|naive_solver]. destruct Hp as (-> & _ & Hids & _).
  exists r. split.
  - rewrite last_response_app.
    rewrite (last_response_omap (push_response e s) _ id r); [done| | |by apply elem_of_map_range_fst|done].
    + intros i i' r' Hr. unfold push_response in Hr. repeat case_match; by simplify_eq.
    + apply NoDup_fst_map_range.
  - unfold push_response in E. rewrite (get_stream_Some id ss) in E by done.
    destruct (_ || _) in E; [done|].
    destruct (ProcessUsage _ _ _ _) as [[|a acts]|] eqn:Ep; [done| |done]. injection E as <-.
    match type of Ep with ProcessUsage _ _ _ ?reports = _ =>
      destruct (@buildEngine_answers _ _ R cfg e (engine_ctx s) (ss_domain ss) reports He) as (acts' & Ep' & Hall)
    end.
    rewrite Ep in Ep'. injection Ep' as <-. eexists. split; [|exact Hall].
    destruct (configured_actions_assign _ _ _ _ Hall) as [<- _]. exact Hids.
Qed.

(** The effect of a reload that is applied. *)
Lemma hot_reload_applied `{Regexp, DurationPb, GoRange, RedisClient} cfg a a' :
  hot_reload cfg a = Some a' → buildable cfg = true → cfg ≠ currentCfg a →
  ∃ e, buildEngine cfg = Ok e ∧ currentCfg a' = cfg ∧ app_pushes a' = app_pushes a ++ [e].
Proof.
  intros Hr Hb Hne. pose proof (hot_reload_cases cfg a a' Hr) as Hc. revert Hb Hc. unfold buildable.
  destruct (buildEngine cfg) as [e|], (buildDomainClassifier cfg); try done.
  intros _ (-> & [[E _]|(_ & _ & ->)]); [by destruct Hne|]. by exists e.
Qed.

(** C36: a client can end up with an old configuration: each reload starts a
    push of its own, and nothing orders them. After two reloads in a row there
    is a schedule in which both pushes have run and every bound stream with
    subscriptions was last sent the assignments of the first of the two
    configurations, while the second one is in force. *)
Theorem pushes_can_end_stale `{Regexp, DurationPb, GoRange, RedisClient} (a a1 a2 : App) cfg1 cfg2 :
  app_reachable a → app_pushes a = [] →
  buildable cfg1 = true → cfg1 ≠ currentCfg a → hot_reload cfg1 a = Some a1 →
  buildable cfg2 = true → cfg2 ≠ cfg1 → hot_reload cfg2 a1 = Some a2 →
  ∃ a', rtc app_step a a' ∧ currentCfg a' = cfg2 ∧ app_pushes a' = [] ∧
    streams (app_server a') = streams (app_server a) ∧
    ∀ id ss, streams (app_server a') !! id = Some ss → domainBound ss = true → subscriptions ss ≠ ∅ →
      ∃ resp, last_response id (outbox (app_server a')) = Some resp ∧ answers_stream cfg1 ss resp.
Proof.
  intros Ha Hp Hb1 Hne1 Hr1 Hb2 Hne2 Hr2.
  destruct (hot_reload_applied cfg1 a a1 Hr1 Hb1 Hne1) as (e1 & He1 & Ec1 & Ep1).
  destruct (hot_reload_applied cfg2 a1 a2 Hr2 Hb2) as (e2 & He2 & Ec2 & Ep2); [by rewrite Ec1|].
  rewrite Ep1, Hp in Ep2. cbn in Ep2.
  set (a3 := mkApp (pushAssignments send_ok e2 (app_server a2)) (app_admin a2) (currentCfg a2) [e1]).
  set (a4 := mkApp (pushAssignments send_ok e1 (app_server a3)) (app_admin a3) (currentCfg a3) []).
  assert (rtc app_step a a3) as Hs3.
  { eapply rtc_l; [by eapply app_step_reload|]. eapply rtc_l; [by eapply app_step_reload|].
    apply rtc_once. exact (app_step_push _ send_ok a2 [e1] e2 [] Ep2). }
  assert (rtc app_step a a4) as Hs.
  { eapply rtc_r; [exact Hs3|]. exact (app_step_push _ send_ok a3 [] e1 [] eq_refl). }
  pose proof (app_inv_steps _ _ _ Hs3 (app_inv_reachable _ Ha)) as Hinv.
  destruct (pushAssignments_frame send_ok e1 (app_server a3)) as (Es4 & _).
  destruct (pushAssignments_frame send_ok e2 (app_server a2)) as (Es3 & _).
  exists a4. split_and!; [exact Hs|exact Ec2|reflexivity| |].
  - etrans; [exact Es4|]. etrans; [exact Es3|].
    destruct (hot_reload_frame cfg1 a a1 Hr1) as (_ & <- & _).
    by destruct (hot_reload_frame cfg2 a1 a2 Hr2) as (_ & -> & _).
  - intros id ss Hid Hbd Hsub. unfold a4 in Hid. cbn [app_server] in Hid. rewrite Es4 in Hid.
    eapply push_answers; [|exact He1|exact Hid|done|done].
    apply server_inv_reachable. exact (ai_server _ _ Hinv).
Qed.

(** The streams of the running program may have subscribed already. *)
Lemma pushes_can_end_stale_witness :
  ∃ a' : @App literal_regexp scripted,
    rtc (@app_step literal_regexp durationpb_split scripted) demo_app_subscribed a' ∧
    currentCfg a' = demo_cfg_tokens 60 ∧
    ∃ ss resp, streams (app_server a') !! 0 = Some ss ∧
      last_response 0 (outbox (app_server a')) = Some resp ∧
      @answers_stream literal_regexp durationpb_split (demo_cfg_tokens 50) ss resp.
Proof.
  destruct (demo_reload_twice demo_app_subscribed (demo_cfg_tokens 50) (demo_cfg_tokens 60)
    demo_app_subscribed_reachable eq_refl eq_refl eq_refl) as (a1 & a2 & E1 & E2).
  destruct (@pushes_can_end_stale literal_regexp durationpb_split range_in_order scripted demo_app_subscribed a1 a2
    (demo_cfg_tokens 50) (demo_cfg_tokens 60) demo_app_subscribed_reachable eq_refl) as (a' & Hs & Hc & _ & Es & Hall);
    [reflexivity|discriminate|exact E1|reflexivity|discriminate|exact E2|].
  exists a'. split; [exact Hs|]. split; [exact Hc|].
  destruct (streams (app_server demo_app_subscribed) !! 0) as [ss|] eqn:Ess; [|vm_compute in Ess; discriminate].
  destruct (Hall 0 ss) as (resp & Hr & Hans).
  - rewrite Es. exact Ess.
  - assert (domainBound <$> streams (app_server demo_app_subscribed) !! 0 = Some true) as Hb
      by (vm_compute; reflexivity).
    rewrite Ess in Hb. by injection Hb.
  - assert ((λ ss, size (subscriptions ss)) <$> streams (app_server demo_app_subscribed) !! 0 = Some 2) as Hb
      by (vm_compute; reflexivity).
    rewrite Ess in Hb. injection Hb as Hb. intros Hz. by rewrite Hz, map_size_empty in Hb.
  - exists ss, resp. split; [|exact (conj Hr Hans)]. rewrite Es. exact Ess.
Defined.
