(* ===== verification/Deployed.v ===== *)
(** * The deployed program and its store (main.go, server.go, redis.go, storage.go)

    The store the program of Main.v was started with, and what becomes of the
    usage its streams report. *)
From S2P Require Import Prelude GoStd Proto BucketKey Storage Config Diff Quota Policy DomainClassifier.
From S2P Require Import Server ServerInv ServerProps ServerMessages Push RedisStorage RedisServer Admin Tracing Main Reload.

(** One call of a store by the server. *)
Inductive store_call {St} `{BucketStore St} : St → St → Prop :=
| store_call_record (R : GoRange) ctx domain r st :
    report_in_range r → store_call st (RecordUsage ctx domain r st).2
| store_call_remove (R : GoRange) ctx domain key st : store_call st (RemoveBucket ctx domain key st).2.

(** Calls keep the kind of the store; those of the Redis store are its steps. *)
Lemma store_calls_kind `{RedisClient} (st st' : AnyStore) :
  rtc store_call st st' →
  match st, st' with
  | AnyRedis rs, AnyRedis rs' => rtc redis_step rs rs'
  | AnyMemory _, AnyMemory _ => True
  | _, _ => False
  end.
Proof.
  induction 1 as [[rs|m]|st1 st2 st3 Hc _ IH]; [done..|].
  destruct Hc as [R ctx domain r [rs|m] Hr|R ctx domain key [rs|m]], st3 as [rs3|m3]; cbn in IH; try done.
  - eapply rtc_l; [by apply (redis_step_record R ctx domain r)|done].
  - eapply rtc_l; [apply (redis_step_remove R ctx domain key)|done].
Qed.

Section deployed.
Context `{Regexp, DurationPb, RedisClient}.

Lemma app_step_calls a a' : app_step a a' → rtc store_call (store (app_server a)) (store (app_server a')).
Proof.
  destruct 1 as [a id _|R Send a id req Hreq Hid|R a id Hid|R newCfg a a' Hr|R Send a before e after _]; cbn.
  - done.
  - by apply (handleMessage_store store_call store_call_record store_call_remove).
  - by apply (close_stream_store store_call store_call_remove).
  - by destruct (hot_reload_frame newCfg a a' Hr) as (_ & _ & _ & -> & _).
  - by destruct (pushAssignments_frame Send e (app_server a)) as (_ & _ & _ & _ & -> & _).
Qed.

(** The store chosen at the start. *)
Lemma startup_store `{GoRange} NewClient env path a :
  startup NewClient env path = Ok a → store (app_server a) = buildStore NewClient (currentCfg a).
Proof.
  unfold startup, fatal_on. destruct (Load _ path) as [cfg|]; cbn; [|done].
  destruct (tracing_Init _ _ _).1; cbn; [|done]. destruct (buildEngine cfg); cbn; [|done].
  destruct (buildDomainClassifier cfg); cbn; [|done].
  case_decide; [|destruct (TLSOption _ _); [|done]]; cbn; (destruct (Listen env _); cbn; [done|]); by intros [= <-].
Qed.

(** The program only ever calls the store it was started with. *)
Lemma app_steps_calls a a' :
  rtc app_step a a' → rtc store_call (store (app_server a)) (store (app_server a')).
Proof. induction 1 as [|a1 a2 a3 Hstep _ IH]; [done|]. etrans; [by apply app_step_calls|done]. Qed.

Lemma deployed_store `{GoRange} NewClient env path a0 a :
  startup NewClient env path = Ok a0 → rtc app_step a0 a →
  rtc store_call (buildStore NewClient (currentCfg a0)) (store (app_server a)) ∧
  match store (app_server a) with
  | AnyRedis rs => storage_Type (cfg_Storage (currentCfg a0)) = "redis" ∧ redis_reachable rs
  | AnyMemory _ => storage_Type (cfg_Storage (currentCfg a0)) ≠ "redis"
  end.
Proof.
  intros Hst Hs. pose proof (app_steps_calls a0 a Hs) as Hc.
  rewrite (startup_store NewClient env path a0 Hst) in Hc. split; [done|].
  pose proof (store_calls_kind _ _ Hc) as Hk. revert Hc Hk. unfold buildStore.
  case_decide as Hd; destruct (store (app_server a)) as [rs|m]; cbn; try done.
  intros _ Hk. split; [done|]. by eexists _, _.
Qed.
End deployed.

(** Recording in the chosen store. *)
Lemma record_all_any `{RedisClient} `{GoRange} domain (st : AnyStore) reports :
  record_all domain st reports =
  match st with
  | AnyRedis rs => AnyRedis (record_all domain rs reports)
  | AnyMemory m => AnyMemory (record_all domain m reports)
  end.
Proof.
  unfold record_all. revert st. induction reports as [|r reports IH]; intros [rs|m]; cbn; [done..| |];
    by rewrite IH.
Qed.

(** ** Properties *)

(** C3: the deployed program accounts for what it accepts: let the program
    start with the configuration [currentCfg a0] and run to [a]. Its store is the
    one [buildStore] chose from that configuration (Redis exactly when its type
    is "redis"), changed only by the server's calls; and a message of wire type
    handled without error hands exactly the reports of its non-empty usages to
    it, in order, under the stream's domain. In memory the ledger afterwards is
    the one before with these reports added and nothing else changed. In Redis
    each report has one of three outcomes: it is counted and all else kept (and
    once more, in whole or in part, when a failed attempt was executed after
    all); it is dropped by a full fallback that does not know its bucket; or
    Redis counts it and what the fallback held is lost, but for what Redis
    executed of the failed flush. Expiry of keys in Redis is not counted. *)
Theorem deployed_usage_accounted `{Regexp, DurationPb} `{RedisLog} `{GoRange} NewClient env path (a0 a : App)
    Send id ss req s' :
  (∃ R : GoRange, startup NewClient env path = Ok a0) → rtc app_step a0 a →
  streams (app_server a) !! id = Some ss → typed_request req →
  handleMessage Send id req (app_server a) = (s', None) →
  let reports := usage_report <$> asked (req_bucket_quota_usages req) in
  rtc store_call (buildStore NewClient (currentCfg a0)) (store (app_server a)) ∧
  match store (app_server a), store s' with
  | AnyMemory m, AnyMemory m' => storage_Type (cfg_Storage (currentCfg a0)) ≠ "redis" ∧
      buckets m' = foldl (ledger_record (message_domain ss req)) (buckets m) reports
  | AnyRedis rs, AnyRedis rs' => storage_Type (cfg_Storage (currentCfg a0)) = "redis" ∧
      recorded_chain (message_domain ss req) reports rs rs'
  | _, _ => False
  end.
Proof.
  intros [R0 Hst] Hs Hid Hreq Hm. cbn zeta.
  assert (app_reachable a) as Ha by (by exists R0, NewClient, env, path, a0).
  pose proof (app_inv_reachable a Ha) as Hinv.
  destruct (deployed_store NewClient env path a0 a Hst Hs) as [Hcalls Hkind]. clear Hst R0. split; [done|].
  assert (assigning (engine (app_server a))) as Has.
  { destruct (ai_engine _ _ Hinv) as [R He]. by eapply buildEngine_assigning. }
  rewrite (message_recorded Send (app_server a) s' id req ss Hid Has Hm).
  rewrite record_all_any. destruct (store (app_server a)) as [rs|m].
  - destruct Hkind as [Ht Hr]. split; [done|].
    apply record_all_chain; [by apply redis_inv_reachable|by apply typed_reports].
  - split; [done|]. exact (record_all_ledger (message_domain ss req) m _).
Qed.

Lemma deployed_usage_accounted_witness :
  ∃ s' m', @handleMessage literal_regexp (@AnyStore scripted) _ range_in_order durationpb_split send_ok 0 demo_req
             (app_server demo_app_open) = (s', None) ∧
    store s' = AnyMemory m' ∧
    buckets m' = foldl (@ledger_record range_in_order "api") ∅
      (@usage_report durationpb_split <$> asked (req_bucket_quota_usages demo_req)).
Proof.
  destruct (@handleMessage literal_regexp (@AnyStore scripted) _ range_in_order durationpb_split send_ok 0 demo_req
    (app_server demo_app_open)) as [s' [err|]] eqn:E; [vm_compute in E; discriminate|].
  pose proof (@deployed_usage_accounted literal_regexp durationpb_split scripted scripted_log range_in_order
    demo_new_client demo_env "" demo_app demo_app_open send_ok 0 new_stream demo_req s'
    (ex_intro _ range_in_order demo_startup) demo_app_run eq_refl demo_req_typed E) as [_ Hacc].
  change (store (app_server demo_app_open)) with (@AnyMemory scripted NewMemoryStorage) in Hacc.
  destruct (store s') as [rs|m'] eqn:Es; [destruct Hacc|]. destruct Hacc as [_ Hacc].
  exists s', m'. split; [reflexivity|]. split; [exact Es|exact Hacc].
Defined.
