(* ===== verification/Wire.v ===== *)
(** * Widths from the configuration to the wire (cmd/rlqs-server/main.go)

    What a loaded configuration asks for and what the answers of the engine
    built from it say: strategies arrive as configured, but for token counts,
    which are narrowed from [uint64] to [uint32]. *)
From S2P Require Import Prelude GoStd Proto BucketKey Storage Config Diff Quota Policy DomainClassifier.
From S2P Require Import Server ServerInv ServerProps ServerMessages RedisStorage RedisServer Admin Main Reload.

(** ** Widths on the wire *)
Definition typed_strategy `{DurationPb} (st : RateLimitStrategy) : Prop :=
  match st with
  | RateLimitStrategy_BlanketRule _ => True
  | RateLimitStrategy_RequestsPerTimeUnit n _ => in_uint64 n
  | RateLimitStrategy_TokenBucket tb =>
      in_uint32 (MaxTokens tb) ∧ (∃ n, TokensPerFill tb = Some n ∧ in_uint32 n) ∧
      ∃ d, FillInterval tb = Some (durationpb_New d) ∧ in_int64 d
  end.

Definition typed_action `{DurationPb} (a : BucketAction) : Prop :=
  ∃ q st, bucket_action a = Some (BucketAction_QuotaAssignmentAction q) ∧
    assignment_strategy q = Some st ∧ typed_strategy st ∧
    ∃ d, AssignmentTimeToLive q = Some (durationpb_New d) ∧ in_int64 d.

Lemma typed_token_bucket `{DurationPb} tokens interval :
  in_int64 interval → typed_strategy (token_bucket tokens interval).
Proof. intros Hi. split_and!; [apply uint32_range|eexists; split; [done|apply uint32_range]|by eexists]. Qed.

Lemma typed_configured `{Regexp, DurationPb} e o :
  typed_engine e → (∀ pc, o = Some pc → pc ∈ policy_list e) →
  typed_strategy (configured_strategy e o) ∧ in_int64 (configured_ttl e o).
Proof.
  intros (_ & _ & Hi & Hp) Ho. unfold configured_ttl. destruct o as [pc|]; cbn.
  - rewrite Forall_forall in Hp. destruct (Hp pc (Ho pc eq_refl)) as (Hn & Httl & _). split.
    + unfold buildStrategy. repeat case_decide; [done..| |by apply typed_token_bucket].
      rewrite !Forall_cons in Hn. apply Hn.
    + destruct (pc_AssignmentTTL pc) as [ttl|]; cbn; [by apply Httl|apply int64_range].
  - split; [by apply typed_token_bucket|apply int64_range].
Qed.

(** Values keep their widths from the configuration to the wire: when the
    YAML decoder fills the fields with values of their Go types, whatever the
    environment variables say every number of the loaded configuration is a
    value of its type, and in every answer of the engine built from it token
    counts are [uint32], request counts [uint64] and durations [int64]
    nanoseconds. *)
Theorem wire_values_typed `{Regexp, DurationPb, GoRange} env path cfg e :
  typed_decoder env → Load env path = Ok cfg → buildEngine cfg = Ok e →
  typed_config cfg ∧
  ∀ ctx domain reports actions,
    ProcessUsage e ctx domain reports = Ok actions → Forall typed_action actions.
Proof.
  intros Hdec Hload He. pose proof (load_typed env path cfg Hdec Hload) as Hcfg. split; [done|].
  intros ctx domain reports actions Hp.
  destruct (buildEngine_answers cfg e ctx domain reports He) as (actions' & Hp' & Hall).
  rewrite Hp in Hp'. injection Hp' as <-. eapply Forall2_Forall_r; [exact Hall|].
  apply Forall_true. intros id a (o & Hsel & ->).
  destruct (typed_configured (cfg_Engine cfg) o) as [Hst Httl]; [apply Hcfg| |].
  { intros pc ->. destruct Hsel as (i & Hi & _). by eapply list_elem_of_lookup_2. }
  eexists _, _. split_and!; [done|done|exact Hst|]. by eexists.
Qed.

(** ** What is asked for and what is granted *)
Inductive asked_quota :=
| AskDeny
| AskAllow
| AskRequests (n : Z) (time_unit : string)
| AskTokens (tokens interval : Z).

(** What the configuration says in the words of the operator: the fields of the
    policy that decides, or the defaults. *)
Definition configured_quota (e : EngineConfig) (o : option PolicyConfig) : asked_quota :=
  match o with
  | None => AskTokens (DefaultTokensPerFill e) (ReportingInterval e)
  | Some pc =>
      if decide (pc_Strategy pc = "deny") then AskDeny
      else if decide (pc_Strategy pc = "allow") then AskAllow
      else if decide (pc_Strategy pc = "requests_per_time_unit")
      then AskRequests (pc_RequestsPerTimeUnit pc) (pc_TimeUnit pc)
      else AskTokens (pc_TokensPerFill pc) (ReportingInterval e)
  end.

(** The assignment grants the quota. *)
Definition grants `{DurationPb} (q : asked_quota) (a : BucketAction) : Prop :=
  ∃ qa st, bucket_action a = Some (BucketAction_QuotaAssignmentAction qa) ∧ assignment_strategy qa = Some st ∧
  match q, st with
  | AskDeny, RateLimitStrategy_BlanketRule r => r = DENY_ALL
  | AskAllow, RateLimitStrategy_BlanketRule r => r = ALLOW_ALL
  | AskRequests n u, RateLimitStrategy_RequestsPerTimeUnit n' u' => n' = n ∧ u' = parseTimeUnit u
  | AskTokens n i, RateLimitStrategy_TokenBucket tb =>
      MaxTokens tb = n ∧ TokensPerFill tb = Some n ∧ FillInterval tb = Some (durationpb_New i)
  | _, _ => False
  end.

(** The quota with its token count taken modulo 2^32, and whether that is the
    same count. *)
Definition narrowed (q : asked_quota) : asked_quota :=
  match q with AskTokens n i => AskTokens (n `mod` 2^32) i | _ => q end.

Definition fits (q : asked_quota) : bool :=
  match q with AskTokens n _ => (n <? 2^32)%Z | _ => true end.

(** The assignment made for the selected policy. *)
Lemma configured_grants `{Regexp, DurationPb} e o id ttl :
  grants (narrowed (configured_quota e o)) (build_action id ttl (Some (configured_strategy e o))).
Proof.
  eexists _, _. split; [done|]. split; [done|]. destruct o as [pc|]; [|done]. cbn. unfold buildStrategy.
  repeat case_decide; done.
Qed.

Lemma narrowed_fits `{Regexp, DurationPb} q a :
  (∀ n i, q = AskTokens n i → (0 <= n)%Z) → grants (narrowed q) a → grants q a ↔ fits q = true.
Proof.
  intros Hq Hn. destruct q as [| |n u|n i]; [done..|]. cbn. rewrite Z.ltb_lt. specialize (Hq n i eq_refl).
  destruct Hn as (qa & st & Ha & Hst & Hm). split.
  - intros (qa' & st' & Ha' & Hst' & Hm'). simplify_eq. destruct st; try done. cbn in Hm.
    destruct Hm as [Hm _], Hm' as [Hm' _]. rewrite Hm' in Hm. rewrite Hm. by apply Z.mod_pos_bound.
  - intros Hlt. exists qa, st. split_and!; [done..|]. cbn in Hm. by rewrite Z.mod_small in Hm by lia.
Qed.

Lemma configured_quota_tokens e o n i :
  typed_engine e → (∀ pc, o = Some pc → pc ∈ policy_list e) → configured_quota e o = AskTokens n i → (0 <= n)%Z.
Proof.
  intros (Ht & _ & _ & Hp) Ho. destruct o as [pc|]; cbn; [|by intros [= <- _]; apply Ht].
  rewrite Forall_forall in Hp. destruct (Hp pc (Ho pc eq_refl)) as (Hn & _). rewrite !Forall_cons in Hn.
  repeat case_decide; intros [= <- _]. apply Hn.
Qed.

(** C25: quotas on the wire: let a configuration be loaded (the YAML decoder
    filling the fields with values of their Go types) and the engine built from
    it. Every answer grants its bucket what the first matching policy, or else
    the defaults, ask for: deny all, allow all, the number of requests per unit,
    or a token bucket with the reporting interval. Token counts arrive modulo
    2^32: the quota granted is the one configured exactly when its token count
    is below 2^32. *)
Theorem quotas_on_wire `{Regexp, DurationPb, GoRange} env path cfg e ctx domain reports actions :
  typed_decoder env → Load env path = Ok cfg → buildEngine cfg = Ok e →
  ProcessUsage e ctx domain reports = Ok actions →
  Forall2 (λ id a, action_bucket_id a = id ∧
    ∃ o, config_selects (cfg_Engine cfg) domain (BucketKeyFromProto id) o ∧
      grants (narrowed (configured_quota (cfg_Engine cfg) o)) a ∧
      (grants (configured_quota (cfg_Engine cfg) o) a ↔ fits (configured_quota (cfg_Engine cfg) o) = true))
    (answered_ids reports) actions.
Proof.
  intros Hdec Hload He Hp. pose proof (load_typed env path cfg Hdec Hload) as Hcfg.
  destruct (buildEngine_answers cfg e ctx domain reports He) as (actions' & Hp' & Hall).
  rewrite Hp in Hp'. injection Hp' as <-. eapply Forall2_impl; [exact Hall|].
  intros id a (o & Hsel & ->). split; [done|]. rewrite BucketKeyFromProto_encode. exists o. split; [done|].
  split; [apply configured_grants|]. apply narrowed_fits; [|apply configured_grants].
  intros n i. apply configured_quota_tokens; [apply Hcfg|].
  intros pc ->. destruct Hsel as (j & Hj & _). by eapply list_elem_of_lookup_2.
Qed.

(** A file with one policy, and a variable above the range of [uint32]. *)
Definition demo_typed_env : LoadEnv :=
  {| ReadFile _ := Ok "engine: ..."; Unmarshal _ _ := Ok (demo_cfg_with "web");
     Getenv n := if decide (n = "RLQS_DEFAULT_TOKENS_PER_FILL") then "5000000000" else "" |}.

Definition demo_typed_cfg : Config := set_DefaultTokensPerFill 5000000000 (demo_cfg_with "web").

Definition demo_typed_engine : Engine :=
  match @buildEngine literal_regexp durationpb_split range_in_order demo_typed_cfg with
  | Ok e => e
  | Err _ => demo_app_engine
  end.

Lemma demo_cfg_with_typed : typed_config (demo_cfg_with "web").
Proof.
  pose proof typed_default_config as (Hs & (_ & _ & Hi & _) & Hp). split_and!; [exact Hs| |exact Hp].
  split_and!; cbn; unfold in_uint64; try lia; [exact Hi|].
  apply Forall_singleton. split_and!; [|done..]. cbn. unfold in_uint64. rewrite !Forall_cons, Forall_nil. lia.
Qed.

Lemma demo_typed_built :
  @buildEngine literal_regexp durationpb_split range_in_order demo_typed_cfg = Ok demo_typed_engine.
Proof.
  assert (is_ok (@buildEngine literal_regexp durationpb_split range_in_order demo_typed_cfg) = true) as Hok
    by (vm_compute; reflexivity).
  unfold demo_typed_engine. by destruct (buildEngine demo_typed_cfg).
Qed.

Lemma wire_values_typed_witness :
  typed_config demo_typed_cfg ∧
  ∀ ctx domain reports actions,
    ProcessUsage demo_typed_engine ctx domain reports = Ok actions → Forall (@typed_action durationpb_split) actions.
Proof.
  refine (@wire_values_typed literal_regexp durationpb_split range_in_order demo_typed_env "rlqs.yaml"
    demo_typed_cfg demo_typed_engine _ _ _).
  - intros data c c' Hc [= <-]. exact demo_cfg_with_typed.
  - vm_compute. reflexivity.
  - exact demo_typed_built.
Defined.

(** A report on a bucket, from a domain the policy does not match. *)
Definition demo_wire_report : UsageReport := mkUsageReport (Some (mkBucketId {["user" := "bob"]})) 1 0 0.

Lemma quotas_on_wire_witness :
  ∃ a, ProcessUsage demo_typed_engine StreamContext "api" [demo_wire_report] = Ok [a] ∧
    ∃ o, @grants durationpb_split (narrowed (configured_quota (cfg_Engine demo_typed_cfg) o)) a.
Proof.
  destruct (ProcessUsage demo_typed_engine StreamContext "api" [demo_wire_report]) as [actions|err] eqn:E;
    [|vm_compute in E; discriminate].
  pose proof (@quotas_on_wire literal_regexp durationpb_split range_in_order demo_typed_env "rlqs.yaml"
    demo_typed_cfg demo_typed_engine StreamContext "api" [demo_wire_report] actions) as Hall.
  specialize (Hall ltac:(intros data c c' Hc [= <-]; exact demo_cfg_with_typed) ltac:(vm_compute; reflexivity)
    demo_typed_built E).
  change (answered_ids [demo_wire_report]) with [report_bucket_id demo_wire_report] in Hall.
  inversion Hall as [|? a ? l (_ & o & _ & Hg & _) Hnil]; subst. inversion Hnil; subst.
  exists a. split; [reflexivity|]. exists o. exact Hg.
Defined.

(** The default of five thousand million tokens is granted as 705032704. *)
Example default_tokens_narrowed :
  narrowed (configured_quota (cfg_Engine demo_typed_cfg) None) = AskTokens 705032704 (10 * second).
Proof. reflexivity. Qed.
