(* ===== verification/Live.v ===== *)
(** * The watcher and the running program together

    Watcher.v delivers configurations, the reload loop of Main.v applies them.
    Here both run side by side, with the streams: what the consumer of the
    watcher's channel receives is what the reload loop is given
    (cmd/rlqs-server/main.go, the goroutine of the hot reload). *)
From S2P Require Import Prelude GoStd Proto BucketKey Storage Config Diff Watcher Quota Policy DomainClassifier.
From S2P Require Import Server ServerInv ServerProps ServerMessages RedisStorage RedisServer Admin Main Reload.

Record Live `{Regexp, RedisClient} := mkLive { live_watcher : WatcherState; live_app : App }.
Arguments mkLive {_ _} _ _.
Arguments live_watcher {_ _} _.
Arguments live_app {_ _} _.

(** Taking a configuration from the channel. *)
Definition receive (cfg : Config) (rest : list Config) (w : WatcherState) : WatcherState :=
  mkWatcher (w_env w) (ctx_done w) (loop_running w) (timer_armed w) (reloads w) rest
    (ch_closed w) (panicked w) (received w ++ [cfg]).

Section live.
Context `{Regexp, DurationPb, RedisClient} (path : string).

Inductive live_step : Live → Live → Prop :=
| live_watch w w' a :
    watch_step path w w' → received w' = received w → live_step (mkLive w a) (mkLive w' a)
| live_reload (R : GoRange) w a a' cfg rest :
    ch w = cfg :: rest → hot_reload cfg a = Some a' →
    live_step (mkLive w a) (mkLive (receive cfg rest w) a')
| live_open w a id :
    streams (app_server a) !! id = None → live_step (mkLive w a) (mkLive w (with_server (open_stream id) a))
| live_message (R : GoRange) Send w a id req :
    typed_request req → is_Some (streams (app_server a) !! id) →
    live_step (mkLive w a) (mkLive w (with_server (λ s, (handleMessage Send id req s).1) a))
| live_close (R : GoRange) w a id :
    is_Some (streams (app_server a) !! id) →
    live_step (mkLive w a) (mkLive w (with_server (close_stream id) a))
| live_push (R : GoRange) Send w a before e after :
    app_pushes a = before ++ e :: after →
    live_step (mkLive w a) (mkLive w (mkApp (pushAssignments Send e (app_server a)) (app_admin a) (currentCfg a)
                                        (before ++ after))).

(** A successful start with a configuration file whose watch could be set up:
    the watcher reads the files, the variables and with the decoder of [main]. *)
Definition live_start (env : MainEnv) (a0 : App) : Live := mkLive (watching (main_load env)) a0.

Definition live_reachable (l : Live) : Prop :=
  ∃ (R : GoRange) NewClient env a0,
    startup NewClient env path = Ok a0 ∧ rtc live_step (live_start env a0) l.

(** The reload loop takes a configuration on which it panics. *)
Definition live_crashes (l : Live) (cfg : Config) : Prop :=
  ∃ (R : GoRange) rest, ch (live_watcher l) = cfg :: rest ∧ hot_reload cfg (live_app l) = None.

(** ** Projections *)
Lemma live_app_steps l l' : rtc live_step l l' → rtc app_step (live_app l) (live_app l').
Proof.
  induction 1 as [|l1 l2 l3 Hs _ IH]; [done|]. etrans; [|exact IH].
  destruct Hs; cbn; [done|apply rtc_once; by econstructor..].
Qed.

Lemma live_watch_steps l l' : rtc live_step l l' → rtc (watch_step path) (live_watcher l) (live_watcher l').
Proof.
  induction 1 as [|l1 l2 l3 Hs _ IH]; [done|]. etrans; [|exact IH].
  destruct Hs; cbn; [by apply rtc_once|apply rtc_once; by econstructor|done..].
Qed.

Lemma received_step w w' :
  watch_step path w w' →
  received w' = received w ∨ ∃ cfg rest, ch w = cfg :: rest ∧ w' = receive cfg rest w.
Proof.
  destruct 1 as [| | | | | |w before after E| | |w cfg rest E]; try (by left).
  - left. unfold watch_event. by case_match.
  - left. unfold reload_load. by destruct (Load _ _).
  - right. eauto.
Qed.

Lemma received_steps w w' : rtc (watch_step path) w w' → received w `prefix_of` received w'.
Proof.
  induction 1 as [|w1 w2 w3 [E|(cfg & rest & _ & ->)]%received_step _ IH]; [done|by rewrite <-E|].
  etrans; [|exact IH]. by eexists.
Qed.

(** Every run of the watcher can happen in the program, up to a configuration
    on which the reload loop panics. *)
Lemma watch_steps_live `{GoRange} w w' a :
  rtc (watch_step path) w w' →
  ∃ l', rtc live_step (mkLive w a) l' ∧ streams (app_server (live_app l')) = streams (app_server a) ∧
    (live_watcher l' = w' ∨
     ∃ cfg new, live_crashes l' cfg ∧ received w' = received (live_watcher l') ++ cfg :: new).
Proof.
  intros Hs. revert a. induction Hs as [w|w1 w2 w3 Hstep Hs IH]; intros a.
  { exists (mkLive w a). split_and!; [done..|by left]. }
  destruct (received_step _ _ Hstep) as [E|(cfg & rest & Hch & ->)].
  - destruct (IH a) as (l' & Hl' & Es & Hc). exists l'. split; [|done]. eapply rtc_l; [by apply live_watch|done].
  - destruct (hot_reload cfg a) as [a1|] eqn:Hr.
    + destruct (IH a1) as (l' & Hl' & Es & Hc). exists l'. split; [eapply rtc_l; [by eapply live_reload|done]|].
      split; [|done]. rewrite Es. by apply (hot_reload_frame cfg a a1).
    + exists (mkLive w1 a). split_and!; [done..|]. right.
      destruct (received_steps _ _ Hs) as [new Enew]. exists cfg, new. split; [by eexists _, _|].
      rewrite Enew. cbn. by rewrite <-(assoc_L (++)).
Qed.

(** ** The configuration in force *)

(** What can be applied does not depend on the order of maps. *)
Lemma buildable_range (R1 R2 : GoRange) cfg : @buildable _ _ R1 cfg = @buildable _ _ R2 cfg.
Proof.
  unfold buildable, buildEngine. f_equal. case_decide; [done|]. by destruct (New _).
Qed.

Lemma last_applied_range (R1 R2 : GoRange) cfg cfgs :
  @last_applied _ _ R1 cfg cfgs = @last_applied _ _ R2 cfg cfgs.
Proof.
  unfold last_applied. revert cfg. induction cfgs as [|c cfgs IH]; intros cfg; [done|]. cbn.
  by rewrite (buildable_range R1 R2), IH.
Qed.

Lemma last_applied_snoc `{GoRange} cfg cfgs c :
  last_applied cfg (cfgs ++ [c]) = if buildable c then c else last_applied cfg cfgs.
Proof. unfold last_applied. by rewrite foldl_app. Qed.

Lemma live_tracks (R0 : GoRange) cfg0 l l' :
  rtc live_step l l' → currentCfg (live_app l) = last_applied cfg0 (received (live_watcher l)) →
  currentCfg (live_app l') = last_applied cfg0 (received (live_watcher l')).
Proof.
  induction 1 as [|l1 l2 l3 Hs _ IH]; [done|]. intros Hl. apply IH.
  destruct Hs as [w w' a _ E|R w a a' cfg rest E Hr| | | |]; cbn [live_app live_watcher receive received] in *;
    [by rewrite E| |done..].
  rewrite (@last_applied_snoc R0), (proj1 (@hot_reload_frame _ _ R _ cfg a a' Hr)), Hl.
  by rewrite (buildable_range R R0).
Qed.

Lemma live_split l :
  live_reachable l →
  app_reachable (live_app l) ∧ watch_reachable path (live_watcher l) ∧
  ∃ cfg0, ∀ R : GoRange, currentCfg (live_app l) = last_applied cfg0 (received (live_watcher l)).
Proof.
  intros (R & NewClient & env & a0 & Hstart & Hs). split_and!.
  - exists R, NewClient, env, path, a0. split; [done|]. exact (live_app_steps _ _ Hs).
  - apply (watch_reachable_from _ (main_load env)). exact (live_watch_steps _ _ Hs).
  - exists (currentCfg a0). intros R'. exact (live_tracks R' (currentCfg a0) _ _ Hs eq_refl).
Qed.

(** ** Where the configuration comes from

    [cfg] was loaded from the file as it was at a moment of the run from [l0] to
    [l], with the variables and the decoder of the start. *)
Definition loaded_during (l0 l : Live) (cfg : Config) : Prop :=
  ∃ l1, rtc live_step l0 l1 ∧ rtc live_step l1 l ∧
    Unmarshal (w_env (live_watcher l1)) = Unmarshal (w_env (live_watcher l0)) ∧
    Getenv (w_env (live_watcher l1)) = Getenv (w_env (live_watcher l0)) ∧
    Load (w_env (live_watcher l1)) path = Ok cfg.

Lemma live_step_watch l l' : live_step l l' → live_watcher l' = live_watcher l ∨ watch_step path (live_watcher l) (live_watcher l').
Proof. destruct 1; cbn; [by right|right; by constructor|by left..]. Qed.

Lemma live_fixed l0 l :
  rtc live_step l0 l →
  Unmarshal (w_env (live_watcher l)) = Unmarshal (w_env (live_watcher l0)) ∧
  Getenv (w_env (live_watcher l)) = Getenv (w_env (live_watcher l0)).
Proof.
  induction 1 as [|l1 l2 l3 Hs _ [IH1 IH2]]; [done|]. rewrite IH1, IH2.
  destruct (live_step_watch _ _ Hs) as [->|Hw]; [done|]. exact (watch_step_fixed path _ _ Hw).
Qed.

Lemma loaded_during_now l0 l cfg :
  rtc live_step l0 l → Load (w_env (live_watcher l)) path = Ok cfg → loaded_during l0 l cfg.
Proof. intros Hs Hl. exists l. destruct (live_fixed l0 l Hs). by split_and!. Qed.

(** Whatever the watcher holds or has delivered was loaded during the run. *)
Lemma configs_loaded l0 l cfg :
  rtc live_step l0 l → configs (live_watcher l0) = [] → cfg ∈ configs (live_watcher l) → loaded_during l0 l cfg.
Proof.
  intros Hs H0'. revert cfg. refine (rtc_ind_r (λ l, ∀ cfg, cfg ∈ configs (live_watcher l) → loaded_during l0 l cfg)
    l0 _ _ l Hs); clear Hs l.
  { intros cfg. by rewrite H0', elem_of_nil. }
  intros l l' Hs Hstep IH cfg Hin.
  assert (cfg ∈ configs (live_watcher l) ∨ Load (w_env (live_watcher l)) path = Ok cfg) as Hor.
  { destruct (live_step_watch _ _ Hstep) as [E|Hw]; [left; by rewrite E in Hin|by eapply watch_step_origin]. }
  assert (loaded_during l0 l cfg) as (l1 & Hl1 & Hl2 & Hrest) by (destruct Hor; [by apply IH|by apply loaded_during_now]).
  exists l1. split; [done|]. split; [|done]. by eapply rtc_r.
Qed.

(** The configuration in force is that of the start or one that was received. *)
Lemma last_applied_from `{GoRange} cfg0 cfgs : last_applied cfg0 cfgs = cfg0 ∨ last_applied cfg0 cfgs ∈ cfgs.
Proof.
  induction cfgs as [|c cfgs IH] using rev_ind; [by left|]. rewrite last_applied_snoc.
  case_match; [right|destruct IH as [->|?]; [by left|right]]; set_solver.
Qed.
End live.

(** A change of the file arrives: it is in force in the end, or the reload loop
    panics on it or on what the channel held before. *)
Lemma change_arrives `{Regexp, DurationPb, RedisClient, GoRange} path (l : Live) cfg :
  live_reachable path l → loop_running (live_watcher l) = true → timer_armed (live_watcher l) = true →
  Load (w_env (live_watcher l)) path = Ok cfg → buildable cfg = true →
  ∃ l', rtc (live_step path) l l' ∧ streams (app_server (live_app l')) = streams (app_server (live_app l)) ∧
    (currentCfg (live_app l') = cfg ∨ ∃ c, c ∈ ch (live_watcher l) ++ [cfg] ∧ live_crashes l' c).
Proof.
  intros Hl Hrun Ht Hload Hb. pose proof (live_split path l Hl) as (_ & Hw & _).
  destruct (watcher_can_deliver path _ cfg Hw Hrun Ht Hload) as (w' & Hs & Hrec).
  destruct l as [w a]. cbn in *. destruct (watch_steps_live path w w' a Hs) as (l' & Hs' & Es & Hc).
  exists l'. split_and!; [done..|]. destruct Hc as [<-|(c & new & Hcr & Enew)].
  - left. assert (live_reachable path l') as Hl'.
    { destruct Hl as (R & NewClient & env & a0 & Hstart & Hs0). exists R, NewClient, env, a0.
      split; [done|]. by etrans. }
    destruct (live_split path _ Hl') as (_ & _ & cfg0 & Hc). rewrite (Hc _), Hrec, (assoc_L (++)).
    by rewrite last_applied_snoc, Hb.
  - right. exists c. split; [|done].
    destruct (received_steps path w _ (live_watch_steps path _ _ Hs')) as [k Ek]. cbn in Ek.
    rewrite Hrec, Ek, <-(assoc_L (++)) in Enew. simplify_list_eq. rewrite Enew. set_solver.
Qed.

(** ** Properties *)


(** C34: a change of the file can always take effect: whenever the loop of the
    watcher runs, its timer is armed and the file loads as a configuration
    whose patterns compile, some continuation puts that configuration in force
    and leaves the registered streams alone, whatever reloads are in flight,
    provided it and what the channel holds need an engine of the concrete type
    in use. *)
Theorem live_change_takes_effect `{Regexp, DurationPb, RedisClient, GoRange} path (l : Live) cfg :
  live_reachable path l → loop_running (live_watcher l) = true → timer_armed (live_watcher l) = true →
  Load (w_env (live_watcher l)) path = Ok cfg → buildable cfg = true →
  Forall (λ c, engine_type c = engine_type (currentCfg (live_app l))) (ch (live_watcher l) ++ [cfg]) →
  ∃ l', rtc (live_step path) l l' ∧ currentCfg (live_app l') = cfg ∧
    streams (app_server (live_app l')) = streams (app_server (live_app l)).
Proof.
  intros Hl Hrun Ht Hload Hb Hty.
  destruct (change_arrives path l cfg Hl Hrun Ht Hload Hb) as (l' & Hs & Es & [Hc|(c & Hin & R & rest & _ & Hn)]);
    [by exists l'|].
  pose proof (live_split path l Hl) as (Ha%app_inv_reachable & _). rewrite Forall_forall in Hty.
  destruct (@hot_reload_total _ _ R _ (limits (app_server (live_app l))) c (live_app l')) as [? E]; [| |congruence].
  - eapply app_inv_steps; [exact (live_app_steps path l l' Hs)|done].
  - intros _. rewrite (app_type_steps _ _ _ (live_app_steps path l l' Hs) Ha). by apply Hty.
Qed.

(** A change of the file can end the process: under the same conditions,
    when the file adds the first policy or removes the last one, some
    continuation has the reload loop panic, with all streams still open. *)
Theorem live_policies_toggle_crashes `{Regexp, DurationPb, RedisClient, GoRange} path (l : Live) cfg :
  live_reachable path l → loop_running (live_watcher l) = true → timer_armed (live_watcher l) = true →
  Load (w_env (live_watcher l)) path = Ok cfg → buildable cfg = true →
  engine_type cfg ≠ engine_type (currentCfg (live_app l)) →
  ∃ l' c, rtc (live_step path) l l' ∧ live_crashes l' c ∧
    streams (app_server (live_app l')) = streams (app_server (live_app l)).
Proof.
  intros Hl Hrun Ht Hload Hb Hty.
  destruct (change_arrives path l cfg Hl Hrun Ht Hload Hb) as (l' & Hs & Es & [Hc|(c & _ & Hn)]);
    [|by exists l', c].
  pose proof (live_split path l Hl) as (Ha%app_inv_reachable & _). destruct Hty.
  by rewrite <-(app_type_steps _ _ _ (live_app_steps path l l' Hs) Ha), Hc.
Qed.

(** A concrete run: the next version of the file, which the watcher sees, has
    another number of tokens, or a policy where there was none. *)
Section demo.
#[local] Existing Instance range_in_order.
#[local] Existing Instance durationpb_split.
#[local] Existing Instance literal_regexp.
#[local] Existing Instance scripted.

(** A file that names one of three configurations. *)
Definition demo_decode (data : string) : Config :=
  if decide (data = "tokens") then demo_cfg_tokens 50
  else if decide (data = "policies") then demo_cfg_with "web"
  else default_config.

Definition file_says (data : string) : LoadEnv :=
  {| ReadFile _ := Ok data; Unmarshal data _ := Ok (demo_decode data); Getenv _ := "" |}.

Definition live_env : MainEnv :=
  mkMainEnv (file_says "default") unit (λ _ _, Ok tt) unit (λ _, Some tt) demo_otel (λ _, None).

Lemma live_demo_startup : startup demo_new_client live_env "c.yaml" = Ok demo_app.
Proof. reflexivity. Qed.

(** The file has been changed and the watcher has seen it. *)
Definition live_changed (data : string) : Live :=
  mkLive (watch_event true false (watching (file_says data))) demo_app.

Lemma live_changed_steps data : rtc (live_step "c.yaml") (live_start live_env demo_app) (live_changed data).
Proof.
  eapply rtc_l; [apply live_watch; [apply (watch_step_world _ (λ _, Ok data))|done]|].
  apply rtc_once. apply live_watch; [|done]. by apply (watch_step_event _ true false).
Qed.

Lemma live_changed_reachable data : live_reachable "c.yaml" (live_changed data).
Proof.
  exists range_in_order, demo_new_client, live_env, demo_app. split; [exact live_demo_startup|exact (live_changed_steps data)].
Qed.

(** The change has been loaded, sent and applied. *)
Definition live_applied : Live :=
  let w := watch_event true false (watching (file_says "tokens")) in
  let w := reload_send [] [] (demo_cfg_tokens 50) (reload_load "c.yaml" [] [] (timer_fires w)) in
  mkLive (receive (demo_cfg_tokens 50) [] w) (default demo_app (hot_reload (demo_cfg_tokens 50) demo_app)).

Lemma live_applied_steps : rtc (live_step "c.yaml") (live_start live_env demo_app) live_applied.
Proof.
  etrans; [exact (live_changed_steps "tokens")|].
  eapply rtc_l; [apply live_watch; [by apply watch_step_fire|done]|].
  eapply rtc_l; [apply live_watch; [by apply (watch_step_load _ _ [] [])|done]|].
  eapply rtc_l; [apply live_watch; [apply (watch_step_send _ _ [] [] (demo_cfg_tokens 50)); [reflexivity|right; cbn; constructor]|done]|].
  apply rtc_once, (live_reload _ range_in_order); reflexivity.
Qed.
End demo.


Lemma live_change_takes_effect_witness :
  ∃ l', rtc (@live_step literal_regexp durationpb_split scripted "c.yaml") (live_changed "tokens") l' ∧
    currentCfg (live_app l') = demo_cfg_tokens 50.
Proof.
  destruct (@live_change_takes_effect literal_regexp durationpb_split scripted range_in_order "c.yaml"
    (live_changed "tokens") (demo_cfg_tokens 50) (live_changed_reachable "tokens")
    eq_refl eq_refl) as (l' & Hs & Hc & _).
  - vm_compute. reflexivity.
  - vm_compute. reflexivity.
  - constructor; [reflexivity|constructor].
  - exists l'. exact (conj Hs Hc).
Defined.

Lemma live_policies_toggle_crashes_witness :
  ∃ l' c, rtc (@live_step literal_regexp durationpb_split scripted "c.yaml") (live_changed "policies") l' ∧
    @live_crashes literal_regexp durationpb_split scripted l' c.
Proof.
  destruct (@live_policies_toggle_crashes literal_regexp durationpb_split scripted range_in_order "c.yaml"
    (live_changed "policies") (demo_cfg_with "web") (live_changed_reachable "policies")
    eq_refl eq_refl) as (l' & c & Hs & Hc & _).
  - vm_compute. reflexivity.
  - vm_compute. reflexivity.
  - discriminate.
  - exists l', c. exact (conj Hs Hc).
Defined.
