(* ===== verification/Interleaving.v ===== *)
(** * Streams interleaved at the locks (internal/server/server.go)

    The handlers of server.go take [ss.mu], [s.mu] and the store's lock one
    after another and release each before the next. Here the goroutines of the
    streams interleave between these critical sections. A stream keeps the
    scoped keys it is subscribed to and the critical sections its handler still
    has to run; the shared state is [bucketRefs] and the store. A critical
    section is one step: a schedule of the locks is a schedule of these steps
    (that no schedule gets stuck is shown in Locks.v). *)
From S2P Require Import Prelude Proto BucketKey Storage GoStd Config Quota DomainClassifier Server ServerInv.

(** The critical sections that follow a handler's first one, on a scoped key. *)
Inductive section_ :=
| IncRef (k : string)                  (* s.mu: bucketRefs[k]++ *)
| Record_ (k : string) (allowed denied : Z) (* the store's RecordUsage *)
| Release (k : string)                 (* s.mu: bucketRefs[k]--, delete at zero *)
| Remove (k : string).                 (* the store's RemoveBucket *)

#[export] Instance section_eq_dec : EqDecision section_.
Proof. solve_decision. Defined.

Record goroutine := mkGoroutine { subs : gset string; todo : list section_ }.

Record shared := mkShared {
  goroutines : gmap nat goroutine;
  refs : gmap string Z;
  ledger : MemoryStorage;
}.

Definition with_goroutine (id : nat) (g : goroutine) (s : shared) : shared :=
  mkShared (<[id := g]> (goroutines s)) (refs s) (ledger s).

(** A usage is looked at under [ss.mu]: a new bucket is subscribed to and will
    be counted; then the usage is recorded. *)
Definition begin_report (k : string) (allowed denied : Z) (g : goroutine) : goroutine :=
  if decide (k ∈ subs g) then mkGoroutine (subs g) [Record_ k allowed denied]
  else mkGoroutine ({[k]} ∪ subs g) [IncRef k; Record_ k allowed denied].

(** An abandon action drops a subscription under [ss.mu] and releases it. *)
Definition begin_abandon (k : string) (g : goroutine) : goroutine :=
  if decide (k ∈ subs g) then mkGoroutine (subs g ∖ {[k]}) [Release k] else g.

(** The stream ends: all its subscriptions are released, in any order. *)
Definition begin_cleanup (order : list string) (g : goroutine) : goroutine :=
  mkGoroutine ∅ (Release <$> order).

(** Run one critical section of stream [id], with [rest] left to do. *)
Definition run_section (id : nat) (g : goroutine) (c : section_) (rest : list section_) (s : shared) : shared :=
  match c with
  | IncRef k =>
      mkShared (<[id := mkGoroutine (subs g) rest]> (goroutines s)) (label_add k 1 (refs s)) (ledger s)
  | Record_ k a d =>
      mkShared (<[id := mkGoroutine (subs g) rest]> (goroutines s)) (refs s) (Update k a d (ledger s))
  | Release k =>
      let refs' := label_add k (-1) (refs s) in
      if (default 0 (refs' !! k) <=? 0)%Z then
        mkShared (<[id := mkGoroutine (subs g) (Remove k :: rest)]> (goroutines s)) (delete k refs') (ledger s)
      else mkShared (<[id := mkGoroutine (subs g) rest]> (goroutines s)) refs' (ledger s)
  | Remove k =>
      mkShared (<[id := mkGoroutine (subs g) rest]> (goroutines s)) (refs s) (Reset k (ledger s))
  end.

Inductive interleave : shared → shared → Prop :=
| il_open s id :
    goroutines s !! id = None → interleave s (with_goroutine id (mkGoroutine ∅ []) s)
| il_report s id g k a d :
    goroutines s !! id = Some g → todo g = [] →
    interleave s (with_goroutine id (begin_report k a d g) s)
| il_abandon s id g k :
    goroutines s !! id = Some g → todo g = [] →
    interleave s (with_goroutine id (begin_abandon k g) s)
| il_cleanup s id g order :
    goroutines s !! id = Some g → todo g = [] → order ≡ₚ elements (subs g) →
    interleave s (with_goroutine id (begin_cleanup order g) s)
| il_run s id g c rest :
    goroutines s !! id = Some g → todo g = c :: rest →
    interleave s (run_section id g c rest s)
| il_exit s id g :
    goroutines s !! id = Some g → todo g = [] → subs g = ∅ →
    interleave s (mkShared (delete id (goroutines s)) (refs s) (ledger s)).

Definition initial : shared := mkShared ∅ ∅ NewMemoryStorage.

(** No handler is between two critical sections. *)
Definition quiescent (s : shared) : Prop := map_Forall (λ _ g, todo g = []) (goroutines s).

#[export] Instance quiescent_dec s : Decision (quiescent s).
Proof. unfold quiescent. apply _. Defined.

(** ** Invariant *)

(** What a pending section still owes the count of [k]. *)
Definition section_weight (k : string) (c : section_) : Z :=
  match c with
  | IncRef k' => if decide (k' = k) then -1 else 0
  | Release k' => if decide (k' = k) then 1 else 0
  | _ => 0
  end%Z.

Definition todo_weight (k : string) (l : list section_) : Z := foldr (λ c z, section_weight k c + z)%Z 0%Z l.

(** The references a stream holds on [k], as [bucketRefs] counts them now. *)
Definition weight (k : string) (g : goroutine) : Z :=
  ((if decide (k ∈ subs g) then 1 else 0) + todo_weight k (todo g))%Z.

Definition total (k : string) (m : gmap nat goroutine) : Z := map_sum (λ _ g, weight k g) m.

Definition releasing (c : section_) : Prop :=
  match c with Release _ | Remove _ => True | _ => False end.

(** Where a handler can be. *)
Inductive handler_at (g : goroutine) : Prop :=
| at_subscribed k a d : k ∈ subs g → todo g = [IncRef k; Record_ k a d] → handler_at g
| at_counted k a d : k ∈ subs g → todo g = [Record_ k a d] → handler_at g
| at_releasing : Forall releasing (todo g) → handler_at g.

Lemma todo_weight_cons k c l : todo_weight k (c :: l) = (section_weight k c + todo_weight k l)%Z.
Proof. done. Qed.

Lemma todo_weight_releasing k l :
  Forall releasing l → (0 <= todo_weight k l)%Z ∧ (Release k ∈ l → (0 < todo_weight k l)%Z).
Proof.
  induction 1 as [|c l Hc _ [IH1 IH2]].
  { split; [done|]. by intros ?%not_elem_of_nil. }
  rewrite elem_of_cons, todo_weight_cons. destruct c; cbn; try done.
  - case_decide; (split; [lia|]); (intros [E|Hin]; [|specialize (IH2 Hin)]); simplify_eq; lia.
  - split; [lia|]. intros [E|Hin]; [done|]. specialize (IH2 Hin). lia.
Qed.

Lemma weight_nonneg k g : handler_at g → (0 <= weight k g)%Z.
Proof.
  unfold weight. intros [k' a d Hk E|k' a d Hk E|Hr]; rewrite ?E; cbn.
  - repeat case_decide; subst; done || lia.
  - case_decide; lia.
  - pose proof (proj1 (todo_weight_releasing k _ Hr)). case_decide; lia.
Qed.

(** Counting with [of_count]. *)
Lemma label_add_of_count (m : gmap string Z) f k k' :
  (∀ k, m !! k = of_count (f k)) → (0 <= f k)%Z →
  label_add k 1 m !! k' = of_count (f k' + if decide (k = k') then 1 else 0).
Proof.
  intros Hm Hk. rewrite lookup_label_add, !Hm, default_of_count. case_decide as E; [subst k'|by rewrite Z.add_0_r].
  unfold of_count. by rewrite (proj2 (Z.eqb_neq _ 0)) by lia.
Qed.

Lemma release_of_count (m : gmap string Z) f k k' :
  (∀ k, m !! k = of_count (f k)) → (0 < f k)%Z →
  release_refs k m !! k' = of_count (f k' - if decide (k = k') then 1 else 0).
Proof.
  intros Hm Hk. unfold release_refs. rewrite lookup_label_add, decide_True by done. cbn [default from_option].
  rewrite Hm, default_of_count. unfold id. case_match eqn:E.
  - apply Z.leb_le in E. case_decide as Ek; [subst; rewrite lookup_delete_eq|].
    + unfold of_count. by rewrite (proj2 (Z.eqb_eq _ 0)) by lia.
    + by rewrite lookup_delete_ne, lookup_label_add, decide_False, Hm, Z.sub_0_r by done.
  - apply Z.leb_gt in E. rewrite lookup_label_add. case_decide as Ek; [subst|by rewrite Hm, Z.sub_0_r].
    rewrite Hm, default_of_count. unfold of_count. by rewrite (proj2 (Z.eqb_neq _ 0)) by lia.
Qed.

Record il_inv (s : shared) : Prop := {
  il_at : map_Forall (λ _ g, handler_at g) (goroutines s);
  il_refs k : refs s !! k = of_count (total k (goroutines s));
  il_ledger k : is_Some (buckets (ledger s) !! k) →
    is_Some (refs s !! k) ∨ ∃ id g, goroutines s !! id = Some g ∧ Remove k ∈ todo g;
}.

Lemma total_nonneg k m : map_Forall (λ _ g, handler_at g) m → (0 <= total k m)%Z.
Proof.
  intros Hm. unfold total. induction m as [|i g m Hi IH] using map_ind; [by rewrite map_sum_empty|].
  rewrite map_Forall_insert in Hm by done. destruct Hm as [Hg Hm].
  rewrite map_sum_insert_None by done. pose proof (weight_nonneg k g Hg). specialize (IH Hm). lia.
Qed.

Lemma total_ge k m id g :
  map_Forall (λ _ g, handler_at g) m → m !! id = Some g → (weight k g <= total k m)%Z.
Proof.
  intros Hm Hid. pose proof (total_nonneg k (delete id m) (map_Forall_delete _ _ _ Hm)) as Hn.
  unfold total in *. rewrite (map_sum_delete _ _ _ g Hid) in Hn. lia.
Qed.

Lemma total_put k m id g g' :
  m !! id = Some g → total k (<[id := g']> m) = (total k m - weight k g + weight k g')%Z.
Proof. apply (map_sum_insert_Some (λ _ g, weight k g)). Qed.

(** A step of one handler that neither changes the counts nor removes. *)
Lemma il_inv_local s id g g' :
  il_inv s → goroutines s !! id = Some g → handler_at g' →
  (∀ k, weight k g' = weight k g) → (∀ k, Remove k ∈ todo g → Remove k ∈ todo g') →
  il_inv (with_goroutine id g' s).
Proof.
  intros [Ha Hr Hl] Hid Hat Hw Hrem. split; cbn.
  - by apply map_Forall_insert_2.
  - intros k. rewrite Hr, (total_put k _ id g) by done. f_equal. rewrite Hw. lia.
  - intros k Hk. destruct (Hl k Hk) as [?|(i & g0 & Hi & Hin)]; [by left|right].
    destruct (decide (i = id)) as [->|Hne].
    + exists id, g'. rewrite lookup_insert_eq. simplify_eq. auto.
    + exists i, g0. by rewrite lookup_insert_ne.
Qed.

(** Running a section leaves the other removals of the stream pending. *)
Lemma remove_pending (s : shared) id g c rest rest' k :
  goroutines s !! id = Some g → todo g = c :: rest → c ≠ Remove k → (∀ c', c' ∈ rest → c' ∈ rest') →
  (∃ i g0, goroutines s !! i = Some g0 ∧ Remove k ∈ todo g0) →
  ∃ i g0, <[id := mkGoroutine (subs g) rest']> (goroutines s) !! i = Some g0 ∧ Remove k ∈ todo g0.
Proof.
  intros Hid E Hc Hrest (i & g0 & Hi & Hin). destruct (decide (i = id)) as [->|Hne].
  - eexists id, _. rewrite lookup_insert_eq. split; [done|]. cbn. simplify_eq. rewrite E in Hin.
    apply elem_of_cons in Hin as [?|?]; [congruence|auto].
  - exists i, g0. by rewrite lookup_insert_ne.
Qed.

Lemma run_inc_inv s id g k rest :
  il_inv s → goroutines s !! id = Some g → todo g = IncRef k :: rest →
  il_inv (run_section id g (IncRef k) rest s).
Proof.
  intros [Ha Hr Hl] Hid E. destruct (Ha id g Hid) as [k' a d Hk E'|k' a d Hk E'|Hrel];
    [|congruence|rewrite E in Hrel; by apply Forall_cons in Hrel as [[] _]].
  rewrite E in E'. injection E' as <- ->. split; cbn.
  - apply map_Forall_insert_2; [|done]. by eapply at_counted.
  - intros k'. rewrite (label_add_of_count _ (λ k, total k (goroutines s))) by eauto using total_nonneg.
    rewrite (total_put k' _ id g) by done. f_equal. unfold weight. rewrite E. cbn. repeat case_decide; lia.
  - intros k' Hk'. destruct (Hl k' Hk') as [Hs|Hp].
    + left. rewrite lookup_label_add. case_decide; [by eauto|done].
    + right. by eapply remove_pending.
Qed.

Lemma run_record_inv s id g k a d rest :
  il_inv s → goroutines s !! id = Some g → todo g = Record_ k a d :: rest →
  il_inv (run_section id g (Record_ k a d) rest s).
Proof.
  intros [Ha Hr Hl] Hid E. destruct (Ha id g Hid) as [k' a' d' Hk E'|k' a' d' Hk E'|Hrel];
    [congruence| |rewrite E in Hrel; by apply Forall_cons in Hrel as [[] _]].
  rewrite E in E'. injection E' as <- <- <- ->. split; cbn.
  - apply map_Forall_insert_2; [|done]. by apply at_releasing.
  - intros k'. rewrite Hr, (total_put k' _ id g) by done. f_equal. unfold weight. rewrite E. cbn. lia.
  - intros k'. rewrite buckets_Update. rewrite lookup_insert_is_Some. intros [<-|[_ Hk']].
    + left. rewrite Hr. pose proof (total_ge k _ id g Ha Hid) as Hge. unfold weight in Hge.
      rewrite decide_True, E in Hge by done. cbn in Hge. unfold of_count.
      rewrite (proj2 (Z.eqb_neq _ 0)) by lia. eauto.
    + destruct (Hl k' Hk') as [?|Hp]; [by left|right]. by eapply remove_pending.
Qed.

Lemma run_remove_inv s id g k rest :
  il_inv s → goroutines s !! id = Some g → todo g = Remove k :: rest →
  il_inv (run_section id g (Remove k) rest s).
Proof.
  intros [Ha Hr Hl] Hid E. destruct (Ha id g Hid) as [k' a d Hk E'|k' a d Hk E'|Hrel]; [congruence..|].
  rewrite E in Hrel. apply Forall_cons in Hrel as [_ Hrel]. split; cbn.
  - apply map_Forall_insert_2; [|done]. by apply at_releasing.
  - intros k'. rewrite Hr, (total_put k' _ id g) by done. f_equal. unfold weight. rewrite E. cbn.
    fold (todo_weight k' rest). lia.
  - intros k'. rewrite lookup_delete_is_Some. intros [Hne Hk'].
    destruct (Hl k' Hk') as [?|Hp]; [by left|right]. eapply remove_pending; [done..| |done|done]. congruence.
Qed.

Lemma run_release_inv s id g k rest :
  il_inv s → goroutines s !! id = Some g → todo g = Release k :: rest →
  il_inv (run_section id g (Release k) rest s).
Proof.
  intros [Ha Hr Hl] Hid E. destruct (Ha id g Hid) as [k' a d Hk E'|k' a d Hk E'|Hrel]; [congruence..|].
  rewrite E in Hrel. assert (0 < total k (goroutines s))%Z as Hpos.
  { pose proof (total_ge k _ id g Ha Hid) as Hge. unfold weight in Hge. rewrite E in Hge.
    destruct (todo_weight_releasing k _ Hrel) as [_ Hw]. specialize (Hw ltac:(by left)). case_decide; lia. }
  pose proof (λ k', release_of_count (refs s) (λ k, total k (goroutines s)) k k' Hr Hpos) as Hrefs.
  apply Forall_cons in Hrel as [_ Hrel].
  assert (∀ rest', (∀ k', todo_weight k' rest' = todo_weight k' rest) → ∀ k',
    total k' (<[id := mkGoroutine (subs g) rest']> (goroutines s)) =
      (total k' (goroutines s) - if decide (k = k') then 1 else 0)%Z) as Htot.
  { intros rest' Hw k'. rewrite (total_put k' _ id g) by done. unfold weight. rewrite E. cbn.
    fold (todo_weight k' rest) (todo_weight k' rest'). rewrite Hw. case_decide; lia. }
  unfold release_refs in Hrefs. cbn. case_match eqn:Ez; split; cbn.
  - apply map_Forall_insert_2; [|done]. apply at_releasing. by constructor.
  - intros k'. by rewrite Hrefs, (Htot (Remove k :: rest)).
  - intros k' Hk'. destruct (decide (k = k')) as [<-|Hne].
    { right. eexists id, _. rewrite lookup_insert_eq. split; [done|]. by left. }
    destruct (Hl k' Hk') as [Hs|Hp].
    + left. rewrite lookup_delete_ne, lookup_label_add, decide_False by done. done.
    + right. eapply remove_pending; [done..| |done]. intros. by right.
  - apply map_Forall_insert_2; [|done]. by apply at_releasing.
  - intros k'. by rewrite Hrefs, (Htot rest).
  - intros k' Hk'. destruct (Hl k' Hk') as [Hs|Hp].
    + left. rewrite lookup_label_add. case_decide; [by eauto|done].
    + right. by eapply remove_pending.
Qed.

Lemma todo_weight_order k order :
  NoDup order → todo_weight k (Release <$> order) = (if decide (k ∈ order) then 1 else 0)%Z.
Proof.
  induction 1 as [|x order Hx Hnd IH]; [done|].
  rewrite fmap_cons, todo_weight_cons, IH. cbn. repeat case_decide; set_solver.
Qed.

Lemma il_inv_step s s' : il_inv s → interleave s s' → il_inv s'.
Proof.
  intros Hinv. destruct 1 as [s id Hid|s id g k a d Hid E|s id g k Hid E|s id g order Hid E Hp|s id g c rest Hid E
    |s id g Hid E Hsubs].
  - destruct Hinv as [Ha Hr Hl]. split; cbn.
    + apply map_Forall_insert_2; [|done]. by apply at_releasing.
    + intros k. rewrite Hr. unfold total. rewrite map_sum_insert_None by done.
      assert (weight k (mkGoroutine ∅ []) = 0%Z) as -> by (unfold weight; cbn; case_decide; [set_solver|done]).
      done.
    + intros k Hk. destruct (Hl k Hk) as [?|(i & g0 & Hi & ?)]; [by left|right].
      exists i, g0. rewrite lookup_insert_ne by congruence. done.
  - eapply il_inv_local; [done..| | |by rewrite E; intros ? ?%not_elem_of_nil].
    + unfold begin_report. case_decide; [by eapply at_counted|]. eapply at_subscribed; [|done]. set_solver.
    + intros k'. unfold begin_report, weight. rewrite E.
      destruct (decide (k ∈ subs g)); cbn; [done|]. repeat case_decide; try lia; set_solver.
  - eapply il_inv_local; [done..| | |by rewrite E; intros ? ?%not_elem_of_nil].
    + unfold begin_abandon. case_decide; apply at_releasing; [by repeat constructor|by rewrite E].
    + intros k'. unfold begin_abandon, weight.
      destruct (decide (k ∈ subs g)); cbn; rewrite ?E; [|done]. cbn. repeat case_decide; try lia; set_solver.
  - eapply il_inv_local; [done..| | |by rewrite E; intros ? ?%not_elem_of_nil].
    + apply at_releasing. cbn. apply Forall_fmap, Forall_true. done.
    + intros k'. unfold begin_cleanup, weight. rewrite E. cbn [subs todo].
      rewrite todo_weight_order by (rewrite Hp; apply NoDup_elements).
      assert (k' ∈ order ↔ k' ∈ subs g) as Hin by (rewrite Hp; apply elem_of_elements).
      cbn. repeat case_decide; try lia; set_solver.
  - destruct c; eauto using run_inc_inv, run_record_inv, run_release_inv, run_remove_inv.
  - destruct Hinv as [Ha Hr Hl]. split; cbn.
    + by apply map_Forall_delete.
    + intros k. rewrite Hr. unfold total. rewrite (map_sum_delete _ _ _ g) by done.
      unfold weight at 3. rewrite E, Hsubs, decide_False by set_solver. cbn. f_equal. lia.
    + intros k Hk. destruct (Hl k Hk) as [?|(i & g0 & Hi & Hin)]; [by left|right].
      exists i, g0. rewrite lookup_delete_ne; [done|]. intros <-. simplify_eq. rewrite E in Hin.
      by apply not_elem_of_nil in Hin.
Qed.

Lemma il_inv_steps s s' : il_inv s → rtc interleave s s' → il_inv s'.
Proof. intros Hinv Hs. revert Hinv. induction Hs; eauto using il_inv_step. Qed.

Lemma il_inv_reachable s : rtc interleave initial s → il_inv s.
Proof.
  intros Hs. assert (il_inv initial) as Hinv.
  { split; cbn; [apply map_Forall_empty|intros k; unfold total; by rewrite map_sum_empty|].
    intros k. rewrite lookup_empty. by intros []. }
  by eapply il_inv_steps.
Qed.

(** Without pending sections the count is the number of subscribers. *)
Lemma total_quiescent k m :
  map_Forall (λ _ g, todo g = []) m →
  total k m = Z.of_nat (size (filter (λ p : nat * goroutine, k ∈ subs p.2) m)).
Proof.
  intros Hm. unfold total. induction m as [|i g m Hi IH] using map_ind.
  { rewrite map_sum_empty. by rewrite map_filter_empty, map_size_empty. }
  apply map_Forall_insert in Hm as [Hg Hm]; [|done]. rewrite map_sum_insert_None, IH by done.
  unfold weight. rewrite Hg. cbn. destruct (decide (k ∈ subs g)).
  - rewrite map_filter_insert_True, map_size_insert_None by (done || by apply map_lookup_filter_None_2; left). lia.
  - rewrite map_filter_insert_False by done. by rewrite delete_id by done.
Qed.

(** At rest a bucket is counted exactly when it has a subscriber. *)
Lemma total_pos_quiescent k m :
  map_Forall (λ _ g, todo g = []) m →
  (0 < total k m)%Z ↔ ∃ id g, m !! id = Some g ∧ k ∈ subs g.
Proof.
  intros Hm. rewrite (total_quiescent k m Hm). split.
  - intros Hpos. destruct (map_choose (filter (λ p : nat * goroutine, k ∈ subs p.2) m)) as (id & g & Hg).
    { intros He. rewrite He, map_size_empty in Hpos. lia. }
    apply map_lookup_filter_Some in Hg as [? ?]. eauto.
  - intros (id & g & Hid & Hk).
    assert (size (filter (λ p : nat * goroutine, k ∈ subs p.2) m) ≠ 0); [|lia].
    apply map_size_ne_0_lookup_2 with id. exists g. by apply map_lookup_filter_Some_2.
Qed.

(** At rest usage is stored only for buckets with a subscriber. *)
Lemma quiescent_ledger s k :
  il_inv s → quiescent s → is_Some (buckets (ledger s) !! k) →
  ∃ id g, goroutines s !! id = Some g ∧ k ∈ subs g.
Proof.
  intros Hinv Hq Hk. apply total_pos_quiescent; [done|].
  destruct (il_ledger s Hinv k Hk) as [[n Hn]|(id & g & Hid & Hin)].
  - pose proof (total_nonneg k _ (il_at s Hinv)). rewrite (il_refs s Hinv) in Hn. unfold of_count in Hn.
    destruct (Z.eqb_spec (total k (goroutines s)) 0); [done|lia].
  - rewrite (Hq id g Hid) in Hin. by apply not_elem_of_nil in Hin.
Qed.

(** ** Removals

    A removal is decided when no reference is counted: whoever is subscribed to
    the bucket then has yet to count itself. *)
Definition subscribed (k : string) (s : shared) : Prop :=
  ∃ id g, goroutines s !! id = Some g ∧ k ∈ subs g.

Definition no_reference (k : string) (s : shared) : Prop :=
  ∀ id g, goroutines s !! id = Some g → k ∈ subs g → IncRef k ∈ todo g.

#[export] Instance subscribed_dec k s : Decision (subscribed k s).
Proof.
  refine (cast_if_not (decide (map_Forall (λ _ g, k ∉ subs g) (goroutines s)))).
  - intros (id & g & Hid & Hk). by apply (m id g Hid).
  - destruct (map_not_Forall (λ (_ : nat) g, k ∉ subs g) (goroutines s)) as [Hex _].
    destruct (Hex n) as (id & g & Hid & Hk%dec_stable). by exists id, g.
Defined.

Lemma uncounted_no_reference s k : il_inv s → refs s !! k = None → no_reference k s.
Proof.
  intros Hinv Hr id g Hid Hk. pose proof (il_at s Hinv id g Hid) as Hat.
  pose proof (total_ge k _ id g (il_at s Hinv) Hid) as Hge.
  rewrite (il_refs s Hinv) in Hr. unfold of_count in Hr. case_match eqn:E; [|done]. apply Z.eqb_eq in E.
  unfold weight in Hge. rewrite decide_True in Hge by done.
  destruct Hat as [k' a d _ Et|k' a d _ Et|Hrel].
  - rewrite Et in *. cbn in Hge. destruct (decide (k' = k)); [subst; set_solver|lia].
  - rewrite Et in Hge. cbn in Hge. lia.
  - destruct (todo_weight_releasing k _ Hrel). lia.
Qed.

(** A pending removal was pending before, or the step drops the last count. *)
Lemma remove_origin s s' id g' k :
  interleave s s' → goroutines s' !! id = Some g' → Remove k ∈ todo g' →
  (∃ g, goroutines s !! id = Some g ∧ Remove k ∈ todo g) ∨ refs s' !! k = None.
Proof.
  intros Hs.
  assert (∀ i g g1 (refs' : gmap string Z), goroutines s !! i = Some g → (∀ k, Remove k ∈ todo g1 → Remove k ∈ todo g ∨ refs' !! k = None) →
    <[i := g1]> (goroutines s) !! id = Some g' → Remove k ∈ todo g' →
    (∃ g, goroutines s !! id = Some g ∧ Remove k ∈ todo g) ∨ refs' !! k = None) as Hput.
  { intros i g g1 refs' Hi Hsub Hid Hin. apply lookup_insert_Some in Hid as [[-> <-]|[_ Hid]]; [|eauto].
    destruct (Hsub k Hin); eauto. }
  destruct Hs as [s i Hi|s i g k0 a d Hi E|s i g k0 Hi E|s i g order Hi E Hp|s i g c rest Hi E|s i g Hi E Hsubs].
  - cbn. intros [[-> <-]|[_ Hid]]%lookup_insert_Some Hin; [by apply not_elem_of_nil in Hin|eauto].
  - apply (Hput i g); [done|]. intros k' Hin. left. unfold begin_report in Hin. case_decide; set_solver.
  - apply (Hput i g); [done|]. intros k' Hin. left. unfold begin_abandon in Hin. case_decide; set_solver.
  - apply (Hput i g); [done|]. intros k' Hin. left. cbn in Hin. by apply list_elem_of_fmap in Hin as (? & ? & _).
  - destruct c as [k0|k0 a d|k0|k0]; cbn;
      [apply (Hput i g); [done|]; intros k' Hin; left; rewrite E; set_solver..| |
       apply (Hput i g); [done|]; intros k' Hin; left; rewrite E; set_solver].
    case_match; apply (Hput i g); try done; intros k' Hin; cbn in Hin; [|left; rewrite E; set_solver].
    apply elem_of_cons in Hin as [[= ->]|Hin]; [right; apply lookup_delete_eq|left; rewrite E; set_solver].
  - cbn. intros [_ Hid]%lookup_delete_Some Hin. eauto.
Qed.

(** The removal of [k] pending in stream [id] was decided in state [s0]. *)
Definition decided_at (k : string) (id : nat) (s0 s : shared) : Prop :=
  rtc interleave initial s0 ∧ rtc interleave s0 s ∧ no_reference k s0 ∧
  ∃ g0, goroutines s0 !! id = Some g0 ∧ Remove k ∈ todo g0.

Lemma removals_decided s id g k :
  rtc interleave initial s → goroutines s !! id = Some g → Remove k ∈ todo g → ∃ s0, decided_at k id s0 s.
Proof.
  intros Hs. revert id g k. refine (rtc_ind_r (λ s, ∀ id g k, goroutines s !! id = Some g → Remove k ∈ todo g →
    ∃ s0, decided_at k id s0 s) initial _ _ s Hs); clear Hs s.
  { intros id g k Hid. cbn in Hid. by rewrite lookup_empty in Hid. }
  intros s s' Hs Hstep IH id g k Hid Hin.
  assert (rtc interleave initial s') as Hs' by (by eapply rtc_r).
  destruct (remove_origin s s' id g k Hstep Hid Hin) as [(g0 & Hid0 & Hin0)|Hr].
  - destruct (IH id g0 k Hid0 Hin0) as (s0 & H1 & H2 & Hrest). exists s0. split_and!; [done|by eapply rtc_r|apply Hrest..].
  - exists s'. split_and!; [done..| |by eauto]. apply uncounted_no_reference; [by apply il_inv_reachable|done].
Qed.

(** Whoever is subscribed to [k] has recorded usage there, or is about to. *)
Definition recorded (k : string) (s : shared) : Prop :=
  ∀ id g, goroutines s !! id = Some g → k ∈ subs g →
    (∃ a d, Record_ k a d ∈ todo g) ∨ is_Some (buckets (ledger s) !! k).

(** A removal of [k] while someone is subscribed to it. *)
Definition raced_removal (k : string) (s s' : shared) : Prop :=
  ∃ id g rest, goroutines s !! id = Some g ∧ todo g = Remove k :: rest ∧
    s' = run_section id g (Remove k) rest s ∧ subscribed k s.

Lemma recorded_put k s id g g' refs' :
  recorded k s → goroutines s !! id = Some g →
  (k ∈ subs g' → (∃ a d, Record_ k a d ∈ todo g') ∨ is_Some (buckets (ledger s) !! k)) →
  recorded k (mkShared (<[id := g']> (goroutines s)) refs' (ledger s)).
Proof.
  intros Hr Hid Hg i gi Hi Hk. cbn in Hi.
  apply lookup_insert_Some in Hi as [[-> <-]|[_ Hi]]; [by apply Hg|by apply (Hr i gi)].
Qed.

Lemma recorded_step k s s' : recorded k s → interleave s s' → recorded k s' ∨ raced_removal k s s'.
Proof.
  intros Hr. destruct 1 as [s i Hi|s i g k0 a d Hi E|s i g k0 Hi E|s i g order Hi E Hp|s i g c rest Hi E|s i g Hi E Hsubs].
  - left. intros id g Hid Hk. cbn in Hid.
    apply lookup_insert_Some in Hid as [[-> <-]|[_ Hid]]; [set_solver|by apply (Hr id g)].
  - left. eapply recorded_put; [done..|]. intros Hk. unfold begin_report in *.
    destruct (decide (k = k0)) as [->|Hne]; [left; exists a, d; case_decide; set_solver|].
    destruct (Hr i g Hi) as [(a' & d' & Hin)|?]; [case_decide; set_solver| |by right]. rewrite E in Hin. set_solver.
  - left. eapply recorded_put; [done..|]. intros Hk.
    destruct (Hr i g Hi) as [(a' & d' & Hin)|?]; [unfold begin_abandon in Hk; case_decide; set_solver| |by right].
    rewrite E in Hin. set_solver.
  - left. eapply recorded_put; [done..|]. cbn. set_solver.
  - assert (∀ rest' refs', (∀ a d, Record_ k a d ∈ c :: rest → Record_ k a d ∈ rest') →
      recorded k (mkShared (<[i := mkGoroutine (subs g) rest']> (goroutines s)) refs' (ledger s))) as Hput.
    { intros rest' refs' Hrest. eapply recorded_put; [done..|]. cbn. intros Hk.
      destruct (Hr i g Hi Hk) as [(a & d & Hin)|?]; [left|by right]. rewrite E in Hin. eauto. }
    destruct c as [k0|k0 a d|k0|k0]; cbn.
    + left. apply Hput. set_solver.
    + left. intros id g' Hid Hk. cbn [goroutines ledger] in *. rewrite buckets_Update, lookup_insert_is_Some.
      destruct (decide (k0 = k)) as [->|Hne]; [by right; left|].
      destruct (Hput rest (refs s) ltac:(set_solver) id g' Hid Hk) as [?|?]; [by left|right; by destruct (decide (k0 = k)); auto].
    + left. case_match; apply Hput; set_solver.
    + destruct (decide (k0 = k)) as [->|Hne].
      * destruct (decide (subscribed k s)) as [Hsub|Hno]; [right; by exists i, g, rest|left].
        intros id g' Hid Hk. destruct Hno. cbn in Hid. apply lookup_insert_Some in Hid as [[<- <-]|[_ Hid]]; by eexists _, _.
      * left. intros id g' Hid Hk. cbn in *. rewrite lookup_delete_ne by done.
        exact (Hput rest (refs s) ltac:(set_solver) id g' Hid Hk).
  - left. intros id g' Hid Hk. cbn in Hid. apply lookup_delete_Some in Hid as [_ Hid]. by apply (Hr id g').
Qed.

Lemma recorded_or_raced k s :
  rtc interleave initial s →
  recorded k s ∨ ∃ s1 s2, rtc interleave initial s1 ∧ raced_removal k s1 s2 ∧ rtc interleave s2 s.
Proof.
  intros Hs. refine (rtc_ind_r (λ s, recorded k s ∨ ∃ s1 s2, rtc interleave initial s1 ∧ raced_removal k s1 s2 ∧
    rtc interleave s2 s) initial _ _ s Hs).
  - left. intros id g Hid. cbn in Hid. by rewrite lookup_empty in Hid.
  - intros s1 s2 Hs1 Hstep [Hr|(s3 & s4 & H3 & H4 & H5)].
    + destruct (recorded_step k s1 s2 Hr Hstep) as [?|Hraced]; [by left|right; by exists s1, s2].
    + right. exists s3, s4. split_and!; [done..|]. by eapply rtc_r.
Qed.

(** ** Progress

    The steps of handlers under way, without new ones beginning. *)
Inductive run_step : shared → shared → Prop :=
| run_next s id g c rest :
    goroutines s !! id = Some g → todo g = c :: rest → run_step s (run_section id g c rest s).

Lemma run_step_interleave s s' : run_step s s' → interleave s s'.
Proof. destruct 1. by econstructor. Qed.

(** A release may be followed by a removal. *)
Definition section_cost (c : section_) : Z := match c with Release _ => 2 | _ => 1 end.

Definition todo_cost (l : list section_) : Z := foldr (λ c z, section_cost c + z)%Z 0%Z l.

Definition pending (s : shared) : Z := map_sum (λ _ g, todo_cost (todo g)) (goroutines s).

Lemma todo_cost_nonneg l : (0 <= todo_cost l)%Z.
Proof. induction l as [|c l IH]; cbn; [done|]. fold (todo_cost l). destruct c; cbn; lia. Qed.

Lemma pending_nonneg s : (0 <= pending s)%Z.
Proof. apply map_sum_nonneg. intros. apply todo_cost_nonneg. Qed.

Lemma run_step_pending s s' : run_step s s' → (pending s' < pending s)%Z.
Proof.
  destruct 1 as [s id g c rest Hid E]. unfold pending.
  assert (∀ l, map_sum (λ _ g, todo_cost (todo g)) (<[id := mkGoroutine (subs g) l]> (goroutines s)) =
    (map_sum (λ _ g, todo_cost (todo g)) (goroutines s) - todo_cost (c :: rest) + todo_cost l)%Z) as Hput.
  { intros l. by rewrite (map_sum_insert_Some _ _ _ g), E by done. }
  destruct c; cbn; [| |case_match; cbn|]; rewrite Hput; cbn; fold (todo_cost rest); lia.
Qed.

Lemma run_steps_bounded n s s' : nsteps run_step n s s' → (Z.of_nat n + pending s' <= pending s)%Z.
Proof. induction 1 as [s|n s1 s2 s3 H1%run_step_pending _ IH]; lia. Qed.

Lemma run_step_sn s : sn run_step s.
Proof.
  apply (wf_projected (λ x y : nat, x < y) (λ s, Z.to_nat (pending s))); [|apply lt_wf].
  intros s1 s2 H%run_step_pending. pose proof (pending_nonneg s1). lia.
Qed.

(** Only a state at rest has no section left to run. *)
Lemma run_step_stuck s : quiescent s ↔ ∀ s', ¬ run_step s s'.
Proof.
  split.
  - intros Hq s' Hs. destruct Hs as [s id g c rest Hid E]. by rewrite (Hq id g Hid) in E.
  - intros Hno id g Hid. destruct (todo g) as [|c rest] eqn:E; [done|].
    destruct (Hno (run_section id g c rest s)). by econstructor.
Qed.

Lemma run_to_rest s : ∃ s', rtc run_step s s' ∧ quiescent s'.
Proof.
  induction (run_step_sn s) as [s _ IH].
  destruct (decide (quiescent s)) as [Hq|Hq]; [by exists s|].
  apply map_not_Forall in Hq as (id & g & Hid & Hg); [|intros; exact _].
  destruct (todo g) as [|c rest] eqn:E; [done|].
  destruct (IH (run_section id g c rest s)) as (s' & Hs' & Hq'); [by econstructor|].
  exists s'. split; [|done]. eapply rtc_l; [by econstructor|done].
Qed.

(** ** Properties *)

(** The critical sections of the handlers under way are finitely many: every run
    of them is at most as long as the work pending at its start and can be
    continued until no handler is under way. (Sections are taken as atomic here;
    whether the locks can block one is the subject of Locks.v.) *)
Theorem handlers_finish s :
  (∀ n s', nsteps run_step n s s' → (Z.of_nat n + pending s' <= pending s)%Z) ∧
  sn run_step s ∧
  (∀ s', rtc run_step s s' → quiescent s' ↔ ∀ s'', ¬ run_step s' s'') ∧
  ∃ s', rtc run_step s s' ∧ quiescent s'.
Proof.
  split_and!; [intros; by apply run_steps_bounded|apply run_step_sn|intros; apply run_step_stuck|apply run_to_rest].
Qed.

(** C5: locks held one at a time still count right: however the goroutines of
    the streams interleave between the critical sections, whenever no handler
    is under way the reference count of a bucket is the number of streams
    subscribed to it, and usage is stored only for buckets with a subscriber. *)
Theorem interleaved_refs_exact s k :
  rtc interleave initial s → quiescent s →
  refs s !! k =
    (let n := size (filter (λ p : nat * goroutine, k ∈ subs p.2) (goroutines s)) in
     if decide (n = 0) then None else Some (Z.of_nat n)) ∧
  (is_Some (buckets (ledger s) !! k) → ∃ id g, goroutines s !! id = Some g ∧ k ∈ subs g).
Proof.
  intros Hinv%il_inv_reachable Hq. split; [|by apply quiescent_ledger].
  rewrite (il_refs s Hinv k), (total_quiescent k _ Hq). unfold of_count. cbn zeta.
  case_decide; case_match eqn:E; done || lia.
Qed.

(** Stream 1 holds bucket "k" alone; it disconnects while stream 2 reports. *)
Definition race_prefix : shared :=
  let s := with_goroutine 1 (mkGoroutine ∅ []) initial in
  let s := with_goroutine 1 (begin_report "k" 5 0 (mkGoroutine ∅ [])) s in
  let s := run_section 1 (mkGoroutine {["k"]} []) (IncRef "k") [Record_ "k" 5 0] s in
  let s := run_section 1 (mkGoroutine {["k"]} []) (Record_ "k" 5 0) [] s in
  with_goroutine 2 (mkGoroutine ∅ []) s.

Lemma race_prefix_reachable : rtc interleave initial race_prefix.
Proof.
  eapply rtc_l; [by apply (il_open _ 1)|].
  eapply rtc_l; [by apply (il_report _ 1 (mkGoroutine ∅ []) "k" 5 0)|].
  eapply rtc_l; [by apply (il_run _ 1 (mkGoroutine {["k"]} [IncRef "k"; Record_ "k" 5 0]) (IncRef "k") [Record_ "k" 5 0])|].
  eapply rtc_l; [by apply (il_run _ 1 (mkGoroutine {["k"]} [Record_ "k" 5 0]) (Record_ "k" 5 0) [])|].
  apply rtc_once. by apply (il_open _ 2).
Qed.

Lemma interleaved_refs_exact_witness :
  refs race_prefix !! "k" = Some 1%Z.
Proof.
  exact (proj1 (interleaved_refs_exact race_prefix "k" race_prefix_reachable
    ltac:(apply map_Forall_to_list; vm_compute; repeat constructor))).
Defined.



(** C35: a disconnect can delete another stream's usage: the last subscriber
    drops its reference and, before it reaches the store, another stream
    subscribes to the bucket and records usage there; the store then loses it,
    although a subscriber is counted. *)
Theorem interleaved_usage_lost :
  ∃ s k g, rtc interleave race_prefix (run_section 2 g (Record_ k 7 0) [] s) ∧
    let s1 := run_section 2 g (Record_ k 7 0) [] s in
    ∃ s', rtc interleave s1 s' ∧ rtc interleave initial s' ∧ quiescent s' ∧
      refs s' !! k = Some 1%Z ∧ (∃ g', goroutines s' !! 2 = Some g' ∧ k ∈ subs g') ∧
      is_Some (buckets (ledger s1) !! k) ∧ buckets (ledger s') !! k = None.
Proof.
  set (g1 := mkGoroutine ∅ [Release "k"]).
  set (s1 := with_goroutine 1 g1 race_prefix).
  set (s2 := run_section 1 g1 (Release "k") [] s1).
  set (g2 := mkGoroutine {["k"]} [IncRef "k"; Record_ "k" 7 0]).
  set (s3 := with_goroutine 2 g2 s2).
  set (s4 := run_section 2 g2 (IncRef "k") [Record_ "k" 7 0] s3).
  set (g4 := mkGoroutine {["k"]} [Record_ "k" 7 0]).
  set (s5 := run_section 2 g4 (Record_ "k" 7 0) [] s4).
  set (s6 := run_section 1 (mkGoroutine ∅ [Remove "k"]) (Remove "k") [] s5).
  assert (rtc interleave race_prefix s5) as H5.
  { eapply rtc_l; [exact (il_cleanup race_prefix 1 (mkGoroutine {["k"]} []) ["k"] eq_refl eq_refl (reflexivity _))|].
    eapply rtc_l; [exact (il_run s1 1 g1 (Release "k") [] eq_refl eq_refl)|].
    eapply rtc_l; [exact (il_report s2 2 (mkGoroutine ∅ []) "k" 7 0 eq_refl eq_refl)|].
    eapply rtc_l; [exact (il_run s3 2 g2 (IncRef "k") [Record_ "k" 7 0] eq_refl eq_refl)|].
    apply rtc_once. exact (il_run s4 2 g4 (Record_ "k" 7 0) [] eq_refl eq_refl). }
  assert (interleave s5 s6) as H6 by exact (il_run s5 1 (mkGoroutine ∅ [Remove "k"]) (Remove "k") [] eq_refl eq_refl).
  exists s4, "k", g4. split; [exact H5|]. exists s6. split_and!.
  - by apply rtc_once.
  - etrans; [exact race_prefix_reachable|]. eapply rtc_r; [exact H5|exact H6].
  - apply map_Forall_to_list. vm_compute. repeat constructor.
  - reflexivity.
  - eexists. split; [reflexivity|]. cbn. set_solver.
  - eexists. reflexivity.
  - reflexivity.
Qed.
