(* ===== verification/Locks.v ===== *)
(** * Mutexes as blocking resources

    The other files take a critical section as one step. Here a mutex is a
    resource that a goroutine waits for: [Lock] can only run when the mutex is
    free, so a missing [Unlock] or two goroutines that take two mutexes in
    opposite orders would leave goroutines waiting for ever. A function of the
    source is given by its control flow, its [Lock]s and [Unlock]s and the calls
    that wait for the outside world (a client, Redis); a checker computes which
    mutexes are held at each point, and what it accepts cannot deadlock.

    The functions themselves are in ServerLocks.v. *)
From S2P Require Import Prelude.

(** The mutexes of the program. *)
Inductive lock :=
| ServerMu               (* RLQSServer.mu *)
| StreamMu (id : nat)    (* streamState.mu *)
| SendMu (id : nat)      (* streamState.sendMu *)
| ClassifierMu (n : nat) (* DomainClassifier.mu, of the n-th classifier *)
| MemoryMu               (* MemoryStorage.mu, the store's or the fallback's *)
| RedisMu                (* RedisStorage.mu *)
| AdminMu.               (* Handler.mu *)

(** [RLock] and [Lock]; a [sync.Mutex] has [Write] only. *)
Inductive mode := Read | Write.

(** Calls that return when the outside world lets them. *)
Inductive event := SendTo (id : nat) | RecvFrom (id : nat) | RedisCall.

Inductive action :=
| Lock (m : mode) (k : lock)
| Unlock (m : mode) (k : lock)
| Wait (e : event).

#[export] Instance lock_eq_dec : EqDecision lock.
Proof. solve_decision. Defined.
#[export] Instance mode_eq_dec : EqDecision mode.
Proof. solve_decision. Defined.
#[export] Instance event_eq_dec : EqDecision event.
Proof. solve_decision. Defined.
#[export] Instance action_eq_dec : EqDecision action.
Proof. solve_decision. Defined.

(** ** Control flow *)
Inductive code :=
| Skip
| Do (a : action)
| Return
| Seq (c1 c2 : code)
| Either (c1 c2 : code)   (* a branch on data *)
| Repeat (c : code)       (* a loop over data *)
| Call (c : code).        (* a function, or a loop body left by continue *)

Declare Scope code_scope.
Delimit Scope code_scope with code.
Bind Scope code_scope with code.
Notation "c1 ;; c2" := (Seq c1 c2) (at level 100, c2 at level 200, right associativity) : code_scope.

(** [mu.Lock(); defer mu.Unlock(); c]. *)
Definition WithLock (m : mode) (k : lock) (c : code) : code := Seq (Do (Lock m k)) (Seq (Call c) (Do (Unlock m k))).

(** A loop over the elements of a list. *)
Definition ForEach {A} (l : list A) (f : A → code) : code := foldr (λ x c, Seq (Call (f x)) c) Skip l.

(** [runs c l r]: the code can perform the actions [l] and end, by a [Return]
    when [r]. *)
Inductive runs : code → list action → bool → Prop :=
| runs_skip : runs Skip [] false
| runs_do a : runs (Do a) [a] false
| runs_return : runs Return [] true
| runs_seq_return c1 c2 l : runs c1 l true → runs (Seq c1 c2) l true
| runs_seq c1 c2 l1 l2 r : runs c1 l1 false → runs c2 l2 r → runs (Seq c1 c2) (l1 ++ l2) r
| runs_left c1 c2 l r : runs c1 l r → runs (Either c1 c2) l r
| runs_right c1 c2 l r : runs c2 l r → runs (Either c1 c2) l r
| runs_stop c : runs (Repeat c) [] false
| runs_repeat_return c l : runs c l true → runs (Repeat c) l true
| runs_repeat c l1 l2 r : runs c l1 false → runs (Repeat c) l2 r → runs (Repeat c) (l1 ++ l2) r
| runs_call c l r : runs c l r → runs (Call c) l false.

(** ** The discipline

    Mutexes are taken in the order of their ranks, a [sendMu] only by a
    goroutine that holds nothing else; while a client is waited for nothing but
    its [sendMu] is held, and nothing at all while Redis is. *)
Definition rank (k : lock) : nat :=
  match k with
  | ServerMu => 0 | StreamMu _ => 1 | ClassifierMu _ => 2 | MemoryMu => 3 | RedisMu => 4 | AdminMu => 5 | SendMu _ => 6
  end.

Abbreviation holding := (list (mode * lock)).

Definition may_lock (h : holding) (k : lock) : bool :=
  forallb (λ x, rank x.2 <? rank k) h && match k with SendMu _ => bool_decide (h = []) | _ => true end.

Definition may_wait (h : holding) (e : event) : bool :=
  match e with
  | SendTo id => forallb (λ x, bool_decide (x = (Write, SendMu id))) h
  | _ => bool_decide (h = [])
  end.

(** What is held after an action, if the discipline allows it. *)
Definition act (h : holding) (a : action) : option holding :=
  match a with
  | Lock m k => if may_lock h k then Some ((m, k) :: h) else None
  | Unlock m k => match h with x :: h => if decide (x = (m, k)) then Some h else None | [] => None end
  | Wait e => if may_wait h e then Some h else None
  end.

Fixpoint acts (h : holding) (l : list action) : option holding :=
  match l with
  | [] => Some h
  | a :: l => match act h a with Some h => acts h l | None => None end
  end.

(** The checker: [check exit h c] is the mutexes held after [c] when it began
    with [h], [Some None] when it always returns; a [Return] must hold [exit]. *)
Fixpoint check (exit h : holding) (c : code) : option (option holding) :=
  match c with
  | Skip => Some (Some h)
  | Do a => match act h a with Some h => Some (Some h) | None => None end
  | Return => if decide (h = exit) then Some None else None
  | Seq c1 c2 => match check exit h c1 with Some (Some h) => check exit h c2 | r => r end
  | Either c1 c2 =>
      match check exit h c1, check exit h c2 with
      | Some None, r | r, Some None => r
      | Some (Some h1), Some (Some h2) => if decide (h1 = h2) then Some (Some h1) else None
      | _, _ => None
      end
  | Repeat c =>
      match check exit h c with
      | Some None => Some (Some h)
      | Some (Some h') => if decide (h' = h) then Some (Some h) else None
      | None => None
      end
  | Call c =>
      match check h h c with
      | Some None => Some (Some h)
      | Some (Some h') => if decide (h' = h) then Some (Some h) else None
      | None => None
      end
  end.

Lemma acts_app h l1 l2 : acts h (l1 ++ l2) = acts h l1 ≫= λ h', acts h' l2.
Proof. revert h. induction l1 as [|a l1 IH]; intros h; cbn; [done|]. by destruct (act h a). Qed.

(** What the checker computes is what every run does. *)
Lemma check_sound c l r :
  runs c l r → ∀ exit h o, check exit h c = Some o →
    if r then acts h l = Some exit else ∃ h', o = Some h' ∧ acts h l = Some h'.
Proof.
  induction 1 as [|a| |c1 c2 l _ IH|c1 c2 l1 l2 r _ IH1 _ IH2|c1 c2 l r _ IH|c1 c2 l r _ IH|c|c l _ IH
    |c l1 l2 r _ IH1 _ IH2|c l r _ IH]; intros exit h o; cbn.
  - intros [= <-]. eauto.
  - destruct (act h a); [|done]. intros [= <-]. eauto.
  - case_decide; [|done]. intros [= <-]. by subst.
  - destruct (check exit h c1) as [o1|] eqn:E; [|done]. intros _. exact (IH _ _ _ E).
  - destruct (check exit h c1) as [o1|] eqn:E; [|done]. destruct (IH1 _ _ _ E) as (h1 & -> & E1).
    intros E2. rewrite acts_app, E1. exact (IH2 _ _ _ E2).
  - destruct (check exit h c1) as [o1|] eqn:E; [|by destruct (check exit h c2) as [[|]|]]. specialize (IH _ _ _ E).
    destruct o1 as [h1|], (check exit h c2) as [[h2|]|]; try done; [case_decide; [|done]|..]; intros [= <-];
      (destruct r; [done|]); destruct IH as (h' & ? & ?); simplify_eq; eauto.
  - destruct (check exit h c2) as [o2|] eqn:E; [|by destruct (check exit h c1) as [[|]|]]. specialize (IH _ _ _ E).
    destruct (check exit h c1) as [[h1|]|], o2 as [h2|]; try done; [case_decide; [|done]|..]; intros [= <-];
      (destruct r; [done|]); destruct IH as (h' & ? & ?); simplify_eq; eauto.
  - intros E. exists h. split; [|done]. destruct (check exit h c) as [[h'|]|]; [case_decide| |]; by simplify_eq.
  - destruct (check exit h c) as [o1|] eqn:E; [|done]. intros _. exact (IH _ _ _ E).
  - intros E. destruct (check exit h c) as [o1|] eqn:Ec; [|done]. destruct (IH1 _ _ _ Ec) as (h1 & -> & E1).
    case_decide; [subst h1|done]. rewrite acts_app, E1. cbn. apply (IH2 exit h o). cbn. by rewrite Ec, decide_True.
  - destruct (check h h c) as [o1|] eqn:E; [|done]. specialize (IH _ _ _ E). intros Eo. exists h.
    destruct r; [split; [|done]|destruct IH as (h1 & -> & ->)]; [destruct o1; [case_decide|]; by simplify_eq|].
    case_decide; by simplify_eq.
Qed.

(** A function that begins and ends with nothing held. *)
Definition disciplined (c : code) : bool :=
  match check [] [] (Call c) with Some (Some []) => true | _ => false end.

Lemma disciplined_acts c l r : disciplined c = true → runs c l r → acts [] l = Some [].
Proof.
  unfold disciplined. intros Hd Hr. destruct (check [] [] (Call c)) as [[[|]|]|] eqn:E; try done.
  destruct (check_sound _ _ _ (runs_call _ _ _ Hr) [] [] _ E) as (h & [= <-] & ?). done.
Qed.

(** ** Goroutines and their mutexes *)
Record thread := mkThread { held : holding; rest : list action }.

(** Nobody holds [k]; nobody holds it for writing. *)
Definition free (k : lock) (s : list thread) : Prop := ∀ i t m, s !! i = Some t → (m, k) ∉ held t.
Definition readable (k : lock) (s : list thread) : Prop := ∀ i t, s !! i = Some t → (Write, k) ∉ held t.

Definition can_lock (m : mode) (k : lock) (s : list thread) : Prop :=
  match m with Write => free k s | Read => readable k s end.

(** Somebody waits for [k] to write: an [RWMutex] then lets no new reader in. *)
Definition writer_waits (k : lock) (s : list thread) : Prop :=
  ∃ i h l, s !! i = Some (mkThread h (Lock Write k :: l)).

Section semantics.
(** The calls that never return. *)
Variable stuck : event → bool.

(** [lock_step false] lets a reader in whenever nobody writes; [lock_step true]
    only when nobody waits to write either. The first has more runs, the second
    fewer steps. *)
Inductive lock_step (writers_first : bool) : list thread → list thread → Prop :=
| ls_lock s i h m k l :
    s !! i = Some (mkThread h (Lock m k :: l)) → can_lock m k s →
    (writers_first = true → m = Read → ¬ writer_waits k s) →
    lock_step writers_first s (<[i := mkThread ((m, k) :: h) l]> s)
| ls_unlock s i h m k l :
    s !! i = Some (mkThread ((m, k) :: h) (Unlock m k :: l)) →
    lock_step writers_first s (<[i := mkThread h l]> s)
| ls_wait s i h e l :
    s !! i = Some (mkThread h (Wait e :: l)) → stuck e = false →
    lock_step writers_first s (<[i := mkThread h l]> s).

Definition well_behaved (t : thread) : Prop := acts (held t) (rest t) = Some [].

Lemma lock_step_well_behaved w s s' : Forall well_behaved s → lock_step w s s' → Forall well_behaved s'.
Proof.
  intros Hs Hstep. assert (∀ i t, s !! i = Some t → well_behaved t) as Hi by (by apply Forall_lookup).
  destruct Hstep as [s i h m k l E _ _|s i h m k l E|s i h e l E _]; specialize (Hi i _ E); unfold well_behaved in Hi; cbn in Hi;
    (apply Forall_insert; [done|]); unfold well_behaved; cbn.
  - by destruct (may_lock h k).
  - by rewrite decide_True in Hi.
  - by destruct (may_wait h e).
Qed.

(** Every step performs an action that was still to do. *)
Definition work (s : list thread) : nat := sum_list_with (λ t, length (rest t)) s.

Lemma work_put s i t t' :
  s !! i = Some t → work (<[i := t']> s) + length (rest t) = work s + length (rest t').
Proof.
  unfold work. revert i. induction s as [|u s IH]; intros [|i] Hi; [done|done|injection Hi as ->; cbn; lia|].
  change (<[S i := t']> (u :: s)) with (u :: <[i := t']> s). cbn [sum_list_with]. specialize (IH i Hi). lia.
Qed.

Lemma lock_step_work w s s' : lock_step w s s' → S (work s') = work s.
Proof.
  destruct 1 as [s i h m k l E _ _|s i h m k l E|s i h e l E _].
  - pose proof (work_put s i _ (mkThread ((m, k) :: h) l) E). cbn in *. lia.
  - pose proof (work_put s i _ (mkThread h l) E). cbn in *. lia.
  - pose proof (work_put s i _ (mkThread h l) E). cbn in *. lia.
Qed.

Lemma lock_steps_work w n s s' : nsteps (lock_step w) n s s' → n + work s' = work s.
Proof. induction 1 as [|n s1 s2 s3 H1%lock_step_work _ IH]; lia. Qed.

Lemma lock_step_sn w s : sn (lock_step w) s.
Proof.
  apply (wf_projected (λ x y : nat, x < y) work); [|apply lt_wf]. intros s1 s2 H%lock_step_work. lia.
Qed.

(** ** Who can be left waiting *)

(** The goroutine waits for a call that never returns, or for the [sendMu] of a
    stream to which such a call may be sending. *)
Definition parked (t : thread) : Prop :=
  match rest t with
  | Wait e :: _ => stuck e = true
  | Lock _ (SendMu id) :: _ => stuck (SendTo id) = true
  | _ => False
  end.

#[export] Instance parked_dec t : Decision (parked t).
Proof. unfold parked. destruct (rest t) as [|[? []| |] ?]; apply _. Defined.

(** A parked goroutine holds at most the [sendMu] of such a stream. *)
Lemma parked_held t m k :
  well_behaved t → parked t → (m, k) ∈ held t → ∃ id, k = SendMu id ∧ stuck (SendTo id) = true.
Proof.
  unfold well_behaved, parked. destruct t as [h [|a l]]; cbn; [done|]. intros Hw Hp Hin.
  destruct a as [m' k'|m' k'|e]; [destruct k' as [| |id| | | |]; try done|done|].
  - unfold act, may_lock in Hw. destruct (_ && _) eqn:E in Hw; [|done]. apply andb_true_iff in E as [_ E].
    apply bool_decide_eq_true in E. subst h. by apply not_elem_of_nil in Hin.
  - unfold act in Hw. destruct (may_wait h e) eqn:E; [|done].
    destruct e as [id|id|]; cbn in E; [|apply bool_decide_eq_true in E; subst h; by apply not_elem_of_nil in Hin..].
    rewrite forallb_forall in E. specialize (E (m, k)). rewrite bool_decide_eq_true in E.
    exists id. split; [|done]. by apply list_elem_of_In in Hin; specialize (E Hin); simplify_eq.
Qed.

(** What a goroutine that is not parked waits for ranks above what it holds. *)
Lemma ordered_rank h m k m' k' l :
  well_behaved (mkThread h (Lock m k :: l)) → (m', k') ∈ h → rank k' < rank k.
Proof.
  unfold well_behaved; cbn. unfold may_lock. destruct (_ && _) eqn:E; [|done]. intros _ Hin.
  apply andb_true_iff in E as [E _]. rewrite forallb_forall in E.
  by apply list_elem_of_In, E, Nat.ltb_lt in Hin.
Qed.

(** Neither finished nor parked. *)
Definition active (t : thread) : Prop := rest t ≠ [] ∧ ¬ parked t.

#[export] Instance active_dec t : Decision (active t).
Proof. unfold active. apply _. Defined.

(** Either nobody holds [k] or somebody does, in one of the modes. *)
Lemma free_or_held k s : free k s ∨ ∃ i t m, s !! i = Some t ∧ (m, k) ∈ held t.
Proof.
  destruct (decide (Exists (λ t, (Read, k) ∈ held t ∨ (Write, k) ∈ held t) s)) as [Hex|Hno].
  - right. apply Exists_exists in Hex as (t & [i Hi]%list_elem_of_lookup & [Hin|Hin]); eauto 8.
  - left. intros i t m Hi Hin. apply Hno, Exists_exists. exists t. split; [by eapply list_elem_of_lookup_2|].
    destruct m; auto.
Qed.

Section final.
Context (s : list thread) (Hwb : ∀ i t, s !! i = Some t → well_behaved t) (Hfinal : ∀ s', ¬ lock_step true s s').

(** In a state without steps an active goroutine waits for a mutex. *)
Lemma active_wants i t : s !! i = Some t → active t → ∃ m k l, rest t = Lock m k :: l.
Proof.
  intros Hi [Hne Hp]. specialize (Hwb i t Hi). destruct t as [h [|a l]]; [done|]. destruct a as [m k|m k|e]; cbn in *.
  - eauto.
  - exfalso. unfold well_behaved in Hwb; cbn in Hwb. destruct h as [|x h]; [done|].
    case_decide; [subst x|done]. eapply Hfinal. by eapply ls_unlock.
  - exfalso. unfold parked in Hp; cbn in Hp. apply not_true_is_false in Hp. eapply Hfinal. by eapply ls_wait.
Qed.

(** That mutex is held, by an active goroutine that waits for a higher one. *)
Lemma active_chain i t m k l :
  s !! i = Some t → active t → rest t = Lock m k :: l →
  ∃ i' t' m' k' l', s !! i' = Some t' ∧ active t' ∧ rest t' = Lock m' k' :: l' ∧ rank k < rank k'.
Proof.
  intros Hi Hact Er. destruct (free_or_held k s) as [Hfree|(j & u & mu & Hj & Hin)].
  - exfalso. assert (∀ i h l, s !! i ≠ Some (mkThread h (Lock Write k :: l))) as Hnow.
    { intros i' h' l' Hi'. eapply Hfinal. eapply ls_lock; [exact Hi'|exact Hfree|done]. }
    destruct t as [h r]. cbn in Er. subst r. destruct m; [|by eapply Hnow].
    eapply Hfinal. eapply ls_lock; [exact Hi| |].
    + intros i' t' Hi'. by eapply Hfree.
    + intros _ _ (i' & h' & l' & Hi'). by eapply Hnow.
  - assert (active u) as Hu.
    { split.
      - intros Eu. pose proof (Hwb j u Hj) as Hw. unfold well_behaved in Hw. rewrite Eu in Hw. cbn in Hw.
        injection Hw as Hw. rewrite Hw in Hin. by apply not_elem_of_nil in Hin.
      - intros Hpark. destruct (parked_held u mu k (Hwb j u Hj) Hpark Hin) as (id & -> & Hst).
        apply (proj2 Hact). unfold parked. by rewrite Er. }
    destruct (active_wants j u Hj Hu) as (m' & k' & l' & Eu). exists j, u, m', k', l'. split_and!; [done..|].
    pose proof (Hwb j u Hj) as Hw. destruct u as [h r]. cbn in *. subst r. by eapply ordered_rank.
Qed.

Lemma nobody_active i t : s !! i = Some t → ¬ active t.
Proof.
  intros Hi Hact. destruct (active_wants i t Hi Hact) as (m & k & l & Er).
  remember (6 - rank k) as n eqn:Hn. revert i t m k l Hi Hact Er Hn.
  induction (lt_wf n) as [n _ IH]. intros i t m k l Hi Hact Er ->.
  destruct (active_chain i t m k l Hi Hact Er) as (i' & t' & m' & k' & l' & Hi' & Hact' & Er' & Hlt).
  assert (rank k' <= 6) by (destruct k'; cbn; lia). eapply (IH (6 - rank k')); [lia|done..].
Qed.
End final.

(** Goroutines of disciplined code, wherever they stand, are stopped by nothing
    but the outside world. *)
Lemma final_parked s i t :
  Forall well_behaved s → (∀ s', ¬ lock_step true s s') → s !! i = Some t → rest t = [] ∨ parked t.
Proof.
  intros Hs Hfinal Hi. destruct (decide (active t)) as [Ha|Hna].
  - by destruct (nobody_active s (λ i t, proj1 (Forall_lookup _ _) Hs i t) Hfinal i t Hi).
  - unfold active in Hna. destruct (decide (parked t)); [by right|left]. destruct (rest t) eqn:E; [done|].
    by destruct Hna.
Qed.

(** Whether a state has a step can be decided. *)
Definition ready (s : list thread) (t : thread) : Prop :=
  match rest t with
  | [] => False
  | Lock m k :: _ => can_lock m k s ∧ (m = Read → ¬ writer_waits k s)
  | Unlock m k :: _ => head (held t) = Some (m, k)
  | Wait e :: _ => stuck e = false
  end.

Lemma can_lock_dec m k s : can_lock m k s ∨ ¬ can_lock m k s.
Proof.
  destruct (free_or_held k s) as [Hf|(i & t & m' & Hi & Hin)].
  - left. destruct m; [|done]. intros i t Hi. by eapply Hf.
  - destruct m; [|right; intros Hf; by eapply Hf].
    destruct (decide (Exists (λ t, (Write, k) ∈ held t) s)) as [Hex|Hno].
    + right. intros Hr. apply Exists_exists in Hex as (u & [j Hj]%list_elem_of_lookup & Hu). by eapply Hr.
    + left. intros j u Hj Hu. apply Hno, Exists_exists. exists u. split; [by eapply list_elem_of_lookup_2|done].
Qed.

Lemma writer_waits_dec k s : writer_waits k s ∨ ¬ writer_waits k s.
Proof.
  destruct (decide (Exists (λ t, head (rest t) = Some (Lock Write k)) s)) as [Hex|Hno].
  - left. apply Exists_exists in Hex as ([h r] & [i Hi]%list_elem_of_lookup & Hh). cbn in Hh.
    destruct r as [|a l]; simplify_eq/=. by exists i, h, l.
  - right. intros (i & h & l & Hi). apply Hno, Exists_exists. exists (mkThread h (Lock Write k :: l)).
    split; [by eapply list_elem_of_lookup_2|done].
Qed.

Lemma ready_dec s t : ready s t ∨ ¬ ready s t.
Proof.
  unfold ready. destruct (rest t) as [|[m k|m k|e] l]; [right; by intros []| | |].
  - destruct (can_lock_dec m k s), (writer_waits_dec k s), m; naive_solver.
  - destruct (decide (head (held t) = Some (m, k))); auto.
  - destruct (stuck e); auto.
Qed.

Lemma ready_step s i t : s !! i = Some t → ready s t → ∃ s', lock_step true s s'.
Proof.
  unfold ready. destruct t as [h [|[m k|m k|e] l]]; cbn; intros Hi Hr; [done| | |].
  - eexists. eapply ls_lock; [done|apply Hr|naive_solver].
  - destruct h as [|x h]; simplify_eq/=. eexists. by eapply ls_unlock.
  - eexists. by eapply ls_wait.
Qed.

Lemma step_ready s s' : lock_step true s s' → ∃ i t, s !! i = Some t ∧ ready s t.
Proof.
  unfold ready. destruct 1 as [s i h m k l E Hc Hw|s i h m k l E|s i h e l E He]; exists i; eexists; (split; [exact E|]); cbn;
    [naive_solver|done|done].
Qed.

Lemma step_dec s : (∃ s', lock_step true s s') ∨ ∀ s', ¬ lock_step true s s'.
Proof.
  assert ((∃ i t, s !! i = Some t ∧ ready s t) ∨ ∀ i t, s !! i = Some t → ¬ ready s t) as [(i & t & Hi & Hr)|Hno].
  - generalize s at 2 4. intros s0. induction s as [|t s IH]; [right; by intros i t Hi; rewrite lookup_nil in Hi|].
    destruct (ready_dec s0 t) as [Hr|Hn]; [left; by exists 0, t|].
    destruct IH as [(i & u & Hi & Hr)|Hno]; [left; by exists (S i), u|right]. intros [|i] u Hi; [by simplify_eq/=|].
    by apply (Hno i).
  - left. by eapply ready_step.
  - right. intros s' (i & t & Hi & Hr)%step_ready. by eapply Hno.
Qed.

Lemma lock_steps_well_behaved w s s' : rtc (lock_step w) s s' → Forall well_behaved s → Forall well_behaved s'.
Proof. induction 1; eauto using lock_step_well_behaved. Qed.

(** Preferring writers only removes steps. *)
Lemma lock_step_weaken s s' : lock_step true s s' → lock_step false s s'.
Proof. destruct 1; by econstructor. Qed.

(** What comes after a call that never returns is never done. *)
Lemma lock_step_stuck w s s' i t e l :
  lock_step w s s' → stuck e = true → s !! i = Some t → Wait e :: l `suffix_of` rest t →
  ∃ t', s' !! i = Some t' ∧ Wait e :: l `suffix_of` rest t'.
Proof.
  intros Hs He Hi Hsuf.
  assert (∀ j h a r t', s !! j = Some (mkThread h (a :: r)) → rest t' = r → (∀ e', a = Wait e' → stuck e' = false) →
    ∃ t'', <[j := t']> s !! i = Some t'' ∧ Wait e :: l `suffix_of` rest t'') as Hput.
  { intros j h a r t' Hj Er Ha. destruct (decide (j = i)) as [->|Hne]; [|exists t; by rewrite list_lookup_insert_ne].
    exists t'. split; [apply list_lookup_insert_eq; by eapply lookup_lt_Some|]. rewrite Er. rewrite Hj in Hi.
    injection Hi as <-. destruct Hsuf as [[|a' p] Ep]; cbn in Ep; simplify_eq; [|by exists p].
    by rewrite (Ha e eq_refl) in He. }
  destruct Hs as [s j h m k r E _ _|s j h m k r E|s j h e' r E He']; (eapply Hput; [exact E|done|]); naive_solver.
Qed.

Lemma lock_steps_stuck w s s' i t e l :
  rtc (lock_step w) s s' → stuck e = true → s !! i = Some t → Wait e :: l `suffix_of` rest t →
  ∃ t', s' !! i = Some t' ∧ Wait e :: l `suffix_of` rest t'.
Proof.
  intros Hs He. revert t. induction Hs as [s|s1 s2 s3 H1 _ IH]; intros t Hi Hsuf; [by exists t|].
  destruct (lock_step_stuck w s1 s2 i t e l H1 He Hi Hsuf) as (t2 & Hi2 & Hsuf2). by eapply IH.
Qed.

(** A goroutine only ever goes on with what it had to do. *)
Lemma lock_step_suffix w s s' i t' :
  lock_step w s s' → s' !! i = Some t' → ∃ t, s !! i = Some t ∧ rest t' `suffix_of` rest t.
Proof.
  destruct 1 as [s j h m k l E _ _|s j h m k l E|s j h e l E _]; intros Hi;
    (apply list_lookup_insert_Some in Hi as [(<- & <- & _)|[_ Hi]]; [|by exists t']); eexists; (split; [exact E|]); cbn;
    by apply suffix_cons_r.
Qed.

Lemma lock_steps_suffix w s s' i t' :
  rtc (lock_step w) s s' → s' !! i = Some t' → ∃ t, s !! i = Some t ∧ rest t' `suffix_of` rest t.
Proof.
  intros Hs. revert t'. induction Hs as [s|s1 s2 s3 H1 _ IH]; intros t' Hi; [by exists t'|].
  destruct (IH t' Hi) as (t2 & Hi2 & Hsuf2). destruct (lock_step_suffix w s1 s2 i t2 H1 Hi2) as (t1 & Hi1 & Hsuf1).
  exists t1. split; [done|]. by etrans.
Qed.
End semantics.

(** ** Which actions a run can contain *)
Fixpoint mentions (P : action → bool) (c : code) : bool :=
  match c with
  | Skip | Return => false
  | Do a => P a
  | Seq c1 c2 | Either c1 c2 => mentions P c1 || mentions P c2
  | Repeat c | Call c => mentions P c
  end.

Lemma runs_mentions P c l r : runs c l r → mentions P c = false → Forall (λ a, P a = false) l.
Proof.
  induction 1; cbn; rewrite ?orb_false_iff; intros; rewrite ?Forall_app; repeat constructor; naive_solver.
Qed.

(** ** What goes wrong without the discipline

    Two goroutines that take two mutexes in opposite orders can both wait for
    ever, and so does whoever comes after a missing [Unlock]; the checker refuses
    both. *)
Example opposite_orders_deadlock stuck w s' :
  ¬ lock_step stuck w
      [mkThread [(Write, ServerMu)] [Lock Write (StreamMu 0)]; mkThread [(Write, StreamMu 0)] [Lock Write ServerMu]] s'.
Proof.
  inversion 1 as [? i h m k l E Hc _|? i h m k l E|? i h e l E _]; subst; destruct i as [|[|i]]; simplify_eq/=.
  - by apply (Hc 1 _ Write eq_refl), list_elem_of_singleton.
  - by apply (Hc 0 _ Write eq_refl), list_elem_of_singleton.
Qed.

Example opposite_order_refused :
  disciplined (Seq (Do (Lock Write (StreamMu 0))) (Seq (Do (Lock Write ServerMu))
    (Seq (Do (Unlock Write ServerMu)) (Do (Unlock Write (StreamMu 0)))))) = false.
Proof. reflexivity. Qed.

Example missing_unlock_refused :
  disciplined (Seq (Do (Lock Write ServerMu)) (Seq (Either Return Skip) (Do (Unlock Write ServerMu)))) = false.
Proof. reflexivity. Qed.
