(* ===== verification/ServerLocks.v ===== *)
(** * The locks of the program (server.go, storage.go, redis.go, domain.go, admin.go)

    Every function that takes a mutex, by its control flow, its [Lock]s and
    [Unlock]s and the calls in which it waits for a client or for Redis (see
    Locks.v). Branches on data are taken either way, loops run any number of
    times, so that every path of the source is a run of the code here. The
    checker accepts all of it, hence: no deadlock, and a client or a Redis that
    does not answer holds up only those who wait for it themselves. *)
From S2P Require Import Prelude Locks.
Open Scope code_scope.

(** ** MemoryStorage (storage.go) *)
Definition Get_locks : code := WithLock Read MemoryMu Skip.
Definition Update_locks : code := WithLock Write MemoryMu (Either (Return) (Skip)).
Definition Reset_locks : code := WithLock Write MemoryMu Skip.
Definition All_locks : code := WithLock Read MemoryMu Skip.
Definition Len_locks : code := WithLock Read MemoryMu Skip.
Definition Clear_locks : code := WithLock Write MemoryMu Skip.
Definition MemoryStorage_RecordUsage_locks : code := Call Update_locks.
Definition MemoryStorage_RemoveBucket_locks : code := Call Reset_locks.

(** ** RedisStorage (redis.go); its fallback is a MemoryStorage *)
Definition shouldRetry_locks : code := WithLock Read RedisMu Skip.
Definition trip_locks : code := WithLock Write RedisMu Skip.

Definition flushFallback_locks : code :=
  Call All_locks ;;
  Either Return Skip ;;             (* no entries *)
  Do (Wait RedisCall) ;;            (* pipe.Exec *)
  Call Clear_locks.

Definition recoverFromFallback_locks : code :=
  Call flushFallback_locks ;;
  WithLock Write RedisMu Skip.

Definition RedisStorage_RecordUsage_locks : code :=
  Either                            (* s.isTripped(), an atomic *)
    (Call shouldRetry_locks ;;
     Either (Do (Wait RedisCall) ;; Either (Call recoverFromFallback_locks ;; Return) Skip) Skip ;;
     Either (Call Len_locks ;; Either (Call Get_locks ;; Either Return Skip) Skip) Skip ;;
     Call MemoryStorage_RecordUsage_locks ;;
     Return)
    Skip ;;
  Do (Wait RedisCall) ;;
  Either (Call trip_locks ;; Call MemoryStorage_RecordUsage_locks ;; Return) Skip.

Definition RedisStorage_RemoveBucket_locks : code :=
  Either
    (Call shouldRetry_locks ;;
     Either (Do (Wait RedisCall) ;; Either (Call recoverFromFallback_locks ;; Return) Skip) Skip ;;
     Call MemoryStorage_RemoveBucket_locks ;;
     Return)
    Skip ;;
  Do (Wait RedisCall) ;;
  Either (Call trip_locks ;; Call MemoryStorage_RemoveBucket_locks ;; Return) Skip.

(** The store the program was started with. *)
Definition RecordUsage_locks (redis : bool) : code :=
  if redis then RedisStorage_RecordUsage_locks else MemoryStorage_RecordUsage_locks.
Definition RemoveBucket_locks (redis : bool) : code :=
  if redis then RedisStorage_RemoveBucket_locks else MemoryStorage_RemoveBucket_locks.

(** ** DomainClassifier (domain.go): the [n]-th classifier *)
Definition Classify_locks (n : nat) : code :=
  Do (Lock Read (ClassifierMu n)) ;;
  Either (Do (Unlock Read (ClassifierMu n)) ;; Return) Skip ;;
  Do (Unlock Read (ClassifierMu n)) ;;
  Either Return Skip ;;             (* no pattern matches *)
  WithLock Write (ClassifierMu n) (Either Return Skip ;; Either Return Skip).

(** ** RLQSServer (server.go) *)
Section server.
Variable redis : bool.
(** The classifier in use when the stream was bound. *)
Variable classifier : nat.

(** [ss.sendMu] around [stream.Send]. *)
Definition send_locks (id : nat) : code :=
  Do (Lock Write (SendMu id)) ;; Do (Wait (SendTo id)) ;; Do (Unlock Write (SendMu id)).

(** [bucketRefs] under [s.mu]; the last reference removes the bucket. *)
Definition release_locks : code :=
  Do (Lock Write ServerMu) ;;
  Either (Do (Unlock Write ServerMu) ;; Call (RemoveBucket_locks redis)) (Do (Unlock Write ServerMu)).

Definition bind_locks (id : nat) : code :=
  Do (Lock Write (StreamMu id)) ;;
  Either (Either (Do (Unlock Write (StreamMu id)) ;; Return) Skip ;; Call (Classify_locks classifier)) Skip ;;
  Either (Do (Unlock Write (StreamMu id)) ;; Return) Skip ;;
  Do (Unlock Write (StreamMu id)).

Definition usage_locks (id : nat) : code :=
  Do (Lock Write (StreamMu id)) ;;
  Either (Either (Do (Unlock Write (StreamMu id)) ;; Return) Skip) Skip ;;
  Do (Unlock Write (StreamMu id)) ;;
  Either (Do (Lock Write ServerMu) ;; Do (Unlock Write ServerMu)) Skip ;;
  Call (RecordUsage_locks redis).

Definition abandon_locks (id : nat) : code :=
  Do (Lock Write (StreamMu id)) ;;
  Either (Do (Unlock Write (StreamMu id)) ;; release_locks) (Do (Unlock Write (StreamMu id))).

Definition handleMessage_locks (id : nat) : code :=
  bind_locks id ;;
  Either Return Skip ;;             (* no usages *)
  Either Return Skip ;;             (* too many of them *)
  Repeat (Either (Either Return Skip ;; usage_locks id) Skip) ;;
  Either Return Skip ;;             (* engine error *)
  Either Return Skip ;;             (* no actions *)
  Repeat (Either (abandon_locks id) Skip) ;;
  send_locks id.

Definition cleanupStream_locks : code :=
  Do (Lock Write ServerMu) ;; Do (Unlock Write ServerMu) ;;
  Either Return Skip ;;             (* no domain was bound *)
  Repeat release_locks.

(** A whole RPC: the loop ends when receiving or handling fails, and the
    deferred cleanup runs. *)
Definition StreamRateLimitQuotas_locks (id : nat) : code :=
  Do (Lock Write ServerMu) ;; Do (Unlock Write ServerMu) ;;
  Call (Repeat (Do (Wait (RecvFrom id)) ;; Either Return Skip ;; Call (handleMessage_locks id) ;; Either Return Skip)) ;;
  Call cleanupStream_locks.

(** One iteration of the loop of [pushAssignments]; [continue] leaves it. *)
Definition push_stream_locks (id : nat) : code :=
  Do (Lock Write (StreamMu id)) ;;
  Either (Do (Unlock Write (StreamMu id)) ;; Return) Skip ;;
  Do (Unlock Write (StreamMu id)) ;;
  Either Return Skip ;;             (* engine error *)
  Either Return Skip ;;             (* no actions *)
  send_locks id.

Definition pushAssignments_locks (ids : list nat) : code :=
  Do (Lock Write ServerMu) ;; Do (Unlock Write ServerMu) ;;
  ForEach ids push_stream_locks.

Definition StreamStats_locks (ids : list nat) : code :=
  WithLock Write ServerMu (ForEach ids (λ id, Do (Lock Write (StreamMu id)) ;; Do (Unlock Write (StreamMu id)))).
End server.

(** ** Handler (admin.go) *)
Definition SetPendingRestartChanges_locks : code := WithLock Write AdminMu Skip.
Definition handleDebugConfig_locks : code := Do (Lock Read AdminMu) ;; Do (Unlock Read AdminMu).
Definition handleDebugBuckets_locks (redis : bool) : code := if redis then Return else Call All_locks.

(** ** The goroutines of the program *)
Inductive goroutine_kind :=
| GoStream (id classifier : nat)    (* the handler of an RPC *)
| GoPush (ids : list nat)           (* the push after a swap of the engine, to these streams *)
| GoStats (ids : list nat)          (* /debug/streams *)
| GoBuckets                         (* /debug/buckets *)
| GoConfig                          (* /debug/config *)
| GoReload.                         (* the reload loop, recording the pending changes *)

Definition goroutine_code (redis : bool) (g : goroutine_kind) : code :=
  match g with
  | GoStream id n => StreamRateLimitQuotas_locks redis n id
  | GoPush ids => pushAssignments_locks ids
  | GoStats ids => StreamStats_locks ids
  | GoBuckets => handleDebugBuckets_locks redis
  | GoConfig => handleDebugConfig_locks
  | GoReload => SetPendingRestartChanges_locks
  end.

(** Each goroutine is about to run one of its paths. *)
Definition started (redis : bool) : list goroutine_kind → list thread → Prop :=
  Forall2 (λ g t, held t = [] ∧ ∃ r, runs (goroutine_code redis g) (rest t) r).

(** ** The discipline is kept

    Computing the checker, with what is known of the functions called. *)
Ltac check_locks :=
  repeat first
    [ progress cbn -[decide bool_decide]
    | match goal with E : check _ _ ?c = _ |- context [check _ _ ?c] => rewrite E end
    | rewrite decide_True by done
    | rewrite bool_decide_eq_true_2 by done ];
  done.

(** A function that is called by others, seen only through [check]. *)
Ltac called c := let f := fresh "f" in generalize (Call c); intros f.

(** Calls of the store are made with nothing held. *)
Lemma store_calls_checked redis exit :
  check exit [] (Call (RecordUsage_locks redis)) = Some (Some []) ∧
  check exit [] (Call (RemoveBucket_locks redis)) = Some (Some []).
Proof. destruct redis; split; check_locks. Qed.

Lemma classify_checked n id exit :
  check exit [(Write, StreamMu id)] (Call (Classify_locks n)) = Some (Some [(Write, StreamMu id)]).
Proof. check_locks. Qed.

Lemma message_checked redis n id exit :
  check exit [] (Call (handleMessage_locks redis n id)) = Some (Some []).
Proof.
  destruct (store_calls_checked redis []) as [E1 E2]. pose proof (classify_checked n id []) as E3. revert E1 E2 E3.
  unfold handleMessage_locks, bind_locks, usage_locks, abandon_locks, release_locks.
  called (RecordUsage_locks redis). called (RemoveBucket_locks redis). called (Classify_locks n).
  intros E1 E2 E3. check_locks.
Qed.

Lemma cleanup_checked redis exit : check exit [] (Call (cleanupStream_locks redis)) = Some (Some []).
Proof.
  destruct (store_calls_checked redis []) as [_ E]. revert E. unfold cleanupStream_locks, release_locks.
  called (RemoveBucket_locks redis). intros E. check_locks.
Qed.

Lemma stream_checked redis n id : disciplined (StreamRateLimitQuotas_locks redis n id) = true.
Proof.
  pose proof (message_checked redis n id []) as E1. pose proof (cleanup_checked redis []) as E2. revert E1 E2.
  unfold disciplined, StreamRateLimitQuotas_locks.
  called (handleMessage_locks redis n id). called (cleanupStream_locks redis). intros E1 E2. check_locks.
Qed.

(** A loop over streams, with what is held before it. *)
Lemma for_each_checked {A} exit h (l : list A) f :
  (∀ x, check exit h (Call (f x)) = Some (Some h)) → check exit h (ForEach l f) = Some (Some h).
Proof. intros Hf. induction l as [|x l IH]; [done|]. cbn [ForEach foldr]. cbn [check] in *. by rewrite Hf. Qed.

Lemma push_checked ids : disciplined (pushAssignments_locks ids) = true.
Proof.
  assert (check [] [] (ForEach ids push_stream_locks) = Some (Some [])) as E by (apply for_each_checked; intros id; check_locks).
  revert E. unfold disciplined, pushAssignments_locks. generalize (ForEach ids push_stream_locks). intros c E. check_locks.
Qed.

Lemma stats_checked ids : disciplined (StreamStats_locks ids) = true.
Proof.
  unfold disciplined, StreamStats_locks, WithLock.
  pose proof (for_each_checked [(Write, ServerMu)] [(Write, ServerMu)] ids
    (λ id, Seq (Do (Lock Write (StreamMu id))) (Do (Unlock Write (StreamMu id)))) ltac:(intros id; check_locks)) as E.
  revert E. generalize (ForEach ids (λ id, Seq (Do (Lock Write (StreamMu id))) (Do (Unlock Write (StreamMu id))))).
  intros c E. check_locks.
Qed.

Lemma goroutines_checked redis g : disciplined (goroutine_code redis g) = true.
Proof.
  destruct g as [id n|ids|ids| | |]; [apply stream_checked|apply push_checked|apply stats_checked|..];
    destruct redis; reflexivity.
Qed.

Lemma started_well_behaved redis gs s : started redis gs s → Forall well_behaved s.
Proof.
  intros Hs. eapply Forall2_Forall_r; [exact Hs|]. apply Forall_true. intros g t [Hh [r Hr]].
  unfold well_behaved. rewrite Hh. by eapply disciplined_acts, Hr; apply goroutines_checked.
Qed.

(** ** Whom a goroutine waits for *)
Definition clients_of (g : goroutine_kind) : list nat :=
  match g with GoStream id _ => [id] | GoPush ids => ids | _ => [] end.

(** A goroutine waits for its own clients and for Redis only. *)
Definition foreign (g : goroutine_kind) (a : action) : bool :=
  match a with
  | Lock _ (SendMu id) | Wait (SendTo id) | Wait (RecvFrom id) => negb (bool_decide (id ∈ clients_of g))
  | Wait RedisCall => false
  | _ => false
  end.

Lemma for_each_mentions {A} P (l : list A) f :
  (∀ x, x ∈ l → mentions P (f x) = false) → mentions P (ForEach l f) = false.
Proof.
  induction l as [|x l IH]; intros Hf; [done|]. cbn. rewrite Hf by set_solver. apply IH. set_solver.
Qed.

Lemma goroutine_foreign redis g : mentions (foreign g) (goroutine_code redis g) = false.
Proof.
  destruct g as [id n|ids|ids| | |]; cbn [goroutine_code]; [| | |destruct redis; reflexivity..].
  - destruct redis; cbn -[bool_decide]; rewrite !bool_decide_eq_true_2 by (cbn; set_solver); reflexivity.
  - unfold pushAssignments_locks. cbn [mentions foreign orb]. apply for_each_mentions. intros id Hid.
    cbn -[bool_decide]. by rewrite bool_decide_eq_true_2.
  - unfold StreamStats_locks. cbn [mentions WithLock foreign orb]. by rewrite for_each_mentions.
Qed.

(** What a goroutine that is parked waits for: a client of its own, or Redis. *)
Lemma parked_waits redis stuck w gs s s' i g t :
  started redis gs s → rtc (lock_step stuck w) s s' → gs !! i = Some g → s' !! i = Some t → parked stuck t →
  stuck RedisCall = true ∨
  ∃ id, id ∈ clients_of g ∧ (stuck (SendTo id) = true ∨ stuck (RecvFrom id) = true).
Proof.
  intros Hst Hs Hg Hi Hp. destruct (lock_steps_suffix stuck w s s' i t Hs Hi) as (t0 & Hi0 & Hsuf).
  destruct (Forall2_lookup_l _ _ _ _ _ Hst Hg) as (t0' & Hi0' & _ & r & Hr). simplify_eq.
  pose proof (runs_mentions _ _ _ _ Hr (goroutine_foreign redis g)) as Hall.
  rewrite Forall_forall in Hall. unfold parked in Hp. destruct (rest t) as [|a l] eqn:Et; [done|].
  assert (foreign g a = false) as Ha.
  { apply Hall. destruct Hsuf as [p Ep]. rewrite Ep. set_solver. }
  unfold foreign in Ha. destruct a as [m k|m k|[id|id|]]; try done; [destruct k as [| |id| | | |]; try done|..];
    try (apply negb_false_iff, bool_decide_eq_true in Ha; right; exists id; by auto).
  by left.
Qed.

(** ** Properties *)

(** C7: the locks never deadlock: take any goroutines of the program (handlers of
    RPCs, pushes, admin requests, the reload loop), over either store, each on
    some path of its code, and any schedule; let [stuck] be the calls to clients
    and to Redis that never return. Every run is finite, at most as long as the
    actions to do. At every moment some goroutine can go on, even if readers
    wait for waiting writers, unless every goroutine has returned, with no mutex
    held, or is waiting for such a call, or for the [sendMu] of a client whose
    call is one. If every call returns, all goroutines return. *)
Theorem locks_never_deadlock redis stuck gs s s' :
  started redis gs s → rtc (lock_step stuck false) s s' →
  (∀ n s'', nsteps (lock_step stuck false) n s' s'' → n <= work s') ∧
  ((∃ s'', lock_step stuck true s' s'') ∨
   ∀ i t, s' !! i = Some t → rest t = [] ∧ held t = [] ∨
     match rest t with
     | Wait e :: _ => stuck e = true
     | Lock _ (SendMu id) :: _ => stuck (SendTo id) = true
     | _ => False
     end) ∧
  ((∀ e, stuck e = false) →
   (∃ s'', lock_step stuck true s' s'') ∨ Forall (λ t, rest t = [] ∧ held t = []) s').
Proof.
  intros Hst Hs. pose proof (lock_steps_well_behaved stuck false s s' Hs (started_well_behaved redis gs s Hst)) as Hwb.
  assert ((∃ s'', lock_step stuck true s' s'') ∨
    ∀ i t, s' !! i = Some t → rest t = [] ∧ held t = [] ∨ parked stuck t) as Hmain.
  { destruct (step_dec stuck s') as [Hex|Hno]; [by left|right]. intros i t Hi.
    destruct (final_parked stuck s' i t Hwb Hno Hi) as [Hr|Hp]; [left|by right]. split; [done|].
    rewrite Forall_lookup in Hwb. specialize (Hwb i t Hi). unfold well_behaved in Hwb. rewrite Hr in Hwb. cbn in Hwb.
    by injection Hwb. }
  split; [intros n s'' Hn%lock_steps_work; lia|]. split; [exact Hmain|]. intros Hall.
  destruct Hmain as [?|Hrest]; [by left|right]. apply Forall_lookup. intros i t Hi.
  destruct (Hrest i t Hi) as [?|Hp]; [done|]. unfold parked in Hp.
  destruct (rest t) as [|[? []| |] ?]; try done; by rewrite Hall in Hp.
Qed.

(** C8: a client that does not read, or does not write, holds up no one else:
    whatever calls to clients never return, as long as Redis answers, some
    goroutine can go on until every goroutine that serves none of these clients
    has returned: the handlers of all other streams, the admin requests and the
    reload loop. Only the push, which sends to all streams in turn, and the
    handler of the client itself can be left waiting. *)
Theorem slow_client_isolated redis stuck gs s s' :
  stuck RedisCall = false → started redis gs s → rtc (lock_step stuck false) s s' →
  (∃ s'', lock_step stuck true s' s'') ∨
  ∀ i g t, gs !! i = Some g → s' !! i = Some t →
    (∀ id, id ∈ clients_of g → stuck (SendTo id) = false ∧ stuck (RecvFrom id) = false) →
    rest t = [] ∧ held t = [].
Proof.
  intros Hredis Hst Hs.
  pose proof (lock_steps_well_behaved stuck false s s' Hs (started_well_behaved redis gs s Hst)) as Hwb.
  destruct (step_dec stuck s') as [Hex|Hno]; [by left|right]. intros i g t Hg Hi Hfree.
  destruct (final_parked stuck s' i t Hwb Hno Hi) as [Hr|Hp].
  - split; [done|]. rewrite Forall_lookup in Hwb. specialize (Hwb i t Hi). unfold well_behaved in Hwb.
    rewrite Hr in Hwb. cbn in Hwb. by injection Hwb.
  - destruct (parked_waits redis stuck false gs s s' i g t Hst Hs Hg Hi Hp) as [?|(id & Hid & Hstuck)]; [congruence|].
    destruct (Hfree id Hid) as [E1 E2]. rewrite E1, E2 in Hstuck. by destruct Hstuck.
Qed.

(** One client that does not read stalls the push to all streams that come after
    it in the snapshot: what the push has to do after the call that never
    returns stays to be done in every later state. *)
Theorem push_stalled_by_slow_client redis stuck w gs s s' n ids t id l1 l2 j :
  started redis gs s → gs !! n = Some (GoPush ids) → s !! n = Some t →
  rest t = l1 ++ Wait (SendTo id) :: l2 → stuck (SendTo id) = true → Wait (SendTo j) ∈ l2 →
  rtc (lock_step stuck w) s s' →
  ∃ t', s' !! n = Some t' ∧ Wait (SendTo j) ∈ rest t'.
Proof.
  intros _ _ Hn Er Hst Hj Hs.
  destruct (lock_steps_stuck stuck w s s' n t (SendTo id) l2 Hs Hst Hn) as (t' & Hn' & [p Ep]); [by exists l1|].
  exists t'. split; [done|]. rewrite Ep. set_solver.
Qed.

(** A push to streams 0 and 1, a session of stream 1 whose client sends nothing,
    and a request for the configuration. *)
Definition demo_kinds : list goroutine_kind := [GoPush [0; 1]; GoStream 1 0; GoConfig].

Definition demo_push_path (id : nat) : list action :=
  [Lock Write (StreamMu id); Unlock Write (StreamMu id);
   Lock Write (SendMu id); Wait (SendTo id); Unlock Write (SendMu id)].

Definition demo_threads : list thread :=
  [mkThread [] ([Lock Write ServerMu; Unlock Write ServerMu] ++ demo_push_path 0 ++ demo_push_path 1);
   mkThread [] [Lock Write ServerMu; Unlock Write ServerMu; Lock Write ServerMu; Unlock Write ServerMu];
   mkThread [] [Lock Read AdminMu; Unlock Read AdminMu]].

(** Taking the second branch wherever there is a choice, and no iteration of a
    loop over data, is a path. *)
Fixpoint straight (c : code) : list action * bool :=
  match c with
  | Skip => ([], false)
  | Do a => ([a], false)
  | Return => ([], true)
  | Seq c1 c2 =>
      let '(l1, r) := straight c1 in
      if r then (l1, true) else let '(l2, r) := straight c2 in (l1 ++ l2, r)
  | Either _ c2 => straight c2
  | Repeat _ => ([], false)
  | Call c => ((straight c).1, false)
  end.

Lemma straight_runs c : runs c (straight c).1 (straight c).2.
Proof.
  induction c as [|a| |c1 IH1 c2 IH2|c1 IH1 c2 IH2|c IH|c IH]; cbn; [constructor..| | | |].
  - destruct (straight c1) as [l1 [|]]; cbn in *; [by constructor|].
    destruct (straight c2) as [l2 r]; cbn in *. by constructor.
  - by apply runs_right.
  - constructor.
  - by econstructor.
Qed.

Lemma demo_started redis : started redis demo_kinds demo_threads.
Proof.
  repeat (constructor; [split; [reflexivity|]|]); [| | |constructor].
  - exists false. exact (straight_runs (goroutine_code redis (GoPush [0; 1]))).
  - exists false. exact (straight_runs (goroutine_code redis (GoStream 1 0))).
  - exists false. exact (straight_runs (goroutine_code redis GoConfig)).
Qed.

Lemma locks_never_deadlock_witness :
  (∃ s'', lock_step (λ _, false) true demo_threads s'') ∨ Forall (λ t, rest t = [] ∧ held t = []) demo_threads.
Proof.
  exact (proj2 (proj2 (locks_never_deadlock true (λ _, false) demo_kinds demo_threads demo_threads
    (demo_started true) (rtc_refl _ _))) (λ _, eq_refl)).
Defined.

(** The same goroutines later: the push waits for client 0, who does not read,
    with its [sendMu]; the others have returned. *)
Definition demo_stalled : list thread :=
  [mkThread [(Write, SendMu 0)] (Wait (SendTo 0) :: Unlock Write (SendMu 0) :: demo_push_path 1);
   mkThread [] []; mkThread [] []].

Lemma can_lock_free m k s : bool_decide (Forall (λ t, k ∉ (held t).*2) s) = true → can_lock m k s.
Proof.
  rewrite bool_decide_eq_true, Forall_lookup. intros Hf.
  assert (free k s) as Hfree.
  { intros i t m' Hi Hin. apply (Hf i t Hi), list_elem_of_fmap. by exists (m', k). }
  destruct m; [|done]. intros i t Hi. by eapply Hfree.
Qed.

Lemma demo_stalled_steps : rtc (lock_step (λ e, bool_decide (e = SendTo 0)) false) demo_threads demo_stalled.
Proof.
  do 2 (eapply rtc_l; [eapply (ls_lock _ _ _ 0); [reflexivity|by apply can_lock_free|done]|]; cbn;
        eapply rtc_l; [by eapply (ls_unlock _ _ _ 0)|]; cbn).
  eapply rtc_l; [eapply (ls_lock _ _ _ 0); [reflexivity|by apply can_lock_free|done]|]; cbn.
  do 2 (eapply rtc_l; [eapply (ls_lock _ _ _ 1); [reflexivity|by apply can_lock_free|done]|]; cbn;
        eapply rtc_l; [by eapply (ls_unlock _ _ _ 1)|]; cbn).
  eapply rtc_l; [eapply (ls_lock _ _ _ 2); [reflexivity|by apply can_lock_free|done]|]; cbn.
  eapply rtc_l; [by eapply (ls_unlock _ _ _ 2)|]. cbn. apply rtc_refl.
Qed.

Lemma slow_client_isolated_witness :
  (∃ s'', lock_step (λ e, bool_decide (e = SendTo 0)) true demo_stalled s'') ∨
  ∀ i g t, demo_kinds !! i = Some g → demo_stalled !! i = Some t →
    (∀ id, id ∈ clients_of g → bool_decide (SendTo id = SendTo 0) = false ∧ bool_decide (RecvFrom id = SendTo 0) = false) →
    rest t = [] ∧ held t = [].
Proof.
  exact (slow_client_isolated true (λ e, bool_decide (e = SendTo 0)) demo_kinds demo_threads demo_stalled
    eq_refl (demo_started true) demo_stalled_steps).
Defined.
