(* ===== verification/Realization.v ===== *)
(** * The specification is realized at the locks

    Every event of the abstract service is a run of the critical sections of
    Interleaving.v in which one stream's handler is not interrupted. With the
    refinement of Server.v this ties the three models together: what the
    handlers of Server.v do is one of the interleavings. *)
From S2P Require Import Prelude GoStd Proto BucketKey Storage Service Config Quota DomainClassifier.
From S2P Require Import Server ServerInv ServerProps ServerMessages Refinement Interleaving.

(** A state of the specification and a resting state of the goroutines. *)
Record realizes (v : Service) (s : shared) : Prop := {
  rz_rest : quiescent s;
  rz_subs : subs <$> goroutines s = cl_subs <$> sv_clients v;
  rz_ledger : buckets (ledger s) = sv_ledger v;
}.

Lemma realizes_lookup v s id c :
  realizes v s → sv_clients v !! id = Some c →
  ∃ g, goroutines s !! id = Some g ∧ subs g = cl_subs c ∧ todo g = [].
Proof.
  intros Hr Hid. pose proof (f_equal (.!! id) (rz_subs v s Hr)) as E. cbn in E.
  rewrite !lookup_fmap, Hid in E. destruct (goroutines s !! id) as [g|] eqn:Hg; cbn in E; [|done].
  exists g. split_and!; [done|by injection E|exact (rz_rest v s Hr id g Hg)].
Qed.

Lemma realizes_lookup_None v s id :
  realizes v s → sv_clients v !! id = None → goroutines s !! id = None.
Proof.
  intros Hr Hid. pose proof (f_equal (.!! id) (rz_subs v s Hr)) as E. cbn in E.
  rewrite !lookup_fmap, Hid in E. by destruct (goroutines s !! id).
Qed.

(** Both sides agree on who is subscribed. *)
Lemma realizes_all_subs v s k :
  subs <$> goroutines s = cl_subs <$> sv_clients v →
  k ∈ all_subs (sv_clients v) ↔ ∃ id g, goroutines s !! id = Some g ∧ k ∈ subs g.
Proof.
  intros E. rewrite elem_of_all_subs.
  assert (∀ id, cl_subs <$> sv_clients v !! id = subs <$> goroutines s !! id) as Hid
    by (intros id; rewrite <-!lookup_fmap; by rewrite E).
  split.
  - intros (id & c & Hc & Hk). specialize (Hid id). rewrite Hc in Hid.
    destruct (goroutines s !! id) as [g|] eqn:Hg; [|done]. exists id, g. cbn in Hid. injection Hid as <-. done.
  - intros (id & g & Hg & Hk). specialize (Hid id). rewrite Hg in Hid.
    destruct (sv_clients v !! id) as [c|] eqn:Hc; [|done]. exists id, c. cbn in Hid. injection Hid as ->. done.
Qed.

(** ** Undisturbed handlers *)
Lemma quiescent_put s id g : quiescent s → todo g = [] → quiescent (with_goroutine id g s).
Proof. intros Hq Hg. by apply map_Forall_insert_2. Qed.

Lemma run_report s id g k a d :
  goroutines s !! id = Some g → todo g = [] →
  ∃ s', rtc interleave s s' ∧
    goroutines s' = <[id := mkGoroutine ({[k]} ∪ subs g) []]> (goroutines s) ∧
    ledger s' = Update k a d (ledger s).
Proof.
  intros Hid Hg. set (g1 := begin_report k a d g).
  pose proof (il_report s id g k a d Hid Hg) as H1. fold g1 in H1.
  unfold begin_report in g1. destruct (decide (k ∈ subs g)) as [Hk|Hk].
  - eexists. split; [eapply rtc_l; [exact H1|]; apply rtc_once;
      apply (il_run _ id g1 (Record_ k a d) []); [apply lookup_insert_eq|done]|].
    cbn. rewrite insert_insert_eq. split; [|done]. do 2 f_equal. set_solver.
  - eexists. split; [eapply rtc_l; [exact H1|]; eapply rtc_l;
      [apply (il_run _ id g1 (IncRef k) [Record_ k a d]); [apply lookup_insert_eq|done]|]; apply rtc_once;
      apply (il_run _ id (mkGoroutine ({[k]} ∪ subs g) [Record_ k a d]) (Record_ k a d) []);
        [apply lookup_insert_eq|done]|].
    cbn. rewrite !insert_insert_eq. done.
Qed.

(** One release, with the removal it may lead to. *)
Lemma run_release s id g k rest :
  il_inv s → goroutines s !! id = Some g → todo g = Release k :: rest →
  ∃ s', rtc interleave s s' ∧ goroutines s' = <[id := mkGoroutine (subs g) rest]> (goroutines s) ∧
    ledger s' = (if decide (total k (goroutines s') = 0%Z) then Reset k (ledger s) else ledger s).
Proof.
  intros Hinv Hid Hg. pose proof (il_run s id g (Release k) rest Hid Hg) as H1.
  set (gs := <[id := mkGoroutine (subs g) rest]> (goroutines s)).
  assert (total k gs = total k (goroutines s) - 1)%Z as Ht.
  { unfold gs. rewrite (total_put k _ id g) by done. unfold weight. rewrite Hg. cbn.
    fold (todo_weight k rest). rewrite (decide_True (P := k = k)) by done. lia. }
  assert (0 <= total k gs)%Z as Hnn.
  { apply total_nonneg, map_Forall_insert_2; [|apply Hinv]. apply at_releasing. cbn.
    destruct (il_at s Hinv id g Hid) as [? ? ? ? E|? ? ? ? E|Hr]; [congruence..|].
    rewrite Hg in Hr. by apply Forall_cons in Hr as [_ ?]. }
  revert H1. cbn. rewrite lookup_label_add, decide_True by done. cbn [default from_option].
  rewrite (il_refs s Hinv), default_of_count. cbn. destruct (Z.leb_spec (total k (goroutines s) + -1) 0); intros H1.
  - eexists. split; [eapply rtc_l; [exact H1|]; apply rtc_once;
      apply (il_run _ id (mkGoroutine (subs g) (Remove k :: rest)) (Remove k) rest);
        [apply lookup_insert_eq|done]|].
    cbn. rewrite insert_insert_eq. split; [done|]. fold gs. by rewrite decide_True by lia.
  - eexists. split; [apply rtc_once; exact H1|]. cbn. split; [done|]. fold gs. by rewrite decide_False by lia.
Qed.

(** All the releases of a handler that ends subscriptions. *)
Lemma run_releases order s id g :
  il_inv s → goroutines s !! id = Some g → todo g = Release <$> order →
  NoDup order → (∀ k, k ∈ order → k ∉ subs g) →
  ∃ s', rtc interleave s s' ∧ goroutines s' = <[id := mkGoroutine (subs g) []]> (goroutines s) ∧
    buckets (ledger s') =
      filter (λ kv, kv.1 ∉ order ∨ (0 < total kv.1 (goroutines s'))%Z) (buckets (ledger s)).
Proof.
  revert s g. induction order as [|k order IH]; intros s g Hinv Hid Hg Hnd Hsubs.
  { exists s. split_and!; [done| |].
    - rewrite insert_id; [done|]. rewrite Hid. destruct g; cbn in *. by subst.
    - symmetry. apply map_filter_id. intros k st _. left. apply not_elem_of_nil. }
  rewrite fmap_cons in Hg. apply NoDup_cons in Hnd as [Hk Hnd].
  destruct (run_release s id g k (Release <$> order) Hinv Hid Hg) as (s1 & Hs1 & Eg1 & El1).
  pose proof (il_inv_steps s s1 Hinv Hs1) as Hinv1.
  destruct (IH s1 (mkGoroutine (subs g) (Release <$> order))) as (s2 & Hs2 & Eg2 & El2); [done|..|done| |].
  { rewrite Eg1. apply lookup_insert_eq. }
  { done. }
  { intros k' Hk'. cbn. apply Hsubs. by right. }
  exists s2. rewrite Eg1, insert_insert_eq in Eg2. split_and!; [by etrans|done|].
  rewrite El2. apply map_eq. intros k'. apply option_eq. intros st. rewrite !map_lookup_filter_Some; cbn.
  assert (total k (goroutines s2) = total k (goroutines s1)) as Et.
  { rewrite Eg1, Eg2, !(total_put k _ id g) by done. unfold weight. cbn [subs todo].
    rewrite todo_weight_order by done. rewrite (decide_False (P := k ∈ order)) by done. cbn. lia. }
  assert (0 <= total k (goroutines s1))%Z as Hnn.
  { apply total_nonneg, Hinv1. }
  rewrite El1, not_elem_of_cons. case_decide as Ez.
  - cbn. rewrite lookup_delete_Some. destruct (decide (k' = k)) as [->|Hne]; [|naive_solver].
    rewrite Et. split; [naive_solver|]. intros [_ [[? _]|?]]; [done|lia].
  - destruct (decide (k' = k)) as [->|Hne]; [|naive_solver]. rewrite Et. split; [|naive_solver].
    intros [? _]. split; [done|]. right. lia.
Qed.

(** Once a handler has given up the keys of [order], what the releases keep is
    what still has a subscriber. *)
Lemma kept_is_subscribed s id g (order : list string) g' (k : string) :
  il_inv s → quiescent s → goroutines s !! id = Some g →
  todo g' = [] → (∀ k : string, k ∈ subs g → k ∉ order → k ∈ subs g') →
  is_Some (buckets (ledger s) !! k) →
  (k ∉ order ∨ (0 < total k (<[id := g']> (goroutines s)))%Z) ↔
    ∃ i h, <[id := g']> (goroutines s) !! i = Some h ∧ k ∈ subs h.
Proof.
  intros Hinv Hq Hid Hg' Hsub Hk.
  assert (map_Forall (λ _ g, todo g = []) (<[id := g']> (goroutines s))) as Hq' by (by apply map_Forall_insert_2).
  rewrite (total_pos_quiescent k _ Hq'). split; [|by right]. intros [Hno|?]; [|done].
  destruct (quiescent_ledger s k Hinv Hq Hk) as (i & h & Hi & Hh). destruct (decide (i = id)) as [->|Hne].
  - exists id, g'. rewrite lookup_insert_eq. simplify_eq. auto.
  - exists i, h. by rewrite lookup_insert_ne.
Qed.

(** A handler that gives up the keys of [order]: the goroutine is left with
    [X], and the ledger with the buckets that have a subscriber. *)
Lemma run_give_up s id g X order :
  il_inv s → quiescent s → goroutines s !! id = Some g →
  interleave s (with_goroutine id (mkGoroutine X (Release <$> order)) s) →
  NoDup order → (∀ k, k ∈ order → k ∉ X) → (∀ k, k ∈ subs g → k ∉ order → k ∈ X) →
  ∃ s', rtc interleave s s' ∧ goroutines s' = <[id := mkGoroutine X []]> (goroutines s) ∧
    ∀ k st, buckets (ledger s') !! k = Some st ↔
      buckets (ledger s) !! k = Some st ∧ ∃ i h, goroutines s' !! i = Some h ∧ k ∈ subs h.
Proof.
  intros Hinv Hq Hid Hstep Hnd Hout Hin.
  destruct (run_releases order _ id (mkGoroutine X (Release <$> order)) (il_inv_step _ _ Hinv Hstep))
    as (s' & Hs' & Eg & El); [apply lookup_insert_eq|done..|].
  cbn in Eg, El. rewrite insert_insert_eq in Eg. exists s'. split_and!; [by eapply rtc_l|done|].
  intros k st. rewrite El, map_lookup_filter_Some. cbn. rewrite Eg.
  split; intros [Hk Hp]; (split; [done|]);
    apply (kept_is_subscribed s id g order (mkGoroutine X []) k Hinv Hq Hid eq_refl Hin (mk_is_Some _ _ Hk)), Hp.
Qed.

Lemma realizes_pruned v s m :
  quiescent s → subs <$> goroutines s = cl_subs <$> m →
  (∀ k st, buckets (ledger s) !! k = Some st ↔
    sv_ledger v !! k = Some st ∧ ∃ i h, goroutines s !! i = Some h ∧ k ∈ subs h) →
  realizes (mkService m (prune m (sv_ledger v))) s.
Proof.
  intros Hq E El. split; [done..|]. cbn. apply map_eq. intros k. apply option_eq. intros st.
  by rewrite El, prune_lookup_Some, <-(realizes_all_subs (mkService m ∅) s k E).
Qed.

(** ** One event at a time *)
Lemma realize_event e v v' s :
  exec e v = Some v' → il_inv s → realizes v s → ∃ s', rtc interleave s s' ∧ realizes v' s'.
Proof.
  intros He Hinv Hr. pose proof Hr as [Hq Es El].
  destruct e as [id|id d|id key a dn|id key|id]; cbn in He;
    destruct (sv_clients v !! id) as [c|] eqn:Hid; try done.
  2-4: destruct c as [[d'|] X]; try done.
  - injection He as <-. pose proof (realizes_lookup_None v s id Hr Hid).
    eexists. split; [by apply rtc_once, il_open|]. split; [by apply quiescent_put| |done].
    cbn. by rewrite !fmap_insert, Es.
  - case_decide; [done|]. injection He as <-. exists s. split; [done|]. split; [done| |done]. cbn.
    rewrite fmap_insert, <-Es, insert_id; [done|]. by rewrite Es, lookup_fmap, Hid.
  - injection He as <-. destruct (realizes_lookup v s id _ Hr Hid) as (g & Hg & Eg & Et). cbn in Eg.
    destruct (run_report s id g (DomainScopedKey d' key) a dn Hg Et) as (s' & Hs' & Egs & Els).
    exists s'. split; [done|]. split.
    + unfold quiescent. rewrite Egs. by apply map_Forall_insert_2.
    + cbn. by rewrite Egs, !fmap_insert, Es, Eg.
    + cbn. by rewrite Els, buckets_Update, El.
  - case_decide as Hk; [|done]. injection He as <-.
    destruct (realizes_lookup v s id _ Hr Hid) as (g & Hg & Eg & Et). cbn in Eg. subst X.
    set (k := DomainScopedKey d' key) in *.
    destruct (run_give_up s id g (subs g ∖ {[k]}) [k]) as (s' & Hs' & Egs & Els); [done..| | | | |].
    { pose proof (il_abandon s id g k Hg Et) as H. unfold begin_abandon in H. by rewrite decide_True in H. }
    { apply NoDup_singleton. } { set_solver. } { set_solver. }
    exists s'. split; [done|]. apply realizes_pruned; [| |by rewrite <-El].
    + unfold quiescent. rewrite Egs. by apply map_Forall_insert_2.
    + by rewrite Egs, !fmap_insert, Es.
  - injection He as <-. destruct (realizes_lookup v s id _ Hr Hid) as (g & Hg & Eg & Et).
    destruct (run_give_up s id g ∅ (elements (subs g))) as (s' & Hs' & Egs & Els); [done..| | | | |].
    { by apply (il_cleanup s id g (elements (subs g)) Hg Et). }
    { apply NoDup_elements. } { set_solver. } { set_solver. }
    pose proof (il_exit s' id (mkGoroutine ∅ [])) as Hexit. rewrite Egs, lookup_insert_eq in Hexit.
    specialize (Hexit eq_refl eq_refl eq_refl). rewrite delete_insert_eq in Hexit.
    eexists. split; [by eapply rtc_r|]. apply realizes_pruned; cbn.
    + by apply map_Forall_delete.
    + by rewrite !fmap_delete, Es.
    + intros k st. rewrite Els, El. apply and_iff_compat_l. rewrite Egs. split; intros (i & h & Hi & Hh).
      * apply lookup_insert_Some in Hi as [[<- <-]|[Hne Hi]]; [set_solver|].
        exists i, h. by rewrite lookup_delete_ne.
      * apply lookup_delete_Some in Hi as [Hne Hi]. exists i, h. by rewrite lookup_insert_ne.
Qed.

Lemma realize_events es v v' s :
  execs es v = Some v' → il_inv s → realizes v s → ∃ s', rtc interleave s s' ∧ realizes v' s'.
Proof.
  revert v s. induction es as [|e es IH]; intros v s; cbn; [intros [= <-]; eauto using rtc_refl|].
  destruct (exec e v) as [v1|] eqn:E; [|done]. cbn. intros Hes Hinv Hr.
  destruct (realize_event e v v1 s E Hinv Hr) as (s1 & Hs1 & Hr1).
  destruct (IH v1 s1 Hes (il_inv_steps _ _ Hinv Hs1) Hr1) as (s2 & Hs2 & Hr2).
  exists s2. split; [by etrans|done].
Qed.

Lemma empty_realized : realizes empty_service initial.
Proof. split; [apply map_Forall_empty|done|done]. Qed.

(** The counts agree when the subscriptions do. *)
Lemma realizes_ref_count `{Regexp, LedgerStore St} (sv : RLQSServer St) s k :
  realizes (abs sv) s → total k (goroutines s) = ref_count k (streams sv).
Proof.
  intros [Hq E _]. unfold total, ref_count.
  rewrite (map_sum_ext _ (λ _ g, if decide (k ∈ subs g) then 1 else 0)%Z).
  2: { intros i g Hg. unfold weight. rewrite (Hq i g Hg). cbn. lia. }
  transitivity (map_sum (λ _ X, if decide (k ∈ X) then 1 else 0)%Z (subs <$> goroutines s)).
  { by rewrite map_sum_fmap. }
  rewrite E. cbn. by rewrite !map_sum_fmap.
Qed.

Lemma realizes_refs `{Regexp, DurationPb, LedgerStore St} l (sv : RLQSServer St) s :
  good l sv → il_inv s → realizes (abs sv) s → refs s = bucketRefs sv.
Proof.
  intros [Hgood _] Hinv Hr. apply map_eq. intros k.
  by rewrite (il_refs s Hinv), (bk_refs _ _ _ (inv_books _ _ Hgood)), (realizes_ref_count sv).
Qed.

(** ** Properties *)

(** C9: the handlers, run one at a time, are interleavings of the critical
    sections: for every state the server reaches with the in-memory store the
    goroutines can reach, from nothing, a state at rest with the same
    subscriptions, the same reference counts and the same stored usage. *)
Theorem handlers_are_interleavings `{Regexp, DurationPb} e cfg classifier (sv : RLQSServer MemoryStorage) :
  rtc server_step (NewRLQS NewMemoryStorage e cfg classifier) sv →
  ∃ s, rtc interleave initial s ∧ quiescent s ∧
    subs <$> goroutines s = scoped_subs <$> streams sv ∧
    refs s = bucketRefs sv ∧ buckets (ledger s) = buckets (store sv).
Proof.
  intros Hsv. assert (usage NewMemoryStorage = ∅) as Hst by done.
  pose proof (good_reachable NewMemoryStorage e cfg classifier sv Hst Hsv) as Hgood.
  destruct (server_simulated NewMemoryStorage e cfg classifier sv Hst Hsv) as (es & Hes).
  destruct (realize_events es _ _ initial Hes (il_inv_reachable _ (rtc_refl _ _)) empty_realized) as (s & Hs & Hr).
  exists s. split_and!; [done|apply Hr| |by eapply realizes_refs; eauto using il_inv_reachable|apply (rz_ledger _ _ Hr)].
  rewrite (rz_subs _ _ Hr). cbn. by rewrite <-map_fmap_compose.
Qed.

Lemma handlers_are_interleavings_witness :
  ∃ s, rtc interleave initial s ∧ quiescent s ∧
    subs <$> goroutines s = scoped_subs <$> streams demo_state ∧
    refs s = bucketRefs demo_state ∧ buckets (ledger s) = buckets (store demo_state).
Proof.
  exact (@handlers_are_interleavings literal_regexp durationpb_split
    demo_engine (cfg_Server default_config) None demo_state demo_steps).
Defined.
